(* ===== verification/_CoqProject ===== *)
-Q . S2P
Prelude.v
Double.v
Dtype.v
IntOps.v
ScalarExpr.v
ConstFold.v
ConstIntBound.v
ModularSet.v
PatternMatch.v
RewriteRules.v
RewriteSound.v
RewriteSimplify.v
Canonical.v
CanonicalSound.v
TransitiveCmp.v
TransitiveSound.v
IntSet.v
IntSetSound.v
Analyzer.v
Watched.v
AnalyzerSound.v
Dsa.v
DsaSearch.v
DsaSpec.v
DsaFit.v
DsaSound.v
DsaSolve.v
Storage.v
L0Tile.v
L0TileSound.v
L0TileBounds.v
Memref.v
MemrefSound.v
MemrefPlan.v
DsaAdapter.v
DsaBuild.v
DsaSeparations.v
DsaPlan.v
DsaPenalties.v
Stmt.v
Lifetime.v
Runs.v
RunsSound.v
LifetimeSound.v
LifetimePlan.v
Constraints.v
Hazards.v
Slots.v
Forbidden.v
Membership.v
