(* ===== verification/Prelude.v ===== *)
(** * PyPTO: scalar arithmetic, storage allocation and tile choice

    PyPTO compiles tensor programs written in Python for an accelerator.  Three
    of its subsystems are modelled here.  The scalar expressions of its intermediate
    representation (loop bounds, shapes, offsets) are folded, bounded and
    simplified by [src/include/pypto/ir/arith] and [src/src/ir/arith], on top of
    the data types of [core/dtype.h] and the nodes of [ir/scalar_expr.h].  The
    buffers of a program are placed in on-chip memory by
    [src/src/ir/transforms/allocate_memory_addr_pass.cpp], with the planner and the
    solver of [src/src/ir/transforms/dsa].  The tiles of its matrix products are chosen by
    [src/src/ir/transforms/utils/l0_tile_chooser.cpp].

    ** How the parts interact

    A pass hands an expression to the simplifier.  The rewrite simplifier visits
    the children, folds constants, rebuilds the node with the promoting
    constructors and tries the rules of the node's kind; a rule is a pattern
    matched with capture, a guard, and a pattern evaluated back to an
    expression, which folds constants again.  Guards ask the interval analyzer.
    Constraint scopes ([if x < 8:]) tighten the state of every analyzer and
    return functions that restore it.  The analyzer owns the five sub-analyzers;
    [CanProve] asks the rewriter, the bounds, the known comparisons and, last,
    the integer sets, which ask the analyzer back: a flag stops the recursion.

    The address pass first gives the reserved buffers of a function their bases;
    what they end at is where the tiles of their space begin.  It then assigns the
    tiles addresses, one by one in the order of the policy, or by the planner.
    The lifetime analysis numbers the statements of the body, finds between which
    of them each allocation holds a value that is still read, loops included, and
    merges the variables that share an allocation.  The constraint analysis walks
    the body as well: it collects the inputs an output must not overwrite, the
    workspaces written, the values loaded or popped from a pipe, and the sizes of
    declared allocations, whose slots it checks with the lifetimes.  The planner
    takes the lifetimes and the constraints of the allocations, derives the pairs
    that must be kept apart, with the reasons, and asks the recognizer for pairs whose reuse would make one pipe wait for
    another.  The adapter turns this into a problem for the solver: buffers with
    sizes, alignments and lifetimes in half steps, pools with reserved ranges,
    pairs that must not overlap and pairs that should not.  When there is no
    placement, the pairs kept apart for the software pipeline alone become
    penalties and the solver runs again.  Each reference gets the address of its
    buffer plus its own offset.  The solver validates it, builds a graph
    of hard and soft neighbours, places the buffers by first fit and by several
    greedy orders, validates each placement and keeps the best.

    The pass that tiles matrix products hands the tile chooser the problem, the
    capacities and alignments of the core and the rates of its units.  The
    chooser scores every tile that fits, in every loop order it may use, by an
    estimate of its running time in doubles, and returns the best.  It rounds
    the rows of the accumulator by the same [L0cPhysicalElements] the memory
    planner sizes buffers with.

    ** Files

    - [Prelude]: the result monad with the errors of [core/error.h] and explicit
      undefined behaviour, [int64_t] arithmetic, the tactics [bool_to_prop],
      [inv_ok] and [lia64].
    - [Double]: the operations on [double] the code uses, rounded after each
      operation (no fused multiply-add), [llround], the order of numbers.
    - [Dtype] ([core/dtype.h]): [DataType] as its code; predicates, sizes,
      printers; [wrap_dtype], what a type reads back from an integer.
    - [IntOps] ([arith/int_operator.h], the overflow tests of
      [arith/const_fold.h]): floor division, extended Euclid, gcd, lcm.
    - [ScalarExpr] ([ir/scalar_expr.h]): the nodes as one inductive type, a kind
      per node class; promotion and the [Make] constructors; [eval], the meaning
      of an expression under a reading of integers ([Sem]).
    - [ConstFold] ([arith/const_fold.h]): every fold, for integers and doubles.
    - [ConstIntBound] ([arith/const_int_bound.cpp]): the interval analyzer, its
      map from variables to bounds, constraints and recovery.
    - [ModularSet] ([arith/modular_set.cpp]): the congruence analyzer.
    - [PatternMatch] ([arith/pattern_match.h]): patterns, captured values
      ([Binds]), matching and evaluation.
    - [RewriteRules] ([arith/rewrite_simplify.cpp]): one rule table per visitor.
    - [RewriteSound]: each rule keeps dtype and value.
    - [RewriteSimplify] ([arith/rewrite_simplify.cpp], [simplify_utils.h],
      [constraint_extract.h]): the visitor, literal constraints.
    - [Canonical] ([arith/canonical_simplify.cpp], [.h]): sums of scaled quotients
      and remainders, their merging, arithmetic and division, and the visitor
      with its cache.  [CanonicalSound]: it keeps dtype and value.
    - [TransitiveCmp] ([arith/transitive_comparison_analyzer.cpp]): comparisons
      known between expressions, the search that chains them, constraints and
      recovery.  [TransitiveSound]: what it derives is true, and the search ends.
    - [IntSet] ([arith/int_set.cpp]): intervals whose ends are expressions, with
      the questions they ask of the analyzer that owns them ([Parent]).
      [IntSetSound]: the interval of an expression contains it, for any parent
      whose answers are right ([ParentSound]).
    - [Analyzer] ([arith/analyzer.cpp]): the five analyzers together, [Bind],
      [Simplify], [CanProve] and constraint scopes.  [Watched]: a run in which no
      question overflows is a run of the code.  [AnalyzerSound]: what it proves
      is true, and leaving a scope restores it.
    - [Dsa] ([transforms/dsa/dsa_reuse_penalty_solver.cpp] and its header):
      problems, placements, their validation, the objective, relaxation.
    - [DsaSearch] (the same file): the search space, the orders, lowest fit,
      first fit, the scored placement of one order, [Solve].
    - [DsaSpec]: what a well-formed problem and a valid placement are; the
      validators decide it.
    - [DsaFit]: sorting, lowest fit, merged ranges and the sweep over candidate
      offsets against direct definitions.
    - [DsaSound]: the graph holds exactly the conflicts, a step keeps a placement
      valid, the cost of a placement is the objective's; [greedy], the
      specification of one order.
    - [DsaSolve]: what [Solve] returns.
    - [Memref] ([ir/memory_space.h], [ir/memref.h], [memory_allocator_policy.h],
      [transforms/utils/memory_footprint.h], [reserve_buffer_utils.h],
      [memref_utils.h], [transforms/allocate_memory_addr_pass.cpp]): memory spaces,
      references, policies, reserved buffers, the sequential walk.
      [MemrefSound]: one space is laid out as a list of aligned, disjoint ranges.
      [MemrefPlan]: reserved ranges, and the plan of a function.
    - [DsaAdapter] ([transforms/dsa/allocation_plan.cpp], [memref_dsa_adapter.cpp],
      [PlanWithDsaRP]): separations, the problem, relaxation, writing back.
      [DsaBuild]: the problem built from a plan.  [DsaSeparations]: the pairs kept
      apart and why.  [DsaPlan]: the planner as a whole.
    - [DsaPenalties] ([transforms/dsa/reuse_penalty_recognizer.cpp]): summaries of
      the accesses of an allocation, the sweep over lifetimes, and what it finds.
    - [Stmt] ([ir/type.h], [expr.h], [stmt.h], [transforms/visitor.cpp]): types,
      variables, expressions and statements as the memory passes read them.
    - [Lifetime] ([transforms/memory_reuse/lifetime_analysis.cpp],
      [transforms/utils/attrs.h]): the walk of [LifetimeAnalyzer] ([visit]), the
      extension over loops ([extend]), the intervals of allocations.
    - [Runs]: the executions of a body as sequences of reads and writes ([runs]),
      and the bodies the analysis is right for ([well_formed]).  [RunsSound]: where
      the events of a run lie.  [LifetimeSound]: the analysis records every read.
      [LifetimePlan]: the intervals cover the runs, and stored values survive.
    - [Constraints] ([transforms/memory_reuse/allocation_constraints.cpp],
      [ir/op_registry.h], [transforms/utils/op_predicates.cpp]): the collectors
      ([hazard_assign], [forbid_assign], [workspace_record], [bound_member]) and
      [AnalyzeAllocationConstraints].  [Hazards]: two walks find every loaded and
      popped value ([Taint], [holds]).  [Slots]: the check of declared slots and
      what it gives in a run.  [Forbidden]: from forbidden inputs to addresses.
    - [Membership] ([transforms/utils/attrs.h]): printing and parsing pipeline
      memberships undo each other.
    - [Storage] ([ir/storage_size.h], [transforms/utils/l0c_footprint.h]): bytes of
      a statically shaped value in a memory space.
    - [L0Tile] ([transforms/utils/l0_tile_chooser.cpp] and its header): budgets,
      costs, the enumeration of tiles, the choice.  [L0TileSound]: what a legal
      tile is ([tile_ok]); the choice is legal and least.  [L0TileBounds]: no
      undefined behaviour for problems of moderate size.

    ** State and operations

    A node is identified by its address in the code.  Variables carry a
    [positive] for it; the analyzers' [unordered_map]s keyed by address are
    [gmap positive]; a null result of a fold is [None].  Identity tests between
    other nodes are the class [PtrEq], of which only [same a b -> a = b] is
    used.  Methods that change an analyzer return the new map, recovery closures
    are the data they capture.  The parent analyzer a guard asks is the class
    [Compare].  The order in which an [unordered_set] is walked is the class
    [SetOrder], any permutation; [std::shuffle] is the class [Shuffle], any
    permutation.  The canonical simplifier caches sums under addresses it does
    not keep alive: the lookup is the class [CacheFind], and [addresses_fresh],
    a hypothesis of [Canonical_sound], says no address was used again.
    [std::set] and [std::map] are [gset] and [gmap], walked in
    ascending order by [ascending] and its variants.

    The analyzer's theorems are about runs in which the expressions the
    sub-analyzers are asked about do not overflow, and the ones the integer sets
    are asked about are [INT64] expressions without casts ([cast_free]: an end of
    an interval may have another type than the expression it bounds).  Such a
    run is written with a test, [Watch], before each question; a run that passes
    the tests is a run without them ([CanProve_watched]), which is the code.

    A policy is an instance of [MemoryAllocatorPolicy]; what clients rely on is
    [PolicyLaws] (an aligned address is the least one not below, ordering permutes),
    which [DefaultMemoryAllocatorPolicy] satisfies.  A reference is its members
    with its address; a base is its variable's address.  The order in which the
    [unordered_map] of spaces is walked is an argument.  A call to
    [system.reserve_buffer] is its address with its two arguments.  [plan_wf] is
    what the planner's theorems ask of the analyses: sizes and lifetimes are
    positive and ordered, every allocation on chip has its own base, relations
    are in range, recognized pairs never live together.

    The lifetime analyzer is its members as a record; each [VisitStmt_] is a case
    of [visit].  A run may take any branch and repeat a loop any number of times.
    A tile stands for the storage of the variable that defines it, a carried name
    and a loop's result for the storage of the loop's initial value, the result of
    a branch for what the branch yields when the branch defines it: other values
    are moved by a later pass, and their storage is not followed.  [well_formed]
    bodies bind a name once, enter loops after the first statement, end loop bodies
    with a statement that defines no tile (a yield), and start a loop that carries
    a tile from a definition, not from the result of a loop or a branch: for
    those the analysis is wrong ([chained_loops_overwritten]).

    What is registered for an operator is an instance of [OpRegistry], a function
    from names to the members of an entry that are read.  The sets a collector
    grows are a record, a walk is a fold over [assignments] or [body_calls], the
    order in which the generic visitor meets them.  Whether a value is a window,
    which the buffer-view analysis decides, is an argument ([Target]).  The walk
    of loads is complete when a travelling value keeps its buffer
    ([two_walks_suffice]); [fillpad_chain_missed] shows a body where it does not.

    The members of a tile problem have the widths of their types ([typed]),
    padded extents included, and bandwidths are finite; what the validation
    checks is [valid].  A design point ([Regime]) is a loop order with a number
    of accumulators.  Loops over [m], [n] and [k] are scans of lists; [searched]
    says that the best candidate so far is the least of a set of tiles.

    ** Readings of integers

    [ideal] (unbounded, conversions wrap), [ideal_cast] (conversions must be
    exact), [int64_sem] and [bounded] (defined only inside [int64_t], or
    strictly between the analyzer's infinities) and [machine] (every result
    wraps at its dtype).  The simplifier's rules are sound for [ideal]: index
    arithmetic is assumed not to overflow, as the code's comments say.  The
    bounds are sound for [bounded].  Folding is sound for all face-value
    readings, and for [machine] in the operations named in
    [TryConstFoldBinary_machine]; comparisons are the exception
    [FoldCompare_machine_diverges].  The storage solver computes in [uint64_t],
    wrap-around written out ([u64]); its specification is over unbounded
    integers.

    ** Groups of theorems

    Soundness of the simplifier ([VisitExpr_sound]) rests on the rules
    ([arithmetic_rules_sound], [logic_rules_sound]), on [Eval_built] (a pattern
    evaluates to what it denotes) and on folding ([TryConstFold_sound]).  The
    canonical simplifier returns, with the same value, whenever every value
    in the expression lies strictly between [INT64_MIN] and [INT64_MAX]
    ([Canonical_sound]).
    Soundness of the analyzers is [bound_sound], [modular_sound] and
    [TransitiveCompare_sound]; totality is [bound_total] and
    [TryCompare_terminates]; scopes are sound and restore the state
    ([bound_constraint_sound], [bound_constraint_recover] and their
    counterparts).  The analyzer over them proves only true conditions, through
    any sequence of bindings and scopes ([CanProve_sound], [Analyzer_invariant]),
    on the symbolic intervals' [int_set_sound]; leaving a scope, after any
    scopes inside it, restores all five states ([scope_restores]).  Errors: [TryConstFold_error].  The integer routines have
    exact specifications over all of [int64_t].  The storage solver refines its
    contract ([Solve_refines]), returns the best placement it saw
    ([Solve_best]), and each order's placement refines a greedy specification
    ([PlaceCanonicalOrder_refines]); [validators_spec] ties the validators to
    the abstract notions.  On top of it the planner is sound from lifetimes to
    addresses ([PlanWithDsaRP_sound]) and, with the lifetimes the analysis gives
    ([AnalyzeAllocationLifetimes_sound]), keeps every stored value until its last
    read ([values_survive]); the outputs of operators stay clear of the inputs they
    must not overwrite ([forbidden_inputs_apart]), declared slots are checked
    pairwise ([ValidateDeclaredAllocs_spec]) and keep their tiles
    ([declared_slots_survive]), and the hazard walks find all there is
    ([HazardInputs_Run_closure]), memberships survive packing ([Membership_roundtrip]).  The planner fails only for lack of space
    ([PlanWithDsaRP_fails]): the separations are the pairwise ones
    ([BuildDsaAllocationPlan_spec]), the problem means what the plan means
    ([BuildProblem_refines]), the recognized pairs are the costly ones
    ([RecognizeReusePenalties_spec], [CompactSummary_spec]).  The sequential plan
    tiles each space ([PlanAddresses_tiles]) above the reserved buffers
    ([PlanAddresses_reserves]), or reports what does not fit
    ([AllocateMemoryAddresses_outcome]).  The tile chosen fits ([ChooseL0Tile_fits]) and has the
    least estimated time of all legal tiles ([ChooseL0Tile_optimal]), without
    overflow up to the sizes of [moderate] ([ChooseL0Tile_defined]); footprints
    are exact ([StaticPhysicalAllocationBytes_spec]).  Theorems named [..._diverges], [..._undefined],
    [..._overflow], [..._negative], [..._uncovered], [..._spins], [..._fires], [..._internal],
    [..._overwritten], [..._missed] and [..._keeps_scoped] exhibit inputs on which the code does not do what it
    promises.

    ** Fuel

    [euclid_fuel] is 128: remainders halve every two turns, so it covers all
    64-bit magnitudes.  [pow_fuel] is 64, one turn per bit of the exponent.  The
    worklist of [ExtractConstraints] has one unit per node.  Each is proved
    sufficient.  [RecursiveRewrite] stops at depth 5 in the code, and [visit] is
    structural in the levels left.  [MergeTerms] has
    one turn more than there are terms, enough because a turn that changes
    anything zeroes a scale ([MergeTerms_spec]).  The transitive search ([dfs_loop]) takes its
    fuel as an argument: [TryCompare_terminates] gives enough for facts that can
    hold together, and [contradiction_spins] shows that no practical amount is
    enough for facts that cannot.  [CanProve] takes the number of nested
    conjunctions as [depth]: more never changes an answer, and none is enough
    when a variable is bound to a conjunction that contains it, where the code
    does not return either.  The loops of the storage solver and of the tile chooser run over lists.
    Following the results of branches to their sources takes one unit per result
    and is proved to end ([RecordRawUse_used], [add_source_spec]).

    ** Not modelled

    Source spans, logging and the rewrite counters; [PMatchesOneOf], [PCastExpr]
    and the other patterns no rule uses; the contents of the operator registry and
    the buffer-view analysis, arguments of the constraint analysis; the visitors of
    the memory planner that collect references, calls and accesses and the mutator
    that writes addresses back, whose results are arguments, and the performance hint it prints; the pass that lowers the tile
    chosen; the other passes, type inference, code generation, serialization and the Python front end.
    Floating point subexpressions have no value under [eval]; folding of doubles
    is modelled, with [std::pow] as a parameter ([Libm]). *)

From Stdlib Require Import ZArith Lia Bool List String.
From stdpp Require Import base gmap list option strings.

#[export] Set Default Goal Selector "!".

Declare Scope pypto_scope.
Delimit Scope pypto_scope with pypto.
Open Scope pypto_scope.
Open Scope Z_scope.

(** ** Machine integers *)

(** [std::numeric_limits<int64_t>] and [std::numeric_limits<uint64_t>]. *)
Definition INT64_MIN : Z := - 2 ^ 63.
Definition INT64_MAX : Z := 2 ^ 63 - 1.
Definition UINT64_MAX : Z := 2 ^ 64 - 1.

Definition in_int64 (z : Z) : bool := (INT64_MIN <=? z) && (z <=? INT64_MAX).

(** Two's complement reinterpretation of an integer in [bits] bits. *)
Definition wrap_unsigned (bits z : Z) : Z := z mod 2 ^ bits.
Definition wrap_signed (bits z : Z) : Z :=
  (z + 2 ^ (bits - 1)) mod 2 ^ bits - 2 ^ (bits - 1).

(** Unsigned 64-bit arithmetic wraps around. *)
Definition u64 (z : Z) : Z := wrap_unsigned 64 z.
Definition is_u64 (z : Z) : Prop := 0 <= z <= UINT64_MAX.

(** ** Results

    What a C++ routine of the project can do besides returning: throw one of
    the exceptions of [pypto/core/error.h] (through [CHECK] and
    [INTERNAL_CHECK] or explicitly), or run into undefined behaviour (signed
    overflow, a shift or a conversion out of range).  [OutOfFuel] is the
    model's own: a loop that did not end within its fuel.  Every looping
    definition comes with a theorem that its fuel is enough. *)
Inductive error :=
  | CheckFailed        (** [CHECK]: [ValueError] *)
  | InternalError      (** [INTERNAL_CHECK] *)
  | TypeError
  | UndefinedBehaviour
  | OutOfRange         (** [std::out_of_range], from [at] *)
  | OutOfFuel.

Inductive result (A : Type) :=
  | Ok (a : A)
  | Err (e : error).
Arguments Ok {A} a.
Arguments Err {A} e.

Definition bind {A B} (m : result A) (k : A -> result B) : result B :=
  match m with Ok a => k a | Err e => Err e end.

Notation "'let*' x := m 'in' k" := (bind m (fun x => k))
  (at level 10, x pattern, m at level 100, k at level 200) : pypto_scope.

(** [CHECK(b)], [INTERNAL_CHECK(b)] and the other guards that throw. *)
Definition require (b : bool) (e : error) : result unit :=
  if b then Ok tt else Err e.

(** Signed 64-bit arithmetic: overflow is undefined behaviour. *)
Definition checked (z : Z) : result Z :=
  if in_int64 z then Ok z else Err UndefinedBehaviour.
Definition add64 (a b : Z) : result Z := checked (a + b).
Definition sub64 (a b : Z) : result Z := checked (a - b).
Definition mul64 (a b : Z) : result Z := checked (a * b).
Definition neg64 (a : Z) : result Z := checked (- a).
(** [/] and [%]: truncated towards zero; undefined on zero and on
    [INT64_MIN / -1]. *)
Definition div64 (a b : Z) : result Z :=
  if b =? 0 then Err UndefinedBehaviour else checked (Z.quot a b).
Definition rem64 (a b : Z) : result Z :=
  if (b =? 0) || ((a =? INT64_MIN) && (b =? -1)) then Err UndefinedBehaviour
  else Ok (Z.rem a b).
(** [std::abs] on [int64_t]. *)
Definition abs64 (a : Z) : result Z := checked (Z.abs a).

Definition is_ok {A} (m : result A) : bool :=
  match m with Ok _ => true | Err _ => false end.

#[export] Instance error_eq_dec : EqDecision error.
Proof. solve_decision. Defined.
#[export] Instance result_eq_dec {A} `{EqDecision A} : EqDecision (result A).
Proof. solve_decision. Defined.

(** ** Automation *)

Create HintDb pypto discriminated.

Lemma bind_ok {A B} (m : result A) (k : A -> result B) b :
  bind m k = Ok b <-> exists a, m = Ok a /\ k a = Ok b.
Proof.
  destruct m; simpl; split.
  - intros H; eauto.
  - intros (a' & Ha & Hk). congruence.
  - discriminate.
  - intros (a' & Ha & _). discriminate.
Qed.

Lemma require_ok b e u : require b e = Ok u <-> b = true.
Proof. destruct b, u; simpl; split; congruence. Qed.

Lemma in_int64_iff z : in_int64 z = true <-> INT64_MIN <= z <= INT64_MAX.
Proof. unfold in_int64. rewrite andb_true_iff, !Z.leb_le. reflexivity. Qed.

Lemma checked_ok z r : checked z = Ok r <-> r = z /\ INT64_MIN <= z <= INT64_MAX.
Proof.
  unfold checked. pose proof (in_int64_iff z) as E. destruct (in_int64 z).
  - split; [intros [= <-]; split; [done | by apply E] | by intros [-> _]].
  - split; [done | intros [_ H]; apply E in H; done].
Qed.

Lemma checked_in z : INT64_MIN <= z <= INT64_MAX -> checked z = Ok z.
Proof. intros H. by apply checked_ok. Qed.

Lemma u64_id z : 0 <= z <= UINT64_MAX -> u64 z = z.
Proof. unfold is_u64, u64, wrap_unsigned, UINT64_MAX. intros H. apply Z.mod_small. lia. Qed.

(** ** Lexicographic order *)

Fixpoint lex_le (a b : list Z) : bool :=
  match a, b with
  | [], _ => true
  | _ :: _, [] => false
  | v :: a, w :: b => (v <? w) || ((v =? w) && lex_le a b)
  end.

Lemma lex_le_total a b : lex_le a b = true \/ lex_le b a = true.
Proof.
  revert b. induction a as [|v a IH]; intros [|w b]; simpl; auto.
  rewrite !orb_true_iff, !andb_true_iff, !Z.ltb_lt, !Z.eqb_eq.
  destruct (Z.lt_trichotomy v w) as [|[|]], (IH b); auto 6.
Qed.

Lemma lex_le_trans a b c : lex_le a b = true -> lex_le b c = true -> lex_le a c = true.
Proof.
  revert b c. induction a as [|v a IH]; intros [|w b] [|u c]; simpl; try done.
  rewrite !orb_true_iff, !andb_true_iff, !Z.ltb_lt, !Z.eqb_eq. intros [?|[? ?]] [?|[? ?]]; try lia.
  right. split; [lia | by eapply IH].
Qed.

Lemma lex_le_cons v a w b :
  lex_le (v :: a) (w :: b) = true <-> v < w \/ (v = w /\ lex_le a b = true).
Proof. cbn. by rewrite orb_true_iff, andb_true_iff, Z.ltb_lt, Z.eqb_eq. Qed.

Lemma lex_le_antisym a b : lex_le a b = true -> lex_le b a = true -> a = b.
Proof.
  revert b. induction a as [|v a IH]; intros [|w b]; try done.
  rewrite !lex_le_cons. intros [?|[-> ?]] [?|[? ?]]; try lia. f_equal. by apply IH.
Qed.

(** Prefixes of the same length decide first. *)
Lemma lex_le_app a b x y :
  length a = length b ->
  lex_le (a ++ x) (b ++ y) = true <->
  (a = b /\ lex_le x y = true) \/ (a <> b /\ lex_le a b = true).
Proof.
  revert b. induction a as [|v a IH]; intros [|w b] Hl; try done.
  - split; [by left | intros [[_ ?]|[? _]]; done].
  - injection Hl as Hl. rewrite <- !app_comm_cons, !lex_le_cons, IH by done. split.
    + intros [?|[-> [[-> ?]|[? ?]]]]; [right | left | right]; (split; [congruence || (intros [= ? ?]; lia) | auto]).
    + intros [[[= -> ->] ?]|[Hne [?|[-> ?]]]]; [auto 6 | auto | right]. split; [done |]. right. split; [congruence | done].
Qed.

(** Turn boolean tests of the code into propositions. *)
Ltac bool_to_prop :=
  repeat match goal with
  | H : _ && _ = true |- _ => apply andb_true_iff in H; destruct H
  | H : _ || _ = true |- _ => apply orb_true_iff in H
  | H : _ && _ = false |- _ => apply andb_false_iff in H
  | H : _ || _ = false |- _ => apply orb_false_iff in H; destruct H
  | H : negb _ = true |- _ => apply negb_true_iff in H
  | H : negb _ = false |- _ => apply negb_false_iff in H
  | H : (_ =? _) = true |- _ => apply Z.eqb_eq in H
  | H : (_ =? _) = false |- _ => apply Z.eqb_neq in H
  | H : (_ <=? _) = true |- _ => apply Z.leb_le in H
  | H : (_ <=? _) = false |- _ => apply Z.leb_gt in H
  | H : (_ <? _) = true |- _ => apply Z.ltb_lt in H
  | H : (_ <? _) = false |- _ => apply Z.ltb_ge in H
  | H : (_ >? _) = true |- _ => rewrite Z.gtb_ltb in H; apply Z.ltb_lt in H
  | H : (_ >? _) = false |- _ => rewrite Z.gtb_ltb in H; apply Z.ltb_ge in H
  | H : (_ >=? _) = true |- _ => rewrite Z.geb_leb in H; apply Z.leb_le in H
  | H : (_ >=? _) = false |- _ => rewrite Z.geb_leb in H; apply Z.leb_gt in H
  end.

(** Invert a chain of monadic steps that returned normally. *)
Ltac inv_ok :=
  repeat match goal with
  | H : bind _ _ = Ok _ |- _ =>
      apply bind_ok in H; let a := fresh "r" in let E := fresh "E" in
      destruct H as (a & E & H)
  | H : require _ _ = Ok _ |- _ => apply require_ok in H
  | H : Ok _ = Ok _ |- _ => injection H as H; try subst
  | H : Err _ = Ok _ |- _ => discriminate H
  end.

(** Linear arithmetic with the 64-bit limits in view. *)
Ltac lia64 := unfold is_u64, INT64_MIN, INT64_MAX, UINT64_MAX in *; lia.
