(* ===== verification/Double.v ===== *)
(** * Doubles

    IEEE binary64, by the Standard Library's [SpecFloat]: the operations the
    code uses on [double], rounding to nearest even.  A product that feeds a sum
    is rounded first (no fused multiply-add). *)

From Stdlib Require Import ZArith Lia Bool List.
From Stdlib Require Import SpecFloat.
From stdpp Require Import base list option.
From S2P Require Import Prelude.

Definition double_add := SFadd 53 1024.
Definition double_sub := SFsub 53 1024.
Definition double_mul := SFmul 53 1024.
Definition double_div := SFdiv 53 1024.
(** [static_cast<double>(v)]. *)
Definition double_of_Z (v : Z) : spec_float := binary_normalize 53 1024 v 0 false.
(** [std::min(a, b)] is [b < a ? b : a], [std::max(a, b)] is [a < b ? b : a]. *)
Definition double_min (a b : spec_float) : spec_float := if SFltb b a then b else a.
Definition double_max (a b : spec_float) : spec_float := if SFltb a b then b else a.

(** [std::isfinite]. *)
Definition double_isfinite (f : spec_float) : bool :=
  match f with S754_zero _ | S754_finite _ _ _ => true | _ => false end.

(** [std::llround]: to nearest, halves away from zero; the result is
    unspecified unless it fits [long long]. *)
Definition round_magnitude (m : positive) (e : Z) : Z :=
  if 0 <=? e then Z.pos m * 2 ^ e else (Z.pos m + 2 ^ (- e - 1)) / 2 ^ (- e).

Definition llround (f : spec_float) : result Z :=
  match f with
  | S754_zero _ => Ok 0
  | S754_finite s m e =>
      let z := if s then - round_magnitude m e else round_magnitude m e in
      if in_int64 z then Ok z else Err UndefinedBehaviour
  | S754_infinity _ | S754_nan => Err UndefinedBehaviour
  end.

(** ** Order *)

(** Doubles that are numbers are ordered as these keys are. *)
Definition double_key (f : spec_float) : list Z :=
  match f with
  | S754_infinity true => [-2; 0; 0]
  | S754_finite true m e => [-1; - e; Z.neg m]
  | S754_zero _ => [0; 0; 0]
  | S754_finite false m e => [1; e; Z.pos m]
  | S754_infinity false => [2; 0; 0]
  | S754_nan => []
  end.

Definition is_number (f : spec_float) : bool :=
  match f with S754_nan => false | _ => true end.

Lemma SFcompare_key a b :
  is_number a = true -> is_number b = true ->
  SFcompare a b = Some (if decide (double_key a = double_key b) then Eq
                        else if lex_le (double_key a) (double_key b) then Lt else Gt).
Proof.
  assert (Hdec : forall k l c, match c with
      | Eq => k = l | Lt => k <> l /\ lex_le k l = true | Gt => k <> l /\ lex_le k l = false end ->
    Some c = Some (if decide (k = l) then Eq else if lex_le k l then Lt else Gt)).
  { intros k l [] Hc; [destruct (decide (k = l)); done | |]; destruct Hc as [Hne ->]; by destruct (decide (k = l)). }
  assert (Hpos : forall m e m' e' s, match match Z.compare e e' with Lt => Lt | Gt => Gt | Eq => Pos.compare m m' end with
      | Eq => [s; e; Z.pos m] = [s; e'; Z.pos m']
      | Lt => [s; e; Z.pos m] <> [s; e'; Z.pos m'] /\ lex_le [s; e; Z.pos m] [s; e'; Z.pos m'] = true
      | Gt => [s; e; Z.pos m] <> [s; e'; Z.pos m'] /\ lex_le [s; e; Z.pos m] [s; e'; Z.pos m'] = false
      end).
  { intros m e m' e' s. destruct (Z.compare_spec e e') as [-> |He|He]; [destruct (Pos.compare_spec m m') as [-> |Hm|Hm] | |];
      try done; (split; [intros H; injection H; lia |]); rewrite <- ?not_true_iff_false, !lex_le_cons; cbn [lex_le]; lia. }
  assert (Hneg : forall m e m' e' s, match match Z.compare e e' with Lt => Gt | Gt => Lt | Eq => CompOpp (Pos.compare m m') end with
      | Eq => [s; - e; Z.neg m] = [s; - e'; Z.neg m']
      | Lt => [s; - e; Z.neg m] <> [s; - e'; Z.neg m'] /\ lex_le [s; - e; Z.neg m] [s; - e'; Z.neg m'] = true
      | Gt => [s; - e; Z.neg m] <> [s; - e'; Z.neg m'] /\ lex_le [s; - e; Z.neg m] [s; - e'; Z.neg m'] = false
      end).
  { intros m e m' e' s. destruct (Z.compare_spec e e') as [-> |He|He]; [destruct (Pos.compare_spec m m') as [-> |Hm|Hm] | |];
      try done; (split; [intros H; injection H; lia |]); rewrite <- ?not_true_iff_false, !lex_le_cons; cbn [lex_le]; lia. }
  destruct a as [sa|[]| |[] m e], b as [sb|[]| |[] m' e']; try done; intros _ _; cbn [SFcompare double_key]; apply Hdec;
    try (by split); try apply Hneg; apply Hpos.
Qed.

Lemma SFltb_key a b :
  is_number a = true -> is_number b = true -> SFltb a b = negb (lex_le (double_key b) (double_key a)).
Proof.
  intros Ha Hb. unfold SFltb. rewrite SFcompare_key by done. destruct (decide _) as [-> |Hne].
  - destruct (lex_le_total (double_key b) (double_key b)) as [-> | ->]; done.
  - destruct (lex_le (double_key a) (double_key b)) eqn:E.
    + destruct (lex_le (double_key b) (double_key a)) eqn:E'; [|done]. destruct Hne. by apply lex_le_antisym.
    + destruct (lex_le_total (double_key a) (double_key b)) as [? | ->]; [congruence | done].
Qed.

Lemma SFeqb_key a b :
  is_number a = true -> is_number b = true -> SFeqb a b = bool_decide (double_key a = double_key b).
Proof.
  intros Ha Hb. unfold SFeqb. rewrite SFcompare_key by done. destruct (decide _) as [E|E].
  - by rewrite bool_decide_eq_true_2.
  - rewrite bool_decide_eq_false_2 by done. by destruct (lex_le _ _).
Qed.

(** ** Numbers that are not negative *)

Definition nonneg (f : spec_float) : Prop :=
  match f with S754_zero false | S754_finite false _ _ | S754_infinity false => True | _ => False end.

Definition positive_finite (f : spec_float) : Prop :=
  match f with S754_finite false _ _ => True | _ => False end.

Lemma nonneg_number f : nonneg f -> is_number f = true.
Proof. by destruct f. Qed.

Lemma iter_pos_ind {A} (P : A -> Prop) (f : A -> A) : (forall x, P x -> P (f x)) -> forall n x, P x -> P (SpecFloat.iter_pos f n x).
Proof. intros Hf n. induction n as [n IH|n IH|]; intros x Hx; cbn [SpecFloat.iter_pos]; auto. Qed.

Lemma shr_nonneg mrs e n : 0 <= shr_m mrs -> 0 <= shr_m (shr mrs e n).1.
Proof.
  intros Hm. destruct n; try done. cbn [shr fst].
  apply (iter_pos_ind (fun r => 0 <= shr_m r)); [|done]. intros [[|[]|[]] r s] Hr; cbn in *; lia.
Qed.

Lemma binary_round_nonneg m e l : 0 <= m -> nonneg (binary_round_aux 53 1024 false m e l).
Proof.
  intros Hm. unfold binary_round_aux, shr_fexp.
  assert (H1 : 0 <= shr_m (shr_record_of_loc m l)) by (by destruct l as [|[]]).
  pose proof (shr_nonneg _ e (fexp 53 1024 (Zdigits2 m + e) - e) H1) as H2.
  destruct (shr (shr_record_of_loc m l) e _) as [mrs e']. cbn [fst] in H2.
  assert (H3 : 0 <= round_nearest_even (shr_m mrs) (loc_of_shr_record mrs)).
  { unfold round_nearest_even. destruct (loc_of_shr_record mrs) as [|[]]; try case_match; lia. }
  set (m' := round_nearest_even _ _) in *.
  pose proof (shr_nonneg (shr_record_of_loc m' loc_Exact) e' (fexp 53 1024 (Zdigits2 m' + e') - e') H3) as H4.
  destruct (shr (shr_record_of_loc m' loc_Exact) e' _) as [mrs' e'']. cbn [fst] in H4.
  destruct (shr_m mrs'); [done | by case_match | lia].
Qed.

Lemma double_mul_nonneg a b : nonneg a -> positive_finite b -> nonneg (double_mul a b).
Proof.
  destruct a as [[]|[]| |[] ma ea], b as [| | |[] mb eb]; try done;
    try (intros _ _; exact I). intros _ _. by apply binary_round_nonneg.
Qed.

Lemma div_core_nonneg ma ea mb eb : 0 <= (SFdiv_core_binary 53 1024 (Z.pos ma) ea (Z.pos mb) eb).1.1.
Proof.
  unfold SFdiv_core_binary. cbv zeta. match goal with |- context [Z.div_eucl ?x _] => set (m' := x) end.
  assert (Hm : 0 <= m') by (unfold m'; destruct (ea - eb - _); [lia | apply Z.shiftl_nonneg; lia | lia]).
  pose proof (Z.div_pos m' (Z.pos mb) Hm ltac:(lia)) as Hd. unfold Z.div in Hd.
  by destruct (Z.div_eucl m' (Z.pos mb)).
Qed.

Lemma double_div_nonneg a b : nonneg a -> positive_finite b -> nonneg (double_div a b).
Proof.
  destruct a as [[]|[]| |[] ma ea], b as [| | |[] mb eb]; try done;
    try (intros _ _; exact I). intros _ _.
  unfold double_div. cbn [SFdiv xorb]. pose proof (div_core_nonneg ma ea mb eb).
  destruct (SFdiv_core_binary _ _ _ _ _ _) as [[q e] l]. by apply binary_round_nonneg.
Qed.

Lemma double_add_nonneg a b : nonneg a -> nonneg b -> nonneg (double_add a b).
Proof.
  destruct a as [[]|[]| |[] ma ea], b as [[]|[]| |[] mb eb];
    try done; try (intros _ _; exact I). intros _ _.
  unfold double_add. cbn [SFadd cond_Zopp]. set (m := Z.pos _ + Z.pos _). assert (Hm : 0 < m) by done.
  destruct m as [|m|]; try lia. cbn [binary_normalize]. unfold binary_round.
  destruct (shl_align m _ _). by apply binary_round_nonneg.
Qed.

(** A small positive integer is exact. *)
Lemma digits_lower m : 2 ^ (Z.pos (digits2_pos m) - 1) <= Z.pos m.
Proof.
  assert (Hs : forall m', 2 ^ (Z.pos (Pos.succ (digits2_pos m')) - 1) = 2 * 2 ^ (Z.pos (digits2_pos m') - 1)).
  { intros m'. rewrite <- Z.pow_succ_r by lia. f_equal. lia. }
  induction m as [m IH|m IH|]; cbn [digits2_pos]; rewrite ?Hs; lia.
Qed.

Lemma digits_shift m n : digits2_pos (Pos.iter xO m n) = (digits2_pos m + n)%positive.
Proof.
  revert m. induction n as [|n IH] using Pos.peano_ind; intros m.
  - cbn. lia.
  - rewrite Pos.iter_succ. cbn [digits2_pos]. rewrite IH. lia.
Qed.

Lemma double_of_Z_positive v : 0 < v < 2 ^ 53 -> positive_finite (double_of_Z v).
Proof.
  intros Hv. destruct v as [|m|]; try lia. pose proof (digits_lower m) as Hd.
  assert (H53 : (digits2_pos m <= 53)%positive).
  { destruct (Z.le_gt_cases (Z.pos (digits2_pos m)) 53) as [|Hgt]; [done |]. exfalso.
    pose proof (Z.pow_le_mono_r 2 53 (Z.pos (digits2_pos m) - 1)). lia. }
  assert (Hf : fexp 53 1024 (Z.pos (digits2_pos m)) = Z.pos (digits2_pos m) - 53) by (unfold fexp, emin; lia).
  assert (Haux : forall mz, Z.pos (digits2_pos mz) = 53 ->
    binary_round_aux 53 1024 false (Z.pos mz) (Z.pos (digits2_pos m) - 53) loc_Exact
    = S754_finite false mz (Z.pos (digits2_pos m) - 53)).
  { intros mz Hmz. assert (Hshr : forall e, e = Z.pos (digits2_pos m) - 53 -> shr_fexp 53 1024 (Z.pos mz) e loc_Exact = (Build_shr_record (Z.pos mz) false false, e)).
    { intros e ->. unfold shr_fexp. cbn [Zdigits2]. rewrite Hmz. replace (53 + (Z.pos (digits2_pos m) - 53)) with (Z.pos (digits2_pos m)) by lia.
      rewrite Hf, Z.sub_diag. done. }
    unfold binary_round_aux. rewrite Hshr by done. cbn [shr_m loc_of_shr_record round_nearest_even]. rewrite Hshr by done.
    cbn [shr_m]. destruct (_ <=? _) eqn:E; [done | bool_to_prop; lia]. }
  unfold double_of_Z. cbn [binary_normalize]. unfold binary_round. rewrite Z.add_0_r, Hf. unfold shl_align.
  destruct (Z.pos (digits2_pos m) - 53 - 0) as [|p|p] eqn:E; [|lia|].
  - replace 0 with (Z.pos (digits2_pos m) - 53) by lia. by rewrite Haux by lia.
  - rewrite Haux; [done |]. rewrite digits_shift. lia.
Qed.

(** ** The significands of results *)

(** A significand of at most 53 bits, that of every result of an operation. *)
Definition short (f : spec_float) : Prop :=
  match f with S754_finite _ m _ => Z.pos m < 2 ^ 53 | _ => True end.

Lemma iter_shr_bounds p : forall r j,
  0 <= j -> 0 <= shr_m r < 2 ^ (Z.pos p + j) -> 0 <= shr_m (SpecFloat.iter_pos shr_1 p r) < 2 ^ j.
Proof.
  assert (H1 : forall r j, 0 <= j -> 0 <= shr_m r < 2 ^ (1 + j) -> 0 <= shr_m (shr_1 r) < 2 ^ j).
  { intros [[|[]|[]] ? ?] j Hj; cbn [shr_m shr_1]; rewrite Z.pow_add_r by done; lia. }
  induction p as [p IH|p IH|]; intros r j Hj Hr; cbn [SpecFloat.iter_pos].
  - apply IH; [done |]. apply IH; [lia |]. apply H1; [lia |].
    by replace (1 + (Z.pos p + (Z.pos p + j))) with (Z.pos p~1 + j) by lia.
  - apply IH; [done |]. apply IH; [lia |]. by replace (Z.pos p + (Z.pos p + j)) with (Z.pos p~0 + j) by lia.
  - by apply H1.
Qed.

Lemma digits_upper m : Z.pos m < 2 ^ Z.pos (digits2_pos m).
Proof.
  induction m as [m IH|m IH|]; cbn [digits2_pos]; [| |done];
    replace (Z.pos (Pos.succ (digits2_pos m))) with (Z.succ (Z.pos (digits2_pos m))) by lia;
    rewrite Z.pow_succ_r by lia; lia.
Qed.

Lemma shr_fexp_short m e l : 0 <= m -> 0 <= shr_m (shr_fexp 53 1024 m e l).1 < 2 ^ 53.
Proof.
  intros Hm. unfold shr_fexp. assert (E : shr_m (shr_record_of_loc m l) = m) by (by destruct l as [|[]]).
  assert (Hd : 0 <= m < 2 ^ Zdigits2 m) by (split; [done |]; destruct m; [done | apply digits_upper | lia]).
  assert (Hn : Zdigits2 m <= fexp 53 1024 (Zdigits2 m + e) - e + 53) by (unfold fexp; lia).
  destruct (fexp 53 1024 (Zdigits2 m + e) - e) as [|p|p]; cbn [shr fst]; rewrite ?E.
  2:{ apply iter_shr_bounds; [done |]. rewrite E.
      pose proof (Z.pow_le_mono_r 2 (Zdigits2 m) (Z.pos p + 53)). lia. }
  all: pose proof (Z.pow_le_mono_r 2 (Zdigits2 m) 53); lia.
Qed.

Lemma binary_round_short s m e l : 0 <= m -> short (binary_round_aux 53 1024 s m e l).
Proof.
  intros Hm. unfold binary_round_aux. pose proof (shr_fexp_short m e l Hm) as H1.
  destruct (shr_fexp 53 1024 m e l) as [mrs e']. cbn [fst] in H1.
  assert (H2 : 0 <= round_nearest_even (shr_m mrs) (loc_of_shr_record mrs)).
  { unfold round_nearest_even. destruct (loc_of_shr_record mrs) as [|[]]; try case_match; lia. }
  pose proof (shr_fexp_short _ e' loc_Exact H2) as H3.
  destruct (shr_fexp 53 1024 _ e' loc_Exact) as [mrs' e'']. cbn [fst] in H3.
  destruct (shr_m mrs') as [|p|p]; [done | | done]. case_match; [cbn; lia | done].
Qed.

Lemma binary_normalize_short m e s : short (binary_normalize 53 1024 m e s).
Proof.
  destruct m as [|m|m]; [done | |]; cbn [binary_normalize]; unfold binary_round;
    destruct (shl_align m _ _); by apply binary_round_short.
Qed.

Lemma double_mul_short a b : short (double_mul a b).
Proof. destruct a as [| | |], b as [| | |]; try done. by apply binary_round_short. Qed.

Lemma double_add_short a b : short a -> short b -> short (double_add a b).
Proof.
  destruct a as [[]|[]| |], b as [[]|[]| |]; try done. intros _ _. apply binary_normalize_short.
Qed.

Lemma double_div_short a b : short (double_div a b).
Proof.
  destruct a as [| | |sa ma ea], b as [| | |sb mb eb]; try done. unfold double_div. cbn [SFdiv].
  pose proof (div_core_nonneg ma ea mb eb). destruct (SFdiv_core_binary _ _ _ _ _ _) as [[q e] l].
  by apply binary_round_short.
Qed.

(** ** Results that are not negative *)

(** Not below zero: [nonneg], a negative zero or not a number. *)
Definition not_negative (f : spec_float) : Prop :=
  match f with S754_finite true _ _ | S754_infinity true => False | _ => True end.

Lemma nonneg_not_negative f : nonneg f -> not_negative f.
Proof. by destruct f as [|[]| |[]]. Qed.

Lemma double_of_Z_nonneg v : 0 <= v -> nonneg (double_of_Z v).
Proof.
  intros Hv. unfold double_of_Z. destruct v as [|m|m]; [done | | lia].
  cbn [binary_normalize]. unfold binary_round. destruct (shl_align m _ _). by apply binary_round_nonneg.
Qed.

Lemma double_of_Z_not_negative v : 0 <= v -> not_negative (double_of_Z v).
Proof. intros Hv. by apply nonneg_not_negative, double_of_Z_nonneg. Qed.

Lemma double_mul_not_negative a b : not_negative a -> not_negative b -> not_negative (double_mul a b).
Proof.
  destruct a as [[]|[]| |[] ma ea], b as [[]|[]| |[] mb eb]; try done;
    try (intros _ _; exact I). intros _ _. apply nonneg_not_negative. by apply binary_round_nonneg.
Qed.

Lemma double_div_not_negative a b : not_negative a -> nonneg b -> not_negative (double_div a b).
Proof.
  destruct a as [[]|[]| |[] ma ea], b as [[]|[]| |[] mb eb]; try done;
    try (intros _ _; exact I). intros _ _.
  apply nonneg_not_negative. by apply double_div_nonneg.
Qed.

Lemma double_add_not_negative a b : not_negative a -> not_negative b -> not_negative (double_add a b).
Proof.
  destruct a as [[]|[]| |[] ma ea], b as [[]|[]| |[] mb eb]; try done;
    try (intros _ _; exact I). intros _ _.
  apply nonneg_not_negative. by apply double_add_nonneg.
Qed.

Lemma double_max_not_negative a b : not_negative a -> not_negative b -> not_negative (double_max a b).
Proof. unfold double_max. by case_match. Qed.

Lemma double_min_not_negative a b : not_negative a -> not_negative b -> not_negative (double_min a b).
Proof. unfold double_min. by case_match. Qed.

Lemma double_max_short a b : short a -> short b -> short (double_max a b).
Proof. unfold double_max. by case_match. Qed.

Lemma double_min_short a b : short a -> short b -> short (double_min a b).
Proof. unfold double_min. by case_match. Qed.

#[export] Hint Resolve double_of_Z_nonneg double_of_Z_not_negative double_mul_not_negative double_div_not_negative
  double_add_not_negative double_max_not_negative double_min_not_negative double_mul_short
  double_add_short double_div_short double_max_short double_min_short binary_normalize_short : pypto.

Lemma SFleb_finite m e n d :
  SFleb (S754_finite false m e) (S754_finite false n d) = true -> e < d \/ (e = d /\ Z.pos m <= Z.pos n).
Proof.
  unfold SFleb. cbn [SFcompare]. destruct (Z.compare_spec e d) as [->|He|He]; [| by left | done].
  change (Pos.compare_cont Eq m n) with (Pos.compare m n).
  destruct (Pos.compare_spec m n); [right; lia | right; lia | done].
Qed.

(** Rounding a number of at most [2 ^ 53] that is not negative is defined. *)
Lemma llround_bounded f :
  short f -> not_negative f -> double_isfinite f = true -> SFleb f (double_of_Z (2 ^ 53)) = true ->
  exists z, llround f = Ok z /\ 0 <= z <= 2 ^ 53.
Proof.
  destruct f as [| | |[] m e]; try done; intros Hs _ _ Hle; [by exists 0 |]. cbn [short] in Hs.
  change (double_of_Z (2 ^ 53)) with (S754_finite false 4503599627370496 1) in Hle. apply SFleb_finite in Hle.
  assert (Hz : 0 <= round_magnitude m e <= 2 ^ 53).
  { unfold round_magnitude. destruct (0 <=? e) eqn:E; bool_to_prop.
    - assert (e = 0 \/ e = 1) as [-> | ->] by lia; lia.
    - assert (Hp : 2 ^ (- e) = 2 * 2 ^ (- e - 1)) by (rewrite <- Z.pow_succ_r by lia; f_equal; lia).
      assert (0 < 2 ^ (- e - 1)) by (apply Z.pow_pos_nonneg; lia).
      split; [apply Z.div_pos; lia |]. apply Z.div_le_upper_bound; nia. }
  cbn [llround]. assert (in_int64 (round_magnitude m e) = true) as -> by (apply in_int64_iff; lia64).
  by exists (round_magnitude m e).
Qed.
