(* ===== verification/Dtype.v ===== *)
(** * Data types ([include/pypto/core/dtype.h])

    [DataType] wraps one [uint8_t] code.  The codes are laid out in ranges of
    sixteen per category; the predicates test the range, the size and the
    printers switch over the code. *)

From Stdlib Require Import ZArith Lia Bool List String.
From stdpp Require Import base list option strings.
From S2P Require Import Prelude.

Record DataType := MkDataType { Code : Z }.

#[export] Instance DataType_eq_dec : EqDecision DataType.
Proof. solve_decision. Defined.

Definition dtype_eqb (a b : DataType) : bool := Code a =? Code b.

(** ** Codes *)

Definition kBoolCode : Z := 0x00.
Definition kSignedIntRangeStart : Z := 0x10.
Definition kInt4Code : Z := 0x10.
Definition kInt8Code : Z := 0x11.
Definition kInt16Code : Z := 0x12.
Definition kInt32Code : Z := 0x13.
Definition kInt64Code : Z := 0x14.
Definition kIndexCode : Z := 0x15.
Definition kSignedIntRangeEnd : Z := 0x1F.
Definition kUnsignedIntRangeStart : Z := 0x20.
Definition kUInt4Code : Z := 0x20.
Definition kUInt8Code : Z := 0x21.
Definition kUInt16Code : Z := 0x22.
Definition kUInt32Code : Z := 0x23.
Definition kUInt64Code : Z := 0x24.
Definition kUnsignedIntRangeEnd : Z := 0x2F.
Definition kIeeeFloatRangeStart : Z := 0x31.
Definition kFp8e4m3fnCode : Z := 0x31.
Definition kFp8e5m2Code : Z := 0x32.
Definition kFp16Code : Z := 0x33.
Definition kFp32Code : Z := 0x34.
Definition kFp64Code : Z := 0x35.
Definition kFp8e8m0Code : Z := 0x36.
Definition kFp4e2m1x2Code : Z := 0x37.
Definition kFp4e1m2x2Code : Z := 0x38.
Definition kIeeeFloatRangeEnd : Z := 0x3F.
Definition kBrainFloatRangeStart : Z := 0x40.
Definition kBf16Code : Z := 0x40.
Definition kHf4Code : Z := 0x41.
Definition kHf8Code : Z := 0x42.
Definition kBrainFloatRangeEnd : Z := 0x4F.
Definition kTaskIdCode : Z := 0x50.

Definition BOOL := MkDataType kBoolCode.
Definition INT4 := MkDataType kInt4Code.
Definition INT8 := MkDataType kInt8Code.
Definition INT16 := MkDataType kInt16Code.
Definition INT32 := MkDataType kInt32Code.
Definition INT64 := MkDataType kInt64Code.
Definition UINT4 := MkDataType kUInt4Code.
Definition UINT8 := MkDataType kUInt8Code.
Definition UINT16 := MkDataType kUInt16Code.
Definition UINT32 := MkDataType kUInt32Code.
Definition UINT64 := MkDataType kUInt64Code.
Definition FP4E2M1X2 := MkDataType kFp4e2m1x2Code.
Definition FP4E1M2X2 := MkDataType kFp4e1m2x2Code.
Definition FP8E4M3FN := MkDataType kFp8e4m3fnCode.
Definition FP8E5M2 := MkDataType kFp8e5m2Code.
Definition FP8E8M0 := MkDataType kFp8e8m0Code.
Definition FP16 := MkDataType kFp16Code.
Definition FP32 := MkDataType kFp32Code.
Definition BF16 := MkDataType kBf16Code.
Definition HF4 := MkDataType kHf4Code.
Definition HF8 := MkDataType kHf8Code.
Definition INDEX := MkDataType kIndexCode.
Definition TASK_ID := MkDataType kTaskIdCode.

(** ** Queries *)

(** [GetBit]: the storage size in bits, 0 for a code the switch does not list
    ([kFp64Code] is one of those). *)
Definition GetBit (dt : DataType) : Z :=
  let c := Code dt in
  let code_is k := c =? k in
  if code_is kBoolCode then 1
  else if code_is kHf4Code || code_is kUInt4Code || code_is kInt4Code then 4
  else if code_is kHf8Code || code_is kFp8e4m3fnCode || code_is kFp8e5m2Code || code_is kFp8e8m0Code
       || code_is kFp4e2m1x2Code || code_is kFp4e1m2x2Code || code_is kUInt8Code || code_is kInt8Code then 8
  else if code_is kBf16Code || code_is kFp16Code || code_is kUInt16Code || code_is kInt16Code then 16
  else if code_is kFp32Code || code_is kUInt32Code || code_is kInt32Code then 32
  else if code_is kUInt64Code || code_is kInt64Code || code_is kIndexCode || code_is kTaskIdCode then 64
  else 0.

Definition GetByte (dt : DataType) : Z := (GetBit dt + 7) / 8.

Definition IsFloat (dt : DataType) : bool :=
  ((Code dt >=? kIeeeFloatRangeStart) && (Code dt <=? kIeeeFloatRangeEnd))
  || ((Code dt >=? kBrainFloatRangeStart) && (Code dt <=? kBrainFloatRangeEnd)).

Definition IsSignedInt (dt : DataType) : bool :=
  (Code dt >=? kSignedIntRangeStart) && (Code dt <=? kSignedIntRangeEnd).

Definition IsUnsignedInt (dt : DataType) : bool :=
  (Code dt >=? kUnsignedIntRangeStart) && (Code dt <=? kUnsignedIntRangeEnd).

Definition IsInt (dt : DataType) : bool := IsSignedInt dt || IsUnsignedInt dt.

Definition IsIndexLike (dt : DataType) : bool :=
  dtype_eqb dt INT64 || dtype_eqb dt UINT64 || dtype_eqb dt INDEX.

Definition IsPackedFp4 (dt : DataType) : bool :=
  (Code dt =? kFp4e2m1x2Code) || (Code dt =? kFp4e1m2x2Code).

(** ** Printers *)

Definition ToString (dt : DataType) : string :=
  let code_is k := Code dt =? k in
  (if code_is kInt4Code then "int4"
  else if code_is kInt8Code then "int8"
  else if code_is kInt16Code then "int16"
  else if code_is kInt32Code then "int32"
  else if code_is kInt64Code then "int64"
  else if code_is kIndexCode then "index"
  else if code_is kUInt4Code then "uint4"
  else if code_is kUInt8Code then "uint8"
  else if code_is kUInt16Code then "uint16"
  else if code_is kUInt32Code then "uint32"
  else if code_is kUInt64Code then "uint64"
  else if code_is kFp4e2m1x2Code then "fp4e2m1x2"
  else if code_is kFp4e1m2x2Code then "fp4e1m2x2"
  else if code_is kFp8e4m3fnCode then "fp8e4m3fn"
  else if code_is kFp8e5m2Code then "fp8e5m2"
  else if code_is kFp8e8m0Code then "fp8e8m0"
  else if code_is kFp16Code then "fp16"
  else if code_is kFp32Code then "fp32"
  else if code_is kBf16Code then "bfloat16"
  else if code_is kHf4Code then "hf4"
  else if code_is kHf8Code then "hf8"
  else if code_is kBoolCode then "bool"
  else if code_is kTaskIdCode then "task_id"
  else "unknown")%string.

Definition ToCTypeString (dt : DataType) : string :=
  let code_is k := Code dt =? k in
  (if code_is kBoolCode then "bool"
  else if code_is kInt8Code then "int8_t"
  else if code_is kInt16Code then "int16_t"
  else if code_is kInt32Code then "int32_t"
  else if code_is kInt64Code || code_is kIndexCode then "int64_t"
  else if code_is kUInt8Code then "uint8_t"
  else if code_is kUInt16Code then "uint16_t"
  else if code_is kUInt32Code then "uint32_t"
  else if code_is kUInt64Code then "uint64_t"
  else if code_is kFp16Code then "half"
  else if code_is kFp32Code then "float"
  else if code_is kFp64Code then "double"
  else if code_is kBf16Code then "bfloat16_t"
  else if code_is kFp8e4m3fnCode then "float8_e4m3_t"
  else if code_is kFp8e5m2Code then "float8_e5m2_t"
  else if code_is kFp8e8m0Code then "float8_e8m0_t"
  else if code_is kFp4e2m1x2Code then "float4_e2m1x2_t"
  else if code_is kFp4e1m2x2Code then "float4_e1m2x2_t"
  else "unknown")%string.

Definition DataTypeToString (dt : DataType) : string :=
  let code_is k := dtype_eqb dt k in
  (if code_is BOOL then "BOOL"
  else if code_is INT4 then "INT4"
  else if code_is INT8 then "INT8"
  else if code_is INT16 then "INT16"
  else if code_is INT32 then "INT32"
  else if code_is INDEX then "INDEX"
  else if code_is INT64 then "INT64"
  else if code_is UINT4 then "UINT4"
  else if code_is UINT8 then "UINT8"
  else if code_is UINT16 then "UINT16"
  else if code_is UINT32 then "UINT32"
  else if code_is UINT64 then "UINT64"
  else if code_is FP4E2M1X2 then "FP4E2M1X2"
  else if code_is FP4E1M2X2 then "FP4E1M2X2"
  else if code_is FP8E4M3FN then "FP8E4M3FN"
  else if code_is FP8E5M2 then "FP8E5M2"
  else if code_is FP8E8M0 then "FP8E8M0"
  else if code_is FP16 then "FP16"
  else if code_is FP32 then "FP32"
  else if code_is BF16 then "BF16"
  else if code_is HF4 then "HF4"
  else if code_is HF8 then "HF8"
  else if code_is TASK_ID then "TASK_ID"
  else "UnknownType")%string.

(** The data types the header names. *)
Definition named_dtypes : list DataType :=
  [BOOL; INT4; INT8; INT16; INT32; INT64; UINT4; UINT8; UINT16; UINT32; UINT64;
   FP4E2M1X2; FP4E1M2X2; FP8E4M3FN; FP8E5M2; FP8E8M0; FP16; FP32; BF16; HF4; HF8;
   INDEX; TASK_ID].

(** ** The integers a type stores *)

(** What [bits] bits of an integer type read back as: two's complement for the
    signed types, the residue for the unsigned ones.  A type without integer
    storage leaves the value alone. *)
Definition wrap_dtype (dt : DataType) (z : Z) : Z :=
  if GetBit dt =? 0 then z
  else if IsUnsignedInt dt then wrap_unsigned (GetBit dt) z
  else wrap_signed (GetBit dt) z.

Lemma dtype_eqb_eq a b : dtype_eqb a b = true <-> a = b.
Proof.
  unfold dtype_eqb. rewrite Z.eqb_eq. destruct a, b; simpl. split; congruence.
Qed.

Lemma dtype_eqb_refl a : dtype_eqb a a = true.
Proof. by apply dtype_eqb_eq. Qed.

Lemma signed_not_unsigned dt : IsUnsignedInt dt = true -> IsSignedInt dt = false.
Proof.
  unfold IsUnsignedInt, IsSignedInt, kUnsignedIntRangeStart, kSignedIntRangeEnd.
  intros H. bool_to_prop. apply andb_false_iff. right. apply Z.leb_gt. lia.
Qed.

(** No code is both an integer and a floating point type, and no integer is
    both signed and unsigned. *)
Lemma IsInt_not_IsFloat dt : IsInt dt = true -> IsFloat dt = false.
Proof.
  unfold IsInt, IsFloat, IsSignedInt, IsUnsignedInt.
  unfold kUnsignedIntRangeStart, kUnsignedIntRangeEnd, kSignedIntRangeStart, kSignedIntRangeEnd,
    kIeeeFloatRangeStart, kIeeeFloatRangeEnd, kBrainFloatRangeStart, kBrainFloatRangeEnd.
  intros H. rewrite !Z.geb_leb in *.
  apply orb_false_iff. split; apply andb_false_iff; left; apply Z.leb_gt;
    apply orb_true_iff in H; destruct H as [H|H]; bool_to_prop; lia.
Qed.

Lemma GetBit_cases dt :
  GetBit dt = 0 \/ GetBit dt = 1 \/ GetBit dt = 4 \/ GetBit dt = 8 \/
  GetBit dt = 16 \/ GetBit dt = 32 \/ GetBit dt = 64.
Proof. unfold GetBit. repeat case_match; tauto. Qed.

Lemma GetBit_bounds dt : 0 <= GetBit dt <= 64.
Proof. pose proof (GetBit_cases dt). lia. Qed.

(** ** Names *)

(** Distinct data types print differently, and none as an unknown one. *)
Definition distinct_names (name : DataType -> string) (unknown : string) : bool :=
  forallb (fun a => negb (String.eqb (name a) unknown) &&
    forallb (fun b => implb (String.eqb (name a) (name b)) (dtype_eqb a b)) named_dtypes) named_dtypes.

Lemma distinct_names_spec name unknown a b :
  distinct_names name unknown = true -> In a named_dtypes -> In b named_dtypes ->
  name a <> unknown /\ (name a = name b -> a = b).
Proof.
  unfold distinct_names. rewrite forallb_forall. intros Hd Ha Hb. specialize (Hd a Ha).
  apply andb_true_iff in Hd as [Hu Hd]. rewrite forallb_forall in Hd. specialize (Hd b Hb). split.
  - apply negb_true_iff, String.eqb_neq in Hu. done.
  - intros E. rewrite E, String.eqb_refl in Hd. cbn [implb] in Hd. by apply dtype_eqb_eq.
Qed.

(** Both printers of DataType are injective on the data types the header names and
    print none of them as unknown, so a printed dtype identifies its code. *)
Theorem dtype_names_injective a b :
  In a named_dtypes -> In b named_dtypes ->
  (ToString a <> "unknown"%string /\ DataTypeToString a <> "UnknownType"%string) /\
  (ToString a = ToString b -> a = b) /\ (DataTypeToString a = DataTypeToString b -> a = b).
Proof.
  intros Ha Hb.
  destruct (distinct_names_spec ToString "unknown" a b ltac:(vm_compute; reflexivity) Ha Hb).
  by destruct (distinct_names_spec DataTypeToString "UnknownType" a b ltac:(vm_compute; reflexivity) Ha Hb).
Qed.

Lemma dtype_names_injective_witness : ToString INT8 <> "unknown"%string.
Proof. apply (dtype_names_injective INT8 INT8); right; right; left; reflexivity. Defined.

(** Finding: ToCTypeString returns unknown for INT4, UINT4, HF4 and HF8, although its
    comment says it covers them. *)
Theorem ToCTypeString_uncovered :
  map ToCTypeString [INT4; UINT4; HF4; HF8] = ["unknown"; "unknown"; "unknown"; "unknown"]%string.
Proof. reflexivity. Qed.
