(* ===== verification/IntOps.v ===== *)
(** * 64-bit integer operators

    [include/pypto/ir/arith/int_operator.h], and the overflow predicates at the
    top of [include/pypto/ir/arith/const_fold.h].  Signed arithmetic goes
    through the checked operations of the prelude, so an overflow the C++ would
    leave undefined is visible as [Err UndefinedBehaviour]. *)

From Stdlib Require Import ZArith Lia Bool List.
From stdpp Require Import base list option.
From S2P Require Import Prelude.

(** ** Overflow predicates ([const_fold.h]) *)

Definition AddWouldOverflow (a b : Z) : bool :=
  ((b >? 0) && (a >? INT64_MAX - b)) || ((b <? 0) && (a <? INT64_MIN - b)).

Definition SubWouldOverflow (a b : Z) : bool :=
  ((b >? 0) && (a <? INT64_MIN + b)) || ((b <? 0) && (a >? INT64_MAX + b)).

Definition MulWouldOverflow (a b : Z) : bool :=
  if (a =? 0) || (b =? 0) then false
  else if b >? 0 then
    (a <? Z.quot INT64_MIN b) || (a >? Z.quot INT64_MAX b)
  else if b =? -1 then a =? INT64_MIN
  else (a >? Z.quot INT64_MIN b) || (a <? Z.quot INT64_MAX b).

Definition NegWouldOverflow (a : Z) : bool := a =? INT64_MIN.

(** ** Operators ([int_operator.h]) *)

(** The magnitude as a [uint64_t]; [-(x + 1)] does not overflow. *)
Definition SafeAbs (x : Z) : Z :=
  if x >=? 0 then x
  else wrap_unsigned 64 (wrap_unsigned 64 (- (x + 1)) + 1).

Definition floordiv (x y : Z) : result Z :=
  let* _ := require (negb (y =? 0)) InternalError in
  let* _ := require (negb ((x =? INT64_MIN) && (y =? -1))) InternalError in
  let* rdiv := div64 x y in
  let* rmod := rem64 x y in
  let is_floor := ((y >=? 0) && (rmod >=? 0)) || ((y <? 0) && (rmod <=? 0)) in
  if is_floor then Ok rdiv else sub64 rdiv 1.

Definition floormod (x y : Z) : result Z :=
  let* _ := require (negb (y =? 0)) InternalError in
  let* _ := require (negb ((x =? INT64_MIN) && (y =? -1))) InternalError in
  let* rmod := rem64 x y in
  let is_floor := ((y >=? 0) && (rmod >=? 0)) || ((y <? 0) && (rmod <=? 0)) in
  if is_floor then Ok rmod else add64 rmod y.

(** One turn of the loop of [ExtendedEuclidean]: [r] and [old_r] are
    [uint64_t], [s] and [old_s] are [int64_t]. *)
Definition ee_step (r old_r s old_s : Z) : result (Z * Z * Z * Z) :=
  let q := old_r / r in
  let tmp_r := wrap_unsigned 64 (old_r - wrap_unsigned 64 (q * r)) in
  let* qs := mul64 (wrap_signed 64 q) s in
  let* tmp_s := sub64 old_s qs in
  Ok (tmp_r, r, tmp_s, s).

Fixpoint ee_loop (fuel : nat) (r old_r s old_s : Z) : result (Z * Z) :=
  if r =? 0 then Ok (old_r, old_s)
  else match fuel with
       | O => Err OutOfFuel
       | S fuel =>
           let* (r, old_r, s, old_s) := ee_step r old_r s old_s in
           ee_loop fuel r old_r s old_s
       end.

(** Euclid's remainders halve every two turns, so 128 turns suffice for
    magnitudes below [2^64]. *)
Definition euclid_fuel : nat := 128.

Definition ExtendedEuclidean (a b : Z) : result (Z * Z * Z) :=
  let* (old_r, old_s) := ee_loop euclid_fuel (SafeAbs b) (SafeAbs a) 0 1 in
  let* px := if a >=? 0 then Ok old_s else neg64 old_s in
  let* _ := require (old_r <=? INT64_MAX) InternalError in
  let gcd := old_r in
  let* py :=
    if negb (b =? 0) then
      let* pa := mul64 px a in
      let* num := sub64 gcd pa in
      div64 num b
    else Ok 1 in
  Ok (gcd, px, py).

Fixpoint gcd_loop (fuel : nat) (ua ub : Z) : result Z :=
  if ua mod ub =? 0 then Ok ub
  else match fuel with
       | O => Err OutOfFuel
       | S fuel => gcd_loop fuel ub (ua mod ub)
       end.

Definition ZeroAwareGCD (a b : Z) : result Z :=
  let '(ua, ub) := if SafeAbs a <? SafeAbs b then (SafeAbs b, SafeAbs a)
                   else (SafeAbs a, SafeAbs b) in
  if ub =? 0 then
    let* _ := require (ua <=? INT64_MAX) InternalError in
    Ok ua
  else
    let* g := gcd_loop euclid_fuel ua ub in
    Ok (wrap_signed 64 g).

Definition LeastCommonMultiple (a b : Z) : result Z :=
  if (a =? 0) || (b =? 0) then Ok 0
  else
    let* (g, _, _) := ExtendedEuclidean a b in
    let* q := div64 a g in
    let* lcm := mul64 q b in
    if lcm <? 0 then neg64 lcm else Ok lcm.

(** ** Overflow predicates decide representability *)

Lemma AddWouldOverflow_spec a b :
  in_int64 a = true -> in_int64 b = true ->
  AddWouldOverflow a b = negb (in_int64 (a + b)).
Proof.
  intros Ha Hb. unfold AddWouldOverflow.
  apply eq_true_iff_eq. rewrite in_int64_iff in *.
  rewrite negb_true_iff, orb_true_iff, !andb_true_iff, !Z.gtb_lt, !Z.ltb_lt.
  unfold in_int64. rewrite andb_false_iff, !Z.leb_gt. lia64.
Qed.

Lemma SubWouldOverflow_spec a b :
  in_int64 a = true -> in_int64 b = true ->
  SubWouldOverflow a b = negb (in_int64 (a - b)).
Proof.
  intros Ha Hb. unfold SubWouldOverflow.
  apply eq_true_iff_eq. rewrite in_int64_iff in *.
  rewrite negb_true_iff, orb_true_iff, !andb_true_iff, !Z.gtb_lt, !Z.ltb_lt.
  unfold in_int64. rewrite andb_false_iff, !Z.leb_gt. lia64.
Qed.

Lemma NegWouldOverflow_spec a :
  in_int64 a = true -> NegWouldOverflow a = negb (in_int64 (- a)).
Proof.
  intros Ha. unfold NegWouldOverflow, in_int64 in *. bool_to_prop.
  apply eq_true_iff_eq.
  rewrite negb_true_iff, andb_false_iff, !Z.leb_gt, Z.eqb_eq. lia64.
Qed.

(** The multiplication test compares against truncated quotients of the limits;
    these two lemmas say what such a comparison decides. *)
Lemma quot_limits_pos a b :
  0 < b ->
  (Z.quot INT64_MIN b <= a <= Z.quot INT64_MAX b) <-> INT64_MIN <= a * b <= INT64_MAX.
Proof.
  intros Hb. unfold INT64_MIN, INT64_MAX.
  rewrite Z.quot_opp_l by lia.
  rewrite !Z.quot_div_nonneg by lia.
  pose proof (Z.div_mod (2 ^ 63) b ltac:(lia)). pose proof (Z.mod_pos_bound (2 ^ 63) b Hb).
  pose proof (Z.div_mod (2 ^ 63 - 1) b ltac:(lia)).
  pose proof (Z.mod_pos_bound (2 ^ 63 - 1) b Hb).
  split; intros; nia.
Qed.

Lemma quot_limits_neg a b :
  b < -1 ->
  (Z.quot INT64_MAX b <= a <= Z.quot INT64_MIN b) <-> INT64_MIN <= a * b <= INT64_MAX.
Proof.
  intros Hb. unfold INT64_MIN, INT64_MAX.
  replace b with (- (- b)) at 1 2 by lia.
  rewrite Z.quot_opp_opp, Z.quot_opp_r by lia.
  rewrite !Z.quot_div_nonneg by lia.
  set (c := - b). assert (Hc : 1 < c) by (unfold c; lia).
  replace (a * b) with (- (a * c)) by (unfold c; lia).
  pose proof (Z.div_mod (2 ^ 63) c ltac:(lia)). pose proof (Z.mod_pos_bound (2 ^ 63) c ltac:(lia)).
  pose proof (Z.div_mod (2 ^ 63 - 1) c ltac:(lia)).
  pose proof (Z.mod_pos_bound (2 ^ 63 - 1) c ltac:(lia)).
  split; intros; nia.
Qed.

Lemma MulWouldOverflow_spec a b :
  in_int64 a = true -> in_int64 b = true ->
  MulWouldOverflow a b = negb (in_int64 (a * b)).
Proof.
  intros Ha Hb. apply eq_true_iff_eq.
  rewrite negb_true_iff, <- not_true_iff_false, (in_int64_iff (a * b)).
  rewrite in_int64_iff in Ha, Hb. unfold MulWouldOverflow.
  destruct ((a =? 0) || (b =? 0)) eqn:E0.
  { apply orb_true_iff in E0. rewrite !Z.eqb_eq in E0.
    assert (a * b = 0) by nia. split; [done | lia64]. }
  bool_to_prop.
  destruct (b >? 0) eqn:Eb; bool_to_prop.
  - rewrite <- (quot_limits_pos a b) by lia.
    rewrite orb_true_iff, Z.ltb_lt, Z.gtb_lt. lia.
  - destruct (b =? -1) eqn:Em; bool_to_prop.
    + subst b. rewrite Z.eqb_eq. lia64.
    + rewrite <- (quot_limits_neg a b) by lia.
      rewrite orb_true_iff, Z.ltb_lt, Z.gtb_lt. lia.
Qed.

(** ** Magnitudes, floor division and floor modulo *)

Lemma SafeAbs_spec x : in_int64 x = true -> SafeAbs x = Z.abs x.
Proof.
  rewrite in_int64_iff. intros Hx. unfold SafeAbs, wrap_unsigned.
  destruct (x >=? 0) eqn:E; bool_to_prop; [lia |].
  rewrite Z.add_mod_idemp_l, Z.mod_small by lia64. lia.
Qed.

Lemma abs_bound x : in_int64 x = true -> 0 <= Z.abs x <= 2 ^ 63.
Proof. rewrite in_int64_iff. lia64. Qed.

Lemma mod_sign x y : (0 < y -> 0 <= x mod y < y) /\ (y < 0 -> y < x mod y <= 0).
Proof. split; intros; [by apply Z.mod_pos_bound | by apply Z.mod_neg_bound]. Qed.

(** Truncated division seen from floor division. *)
Lemma quot_rem_floor x y :
  y <> 0 ->
  (Z.quot x y, Z.rem x y) =
  if decide (x mod y = 0 \/ (0 <= x /\ 0 < y) \/ (x <= 0 /\ y < 0)) then (x / y, x mod y)
  else (x / y + 1, x mod y - y).
Proof.
  intros Hy.
  pose proof (Z.div_mod x y Hy) as Hd. pose proof (Z.quot_rem x y Hy) as Hq.
  pose proof (mod_sign x y) as Hm.
  assert (Hr : (0 <= x -> 0 <= Z.rem x y < Z.abs y) /\ (x <= 0 -> - Z.abs y < Z.rem x y <= 0)).
  { split; intros.
    - pose proof (Z.rem_bound_pos_pos x (Z.abs y)). rewrite <- Z.rem_abs_r by lia. lia.
    - pose proof (Z.rem_bound_pos_pos (- x) (Z.abs y)).
      rewrite <- Z.rem_abs_r by lia. rewrite Z.rem_opp_l in * by lia. lia. }
  set (m := x mod y) in *. set (d := x / y) in *.
  set (q := Z.quot x y) in *. set (r := Z.rem x y) in *.
  case_decide.
  - assert (q = d) by nia. subst q. f_equal; nia.
  - assert (q = d + 1) by nia. subst q. f_equal; nia.
Qed.

(** [floordiv] and [floormod] agree with floor division wherever their stated
    precondition holds, and throw outside it. *)
Lemma floordiv_spec x y :
  in_int64 x = true -> in_int64 y = true ->
  y <> 0 -> ~ (x = INT64_MIN /\ y = -1) ->
  floordiv x y = Ok (x / y).
Proof.
  rewrite !in_int64_iff. intros Hx Hy Hy0 Hov. unfold floordiv, div64, rem64, sub64.
  assert (E1 : (y =? 0) = false) by lia.
  assert (E2 : (x =? INT64_MIN) && (y =? -1) = false) by (destruct (x =? INT64_MIN) eqn:?; lia).
  rewrite E1, E2. simpl.
  pose proof (quot_rem_floor x y Hy0) as Hqr.
  pose proof (Z.div_mod x y Hy0) as Hd.
  pose proof (mod_sign x y) as Hm.
  assert (Hrange : INT64_MIN <= x / y <= INT64_MAX /\ INT64_MIN <= Z.quot x y <= INT64_MAX).
  { case_decide; injection Hqr as Hq Hr; rewrite ?Hq; lia64 || (unfold INT64_MIN, INT64_MAX in *; nia). }
  destruct Hrange as [Hr1 Hr2].
  rewrite (checked_in _ Hr2). simpl.
  case_decide as Hc; injection Hqr as Hq Hr; rewrite Hq, Hr.
  - destruct ((_ || _)) eqn:E; [done |]. bool_to_prop. exfalso.
    destruct H; destruct H0; bool_to_prop; lia.
  - destruct ((_ || _)) eqn:E.
    + exfalso. bool_to_prop. destruct E; bool_to_prop; nia.
    + apply checked_ok. lia64.
Qed.

Lemma floormod_spec x y :
  in_int64 x = true -> in_int64 y = true ->
  y <> 0 -> ~ (x = INT64_MIN /\ y = -1) ->
  floormod x y = Ok (x mod y).
Proof.
  rewrite !in_int64_iff. intros Hx Hy Hy0 Hov. unfold floormod, rem64, add64.
  assert (E1 : (y =? 0) = false) by lia.
  assert (E2 : (x =? INT64_MIN) && (y =? -1) = false) by (destruct (x =? INT64_MIN) eqn:?; lia).
  rewrite E1, E2. simpl.
  pose proof (quot_rem_floor x y Hy0) as Hqr.
  pose proof (Z.div_mod x y Hy0) as Hd.
  pose proof (mod_sign x y) as Hm.
  case_decide as Hc; injection Hqr as Hq Hr; rewrite Hr.
  - destruct ((_ || _)) eqn:E; [done |]. bool_to_prop. exfalso.
    destruct H; destruct H0; bool_to_prop; lia.
  - destruct ((_ || _)) eqn:E.
    + exfalso. bool_to_prop. destruct E; bool_to_prop; nia.
    + apply checked_ok. lia64.
Qed.

(** ** Euclid's algorithm *)

Lemma mod_halves a r : 0 < r -> 0 < a mod r -> 2 * (r mod (a mod r)) < r.
Proof.
  intros Hr Hp. pose proof (Z.mod_pos_bound a r Hr).
  pose proof (Z.mod_pos_bound r (a mod r) Hp).
  destruct (Z_le_gt_dec (2 * (a mod r)) r); [lia |].
  pose proof (Z.div_mod r (a mod r) ltac:(lia)).
  assert (1 <= r / (a mod r)) by (apply Z.div_le_lower_bound; lia). nia.
Qed.

(** The state of [ee_loop] on magnitudes [A] and [B]: Bezout's relation modulo
    [B], the common divisors, and the size of the cofactors, which is what keeps
    the signed arithmetic from overflowing. *)
Record ee_inv (A B r old_r s old_s : Z) : Prop := {
  ee_r : 0 <= r <= INT64_MAX;
  ee_old_r : 0 <= old_r <= INT64_MAX;
  ee_size : Z.abs s * old_r + Z.abs old_s * r = B;
  ee_sign : s * old_s <= 0;
  ee_div : (B | old_r - old_s * A) /\ (B | r - s * A);
  ee_gcd : Z.gcd old_r r = Z.gcd A B;
  ee_first : (s = 0 /\ old_s = 1) \/ (r < old_r /\ Z.abs old_s <= Z.abs s)
}.

Lemma ee_init A B :
  0 <= A <= INT64_MAX -> 0 <= B <= INT64_MAX -> ee_inv A B B A 0 1.
Proof.
  intros HA HB. split; try lia.
  split; [exists 0 | exists 1]; lia.
Qed.

Lemma le_mul_pos a r : 0 <= a -> 1 <= r -> a <= a * r.
Proof. intros. rewrite <- (Z.mul_1_r a) at 1. apply Z.mul_le_mono_nonneg_l; lia. Qed.

(** Opposite signs make the new cofactor's magnitude a sum. *)
Lemma abs_sub_opposite s t q :
  s * t <= 0 -> 0 <= q -> Z.abs (t - q * s) = Z.abs t + q * Z.abs s.
Proof.
  intros Hs Hq. rewrite <- (Z.abs_eq q Hq) at 2. rewrite <- Z.abs_mul.
  destruct (Z_le_gt_dec s 0) as [H|H].
  - destruct (Z.eq_dec s 0) as [-> |]; [lia |].
    assert (0 <= t) by (apply Z.nlt_ge; intros ?; pose proof (Z.mul_neg_neg s t); lia).
    assert (q * s <= 0) by (apply Z.mul_nonneg_nonpos; lia). lia.
  - assert (t <= 0) by (apply Z.nlt_ge; intros ?; pose proof (Z.mul_pos_pos s t); lia).
    assert (0 <= q * s) by (apply Z.mul_nonneg_nonneg; lia). lia.
Qed.

Lemma ee_step_ok A B r old_r s old_s :
  0 < B <= INT64_MAX -> ee_inv A B r old_r s old_s -> r <> 0 ->
  ee_step r old_r s old_s = Ok (old_r mod r, r, old_s - old_r / r * s, s) /\
  ee_inv A B (old_r mod r) r (old_s - old_r / r * s) s.
Proof.
  intros HB [Hr Hor Hsz Hsg [Hd1 Hd2] Hg Hf] Hr0.
  assert (0 < r) by lia.
  pose proof (Z.div_mod old_r r Hr0) as Hdm. pose proof (Z.mod_pos_bound old_r r ltac:(lia)) as Hmb.
  assert (Hq : 0 <= old_r / r <= INT64_MAX).
  { split; [apply Z.div_pos; lia |]. apply Z.div_le_upper_bound; [lia |].
    pose proof (le_mul_pos INT64_MAX r ltac:(done) ltac:(lia)). lia. }
  set (q := old_r / r) in *. set (m := old_r mod r) in *.
  pose proof (abs_sub_opposite s old_s q Hsg ltac:(lia)) as Habs.
  assert (Hsz' : Z.abs (old_s - q * s) * r + Z.abs s * m = B) by (rewrite Habs, <- Hsz, Hdm; ring).
  assert (Hb : Z.abs (old_s - q * s) <= B).
  { pose proof (le_mul_pos (Z.abs (old_s - q * s)) r ltac:(lia) ltac:(lia)).
    pose proof (Z.mul_nonneg_nonneg (Z.abs s) m ltac:(lia) ltac:(lia)). lia. }
  assert (Hqs : Z.abs (q * s) <= B) by (rewrite Z.abs_mul, (Z.abs_eq q) by lia; lia).
  split.
  - unfold ee_step, mul64, sub64. fold q.
    replace (wrap_signed 64 q) with q
      by (unfold wrap_signed; rewrite Z.mod_small; lia64).
    rewrite (checked_in (q * s)) by lia64. simpl.
    rewrite (checked_in (old_s - q * s)) by lia64. simpl.
    unfold wrap_unsigned. rewrite Zminus_mod_idemp_r. replace (old_r - q * r) with m by lia.
    rewrite Z.mod_small by lia64. done.
  - assert (Hneg : (old_s - q * s) * s <= 0).
    { pose proof (Z.mul_nonneg_nonneg q (s * s) ltac:(lia) (Z.square_nonneg s)). lia. }
    split; try done; try lia64.
    + split; [done |]. destruct Hd1 as [u Hu], Hd2 as [w Hw]. exists (u - q * w).
      replace (m - (old_s - q * s) * A) with ((old_r - old_s * A) - q * (r - s * A)) by (rewrite Hdm; ring).
      rewrite Hu, Hw. ring.
    + rewrite <- Hg. unfold m. rewrite Z.gcd_comm, Z.gcd_mod by lia. apply Z.gcd_comm.
    + right. split; [lia |]. rewrite Habs.
      destruct Hf as [[-> _]|[? ?]]; [lia |].
      assert (1 <= q) by (apply Z.div_le_lower_bound; lia).
      pose proof (le_mul_pos (Z.abs s) q ltac:(lia) ltac:(lia)). lia.
Qed.

Lemma ee_loop_ok A B n : 0 < B <= INT64_MAX ->
  forall fuel r old_r s old_s,
  (2 * n <= fuel)%nat -> r < 2 ^ Z.of_nat n -> ee_inv A B r old_r s old_s ->
  exists g s' old_s', ee_loop fuel r old_r s old_s = Ok (g, old_s') /\
    ee_inv A B 0 g s' old_s'.
Proof.
  intros HB. induction n as [|n IH]; intros fuel r old_r s old_s Hf Hr Hinv.
  - assert (r = 0) as -> by (destruct Hinv; lia).
    exists old_r, s, old_s. split; [by destruct fuel | done].
  - destruct (Z.eq_dec r 0) as [-> | Hr0].
    { exists old_r, s, old_s. split; [by destruct fuel | done]. }
    destruct fuel as [|fuel]; [lia |]. simpl. rewrite (proj2 (Z.eqb_neq r 0) Hr0).
    destruct (ee_step_ok A B r old_r s old_s HB Hinv Hr0) as [-> Hinv1]. simpl.
    destruct (Z.eq_dec (old_r mod r) 0) as [E | Hr1].
    { rewrite E in *. eexists _, _, _. split; [by destruct fuel | done]. }
    destruct fuel as [|fuel]; [lia |]. simpl. rewrite (proj2 (Z.eqb_neq _ 0) Hr1).
    destruct (ee_step_ok A B _ _ _ _ HB Hinv1 Hr1) as [-> Hinv2]. simpl.
    apply IH; [lia | | done].
    pose proof (mod_halves old_r r) as Hh.
    destruct Hinv, Hinv1. rewrite Nat2Z.inj_succ, Z.pow_succ_r in Hr by lia. lia.
Qed.

(** With both magnitudes below [2^63] the loop ends, and leaves the greatest
    common divisor with its cofactor. *)
Lemma ee_loop_gcd A B :
  0 <= A <= INT64_MAX -> 0 < B <= INT64_MAX ->
  exists x, ee_loop euclid_fuel B A 0 1 = Ok (Z.gcd A B, x) /\
    (B | Z.gcd A B - x * A) /\ Z.abs x * Z.gcd A B <= B.
Proof.
  intros HA HB.
  destruct (ee_loop_ok A B 64 HB euclid_fuel B A 0 1) as (g & s & x & Heq & Hinv);
    [done | simpl; lia64 | apply ee_init; lia |].
  destruct Hinv as [_ Hg Hsz _ [Hd _] Hgcd Hf].
  rewrite Z.gcd_0_r, Z.abs_eq in Hgcd by lia. subst g.
  exists x. split; [done |]. split; [done |].
  destruct Hf as [[-> _]|[_ Hle]]; [lia |]. nia.
Qed.

Lemma gcd_loop_ok n : forall fuel ua ub,
  (2 * n <= fuel)%nat -> 0 <= ua -> 0 < ub < 2 ^ Z.of_nat n ->
  gcd_loop fuel ua ub = Ok (Z.gcd ua ub).
Proof.
  assert (Hstop : forall fuel ua ub, 0 < ub -> ua mod ub = 0 ->
    gcd_loop fuel ua ub = Ok (Z.gcd ua ub)).
  { intros fuel ua ub Hub H. rewrite Z.gcd_comm, <- Z.gcd_mod_r, H, Z.gcd_0_r, Z.abs_eq by lia.
    destruct fuel; simpl; by rewrite H. }
  assert (Hstep : forall fuel ua ub, 0 < ub -> ua mod ub <> 0 ->
    gcd_loop (S fuel) ua ub = gcd_loop fuel ub (ua mod ub)).
  { intros fuel ua ub Hub H. simpl. by rewrite (proj2 (Z.eqb_neq _ _) H). }
  induction n as [|n IH]; intros fuel ua ub Hf Ha Hb; [simpl in Hb; lia |].
  destruct (Z.eq_dec (ua mod ub) 0) as [E|E]; [apply Hstop; lia |].
  pose proof (Z.mod_pos_bound ua ub ltac:(lia)).
  destruct fuel as [|[|fuel]]; [lia | lia |]. rewrite Hstep by (done || lia).
  rewrite (Z.gcd_comm ua), <- Z.gcd_mod_r.
  destruct (Z.eq_dec (ub mod (ua mod ub)) 0) as [E'|E']; [apply Hstop; lia |].
  rewrite Hstep by (done || lia).
  pose proof (mod_halves ua ub). pose proof (Z.mod_pos_bound ub (ua mod ub)).
  rewrite Nat2Z.inj_succ, Z.pow_succ_r in Hb by lia.
  rewrite IH by lia. by rewrite Z.gcd_mod_r, Z.gcd_comm.
Qed.

Lemma lcm_mul_gcd a b : Z.lcm a b * Z.gcd a b = Z.abs (a * b).
Proof.
  unfold Z.lcm. destruct (Z.eq_dec (Z.gcd a b) 0) as [E|E].
  { rewrite E. apply Z.gcd_eq_0_l in E. subst. simpl. lia. }
  pose proof (Z.gcd_divide_r a b) as [k Hk].
  assert (Hq : b / Z.gcd a b = k) by (rewrite Hk at 1; by apply Z.div_mul).
  rewrite Hq, <- (Z.abs_eq (Z.gcd a b)) by apply Z.gcd_nonneg.
  rewrite <- Z.abs_mul, <- Z.mul_assoc, <- Hk. done.
Qed.

(** *** What the header promises *)

(** [ZeroAwareGCD] on every pair of [int64_t]: the greatest common divisor,
    except for the two pairs of magnitudes whose divisor [2^63] has no
    [int64_t]. *)
Lemma ZeroAwareGCD_value a b :
  in_int64 a = true -> in_int64 b = true ->
  ZeroAwareGCD a b =
    if Z.gcd a b =? 2 ^ 63 then
      if (a =? 0) || (b =? 0) then Err InternalError else Ok INT64_MIN
    else Ok (Z.gcd a b).
Proof.
  intros Ha Hb. unfold ZeroAwareGCD.
  rewrite !SafeAbs_spec by done.
  pose proof (abs_bound a Ha) as Ba. pose proof (abs_bound b Hb) as Bb.
  assert (Hswap : Z.gcd (Z.abs a) (Z.abs b) = Z.gcd a b) by (by rewrite Z.gcd_abs_l, Z.gcd_abs_r).
  set (p := if Z.abs a <? Z.abs b then (Z.abs b, Z.abs a) else (Z.abs a, Z.abs b)).
  assert (Hp : Z.gcd (p.1) (p.2) = Z.gcd a b /\ 0 <= p.2 <= p.1 /\ p.1 <= 2 ^ 63 /\
               (p.2 = 0 <-> a = 0 \/ b = 0)).
  { subst p. destruct (Z.ltb_spec (Z.abs a) (Z.abs b)); simpl; rewrite <- Hswap.
    - split; [apply Z.gcd_comm | lia].
    - split; [done | lia]. }
  destruct p as [ua ub]; simpl in Hp. destruct Hp as (Hg & Hub & Hua & Hz).
  assert (E0 : ((a =? 0) || (b =? 0)) = (ub =? 0))
    by (apply eq_true_iff_eq; rewrite orb_true_iff, !Z.eqb_eq; tauto).
  rewrite E0, <- Hg. destruct (Z.eqb_spec ub 0) as [-> | Hub0].
  - rewrite Z.gcd_0_r, Z.abs_eq by lia. unfold require, bind.
    destruct (Z.leb_spec ua INT64_MAX); destruct (Z.eqb_spec ua (2 ^ 63)); try done; lia64.
  - rewrite (gcd_loop_ok 64) by (unfold euclid_fuel; lia). simpl. unfold wrap_signed.
    pose proof (Z.gcd_divide_r ua ub) as Hd. apply Z.divide_pos_le in Hd; [|lia].
    pose proof (Z.gcd_nonneg ua ub).
    destruct (Z.eqb_spec (Z.gcd ua ub) (2 ^ 63)) as [-> |]; [done |].
    rewrite Z.mod_small by lia. f_equal. lia.
Qed.

(** Away from [INT64_MIN] the function is the gcd, with 0 as its identity. *)
Lemma ZeroAwareGCD_ok a b :
  - INT64_MAX <= a <= INT64_MAX -> - INT64_MAX <= b <= INT64_MAX ->
  ZeroAwareGCD a b = Ok (Z.gcd a b).
Proof.
  intros Ha Hb. rewrite ZeroAwareGCD_value by (apply in_int64_iff; lia64).
  destruct (Z.eqb_spec (Z.gcd a b) (2 ^ 63)) as [E|]; [| done]. exfalso.
  destruct (Z.eq_dec a 0) as [-> |].
  - rewrite Z.gcd_0_l in E. lia64.
  - pose proof (Z.gcd_divide_l a b) as Hd. apply Z.divide_abs_r, Z.divide_pos_le in Hd; lia64.
Qed.

(** [ExtendedEuclidean] solves Bezout's equation, without overflow as long as
    the least common multiple leaves room for the divisor. *)
Lemma ExtendedEuclidean_bezout a b :
  - INT64_MAX <= a <= INT64_MAX -> - INT64_MAX <= b <= INT64_MAX ->
  Z.lcm a b + Z.gcd a b <= INT64_MAX ->
  exists x y, ExtendedEuclidean a b = Ok (Z.gcd a b, x, y) /\ a * x + b * y = Z.gcd a b.
Proof.
  intros Ha Hb Hl. unfold ExtendedEuclidean.
  rewrite !SafeAbs_spec by (apply in_int64_iff; lia64).
  pose proof (Z.gcd_nonneg a b) as Hg0. pose proof (Z.lcm_nonneg a b) as Hl0.
  destruct (Z.eq_dec b 0) as [-> | Hb0].
  { simpl. rewrite Z.gcd_0_r in *. exists (if a >=? 0 then 1 else -1), 1.
    destruct (a >=? 0) eqn:E; bool_to_prop; simpl;
      rewrite (proj2 (Z.leb_le _ _)) by lia; simpl; (split; [done | lia]). }
  destruct (ee_loop_gcd (Z.abs a) (Z.abs b)) as (x & -> & Hdiv & Hx); [lia | lia |].
  rewrite Z.gcd_abs_l, Z.gcd_abs_r in *. simpl.
  assert (Hg : 0 < Z.gcd a b) by (destruct (Z.eq_dec (Z.gcd a b) 0) as [E|]; [apply Z.gcd_eq_0_r in E|]; lia).
  assert (Hxb : Z.abs x <= Z.abs b) by (pose proof (le_mul_pos (Z.abs x) (Z.gcd a b)); lia).
  set (px := if a >=? 0 then x else - x).
  assert (Hpx : (if a >=? 0 then Ok x else neg64 x) = Ok px).
  { subst px. unfold neg64. rewrite checked_in by lia64. by destruct (a >=? 0). }
  assert (Hpa : px * a = x * Z.abs a).
  { subst px. destruct (a >=? 0) eqn:E; bool_to_prop; [rewrite Z.abs_eq by lia; done |].
    rewrite Z.abs_neq by lia. ring. }
  rewrite Hpx. simpl. rewrite (proj2 (Z.leb_le _ _)) by lia. simpl.
  rewrite (proj2 (Z.eqb_neq b 0) Hb0). simpl.
  assert (Hlcm : Z.abs (px * a) <= Z.lcm a b).
  { rewrite Hpa, Z.abs_mul, Z.abs_idemp.
    apply (Z.mul_le_mono_pos_r _ _ (Z.gcd a b) Hg).
    rewrite lcm_mul_gcd, Z.abs_mul, (Z.mul_comm (Z.abs x)), <- Z.mul_assoc.
    apply Z.mul_le_mono_nonneg_l; lia. }
  unfold mul64, sub64, div64. rewrite checked_in by lia64. simpl.
  rewrite checked_in by lia64. simpl. rewrite (proj2 (Z.eqb_neq b 0) Hb0).
  destruct Hdiv as [k Hk].
  set (k' := if b >=? 0 then k else - k).
  assert (Hnum : Z.gcd a b - px * a = k' * b).
  { rewrite Hpa, Hk. subst k'. destruct (b >=? 0) eqn:E; bool_to_prop.
    - by rewrite Z.abs_eq by lia.
    - rewrite Z.abs_neq by lia. ring. }
  rewrite Hnum, Z.quot_mul by done.
  assert (Z.abs k' <= INT64_MAX).
  { assert (Z.abs (k' * b) <= INT64_MAX) by (rewrite <- Hnum; lia64).
    rewrite Z.abs_mul in *. pose proof (le_mul_pos (Z.abs k') (Z.abs b)). lia. }
  rewrite checked_in by lia64. simpl. exists px, k'. split; [done |]. lia.
Qed.

(** [LeastCommonMultiple] is the least common multiple when it fits. *)
Lemma LeastCommonMultiple_value a b :
  - INT64_MAX <= a <= INT64_MAX -> - INT64_MAX <= b <= INT64_MAX ->
  Z.lcm a b + Z.gcd a b <= INT64_MAX ->
  LeastCommonMultiple a b = Ok (Z.lcm a b).
Proof.
  intros Ha Hb Hl. unfold LeastCommonMultiple.
  destruct (Z.eqb_spec a 0) as [-> | Ha0]; [done |].
  destruct (Z.eqb_spec b 0) as [-> | Hb0]; [by rewrite Z.lcm_0_r |]. simpl.
  destruct (ExtendedEuclidean_bezout a b Ha Hb Hl) as (x & y & -> & _). simpl.
  pose proof (Z.gcd_nonneg a b) as Hg0. pose proof (Z.lcm_nonneg a b) as Hl0.
  assert (Hg : Z.gcd a b <> 0) by (intros E; by apply Z.gcd_eq_0_l in E).
  pose proof (Z.gcd_divide_l a b) as [k Hk].
  assert (Hq : Z.quot a (Z.gcd a b) = k) by (rewrite Hk at 1; by apply Z.quot_mul).
  assert (Hlcm : Z.abs (k * b) = Z.lcm a b).
  { apply (Z.mul_reg_r _ _ (Z.gcd a b)); [done |].
    rewrite lcm_mul_gcd. replace (a * b) with (k * b * Z.gcd a b) by (transitivity (k * Z.gcd a b * b); [ring | by rewrite <- Hk]).
    rewrite (Z.abs_mul (k * b)), (Z.abs_eq (Z.gcd a b)) by done. done. }
  assert (Hkb : Z.abs k <= Z.abs a).
  { pose proof (le_mul_pos (Z.abs k) (Z.gcd a b)). assert (Z.abs a = Z.abs k * Z.gcd a b) by (by rewrite <- (Z.abs_eq (Z.gcd a b)), <- Z.abs_mul, <- Hk by done).
    lia. }
  unfold div64, mul64, neg64. rewrite (proj2 (Z.eqb_neq _ _) Hg), Hq.
  rewrite checked_in by lia64. simpl. rewrite checked_in by lia64. simpl.
  rewrite <- Hlcm. destruct (Z.ltb_spec (k * b) 0); [rewrite checked_in by lia64 |]; f_equal; lia.
Qed.

(** The overflow predicates decide exactly whether the mathematical sum, difference,
    product or negation of int64_t operands leaves int64_t. *)
Theorem would_overflow_spec a b :
  in_int64 a = true -> in_int64 b = true ->
  AddWouldOverflow a b = negb (in_int64 (a + b)) /\
  SubWouldOverflow a b = negb (in_int64 (a - b)) /\
  MulWouldOverflow a b = negb (in_int64 (a * b)) /\
  NegWouldOverflow a = negb (in_int64 (- a)).
Proof.
  auto using AddWouldOverflow_spec, SubWouldOverflow_spec, MulWouldOverflow_spec, NegWouldOverflow_spec.
Qed.

(** floordiv and floormod are floor division and floor modulo on every pair of int64_t,
    with no undefined behaviour on the way, and an internal error exactly for a zero divisor
    and for INT64_MIN by -1. *)
Theorem floor_division_spec x y :
  in_int64 x = true -> in_int64 y = true ->
  let undefined := (y =? 0) || ((x =? INT64_MIN) && (y =? -1)) in
  floordiv x y = (if undefined then Err InternalError else Ok (x / y)) /\
  floormod x y = (if undefined then Err InternalError else Ok (x mod y)).
Proof.
  intros Hx Hy undefined. subst undefined. destruct (Z.eqb_spec y 0) as [->|Hy0]; cbn [orb]; [done |].
  destruct ((x =? INT64_MIN) && (y =? -1)) eqn:E.
  - apply andb_true_iff in E as [->%Z.eqb_eq ->%Z.eqb_eq]. done.
  - assert (~ (x = INT64_MIN /\ y = -1)) by (intros [-> ->]; done).
    by rewrite floordiv_spec, floormod_spec.
Qed.

(** ZeroAwareGCD is the greatest common divisor on every pair of int64_t but those
    whose divisor is 2^63: there it throws if one argument is zero and returns INT64_MIN
    otherwise; the loop ends within its fuel. *)
Theorem ZeroAwareGCD_spec a b :
  in_int64 a = true -> in_int64 b = true ->
  ZeroAwareGCD a b =
    if Z.gcd a b =? 2 ^ 63 then
      if (a =? 0) || (b =? 0) then Err InternalError else Ok INT64_MIN
    else Ok (Z.gcd a b).
Proof. apply ZeroAwareGCD_value. Qed.

(** ExtendedEuclidean returns the greatest common divisor with coefficients that solve
    Bezout's equation, and LeastCommonMultiple the least common multiple, without overflow
    in any intermediate step, whenever the multiple leaves room for the divisor. *)
Theorem ExtendedEuclidean_spec a b :
  - INT64_MAX <= a <= INT64_MAX -> - INT64_MAX <= b <= INT64_MAX ->
  Z.lcm a b + Z.gcd a b <= INT64_MAX ->
  (exists x y, ExtendedEuclidean a b = Ok (Z.gcd a b, x, y) /\ a * x + b * y = Z.gcd a b) /\
  LeastCommonMultiple a b = Ok (Z.lcm a b).
Proof. intros Ha Hb Hl. auto using ExtendedEuclidean_bezout, LeastCommonMultiple_value. Qed.

(** The divisor of [INT64_MIN] and itself comes back negative, though the
    header promises a non-negative result. *)
(** Finding: ZeroAwareGCD(INT64_MIN, INT64_MIN) is INT64_MIN, although the header
    promises a non-negative result. *)
Theorem ZeroAwareGCD_negative : ZeroAwareGCD INT64_MIN INT64_MIN = Ok INT64_MIN.
Proof. vm_compute. reflexivity. Qed.

(** *** Witnesses *)

Lemma would_overflow_spec_witness :
  MulWouldOverflow (-4611686018427387904) 2 = false /\ MulWouldOverflow 4611686018427387904 2 = true.
Proof.
  split.
  - apply (would_overflow_spec (-4611686018427387904) 2); vm_compute; reflexivity.
  - apply (would_overflow_spec 4611686018427387904 2); vm_compute; reflexivity.
Defined.

Lemma floor_division_spec_witness : floordiv (-7) 2 = Ok (-4) /\ floormod (-7) 2 = Ok 1.
Proof. apply (floor_division_spec (-7) 2); vm_compute; reflexivity. Defined.

Lemma ZeroAwareGCD_spec_witness : ZeroAwareGCD (-12) 18 = Ok 6.
Proof. rewrite (ZeroAwareGCD_spec (-12) 18); vm_compute; reflexivity. Defined.

Lemma ExtendedEuclidean_spec_witness : LeastCommonMultiple (-4) 6 = Ok 12.
Proof. apply (ExtendedEuclidean_spec (-4) 6); vm_compute; [split|split|]; discriminate. Defined.
