(* ===== verification/ScalarExpr.v ===== *)
(** * Scalar expressions ([include/pypto/ir/scalar_expr.h], [expr.h])

    The expression nodes the arithmetic analyzers walk over, their
    constructors with operand promotion, and the meaning of an expression. *)

From Stdlib Require Import ZArith Lia Bool List String.
From Stdlib Require Import SpecFloat.
From stdpp Require Import base list option strings.
From S2P Require Import Prelude Dtype.

(** ** Nodes

    [ObjectKind] of the binary and unary nodes of [scalar_expr.h].  A node's
    [Span] is left out: it locates the node in the Python source and no
    analyzer reads it. *)
Inductive binkind :=
  | KAdd | KSub | KMul | KFloorDiv | KFloorMod | KFloatDiv | KMin | KMax | KPow
  | KEq | KNe | KLt | KLe | KGt | KGe
  | KAnd | KOr | KXor
  | KBitAnd | KBitOr | KBitXor | KBitShiftLeft | KBitShiftRight.

Inductive unkind := KAbs | KNeg | KNot | KBitNot | KCast.

(** Expressions that are leaves for arithmetic.  A call carries the name of its
    operator ([None] for a null [OpPtr]). *)
Inductive leafkind :=
  | KMemRef | KWindowBuffer | KCall (op : option string) | KSubmit | KMakeTuple
  | KTupleGetItemExpr.

(** A variable is identified by the address of its node, here [id]; [iter]
    tells an [IterArg] from a [Var].  [ty] is the scalar dtype of the node's
    type, [None] for a type that is not [ScalarType]. *)
Inductive expr :=
  | Var (iter : bool) (id : positive) (ty : option DataType)
  | ConstInt (value : Z) (dt : DataType)
  | ConstFloat (value : spec_float) (dt : DataType)
  | ConstBool (value : bool)
  | Binary (k : binkind) (left right : expr) (dt : DataType)
  | Unary (k : unkind) (operand : expr) (dt : DataType)
  | Leaf (k : leafkind) (id : positive) (ty : option DataType).

#[export] Instance binkind_eq_dec : EqDecision binkind.
Proof. solve_decision. Defined.
#[export] Instance unkind_eq_dec : EqDecision unkind.
Proof. solve_decision. Defined.
#[export] Instance leafkind_eq_dec : EqDecision leafkind.
Proof. solve_decision. Defined.
#[export] Instance spec_float_eq_dec : EqDecision spec_float.
Proof. solve_decision. Defined.
#[export] Instance expr_eq_dec : EqDecision expr.
Proof. solve_decision. Defined.

(** [GetType] as a [ScalarType]. *)
Definition scalar_type (e : expr) : option DataType :=
  match e with
  | Var _ _ ty | Leaf _ _ ty => ty
  | ConstInt _ dt | ConstFloat _ dt | Binary _ _ _ dt | Unary _ _ dt => Some dt
  | ConstBool _ => Some BOOL
  end.

Definition GetScalarDtype (e : expr) : result DataType :=
  match scalar_type e with Some dt => Ok dt | None => Err TypeError end.

Definition IsBoolDtype (dt : DataType) : bool := dtype_eqb dt BOOL.

Inductive ScalarCategory := kInt | kFloat.

#[export] Instance ScalarCategory_eq_dec : EqDecision ScalarCategory.
Proof. solve_decision. Defined.

Definition GetNumericCategory (dt : DataType) : result ScalarCategory :=
  if IsFloat dt then Ok kFloat else if IsInt dt then Ok kInt else Err TypeError.

Definition PromoteSameCategoryDtype (left_dtype right_dtype : DataType) : result DataType :=
  if IsBoolDtype left_dtype || IsBoolDtype right_dtype then Err TypeError
  else
    let* left_category := GetNumericCategory left_dtype in
    let* right_category := GetNumericCategory right_dtype in
    if bool_decide (left_category <> right_category) then Err TypeError
    else if GetBit left_dtype >? GetBit right_dtype then Ok left_dtype
    else if GetBit right_dtype >? GetBit left_dtype then Ok right_dtype
    else Ok left_dtype.

Definition MaybeCast (e : expr) (target_dtype : DataType) : result expr :=
  let* dtype := GetScalarDtype e in
  if dtype_eqb dtype target_dtype then Ok e
  else if (dtype_eqb dtype INDEX && dtype_eqb target_dtype INT64)
       || (dtype_eqb dtype INT64 && dtype_eqb target_dtype INDEX) then Ok e
  else Ok (Unary KCast e target_dtype).

Definition PromoteBinaryOperands (left right : expr) : result (expr * expr * DataType) :=
  let* left_dtype := GetScalarDtype left in
  let* right_dtype := GetScalarDtype right in
  let* promoted_dtype := PromoteSameCategoryDtype left_dtype right_dtype in
  let* promoted_left := MaybeCast left promoted_dtype in
  let* promoted_right := MaybeCast right promoted_dtype in
  Ok (promoted_left, promoted_right, promoted_dtype).

Definition PromoteIntBinaryOperands (left right : expr) : result (expr * expr * DataType) :=
  let* left_dtype := GetScalarDtype left in
  let* right_dtype := GetScalarDtype right in
  let* _ := require (IsInt left_dtype && IsInt right_dtype) TypeError in
  let* promoted_dtype := PromoteSameCategoryDtype left_dtype right_dtype in
  let* promoted_left := MaybeCast left promoted_dtype in
  let* promoted_right := MaybeCast right promoted_dtype in
  Ok (promoted_left, promoted_right, promoted_dtype).

Definition MakeCast (operand : expr) (dt : DataType) : expr := Unary KCast operand dt.

(** [MakeAdd], [MakeSub], [MakeMul], [MakeFloatDiv], [MakeFloorDiv],
    [MakeFloorMod], [MakePow], [MakeMin] and [MakeMax]. *)
Definition MakeArith (k : binkind) (left right : expr) : result expr :=
  let* (l, r, dt) := PromoteBinaryOperands left right in
  Ok (Binary k l r dt).

(** [MakeEq], [MakeNe], [MakeLt], [MakeLe], [MakeGt] and [MakeGe]. *)
Definition MakeCompare (k : binkind) (left right : expr) : result expr :=
  let* (l, r, _) := PromoteBinaryOperands left right in
  Ok (Binary k l r BOOL).

(** [MakeBitAnd], [MakeBitOr], [MakeBitXor] and the two shifts. *)
Definition MakeBitwise (k : binkind) (left right : expr) : result expr :=
  let* (l, r, dt) := PromoteIntBinaryOperands left right in
  Ok (Binary k l r dt).

(** [MakeAnd], [MakeOr], and the direct construction of [Xor]. *)
Definition MakeLogical (k : binkind) (left right : expr) : expr := Binary k left right BOOL.

(** [MakeBinaryExprHelper<OpType>::Make]: the constructor of each kind. *)
Definition MakeBinary (k : binkind) (left right : expr) : result expr :=
  match k with
  | KAdd | KSub | KMul | KFloorDiv | KFloorMod | KFloatDiv | KMin | KMax | KPow =>
      MakeArith k left right
  | KEq | KNe | KLt | KLe | KGt | KGe => MakeCompare k left right
  | KAnd | KOr | KXor => Ok (MakeLogical k left right)
  | KBitAnd | KBitOr | KBitXor | KBitShiftLeft | KBitShiftRight => MakeBitwise k left right
  end.

Definition MakeNeg (operand : expr) : result expr :=
  let* dt := GetScalarDtype operand in Ok (Unary KNeg operand dt).

Definition MakeBitNot (operand : expr) : result expr :=
  let* dt := GetScalarDtype operand in
  let* _ := require (IsInt dt) TypeError in
  Ok (Unary KBitNot operand dt).

Definition MakeNot (operand : expr) : expr := Unary KNot operand BOOL.

(** [IsConstValue(expr, int64_t)]. *)
Definition IsConstValue (e : expr) (value : Z) : bool :=
  match e with ConstInt v _ => v =? value | _ => false end.

(** ** Meaning

    An expression denotes an integer or a truth value, or nothing: a division
    by zero, a shift count out of range, an operation on operands it is not
    defined for.  Floating point subexpressions have no meaning here; what the
    code does with them is stated by separate theorems.

    The three readings the theorems use differ in what they do with an integer
    that an operation, a literal, a variable or a conversion produces. *)
Inductive value := VInt (z : Z) | VBool (b : bool).

#[export] Instance value_eq_dec : EqDecision value.
Proof. solve_decision. Defined.

Record Sem := {
  sem_leaf : DataType -> Z -> option Z;   (** variables and literals *)
  sem_arith : DataType -> Z -> option Z;  (** results of operations *)
  sem_shift : DataType -> Z -> option Z;  (** results of left shifts *)
  sem_cast : DataType -> Z -> option Z    (** conversions *)
}.

Record Env := {
  var_val : positive -> value;
  leaf_val : positive -> value
}.

(** A result at dtype [dt]: integers at an integer dtype, truth values at
    [BOOL]. *)
Definition int_result (dt : DataType) (o : option Z) : option value :=
  if IsInt dt then VInt <$> o else None.

Definition bool_result (dt : DataType) (b : bool) : option value :=
  if IsBoolDtype dt then Some (VBool b) else None.

Definition load (S : Sem) (ty : option DataType) (v : value) : option value :=
  match ty, v with
  | Some dt, VInt z => int_result dt (sem_leaf S dt z)
  | Some dt, VBool b => bool_result dt b
  | None, _ => None
  end.

Definition int_op (k : binkind) (S : Sem) (dt : DataType) (a b : Z) : option value :=
  match k with
  | KAdd => int_result dt (sem_arith S dt (a + b))
  | KSub => int_result dt (sem_arith S dt (a - b))
  | KMul => int_result dt (sem_arith S dt (a * b))
  | KFloorDiv => if b =? 0 then None else int_result dt (sem_arith S dt (a / b))
  | KFloorMod => if b =? 0 then None else int_result dt (sem_arith S dt (a mod b))
  | KMin => int_result dt (sem_arith S dt (Z.min a b))
  | KMax => int_result dt (sem_arith S dt (Z.max a b))
  | KPow => if b <? 0 then None else int_result dt (sem_arith S dt (a ^ b))
  | KEq => bool_result dt (a =? b)
  | KNe => bool_result dt (negb (a =? b))
  | KLt => bool_result dt (a <? b)
  | KLe => bool_result dt (a <=? b)
  | KGt => bool_result dt (b <? a)
  | KGe => bool_result dt (b <=? a)
  | KBitAnd => int_result dt (sem_arith S dt (Z.land a b))
  | KBitOr => int_result dt (sem_arith S dt (Z.lor a b))
  | KBitXor => int_result dt (sem_arith S dt (Z.lxor a b))
  | KBitShiftLeft =>
      if (0 <=? b) && (b <? 64) then int_result dt (sem_shift S dt (Z.shiftl a b)) else None
  | KBitShiftRight =>
      if (0 <=? b) && (b <? 64) then int_result dt (sem_arith S dt (Z.shiftr a b)) else None
  | KFloatDiv | KAnd | KOr | KXor => None
  end.

Definition bool_op (k : binkind) (dt : DataType) (a b : bool) : option value :=
  match k with
  | KAnd => bool_result dt (a && b)
  | KOr => bool_result dt (a || b)
  | KXor => bool_result dt (xorb a b)
  | _ => None
  end.

Definition binary_sem (k : binkind) (S : Sem) (dt : DataType) (v w : value) : option value :=
  match v, w with
  | VInt a, VInt b => int_op k S dt a b
  | VBool a, VBool b => bool_op k dt a b
  | _, _ => None
  end.

Definition cast_sem (S : Sem) (dt : DataType) (v : value) : option value :=
  match v with
  | VInt z => int_result dt (sem_cast S dt z)
  | VBool b => if IsBoolDtype dt then Some (VBool b)
               else int_result dt (sem_cast S dt (Z.b2z b))
  end.

Definition unary_sem (k : unkind) (S : Sem) (dt : DataType) (v : value) : option value :=
  match k, v with
  | KAbs, VInt a => int_result dt (sem_arith S dt (Z.abs a))
  | KNeg, VInt a => int_result dt (sem_arith S dt (- a))
  | KBitNot, VInt a => int_result dt (sem_arith S dt (Z.lnot a))
  | KNot, VBool b => bool_result dt (negb b)
  | KCast, _ => cast_sem S dt v
  | _, _ => None
  end.

Fixpoint eval (S : Sem) (rho : Env) (e : expr) : option value :=
  match e with
  | Var _ id ty => load S ty (var_val rho id)
  | Leaf _ id ty => load S ty (leaf_val rho id)
  | ConstInt v dt => int_result dt (sem_leaf S dt v)
  | ConstFloat _ _ => None
  | ConstBool b => Some (VBool b)
  | Binary k l r dt =>
      match eval S rho l, eval S rho r with
      | Some v, Some w => binary_sem k S dt v w
      | _, _ => None
      end
  | Unary k e dt =>
      match eval S rho e with
      | Some v => unary_sem k S dt v
      | None => None
      end
  end.

Definition guard_opt (b : bool) (z : Z) : option Z := if b then Some z else None.

(** Unbounded integers: the reading the analyzers' comments use, under the
    standing assumption that index arithmetic does not overflow.  Only a left
    shift, which discards bits, has to stay within [int64_t]. *)
Definition ideal : Sem := {|
  sem_leaf := fun _ z => Some z;
  sem_arith := fun _ z => Some z;
  sem_shift := fun _ z => guard_opt (in_int64 z) z;
  sem_cast := fun dt z => Some (wrap_dtype dt z)
|}.

(** The same, defined only while every conversion keeps its value. *)
Definition ideal_cast : Sem := {|
  sem_leaf := fun _ z => Some z;
  sem_arith := fun _ z => Some z;
  sem_shift := fun _ z => guard_opt (in_int64 z) z;
  sem_cast := fun dt z => guard_opt (wrap_dtype dt z =? z) z
|}.

(** The machine: every literal, variable and result is read back at the width
    of its dtype. *)
Definition machine : Sem := {|
  sem_leaf := fun dt z => Some (wrap_dtype dt z);
  sem_arith := fun dt z => Some (wrap_dtype dt z);
  sem_shift := fun dt z => Some (wrap_dtype dt z);
  sem_cast := fun dt z => Some (wrap_dtype dt z)
|}.

(** Integers confined to a range: defined only while every literal, variable,
    result and conversion satisfies [P]. *)
Definition guarded (P : Z -> bool) : Sem := {|
  sem_leaf := fun _ z => guard_opt (P z) z;
  sem_arith := fun _ z => guard_opt (P z) z;
  sem_shift := fun _ z => guard_opt (P z) z;
  sem_cast := fun dt z => guard_opt (P (wrap_dtype dt z)) (wrap_dtype dt z)
|}.

Definition int64_sem : Sem := guarded in_int64.

(** What the readings other than [machine] have in common: an integer they
    accept is taken at face value, whatever the dtype. *)
Class ExactSem (S : Sem) : Prop := {
  leaf_exact dt z z' : sem_leaf S dt z = Some z' -> z' = z;
  arith_leaf dt dt' z z' : sem_arith S dt z = Some z' -> sem_leaf S dt' z = Some z';
  shift_leaf dt dt' z z' :
    sem_shift S dt z = Some z' -> in_int64 z = true /\ sem_leaf S dt' z = Some z';
  cast_leaf dt dt' z z' :
    sem_cast S dt z = Some z' -> wrap_dtype dt z = z -> sem_leaf S dt' z = Some z'
}.

(** ** Lemmas *)

Lemma GetScalarDtype_ok e dt : GetScalarDtype e = Ok dt <-> scalar_type e = Some dt.
Proof. unfold GetScalarDtype. destruct (scalar_type e); split; congruence. Qed.

Lemma IsInt_not_Bool dt : IsInt dt = true -> IsBoolDtype dt = false.
Proof.
  intros H. apply not_true_iff_false. intros E. apply dtype_eqb_eq in E. by subst.
Qed.

Lemma GetNumericCategory_int dt : IsInt dt = true -> GetNumericCategory dt = Ok kInt.
Proof. intros H. unfold GetNumericCategory. by rewrite IsInt_not_IsFloat, H. Qed.

(** The promoted dtype of two integers: the wider one, the left one on a tie. *)
Lemma Promote_int dl dr :
  IsInt dl = true -> IsInt dr = true ->
  PromoteSameCategoryDtype dl dr = Ok (if GetBit dr >? GetBit dl then dr else dl).
Proof.
  intros Hl Hr. unfold PromoteSameCategoryDtype.
  rewrite !IsInt_not_Bool, !GetNumericCategory_int by done. simpl.
  destruct (GetBit dl >? GetBit dr) eqn:E1, (GetBit dr >? GetBit dl) eqn:E2; try done.
  bool_to_prop. lia.
Qed.

(** What the promotion accepts, and what it rejects with a [TypeError]. *)
(** PromoteSameCategoryDtype accepts exactly two integers or two floats and returns the
    wider dtype, the left one on a tie; booleans, mixed categories and handles are a
    TypeError. *)
Theorem PromoteSameCategoryDtype_spec dl dr :
  PromoteSameCategoryDtype dl dr =
    if (IsInt dl && IsInt dr) || (IsFloat dl && IsFloat dr)
    then Ok (if GetBit dr >? GetBit dl then dr else dl)
    else Err TypeError.
Proof.
  destruct (IsInt dl && IsInt dr) eqn:Eii.
  { apply andb_true_iff in Eii as [? ?]. by apply Promote_int. }
  assert (Hb : forall d, IsBoolDtype d = true -> IsFloat d = false /\ IsInt d = false).
  { intros d H. apply dtype_eqb_eq in H as ->. done. }
  unfold PromoteSameCategoryDtype. simpl.
  destruct (IsBoolDtype dl) eqn:Ebl; [by rewrite (proj1 (Hb _ Ebl)) |].
  destruct (IsBoolDtype dr) eqn:Ebr; [by rewrite (proj1 (Hb _ Ebr)), andb_false_r |].
  simpl. unfold GetNumericCategory.
  destruct (IsFloat dl) eqn:Efl, (IsFloat dr) eqn:Efr; simpl;
    destruct (IsInt dl) eqn:Eil, (IsInt dr) eqn:Eir; simpl in *; try done;
    destruct (GetBit dl >? GetBit dr) eqn:E1, (GetBit dr >? GetBit dl) eqn:E2; try done;
    bool_to_prop; lia.
Qed.

Lemma MaybeCast_same e dt : scalar_type e = Some dt -> MaybeCast e dt = Ok e.
Proof.
  intros H. unfold MaybeCast. rewrite (proj2 (GetScalarDtype_ok e dt) H). simpl.
  by rewrite dtype_eqb_refl.
Qed.

(** The dtype of the node a constructor builds from two operands of dtype [dt]. *)
Definition result_dtype (k : binkind) (dt : DataType) : DataType :=
  match k with
  | KEq | KNe | KLt | KLe | KGt | KGe | KAnd | KOr | KXor => BOOL
  | _ => dt
  end.

Lemma MakeBinary_uniform k l r dt :
  IsInt dt = true -> scalar_type l = Some dt -> scalar_type r = Some dt ->
  MakeBinary k l r = Ok (Binary k l r (result_dtype k dt)).
Proof.
  intros Hi Hl Hr.
  assert (Hp : PromoteSameCategoryDtype dt dt = Ok dt) by (rewrite Promote_int by done; by case_match).
  destruct k; simpl; unfold MakeArith, MakeCompare, MakeBitwise, PromoteBinaryOperands,
    PromoteIntBinaryOperands; rewrite ?(proj2 (GetScalarDtype_ok _ _) Hl),
    ?(proj2 (GetScalarDtype_ok _ _) Hr); simpl; rewrite ?Hi; simpl; rewrite ?Hp; simpl;
    rewrite ?MaybeCast_same by done; done.
Qed.

(** A value its type stores exactly. *)
Definition fits (dt : DataType) (z : Z) : Prop := wrap_dtype dt z = z.

#[export] Instance fits_dec dt z : Decision (fits dt z).
Proof. unfold fits. apply _. Defined.

Lemma wrap_signed_id bits z :
  0 < bits -> wrap_signed bits z = z <-> - 2 ^ (bits - 1) <= z < 2 ^ (bits - 1).
Proof.
  intros Hb. unfold wrap_signed.
  assert (Hp : 2 ^ bits = 2 * 2 ^ (bits - 1)) by (rewrite <- Z.pow_succ_r by lia; f_equal; lia).
  assert (0 < 2 ^ (bits - 1)) by (apply Z.pow_pos_nonneg; lia).
  split; intros H1.
  - pose proof (Z.mod_pos_bound (z + 2 ^ (bits - 1)) (2 ^ bits)). lia.
  - rewrite Z.mod_small by lia. lia.
Qed.

Lemma wrap_unsigned_id bits z :
  0 <= bits -> wrap_unsigned bits z = z <-> 0 <= z < 2 ^ bits.
Proof.
  intros Hb. unfold wrap_unsigned. assert (0 < 2 ^ bits) by (apply Z.pow_pos_nonneg; lia).
  split; intros H1; [pose proof (Z.mod_pos_bound z (2 ^ bits)); lia | by apply Z.mod_small].
Qed.

Lemma fits_signed dt z :
  IsSignedInt dt = true -> 0 < GetBit dt ->
  fits dt z <-> - 2 ^ (GetBit dt - 1) <= z < 2 ^ (GetBit dt - 1).
Proof.
  intros Hs Hb. unfold fits, wrap_dtype.
  rewrite (proj2 (Z.eqb_neq _ _)) by lia.
  destruct (IsUnsignedInt dt) eqn:Hu; [by rewrite (signed_not_unsigned _ Hu) in Hs |].
  by apply wrap_signed_id.
Qed.

Lemma fits_widen d d' z :
  IsSignedInt d = true -> IsSignedInt d' = true -> 0 < GetBit d <= GetBit d' ->
  fits d z -> fits d' z.
Proof.
  intros Hd Hd' Hb. rewrite !fits_signed by (done || lia).
  assert (2 ^ (GetBit d - 1) <= 2 ^ (GetBit d' - 1)) by (apply Z.pow_le_mono_r; lia). lia.
Qed.

Lemma eval_MaybeCast rho e d d' z :
  scalar_type e = Some d -> IsSignedInt d = true -> IsSignedInt d' = true ->
  0 < GetBit d <= GetBit d' -> eval ideal rho e = Some (VInt z) -> fits d z ->
  exists e', MaybeCast e d' = Ok e' /\ eval ideal rho e' = Some (VInt z).
Proof.
  intros Ht Hd Hd' Hb He Hf. unfold MaybeCast. rewrite (proj2 (GetScalarDtype_ok e d) Ht). simpl.
  destruct (dtype_eqb d d'); [eauto |]. destruct (_ || _); [eauto |].
  eexists. split; [done |]. simpl. rewrite He. simpl.
  assert (Hi : IsInt d' = true) by (unfold IsInt; by rewrite Hd'). unfold int_result. rewrite Hi. simpl.
  by rewrite (fits_widen d d' z).
Qed.

(** Promotion inserts casts but never changes what signed operands denote: the
    node built by an arithmetic constructor applies the operation, at the wider
    dtype, to the operands' own values. *)
(** Operand promotion inserts casts but keeps meaning: the node an arithmetic
    constructor builds from signed operands of different widths has the wider dtype and
    applies the operation to the operands' own values. *)
Theorem MakeArith_meaning k rho l r dl dr a b :
  scalar_type l = Some dl -> scalar_type r = Some dr ->
  IsSignedInt dl = true -> IsSignedInt dr = true -> 0 < GetBit dl -> 0 < GetBit dr ->
  eval ideal rho l = Some (VInt a) -> eval ideal rho r = Some (VInt b) ->
  fits dl a -> fits dr b ->
  exists d e, MakeArith k l r = Ok e /\ scalar_type e = Some d /\
    GetBit d = Z.max (GetBit dl) (GetBit dr) /\
    eval ideal rho e = int_op k ideal d a b.
Proof.
  intros Hl Hr Sl Sr Bl Br El Er Fl Fr.
  assert (Il : IsInt dl = true) by (unfold IsInt; by rewrite Sl).
  assert (Ir : IsInt dr = true) by (unfold IsInt; by rewrite Sr).
  set (d := if GetBit dr >? GetBit dl then dr else dl).
  assert (Hd : IsSignedInt d = true /\ GetBit d = Z.max (GetBit dl) (GetBit dr)).
  { subst d. destruct (GetBit dr >? GetBit dl) eqn:E; bool_to_prop; (split; [done | lia]). }
  destruct Hd as [Sd Bd]. exists d.
  destruct (eval_MaybeCast rho l dl d a) as (l' & Ml & El'); try done; [lia |].
  destruct (eval_MaybeCast rho r dr d b) as (r' & Mr & Er'); try done; [lia |].
  exists (Binary k l' r' d). unfold MakeArith, PromoteBinaryOperands.
  rewrite (proj2 (GetScalarDtype_ok _ _) Hl), (proj2 (GetScalarDtype_ok _ _) Hr). simpl.
  rewrite Promote_int by done. fold d. simpl. rewrite Ml, Mr. simpl.
  split_and!; [done | done | done |]. by rewrite El', Er'.
Qed.

Definition no_env : Env := {| var_val := fun _ => VInt 0; leaf_val := fun _ => VInt 0 |}.

Lemma MakeArith_meaning_witness :
  exists d e, MakeArith KAdd (ConstInt 100 INT8) (ConstInt 1000 INT32) = Ok e /\
    scalar_type e = Some d /\ GetBit d = Z.max 8 32 /\
    eval ideal no_env e = int_op KAdd ideal d 100 1000.
Proof. apply (MakeArith_meaning KAdd no_env _ _ INT8 INT32); vm_compute; reflexivity. Defined.

(** ** Readings and typing *)

Lemma guard_opt_some b z r : guard_opt b z = Some r <-> b = true /\ r = z.
Proof. destruct b; simpl; split; [intros [= ->] | intros [_ ->] | | intros [? _]]; done. Qed.

#[export] Instance ideal_exact : ExactSem ideal.
Proof.
  split; simpl; try congruence.
  - intros _ _ z z' H%guard_opt_some. destruct H as [? ->]. done.
Qed.

#[export] Instance ideal_cast_exact : ExactSem ideal_cast.
Proof.
  split; simpl; try congruence.
  - intros _ _ z z' H%guard_opt_some. destruct H as [? ->]. done.
  - intros dt _ z z' H%guard_opt_some. destruct H as [_ ->]. done.
Qed.

Lemma guarded_exact (P : Z -> bool) :
  (forall z, P z = true -> in_int64 z = true) -> ExactSem (guarded P).
Proof.
  intros HP. split; simpl.
  - by intros _ z z' [_ ->]%guard_opt_some.
  - by intros.
  - intros _ _ z z' H. split; [|done]. apply guard_opt_some in H as [? _]. by apply HP.
  - intros dt _ z z' H E. by rewrite E in H.
Qed.

#[export] Instance int64_sem_exact : ExactSem int64_sem.
Proof. by apply guarded_exact. Qed.

Lemma int_result_some dt o v :
  int_result dt o = Some v <-> exists z, IsInt dt = true /\ o = Some z /\ v = VInt z.
Proof.
  unfold int_result. destruct (IsInt dt), o; simpl; split;
    try (intros [= <-]; eauto); intros (z' & ? & ? & ?); congruence.
Qed.

Lemma bool_result_some dt b v :
  bool_result dt b = Some v <-> dt = BOOL /\ v = VBool b.
Proof.
  unfold bool_result. destruct (IsBoolDtype dt) eqn:E.
  - apply dtype_eqb_eq in E. subst. split; [by intros [= <-] | by intros [_ ->]].
  - split; [done | intros [-> _]; done].
Qed.

(** Invert the equations that say an evaluation step has a value. *)
Ltac inv_eval :=
  repeat match goal with
  | H : int_result _ _ = Some _ |- _ =>
      apply int_result_some in H; let z := fresh "z" in destruct H as (z & ? & ? & ?)
  | H : bool_result _ _ = Some _ |- _ => apply bool_result_some in H; destruct H
  | H : guard_opt _ _ = Some _ |- _ => apply guard_opt_some in H; destruct H
  | H : Some _ = Some _ |- _ => injection H as H
  | H : None = Some _ |- _ => discriminate H
  | H : VInt _ = VInt _ |- _ => injection H as H
  | H : VBool _ = VBool _ |- _ => injection H as H
  | H : VInt _ = VBool _ |- _ => discriminate H
  | H : VBool _ = VInt _ |- _ => discriminate H
  end.

Definition value_type (v : value) (dt : DataType) : Prop :=
  match v with VInt _ => IsInt dt = true | VBool _ => dt = BOOL end.

Lemma binary_sem_typed k S dt v w u : binary_sem k S dt v w = Some u -> value_type u dt.
Proof.
  destruct v as [a|a], w as [b|b]; simpl; try done.
  - destruct k; simpl; repeat case_match; intros; inv_eval; subst; done.
  - destruct k; simpl; intros; inv_eval; subst; done.
Qed.

Lemma unary_sem_typed k S dt v u : unary_sem k S dt v = Some u -> value_type u dt.
Proof.
  destruct k, v; simpl; unfold cast_sem; repeat case_match; intros; inv_eval; subst; try done.
  by apply dtype_eqb_eq.
Qed.

(** An expression that has a value has a scalar type of that value's sort. *)
Lemma eval_typed S rho e v :
  eval S rho e = Some v -> exists dt, scalar_type e = Some dt /\ value_type v dt.
Proof.
  destruct e as [? ? ty|? ?|? ?|?|k l r dt|k e dt|? ? ty]; simpl.
  - unfold load. destruct ty as [dt|]; [|done]. intros H. exists dt. split; [done |].
    destruct (var_val rho id); inv_eval; subst; done.
  - intros. inv_eval. subst. eauto.
  - done.
  - intros. inv_eval. subst. by exists BOOL.
  - destruct (eval S rho l), (eval S rho r); try done. eauto using binary_sem_typed.
  - destruct (eval S rho e); [|done]. eauto using unary_sem_typed.
  - unfold load. destruct ty as [dt|]; [|done]. intros H. exists dt. split; [done |].
    destruct (leaf_val rho id); inv_eval; subst; done.
Qed.

Lemma eval_int_type S rho e z dt :
  eval S rho e = Some (VInt z) -> scalar_type e = Some dt -> IsInt dt = true.
Proof. intros (dt' & Ht & Hv)%eval_typed H. simplify_eq. done. Qed.

(** ** Well-formed literals *)

(** Every literal of the expression is an [int64_t], as [ConstInt::value_] is. *)
Fixpoint wf (e : expr) : bool :=
  match e with
  | ConstInt v _ => in_int64 v
  | Binary _ l r _ => wf l && wf r
  | Unary _ e _ => wf e
  | _ => true
  end.
