(* ===== verification/ConstFold.v ===== *)
(** * Constant folding ([include/pypto/ir/arith/const_fold.h])

    A fold returns the folded expression, or nothing when no fold applies
    ([nullptr]), or throws. *)

From Stdlib Require Import ZArith Lia Bool List.
From Stdlib Require Import SpecFloat.
From stdpp Require Import base list option.
From S2P Require Import Prelude Double Dtype IntOps ScalarExpr.

(** Pointer identity of expression nodes ([lhs.get() == rhs.get()]): the code
    relies on one thing only, that one node is equal to itself. *)
Class PtrEq := {
  same : expr -> expr -> bool;
  same_eq a b : same a b = true -> a = b
}.

(** With hash-consed nodes identity is equality. *)
#[export] Instance structural_ptr : PtrEq :=
  Build_PtrEq (fun a b => bool_decide (a = b)) (fun a b => proj1 (bool_decide_eq_true (a = b))).

(** [std::pow] on doubles. *)
Class Libm := { std_pow : spec_float -> spec_float -> spec_float }.

(** ** Literals *)

Definition MakeConstInt (v : Z) (dt : DataType) : expr := ConstInt v dt.
Definition MakeConstFloat (v : spec_float) (dt : DataType) : expr := ConstFloat v dt.
Definition MakeConstBool (v : bool) : expr := ConstBool v.

Definition ConstIntFitsDtype (value : Z) (dtype : DataType) : bool :=
  if dtype_eqb dtype INDEX then true
  else
    let bits := GetBit dtype in
    if (bits =? 0) || (bits >? 64) then false
    else if IsUnsignedInt dtype then
      if value <? 0 then false
      else if bits >=? 64 then true
      else wrap_unsigned 64 value <=? 2 ^ bits - 1
    else if bits >=? 64 then true
    else
      let limit := 2 ^ (bits - 1) in
      (value >=? - limit) && (value <=? limit - 1).

Definition operand_fits (operand : expr) (dtype : DataType) : bool :=
  match operand with
  | ConstInt value dt => ConstIntFitsDtype value dt && ConstIntFitsDtype value dtype
  | _ => true
  end.

Definition FloorDivModOperandsFitDtype (lhs rhs : expr) (dtype : DataType) : bool :=
  operand_fits lhs dtype && operand_fits rhs dtype.

(** [As<ConstInt>] and its siblings. *)
Definition as_int (e : expr) : option (Z * DataType) :=
  match e with ConstInt v dt => Some (v, dt) | _ => None end.
Definition as_float (e : expr) : option (spec_float * DataType) :=
  match e with ConstFloat v dt => Some (v, dt) | _ => None end.
Definition as_bool (e : expr) : option bool :=
  match e with ConstBool v => Some v | _ => None end.

Record BinaryConstOperands := {
  lhs : expr;
  rhs : expr;
  pa : option (Z * DataType);
  pb : option (Z * DataType);
  fa : option (spec_float * DataType);
  fb : option (spec_float * DataType)
}.

Definition operands (l r : expr) : BinaryConstOperands := {|
  lhs := l; rhs := r; pa := as_int l; pb := as_int r; fa := as_float l; fb := as_float r
|}.

(** [nullptr]. *)
Definition no_fold : result (option expr) := Ok None.
Definition folded (e : expr) : result (option expr) := Ok (Some e).

(** ** Folds per operator *)

Definition FoldCompare (c : BinaryConstOperands)
    (op : Z -> Z -> bool) (fop : spec_float -> spec_float -> bool) : result (option expr) :=
  match pa c, pb c with
  | Some (a, _), Some (b, _) => folded (MakeConstBool (op a b))
  | _, _ =>
      match fa c, fb c with
      | Some (a, _), Some (b, _) => folded (MakeConstBool (fop a b))
      | _, _ => no_fold
      end
  end.

Definition FoldIntOnly (c : BinaryConstOperands) (op : Z -> Z -> Z) : result (option expr) :=
  match pa c, pb c with
  | Some (a, dt), Some (b, _) => folded (MakeConstInt (op a b) dt)
  | _, _ => no_fold
  end.

Definition is_const_of (p : option (Z * DataType)) (f : option (spec_float * DataType)) (v : Z) : bool :=
  match p with Some (a, _) => a =? v | None => false end
  || match f with Some (a, _) => SFeqb a (double_of_Z v) | None => false end.

Definition LhsIsConst (c : BinaryConstOperands) (v : Z) : bool := is_const_of (pa c) (fa c) v.
Definition RhsIsConst (c : BinaryConstOperands) (v : Z) : bool := is_const_of (pb c) (fb c) v.

Definition FoldAdd (c : BinaryConstOperands) : result (option expr) :=
  match pa c, pb c with
  | Some (a, dt), Some (b, _) =>
      if negb (AddWouldOverflow a b) then
        let* s := add64 a b in folded (MakeConstInt s dt)
      else no_fold
  | _, _ =>
      match fa c, fb c with
      | Some (a, dt), Some (b, _) => folded (MakeConstFloat (double_add a b) dt)
      | _, _ =>
          if LhsIsConst c 0 then folded (rhs c)
          else if RhsIsConst c 0 then folded (lhs c)
          else no_fold
      end
  end.

Definition FoldSub (c : BinaryConstOperands) : result (option expr) :=
  match pa c, pb c with
  | Some (a, dt), Some (b, _) =>
      if negb (SubWouldOverflow a b) then
        let* s := sub64 a b in folded (MakeConstInt s dt)
      else no_fold
  | _, _ =>
      match fa c, fb c with
      | Some (a, dt), Some (b, _) => folded (MakeConstFloat (double_sub a b) dt)
      | _, _ => if RhsIsConst c 0 then folded (lhs c) else no_fold
      end
  end.

Definition FoldMul (c : BinaryConstOperands) : result (option expr) :=
  match pa c, pb c with
  | Some (a, dt), Some (b, _) =>
      if negb (MulWouldOverflow a b) then
        let* s := mul64 a b in folded (MakeConstInt s dt)
      else no_fold
  | _, _ =>
      match fa c, fb c with
      | Some (a, dt), Some (b, _) => folded (MakeConstFloat (double_mul a b) dt)
      | _, _ =>
          if LhsIsConst c 1 then folded (rhs c)
          else if RhsIsConst c 1 then folded (lhs c)
          else if match pa c with Some (a, _) => a =? 0 | None => false end then folded (lhs c)
          else if match pb c with Some (b, _) => b =? 0 | None => false end then folded (rhs c)
          else no_fold
      end
  end.

(** The checks on a constant divisor. *)
Definition divisor_check (a : option Z) (b : Z) : result unit :=
  let* _ := require (negb (b =? 0)) CheckFailed in
  match a with
  | Some a => require (negb ((a =? INT64_MIN) && (b =? -1))) CheckFailed
  | None => Ok tt
  end.

Definition FoldFloorDiv (c : BinaryConstOperands) (dtype : DataType) : result (option expr) :=
  if negb (FloorDivModOperandsFitDtype (lhs c) (rhs c) dtype) then no_fold
  else match pa c, pb c with
  | Some (a, _), Some (b, _) =>
      let* _ := divisor_check (Some a) b in
      let* q := floordiv a b in folded (MakeConstInt q dtype)
  | _, Some (b, _) =>
      let* keeps := (if b =? 1 then let* dl := GetScalarDtype (lhs c) in Ok (dtype_eqb dl dtype)
                     else Ok false) in
      if keeps : bool then folded (lhs c)
      else let* _ := divisor_check None b in no_fold
  | _, None => no_fold
  end.

Definition FoldFloorMod (c : BinaryConstOperands) (dtype : DataType) : result (option expr) :=
  if negb (FloorDivModOperandsFitDtype (lhs c) (rhs c) dtype) then no_fold
  else match pa c, pb c with
  | Some (a, _), Some (b, _) =>
      let* _ := divisor_check (Some a) b in
      let* m := floormod a b in folded (MakeConstInt m dtype)
  | _, Some (b, _) =>
      if b =? 1 then folded (MakeConstInt 0 dtype)
      else let* _ := divisor_check None b in no_fold
  | _, None => no_fold
  end.

Definition FoldFloatDiv (c : BinaryConstOperands) : result (option expr) :=
  match fa c, fb c with
  | Some (a, dt), Some (b, _) => folded (MakeConstFloat (double_div a b) dt)
  | _, Some (b, _) => if SFeqb b (double_of_Z 1) then folded (lhs c) else no_fold
  | _, None => no_fold
  end.

(** One turn of the squaring loop; [None] when a product would overflow. *)
Fixpoint int_pow_loop (fuel : nat) (result_ cur exp : Z) : result (option Z) :=
  if exp <=? 0 then Ok (Some result_)
  else match fuel with
  | O => Err OutOfFuel
  | S fuel =>
      let odd := Z.land exp 1 =? 1 in
      if odd && MulWouldOverflow result_ cur then Ok None
      else
        let* result_ := (if odd then mul64 result_ cur else Ok result_) in
        let exp := Z.shiftr exp 1 in
        if exp >? 0 then
          if MulWouldOverflow cur cur then Ok None
          else let* cur := mul64 cur cur in int_pow_loop fuel result_ cur exp
        else int_pow_loop fuel result_ cur exp
  end.

(** An [int64_t] exponent has at most 63 significant bits. *)
Definition pow_fuel : nat := 64.

Definition SafeIntPow (base exp : Z) (dtype : DataType) : result (option expr) :=
  let* _ := require (exp >=? 0) CheckFailed in
  let* r := int_pow_loop pow_fuel 1 base exp in
  match r with Some v => folded (MakeConstInt v dtype) | None => no_fold end.

Section Fold.
Context `{PtrEq} `{Libm}.

Definition FoldPow (c : BinaryConstOperands) : result (option expr) :=
  match pa c, pb c with
  | Some (a, dt), Some (b, _) => SafeIntPow a b dt
  | _, _ =>
      match fa c, fb c with
      | Some (a, dt), Some (b, _) => folded (MakeConstFloat (std_pow a b) dt)
      | _, _ =>
          if LhsIsConst c 1 then folded (lhs c)
          else if match pb c with Some (b, _) => b =? 0 | None => false end then
            let* dtype := match pa c with
                          | Some (_, dt) => Ok dt
                          | None => GetScalarDtype (lhs c)
                          end in
            if IsFloat dtype then folded (MakeConstFloat (double_of_Z 1) dtype)
            else folded (MakeConstInt 1 dtype)
          else if RhsIsConst c 1 then folded (lhs c)
          else no_fold
      end
  end.

Definition FoldMin (c : BinaryConstOperands) : result (option expr) :=
  match pa c, pb c with
  | Some (a, dt), Some (b, _) => folded (MakeConstInt (Z.min a b) dt)
  | _, _ =>
      match fa c, fb c with
      | Some (a, dt), Some (b, _) => folded (MakeConstFloat (double_min a b) dt)
      | _, _ => if same (lhs c) (rhs c) then folded (lhs c) else no_fold
      end
  end.

Definition FoldMax (c : BinaryConstOperands) : result (option expr) :=
  match pa c, pb c with
  | Some (a, dt), Some (b, _) => folded (MakeConstInt (Z.max a b) dt)
  | _, _ =>
      match fa c, fb c with
      | Some (a, dt), Some (b, _) => folded (MakeConstFloat (double_max a b) dt)
      | _, _ => if same (lhs c) (rhs c) then folded (lhs c) else no_fold
      end
  end.

Definition FoldAnd (l r : expr) : result (option expr) :=
  match as_bool l, as_bool r with
  | Some true, _ => folded r
  | Some false, _ => folded l
  | None, Some true => folded l
  | None, Some false => folded r
  | None, None => no_fold
  end.

Definition FoldOr (l r : expr) : result (option expr) :=
  match as_bool l, as_bool r with
  | Some true, _ => folded l
  | Some false, _ => folded r
  | None, Some true => folded r
  | None, Some false => folded l
  | None, None => no_fold
  end.

Definition FoldXor (l r : expr) : result (option expr) :=
  match as_bool l, as_bool r with
  | Some a, Some b => folded (MakeConstBool (negb (Bool.eqb a b)))
  | _, _ => no_fold
  end.

Definition FoldShiftLeft (c : BinaryConstOperands) : result (option expr) :=
  match pa c, pb c with
  | Some (a, dt), Some (b, _) =>
      if (b <? 0) || (b >=? 64) then no_fold
      else folded (MakeConstInt
             (wrap_signed 64 (wrap_unsigned 64 (Z.shiftl (wrap_unsigned 64 a) b))) dt)
  | _, _ => no_fold
  end.

Definition FoldShiftRight (c : BinaryConstOperands) : result (option expr) :=
  match pa c, pb c with
  | Some (a, dt), Some (b, _) =>
      if (b <? 0) || (b >=? 64) then no_fold
      else folded (MakeConstInt (Z.shiftr a b) dt)
  | _, _ => no_fold
  end.

(** ** Dispatch *)

(** [TryConstFoldBinary(kind, lhs, rhs, dtype)]. *)
Definition TryConstFoldBinary (kind : binkind) (l r : expr) (dtype : DataType)
    : result (option expr) :=
  let c := operands l r in
  match kind with
  | KAnd => FoldAnd l r
  | KOr => FoldOr l r
  | KXor => FoldXor l r
  | KAdd => FoldAdd c
  | KSub => FoldSub c
  | KMul => FoldMul c
  | KFloorDiv => FoldFloorDiv c dtype
  | KFloorMod => FoldFloorMod c dtype
  | KFloatDiv => FoldFloatDiv c
  | KPow => FoldPow c
  | KMin => FoldMin c
  | KMax => FoldMax c
  | KEq => FoldCompare c Z.eqb SFeqb
  | KNe => FoldCompare c (fun a b => negb (a =? b)) (fun a b => negb (SFeqb a b))
  | KLt => FoldCompare c Z.ltb SFltb
  | KLe => FoldCompare c Z.leb SFleb
  | KGt => FoldCompare c Z.gtb (fun a b => SFltb b a)
  | KGe => FoldCompare c Z.geb (fun a b => SFleb b a)
  | KBitAnd => FoldIntOnly c Z.land
  | KBitOr => FoldIntOnly c Z.lor
  | KBitXor => FoldIntOnly c Z.lxor
  | KBitShiftLeft => FoldShiftLeft c
  | KBitShiftRight => FoldShiftRight c
  end.

(** [TryConstFoldBinary(kind, lhs, rhs)]: the result has the dtype of [lhs]. *)
Definition TryConstFoldBinarySame (kind : binkind) (l r : expr) : result (option expr) :=
  let* dtype := GetScalarDtype l in
  TryConstFoldBinary kind l r dtype.

Definition TryConstFoldUnary (kind : unkind) (operand : expr) : result (option expr) :=
  match kind, operand with
  | KNeg, ConstInt v dt =>
      if NegWouldOverflow v then no_fold
      else let* n := neg64 v in folded (MakeConstInt n dt)
  | KNeg, ConstFloat v dt => folded (MakeConstFloat (SFopp v) dt)
  | KAbs, ConstInt v dt =>
      if NegWouldOverflow v then no_fold
      else let* n := (if v >=? 0 then Ok v else neg64 v) in folded (MakeConstInt n dt)
  | KAbs, ConstFloat v dt => folded (MakeConstFloat (SFabs v) dt)
  | KNot, ConstBool b => folded (MakeConstBool (negb b))
  | KBitNot, ConstInt v dt => folded (MakeConstInt (Z.lnot v) dt)
  | _, _ => no_fold
  end.

Definition TryConstFoldCast (operand : expr) (dtype : DataType) : result (option expr) :=
  match operand with
  | ConstInt v dt =>
      if negb (IsInt dtype) && negb (dtype_eqb dtype INDEX) then no_fold
      else if negb (ConstIntFitsDtype v dt) then no_fold
      else if negb (ConstIntFitsDtype v dtype) then no_fold
      else folded (MakeConstInt v dtype)
  | _ => no_fold
  end.

Definition TryConstFold (e : expr) : result (option expr) :=
  match e with
  | Binary k l r dt => TryConstFoldBinary k l r dt
  | Unary KCast operand dt => TryConstFoldCast operand dt
  | Unary k operand _ => TryConstFoldUnary k operand
  | _ => no_fold
  end.

End Fold.

(** ** Integer powers *)

Lemma square_ne_pow63 c : c * c <> 2 ^ 63.
Proof. intros H. destruct (Z_le_gt_dec (Z.abs c) 3037000499); nia. Qed.

(** A factor of a product that overflows makes the product overflow, the
    other factor being the power of a square. *)
Lemma overflow_square_pow p c e :
  0 <= e -> (c = 0 -> p = 0) -> in_int64 p = false -> in_int64 (p * (c * c) ^ e) = false.
Proof.
  intros He Hc Hp. apply not_true_iff_false. intros Hi. apply in_int64_iff in Hi.
  apply not_true_iff_false in Hp. apply Hp, in_int64_iff.
  destruct (Z.eq_dec c 0) as [Hz|Hz]; [rewrite (Hc Hz); lia64 |].
  assert (1 <= (c * c) ^ e) by (pose proof (Z.pow_pos_nonneg (c * c) e); nia).
  unfold INT64_MIN, INT64_MAX in *. nia.
Qed.

Lemma overflow_square r c e :
  1 <= e -> r <> 0 -> in_int64 (c * c) = false -> in_int64 (r * (c * c) ^ e) = false.
Proof.
  intros He Hr Hc. apply not_true_iff_false. intros Hi. apply in_int64_iff in Hi.
  apply not_true_iff_false in Hc. apply Hc, in_int64_iff.
  pose proof (square_ne_pow63 c).
  destruct (Z.eq_dec c 0) as [-> | Hz]; [lia64 |].
  assert (Hq : 0 < c * c) by (clear - Hz; nia).
  assert (Hp : c * c <= (c * c) ^ e).
  { rewrite <- (Z.pow_1_r (c * c)) at 1. apply Z.pow_le_mono_r; lia. }
  set (p := (c * c) ^ e) in *. clearbody p.
  set (q := c * c) in *. clearbody q.
  unfold INT64_MIN, INT64_MAX in *.
  destruct (Z_lt_ge_dec r 0); [assert (r * p <= - p) by nia | assert (p <= r * p) by nia]; lia.
Qed.

Lemma pow_halve r c e :
  0 < e ->
  r * c ^ e = (if Z.land e 1 =? 1 then r * c else r) * (c * c) ^ Z.shiftr e 1.
Proof.
  intros He. rewrite Z.shiftr_div_pow2 by lia. change (2 ^ 1) with 2.
  change 1 with (Z.ones 1) at 1. rewrite Z.land_ones by lia. change (2 ^ 1) with 2.
  pose proof (Z.div_mod e 2 ltac:(lia)) as Hd. pose proof (Z.mod_pos_bound e 2 ltac:(lia)).
  assert (0 <= e / 2) by (apply Z.div_pos; lia).
  rewrite Hd at 1. rewrite Z.pow_add_r, Z.pow_mul_r, (Z.pow_2_r c) by lia.
  destruct (Z.eqb_spec (e mod 2) 1) as [-> |]; [lia |].
  replace (e mod 2) with 0 by lia. lia.
Qed.

Lemma int_pow_loop_spec fuel : forall r c e,
  0 <= e < 2 ^ Z.of_nat fuel -> in_int64 r = true -> in_int64 c = true -> (r = 0 -> c = 0) ->
  int_pow_loop fuel r c e = Ok (if in_int64 (r * c ^ e) then Some (r * c ^ e) else None).
Proof.
  induction fuel as [|fuel IH]; intros r c e He Hr Hc Hrc.
  - simpl in He. replace e with 0 by lia. simpl. by rewrite Z.mul_1_r, Hr.
  - destruct (Z.eq_dec e 0) as [-> | He0]; [simpl; by rewrite Z.mul_1_r, Hr |].
    rewrite (pow_halve r c e) by lia. cbn [int_pow_loop].
    rewrite (proj2 (Z.leb_gt e 0)) by lia.
    set (odd := Z.land e 1 =? 1). set (h := Z.shiftr e 1).
    assert (Hh : 0 <= h < 2 ^ Z.of_nat fuel).
    { subst h. rewrite Z.shiftr_div_pow2 by lia. change (2 ^ 1) with 2.
      rewrite Nat2Z.inj_succ, Z.pow_succ_r in He by lia.
      split; [apply Z.div_pos | apply Z.div_lt_upper_bound]; lia. }
    clearbody h. rewrite !MulWouldOverflow_spec by done.
    destruct odd eqn:Ho; cbn [andb].
    + destruct (in_int64 (r * c)) eqn:Hrc'; cbn [negb].
      2:{ rewrite overflow_square_pow; try done; [lia |]. intros ->. lia. }
      unfold mul64, checked. rewrite Hrc'. cbn [bind].
      destruct (Z.gtb_spec h 0) as [Hp|Hp].
      * destruct (in_int64 (c * c)) eqn:Hcc; cbn [negb bind].
        { apply IH; try done. intros H. destruct (Z.eq_dec r 0) as [Hz|]; [rewrite (Hrc Hz) |]; nia. }
        destruct (Z.eq_dec (r * c) 0) as [E|E]; [|by rewrite overflow_square by (done || lia)].
        assert (c = 0) as -> by (destruct (Z.eq_dec r 0); [auto | nia]). done.
      * replace h with 0 by lia. rewrite !Z.pow_0_r, !Z.mul_1_r, Hrc'. by destruct fuel.
    + cbn [bind]. destruct (Z.gtb_spec h 0) as [Hp|Hp].
      * destruct (in_int64 (c * c)) eqn:Hcc; cbn [negb].
        { unfold mul64, checked. rewrite Hcc. cbn [bind].
          apply IH; try done. intros H. rewrite (Hrc H). done. }
        destruct (Z.eq_dec r 0) as [E|E]; [|by rewrite overflow_square by (done || lia)].
        rewrite (Hrc E) in Hcc. done.
      * replace h with 0 by lia. rewrite !Z.pow_0_r, !Z.mul_1_r, Hr. by destruct fuel.
Qed.

Lemma SafeIntPow_value base e dt :
  in_int64 base = true -> in_int64 e = true ->
  SafeIntPow base e dt =
    if e <? 0 then Err CheckFailed
    else Ok (if in_int64 (base ^ e) then Some (ConstInt (base ^ e) dt) else None).
Proof.
  intros Hb He. apply in_int64_iff in He. unfold SafeIntPow.
  replace (e >=? 0) with (negb (e <? 0)) by (rewrite Z.geb_leb; symmetry; apply Z.leb_antisym).
  destruct (Z.ltb_spec e 0); cbn [negb require bind]; [done |].
  rewrite int_pow_loop_spec; try done; [|change (Z.of_nat pow_fuel) with 64; lia64]. rewrite Z.mul_1_l. cbn [bind].
  by destruct (in_int64 (base ^ e)).
Qed.

(** ** Soundness: readings that take integers at face value *)

Lemma as_int_some e v dt : as_int e = Some (v, dt) <-> e = ConstInt v dt.
Proof. destruct e; simpl; split; congruence. Qed.

Lemma as_bool_some e b : as_bool e = Some b <-> e = ConstBool b.
Proof. destruct e; simpl; split; congruence. Qed.

Lemma eval_as_float S rho e v : eval S rho e = Some v -> as_float e = None.
Proof. by destruct e. Qed.

Lemma eval_binary_inv S rho k l r dt v :
  eval S rho (Binary k l r dt) = Some v ->
  exists vl vr, eval S rho l = Some vl /\ eval S rho r = Some vr /\
                binary_sem k S dt vl vr = Some v.
Proof. simpl. destruct (eval S rho l), (eval S rho r); try done. eauto. Qed.

Lemma divisor_check_ok a b u :
  divisor_check (Some a) b = Ok u -> b <> 0 /\ ~ (a = INT64_MIN /\ b = -1).
Proof.
  unfold divisor_check. intros. inv_ok.
  split; [by apply Z.eqb_neq, negb_true_iff |]. intros [-> ->]. done.
Qed.


(** Run down the branches of a fold that returned an expression. *)
Ltac fold_branches Hf :=
  repeat match type of Hf with
  | (if negb ?b then _ else _) = Ok _ => destruct b eqn:?; cbn [negb] in Hf
  | (if ?b then _ else _) = Ok _ => destruct b eqn:?
  end; inv_ok; try discriminate; simplify_eq; bool_to_prop.

Section Exact.
Context `{PtrEq} `{Libm} (S : Sem) `{!ExactSem S} (rho : Env).

Lemma arith_exact dt z z' : sem_arith S dt z = Some z' -> z' = z.
Proof. intros H1%(arith_leaf dt dt). by apply leaf_exact in H1. Qed.

Lemma eval_const_arith dt dt' z z' :
  IsInt dt' = true -> sem_arith S dt z = Some z' -> eval S rho (ConstInt z dt') = Some (VInt z').
Proof. intros Hi H1%(arith_leaf dt dt'). simpl. unfold int_result. by rewrite Hi, H1. Qed.

Lemma eval_ConstInt z dt v :
  eval S rho (ConstInt z dt) = Some v ->
  v = VInt z /\ IsInt dt = true /\ sem_leaf S dt z = Some z.
Proof.
  simpl. intros. inv_eval. subst.
  match goal with E : sem_leaf _ _ _ = Some ?z' |- _ => pose proof (leaf_exact _ _ _ E); subst end.
  done.
Qed.

(** A fold is sound when what it returns means what the operation means. *)
Definition fold_sound (k : binkind) (l r : expr) (f : DataType -> result (option expr)) : Prop :=
  forall dt v e, wf l = true -> wf r = true ->
  eval S rho (Binary k l r dt) = Some v -> f dt = Ok (Some e) -> eval S rho e = Some v.

(** Split a fold on which operands are integer literals, and bring the facts
    about their values into the context. *)
Tactic Notation "split_literal" constr(e) hyp(He) :=
  let a := fresh "c" in let da := fresh "d" in
  let Hv := fresh in let Hd := fresh "Hd" in let Hl := fresh "Hl" in
  destruct (as_int e) as [[a da]|] eqn:?;
  [match goal with E : as_int e = _ |- _ => apply as_int_some in E; subst e end;
   pose proof He as Hl; apply eval_ConstInt in Hl; destruct Hl as (Hv & Hd & Hl);
   try (injection Hv as Hv; subst) |].

Ltac fold_cases :=
  intros dt v e Hwl Hwr Hev;
  apply eval_binary_inv in Hev as (vl & vr & Hl & Hr & Hs);
  destruct vl as [x|], vr as [y|]; cbn -[Z.mul Z.add Z.sub Z.pow] in Hs; try discriminate Hs;
  unfold LhsIsConst, RhsIsConst, is_const_of;
  cbn [operands pa pb fa fb lhs rhs];
  rewrite ?(eval_as_float _ _ _ _ Hl), ?(eval_as_float _ _ _ _ Hr), ?orb_false_r;
  match type of Hl with eval _ _ ?l = _ => split_literal l Hl end;
  match type of Hr with eval _ _ ?r = _ => split_literal r Hr end;
  unfold folded, no_fold, MakeConstInt, MakeConstBool; intros Hf; cbn [bind] in Hf;
  repeat match type of Hs with
  | (if ?b then _ else _) = Some _ => destruct b eqn:?; inv_eval
  end;
  fold_branches Hf; inv_eval; subst;
  repeat match goal with
  | E : sem_arith S _ _ = Some ?z |- _ =>
      is_var z; let Q := fresh "Q" in pose proof (arith_exact _ _ _ E) as Q; subst z
  end.

Lemma FoldAdd_sound l r : fold_sound KAdd l r (fun _ => FoldAdd (operands l r)).
Proof.
  unfold FoldAdd. fold_cases.
  - unfold add64 in E. apply checked_ok in E as [-> _]. eauto using eval_const_arith.
  - done.
  - by rewrite Z.add_0_r.
Qed.

Lemma FoldSub_sound l r : fold_sound KSub l r (fun _ => FoldSub (operands l r)).
Proof.
  unfold FoldSub. fold_cases.
  - unfold sub64 in E. apply checked_ok in E as [-> _]. eauto using eval_const_arith.
  - by rewrite Z.sub_0_r.
Qed.

Lemma FoldMul_sound l r : fold_sound KMul l r (fun _ => FoldMul (operands l r)).
Proof.
  unfold FoldMul. fold_cases; rewrite ?Z.mul_1_l, ?Z.mul_1_r, ?Z.mul_0_l, ?Z.mul_0_r in *; try done.
  unfold mul64 in E. apply checked_ok in E as [-> _]. eauto using eval_const_arith.
Qed.

Lemma FoldFloorDiv_sound l r : fold_sound KFloorDiv l r (FoldFloorDiv (operands l r)).
Proof.
  unfold FoldFloorDiv. fold_cases.
  - apply divisor_check_ok in E as []. rewrite floordiv_spec in E0 by done. inv_ok.
    eauto using eval_const_arith.
  - destruct r; inv_ok; [|done]. simplify_eq.
    destruct (Z.eqb_spec c 1) as [-> |]; [by rewrite Z.div_1_r | done].
Qed.

Lemma FoldFloorMod_sound l r : fold_sound KFloorMod l r (FoldFloorMod (operands l r)).
Proof.
  unfold FoldFloorMod. fold_cases.
  - apply divisor_check_ok in E as []. rewrite floormod_spec in E0 by done. inv_ok.
    eauto using eval_const_arith.
  - rewrite Z.mod_1_r in *. eauto using eval_const_arith.
Qed.

Lemma same_eval l r v w :
  same l r = true -> eval S rho l = Some v -> eval S rho r = Some w -> w = v.
Proof. intros ->%same_eq. congruence. Qed.

Ltac same_operands :=
  match goal with
  | E : same _ _ = true, Hl : eval _ _ _ = _, Hr : eval _ _ _ = _ |- _ =>
      let Q := fresh in pose proof (same_eval _ _ _ _ E Hl Hr) as Q; injection Q as ->
  end.

Lemma FoldMin_sound l r : fold_sound KMin l r (fun _ => FoldMin (operands l r)).
Proof.
  unfold FoldMin. fold_cases; eauto using eval_const_arith; same_operands; by rewrite Z.min_id.
Qed.

Lemma FoldMax_sound l r : fold_sound KMax l r (fun _ => FoldMax (operands l r)).
Proof.
  unfold FoldMax. fold_cases; eauto using eval_const_arith; same_operands; by rewrite Z.max_id.
Qed.

Lemma FoldPow_sound l r : fold_sound KPow l r (fun _ => FoldPow (operands l r)).
Proof.
  unfold FoldPow. fold_cases.
  - rewrite SafeIntPow_value in Hf by done.
    rewrite (proj2 (Z.ltb_ge c0 0)) in Hf by done.
    destruct (in_int64 (c ^ c0)); [|done]. simplify_eq. eauto using eval_const_arith.
  - by rewrite Z.pow_1_l.
  - apply GetScalarDtype_ok in E. pose proof (eval_int_type _ _ _ _ _ Hl E) as Hi.
    rewrite IsInt_not_IsFloat in Hf by done. simplify_eq.
    rewrite Z.pow_0_r in *. eauto using eval_const_arith.
  - by rewrite Z.pow_1_r.
Qed.

(** Comparisons: the truth value the code computes is the operation's. *)
Lemma FoldCompare_sound k l r op fop :
  (forall dt a b, int_op k S dt a b = bool_result dt (op a b)) ->
  (forall dt a b, bool_op k dt a b = None) ->
  fold_sound k l r (fun _ => FoldCompare (operands l r) op fop).
Proof.
  intros Hop Hbop. unfold FoldCompare. intros dt v e Hwl Hwr Hev.
  apply eval_binary_inv in Hev as (vl & vr & Hl & Hr & Hs).
  cbn [operands pa pb fa fb lhs rhs].
  rewrite ?(eval_as_float _ _ _ _ Hl), ?(eval_as_float _ _ _ _ Hr).
  split_literal l Hl; [|done]. split_literal r Hr; [|done].
  intros Hf. unfold folded in Hf. inv_ok. simplify_eq.
  cbn [binary_sem] in Hs. rewrite Hop in Hs. inv_eval. by subst.
Qed.

Lemma FoldIntOnly_sound k l r op :
  (forall dt a b, int_op k S dt a b = int_result dt (sem_arith S dt (op a b))) ->
  fold_sound k l r (fun _ => FoldIntOnly (operands l r) op).
Proof.
  intros Hop. unfold FoldIntOnly. intros dt v e Hwl Hwr Hev.
  apply eval_binary_inv in Hev as (vl & vr & Hl & Hr & Hs).
  cbn [operands pa pb]. split_literal l Hl; [|done]. split_literal r Hr; [|done].
  unfold folded, MakeConstInt. intros Hf. simplify_eq.
  cbn [binary_sem] in Hs. rewrite Hop in Hs. inv_eval. subst. eauto using eval_const_arith.
Qed.

Lemma shl64 a b :
  0 <= b -> wrap_signed 64 (wrap_unsigned 64 (Z.shiftl (wrap_unsigned 64 a) b)) =
            wrap_signed 64 (Z.shiftl a b).
Proof.
  intros Hb. rewrite !Z.shiftl_mul_pow2 by done. unfold wrap_signed, wrap_unsigned.
  f_equal. rewrite Z.add_mod_idemp_l by lia.
  rewrite <- (Z.add_mod_idemp_l (a * 2 ^ b)), <- (Z.add_mod_idemp_l (_ * 2 ^ b)) by lia.
  by rewrite Z.mul_mod_idemp_l by lia.
Qed.

Lemma wrap_signed_64 z : in_int64 z = true -> wrap_signed 64 z = z.
Proof. intros H1%in_int64_iff. apply wrap_signed_id; lia64. Qed.

Lemma FoldShiftLeft_sound l r : fold_sound KBitShiftLeft l r (fun _ => FoldShiftLeft (operands l r)).
Proof.
  unfold FoldShiftLeft. fold_cases.
  match goal with E : sem_shift _ _ _ = _ |- _ =>
    pose proof (shift_leaf _ d _ _ E) as [Hi Hd1]; pose proof (leaf_exact _ _ _ Hd1) end.
  rewrite shl64 by lia. rewrite wrap_signed_64 by done. cbn [eval]. unfold int_result.
  rewrite Hd, Hd1. done.
Qed.

Lemma FoldShiftRight_sound l r :
  fold_sound KBitShiftRight l r (fun _ => FoldShiftRight (operands l r)).
Proof. unfold FoldShiftRight. fold_cases. eauto using eval_const_arith. Qed.

Lemma FoldLogic_sound k l r :
  k = KAnd \/ k = KOr \/ k = KXor ->
  fold_sound k l r (TryConstFoldBinary k l r).
Proof.
  intros Hk dt v e Hwl Hwr Hev Hf.
  apply eval_binary_inv in Hev as (vl & vr & Hl & Hr & Hs).
  destruct vl as [|x], vr as [|y]; [by destruct Hk as [-> |[-> | ->]] | done | done |].
  assert (Lb : forall e0 b0 c0, as_bool e0 = Some b0 -> eval S rho e0 = Some (VBool c0) -> c0 = b0).
  { intros e0 b0 c0 ->%as_bool_some. cbn. congruence. }
  destruct (as_bool l) as [bl|] eqn:El; [pose proof (Lb _ _ _ El Hl) as -> |];
  (destruct (as_bool r) as [br|] eqn:Er; [pose proof (Lb _ _ _ Er Hr) as -> |]);
  destruct Hk as [-> |[-> | ->]]; cbn [TryConstFoldBinary] in Hf;
  unfold FoldAnd, FoldOr, FoldXor, folded, no_fold, MakeConstBool in Hf; rewrite ?El, ?Er in Hf;
  cbn in Hs; inv_eval; subst;
  try destruct bl; try destruct br; simplify_eq; try done; rewrite ?Hl, ?Hr;
  repeat match goal with b : bool |- _ => destruct b end; done.
Qed.

(** A fold of a binary node, at any reading that takes integers at face value. *)
Lemma TryConstFoldBinary_fold_sound k l r : fold_sound k l r (TryConstFoldBinary k l r).
Proof.
  destruct k; cbn [TryConstFoldBinary];
    first [ apply FoldAdd_sound | apply FoldSub_sound | apply FoldMul_sound
          | apply FoldFloorDiv_sound | apply FoldFloorMod_sound | apply FoldMin_sound
          | apply FoldMax_sound | apply FoldPow_sound | apply FoldShiftLeft_sound
          | apply FoldShiftRight_sound
          | solve [apply FoldLogic_sound; auto]
          | apply FoldIntOnly_sound; done
          | apply FoldCompare_sound; intros; cbn; rewrite ?Z.gtb_ltb, ?Z.geb_leb; done
          | idtac ].
  intros dt v e _ _ Hev. apply eval_binary_inv in Hev as (vl & vr & Hl & Hr & Hs). 
  by destruct vl, vr.
Qed.

(** A fold of a unary node. *)
Lemma TryConstFoldUnary_sound k e dt v e' :
  wf e = true -> eval S rho (Unary k e dt) = Some v ->
  TryConstFoldUnary k e = Ok (Some e') -> eval S rho e' = Some v.
Proof.
  intros Hwf Hev Hf. cbn [eval] in Hev. destruct (eval S rho e) as [w|] eqn:He; [|done].
  destruct k, e as [| | |b| | |]; try done; cbn [TryConstFoldUnary] in Hf;
    unfold folded, no_fold, MakeConstInt, MakeConstBool in Hf.
  1-2, 4: apply eval_ConstInt in He as (-> & Hi & He); cbn [unary_sem] in Hev; inv_eval; subst;
    match goal with E : sem_arith S _ _ = Some ?z |- _ => pose proof (arith_exact _ _ _ E); subst z end.
  - destruct (NegWouldOverflow value); [done |].
    assert (e' = ConstInt (Z.abs value) dt0) as ->; [|eauto using eval_const_arith].
    destruct (Z.geb_spec value 0); unfold neg64 in Hf; inv_ok; simplify_eq.
    + f_equal. lia.
    + apply checked_ok in E as [-> _]. f_equal. lia.
  - destruct (NegWouldOverflow value); [done |]. unfold neg64 in Hf. inv_ok. simplify_eq.
    apply checked_ok in E as [-> _]. eauto using eval_const_arith.
  - simplify_eq. eauto using eval_const_arith.
  - simplify_eq. cbn in He. inv_eval. subst. cbn in Hev. inv_eval. by subst.
Qed.

(** What the fit test decides: the literal survives storage at the dtype. *)
Lemma ConstIntFitsDtype_decides v dt :
  in_int64 v = true -> IsInt dt = true -> 0 < GetBit dt ->
  ConstIntFitsDtype v dt = true <-> fits dt v.
Proof.
  intros Hv%in_int64_iff Hi Hb. pose proof (GetBit_bounds dt). unfold ConstIntFitsDtype.
  destruct (dtype_eqb dt INDEX) eqn:Ei.
  { apply dtype_eqb_eq in Ei as ->. rewrite fits_signed by done. cbn. split; [lia64 | done]. }
  rewrite (proj2 (Z.eqb_neq (GetBit dt) 0)), Z.gtb_ltb, (proj2 (Z.ltb_ge 64 (GetBit dt))) by lia.
  cbn [orb]. destruct (IsUnsignedInt dt) eqn:Hu.
  - unfold fits, wrap_dtype. rewrite (proj2 (Z.eqb_neq (GetBit dt) 0)), Hu by lia.
    rewrite wrap_unsigned_id by lia.
    destruct (Z.ltb_spec v 0); [split; [done | lia] |].
    destruct (Z.geb_spec (GetBit dt) 64).
    + replace (GetBit dt) with 64 by lia. split; [lia64 | done].
    + unfold wrap_unsigned. rewrite Z.mod_small, Z.leb_le by lia64. lia.
  - rewrite fits_signed; [| unfold IsInt in Hi; by rewrite Hu, orb_false_r in Hi | lia].
    destruct (Z.geb_spec (GetBit dt) 64).
    + replace (GetBit dt) with 64 by lia. split; [lia64 | done].
    + rewrite andb_true_iff, Z.geb_leb, !Z.leb_le. lia.
Qed.

Lemma ConstIntFitsDtype_fits v dt :
  in_int64 v = true -> IsInt dt = true -> ConstIntFitsDtype v dt = true -> fits dt v.
Proof.
  intros Hv Hi Hf. destruct (Z.eqb_spec (GetBit dt) 0) as [E|E].
  - unfold fits, wrap_dtype. by rewrite E.
  - apply ConstIntFitsDtype_decides; try done. pose proof (GetBit_bounds dt). lia.
Qed.

Lemma TryConstFoldCast_sound e dt v e' :
  wf e = true -> eval S rho (Unary KCast e dt) = Some v ->
  TryConstFoldCast e dt = Ok (Some e') -> eval S rho e' = Some v.
Proof.
  intros Hwf Hev Hf. cbn [eval] in Hev. destruct (eval S rho e) as [w|] eqn:He; [|done].
  destruct e as [|z dz| | | | |]; try done. apply eval_ConstInt in He as (-> & Hi & He).
  cbn [TryConstFoldCast] in Hf. unfold no_fold, folded, MakeConstInt in Hf.
  cbn in Hev. inv_eval. subst.
  repeat match type of Hf with (if ?b then _ else _) = _ => destruct b eqn:?; [done|] end.
  bool_to_prop. simplify_eq.
  match goal with E : sem_cast _ _ _ = _ |- _ => 
    pose proof (cast_leaf dt dt _ _ E (ConstIntFitsDtype_fits _ _ Hwf ltac:(done) ltac:(done))) as E' end.
  cbn. unfold int_result. match goal with E : IsInt dt = true |- _ => rewrite E end. by rewrite E'.
Qed.

End Exact.

(** ** The folder as a whole *)

(** C34: Constant folding keeps the value: whenever TryConstFold replaces an expression by
    another one, the replacement evaluates to the expression's value, in every reading of
    integers that takes literals at face value (unbounded, unbounded with exact conversions,
    confined to int64_t). *)
Theorem TryConstFold_sound `{PtrEq} `{Libm} S `{!ExactSem S} rho e v e' :
  wf e = true -> eval S rho e = Some v -> TryConstFold e = Ok (Some e') ->
  eval S rho e' = Some v.
Proof.
  destruct e as [| | | |k l r dt|k e dt|]; try done; intros Hwf Hev Hf.
  - cbn [wf] in Hwf. apply andb_true_iff in Hwf as [Hl Hr].
    by apply (TryConstFoldBinary_fold_sound S rho k l r dt v e').
  - cbn [wf] in Hwf. destruct k; cbn [TryConstFold] in Hf;
      [eapply (TryConstFoldUnary_sound S rho); eassumption..
      | eapply (TryConstFoldCast_sound S rho); eassumption].
Qed.

(** ** Errors

    The only errors are the [CHECK]s on literal operands, and a missing scalar
    type; the folder's own arithmetic never overflows. *)

Definition undefined_literals (e : expr) : Prop :=
  match e with
  | Binary (KFloorDiv | KFloorMod) l (ConstInt b _) _ =>
      b = 0 \/ (b = -1 /\ exists d, l = ConstInt INT64_MIN d)
  | Binary KPow (ConstInt _ _) (ConstInt b _) _ => b < 0
  | _ => False
  end.

Definition fold_errors (e : expr) (err : error) : Prop :=
  (err = CheckFailed /\ undefined_literals e) \/
  (err = TypeError /\ exists k l r dt, e = Binary k l r dt /\ scalar_type l = None).

Lemma literal_wf e v dt : as_int e = Some (v, dt) -> wf e = true -> in_int64 v = true.
Proof. by intros ->%as_int_some. Qed.

Lemma checked_fold_err z dt err :
  in_int64 z = true -> (let* s := checked z in folded (MakeConstInt s dt)) <> Err err.
Proof. intros H. unfold checked. by rewrite H. Qed.

Ltac no_error :=
  try match goal with |- ?m = Err ?e -> False => change (m <> Err e) end;
  repeat match goal with
  | |- (if ?b then _ else _) <> Err _ => destruct b eqn:?; try done
  | |- (match ?m with _ => _ end) <> Err _ => destruct m eqn:?; try done
  end; try done.

Lemma Fold_ring_err l r err :
  wf l = true -> wf r = true ->
  FoldAdd (operands l r) <> Err err /\ FoldSub (operands l r) <> Err err /\
  FoldMul (operands l r) <> Err err.
Proof.
  intros Hl Hr. unfold FoldAdd, FoldSub, FoldMul. cbn [operands pa pb fa fb lhs rhs].
  destruct (as_int l) as [[a da]|] eqn:Ea, (as_int r) as [[b db]|] eqn:Eb;
    try pose proof (literal_wf _ _ _ Ea Hl) as Ha; try pose proof (literal_wf _ _ _ Eb Hr) as Hb;
    split_and!; no_error;
    apply checked_fold_err;
    match goal with E : negb _ = true |- _ => rename E into Ho end;
    by rewrite ?AddWouldOverflow_spec, ?SubWouldOverflow_spec, ?MulWouldOverflow_spec,
      negb_involutive in Ho.
Qed.

Lemma divisor_check_err a b err :
  divisor_check a b = Err err ->
  err = CheckFailed /\ (b = 0 \/ (b = -1 /\ a = Some INT64_MIN)).
Proof.
  unfold divisor_check. destruct (Z.eqb_spec b 0); simpl; [intros [= <-]; auto |].
  destruct a as [a|]; [|done]. destruct (Z.eqb_spec a INT64_MIN), (Z.eqb_spec b (-1)); simpl;
    try done. intros [= <-]. subst. auto.
Qed.

Lemma bind_err {A B} (m : result A) (k : A -> result B) err :
  bind m k = Err err -> m = Err err \/ exists a, m = Ok a /\ k a = Err err.
Proof. destruct m; simpl; [eauto | intros [= ->]; auto]. Qed.

Lemma FoldFloorDiv_err l r dt err :
  wf l = true -> wf r = true -> FoldFloorDiv (operands l r) dt = Err err ->
  fold_errors (Binary KFloorDiv l r dt) err.
Proof.
  intros Hl Hr. unfold FoldFloorDiv. cbn [operands pa pb fa fb lhs rhs].
  destruct (negb _); [done |].
  destruct (as_int r) as [[b db]|] eqn:Eb; [|by destruct (as_int l) as [[]|]].
  pose proof (literal_wf _ _ _ Eb Hr). apply as_int_some in Eb as ->.
  destruct (as_int l) as [[a da]|] eqn:Ea.
  - pose proof (literal_wf _ _ _ Ea Hl). apply as_int_some in Ea as ->.
    intros [E|(u & E & Hf)]%bind_err.
    + apply divisor_check_err in E as (-> & [->|[-> [= ->]]]); left; simpl; eauto.
    + apply divisor_check_ok in E as []. by rewrite floordiv_spec in Hf.
  - intros [E|(u & E & Hf)]%bind_err.
    + destruct (b =? 1); [|done]. unfold GetScalarDtype in E.
      destruct (scalar_type l) eqn:?; simplify_eq/=. right. eauto 10.
    + destruct u; [done |]. apply bind_err in Hf as [Hf|(? & _ & ?)]; [|done].
      apply divisor_check_err in Hf as (-> & [->|[-> ?]]); [|done]. left. simpl. auto.
Qed.

Lemma FoldFloorMod_err l r dt err :
  wf l = true -> wf r = true -> FoldFloorMod (operands l r) dt = Err err ->
  fold_errors (Binary KFloorMod l r dt) err.
Proof.
  intros Hl Hr. unfold FoldFloorMod. cbn [operands pa pb fa fb lhs rhs].
  destruct (negb _); [done |].
  destruct (as_int r) as [[b db]|] eqn:Eb; [|by destruct (as_int l) as [[]|]].
  pose proof (literal_wf _ _ _ Eb Hr). apply as_int_some in Eb as ->.
  destruct (as_int l) as [[a da]|] eqn:Ea.
  - pose proof (literal_wf _ _ _ Ea Hl). apply as_int_some in Ea as ->.
    intros [E|(u & E & Hf)]%bind_err.
    + apply divisor_check_err in E as (-> & [->|[-> [= ->]]]); left; simpl; eauto.
    + apply divisor_check_ok in E as []. by rewrite floormod_spec in Hf.
  - destruct (b =? 1); [done |]. intros [Hf|(? & _ & ?)]%bind_err; [|done].
    apply divisor_check_err in Hf as (-> & [->|[-> ?]]); [|done]. left. simpl. auto.
Qed.

Lemma FoldPow_err `{Libm} l r dt err :
  wf l = true -> wf r = true -> FoldPow (operands l r) = Err err ->
  fold_errors (Binary KPow l r dt) err.
Proof.
  intros Hl Hr. unfold FoldPow. cbn [operands pa pb fa fb lhs rhs].
  assert (Hgen : forall m : result (option expr), m = Err err ->
    (forall x, m <> Err x) -> fold_errors (Binary KPow l r dt) err) by (intros ? ->; naive_solver).
  destruct (as_int l) as [[a da]|] eqn:Ea, (as_int r) as [[b db]|] eqn:Eb.
  { pose proof (literal_wf _ _ _ Ea Hl). pose proof (literal_wf _ _ _ Eb Hr).
    rewrite SafeIntPow_value by done. destruct (Z.ltb_spec b 0); [|done].
    apply as_int_some in Ea as ->. apply as_int_some in Eb as ->. intros [= <-]. left. simpl. auto. }
  all: destruct (as_float l) as [[? ?]|], (as_float r) as [[? ?]|]; try done.
  all: destruct (LhsIsConst _ 1); try done.
  all: try (destruct (b =? 0)); try (destruct (RhsIsConst _ 1)); try done.
  all: intros [E|(u & E & Hf)]%bind_err; [|by destruct (IsFloat u)].
  all: unfold GetScalarDtype in E; destruct (scalar_type l) eqn:?; simplify_eq/=; right; eauto 10.
Qed.

Lemma TryConstFold_err `{PtrEq} `{Libm} e err :
  wf e = true -> TryConstFold e = Err err -> fold_errors e err.
Proof.
  destruct e as [| | | |k l r dt|k e dt|]; try done; intros Hwf Hf.
  - cbn [wf] in Hwf. apply andb_true_iff in Hwf as [Hl Hr]. cbn [TryConstFold] in Hf.
    destruct (Fold_ring_err l r err Hl Hr) as (Ha & Hs & Hm).
    destruct k; cbn [TryConstFoldBinary] in Hf; try contradiction;
      try (by apply FoldFloorDiv_err); try (by apply FoldFloorMod_err); try (by apply FoldPow_err);
      exfalso; revert Hf;
      unfold FoldCompare, FoldIntOnly, FoldMin, FoldMax, FoldFloatDiv, FoldAnd, FoldOr, FoldXor,
        FoldShiftLeft, FoldShiftRight; no_error.
  - exfalso. revert Hf. cbn [wf] in Hwf.
    destruct k, e; cbn [TryConstFold TryConstFoldUnary TryConstFoldCast]; no_error;
      cbn [wf] in Hwf; rewrite NegWouldOverflow_spec in * by done;
      match goal with E : negb _ = false |- _ => apply negb_false_iff in E end;
      unfold neg64, checked; rewrite ?Heqb; [by destruct (_ >=? _) | done].
Qed.

(** C35: On expressions with int64_t literals folding raises nothing but two errors:
    ValueError from a check on literal operands the operation is undefined for (a zero
    divisor, INT64_MIN by -1, a negative exponent), and TypeError when the left operand of a
    binary operation has no scalar type; it never runs into undefined behaviour. A shift
    count out of range raises nothing: the shift is left as it is. *)
Theorem TryConstFold_error `{PtrEq} `{Libm} e err :
  wf e = true -> TryConstFold e = Err err -> fold_errors e err.
Proof. apply TryConstFold_err. Qed.

(** ** Folded literals stay within [int64_t] *)

Lemma in_int64_shiftr z : in_int64 z = true <-> Z.shiftr z 63 = 0 \/ Z.shiftr z 63 = -1.
Proof.
  rewrite in_int64_iff, Z.shiftr_div_pow2 by lia. unfold INT64_MIN, INT64_MAX.
  pose proof (Z.div_mod z (2 ^ 63) ltac:(lia)). pose proof (Z.mod_pos_bound z (2 ^ 63) ltac:(lia)).
  split; [|intros [E|E]; rewrite E in *; lia].
  intros. assert (-1 <= z / 2 ^ 63 < 1); [|lia].
  split; [apply Z.div_le_lower_bound | apply Z.div_lt_upper_bound]; lia.
Qed.

Lemma in_int64_bitwise op a b :
  op = Z.land \/ op = Z.lor \/ op = Z.lxor ->
  in_int64 a = true -> in_int64 b = true -> in_int64 (op a b) = true.
Proof.
  rewrite !in_int64_shiftr. intros [-> |[-> | ->]] [Ha|Ha] [Hb|Hb];
    rewrite ?Z.shiftr_land, ?Z.shiftr_lor, ?Z.shiftr_lxor, Ha, Hb; cbn; auto.
Qed.

Lemma in_int64_shift_right a b : 0 <= b -> in_int64 a = true -> in_int64 (Z.shiftr a b) = true.
Proof.
  rewrite !in_int64_shiftr, Z.shiftr_shiftr by lia. intros Hb.
  rewrite Z.add_comm, <- Z.shiftr_shiftr by lia.
  intros [-> | ->]; [rewrite Z.shiftr_0_l; auto | right].
  rewrite Z.shiftr_div_pow2 by lia. assert (0 < 2 ^ b) by (apply Z.pow_pos_nonneg; lia).
  symmetry. apply (Z.div_unique _ _ _ (2 ^ b - 1)); lia.
Qed.

Lemma in_int64_wrap z : in_int64 (wrap_signed 64 z) = true.
Proof.
  apply in_int64_iff. unfold wrap_signed.
  pose proof (Z.mod_pos_bound (z + 2 ^ (64 - 1)) (2 ^ 64) ltac:(lia)). lia64.
Qed.

Lemma in_int64_lnot a : in_int64 a = true -> in_int64 (Z.lnot a) = true.
Proof. rewrite !in_int64_iff. unfold Z.lnot. lia64. Qed.

Lemma checked_in64 z r : checked z = Ok r -> in_int64 r = true.
Proof. intros [-> ?]%checked_ok. by apply in_int64_iff. Qed.

Lemma in_int64_floordiv x y r : floordiv x y = Ok r -> in_int64 r = true.
Proof.
  unfold floordiv, div64, sub64. intros. inv_ok. destruct (y =? 0); [done |].
  destruct (_ || _); inv_ok; eauto using checked_in64.
Qed.

Lemma in_int64_floormod x y r :
  in_int64 x = true -> in_int64 y = true -> y <> 0 -> ~ (x = INT64_MIN /\ y = -1) ->
  floormod x y = Ok r -> in_int64 r = true.
Proof.
  intros Hx Hy H0 Hov. rewrite floormod_spec by done. intros [= <-].
  pose proof (mod_sign x y). rewrite in_int64_iff in *. lia64.
Qed.

Lemma in_int64_minmax a b :
  in_int64 a = true -> in_int64 b = true ->
  in_int64 (Z.min a b) = true /\ in_int64 (Z.max a b) = true.
Proof. rewrite !in_int64_iff. lia64. Qed.

Lemma SafeIntPow_wf a b dt e :
  in_int64 a = true -> in_int64 b = true -> SafeIntPow a b dt = Ok (Some e) -> wf e = true.
Proof.
  intros Ha Hb. rewrite SafeIntPow_value by done. destruct (b <? 0); [done |].
  destruct (in_int64 (a ^ b)) eqn:E; intros; by simplify_eq.
Qed.

#[local] Hint Resolve checked_in64 in_int64_floordiv in_int64_shift_right in_int64_wrap in_int64_lnot
  SafeIntPow_wf : pypto.

(** Every expression a fold returns satisfies [P]. *)
Definition fold_post (P : expr -> Prop) (m : result (option expr)) : Prop :=
  forall e, m = Ok (Some e) -> P e.

Lemma post_folded (P : expr -> Prop) e : P e -> fold_post P (folded e).
Proof. intros Hw e' [= <-]. done. Qed.

Lemma post_no_fold P : fold_post P no_fold.
Proof. done. Qed.

Lemma post_bind {A} P (m : result A) k :
  (forall a, m = Ok a -> fold_post P (k a)) -> fold_post P (bind m k).
Proof. intros Hk e (a & Ha & He)%bind_ok. by eapply Hk. Qed.

(** Walk down the branches of a fold. *)
Ltac post_branches :=
  repeat match goal with
  | |- fold_post _ no_fold => apply post_no_fold
  | |- fold_post _ (folded _) => apply post_folded
  | |- fold_post _ (if ?b then _ else _) => destruct b eqn:?
  | |- fold_post _ (let _ := _ in _) => cbv zeta
  | |- fold_post _ (match ?m with Some _ => _ | None => _ end) => destruct m as [[]|] eqn:?
  | |- fold_post _ (bind _ _) => apply post_bind; intros ? ?
  end; try done.

Abbreviation wf_result := (fold_post (fun e => wf e = true)).

Lemma FoldArith_wf l r dt :
  wf l = true -> wf r = true ->
  wf_result (FoldAdd (operands l r)) /\ wf_result (FoldSub (operands l r)) /\
  wf_result (FoldMul (operands l r)) /\ wf_result (FoldFloorDiv (operands l r) dt) /\
  wf_result (FoldFloorMod (operands l r) dt).
Proof.
  intros Hl Hr. split_and!;
    unfold FoldAdd, FoldSub, FoldMul, FoldFloorDiv, FoldFloorMod;
    cbn [operands pa pb fa fb lhs rhs]; post_branches; cbn;
    unfold add64, sub64, mul64 in *; eauto with pypto.
  repeat match goal with
  | E : divisor_check (Some _) _ = Ok _ |- _ => apply divisor_check_ok in E as []
  | E : as_int ?e = Some _ |- _ => apply literal_wf in E; [|done]
  end. eauto using in_int64_floormod.
Qed.

Lemma FoldCompare_wf c op fop : wf_result (FoldCompare c op fop).
Proof. unfold FoldCompare. post_branches. Qed.

Lemma FoldIntOnly_wf l r op :
  op = Z.land \/ op = Z.lor \/ op = Z.lxor -> wf l = true -> wf r = true ->
  wf_result (FoldIntOnly (operands l r) op).
Proof.
  intros Hop Hl Hr. unfold FoldIntOnly. cbn [operands pa pb]. post_branches.
  apply in_int64_bitwise; eauto using literal_wf.
Qed.

Lemma FoldRest_wf `{PtrEq} `{Libm} l r :
  wf l = true -> wf r = true ->
  wf_result (FoldPow (operands l r)) /\ wf_result (FoldMin (operands l r)) /\
  wf_result (FoldMax (operands l r)) /\ wf_result (FoldFloatDiv (operands l r)) /\
  wf_result (FoldShiftLeft (operands l r)) /\ wf_result (FoldShiftRight (operands l r)).
Proof.
  intros Hl Hr. split_and!;
    unfold FoldPow, FoldMin, FoldMax, FoldFloatDiv, FoldShiftLeft, FoldShiftRight;
    cbn [operands pa pb fa fb lhs rhs]; post_branches; cbn;
    repeat match goal with E : as_int ?e = Some _ |- _ => apply literal_wf in E; [|done] end.
  - intros e. by apply SafeIntPow_wf.
  - by apply in_int64_minmax.
  - by apply in_int64_minmax.
  - apply in_int64_wrap.
  - bool_to_prop. by apply in_int64_shift_right.
Qed.

Lemma TryConstFoldBinary_wf `{PtrEq} `{Libm} k l r dt :
  wf l = true -> wf r = true -> wf_result (TryConstFoldBinary k l r dt).
Proof.
  intros Hl Hr.
  destruct (FoldArith_wf l r dt Hl Hr) as (? & ? & ? & ? & ?).
  destruct (FoldRest_wf l r Hl Hr) as (? & ? & ? & ? & ? & ?).
  destruct k; cbn [TryConstFoldBinary]; try done;
    try apply FoldCompare_wf; try (apply FoldIntOnly_wf; auto);
    unfold FoldAnd, FoldOr, FoldXor; destruct (as_bool l) as [[]|], (as_bool r) as [[]|];
    post_branches.
Qed.

Lemma TryConstFoldUnary_wf k e : wf e = true -> wf_result (TryConstFoldUnary k e).
Proof.
  intros Hwf. destruct k, e; cbn [TryConstFoldUnary]; post_branches;
    unfold MakeConstInt, neg64 in *; cbn [wf] in *; eauto with pypto.
  destruct (value >=? 0); [congruence | eauto with pypto].
Qed.

(** Folding int64_t literals only makes int64_t literals. *)
Theorem TryConstFold_wf `{PtrEq} `{Libm} e e' :
  wf e = true -> TryConstFold e = Ok (Some e') -> wf e' = true.
Proof.
  destruct e as [| | | |k l r dt|k e dt|]; try done; intros Hwf; revert e';
    cbn [TryConstFold wf] in *.
  - apply andb_true_iff in Hwf as [Hl Hr]. by apply TryConstFoldBinary_wf.
  - destruct k; try by apply TryConstFoldUnary_wf. unfold TryConstFoldCast.
    change (wf_result (TryConstFoldCast e dt)). unfold TryConstFoldCast. destruct e; post_branches.
Qed.

(** ** At the width of the dtype

    The [machine] reading wraps every literal and result.  The ring operations
    and the two divisions fold correctly even there, when the operands have
    the dtype of the node. *)

Lemma wrap_dtype_idem dt z : wrap_dtype dt (wrap_dtype dt z) = wrap_dtype dt z.
Proof.
  pose proof (GetBit_bounds dt). unfold wrap_dtype. destruct (Z.eqb_spec (GetBit dt) 0); [done |].
  assert (0 < 2 ^ GetBit dt) by (apply Z.pow_pos_nonneg; lia).
  destruct (IsUnsignedInt dt); [by apply Z.mod_mod; lia |].
  unfold wrap_signed. by rewrite Z.sub_add, Z.mod_mod by lia.
Qed.

(** Two integers stored alike differ by a multiple of [2^bits]. *)
Lemma wrap_dtype_congr dt a b :
  (2 ^ GetBit dt | a - b) -> GetBit dt <> 0 -> wrap_dtype dt a = wrap_dtype dt b.
Proof.
  intros [q Hq] H0. pose proof (GetBit_bounds dt).
  assert (0 < 2 ^ GetBit dt) by (apply Z.pow_pos_nonneg; lia).
  replace a with (b + q * 2 ^ GetBit dt) by lia.
  unfold wrap_dtype. rewrite (proj2 (Z.eqb_neq _ 0) H0).
  destruct (IsUnsignedInt dt); unfold wrap_unsigned, wrap_signed.
  - by rewrite Z.mod_add by lia.
  - replace (b + q * 2 ^ GetBit dt + 2 ^ (GetBit dt - 1))
      with (b + 2 ^ (GetBit dt - 1) + q * 2 ^ GetBit dt) by lia.
    by rewrite Z.mod_add by lia.
Qed.

Lemma wrap_dtype_divide dt a : GetBit dt <> 0 -> (2 ^ GetBit dt | wrap_dtype dt a - a).
Proof.
  intros H0. pose proof (GetBit_bounds dt).
  assert (0 < 2 ^ GetBit dt) by (apply Z.pow_pos_nonneg; lia).
  unfold wrap_dtype. rewrite (proj2 (Z.eqb_neq _ 0) H0).
  destruct (IsUnsignedInt dt); unfold wrap_unsigned, wrap_signed.
  - exists (- (a / 2 ^ GetBit dt)). rewrite Z.mod_eq by lia. lia.
  - exists (- ((a + 2 ^ (GetBit dt - 1)) / 2 ^ GetBit dt)). rewrite Z.mod_eq by lia. lia.
Qed.

Lemma wrap_ring dt a b :
  (wrap_dtype dt (wrap_dtype dt a + b) = wrap_dtype dt (a + b) /\
   wrap_dtype dt (a + wrap_dtype dt b) = wrap_dtype dt (a + b)) /\
  (wrap_dtype dt (wrap_dtype dt a - b) = wrap_dtype dt (a - b) /\
   wrap_dtype dt (a - wrap_dtype dt b) = wrap_dtype dt (a - b)) /\
  (wrap_dtype dt (wrap_dtype dt a * b) = wrap_dtype dt (a * b) /\
   wrap_dtype dt (a * wrap_dtype dt b) = wrap_dtype dt (a * b)).
Proof.
  destruct (Z.eq_dec (GetBit dt) 0) as [E|E]; [unfold wrap_dtype; by rewrite E |].
  destruct (wrap_dtype_divide dt a E) as [p Hp], (wrap_dtype_divide dt b E) as [q Hq].
  split_and!; apply wrap_dtype_congr; try done.
  - exists p. lia.
  - exists q. lia.
  - exists p. lia.
  - exists (- q). lia.
  - exists (p * b). nia.
  - exists (q * a). nia.
Qed.

Lemma wrap_add_l dt a b : wrap_dtype dt (wrap_dtype dt a + b) = wrap_dtype dt (a + b).
Proof. apply wrap_ring. Qed.
Lemma wrap_add_r dt a b : wrap_dtype dt (a + wrap_dtype dt b) = wrap_dtype dt (a + b).
Proof. apply wrap_ring. Qed.
Lemma wrap_sub_l dt a b : wrap_dtype dt (wrap_dtype dt a - b) = wrap_dtype dt (a - b).
Proof. apply wrap_ring. Qed.
Lemma wrap_sub_r dt a b : wrap_dtype dt (a - wrap_dtype dt b) = wrap_dtype dt (a - b).
Proof. apply wrap_ring. Qed.
Lemma wrap_mul_l dt a b : wrap_dtype dt (wrap_dtype dt a * b) = wrap_dtype dt (a * b).
Proof. apply wrap_ring. Qed.
Lemma wrap_mul_r dt a b : wrap_dtype dt (a * wrap_dtype dt b) = wrap_dtype dt (a * b).
Proof. apply wrap_ring. Qed.

Create Rewrite HintDb wrap.
#[export] Hint Rewrite wrap_add_l wrap_add_r wrap_sub_l wrap_sub_r wrap_mul_l wrap_mul_r
  Z.add_0_l Z.add_0_r Z.sub_0_r Z.mul_1_l Z.mul_1_r Z.mul_0_l Z.mul_0_r : wrap.

Lemma binary_sem_machine k dt v w z : binary_sem k machine dt v w = Some (VInt z) -> fits dt z.
Proof.
  destruct v as [a|a], w as [b|b]; simpl; try done; destruct k; simpl; repeat case_match; intros;
    inv_eval; subst; try done; simpl in *; simplify_eq; apply wrap_dtype_idem.
Qed.

Lemma unary_sem_machine k dt v z : unary_sem k machine dt v = Some (VInt z) -> fits dt z.
Proof.
  destruct k, v; simpl; unfold cast_sem; repeat case_match; intros;
    inv_eval; subst; try done; simpl in *; simplify_eq; apply wrap_dtype_idem.
Qed.

Lemma load_machine dt v z : load machine (Some dt) v = Some (VInt z) -> fits dt z.
Proof. destruct v; simpl; intros; inv_eval; subst; simplify_eq; try done; apply wrap_dtype_idem. Qed.

(** Whatever the expression, its value is one its dtype stores. *)
Lemma machine_fits rho e z dt :
  eval machine rho e = Some (VInt z) -> scalar_type e = Some dt -> fits dt z.
Proof.
  destruct e as [? ? ty|? ?|? ?|?|k l r d|k e d|? ? ty]; cbn [eval scalar_type]; intros He Ht;
    simplify_eq; try done.
  - by eapply load_machine.
  - inv_eval. subst. simpl in *. simplify_eq. apply wrap_dtype_idem.
  - destruct (eval machine rho l), (eval machine rho r); try done. by eapply binary_sem_machine.
  - destruct (eval machine rho e); [|done]. by eapply unary_sem_machine.
  - by eapply load_machine.
Qed.

Section Machine.
Context `{PtrEq} `{Libm} (rho : Env) (dt : DataType) (l r : expr) (x y : Z).
Context (Tl : scalar_type l = Some dt) (Tr : scalar_type r = Some dt).
Context (Wl : wf l = true) (Wr : wf r = true).
Context (Hl : eval machine rho l = Some (VInt x)) (Hr : eval machine rho r = Some (VInt y)).

Definition machine_sound (k : binkind) (f : result (option expr)) : Prop :=
  forall v e, int_op k machine dt x y = Some v -> f = Ok (Some e) -> eval machine rho e = Some v.

Lemma machine_literal e z0 d0 z :
  as_int e = Some (z0, d0) -> scalar_type e = Some dt -> eval machine rho e = Some (VInt z) ->
  d0 = dt /\ IsInt dt = true /\ z = wrap_dtype dt z0.
Proof. intros ->%as_int_some [= ->] He. cbn in He. inv_eval. by subst. Qed.

Lemma eval_machine_ConstInt z :
  IsInt dt = true -> eval machine rho (ConstInt z dt) = Some (VInt (wrap_dtype dt z)).
Proof. intros Hi. cbn. unfold int_result. by rewrite Hi. Qed.

Lemma machine_floats : as_float l = None /\ as_float r = None.
Proof. eauto using eval_as_float. Qed.

Ltac machine_cases :=
  intros v e Hs; unfold LhsIsConst, RhsIsConst, is_const_of; cbn [operands pa pb fa fb lhs rhs];
  destruct machine_floats as [-> ->]; rewrite ?orb_false_r;
  destruct (as_int l) as [[a da]|] eqn:Ea;
  [destruct (machine_literal _ _ _ _ Ea Tl Hl) as (-> & ? & Ex) |];
  (destruct (as_int r) as [[b db]|] eqn:Eb;
  [destruct (machine_literal _ _ _ _ Eb Tr Hr) as (-> & ? & Ey) |]);
  unfold folded, no_fold, MakeConstInt; intros Hf; cbn [bind] in Hf; fold_branches Hf;
  cbn -[Z.add Z.sub Z.mul Z.div Z.modulo] in Hs; 
  repeat match type of Hs with (if ?b then _ else _) = _ => destruct b eqn:?; [done|] end;
  inv_eval; subst;
  repeat match goal with E : sem_arith machine dt _ = Some _ |- _ => injection E as <- end;
  try done.

Lemma machine_ring k :
  k = KAdd \/ k = KSub \/ k = KMul ->
  machine_sound k (TryConstFoldBinary k l r dt).
Proof.
  pose proof (machine_fits _ _ _ _ Hl Tl) as Fx. pose proof (machine_fits _ _ _ _ Hr Tr) as Fy.
  unfold fits in *.
  intros Hk; destruct_or! Hk; subst k; cbn [TryConstFoldBinary]; unfold FoldAdd, FoldSub, FoldMul;
    machine_cases;
    try (match goal with E : _ = Ok _ |- _ => apply checked_ok in E as [-> _] end);
    rewrite ?eval_machine_ConstInt by done; autorewrite with wrap; congruence.
Qed.

Lemma operand_fits_exact e z0 z :
  operand_fits e dt = true -> as_int e = Some (z0, dt) -> wf e = true -> IsInt dt = true ->
  z = wrap_dtype dt z0 -> z = z0.
Proof.
  intros Hf ->%as_int_some Hw Hi ->. cbn [operand_fits] in Hf.
  apply andb_true_iff in Hf as [Hf _]. by apply ConstIntFitsDtype_fits.
Qed.

Lemma machine_div k :
  k = KFloorDiv \/ k = KFloorMod ->
  machine_sound k (TryConstFoldBinary k l r dt).
Proof.
  pose proof (machine_fits _ _ _ _ Hl Tl) as Fx. unfold fits in Fx.
  intros Hk; destruct_or! Hk; subst k; cbn [TryConstFoldBinary]; unfold FoldFloorDiv, FoldFloorMod;
    cbn [operands pa pb fa fb lhs rhs];
    (destruct (FloorDivModOperandsFitDtype l r dt) eqn:Hfit; [|intros ? ? ? ?; done]);
    apply andb_true_iff in Hfit as [Fl Fr]; cbn [negb].
  all: destruct (as_int l) as [[a da]|] eqn:Ea;
    [destruct (machine_literal _ _ _ _ Ea Tl Hl) as (-> & ? & Ex);
     apply (operand_fits_exact l a) in Ex; try done |].
  all: destruct (as_int r) as [[b db]|] eqn:Eb;
    [destruct (machine_literal _ _ _ _ Eb Tr Hr) as (-> & ? & Ey);
     apply (operand_fits_exact r b) in Ey; try done | done].
  all: intros v e Hs Hf; rewrite ?Ex, ?Ey in Hs; cbn [int_op machine sem_arith] in Hs; destruct (b =? 0) eqn:Hb0; [done|];
    inv_eval; subst; inv_ok; try done.
  1, 3: apply divisor_check_ok in E as [];
    rewrite ?floordiv_spec, ?floormod_spec in E0 by eauto using literal_wf;
    inv_ok; unfold folded, MakeConstInt in Hf; simplify_eq; by apply eval_machine_ConstInt.
  - destruct r0; unfold folded in Hf; inv_ok; [|done]. simplify_eq.
    destruct (Z.eqb_spec b 1) as [-> |]; [|done]. rewrite Z.div_1_r. congruence.
  - destruct (Z.eqb_spec b 1) as [-> |]; inv_ok; [|done]. unfold folded, MakeConstInt in Hf.
    simplify_eq. rewrite Z.mod_1_r. by apply eval_machine_ConstInt.
Qed.

End Machine.

(** For additions, subtractions, multiplications, floor divisions and floor modulos of
    operands of one dtype the folded literal, stored at that dtype, is what the machine
    computes at the dtype's width, wrap-around included. *)
Theorem TryConstFoldBinary_machine `{PtrEq} `{Libm} k rho l r dt v e' :
  k = KAdd \/ k = KSub \/ k = KMul \/ k = KFloorDiv \/ k = KFloorMod ->
  scalar_type l = Some dt -> scalar_type r = Some dt -> wf l = true -> wf r = true ->
  eval machine rho (Binary k l r dt) = Some v ->
  TryConstFoldBinary k l r dt = Ok (Some e') -> eval machine rho e' = Some v.
Proof.
  intros Hk Tl Tr Wl Wr (vl & vr & Hl & Hr & Hs)%eval_binary_inv.
  destruct vl as [x|], vr as [y|]; [|by destruct_or! Hk; subst..].
  destruct_or! Hk; [eapply machine_ring | eapply machine_ring | eapply machine_ring
                   | eapply machine_div | eapply machine_div]; eauto.
Qed.

(** Finding: comparisons are folded on the stored literals without the fit test
    division has, so a literal that wraps at its dtype compares differently from the
    machine. *)
Theorem FoldCompare_machine_diverges `{PtrEq} `{Libm} rho :
  eval machine rho (Binary KLt (ConstInt 255 INT8) (ConstInt 0 INT8) BOOL) = Some (VBool true) /\
  TryConstFoldBinary KLt (ConstInt 255 INT8) (ConstInt 0 INT8) BOOL = Ok (Some (ConstBool false)).
Proof. split; reflexivity. Qed.

(** ** Instances *)

#[local] Instance no_libm : Libm := {| std_pow := fun a _ => a |}.

(** Square-and-multiply in SafeIntPow is exact on every pair of int64_t: a negative
    exponent is a ValueError, otherwise the literal is base^exp when that is an int64_t and
    there is no fold when it is not; the loop ends within its fuel. *)
Theorem SafeIntPow_spec base e dt :
  in_int64 base = true -> in_int64 e = true ->
  SafeIntPow base e dt =
    if e <? 0 then Err CheckFailed
    else Ok (if in_int64 (base ^ e) then Some (ConstInt (base ^ e) dt) else None).
Proof. apply SafeIntPow_value. Qed.

(** ConstIntFitsDtype decides exactly whether an int64_t literal survives storage at an
    integer dtype of known width. *)
Theorem ConstIntFitsDtype_spec v dt :
  in_int64 v = true -> IsInt dt = true -> 0 < GetBit dt ->
  ConstIntFitsDtype v dt = true <-> fits dt v.
Proof. apply ConstIntFitsDtype_decides. Qed.

Lemma TryConstFold_sound_witness :
  eval ideal no_env (Binary KFloorDiv (ConstInt (-7) INDEX) (ConstInt 2 INDEX) INDEX)
    = Some (VInt (-4)) /\
  eval ideal no_env (ConstInt (-4) INDEX) = Some (VInt (-4)).
Proof.
  split; [reflexivity |].
  apply (TryConstFold_sound ideal no_env
           (Binary KFloorDiv (ConstInt (-7) INDEX) (ConstInt 2 INDEX) INDEX)); reflexivity.
Defined.

Lemma TryConstFold_error_witness :
  fold_errors (Binary KFloorMod (ConstInt 7 INT32) (ConstInt 0 INT32) INT32) CheckFailed.
Proof. apply TryConstFold_error; reflexivity. Defined.

Lemma TryConstFold_wf_witness : wf (ConstInt INT64_MIN INT64) = true.
Proof.
  apply (TryConstFold_wf (Binary KBitShiftLeft (ConstInt 1 INT64) (ConstInt 63 INT64) INT64));
    vm_compute; reflexivity.
Defined.

Lemma SafeIntPow_spec_witness : SafeIntPow (-2) 63 INT64 = Ok (Some (ConstInt INT64_MIN INT64)).
Proof. rewrite (SafeIntPow_spec (-2) 63 INT64); vm_compute; reflexivity. Defined.

Lemma ConstIntFitsDtype_spec_witness : ConstIntFitsDtype 255 UINT8 = true <-> fits UINT8 255.
Proof. apply (ConstIntFitsDtype_spec 255 UINT8); vm_compute; reflexivity. Defined.

Lemma TryConstFoldBinary_machine_witness :
  eval machine no_env (ConstInt 200 INT8) = Some (VInt (-56)).
Proof.
  apply (TryConstFoldBinary_machine KAdd no_env (ConstInt 100 INT8) (ConstInt 100 INT8) INT8);
    try (vm_compute; reflexivity). by left.
Defined.
