(* ===== verification/ConstIntBound.v ===== *)
(** * Constant integer bounds ([src/ir/arith/const_int_bound.cpp])

    Interval propagation over scalar expressions, with the constraint scopes
    that tighten the bounds of variables. *)

From Stdlib Require Import ZArith Lia Bool List String.
From Stdlib Require Import SpecFloat.
From stdpp Require Import base gmap list option strings.
From S2P Require Import Prelude Dtype IntOps ScalarExpr ConstFold.

(** ** Bounds ([ConstIntBound] in [analyzer.h]) *)

Record Bound := MkBound { min_value : Z; max_value : Z }.

Definition kPosInf : Z := INT64_MAX.
(** Not [INT64_MIN]: the sentinel is [-kPosInf]. *)
Definition kNegInf : Z := - kPosInf.

Definition is_const (b : Bound) : bool := min_value b =? max_value b.
Definition is_non_negative (b : Bound) : bool := min_value b >=? 0.
Definition is_everything (b : Bound) : bool :=
  (min_value b =? kNegInf) && (max_value b =? kPosInf).

#[export] Instance Bound_eq_dec : EqDecision Bound.
Proof. solve_decision. Defined.

(** ** Overflow-safe arithmetic *)

Definition InfAwareAdd (a b : Z) : Z :=
  if (a =? kPosInf) || (b =? kPosInf) then kPosInf
  else if (a =? kNegInf) || (b =? kNegInf) then kNegInf
  else if AddWouldOverflow a b then (if b >? 0 then kPosInf else kNegInf)
  else a + b.

Definition InfAwareMul (a b : Z) : Z :=
  if (a =? 0) || (b =? 0) then 0
  else
    let pos_result := Bool.eqb (a >? 0) (b >? 0) in
    if (a =? kPosInf) || (a =? kNegInf) || (b =? kPosInf) || (b =? kNegInf) then
      (if pos_result then kPosInf else kNegInf)
    else if MulWouldOverflow a b then (if pos_result then kPosInf else kNegInf)
    else a * b.

Definition InfAwareNeg (a : Z) : Z :=
  if a =? kPosInf then kNegInf
  else if a =? kNegInf then kPosInf
  else if NegWouldOverflow a then kPosInf
  else - a.

Definition is_inf (a : Z) : bool := (a =? kPosInf) || (a =? kNegInf).

(** The loop of [InfAwarePow], entered with the function's [base] and [exp]. *)
Fixpoint inf_pow_loop (fuel : nat) (base exp result_ b e : Z) : result Z :=
  if e <=? 0 then Ok result_
  else match fuel with
  | O => Err OutOfFuel
  | S fuel =>
      let odd := negb (Z.land e 1 =? 0) in
      let result_ := if odd then InfAwareMul result_ b else result_ in
      if odd && is_inf result_ then Ok result_
      else
        let e := Z.shiftr e 1 in
        if e >? 0 then
          let b := InfAwareMul b b in
          if is_inf b then
            Ok (if Bool.eqb (result_ >? 0) ((base >? 0) || (Z.land exp 1 =? 0))
                then kPosInf else kNegInf)
          else inf_pow_loop fuel base exp result_ b e
        else inf_pow_loop fuel base exp result_ b e
  end.

Definition InfAwarePow (base exp : Z) : result Z :=
  if exp =? 0 then Ok 1
  else if base =? 0 then Ok 0
  else if base =? 1 then Ok 1
  else inf_pow_loop pow_fuel base exp 1 base exp.

(** ** Compound helpers *)

Definition Everything : Bound := MkBound kNegInf kPosInf.

Definition BoundPreservesDtype (bound : Bound) (operand : expr) (dtype : DataType) : result bool :=
  if min_value bound >? max_value bound then Ok false
  else if is_everything bound then Ok true
  else
    let* operand_dtype := GetScalarDtype operand in
    Ok (ConstIntFitsDtype (min_value bound) operand_dtype
        && ConstIntFitsDtype (max_value bound) operand_dtype
        && ConstIntFitsDtype (min_value bound) dtype
        && ConstIntFitsDtype (max_value bound) dtype).

Definition BoundMul (a b : Bound) : Bound :=
  let v0 := InfAwareMul (min_value a) (min_value b) in
  let v1 := InfAwareMul (min_value a) (max_value b) in
  let v2 := InfAwareMul (max_value a) (min_value b) in
  let v3 := InfAwareMul (max_value a) (max_value b) in
  MkBound (Z.min (Z.min (Z.min v0 v1) v2) v3) (Z.max (Z.max (Z.max v0 v1) v2) v3).

Definition BoundFloorDivPositiveRHS (a b : Bound) : result Bound :=
  let* min_val := if min_value a >=? 0 then floordiv (min_value a) (max_value b)
                  else floordiv (min_value a) (min_value b) in
  let* max_val := if max_value a >=? 0 then floordiv (max_value a) (min_value b)
                  else floordiv (max_value a) (max_value b) in
  Ok (MkBound min_val max_val).

Definition BoundFloorDiv (a b : Bound) : result Bound :=
  if min_value b >? 0 then BoundFloorDivPositiveRHS a b
  else if max_value b <? 0 then
    let neg_a := MkBound (InfAwareNeg (max_value a)) (InfAwareNeg (min_value a)) in
    let pos_b := MkBound (InfAwareNeg (max_value b)) (InfAwareNeg (min_value b)) in
    BoundFloorDivPositiveRHS neg_a pos_b
  else Ok Everything.

Definition BoundFloorMod (a b : Bound) : result Bound :=
  if min_value b >? 0 then
    let* m := sub64 (max_value b) 1 in
    if is_non_negative a then Ok (MkBound 0 (Z.min (max_value a) m))
    else Ok (MkBound 0 m)
  else Ok Everything.

(** [std::floor] and [std::ceil] of a finite double, as integers. *)
Definition floor_of (s : bool) (m : positive) (e : Z) : Z :=
  let v := if s then Zneg m else Zpos m in
  if 0 <=? e then v * 2 ^ e else v / 2 ^ (- e).
Definition ceil_of (s : bool) (m : positive) (e : Z) : Z := - floor_of (negb s) m e.

(** [static_cast<int64_t>] of an integral double: undefined out of range.
    [static_cast<double>(kPosInf)] rounds to [2 ^ 63]. *)
Definition BoundConstFloat (v : spec_float) : result Bound :=
  match v with
  | S754_nan | S754_infinity _ => Ok Everything
  | S754_zero _ => Ok (MkBound 0 0)
  | S754_finite s m e =>
      let lo := floor_of s m e in
      let hi := ceil_of s m e in
      let* lo_i := if lo <? - 2 ^ 63 then Ok kNegInf else checked lo in
      let* hi_i := if hi >? 2 ^ 63 then Ok kPosInf else checked hi in
      Ok (MkBound lo_i hi_i)
  end.

(** [BoundFromOpSemantics]: what a builtin guarantees of its result. *)
Definition BoundFromOpSemantics (op : option string) : Bound :=
  match op with
  | None => Everything
  | Some name =>
      if bool_decide (name = "tile.get_block_idx"%string)
         || bool_decide (name = "tile.get_subblock_idx"%string)
         || bool_decide (name = "tensor.get_block_idx"%string)
         || bool_decide (name = "tensor.get_subblock_idx"%string)
      then MkBound 0 kPosInf
      else if bool_decide (name = "tile.get_block_num"%string)
              || bool_decide (name = "tensor.get_block_num"%string)
      then MkBound 1 kPosInf
      else Everything
  end.

(** [static_cast<int64_t>(1) << k]. *)
Definition shift_one (k : Z) : result Z :=
  if (0 <=? k) && (k <? 64) then Ok (wrap_signed 64 (2 ^ k)) else Err UndefinedBehaviour.

(** [a >> k]. *)
Definition shift_right (a k : Z) : result Z :=
  if (0 <=? k) && (k <? 64) then Ok (Z.shiftr a k) else Err UndefinedBehaviour.

Definition BoundCast (a : Bound) (dt : DataType) : Bound :=
  if negb (IsInt dt) then Everything
  else
    let bits := GetBit dt in
    if (bits =? 0) || (bits >=? 64) then a
    else
      let type_min := if IsUnsignedInt dt then 0 else - 2 ^ (bits - 1) in
      let type_max := if IsUnsignedInt dt then 2 ^ bits - 1 else 2 ^ (bits - 1) - 1 in
      if (min_value a <? type_min) || (max_value a >? type_max) || (min_value a >? max_value a)
      then MkBound type_min type_max
      else a.

Definition BoundAbs (a : Bound) : Bound :=
  if min_value a >=? 0 then a
  else if max_value a <=? 0 then
    MkBound (InfAwareNeg (max_value a)) (InfAwareNeg (min_value a))
  else MkBound 0 (Z.max (InfAwareNeg (min_value a)) (max_value a)).

Definition BoundPow (base exp : Bound) : result Bound :=
  if negb (is_const exp) || (min_value exp <? 0) then Ok Everything
  else
    let e := min_value exp in
    if e =? 0 then Ok (MkBound 1 1)
    else if e =? 1 then Ok base
    else if is_non_negative base then
      let* lo := InfAwarePow (min_value base) e in
      let* hi := InfAwarePow (max_value base) e in
      Ok (MkBound lo hi)
    else Ok Everything.

Definition small_shift (a b : Bound) : bool :=
  is_non_negative a && is_non_negative b && (max_value b <? 63).

(** The visitors of the binary nodes, once the operands' bounds are known.
    [l] and [r] are the operands themselves. *)
Definition VisitBinary (k : binkind) (l r : expr) (dt : DataType) (a b : Bound) : result Bound :=
  match k with
  | KAdd => Ok (MkBound (InfAwareAdd (min_value a) (min_value b))
                        (InfAwareAdd (max_value a) (max_value b)))
  | KSub => Ok (MkBound (InfAwareAdd (min_value a) (InfAwareNeg (max_value b)))
                        (InfAwareAdd (max_value a) (InfAwareNeg (min_value b))))
  | KMul => Ok (BoundMul a b)
  | KFloorDiv | KFloorMod =>
      let* pa := BoundPreservesDtype a l dt in
      if negb pa then Ok Everything
      else
        let* pb := BoundPreservesDtype b r dt in
        if negb pb then Ok Everything
        else match k with KFloorDiv => BoundFloorDiv a b | _ => BoundFloorMod a b end
  | KMin => Ok (MkBound (Z.min (min_value a) (min_value b)) (Z.min (max_value a) (max_value b)))
  | KMax => Ok (MkBound (Z.max (min_value a) (min_value b)) (Z.max (max_value a) (max_value b)))
  | KPow => BoundPow a b
  | KBitAnd =>
      if is_non_negative a && is_non_negative b then
        Ok (MkBound 0 (Z.min (max_value a) (max_value b)))
      else Ok Everything
  | KBitOr =>
      if is_non_negative a && is_non_negative b then
        Ok (MkBound (Z.max (min_value a) (min_value b)) (InfAwareAdd (max_value a) (max_value b)))
      else Ok Everything
  | KBitShiftLeft =>
      if small_shift a b then
        let* s0 := shift_one (min_value b) in
        let* s1 := shift_one (max_value b) in
        Ok (MkBound (InfAwareMul (min_value a) s0) (InfAwareMul (max_value a) s1))
      else Ok Everything
  | KBitShiftRight =>
      if small_shift a b then
        let* s0 := shift_right (min_value a) (max_value b) in
        let* s1 := shift_right (max_value a) (min_value b) in
        Ok (MkBound s0 s1)
      else Ok Everything
  | KFloatDiv | KBitXor => Ok Everything
  | KEq | KNe | KLt | KLe | KGt | KGe | KAnd | KOr | KXor => Ok (MkBound 0 1)
  end.

(** Nodes whose visitor does not look at the operands. *)
Definition visits_operands (k : binkind) (l r : expr) (dt : DataType) : bool :=
  match k with
  | KFloatDiv | KBitXor | KEq | KNe | KLt | KLe | KGt | KGe | KAnd | KOr | KXor => false
  | KFloorDiv | KFloorMod => FloorDivModOperandsFitDtype l r dt
  | _ => true
  end.

(** Without the operands' bounds: the literal-fit test failed, or the result
    is a truth value or unknown. *)
Definition VisitBlind (k : binkind) : Bound :=
  match k with
  | KEq | KNe | KLt | KLe | KGt | KGe | KAnd | KOr | KXor => MkBound 0 1
  | _ => Everything
  end.

(** ** The analyzer *)

(** [var_map_], keyed by the address of the variable. *)
Abbreviation BoundMap := (gmap positive Bound).

Definition bound_of (m : BoundMap) (id : positive) : Bound := default Everything (m !! id).

Fixpoint VisitExpr (m : BoundMap) (e : expr) : result Bound :=
  match e with
  | ConstInt v dt => Ok (if ConstIntFitsDtype v dt then MkBound v v else Everything)
  | ConstFloat v _ => BoundConstFloat v
  | ConstBool b => Ok (MkBound (Z.b2z b) (Z.b2z b))
  | Var _ id _ => Ok (bound_of m id)
  | Leaf (KCall op) _ _ => Ok (BoundFromOpSemantics op)
  | Leaf _ _ _ => Ok Everything
  | Binary k l r dt =>
      if visits_operands k l r dt then
        let* a := VisitExpr m l in
        let* b := VisitExpr m r in
        VisitBinary k l r dt a b
      else Ok (VisitBlind k)
  | Unary KNeg e _ =>
      let* a := VisitExpr m e in
      Ok (MkBound (InfAwareNeg (max_value a)) (InfAwareNeg (min_value a)))
  | Unary KAbs e _ => let* a := VisitExpr m e in Ok (BoundAbs a)
  | Unary KNot _ _ => Ok (MkBound 0 1)
  | Unary KBitNot _ _ => Ok Everything
  | Unary KCast e dt => let* a := VisitExpr m e in Ok (BoundCast a dt)
  end.

(** [ConstIntBoundAnalyzer::Bind], [Update] and [Unbind]. *)
Definition Bind (m : BoundMap) (id : positive) (min_val max_val_exclusive : Z) : result BoundMap :=
  let* _ := require (max_val_exclusive >? min_val) CheckFailed in
  let* hi := sub64 max_val_exclusive 1 in
  Ok (<[id := MkBound min_val hi]> m).

Definition Update (m : BoundMap) (id : positive) (b : Bound) : result BoundMap :=
  let* _ := require (min_value b <=? max_value b) CheckFailed in
  Ok (<[id := b]> m).

Definition Unbind (m : BoundMap) (id : positive) : BoundMap := delete id m.

(** ** Constraints *)

(** [As<Var>]: exact kind, an [IterArg] is not one. *)
Definition as_var (e : expr) : option (positive * option DataType) :=
  match e with Var false id ty => Some (id, ty) | _ => None end.

Definition IsIntegerScalar (ty : option DataType) : bool :=
  match ty with Some dt => IsInt dt | None => false end.

Definition StrictBound (ty : option DataType) (bound unit_ : Z) : Z :=
  if IsIntegerScalar ty then InfAwareAdd bound unit_ else bound.

(** The state of a scope: the map, and the recovery list with the last
    tightening first. *)
Definition Recovery := list (positive * Bound).

Definition TryTighten (s : BoundMap * Recovery) (id : positive) (new_bound : Bound)
    : BoundMap * Recovery :=
  let '(m, recovery) := s in
  let old := bound_of m id in
  (<[id := MkBound (Z.max (min_value old) (min_value new_bound))
                   (Z.min (max_value old) (max_value new_bound))]> m,
   (id, old) :: recovery).

(** The bound a comparison gives the variable on its left ([true]) or on its
    right, from the constant on the other side. *)
Definition side_bound (k : binkind) (left_ : bool) (ty : option DataType) (c : Bound) : Bound :=
  match k, left_ with
  | KGe, true => MkBound (min_value c) kPosInf
  | KGe, false => MkBound kNegInf (max_value c)
  | KGt, true => MkBound (StrictBound ty (min_value c) 1) kPosInf
  | KGt, false => MkBound kNegInf (StrictBound ty (max_value c) (-1))
  | KLe, true => MkBound kNegInf (max_value c)
  | KLe, false => MkBound (min_value c) kPosInf
  | KLt, true => MkBound kNegInf (StrictBound ty (max_value c) (-1))
  | KLt, false => MkBound (StrictBound ty (min_value c) 1) kPosInf
  | _, _ => c
  end.

Fixpoint TryParseConstraint (s : BoundMap * Recovery) (e : expr) : result (BoundMap * Recovery) :=
  match e with
  | Binary (KGe | KGt | KLe | KLt | KEq) l r _ =>
      let k := match e with Binary k _ _ _ => k | _ => KEq end in
      match as_var l, as_var r with
      | Some (id, ty), _ =>
          let* rb := VisitExpr s.1 r in
          Ok (if is_const rb then TryTighten s id (side_bound k true ty rb) else s)
      | None, Some (id, ty) =>
          let* lb := VisitExpr s.1 l in
          Ok (if is_const lb then TryTighten s id (side_bound k false ty lb) else s)
      | None, None => Ok s
      end
  | Binary KAnd l r _ =>
      let* s := TryParseConstraint s l in
      TryParseConstraint s r
  | _ => Ok s
  end.

(** [EnterConstraint] returns the tightened map and the scope's recovery. *)
Definition EnterConstraint (m : BoundMap) (constraint : expr) : result (BoundMap * Recovery) :=
  TryParseConstraint (m, []) constraint.

(** The recovery function: last tightening undone first. *)
Fixpoint Recover (m : BoundMap) (recovery : Recovery) : BoundMap :=
  match recovery with
  | [] => m
  | (id, bound) :: rest =>
      Recover (if is_everything bound then delete id m else <[id := bound]> m) rest
  end.

(** ** Saturating arithmetic

    [kNegInf] and [kPosInf] stand for everything beyond them, so the readings
    below keep every integer strictly between the two. *)

Definition in_range (z : Z) : bool := (kNegInf <? z) && (z <? kPosInf).

Lemma in_range_iff z : in_range z = true <-> kNegInf < z < kPosInf.
Proof. unfold in_range. by rewrite andb_true_iff, !Z.ltb_lt. Qed.

(** [p] is [t], or the sentinel on the side on which [t] went out of range. *)
Definition sat (p t : Z) : Prop :=
  p = t \/ (p = kPosInf /\ kPosInf <= t) \/ (p = kNegInf /\ t <= kNegInf).

Ltac inf_unfold := unfold in_range, sat, kNegInf, kPosInf in *.
Ltac lia_inf := inf_unfold; lia64.

Lemma sat_le p t z : kNegInf < z < kPosInf -> sat p t -> t <= z -> p <= z.
Proof. intros ? [-> |[[-> ?]|[-> ?]]] ?; lia_inf. Qed.

Lemma sat_ge p t z : kNegInf < z < kPosInf -> sat p t -> z <= t -> z <= p.
Proof. intros ? [-> |[[-> ?]|[-> ?]]] ?; lia_inf. Qed.

Lemma InfAwareAdd_lower a b x y :
  a <= x -> b <= y -> kNegInf < x < kPosInf -> kNegInf < y < kPosInf ->
  kNegInf < x + y < kPosInf -> InfAwareAdd a b <= x + y.
Proof.
  intros. unfold InfAwareAdd, AddWouldOverflow.
  repeat case_match; bool_to_prop; try lia_inf;
  destruct_or?; bool_to_prop; lia_inf.
Qed.

Lemma InfAwareAdd_upper a b x y :
  x <= a -> y <= b -> kNegInf < x < kPosInf -> kNegInf < y < kPosInf ->
  kNegInf < x + y < kPosInf -> x + y <= InfAwareAdd a b.
Proof.
  intros. unfold InfAwareAdd, AddWouldOverflow.
  repeat case_match; bool_to_prop; try lia_inf;
  destruct_or?; bool_to_prop; lia_inf.
Qed.

Lemma InfAwareNeg_sat a : sat (InfAwareNeg a) (- a).
Proof.
  unfold InfAwareNeg, NegWouldOverflow.
  repeat case_match; bool_to_prop; lia_inf.
Qed.

Lemma MulWouldOverflow_true a b :
  MulWouldOverflow a b = true -> ~ INT64_MIN <= a * b <= INT64_MAX.
Proof.
  unfold MulWouldOverflow. destruct (_ || _) eqn:E0; [done |].
  destruct (Z.gtb_spec b 0) as [Hb|Hb].
  - rewrite orb_true_iff, <- quot_limits_pos, Z.ltb_lt, Z.gtb_lt by done. lia.
  - destruct (Z.eqb_spec b (-1)) as [-> |].
    + rewrite Z.eqb_eq. intros ->. unfold INT64_MIN, INT64_MAX. lia.
    + destruct (Z.eq_dec b 0) as [-> |]; [by rewrite orb_true_r in E0 |].
      rewrite orb_true_iff, <- quot_limits_neg, Z.ltb_lt, Z.gtb_lt by lia. lia.
Qed.

Lemma InfAwareMul_sat a b : sat (InfAwareMul a b) (a * b).
Proof.
  unfold InfAwareMul.
  destruct (Z.eqb_spec a 0) as [-> |Ha]; [left; done |].
  destruct (Z.eqb_spec b 0) as [-> |Hb]; [left; simpl; lia |]. cbn [orb].
  assert (Hs : if Bool.eqb (a >? 0) (b >? 0) then 0 < a * b else a * b < 0).
  { destruct (Z.gtb_spec a 0), (Z.gtb_spec b 0); simpl; nia. }
  destruct (_ || _ || _ || _) eqn:Hi.
  - assert (kPosInf <= Z.abs (a * b)).
    { rewrite Z.abs_mul. assert (kPosInf <= Z.abs a \/ kPosInf <= Z.abs b).
      { bool_to_prop. destruct_or!; bool_to_prop; lia_inf. }
      assert (0 < kPosInf) by lia_inf. nia. }
    destruct (Bool.eqb _ _); [right; left | right; right]; unfold kNegInf; lia.
  - destruct (MulWouldOverflow a b) eqn:Ho; [|by left].
    apply MulWouldOverflow_true in Ho.
    destruct (Bool.eqb _ _); [right; left | right; right]; lia_inf.
Qed.

Lemma floordiv_ok x y q : 0 < y -> floordiv x y = Ok q -> q = x / y.
Proof.
  intros Hy. unfold floordiv, div64, rem64, sub64. intros. inv_ok.
  destruct (y =? 0); [done |]. destruct ((x =? INT64_MIN) && (y =? -1)); [done |].
  cbn [orb negb] in *. inv_ok. apply checked_ok in E1 as [-> _].
  pose proof (quot_rem_floor x y ltac:(lia)) as Hqr. pose proof (Z.mod_pos_bound x y Hy).
  case_decide as Hc; injection Hqr as Hq Hr; rewrite Hq, ?Hr in *.
  - destruct (_ || _) eqn:E'; [by simplify_eq |]. exfalso. bool_to_prop.
    destruct_or?; bool_to_prop; lia.
  - destruct (_ || _) eqn:E'; [|apply checked_ok in H as [-> _]; lia]. exfalso.
    bool_to_prop. destruct_or?; bool_to_prop; lia.
Qed.

(** ** Soundness of the helpers *)

Definition in_bound (b : Bound) (z : Z) : Prop := min_value b <= z <= max_value b.

#[export] Instance in_bound_dec b z : Decision (in_bound b z).
Proof. unfold in_bound. apply _. Defined.

Lemma in_Everything z : kNegInf < z < kPosInf -> in_bound Everything z.
Proof. unfold in_bound, Everything. simpl. lia. Qed.

(** A product lies between two of its corners. *)
Lemma mul_corners a1 a2 b1 b2 x y :
  a1 <= x <= a2 -> b1 <= y <= b2 ->
  (a1 * b1 <= x * y \/ a1 * b2 <= x * y \/ a2 * b1 <= x * y \/ a2 * b2 <= x * y) /\
  (x * y <= a1 * b1 \/ x * y <= a1 * b2 \/ x * y <= a2 * b1 \/ x * y <= a2 * b2).
Proof.
  intros Hx Hy.
  destruct (Z_le_gt_dec 0 y), (Z_le_gt_dec 0 a1), (Z_le_gt_dec 0 a2); split; nia.
Qed.

Lemma BoundMul_sound a b x y :
  in_bound a x -> in_bound b y -> kNegInf < x * y < kPosInf -> in_bound (BoundMul a b) (x * y).
Proof.
  intros Ha Hb Hr. destruct (mul_corners _ _ _ _ _ _ Ha Hb) as [Hl Hu].
  pose proof (fun u v => sat_le _ _ _ Hr (InfAwareMul_sat u v)) as Sl.
  pose proof (fun u v => sat_ge _ _ _ Hr (InfAwareMul_sat u v)) as Sg.
  unfold BoundMul, in_bound; cbn [min_value max_value]. split.
  - destruct Hl as [H|[H|[H|H]]]; apply Sl in H; lia.
  - destruct Hu as [H|[H|[H|H]]]; apply Sg in H; lia.
Qed.

(** Floor division by a positive divisor: monotone in the dividend, and in the
    divisor towards zero. *)
Lemma div_bounds a1 a2 b1 b2 x y :
  a1 <= x <= a2 -> 0 < b1 -> b1 <= y <= b2 ->
  (if a1 >=? 0 then a1 / b2 else a1 / b1) <= x / y <= (if a2 >=? 0 then a2 / b1 else a2 / b2).
Proof.
  intros Hx H0 Hy.
  assert (Hneg : forall a u v, a < 0 -> 0 < u <= v -> a / u <= a / v).
  { intros a u v Ha Huv. apply Z.div_le_lower_bound; [lia |].
    pose proof (Z.div_mod a u ltac:(lia)). pose proof (Z.mod_pos_bound a u ltac:(lia)). nia. }
  split.
  - transitivity (a1 / y); [|apply Z.div_le_mono; lia].
    destruct (Z.geb_spec a1 0); [apply Z.div_le_compat_l; lia | apply Hneg; lia].
  - transitivity (a2 / y); [apply Z.div_le_mono; lia |].
    destruct (Z.geb_spec a2 0); [apply Z.div_le_compat_l; lia | apply Hneg; lia].
Qed.

Lemma BoundFloorDivPositiveRHS_sound a b x y c :
  in_bound a x -> 0 < min_value b -> in_bound b y ->
  BoundFloorDivPositiveRHS a b = Ok c -> in_bound c (x / y).
Proof.
  intros Ha H0 Hb Hc. pose proof (div_bounds _ _ _ _ _ _ Ha H0 Hb) as Hd.
  unfold in_bound in Hb. unfold BoundFloorDivPositiveRHS in Hc. inv_ok. unfold in_bound. simpl.
  destruct (min_value a >=? 0), (max_value a >=? 0);
    apply floordiv_ok in E, E0; lia.
Qed.

Lemma InfAwareNeg_bound a x :
  kNegInf < x < kPosInf -> in_bound a x ->
  in_bound (MkBound (InfAwareNeg (max_value a)) (InfAwareNeg (min_value a))) (- x).
Proof.
  intros Hr [Hl Hu]. assert (Hr' : kNegInf < - x < kPosInf) by lia_inf. split; simpl.
  - eapply sat_le; [done | apply InfAwareNeg_sat | lia].
  - eapply sat_ge; [done | apply InfAwareNeg_sat | lia].
Qed.

Lemma BoundFloorDiv_sound a b x y c :
  in_bound a x -> in_bound b y -> kNegInf < x < kPosInf -> kNegInf < y < kPosInf ->
  kNegInf < x / y < kPosInf -> BoundFloorDiv a b = Ok c -> in_bound c (x / y).
Proof.
  intros Ha Hb Hx Hy Hr. unfold BoundFloorDiv.
  destruct (Z.gtb_spec (min_value b) 0); [intros; by eapply BoundFloorDivPositiveRHS_sound |].
  destruct (Z.ltb_spec (max_value b) 0); [|intros [= <-]; by apply in_Everything].
  intros Hc. rewrite <- Z.div_opp_opp by (unfold in_bound in Hb; lia).
  eapply BoundFloorDivPositiveRHS_sound; [by apply InfAwareNeg_bound | | by apply InfAwareNeg_bound | done].
  cbn. destruct (InfAwareNeg_sat (max_value b)) as [-> |[[-> ?]|[-> ?]]]; lia_inf.
Qed.

Lemma BoundFloorMod_sound a b x y c :
  in_bound a x -> in_bound b y -> kNegInf < x mod y < kPosInf ->
  BoundFloorMod a b = Ok c -> in_bound c (x mod y).
Proof.
  unfold BoundFloorMod, in_bound, is_non_negative, sub64. intros Ha Hb Hr.
  destruct (Z.gtb_spec (min_value b) 0); [|intros [= <-]; by apply in_Everything].
  intros. inv_ok. apply checked_ok in E as [-> _].
  pose proof (Z.mod_pos_bound x y ltac:(lia)).
  destruct (Z.geb_spec (min_value a) 0); simplify_eq; simpl; [|lia].
  pose proof (Z.mod_le x y ltac:(lia) ltac:(lia)). lia.
Qed.

Lemma land_1_cases e : Z.land e 1 = 0 \/ Z.land e 1 = 1.
Proof.
  change 1 with (Z.ones 1) at 1 2. rewrite !Z.land_ones by lia.
  pose proof (Z.mod_pos_bound e (2 ^ 1) ltac:(lia)). lia.
Qed.

Lemma InfAwareMul_pos a b :
  1 <= a -> 1 <= b ->
  (is_inf (InfAwareMul a b) = true /\ InfAwareMul a b = kPosInf /\ kPosInf <= a * b) \/
  (is_inf (InfAwareMul a b) = false /\ InfAwareMul a b = a * b).
Proof.
  intros Ha Hb. assert (1 <= a * b) by nia. unfold is_inf.
  destruct (InfAwareMul_sat a b) as [-> |[[-> ?]|[-> ?]]]; [| by left | lia_inf].
  destruct (Z.eqb_spec (a * b) kPosInf); [left; lia |].
  destruct (Z.eqb_spec (a * b) kNegInf); [lia_inf | by right].
Qed.

Lemma inf_pow_loop_sat fuel base exp : 0 < base -> forall r b e,
  0 <= e < 2 ^ Z.of_nat fuel -> 1 <= r -> 1 <= b ->
  exists p, inf_pow_loop fuel base exp r b e = Ok p /\
    ((p = r * b ^ e) \/ (p = kPosInf /\ kPosInf <= r * b ^ e)).
Proof.
  intros Hbase. induction fuel as [|fuel IH]; intros r b e He Hr Hb.
  { simpl in He. replace e with 0 by lia. eexists. split; [done |]. left. lia. }
  destruct (Z.eq_dec e 0) as [-> |He0].
  { eexists. split; [done |]. left. lia. }
  rewrite (pow_halve r b e) by lia. cbn [inf_pow_loop].
  rewrite (proj2 (Z.leb_gt e 0)) by lia.
  replace (negb (Z.land e 1 =? 0)) with (Z.land e 1 =? 1)
    by (destruct (land_1_cases e) as [-> | ->]; done).
  set (odd := Z.land e 1 =? 1). set (h := Z.shiftr e 1). cbv zeta.
  assert (Hh : 0 <= h < 2 ^ Z.of_nat fuel).
  { subst h. rewrite Z.shiftr_div_pow2 by lia. change (2 ^ 1) with 2.
    rewrite Nat2Z.inj_succ, Z.pow_succ_r in He by lia.
    split; [apply Z.div_pos | apply Z.div_lt_upper_bound]; lia. }
  clearbody h odd.
  assert (Hp : 1 <= (b * b) ^ h) by (pose proof (Z.pow_pos_nonneg (b * b) h); nia).
  set (r' := if odd then r * b else r).
  assert (Hr' : 1 <= r') by (subst r'; destruct odd; nia).
  assert (Hstep : (odd && is_inf (if odd then InfAwareMul r b else r) = true /\
                   (if odd then InfAwareMul r b else r) = kPosInf /\ kPosInf <= r') \/
                  (odd && is_inf (if odd then InfAwareMul r b else r) = false /\
                   (if odd then InfAwareMul r b else r) = r')).
  { subst r'. destruct odd; [|by right]. by apply InfAwareMul_pos. }
  clearbody r'. destruct Hstep as [(-> & -> & Hinf)|(-> & ->)].
  { eexists. split; [done |]. right. split; [done | nia]. }
  destruct (Z.gtb_spec h 0).
  - destruct (InfAwareMul_pos b b Hb Hb) as [(-> & _ & Hinf)|(-> & ->)].
    + rewrite (proj2 (Z.gtb_lt r' 0)), (proj2 (Z.gtb_lt base 0)) by lia. simpl.
      eexists. split; [done |]. right. split; [done |].
      assert (b * b <= (b * b) ^ h) by (rewrite <- (Z.pow_1_r (b * b)) at 1; apply Z.pow_le_mono_r; nia).
      nia.
    + apply IH; [lia | done | nia].
  - replace h with 0 by lia. rewrite !Z.pow_0_r, !Z.mul_1_r.
    assert (inf_pow_loop fuel base exp r' b 0 = Ok r') as -> by (by destruct fuel). eauto.
Qed.

Lemma InfAwarePow_sat base exp :
  0 <= base -> 0 <= exp <= INT64_MAX ->
  exists p, InfAwarePow base exp = Ok p /\ sat p (base ^ exp).
Proof.
  intros Hb He. unfold InfAwarePow.
  destruct (Z.eqb_spec exp 0) as [-> |]; [eexists; split; [done | by left] |].
  destruct (Z.eqb_spec base 0) as [-> |].
  { eexists. split; [done |]. left. rewrite Z.pow_0_l; lia. }
  destruct (Z.eqb_spec base 1) as [-> |].
  { eexists. split; [done |]. left. by rewrite Z.pow_1_l by lia. }
  destruct (inf_pow_loop_sat pow_fuel base exp ltac:(lia) 1 base exp) as (p & -> & Hp); try lia.
  { change (Z.of_nat pow_fuel) with 64. lia64. }
  eexists. split; [done |]. unfold sat. lia.
Qed.

Lemma BoundPow_sound a b x y c :
  in_bound a x -> in_bound b y -> kNegInf < y < kPosInf -> kNegInf < x ^ y < kPosInf ->
  BoundPow a b = Ok c -> in_bound c (x ^ y).
Proof.
  unfold BoundPow, is_const, is_non_negative. intros Ha Hb Hy Hr.
  destruct (Z.eqb_spec (min_value b) (max_value b)) as [E|]; cbn [negb orb];
    [|intros [= <-]; by apply in_Everything].
  destruct (Z.ltb_spec (min_value b) 0); cbn [negb orb]; [intros [= <-]; by apply in_Everything |].
  assert (y = min_value b) by (unfold in_bound in Hb; lia). subst y.
  destruct (Z.eqb_spec (min_value b) 0) as [-> |]; [intros [= <-]; unfold in_bound; simpl; lia |].
  destruct (Z.eqb_spec (min_value b) 1) as [-> |]; [intros [= <-]; by rewrite Z.pow_1_r |].
  destruct (Z.geb_spec (min_value a) 0); [|intros [= <-]; by apply in_Everything].
  unfold in_bound in Ha.
  destruct (InfAwarePow_sat (min_value a) (min_value b)) as (p & -> & Hp); [lia | lia_inf |].
  destruct (InfAwarePow_sat (max_value a) (min_value b)) as (q & -> & Hq); [lia | lia_inf |].
  intros [= <-]. split; simpl.
  - eapply sat_le; [done.. |]. apply Z.pow_le_mono_l. lia.
  - eapply sat_ge; [done.. |]. apply Z.pow_le_mono_l. lia.
Qed.

(** Bitwise operations on non-negative operands. *)
Lemma land_bounds x y : 0 <= x -> 0 <= y -> 0 <= Z.land x y <= Z.min x y.
Proof.
  intros Hx Hy. assert (Hle : forall u v, 0 <= u -> 0 <= v -> Z.land u v <= u).
  { intros u v Hu Hv. pose proof (Z.lor_nonneg (Z.land u v) (Z.ldiff u v)).
    assert (E : u = Z.land u v + Z.ldiff u v).
    { rewrite Z.add_nocarry_lxor.
      - apply Z.bits_inj'. intros n Hn. rewrite Z.lxor_spec, Z.land_spec, Z.ldiff_spec.
        by destruct (Z.testbit u n), (Z.testbit v n).
      - apply Z.bits_inj'. intros n Hn. rewrite !Z.land_spec, Z.ldiff_spec, Z.bits_0.
        by destruct (Z.testbit u n), (Z.testbit v n). }
    assert (0 <= Z.ldiff u v) by (apply Z.ldiff_nonneg; lia). lia. }
  split; [apply Z.land_nonneg; lia |].
  pose proof (Hle x y Hx Hy). pose proof (Hle y x Hy Hx) as H1. rewrite Z.land_comm in H1. lia.
Qed.

Lemma lor_bounds x y : 0 <= x -> 0 <= y -> Z.max x y <= Z.lor x y <= x + y.
Proof.
  intros Hx Hy. assert (E : x + y = Z.lor x y + Z.land x y).
  { pose proof (Z.add_lor_land x y). lia. }
  pose proof (land_bounds x y Hx Hy). lia.
Qed.

(** ** Soundness of the visitor *)

(** The reading the bounds are sound for: every integer strictly between the
    sentinels. *)
Definition bounded : Sem := guarded in_range.

(** An integer or a truth value, as a number. *)
Definition num (v : value) : Z := match v with VInt z => z | VBool b => Z.b2z b end.

Lemma binary_sem_guarded P k dt v w z :
  binary_sem k (guarded P) dt v w = Some (VInt z) -> P z = true.
Proof.
  destruct v as [a|a], w as [b|b]; simpl; try done; destruct k; simpl; repeat case_match; intros;
    inv_eval; subst; try done; by inv_eval; subst.
Qed.

Lemma unary_sem_guarded P k dt v z : unary_sem k (guarded P) dt v = Some (VInt z) -> P z = true.
Proof.
  destruct k, v; simpl; unfold cast_sem; repeat case_match; intros; inv_eval; subst; try done;
    simpl in *; inv_eval; by subst.
Qed.

Lemma load_guarded P ty v z : load (guarded P) ty v = Some (VInt z) -> P z = true.
Proof. destruct ty, v; simpl; intros; inv_eval; subst; simpl in *; inv_eval; by subst. Qed.

Lemma eval_guarded P rho e z : eval (guarded P) rho e = Some (VInt z) -> P z = true.
Proof.
  destruct e as [| | | |k l r dt|k e dt|]; cbn [eval]; try done.
  - apply load_guarded.
  - simpl. intros. inv_eval. subst. simpl in *. inv_eval. by subst.
  - destruct (eval (guarded P) rho l), (eval (guarded P) rho r); try done. apply binary_sem_guarded.
  - destruct (eval (guarded P) rho e); try done. apply unary_sem_guarded.
  - apply load_guarded.
Qed.

Lemma eval_bounded rho e v : eval bounded rho e = Some v -> kNegInf < num v < kPosInf.
Proof.
  destruct v as [z|b]; [intros H%eval_guarded; by apply in_range_iff in H | destruct b; done].
Qed.

Lemma load_bounded S ty v v' `{!ExactSem S} : load S ty v = Some v' -> v' = v.
Proof.
  destruct ty, v; simpl; intros; inv_eval; subst; try done.
  f_equal. by eapply leaf_exact.
Qed.

#[export] Instance bounded_exact : ExactSem bounded.
Proof. apply guarded_exact. intros z H%in_range_iff. apply in_int64_iff. lia_inf. Qed.

(** The facts the map records hold of the environment. *)
Definition env_ok (m : BoundMap) (rho : Env) : Prop :=
  forall id b, m !! id = Some b -> in_bound b (num (var_val rho id)).

(** What the hardware queries promise: an index is not negative, a count is
    positive. *)
Definition index_queries : list string :=
  ["tile.get_block_idx"; "tile.get_subblock_idx"; "tensor.get_block_idx";
   "tensor.get_subblock_idx"]%string.
Definition count_queries : list string := ["tile.get_block_num"; "tensor.get_block_num"]%string.

Fixpoint queries_ok (rho : Env) (e : expr) : Prop :=
  match e with
  | Leaf (KCall (Some op)) id _ =>
      (op ∈ index_queries -> 0 <= num (leaf_val rho id)) /\
      (op ∈ count_queries -> 1 <= num (leaf_val rho id))
  | Binary _ l r _ => queries_ok rho l /\ queries_ok rho r
  | Unary _ e _ => queries_ok rho e
  | _ => True
  end.

Lemma BoundFromOpSemantics_sound op z :
  kNegInf < z < kPosInf ->
  (forall name, op = Some name -> (name ∈ index_queries -> 0 <= z) /\ (name ∈ count_queries -> 1 <= z)) ->
  in_bound (BoundFromOpSemantics op) z.
Proof.
  intros Hr Hop. destruct op as [name|]; [|by apply in_Everything]. simpl.
  destruct (Hop name eq_refl) as [Hi Hc].
  unfold index_queries, count_queries in *.
  repeat setoid_rewrite elem_of_cons in Hi. repeat setoid_rewrite elem_of_cons in Hc.
  repeat match goal with |- in_bound (if ?b then _ else _) _ => destruct b eqn:?E end;
    rewrite ?orb_true_iff, ?bool_decide_eq_true in *; [| |by apply in_Everything];
    (split; simpl; [tauto | lia]).
Qed.

Lemma wrap_dtype_range dt z :
  GetBit dt <> 0 ->
  (if IsUnsignedInt dt then 0 else - 2 ^ (GetBit dt - 1)) <= wrap_dtype dt z <=
  (if IsUnsignedInt dt then 2 ^ GetBit dt - 1 else 2 ^ (GetBit dt - 1) - 1).
Proof.
  intros H0. pose proof (GetBit_bounds dt). unfold wrap_dtype.
  rewrite (proj2 (Z.eqb_neq _ _) H0). destruct (IsUnsignedInt dt).
  - assert (0 <= wrap_unsigned (GetBit dt) z < 2 ^ GetBit dt); [|lia].
    apply wrap_unsigned_id; [lia |]. unfold wrap_unsigned. by rewrite Z.mod_mod by lia.
  - assert (- 2 ^ (GetBit dt - 1) <= wrap_signed (GetBit dt) z < 2 ^ (GetBit dt - 1)); [|lia].
    apply wrap_signed_id; [lia |]. unfold wrap_signed. by rewrite Z.sub_add, Z.mod_mod by lia.
Qed.

Lemma wrap_dtype_id dt z :
  (if IsUnsignedInt dt then 0 else - 2 ^ (GetBit dt - 1)) <= z <=
  (if IsUnsignedInt dt then 2 ^ GetBit dt - 1 else 2 ^ (GetBit dt - 1) - 1) ->
  wrap_dtype dt z = z.
Proof.
  pose proof (GetBit_bounds dt). unfold wrap_dtype. destruct (Z.eqb_spec (GetBit dt) 0); [done |].
  destruct (IsUnsignedInt dt); intros.
  - apply wrap_unsigned_id; lia.
  - apply wrap_signed_id; lia.
Qed.

Lemma BoundCast_sound a dt z :
  in_bound a z -> kNegInf < z < kPosInf -> kNegInf < wrap_dtype dt z < kPosInf ->
  in_bound (BoundCast a dt) (wrap_dtype dt z).
Proof.
  intros Ha Hz Hw. unfold BoundCast. destruct (IsInt dt); [|by apply in_Everything]. cbn [negb].
  destruct (Z.eqb_spec (GetBit dt) 0) as [E|E]; cbn [orb].
  { unfold wrap_dtype in *. by rewrite E in *. }
  pose proof (GetBit_bounds dt).
  destruct (Z.geb_spec (GetBit dt) 64) as [E64|E64].
  - assert (E' : GetBit dt = 64) by lia. clear E64.
    enough (wrap_dtype dt z = z) as -> by done.
    unfold wrap_dtype in *. rewrite E' in *. simpl in *. destruct (IsUnsignedInt dt).
    + apply wrap_unsigned_id; [lia |]. destruct (Z.lt_ge_cases z 0); [|lia_inf]. exfalso.
      unfold wrap_unsigned in Hw. 
      rewrite <- (Z.mod_add z 1), Z.mod_small in Hw by lia_inf. lia_inf.
    + apply wrap_signed_id; lia_inf.
  - cbv zeta. pose proof (wrap_dtype_range dt z E).
    destruct (_ || _ || _) eqn:Ec; [unfold in_bound; simpl; lia |]. bool_to_prop.
    unfold in_bound in *. rewrite wrap_dtype_id by lia. done.
Qed.

Lemma BoundAbs_sound a z :
  in_bound a z -> kNegInf < z < kPosInf -> in_bound (BoundAbs a) (Z.abs z).
Proof.
  intros Ha Hz. unfold BoundAbs. pose proof (InfAwareNeg_bound a z Hz Ha) as Hn.
  unfold in_bound in *. cbn [min_value max_value] in *.
  destruct (Z.geb_spec (min_value a) 0); [lia |].
  destruct (Z.leb_spec (max_value a) 0); cbn [min_value max_value]; lia.
Qed.

Lemma shift_one_ok k r : k < 63 -> shift_one k = Ok r -> 0 <= k /\ r = 2 ^ k.
Proof.
  unfold shift_one. intros Hk. destruct (_ && _) eqn:E; [|done]. intros [= <-]. bool_to_prop.
  split; [done |]. apply wrap_signed_id; [lia |].
  assert (0 < 2 ^ k) by (apply Z.pow_pos_nonneg; lia).
  pose proof (Z.pow_lt_mono_r 2 k (64 - 1)). lia.
Qed.

Lemma shift_right_ok a k r : shift_right a k = Ok r -> 0 <= k /\ r = Z.shiftr a k.
Proof. unfold shift_right. destruct (_ && _) eqn:E; [|done]. intros [= <-]. by bool_to_prop. Qed.

Lemma shift_left_bounds a1 a2 b1 b2 x y :
  0 <= a1 <= x -> x <= a2 -> 0 <= b1 <= y -> y <= b2 ->
  a1 * 2 ^ b1 <= Z.shiftl x y <= a2 * 2 ^ b2.
Proof.
  intros. rewrite Z.shiftl_mul_pow2 by lia.
  pose proof (Z.pow_le_mono_r 2 b1 y). pose proof (Z.pow_le_mono_r 2 y b2).
  assert (0 < 2 ^ b1) by (apply Z.pow_pos_nonneg; lia). nia.
Qed.

Lemma shift_right_bounds a1 a2 b1 b2 x y :
  0 <= a1 <= x -> x <= a2 -> 0 <= b1 <= y -> y <= b2 ->
  Z.shiftr a1 b2 <= Z.shiftr x y <= Z.shiftr a2 b1.
Proof.
  intros. rewrite !Z.shiftr_div_pow2 by lia.
  pose proof (Z.pow_le_mono_r 2 b1 y). pose proof (Z.pow_le_mono_r 2 y b2).
  assert (0 < 2 ^ b1) by (apply Z.pow_pos_nonneg; lia). split.
  - transitivity (a1 / 2 ^ y); [apply Z.div_le_compat_l | apply Z.div_le_mono]; lia.
  - transitivity (x / 2 ^ b1); [apply Z.div_le_compat_l | apply Z.div_le_mono]; lia.
Qed.

Lemma Visit_shift_sound k l r dt a b x y c z :
  k = KBitShiftLeft \/ k = KBitShiftRight ->
  in_bound a x -> in_bound b y -> VisitBinary k l r dt a b = Ok c ->
  z = (if bool_decide (k = KBitShiftLeft) then Z.shiftl x y else Z.shiftr x y) ->
  kNegInf < z < kPosInf -> in_bound c z.
Proof.
  intros Hk Ha Hb Hv Hz Hr. unfold in_bound in Ha, Hb.
  destruct Hk as [-> | ->]; cbn [VisitBinary] in Hv; cbn in Hz; unfold small_shift, is_non_negative in Hv;
    (destruct (_ && _ && _) eqn:E; [|simplify_eq; by apply in_Everything]); bool_to_prop; inv_ok.
  - apply shift_one_ok in E as [? ->]; [|lia]. apply shift_one_ok in E0 as [? ->]; [|lia].
    destruct (shift_left_bounds (min_value a) (max_value a) (min_value b) (max_value b) x y); try lia.
    split; simpl; [eapply sat_le | eapply sat_ge]; try done; try apply InfAwareMul_sat; lia.
  - apply shift_right_ok in E as [? ->]. apply shift_right_ok in E0 as [? ->].
    destruct (shift_right_bounds (min_value a) (max_value a) (min_value b) (max_value b) x y); try lia.
    split; simpl; lia.
Qed.

Lemma InfAwareAdd_bound a b x y :
  in_bound a x -> in_bound b y -> kNegInf < x < kPosInf -> kNegInf < y < kPosInf ->
  kNegInf < x + y < kPosInf ->
  in_bound (MkBound (InfAwareAdd (min_value a) (min_value b))
                    (InfAwareAdd (max_value a) (max_value b))) (x + y).
Proof.
  intros [] [] ? ? ?. split; simpl; [by apply InfAwareAdd_lower | by apply InfAwareAdd_upper].
Qed.

Lemma VisitBinary_sound k l r dt a b v w u c :
  in_bound a (num v) -> in_bound b (num w) ->
  kNegInf < num v < kPosInf -> kNegInf < num w < kPosInf ->
  binary_sem k bounded dt v w = Some u -> VisitBinary k l r dt a b = Ok c ->
  in_bound c (num u).
Proof.
  intros Ha Hb Hv Hw Hs Hc.
  assert (Hu : kNegInf < num u < kPosInf).
  { destruct u as [z|[]]; [|done..]. apply binary_sem_guarded in Hs. by apply in_range_iff in Hs. }
  assert (Hbool : forall t : bool, in_bound (MkBound 0 1) (Z.b2z t)) by (by intros []).
  destruct v as [x|x], w as [y|y]; try done;
    [|destruct k; simpl in Hs; inv_eval; subst; simpl in Hc; simplify_eq; apply Hbool].
  simpl in Ha, Hb, Hv, Hw.
  destruct k; cbn [binary_sem int_op] in Hs; try done; repeat case_match; try done;
    inv_eval; subst; cbn [sem_arith sem_shift bounded guarded] in *; inv_eval; subst;
    cbn [num] in *;
    try (eapply Visit_shift_sound; [| exact Ha | exact Hb | exact Hc | reflexivity | done]; auto; fail);
    cbn [VisitBinary] in Hc; unfold is_non_negative in Hc; inv_ok;
    try (simplify_eq; apply Hbool).
  - by apply InfAwareAdd_bound.
  - apply (InfAwareAdd_bound a (MkBound _ _) x (- y)); try done; [by apply InfAwareNeg_bound | lia_inf].
  - by apply BoundMul_sound.
  - destruct r0; cbn [negb] in Hc; inv_ok; [|by apply in_Everything].
    destruct r0; cbn [negb] in Hc; inv_ok; [|by apply in_Everything].
    by eapply BoundFloorDiv_sound.
  - destruct r0; cbn [negb] in Hc; inv_ok; [|by apply in_Everything].
    destruct r0; cbn [negb] in Hc; inv_ok; [|by apply in_Everything].
    by eapply BoundFloorMod_sound.
  - unfold in_bound in *. simpl. lia.
  - unfold in_bound in *. simpl. lia.
  - by eapply BoundPow_sound.
  - destruct (_ && _) eqn:E; inv_ok; [|by apply in_Everything]. bool_to_prop.
    unfold in_bound in *. pose proof (land_bounds x y). simpl. lia.
  - destruct (_ && _) eqn:E; inv_ok; [|by apply in_Everything]. bool_to_prop.
    unfold in_bound in *. pose proof (lor_bounds x y ltac:(lia) ltac:(lia)).
    pose proof (Z.add_lor_land x y). pose proof (land_bounds x y ltac:(lia) ltac:(lia)).
    split; simpl; [lia |].
    destruct (Z_lt_le_dec (x + y) kPosInf); [|].
    + transitivity (x + y); [lia | apply InfAwareAdd_upper; lia_inf].
    + unfold InfAwareAdd, AddWouldOverflow. repeat case_match; bool_to_prop;
        destruct_or?; bool_to_prop; lia_inf.
  - by apply in_Everything.
Qed.

Lemma VisitExpr_in_bound m rho e v b :
  env_ok m rho -> queries_ok rho e -> eval bounded rho e = Some v ->
  VisitExpr m e = Ok b -> in_bound b (num v).
Proof.
  intros Hm. revert v b.
  induction e as [iter id ty|z dt|f dt|t|k l IHl r IHr dt|k e IH dt|k id ty]; intros v b Hq Hev Hb;
    pose proof (eval_bounded _ _ _ Hev) as Hv; cbn [eval VisitExpr queries_ok] in *.
  - simplify_eq. apply load_bounded in Hev as ->; [|apply _]. unfold bound_of.
    destruct (m !! id) eqn:E; [by apply Hm | by apply in_Everything].
  - simplify_eq. destruct (ConstIntFitsDtype z dt); [|by apply in_Everything].
    inv_eval. subst. cbn in *. inv_eval. subst. unfold in_bound. simpl. lia.
  - done.
  - simplify_eq. unfold in_bound. simpl. lia.
  - destruct (eval bounded rho l) as [vl|] eqn:El; [|done].
    destruct (eval bounded rho r) as [vr|] eqn:Er; [|done].
    destruct Hq as [Hql Hqr]. destruct (visits_operands k l r dt) eqn:Hvis.
    + inv_ok. apply (VisitBinary_sound k l r dt r0 r1 vl vr); eauto using eval_bounded.
    + simplify_eq. assert (Ht : forall t : bool, in_bound (MkBound 0 1) (Z.b2z t)) by (by intros []).
      destruct k; try done; try (by apply in_Everything); cbn [VisitBlind];
        destruct vl, vr; simpl in Hev; inv_eval; subst; try apply Ht; done.
  - destruct (eval bounded rho e) as [w|] eqn:Ee; [|done].
    pose proof (eval_bounded _ _ _ Ee) as Hw.
    destruct k; inv_ok; try (by apply in_Everything).
    + destruct w; [|done]. simpl in Hev. inv_eval. subst. inv_eval. subst.
      apply BoundAbs_sound; [by apply (IH (VInt z)) | done].
    + destruct w; [|done]. simpl in Hev. inv_eval. subst. inv_eval. subst.
      apply InfAwareNeg_bound; [done | by apply (IH (VInt z))].
    + destruct w as [|t]; [done |]. simpl in Hev. inv_eval. subst. by destruct t.
    + specialize (IH _ _ Hq eq_refl E). destruct w as [z|t]; simpl in Hev.
      * inv_eval. subst. inv_eval. subst. simpl in *. by apply BoundCast_sound.
      * destruct (IsBoolDtype dt) eqn:Et; inv_eval; subst.
        { unfold BoundCast. apply dtype_eqb_eq in Et as ->. by apply in_Everything. }
        inv_eval. subst. simpl in *. by apply BoundCast_sound.
  - apply load_bounded in Hev as ->; [|apply _].
    destruct k as [| |op| | |]; simplify_eq; try (by apply in_Everything).
    apply BoundFromOpSemantics_sound; [done |]. intros name ->. done.
Qed.

(** ** Constraint scopes *)

Lemma as_var_some e id ty : as_var e = Some (id, ty) <-> e = Var false id ty.
Proof. destruct e as [[]| | | | | |]; simpl; split; congruence. Qed.

Lemma env_ok_bound m rho id :
  env_ok m rho -> kNegInf < num (var_val rho id) < kPosInf ->
  in_bound (bound_of m id) (num (var_val rho id)).
Proof.
  intros Hm Hr. unfold bound_of. destruct (m !! id) eqn:E; [by apply Hm | by apply in_Everything].
Qed.

Lemma TryTighten_sound s rho id b :
  env_ok s.1 rho -> kNegInf < num (var_val rho id) < kPosInf ->
  in_bound b (num (var_val rho id)) -> env_ok (TryTighten s id b).1 rho.
Proof.
  destruct s as [m rec]. simpl. intros Hm Hr Hb id' b'. simpl.
  destruct (decide (id = id')) as [<- | Hne].
  - rewrite lookup_insert_eq. intros [= <-].
    pose proof (env_ok_bound m rho id Hm Hr) as Ho. unfold in_bound in *. simpl. lia.
  - rewrite lookup_insert_ne by done. apply Hm.
Qed.

(** What a true comparison says of its two integers. *)
Definition cmp_holds (k : binkind) (x y : Z) : Prop :=
  match k with
  | KGe => y <= x | KGt => y < x | KLe => x <= y | KLt => x < y | KEq => x = y | _ => False
  end.

Definition is_cmp (k : binkind) : bool :=
  match k with KGe | KGt | KLe | KLt | KEq => true | _ => false end.

Lemma eval_cmp rho k l r dt :
  is_cmp k = true -> eval bounded rho (Binary k l r dt) = Some (VBool true) ->
  exists x y, eval bounded rho l = Some (VInt x) /\ eval bounded rho r = Some (VInt y) /\
    cmp_holds k x y.
Proof.
  intros Hk (vl & vr & Hl & Hr & Hs)%eval_binary_inv.
  destruct vl as [x|], vr as [y|]; [|by destruct k..].
  exists x, y. split_and!; [done.. |].
  destruct k; try done; simpl in Hs; inv_eval; simpl; bool_to_prop; try lia;
    match goal with E : true = _ |- _ => symmetry in E end; bool_to_prop; lia.
Qed.

Lemma eval_var_int rho id ty x :
  eval bounded rho (Var false id ty) = Some (VInt x) ->
  num (var_val rho id) = x /\ IsIntegerScalar ty = true.
Proof.
  intros H. pose proof (eval_typed _ _ _ _ H) as (dt & Ht & Hi). simpl in H, Ht. subst ty.
  apply load_bounded in H; [|apply _]. by rewrite <- H.
Qed.

Lemma StrictBound_int ty b u :
  IsIntegerScalar ty = true -> StrictBound ty b u = InfAwareAdd b u.
Proof. unfold StrictBound. by intros ->. Qed.

Lemma InfAwareAdd_unit c :
  kNegInf < c < kPosInf ->
  (forall x, c < x < kPosInf -> InfAwareAdd c 1 <= x) /\
  (forall x, kNegInf < x < c -> x <= InfAwareAdd c (-1)).
Proof.
  intros Hc. unfold InfAwareAdd, AddWouldOverflow.
  split; intros; repeat case_match; bool_to_prop; destruct_or?; bool_to_prop; lia_inf.
Qed.

Lemma side_bound_sound k side ty c x y :
  is_cmp k = true -> IsIntegerScalar ty = true -> is_const c = true -> in_bound c y ->
  kNegInf < x < kPosInf -> kNegInf < y < kPosInf ->
  (if side : bool then cmp_holds k x y else cmp_holds k y x) ->
  in_bound (side_bound k side ty c) x.
Proof.
  unfold is_const. intros Hk Ht Hc Hy Hrx Hry Hcmp. bool_to_prop. unfold in_bound in Hy.
  assert (min_value c = y) as Hmin by lia. assert (max_value c = y) as Hmax by lia.
  destruct (InfAwareAdd_unit y Hry) as [Hup Hdn].
  destruct k, side; try done; simpl in Hcmp; unfold side_bound; rewrite ?StrictBound_int by done;
    unfold in_bound; cbn [min_value max_value]; rewrite ?Hmin, ?Hmax;
    try specialize (Hup x ltac:(lia)); try specialize (Hdn x ltac:(lia)); lia.
Qed.

Lemma TryParse_cmp_sound s rho k l r dt s' :
  is_cmp k = true -> env_ok s.1 rho -> queries_ok rho l -> queries_ok rho r ->
  eval bounded rho (Binary k l r dt) = Some (VBool true) ->
  TryParseConstraint s (Binary k l r dt) = Ok s' -> env_ok s'.1 rho.
Proof.
  intros Hk Hm Hql Hqr Hev Hs. destruct (eval_cmp _ _ _ _ _ Hk Hev) as (x & y & Hl & Hr & Hc).
  pose proof (eval_bounded _ _ _ Hl) as Rx. pose proof (eval_bounded _ _ _ Hr) as Ry. simpl in Rx, Ry.
  assert (Hs' : match as_var l, as_var r with
      | Some (id, ty), _ =>
          let* rb := VisitExpr s.1 r in
          Ok (if is_const rb then TryTighten s id (side_bound k true ty rb) else s)
      | None, Some (id, ty) =>
          let* lb := VisitExpr s.1 l in
          Ok (if is_const lb then TryTighten s id (side_bound k false ty lb) else s)
      | None, None => Ok s end = Ok s') by (by destruct k).
  clear Hs. destruct (as_var l) as [[id ty]|] eqn:El.
  - apply as_var_some in El as ->. apply eval_var_int in Hl as [Hv Ht]. inv_ok.
    destruct (is_const r0) eqn:Ec; [|done]. apply TryTighten_sound; try done.
    apply (side_bound_sound k true ty r0 _ y); try done. by eapply (VisitExpr_in_bound _ _ _ (VInt y)).
  - destruct (as_var r) as [[id ty]|] eqn:Er; [|by simplify_eq].
    apply as_var_some in Er as ->. apply eval_var_int in Hr as [Hv Ht]. inv_ok.
    destruct (is_const r) eqn:Ec; [|done]. apply TryTighten_sound; try done.
    apply (side_bound_sound k false ty _ _ x); try done.
    by apply (VisitExpr_in_bound s.1 rho l (VInt x)).
Qed.

Lemma TryParseConstraint_sound rho e : forall s s',
  env_ok s.1 rho -> queries_ok rho e -> eval bounded rho e = Some (VBool true) ->
  TryParseConstraint s e = Ok s' -> env_ok s'.1 rho.
Proof.
  induction e as [| | | |k l IHl r IHr dt|k e IH dt|]; intros s s' Hm Hq Hev Hs;
    try (by simpl in Hs; simplify_eq).
  destruct (is_cmp k) eqn:Hk.
  - destruct Hq. exact (TryParse_cmp_sound s rho k l r dt s' Hk Hm ltac:(done) ltac:(done) Hev Hs).
  - destruct (decide (k = KAnd)) as [-> |Hne]; [|by destruct k; simpl in Hs; simplify_eq].
    simpl in Hs. inv_ok. destruct Hq as [Hql Hqr].
    apply eval_binary_inv in Hev as (vl & vr & Hl & Hr & Hs').
    destruct vl as [|[]], vr as [|[]]; simpl in Hs'; inv_eval; try done.
    eapply IHr; [eapply IHl; eauto | done..].
Qed.

(** What a scope saves is true as well, or says nothing. *)
Definition saved_ok (rho : Env) (saved : positive * Bound) : Prop :=
  is_everything saved.2 = true \/ in_bound saved.2 (num (var_val rho saved.1)).

Lemma bound_of_saved m rho id : env_ok m rho -> saved_ok rho (id, bound_of m id).
Proof.
  intros Hm. unfold saved_ok, bound_of. cbn [fst snd]. destruct (m !! id) as [b|] eqn:E; [right; by apply Hm | by left].
Qed.

Lemma TryParseConstraint_saved rho e : forall s s',
  env_ok s.1 rho -> queries_ok rho e -> eval bounded rho e = Some (VBool true) ->
  TryParseConstraint s e = Ok s' -> Forall (saved_ok rho) s.2 -> Forall (saved_ok rho) s'.2.
Proof.
  induction e as [| | | |k l IHl r IHr dt|k e IH dt|]; intros s s' Hm Hq Hev Hs Hr;
    try (by cbn in Hs; simplify_eq).
  assert (Ht : forall id b, Forall (saved_ok rho) (TryTighten s id b).2).
  { intros id b. destruct s as [m rec]. apply List.Forall_cons; [exact (bound_of_saved m rho id Hm) | exact Hr]. }
  destruct (decide (k = KAnd)) as [-> |Hne].
  - cbn [TryParseConstraint] in Hs. apply bind_ok in Hs as (s1 & H1 & H2). destruct Hq as [Hql Hqr].
    apply eval_binary_inv in Hev as (vl & vr & Hl & Hr' & Hs').
    destruct vl as [|[]], vr as [|[]]; simpl in Hs'; inv_eval; try done.
    exact (IHr s1 s' (TryParseConstraint_sound rho l s s1 Hm Hql Hl H1) Hqr Hr' H2 (IHl s s1 Hm Hql Hl H1 Hr)).
  - destruct k; try done; cbn [TryParseConstraint] in Hs; try (by simplify_eq);
      (destruct (as_var l) as [[id ty]|]; [|destruct (as_var r) as [[id ty]|]; [|by simplify_eq]]);
      apply bind_ok in Hs as (b & _ & Hs); destruct (is_const b); simplify_eq; try done; apply Ht.
Qed.

Lemma Recover_saved rho recovery : forall m,
  env_ok m rho -> Forall (saved_ok rho) recovery -> env_ok (Recover m recovery) rho.
Proof.
  induction recovery as [|[id b] rest IH]; intros m Hm Hr; [done |]. apply List.Forall_cons_iff in Hr as [Hb Hr].
  cbn [Recover]. apply IH; [|done]. intros id' b'. destruct (is_everything b) eqn:E.
  - rewrite lookup_delete. case_decide; [done | apply Hm].
  - rewrite lookup_insert. case_decide as Ei; [|apply Hm]. subst. intros [= <-].
    destruct Hb as [Hb|Hb]; [cbn in Hb; congruence | done].
Qed.

(** Entering a constraint keeps the bound map true: if the map describes the
    environment and the constraint holds there, the tightened map describes it too, for all
    comparisons of a variable with a constant expression, either way round, and conjunctions
    of them; strict comparisons move the limit by one for integers only. *)
Theorem bound_constraint_sound m rho constraint m' recovery :
  env_ok m rho -> queries_ok rho constraint ->
  eval bounded rho constraint = Some (VBool true) ->
  EnterConstraint m constraint = Ok (m', recovery) -> env_ok m' rho.
Proof. intros Hm Hq Hev Hs. exact (TryParseConstraint_sound rho constraint (m, []) (m', recovery) Hm Hq Hev Hs). Qed.

(** Two maps are alike when every variable has the same bound in both: a
    recorded [Everything] is the same as no record. *)
Definition map_alike (m m' : BoundMap) : Prop := forall id, bound_of m id = bound_of m' id.

#[export] Instance map_alike_equiv : Equivalence map_alike.
Proof.
  split; [by intros m id | by intros m m' H id | intros m1 m2 m3 H1 H2 id; by rewrite H1].
Qed.

Lemma bound_of_insert m id id' b :
  bound_of (<[id := b]> m) id' = if decide (id = id') then b else bound_of m id'.
Proof.
  unfold bound_of. case_decide as E; [subst; by rewrite lookup_insert_eq | by rewrite lookup_insert_ne].
Qed.

Lemma bound_of_delete m id id' :
  bound_of (delete id m) id' = if decide (id = id') then Everything else bound_of m id'.
Proof.
  unfold bound_of. case_decide as E; [subst; by rewrite lookup_delete_eq | by rewrite lookup_delete_ne].
Qed.

Lemma is_everything_eq b : is_everything b = true -> b = Everything.
Proof. unfold is_everything. destruct b; simpl. intros. bool_to_prop. by subst. Qed.

(** One step of the recovery, seen through [bound_of]. *)
Definition restore (m : BoundMap) (id : positive) (b : Bound) : BoundMap :=
  if is_everything b then delete id m else <[id := b]> m.

Lemma bound_of_restore m id b id' :
  bound_of (restore m id b) id' = if decide (id = id') then b else bound_of m id'.
Proof.
  unfold restore. destruct (is_everything b) eqn:E.
  - rewrite bound_of_delete. apply is_everything_eq in E as ->. done.
  - apply bound_of_insert.
Qed.

#[export] Instance Recover_alike : Proper (map_alike ==> eq ==> map_alike) Recover.
Proof.
  intros m m' Hm rec ? <-. revert m m' Hm.
  induction rec as [|[id b] rec IH]; intros m m' Hm; [done |]. cbn [Recover].
  apply (IH (restore m id b) (restore m' id b)). intros id'. rewrite !bound_of_restore. by rewrite Hm.
Qed.

Lemma TryTighten_recover s id b :
  map_alike (Recover (TryTighten s id b).1 (TryTighten s id b).2) (Recover s.1 s.2).
Proof.
  destruct s as [m rec]. simpl. apply Recover_alike; [|done]. intros id'.
  change (bound_of (restore (<[id:=MkBound (Z.max (min_value (bound_of m id)) (min_value b))
     (Z.min (max_value (bound_of m id)) (max_value b))]> m) id (bound_of m id)) id' = bound_of m id').
  rewrite bound_of_restore, bound_of_insert. case_decide; [by subst | done].
Qed.

Lemma TryParseConstraint_recover e : forall s s',
  TryParseConstraint s e = Ok s' -> map_alike (Recover s'.1 s'.2) (Recover s.1 s.2).
Proof.
  induction e as [| | | |k l IHl r IHr dt|k e IH dt|]; intros s s' Hs; try (by simpl in Hs; simplify_eq).
  assert (Hstep : forall id b (t : bool), Ok (if t then TryTighten s id b else s) = Ok s' ->
    map_alike (Recover s'.1 s'.2) (Recover s.1 s.2)).
  { intros id b [] [= <-]; [apply TryTighten_recover | done]. }
  destruct k; simpl in Hs; try by simplify_eq.
  6: { inv_ok. etransitivity; eauto. }
  all: repeat case_match; inv_ok; eauto; simplify_eq; done.
Qed.

(** The recovery function EnterConstraint returns restores the bound of every variable,
    also when one variable was tightened several times. *)
Theorem bound_constraint_recover m constraint m' recovery :
  EnterConstraint m constraint = Ok (m', recovery) ->
  forall id, bound_of (Recover m' recovery) id = bound_of m id.
Proof. intros H. exact (TryParseConstraint_recover constraint (m, []) (m', recovery) H). Qed.

(** ** The visitor always answers

    Outside floating-point literals and shifts, whose visitors can run into
    undefined behaviour (see below), the visitor returns a bound whose ends are
    [int64_t]. *)

Definition wf_bound (b : Bound) : Prop := in_int64 (min_value b) = true /\ in_int64 (max_value b) = true.

Fixpoint analyzable (e : expr) : bool :=
  match e with
  | ConstFloat _ _ => false
  | Binary k l r _ =>
      analyzable l && analyzable r
      && match k with
         | KBitShiftLeft | KBitShiftRight => false
         | KFloorDiv | KFloorMod => is_ok (GetScalarDtype l) && is_ok (GetScalarDtype r)
         | _ => true
         end
  | Unary _ e _ => analyzable e
  | _ => true
  end.

Lemma InfAwareAdd_64 a b :
  in_int64 a = true -> in_int64 b = true -> in_int64 (InfAwareAdd a b) = true.
Proof.
  intros Ha Hb. unfold InfAwareAdd. repeat case_match; try done.
  by rewrite AddWouldOverflow_spec, negb_false_iff in * by done.
Qed.

Lemma InfAwareMul_64 a b :
  in_int64 a = true -> in_int64 b = true -> in_int64 (InfAwareMul a b) = true.
Proof.
  intros Ha Hb. unfold InfAwareMul.
  destruct (_ || _); [done |]. destruct (_ || _ || _ || _); [by destruct (Bool.eqb _ _) |].
  rewrite MulWouldOverflow_spec by done.
  destruct (in_int64 (a * b)) eqn:E; [done | by destruct (Bool.eqb _ _)].
Qed.

Lemma InfAwareNeg_64 a : in_int64 a = true -> in_int64 (InfAwareNeg a) = true.
Proof.
  intros Ha. unfold InfAwareNeg. rewrite NegWouldOverflow_spec by done.
  destruct (_ =? _); [done |]. destruct (_ =? _); [done |]. by destruct (in_int64 (- a)) eqn:E.
Qed.

(** The squaring loop ends within its fuel, whatever the base. *)
Lemma inf_pow_loop_total fuel base exp : forall r b e,
  0 <= e < 2 ^ Z.of_nat fuel -> in_int64 r = true -> in_int64 b = true ->
  exists p, inf_pow_loop fuel base exp r b e = Ok p /\ in_int64 p = true.
Proof.
  induction fuel as [|fuel IH]; intros r b e He Hr Hb; cbn [inf_pow_loop];
    (destruct (Z.leb_spec e 0); [by eexists |]); [simpl in He; lia |]. cbv zeta.
  set (r' := if negb (Z.land e 1 =? 0) then InfAwareMul r b else r).
  assert (in_int64 r' = true) by (subst r'; destruct (negb _); [by apply InfAwareMul_64 | done]).
  clearbody r'. destruct (_ && _); [by eexists |].
  assert (Hh : 0 <= Z.shiftr e 1 < 2 ^ Z.of_nat fuel).
  { rewrite Z.shiftr_div_pow2 by lia. change (2 ^ 1) with 2.
    rewrite Nat2Z.inj_succ, Z.pow_succ_r in He by lia.
    split; [apply Z.div_pos | apply Z.div_lt_upper_bound]; lia. }
  destruct (_ >? _); [|by apply IH].
  destruct (is_inf _); [destruct (Bool.eqb _ _); by eexists |].
  apply IH; [done | done | by apply InfAwareMul_64].
Qed.

Lemma InfAwarePow_total a e :
  in_int64 a = true -> 0 <= e -> in_int64 e = true ->
  exists p, InfAwarePow a e = Ok p /\ in_int64 p = true.
Proof.
  intros Ha He He64. apply in_int64_iff in He64. unfold InfAwarePow.
  destruct (_ =? _); [by eexists |]. destruct (_ =? _); [by eexists |].
  destruct (_ =? _); [by eexists |]. apply inf_pow_loop_total; try done.
  change (Z.of_nat pow_fuel) with 64. lia64.
Qed.

Lemma floordiv_total x y :
  in_int64 x = true -> in_int64 y = true -> 0 < y ->
  exists q, floordiv x y = Ok q /\ in_int64 q = true.
Proof.
  intros Hx Hy H0. rewrite floordiv_spec by (done || lia). eexists. split; [done |].
  apply (in_int64_floordiv x y). by rewrite floordiv_spec by (done || lia).
Qed.

Lemma BoundFloorDivPositiveRHS_total a b :
  wf_bound a -> wf_bound b -> 0 < min_value b -> 0 < max_value b ->
  exists c, BoundFloorDivPositiveRHS a b = Ok c /\ wf_bound c.
Proof.
  intros [Ha1 Ha2] [Hb1 Hb2] H1 H2. unfold BoundFloorDivPositiveRHS.
  destruct (floordiv_total (min_value a) (max_value b) Ha1 Hb2 H2) as (q1 & E1 & ?).
  destruct (floordiv_total (min_value a) (min_value b) Ha1 Hb1 H1) as (q2 & E2 & ?).
  destruct (floordiv_total (max_value a) (min_value b) Ha2 Hb1 H1) as (q3 & E3 & ?).
  destruct (floordiv_total (max_value a) (max_value b) Ha2 Hb2 H2) as (q4 & E4 & ?).
  rewrite E1, E2, E3, E4.
  destruct (min_value a >=? 0), (max_value a >=? 0); simpl; eexists; split; done.
Qed.

Lemma wf_neg b : wf_bound b ->
  wf_bound (MkBound (InfAwareNeg (max_value b)) (InfAwareNeg (min_value b))).
Proof. intros [? ?]. split; by apply InfAwareNeg_64. Qed.

Lemma InfAwareNeg_pos a : a < 0 -> in_int64 a = true -> 0 < InfAwareNeg a.
Proof.
  intros H0 Ha%in_int64_iff. destruct (InfAwareNeg_sat a) as [-> |[[-> ?]|[-> ?]]]; lia_inf.
Qed.

Lemma BoundFloorDivMod_total a b :
  wf_bound a -> wf_bound b -> min_value b <= max_value b ->
  (exists c, BoundFloorDiv a b = Ok c /\ wf_bound c) /\
  (exists c, BoundFloorMod a b = Ok c /\ wf_bound c).
Proof.
  intros Ha Hb Hle. assert (Hev : wf_bound Everything) by done. destruct Hb as [Hb1 Hb2] eqn:Eb.
  split.
  - unfold BoundFloorDiv.
    destruct (Z.gtb_spec (min_value b) 0); [by apply BoundFloorDivPositiveRHS_total; try lia |].
    destruct (Z.ltb_spec (max_value b) 0); [|eexists; split; done].
    apply BoundFloorDivPositiveRHS_total; try by apply wf_neg.
    + apply InfAwareNeg_pos; [lia | done].
    + apply InfAwareNeg_pos; [lia | done].
  - unfold BoundFloorMod, sub64. destruct (Z.gtb_spec (min_value b) 0); [|eexists; split; done].
    clear Eb. apply in_int64_iff in Hb2. rewrite checked_in by lia64. cbn [bind].
    destruct Ha as [Ha1 Ha2]. apply in_int64_iff in Ha2.
    unfold is_non_negative. destruct (min_value a >=? 0); eexists; (split; [done |]);
      split; simpl; try done; apply in_int64_iff; lia64.
Qed.

Lemma BoundMul_64 a b : wf_bound a -> wf_bound b -> wf_bound (BoundMul a b).
Proof.
  intros [] []. unfold BoundMul, wf_bound. cbn [min_value max_value].
  split; repeat (apply in_int64_minmax); by apply InfAwareMul_64.
Qed.

Lemma BoundCast_64 a dt : wf_bound a -> wf_bound (BoundCast a dt).
Proof.
  intros Ha. unfold BoundCast. destruct (negb _); [done |].
  pose proof (GetBit_bounds dt). destruct (_ || _) eqn:E; [done |]. bool_to_prop. cbv zeta.
  destruct (_ || _); [|done]. unfold wf_bound. rewrite !in_int64_iff. cbn [min_value max_value].
  pose proof (Z.pow_le_mono_r 2 (GetBit dt) 63). pose proof (Z.pow_le_mono_r 2 (GetBit dt - 1) 63).
  assert (0 <= 2 ^ (GetBit dt - 1)) by (apply Z.pow_nonneg; lia).
  assert (0 < 2 ^ GetBit dt) by (apply Z.pow_pos_nonneg; lia).
  destruct (IsUnsignedInt dt); lia64.
Qed.

Lemma BoundPow_total a b :
  wf_bound a -> wf_bound b -> exists c, BoundPow a b = Ok c /\ wf_bound c.
Proof.
  intros [Ha1 Ha2] [Hb1 Hb2]. unfold BoundPow, is_non_negative.
  destruct (_ || _) eqn:Hc; [eexists; split; done |]. bool_to_prop.
  destruct (_ =? 0); [eexists; split; done |]. destruct (_ =? 1); [eexists; split; done |].
  destruct (Z.geb_spec (min_value a) 0); [|eexists; split; done].
  destruct (InfAwarePow_total (min_value a) (min_value b)) as (p & -> & ?); try done.
  destruct (InfAwarePow_total (max_value a) (min_value b)) as (q & -> & ?); try done.
  eexists. split; done.
Qed.

Lemma BoundPreservesDtype_total b e dt :
  is_ok (GetScalarDtype e) = true ->
  exists p, BoundPreservesDtype b e dt = Ok p /\ (p = true -> min_value b <= max_value b).
Proof.
  intros He. unfold BoundPreservesDtype. destruct (Z.gtb_spec (min_value b) (max_value b)); [by eexists |].
  destruct (is_everything b); [by eexists |].
  destruct (GetScalarDtype e); [|done]. simpl. by eexists.
Qed.

Lemma Visit_div_total k l r dt a b :
  k = KFloorDiv \/ k = KFloorMod -> wf_bound a -> wf_bound b ->
  is_ok (GetScalarDtype l) && is_ok (GetScalarDtype r) = true ->
  exists c, VisitBinary k l r dt a b = Ok c /\ wf_bound c.
Proof.
  intros Hk Ha Hb [Hl Hr]%andb_true_iff.
  destruct (BoundPreservesDtype_total a l dt Hl) as (p & Hp & _).
  destruct (BoundPreservesDtype_total b r dt Hr) as (q & Hq & Hle).
  assert (Hev : wf_bound Everything) by done.
  destruct Hk as [-> | ->]; cbn [VisitBinary]; rewrite Hp; simpl;
    (destruct p; [|eexists; split; done]); rewrite Hq; simpl;
    (destruct q; [|eexists; split; done]);
    destruct (BoundFloorDivMod_total a b Ha Hb (Hle eq_refl)); done.
Qed.

Lemma VisitBinary_total k l r dt a b :
  wf_bound a -> wf_bound b -> analyzable (Binary k l r dt) = true ->
  exists c, VisitBinary k l r dt a b = Ok c /\ wf_bound c.
Proof.
  intros Ha Hb He. assert (Hev : wf_bound Everything) by done. assert (Hbo : wf_bound (MkBound 0 1)) by done.
  destruct Ha as [Ha1 Ha2] eqn:Ea, Hb as [Hb1 Hb2] eqn:Eb. clear Ea Eb.
  cbn [analyzable] in He. apply andb_true_iff in He as [_ He].
  destruct k; cbn [VisitBinary]; try done; try (eexists; split; done).
  - eexists. split; [done |]. split; by apply InfAwareAdd_64.
  - eexists. split; [done |]. destruct (wf_neg _ Hb). split; by apply InfAwareAdd_64.
  - eexists. split; [done |]. by apply BoundMul_64.
  - apply (Visit_div_total KFloorDiv l r dt a b); auto.
  - apply (Visit_div_total KFloorMod l r dt a b); auto.
  - eexists. split; [done |]. split; by apply in_int64_minmax.
  - eexists. split; [done |]. split; by apply in_int64_minmax.
  - by apply BoundPow_total.
  - destruct (_ && _); eexists; (split; [done |]); split; simpl; try done. by apply in_int64_minmax.
  - destruct (_ && _); eexists; (split; [done |]); split; simpl; try done;
      [by apply in_int64_minmax | by apply InfAwareAdd_64].
Qed.

(** On expressions without float literals, and bound maps of int64_t bounds whose
    shifts stay defined, the bound analyzer always returns, without undefined behaviour, a
    bound whose limits are int64_t; in particular the loop of InfAwarePow ends within its
    fuel. *)
Theorem bound_total m e :
  (forall id b, m !! id = Some b -> wf_bound b) -> wf e = true -> analyzable e = true ->
  exists b, VisitExpr m e = Ok b /\ wf_bound b.
Proof.
  intros Hm. assert (Hev : wf_bound Everything) by done.
  induction e as [iter id ty|z dt|f dt|t|k l IHl r IHr dt|k e IH dt|k id ty];
    intros Hw Ha; cbn [VisitExpr].
  - eexists. split; [done |]. unfold bound_of. destruct (m !! id) eqn:E; [by eapply Hm | done].
  - eexists. split; [done |]. by destruct (ConstIntFitsDtype z dt).
  - done.
  - eexists. split; [done |]. by destruct t.
  - cbn [wf] in Hw. apply andb_true_iff in Hw as [Hwl Hwr].
    pose proof Ha as Ha'. cbn [analyzable] in Ha'. bool_to_prop.
    destruct (IHl Hwl ltac:(done)) as (a & -> & Hwa). destruct (IHr Hwr ltac:(done)) as (b & -> & Hwb).
    destruct (visits_operands k l r dt).
    + by apply VisitBinary_total.
    + eexists. split; [done |]. by destruct k.
  - destruct (IH Hw Ha) as (a & Ea & Hwa). rewrite Ea. pose proof (wf_neg a Hwa) as Hn.
    destruct k; cbn [bind]; (eexists; split; [done |]); try done.
    + unfold BoundAbs. destruct (_ >=? _); [done |]. destruct (_ <=? _); [done |].
      split; [done |]. destruct Hwa, Hn. by apply in_int64_minmax.
    + by apply BoundCast_64.
  - destruct k as [| |op| | |]; (eexists; split; [done |]); try done.
    unfold BoundFromOpSemantics. repeat case_match; done.
Qed.

(** ** Undefined behaviour

    Contradictory scopes leave an empty interval behind, which is what dead
    code is analysed under; the shift visitors then shift by its lower end. *)

Definition dead_shift : expr :=
  Binary KBitShiftRight (ConstInt 1 INDEX) (Var false 1 (Some INDEX)) INDEX.
Definition dead_scope : expr :=
  Binary KAnd (Binary KGe (Var false 1 (Some INDEX)) (ConstInt 100 INDEX) BOOL)
              (Binary KLe (Var false 1 (Some INDEX)) (ConstInt 5 INDEX) BOOL) BOOL.

(** Finding: in a contradictory scope the empty interval passes the guards of the shift
    visitors with a shift count outside [0, 63], and the shift is undefined behaviour. *)
Theorem dead_scope_shift_undefined :
  exists m recovery, EnterConstraint ∅ dead_scope = Ok (m, recovery) /\
    VisitExpr m dead_shift = Err UndefinedBehaviour.
Proof. eexists _, _. split; vm_compute; reflexivity. Qed.

(** Finding: the ConstFloat visitor casts a double outside int64_t to int64_t, which is
    undefined behaviour. *)
Theorem BoundConstFloat_undefined :
  BoundConstFloat (S754_finite false 1 63) = Err UndefinedBehaviour /\
  BoundConstFloat (S754_finite true 1 64) = Err UndefinedBehaviour.
Proof. split; vm_compute; reflexivity. Qed.

(** ** Instances *)

Definition scope_env : Env := {| var_val := fun _ => VInt 3; leaf_val := fun _ => VInt 0 |}.
Definition scope_map : BoundMap := {[ 1%positive := MkBound 0 7 ]}.

Lemma scope_map_ok : env_ok scope_map scope_env.
Proof.
  intros id b. unfold scope_map. rewrite lookup_singleton_Some. intros [_ <-].
  unfold in_bound. simpl. lia.
Qed.

Definition scope_expr : expr :=
  Binary KFloorDiv (Binary KAdd (Var false 1 (Some INDEX)) (ConstInt 9 INDEX) INDEX)
         (ConstInt 4 INDEX) INDEX.



Lemma bound_constraint_sound_witness :
  env_ok {[ 1%positive := MkBound 0 4 ]} scope_env.
Proof.
  apply (bound_constraint_sound scope_map scope_env
           (Binary KLt (Var false 1 (Some INDEX)) (ConstInt 5 INDEX) BOOL)
           {[ 1%positive := MkBound 0 4 ]} [(1%positive, MkBound 0 7)]);
    [apply scope_map_ok | repeat split | reflexivity | reflexivity].
Defined.

Lemma bound_constraint_recover_witness :
  bound_of (Recover {[ 1%positive := MkBound 2 4 ]}
              [(1%positive, MkBound 0 4); (1%positive, MkBound 0 7)]) 1 = MkBound 0 7.
Proof.
  apply (bound_constraint_recover scope_map
           (Binary KAnd (Binary KLt (Var false 1 (Some INDEX)) (ConstInt 5 INDEX) BOOL)
              (Binary KGt (Var false 1 (Some INDEX)) (ConstInt 1 INDEX) BOOL) BOOL)).
  reflexivity.
Defined.

Lemma bound_total_witness :
  exists b, VisitExpr scope_map scope_expr = Ok b /\ wf_bound b.
Proof.
  apply bound_total; [|reflexivity|reflexivity].
  intros id b. unfold scope_map. rewrite lookup_singleton_Some. by intros [_ <-].
Defined.
