(* ===== verification/ModularSet.v ===== *)
(** * Modular sets ([src/ir/arith/modular_set.cpp])

    [{coeff, base}] stands for the integers [coeff * k + base]; propagation
    over expressions, intersection by the Chinese Remainder Theorem, and the
    constraints that refine a variable's set. *)

From Stdlib Require Import ZArith Lia Bool List String.
From stdpp Require Import base gmap list option.
From S2P Require Import Prelude Dtype IntOps ScalarExpr ConstFold ConstIntBound.

(** ** Entries *)

Record Entry := MkEntry { coeff : Z; base : Z }.

#[export] Instance Entry_eq_dec : EqDecision Entry.
Proof. solve_decision. Defined.

(** The constructor [Entry(c, b)]. *)
Definition new_entry (c b : Z) : result Entry :=
  let* (c, b) := if c <? 0 then
                   let* c := neg64 c in let* b := neg64 b in Ok (c, b)
                 else Ok (c, b) in
  if negb (c =? 0) then
    let* b := rem64 b c in
    let* b := if b <? 0 then add64 b c else Ok b in
    Ok (MkEntry c b)
  else Ok (MkEntry c b).

Definition entry_is_const (e : Entry) : bool := coeff e =? 0.

Definition Everything : Entry := MkEntry 1 0.

Definition Union (a b : Entry) : result Entry :=
  let* c := ZeroAwareGCD (coeff a) (coeff b) in
  if c =? 0 then Ok (if base a =? base b then a else Everything)
  else
    let* base0 := rem64 (base a) c in
    let* base1 := rem64 (base b) c in
    if base0 =? base1 then new_entry c base0
    else
      let* d := sub64 base0 base1 in
      let* d := abs64 d in
      let* g := ZeroAwareGCD c d in
      new_entry g base0.

Definition Intersect (a b : Entry) : result Entry :=
  let c1 := coeff a in let b1 := base a in let c2 := coeff b in let b2 := base b in
  let* (gcd, x, y) := ExtendedEuclidean c1 c2 in
  let* v := sub64 b2 b1 in
  let* divides := if gcd =? 0 then Ok false else let* r := rem64 v gcd in Ok (r =? 0) in
  if divides : bool then
    let* q := div64 v gcd in
    let* x := mul64 q x in
    let* c := div64 c1 gcd in
    let* c := mul64 c c2 in
    let* xc := mul64 x c1 in
    let* b := add64 xc b1 in
    new_entry c b
  else Ok Everything.

(** ** Visitors *)

Definition FloorDivByConst (a : Entry) (val : Z) : result Entry :=
  let* _ := require (negb (val =? 0)) InternalError in
  let* r := rem64 (coeff a) val in
  if r =? 0 then
    if base a =? 0 then
      let* q := div64 (coeff a) val in
      let* q := abs64 q in
      new_entry q 0
    else if (base a >? 0) && (val >? 0) then
      let* q := div64 (coeff a) val in
      let* b := div64 (base a) val in
      new_entry q b
    else Ok Everything
  else Ok Everything.

Definition FloorModByConst (a : Entry) (val : Z) : result Entry :=
  let* _ := require (negb (val =? 0)) InternalError in
  let* c := ZeroAwareGCD (coeff a) val in
  if base a >=? 0 then
    let* b := rem64 (base a) c in
    new_entry c b
  else Ok Everything.

Definition VisitMul (a b : Entry) : result Entry :=
  if MulWouldOverflow (base a) (base b) then Ok Everything
  else if MulWouldOverflow (coeff a) (coeff b) || MulWouldOverflow (coeff a) (base b)
          || MulWouldOverflow (base a) (coeff b) then Ok Everything
  else
    let* pq := mul64 (coeff a) (coeff b) in
    let* pm := mul64 (coeff a) (base b) in
    let* qn := mul64 (base a) (coeff b) in
    let* g := ZeroAwareGCD pm qn in
    let* g := ZeroAwareGCD pq g in
    let* nm := mul64 (base a) (base b) in
    new_entry g nm.

(** [var_map_]. *)
Abbreviation EntryMap := (gmap positive Entry).

Definition entry_of (m : EntryMap) (id : positive) : Entry := default Everything (m !! id).

Fixpoint VisitExpr (m : EntryMap) (e : expr) : result Entry :=
  match e with
  | ConstInt v _ => new_entry 0 v
  | ConstBool b => new_entry 0 (Z.b2z b)
  | Var _ id _ => Ok (entry_of m id)
  | ConstFloat _ _ | Leaf _ _ _ => Ok Everything
  | Binary KAdd l r _ =>
      let* a := VisitExpr m l in
      let* b := VisitExpr m r in
      if AddWouldOverflow (base a) (base b) then Ok Everything
      else
        let* c := ZeroAwareGCD (coeff a) (coeff b) in
        let* s := add64 (base a) (base b) in
        new_entry c s
  | Binary KSub l r _ =>
      let* a := VisitExpr m l in
      let* b := VisitExpr m r in
      if SubWouldOverflow (base a) (base b) then Ok Everything
      else
        let* c := ZeroAwareGCD (coeff a) (coeff b) in
        let* s := sub64 (base a) (base b) in
        new_entry c s
  | Binary KMul l r _ =>
      let* a := VisitExpr m l in
      let* b := VisitExpr m r in
      VisitMul a b
  | Binary KFloorDiv l r _ =>
      let* b := VisitExpr m r in
      if entry_is_const b && negb (base b =? 0) then
        let* a := VisitExpr m l in FloorDivByConst a (base b)
      else Ok Everything
  | Binary KFloorMod l r _ =>
      let* b := VisitExpr m r in
      if entry_is_const b && negb (base b =? 0) then
        let* a := VisitExpr m l in FloorModByConst a (base b)
      else Ok Everything
  | Binary KMin l r _ | Binary KMax l r _ =>
      let* a := VisitExpr m l in
      let* b := VisitExpr m r in
      Union a b
  | Binary KBitAnd l r _ =>
      let* b := VisitExpr m r in
      if entry_is_const b && (base b >? 0) then
        let mask := base b in
        let* mask1 := add64 mask 1 in
        if Z.land mask mask1 =? 0 then
          let* a := VisitExpr m l in FloorModByConst a mask1
        else Ok Everything
      else Ok Everything
  | Binary KBitShiftLeft l r _ =>
      let* b := VisitExpr m r in
      if entry_is_const b && (base b >=? 0) && (base b <? 63) then
        let* a := VisitExpr m l in
        let multiplier := Z.shiftl 1 (base b) in
        if MulWouldOverflow (coeff a) multiplier || MulWouldOverflow (base a) multiplier then
          Ok Everything
        else
          let* c := mul64 (coeff a) multiplier in
          let* g := ZeroAwareGCD 0 c in
          let* s := mul64 (base a) multiplier in
          new_entry g s
      else Ok Everything
  | Binary KBitShiftRight l r _ =>
      let* b := VisitExpr m r in
      if entry_is_const b && (base b >=? 0) && (base b <? 63) then
        let* a := VisitExpr m l in FloorDivByConst a (Z.shiftl 1 (base b))
      else Ok Everything
  | Binary _ _ _ _ => Ok Everything
  | Unary KNeg e _ =>
      let* a := VisitExpr m e in
      let* n := neg64 (base a) in
      new_entry (coeff a) n
  | Unary KCast e _ => VisitExpr m e
  | Unary _ _ _ => Ok Everything
  end.

(** [ModularSetAnalyzer::Update] and [Unbind]. *)
Definition Update (m : EntryMap) (id : positive) (c b : Z) : result EntryMap :=
  let* _ := require (c >=? 0) CheckFailed in
  let* e := new_entry c b in
  Ok (<[id := e]> m).

Definition Unbind (m : EntryMap) (id : positive) : EntryMap := delete id m.

(** ** Constraints *)

(** The refined map, with the variable and the set it had before: what the
    recovery function captures. *)
Definition UpdateByIntersect (m : EntryMap) (id : positive) (e : Entry)
    : result (EntryMap * (positive * Entry)) :=
  let old := entry_of m id in
  let* n := Intersect old e in
  Ok (<[id := n]> m, (id, old)).

(** The variable and the set a constraint speaks of: [floormod(var, c) == b],
    [var == c], [c == var]. *)
Definition parse_constraint (e : expr) : option (positive * Z * Z) :=
  match e with
  | Binary KEq l r _ =>
      match l, as_int r with
      | Binary KFloorMod (Var false id _) (ConstInt c _) _, Some (b, _) => Some (id, c, b)
      | _, _ =>
          match as_var l, as_int r with
          | Some (id, _), Some (c, _) => Some (id, 0, c)
          | _, _ =>
              match as_int l, as_var r with
              | Some (c, _), Some (id, _) => Some (id, 0, c)
              | _, _ => None
              end
          end
      end
  | _ => None
  end.

(** [None] for a constraint that refines nothing ([nullptr]). *)
Definition EnterConstraint (m : EntryMap) (e : expr)
    : result (option (EntryMap * (positive * Entry))) :=
  match parse_constraint e with
  | Some (id, c, b) =>
      let* en := new_entry c b in
      let* s := UpdateByIntersect m id en in
      Ok (Some s)
  | None => Ok None
  end.

Definition Recover (m : EntryMap) (saved : positive * Entry) : EntryMap :=
  let '(id, old) := saved in
  if (coeff old =? 1) && (base old =? 0) then delete id m else <[id := old]> m.

(** ** Soundness *)

Definition in_entry (e : Entry) (z : Z) : Prop := (coeff e | z - base e).

(** [coeff >= 0], and [base] is normalized. *)
Definition wf_entry (e : Entry) : Prop :=
  0 <= coeff e <= INT64_MAX /\ in_int64 (base e) = true /\ (0 < coeff e -> 0 <= base e < coeff e).

Lemma entry_in_Everything z : in_entry Everything z.
Proof. exists z. simpl. lia. Qed.

Lemma wf_Everything : wf_entry Everything.
Proof. split_and!; simpl; (lia64 || done || lia). Qed.

(** The constructor normalizes the base within its residue class; a negative
    coefficient moves it to the opposite class. *)
Lemma new_entry_spec c b e :
  in_int64 c = true -> in_int64 b = true -> new_entry c b = Ok e ->
  wf_entry e /\ coeff e = Z.abs c /\ (c | (if c <? 0 then - b else b) - base e).
Proof.
  intros Hc Hb. unfold new_entry. intros H. apply bind_ok in H as ([c' b'] & H1 & H2).
  assert (E : c' = Z.abs c /\ b' = (if c <? 0 then - b else b) /\ in_int64 b' = true /\ in_int64 c' = true).
  { destruct (Z.ltb_spec c 0); inv_ok.
    - apply checked_in64 in E as ?, E0 as ?. apply checked_ok in E as [-> _], E0 as [-> _].
      split_and!; (done || lia).
    - split_and!; (done || lia). }
  destruct E as (-> & Hb' & Hb64 & Hc64). rewrite <- Hb'. clear Hb' H1.
  rewrite in_int64_iff in Hc64.
  destruct (Z.eqb_spec (Z.abs c) 0) as [E0|E0]; cbn [negb] in H2.
  { inv_ok. cbn [coeff base]. split_and!; try done; [split_and!; simpl; (lia64 || done || lia) |].
    exists 0. lia. }
  inv_ok. unfold rem64 in E. destruct (_ || _); [done |]. inv_ok.
  pose proof (Z.rem_bound_abs b' (Z.abs c) E0). pose proof (Z.quot_rem b' (Z.abs c) E0) as Hqr.
  assert (Hr : r0 = Z.rem b' (Z.abs c) \/ r0 = Z.rem b' (Z.abs c) + Z.abs c).
  { destruct (_ <? 0); inv_ok; [apply checked_ok in E1 as [-> _] |]; auto. }
  assert (0 <= r0 < Z.abs c).
  { destruct (Z.ltb_spec (Z.rem b' (Z.abs c)) 0); inv_ok; [apply checked_ok in E1 as [-> _] |]; lia. }
  cbn [coeff base]. split; [split; [simpl; lia64 | split; [apply in_int64_iff; simpl; lia64 | simpl; lia]] |].
  split; [done |].
  apply Z.divide_abs_l. destruct Hr as [-> | ->].
  - exists (Z.quot b' (Z.abs c)). lia.
  - exists (Z.quot b' (Z.abs c) - 1). lia.
Qed.

Lemma new_entry_in c b e z :
  in_int64 c = true -> in_int64 b = true -> 0 <= c -> new_entry c b = Ok e -> (c | z - b) ->
  wf_entry e /\ in_entry e z.
Proof.
  intros Hc Hb H0 He Hz. destruct (new_entry_spec _ _ _ Hc Hb He) as (Hw & Hco & Hd).
  split; [done |]. unfold in_entry. rewrite Hco, Z.abs_eq by done.
  rewrite (proj2 (Z.ltb_ge c 0)) in Hd by done.
  replace (z - base e) with ((z - b) + (b - base e)) by lia. by apply Z.divide_add_r.
Qed.

(** What the entries of two operands mean of their greatest common divisor. *)
Lemma ZeroAwareGCD_divides a b g :
  in_int64 a = true -> in_int64 b = true -> ZeroAwareGCD a b = Ok g ->
  Z.abs g = Z.gcd a b /\ in_int64 g = true /\ (g < 0 -> g = INT64_MIN).
Proof.
  intros Ha Hb. rewrite ZeroAwareGCD_value by done.
  pose proof (Z.gcd_nonneg a b).
  destruct (Z.eqb_spec (Z.gcd a b) (2 ^ 63)) as [E|E].
  - destruct (_ || _); [done |]. intros [= <-]. split_and!; [by rewrite E | done | done].
  - intros [= <-]. split_and!; [lia | | lia].
    apply in_int64_iff in Ha, Hb. apply in_int64_iff.
    destruct (Z.eq_dec a 0) as [-> |].
    + rewrite Z.gcd_0_l in *. lia64.
    + assert (Z.gcd a b <= Z.abs a); [|lia64].
      apply Z.divide_pos_le; [lia |]. apply Z.divide_abs_r, Z.gcd_divide_l.
Qed.

(** A set whose coefficient is a gcd. *)
Lemma new_entry_gcd a b g s e z :
  in_int64 a = true -> in_int64 b = true -> in_int64 s = true ->
  ZeroAwareGCD a b = Ok g -> new_entry g s = Ok e -> (Z.gcd a b | z - s) ->
  wf_entry e /\ in_entry e z.
Proof.
  intros Ha Hb Hs Hg He Hz. destruct (ZeroAwareGCD_divides _ _ _ Ha Hb Hg) as (Habs & H64 & Hneg).
  destruct (Z.lt_ge_cases g 0) as [Hn|Hn].
  - exfalso. rewrite (Hneg Hn) in He.
    assert (new_entry INT64_MIN s = Err UndefinedBehaviour) by reflexivity. congruence.
  - rewrite <- Habs, Z.abs_eq in Hz by done. by apply (new_entry_in g s).
Qed.

Lemma wf_coeff e : wf_entry e -> in_int64 (coeff e) = true.
Proof. intros (H & _ & _). apply in_int64_iff. lia64. Qed.

Lemma wf_base e : wf_entry e -> in_int64 (base e) = true.
Proof. by intros (_ & H & _). Qed.

#[local] Hint Resolve wf_coeff wf_base checked_in64 wf_Everything entry_in_Everything : pypto.

(** Membership, as an equation. *)
Lemma in_entry_eq e z : in_entry e z <-> exists k, z = coeff e * k + base e.
Proof. split; intros [k Hk]; exists k; lia. Qed.

Definition sound_entry (e : Entry) (z : Z) : Prop := wf_entry e /\ in_entry e z.

Lemma sound_Everything z : sound_entry Everything z.
Proof. split; [apply wf_Everything | apply entry_in_Everything]. Qed.

#[local] Hint Resolve sound_Everything : pypto.

Lemma gcd_combine c1 c2 k1 k2 : (Z.gcd c1 c2 | c1 * k1 + c2 * k2).
Proof.
  apply Z.divide_add_r; apply Z.divide_mul_l; [apply Z.gcd_divide_l | apply Z.gcd_divide_r].
Qed.

Lemma rem_divide a c : c <> 0 -> (c | a - Z.rem a c).
Proof. intros Hc. exists (Z.quot a c). pose proof (Z.quot_rem a c Hc). lia. Qed.

Lemma rem64_ok a c r : rem64 a c = Ok r -> c <> 0 /\ r = Z.rem a c.
Proof.
  unfold rem64. destruct (Z.eqb_spec c 0); [done |]. destruct (_ || _); [done |]. by intros [= <-].
Qed.

Lemma div64_ok a c q : div64 a c = Ok q -> c <> 0 /\ q = Z.quot a c /\ in_int64 q = true.
Proof.
  unfold div64. destruct (Z.eqb_spec c 0); [done |]. intros H. apply checked_in64 in H as ?.
  by apply checked_ok in H as [-> _].
Qed.

Lemma rem_in64 a c : in_int64 a = true -> c <> 0 -> in_int64 (Z.rem a c) = true.
Proof.
  rewrite !in_int64_iff. intros Ha Hc. pose proof (Z.quot_rem a c Hc).
  destruct (Z.le_gt_cases 0 a).
  - pose proof (Z.rem_nonneg a c Hc ltac:(done)). pose proof (Z.rem_le a (Z.abs c)).
    rewrite Z.rem_abs_r in * by done. lia64.
  - pose proof (Z.rem_nonpos a c Hc ltac:(lia)). pose proof (Z.rem_le (- a) (Z.abs c)).
    rewrite Z.rem_abs_r, Z.rem_opp_l in * by done. lia64.
Qed.

Lemma Union_sound a b e z :
  wf_entry a -> wf_entry b -> Union a b = Ok e -> in_entry a z \/ in_entry b z -> sound_entry e z.
Proof.
  intros Ha Hb. unfold Union. intros H Hz. inv_ok.
  destruct (ZeroAwareGCD_divides (coeff a) (coeff b) r) as (Habs & H64 & Hneg); eauto with pypto.
  destruct (Z.eqb_spec r 0) as [E0|E0].
  { inv_ok. destruct (Z.eqb_spec (base a) (base b)) as [Eb|]; [|apply sound_Everything].
    symmetry in Habs. simpl in Habs.
    pose proof (Z.gcd_eq_0_l _ _ Habs) as Ca. pose proof (Z.gcd_eq_0_r _ _ Habs) as Cb.
    split; [done |]. destruct Hz as [|Hz]; [done |]. unfold in_entry in *. by rewrite Ca, Eb, <- Cb. }
  inv_ok. apply rem64_ok in E1 as [_ ->], E2 as [_ ->].
  pose proof (rem_divide (base a) r E0) as Da. pose proof (rem_divide (base b) r E0) as Db.
  assert (Hin : (r | z - Z.rem (base a) r) \/ (r | z - Z.rem (base b) r)).
  { destruct Hz as [Hz|Hz]; [left | right].
    - replace (z - Z.rem (base a) r) with ((z - base a) + (base a - Z.rem (base a) r)) by lia.
      apply Z.divide_add_r; [|done]. apply Z.divide_abs_l. rewrite Habs.
      etransitivity; [apply Z.gcd_divide_l | exact Hz].
    - replace (z - Z.rem (base b) r) with ((z - base b) + (base b - Z.rem (base b) r)) by lia.
      apply Z.divide_add_r; [|done]. apply Z.divide_abs_l. rewrite Habs.
      etransitivity; [apply Z.gcd_divide_r | exact Hz]. }
  destruct (Z.eqb_spec (Z.rem (base a) r) (Z.rem (base b) r)) as [Er|Er].
  - apply (new_entry_gcd (coeff a) (coeff b) r (Z.rem (base a) r));
      [by apply wf_coeff | by apply wf_coeff | apply rem_in64; eauto with pypto | done | done |].
    rewrite <- Habs. apply Z.divide_abs_l. destruct Hin; congruence.
  - inv_ok. unfold sub64, abs64 in *. apply checked_in64 in E2 as ?.
    apply checked_ok in E1 as [-> _], E2 as [-> _].
    eapply (new_entry_gcd r (Z.abs (Z.rem (base a) r - Z.rem (base b) r)) _ (Z.rem (base a) r));
      [done | done | apply rem_in64; eauto with pypto | done | done |].
    destruct Hin as [Hin|Hin]; [etransitivity; [apply Z.gcd_divide_l | done] |].
    replace (z - Z.rem (base a) r) with
      ((z - Z.rem (base b) r) + - (Z.rem (base a) r - Z.rem (base b) r)) by lia.
    apply Z.divide_add_r; [etransitivity; [apply Z.gcd_divide_l | done] |].
    apply Z.divide_opp_r, Z.divide_abs_r, Z.gcd_divide_r.
Qed.

Lemma FloorDivByConst_sound a val e z :
  sound_entry a z -> in_int64 val = true -> FloorDivByConst a val = Ok e ->
  sound_entry e (z / val).
Proof.
  intros [Hw Hz] Hv. unfold FloorDivByConst. intros H. inv_ok.
  apply negb_true_iff, Z.eqb_neq in E. apply rem64_ok in E0 as [_ ->].
  destruct (Z.eqb_spec (Z.rem (coeff a) val) 0) as [Er|]; [|inv_ok; apply sound_Everything].
  apply in_entry_eq in Hz as [k Hk]. destruct Hw as (Hc & Hb & Hn).
  pose proof (Z.quot_rem (coeff a) val E) as Hq. rewrite Er, Z.add_0_r in Hq.
  destruct (Z.eqb_spec (base a) 0) as [E0|E0].
  - inv_ok. apply div64_ok in E1 as (_ & -> & ?). unfold abs64 in E2. apply checked_in64 in E2 as ?.
    apply checked_ok in E2 as [-> _].
    apply (new_entry_in (Z.abs (Z.quot (coeff a) val)) 0); try (done || lia).
    rewrite Z.sub_0_r. apply Z.divide_abs_l. exists k.
    rewrite Hk, E0, Z.add_0_r, Hq at 1. symmetry. apply (Z.div_unique_exact); [done |]. lia.
  - destruct (_ && _) eqn:Ep; [|inv_ok; apply sound_Everything]. bool_to_prop. inv_ok.
    apply div64_ok in E1 as (_ & -> & ?), E2 as (_ & -> & ?).
    rewrite (Z.quot_div_nonneg (base a)) in * by lia. rewrite (Z.quot_div_nonneg (coeff a)) in * by lia.
    apply (new_entry_in (coeff a / val) (base a / val)); try done; [apply Z.div_pos; lia |].
    exists k. rewrite Hk, Hq at 1.
    replace (val * (coeff a / val) * k + base a) with (base a + (coeff a / val * k) * val) by lia.
    rewrite Z.div_add by lia. lia.
Qed.

Lemma FloorModByConst_sound a val e z :
  sound_entry a z -> in_int64 val = true -> FloorModByConst a val = Ok e ->
  sound_entry e (z mod val).
Proof.
  intros [Hw Hz] Hv. unfold FloorModByConst. intros H. inv_ok.
  apply negb_true_iff, Z.eqb_neq in E.
  destruct (base a >=? 0); [|inv_ok; apply sound_Everything]. inv_ok.
  apply rem64_ok in E1 as [Hr ->].
  apply (new_entry_gcd (coeff a) val r0 (Z.rem (base a) r0));
    [by apply wf_coeff | done | apply rem_in64; eauto with pypto | done | done |].
  destruct (ZeroAwareGCD_divides (coeff a) val r0) as (Habs & _ & _); eauto with pypto.
  apply in_entry_eq in Hz as [k Hk]. rewrite Z.mod_eq by done.
  replace (z - val * (z / val) - Z.rem (base a) r0)
    with ((coeff a * k + val * - (z / val)) + (base a - Z.rem (base a) r0)) by lia.
  apply Z.divide_add_r; [apply gcd_combine |].
  rewrite <- Habs. apply Z.divide_abs_l. by apply rem_divide.
Qed.

Lemma VisitMul_sound a b e x y :
  sound_entry a x -> sound_entry b y -> VisitMul a b = Ok e -> sound_entry e (x * y).
Proof.
  intros [Ha Hx] [Hb Hy]. unfold VisitMul, mul64. intros H.
  destruct (MulWouldOverflow _ _); [inv_ok; apply sound_Everything |].
  destruct (_ || _ || _); [inv_ok; apply sound_Everything |]. inv_ok.
  apply checked_in64 in E as ?, E0 as ?, E1 as ?, E4 as ?.
  apply checked_ok in E as [-> _], E0 as [-> _], E1 as [-> _], E4 as [-> _].
  destruct (ZeroAwareGCD_divides (coeff a * base b) (base a * coeff b) r2) as (Habs & ? & _); try done.
  apply in_entry_eq in Hx as [k Hk], Hy as [l Hl].
  apply (new_entry_gcd (coeff a * coeff b) r2 r3 (base a * base b)); try done.
  rewrite <- Z.gcd_abs_r, Habs.
  replace (x * y - base a * base b) with
    (coeff a * coeff b * (k * l) + (coeff a * base b * k + base a * coeff b * l)) by (subst; ring).
  apply Z.divide_add_r; [apply Z.divide_mul_l, Z.gcd_divide_l |].
  etransitivity; [apply Z.gcd_divide_r | apply gcd_combine].
Qed.

Definition env_ok (m : EntryMap) (rho : Env) : Prop :=
  forall id e, m !! id = Some e -> sound_entry e (num (var_val rho id)).

Lemma entry_of_sound m rho id : env_ok m rho -> sound_entry (entry_of m id) (num (var_val rho id)).
Proof.
  intros Hm. unfold entry_of. destruct (m !! id) eqn:E; [by apply Hm | apply sound_Everything].
Qed.

Lemma const_entry e z : sound_entry e z -> entry_is_const e = true -> z = base e.
Proof.
  unfold entry_is_const. intros [_ Hz] Hc. bool_to_prop. apply in_entry_eq in Hz as [k ->]. nia.
Qed.

(** [2^k - 1] as a mask takes the remainder by [2^k]. *)
Lemma mask_pow2 mask :
  0 < mask -> Z.land mask (mask + 1) = 0 -> exists k, 0 <= k /\ mask + 1 = 2 ^ k.
Proof.
  intros Hm Hl. exists (Z.log2 (mask + 1)). split; [apply Z.log2_nonneg |].
  destruct (Z.log2_spec (mask + 1) ltac:(lia)) as [Hlo Hhi].
  destruct (Z.eq_dec (mask + 1) (2 ^ Z.log2 (mask + 1))) as [|Hne]; [done | exfalso].
  set (k := Z.log2 (mask + 1)) in *. pose proof (Z.log2_nonneg (mask + 1)).
  assert (Hk : Z.log2 mask = k) by (apply Z.log2_unique; lia).
  assert (Hb : Z.testbit (Z.land mask (mask + 1)) k = true).
  { rewrite Z.land_spec. rewrite <- Hk at 1. rewrite Z.bit_log2 by lia. by apply Z.bit_log2; lia. }
  rewrite Hl, Z.bits_0 in Hb. done.
Qed.

Lemma land_mask x mask k : 0 <= k -> mask + 1 = 2 ^ k -> Z.land x mask = x mod (mask + 1).
Proof.
  intros Hk Hm. rewrite Hm, <- Z.land_ones by done. f_equal. rewrite Z.ones_equiv. lia.
Qed.

(** ** The visitor

    Conversions are taken to keep their value: the visitor passes the
    operand's set through every cast. *)

Lemma add_entries a b r s e x y z :
  sound_entry a x -> sound_entry b y -> ZeroAwareGCD (coeff a) (coeff b) = Ok r ->
  in_int64 s = true -> new_entry r s = Ok e ->
  (exists k l, z - s = coeff a * k + coeff b * l) -> sound_entry e z.
Proof.
  intros [Ha _] [Hb _] Hg Hs He (k & l & Hz).
  apply (new_entry_gcd (coeff a) (coeff b) r s); eauto with pypto. rewrite Hz. apply gcd_combine.
Qed.

Lemma shift_multiplier b : 0 <= b < 63 -> Z.shiftl 1 b = 2 ^ b /\ in_int64 (2 ^ b) = true /\ 0 < 2 ^ b.
Proof.
  intros Hb. rewrite Z.shiftl_mul_pow2, Z.mul_1_l by lia. split; [done |].
  assert (0 < 2 ^ b) by (apply Z.pow_pos_nonneg; lia).
  pose proof (Z.pow_lt_mono_r 2 b 63). split; [apply in_int64_iff; lia64 | done].
Qed.

Lemma ideal_cast_op k dt a b v :
  int_op k ideal_cast dt a b = Some v ->
  match k with
  | KAdd => num v = a + b | KSub => num v = a - b | KMul => num v = a * b
  | KFloorDiv => num v = a / b | KFloorMod => num v = a mod b
  | KMin => num v = Z.min a b | KMax => num v = Z.max a b
  | KBitAnd => num v = Z.land a b
  | KBitShiftLeft => num v = Z.shiftl a b | KBitShiftRight => num v = Z.shiftr a b
  | _ => True
  end.
Proof.
  destruct k; simpl; try done; repeat case_match; intros; inv_eval; subst; try done;
    inv_eval; subst; try done; simpl in *; inv_eval; by subst.
Qed.

Definition int_kind (k : binkind) : bool :=
  match k with
  | KAdd | KSub | KMul | KFloorDiv | KFloorMod | KMin | KMax | KBitAnd | KBitShiftLeft
  | KBitShiftRight => true
  | _ => false
  end.

Lemma binary_ints k S dt v w u :
  int_kind k = true -> binary_sem k S dt v w = Some u -> exists a b, v = VInt a /\ w = VInt b.
Proof. destruct v, w; try (by destruct k); eauto. Qed.

Lemma cast_num dt v u : unary_sem KCast ideal_cast dt v = Some u -> num u = num v.
Proof.
  destruct v as [z|b]; simpl; repeat case_match; intros; inv_eval; subst; try done;
    simpl in *; inv_eval; by subst.
Qed.

Lemma add_combine a b x y :
  sound_entry a x -> sound_entry b y ->
  exists k l, x + y - (base a + base b) = coeff a * k + coeff b * l.
Proof. intros [_ [k Hk]] [_ [l Hl]]. exists k, l. lia. Qed.

Lemma sub_combine a b x y :
  sound_entry a x -> sound_entry b y ->
  exists k l, x - y - (base a - base b) = coeff a * k + coeff b * l.
Proof. intros [_ [k Hk]] [_ [l Hl]]. exists k, (- l). lia. Qed.

Lemma sound_const v e : in_int64 v = true -> new_entry 0 v = Ok e -> sound_entry e v.
Proof. intros Hv He. apply (new_entry_in 0 v); try done. exists 0. lia. Qed.

Lemma binary_entry m k l r dt x y v en :
  int_kind k = true ->
  (forall en, VisitExpr m l = Ok en -> sound_entry en x) -> (forall en, VisitExpr m r = Ok en -> sound_entry en y) ->
  binary_sem k ideal_cast dt (VInt x) (VInt y) = Some v -> VisitExpr m (Binary k l r dt) = Ok en ->
  sound_entry en (num v).
Proof.
  intros Hk Sl Sr Hev Hv. cbn [binary_sem] in Hev. apply ideal_cast_op in Hev.
  destruct k; try done; cbn [VisitExpr] in Hv; rewrite Hev; inv_ok;
    repeat match goal with
    | E : VisitExpr m l = Ok _ |- _ => apply Sl in E
    | E : VisitExpr m r = Ok _ |- _ => apply Sr in E
    end;
    repeat match type of Hv with
    | (if ?b then Ok Everything else _) = _ =>
        destruct b eqn:?; [inv_ok; apply sound_Everything |]
    | (if ?b then _ else Ok Everything) = _ =>
        destruct b eqn:?; [|inv_ok; apply sound_Everything]
    end; bool_to_prop; inv_ok;
    repeat match goal with
    | E : VisitExpr m l = Ok _ |- _ => apply Sl in E
    end;
    repeat match goal with
    | C : entry_is_const ?b = true, S : sound_entry ?b ?y |- _ =>
        pose proof (const_entry b y S C); subst y; clear C
    end.
  - unfold add64 in E2. apply checked_in64 in E2 as ?. apply checked_ok in E2 as [-> _].
    eapply (add_entries r0 r1); try eassumption. by apply add_combine.
  - unfold sub64 in E2. apply checked_in64 in E2 as ?. apply checked_ok in E2 as [-> _].
    eapply (add_entries r0 r1); try eassumption. by apply sub_combine.
  - by eapply VisitMul_sound.
  - destruct E as [Hwb _]. eapply FloorDivByConst_sound; eauto with pypto.
  - destruct E as [Hwb _]. eapply FloorModByConst_sound; eauto with pypto.
  - destruct E, E0. eapply Union_sound; [| |done|]; [done..|].
    destruct (Z.min_spec x y) as [[_ ->]|[_ ->]]; auto.
  - destruct E, E0. eapply Union_sound; [| |done|]; [done..|].
    destruct (Z.max_spec x y) as [[_ ->]|[_ ->]]; auto.
  - unfold add64 in E0. apply checked_in64 in E0 as ?. apply checked_ok in E0 as [-> _].
    destruct (Z.eqb_spec (Z.land (base r0) (base r0 + 1)) 0); inv_ok; [|apply sound_Everything].
    apply Sl in E0. destruct (mask_pow2 (base r0)) as (k & Hk0 & Hmask); [done.. |].
    rewrite (land_mask x _ k) by done. by eapply FloorModByConst_sound.
  - destruct (shift_multiplier (base r0)) as (Hm1 & Hm2 & Hm3); [lia |]. rewrite Hm1 in *.
    destruct (_ || _); inv_ok; [apply sound_Everything |].
    unfold mul64 in *. apply checked_in64 in E1 as ?, E3 as ?.
    apply checked_ok in E1 as [-> _], E3 as [-> _].
    destruct E0 as [Hwx Hx]. apply in_entry_eq in Hx as [q Hq].
    eapply (new_entry_gcd 0 (coeff r1 * 2 ^ base r0) _ (base r1 * 2 ^ base r0));
      [done | done | done | eassumption | eassumption |]. rewrite Z.gcd_0_l.
    apply Z.divide_abs_l. exists q. rewrite Z.shiftl_mul_pow2 by lia. subst x. ring.
  - destruct (shift_multiplier (base r0)) as (Hm1 & Hm2 & Hm3); [lia |]. rewrite Hm1 in *.
    rewrite Z.shiftr_div_pow2 by lia. by eapply FloorDivByConst_sound.
Qed.

Lemma VisitExpr_entry m rho e : forall v en,
  env_ok m rho -> wf e = true -> eval ideal_cast rho e = Some v -> VisitExpr m e = Ok en ->
  sound_entry en (num v).
Proof.
  induction e as [iter id ty|z dt|f dt|t|k l IHl r IHr dt|k e IH dt|k id ty];
    intros v en Hm Hw Hev Hv; cbn [eval wf] in *; try (cbn [VisitExpr] in Hv).
  - simplify_eq. apply (load_bounded ideal_cast) in Hev as ->; [by apply entry_of_sound | apply _].
  - inv_eval. subst. cbn [sem_leaf ideal_cast] in *. simplify_eq. by apply sound_const.
  - done.
  - simplify_eq. apply sound_const; [by destruct t | done].
  - destruct (eval ideal_cast rho l) as [vl|] eqn:El; [|done].
    destruct (eval ideal_cast rho r) as [vr|] eqn:Er; [|done].
    apply andb_true_iff in Hw as [Hwl Hwr].
    destruct (int_kind k) eqn:Hk; [|destruct k; try done; cbn [VisitExpr] in Hv; simplify_eq;
                                     apply sound_Everything].
    destruct (binary_ints _ _ _ _ _ _ Hk Hev) as (x & y & -> & ->).
    apply (binary_entry m k l r dt x y v en Hk); [intros en' | intros en' | done | done];
      [apply (IHl (VInt x)) | apply (IHr (VInt y))]; done.
  - destruct (eval ideal_cast rho e) as [w|] eqn:Ee; [|done].
    destruct k; cbn [VisitExpr] in Hv; inv_ok; try apply sound_Everything.
    + unfold neg64 in E0. apply checked_in64 in E0 as ?. apply checked_ok in E0 as [-> _].
      destruct w as [x|]; [|done]. simpl in Hev. inv_eval. subst. simpl in *. inv_eval. subst.
      destruct (IH (VInt x) r Hm Hw eq_refl E) as [Hwx Hx].
      eapply (new_entry_in (coeff r)); try eassumption; [by apply wf_coeff | by destruct Hwx; lia |].
      destruct Hx as [q Hq]. exists (- q). simpl in *. lia.
    + rewrite (cast_num _ _ _ Hev). eauto.
  - simplify_eq. apply sound_Everything.
Qed.

(** C15: The congruence class (coeff, base) ModularSetAnalyzer computes for an expression
    contains the expression's value, and is normalised (0 <= base < coeff, or coeff = 0 for
    an exact value), for every environment the variable classes describe, where every
    conversion in the expression keeps its value (the reading ideal_cast: integers
    unbounded, left shifts within int64; literals are int64_t). A narrowing conversion that
    changes its operand is excluded: there the class may be wrong (cast_modular_diverges). *)
Theorem modular_sound m rho e v en :
  env_ok m rho -> wf e = true -> eval ideal_cast rho e = Some v -> VisitExpr m e = Ok en ->
  sound_entry en (num v).
Proof. apply VisitExpr_entry. Qed.

(** ** Intersection *)

(** What [ExtendedEuclidean] returns, when it returns. *)
Lemma ExtendedEuclidean_ok a b g x y :
  0 <= a <= INT64_MAX -> 0 <= b <= INT64_MAX ->
  ExtendedEuclidean a b = Ok (g, x, y) -> g = Z.gcd a b /\ a * x + b * y = g.
Proof.
  intros Ha Hb. unfold ExtendedEuclidean.
  rewrite !SafeAbs_spec, !Z.abs_eq by (apply in_int64_iff; lia64) || lia.
  destruct (Z.eq_dec b 0) as [-> |Hb0].
  - simpl. rewrite (proj2 (Z.geb_le a 0)) by lia. intros. inv_ok. simpl in *. simplify_eq.
    rewrite Z.gcd_0_r, Z.abs_eq by lia. lia.
  - destruct (ee_loop_gcd a b) as (px & -> & Hd & _); [lia.. |]. cbn [bind].
    rewrite (proj2 (Z.geb_le a 0)), (proj2 (Z.eqb_neq b 0)) by lia. cbn [bind negb].
    intros. inv_ok. simplify_eq. unfold mul64, sub64 in *.
    repeat match goal with
    | E : checked _ = Ok _ |- _ => apply checked_ok in E as [-> _]
    | E : div64 _ _ = Ok _ |- _ => apply div64_ok in E as (_ & -> & _)
    end. split; [done |].
    destruct Hd as [q Hq]. rewrite Hq, Z.quot_mul by lia. lia.
Qed.

Lemma Intersect_sound a b e z :
  sound_entry a z -> sound_entry b z -> Intersect a b = Ok e -> sound_entry e z.
Proof.
  intros [Ha Hza] [Hb Hzb]. unfold Intersect. intros H.
  apply bind_ok in H as ([[g x] y] & Hee & H). inv_ok.
  destruct (ExtendedEuclidean_ok (coeff a) (coeff b) g x y) as [Hg Hxy];
    [by destruct Ha | by destruct Hb | done |].
  apply Z.eqb_eq in Hg, Hxy.
  match goal with E : sub64 _ _ = Ok _ |- _ => unfold sub64 in E; apply checked_ok in E as [-> _] end.
  set (v := base b - base a) in *.
  destruct (Z.eqb_spec g 0) as [Hg0|Hg0]; inv_ok; [apply sound_Everything |].
  match goal with E : rem64 _ _ = Ok _ |- _ => apply rem64_ok in E as [_ ->] end.
  destruct (Z.eqb_spec (Z.rem v g) 0) as [Er|]; inv_ok; [|apply sound_Everything].
  apply Z.eqb_eq in Hg, Hxy. unfold mul64, add64 in *.
  repeat match goal with
  | E : div64 _ _ = Ok _ |- _ => apply div64_ok in E as (_ & -> & ?)
  | E : checked _ = Ok _ |- _ => let Q := fresh in pose proof (checked_in64 _ _ E) as Q;
                                 apply checked_ok in E as [-> _]
  end.
  pose proof (Z.quot_rem v g Hg0) as Hv. rewrite Er, Z.add_0_r in Hv. set (q := Z.quot v g) in *.
  destruct Ha as (Ha & _ & _), Hb as (Hb & _ & _).
  assert (0 < g) by (pose proof (Z.gcd_nonneg (coeff a) (coeff b)); lia).
  destruct (Z.gcd_divide_l (coeff a) (coeff b)) as [a' Ha']. rewrite <- Hg in Ha'.
  assert (Hq : Z.quot (coeff a) g = a') by (rewrite Ha' at 1; by apply Z.quot_mul).
  rewrite Hq in *.
  apply (new_entry_in (a' * coeff b) (q * x * coeff a + base a)); try done; [nia |].
  (** [z] is congruent to the solution modulo both coefficients, hence modulo
      their least common multiple. *)
  set (t := z - (q * x * coeff a + base a)).
  assert (Da : (coeff a | t)).
  { replace t with ((z - base a) + coeff a * - (q * x)) by (subst t; ring).
    apply Z.divide_add_r; [done | apply Z.divide_factor_l]. }
  assert (Db : (coeff b | t)).
  { replace t with ((z - base b) + coeff b * (q * y)).
    { apply Z.divide_add_r; [done | apply Z.divide_factor_l]. }
    assert (v = q * (coeff a * x + coeff b * y)) by (rewrite Hxy; lia). subst t v. nia. }
  assert (El : a' * coeff b = Z.lcm (coeff a) (coeff b)).
  { unfold Z.lcm. rewrite <- Hg. destruct (Z.gcd_divide_r (coeff a) (coeff b)) as [b' Hb'].
    rewrite <- Hg in Hb'. rewrite Hb' at 2. rewrite Z.div_mul by lia.
    rewrite Z.abs_eq by nia. rewrite Ha' at 1. rewrite Hb' at 1. ring. }
  rewrite El. by apply Z.lcm_least.
Qed.

(** ** Constraint scopes *)

(** The congruence a constraint states holds when its modulus is not negative. *)
Lemma parse_constraint_sound rho e id c b :
  parse_constraint e = Some (id, c, b) -> 0 <= c ->
  eval ideal_cast rho e = Some (VBool true) -> (c | num (var_val rho id) - b).
Proof.
  intros Hp Hc Hev. destruct e as [| | | |k l r dt| |]; try done. destruct k; try done.
  apply eval_binary_inv in Hev as (vl & vr & Hl & Hr & Hs).
  destruct vl as [x|], vr as [y|]; try done. simpl in Hs. inv_eval.
  match goal with E : true = _ |- _ => symmetry in E; apply Z.eqb_eq in E; subst y end.
  assert (Hlit : forall e v d z, as_int e = Some (v, d) -> eval ideal_cast rho e = Some (VInt z) -> z = v).
  { intros ? ? ? ? ->%as_int_some [[= ->] _]%eval_ConstInt; done || apply _. }
  assert (Hvar : forall e i d z, as_var e = Some (i, d) -> eval ideal_cast rho e = Some (VInt z) ->
    z = num (var_val rho i)).
  { intros ? ? ? ? ->%as_var_some Hz. simpl in Hz.
    apply (load_bounded ideal_cast) in Hz; [by rewrite <- Hz | apply _]. }
  assert (Hgen : match as_var l, as_int r with
      | Some (id, _), Some (c, _) => Some (id, 0, c)
      | _, _ => match as_int l, as_var r with
                | Some (c, _), Some (id, _) => Some (id, 0, c) | _, _ => None end
      end = Some (id, c, b) -> (c | num (var_val rho id) - b)).
  { destruct (as_var l) as [[i ty]|] eqn:Evl, (as_int r) as [[w d]|] eqn:Eir;
      [intros [= -> <- <-]; exists 0; rewrite <- (Hvar _ _ _ _ Evl Hl), <- (Hlit _ _ _ _ Eir Hr); lia
      | | |];
      (destruct (as_int l) as [[w' d']|] eqn:Eil; [|done]);
      (destruct (as_var r) as [[i' ty']|] eqn:Evr; [|done]);
      intros [= -> <- <-]; exists 0; rewrite <- (Hvar _ _ _ _ Evr Hr), <- (Hlit _ _ _ _ Eil Hl); lia. }
  cbn [parse_constraint] in Hp.
  destruct l as [| | | |k' l1 l2 dt'| |]; try (by apply Hgen).
  destruct k'; try (by apply Hgen). destruct l1 as [[]| | | | | |]; try (by apply Hgen).
  destruct l2; try (by apply Hgen).
  destruct (as_int r) as [[w d]|] eqn:Eir; [|by apply Hgen]. simplify_eq.
  rewrite <- (Hlit _ _ _ _ Eir Hr).
  apply eval_binary_inv in Hl as (vl & vr & Hl1 & Hl2 & Hm).
  apply eval_ConstInt in Hl2 as (-> & _ & _); [|apply _].
  destruct vl as [u|]; [|done]. rewrite <- (Hvar (Var false id ty) _ _ _ eq_refl Hl1).
  simpl in Hm. destruct (Z.eqb_spec c 0); [done |]. inv_eval. simpl in *. inv_eval. subst.
  exists (u / c). rewrite Z.mod_eq by done. lia.
Qed.

Lemma parse_constraint_wf e id c b :
  wf e = true -> parse_constraint e = Some (id, c, b) -> in_int64 c = true /\ in_int64 b = true.
Proof.
  assert (Hlit : forall e v d, as_int e = Some (v, d) -> wf e = true -> in_int64 v = true)
    by (intros ? ? ?; apply literal_wf).
  destruct e as [| | | |k l r dt| |]; try done. destruct k; try done.
  cbn [wf parse_constraint]. rewrite andb_true_iff. intros [Hl Hr] Hp.
  repeat case_match; simplify_eq; cbn [wf as_int] in *; bool_to_prop; simplify_eq;
    eauto.
Qed.

Lemma EnterConstraint_entries m rho e id c b m' saved old :
  env_ok m rho -> wf e = true -> eval ideal_cast rho e = Some (VBool true) ->
  parse_constraint e = Some (id, c, b) -> 0 <= c ->
  EnterConstraint m e = Ok (Some (m', (saved, old))) ->
  env_ok m' rho /\ sound_entry old (num (var_val rho saved)).
Proof.
  intros Hm Hw Hev Hp Hc. unfold EnterConstraint. rewrite Hp. intros H. inv_ok. simplify_eq.
  unfold UpdateByIntersect in *. inv_ok. simplify_eq. split; [|by apply entry_of_sound].
  destruct (parse_constraint_wf _ _ _ _ Hw Hp) as [Hc64 Hb64].
  pose proof (parse_constraint_sound _ _ _ _ _ Hp Hc Hev) as Hd.
  destruct (new_entry_in _ _ _ _ Hc64 Hb64 Hc ltac:(eassumption) Hd) as [Hwe Hie].
  intros i e'. destruct (decide (saved = i)) as [<-|].
  - rewrite lookup_insert_eq. intros [= <-]. eapply Intersect_sound; [by apply entry_of_sound | | done].
    by split.
  - rewrite lookup_insert_ne by done. apply Hm.
Qed.

(** Entering a constraint floormod(x, c) == b with positive c, or x == c, keeps the
    class map true: the intersected class of x contains its value in every environment where
    the constraint holds. *)
Theorem modular_constraint_sound m rho e id c b m' saved :
  env_ok m rho -> wf e = true -> eval ideal_cast rho e = Some (VBool true) ->
  parse_constraint e = Some (id, c, b) -> 0 <= c ->
  EnterConstraint m e = Ok (Some (m', saved)) -> env_ok m' rho.
Proof.
  destruct saved as [id' old]. intros Hm Hw Hev Hp Hc He.
  by destruct (EnterConstraint_entries m rho e id c b m' id' old Hm Hw Hev Hp Hc He).
Qed.

Lemma Recover_entries m e m' saved :
  EnterConstraint m e = Ok (Some (m', saved)) ->
  forall id, entry_of (Recover m' saved) id = entry_of m id.
Proof.
  unfold EnterConstraint, UpdateByIntersect. destruct (parse_constraint e) as [[[i c] b]|]; [|done].
  intros H id. inv_ok. simplify_eq. unfold Recover, entry_of.
  destruct (_ && _) eqn:Ev.
  - bool_to_prop. destruct (decide (i = id)) as [<-|].
    + rewrite lookup_delete_eq. unfold entry_of in *. destruct (m !! i) as [[? ?]|]; simpl in *; by subst.
    + by rewrite lookup_delete_ne, lookup_insert_ne.
  - destruct (decide (i = id)) as [<-|].
    + by rewrite lookup_insert_eq.
    + by rewrite !lookup_insert_ne.
Qed.

(** The recovery function of ModularSetAnalyzer's EnterConstraint restores the class of
    every variable. *)
Theorem modular_constraint_recover m e m' saved :
  EnterConstraint m e = Ok (Some (m', saved)) ->
  forall id, entry_of (Recover m' saved) id = entry_of m id.
Proof. apply Recover_entries. Qed.

(** ** Divergences

    A negative modulus flips the residue class, so the set recorded under
    [floormod(x, -3) == -1] excludes the value 2 that satisfies it. *)

Definition flip_constraint : expr :=
  Binary KEq (Binary KFloorMod (Var false 1 (Some INDEX)) (ConstInt (-3) INDEX) INDEX)
             (ConstInt (-1) INDEX) BOOL.
Definition flip_env : Env := {| var_val := fun _ => VInt 2; leaf_val := fun _ => VInt 0 |}.

(** Finding: floormod(x, -3) == -1 at x = 2 is entered as the class 1 modulo 3 (the
    constructor negates base and coefficient), which does not contain 2. *)
Theorem EnterConstraint_negative_modulus :
  eval ideal_cast flip_env flip_constraint = Some (VBool true) /\
  exists m saved, EnterConstraint ∅ flip_constraint = Ok (Some (m, saved)) /\
    ~ in_entry (entry_of m 1) (num (var_val flip_env 1)).
Proof.
  split; [reflexivity |]. eexists _, _. split; [vm_compute; reflexivity |].
  intros [k Hk]. vm_compute in Hk. destruct k as [|p|p]; try done; destruct p; done.
Qed.

(** A narrowing conversion changes the residue class at machine width: 8 divides
    by 5, but [uint4(20)] is 4. *)
Definition narrow_cast : expr := Unary KCast (Binary KMul (Var false 1 (Some INDEX))
                                                (ConstInt 5 INDEX) INDEX) UINT4.
Definition narrow_env : Env := {| var_val := fun _ => VInt 4; leaf_val := fun _ => VInt 0 |}.

(** Finding: the Cast visitor passes the operand's class through a narrowing
    conversion, so a wrapped value falls outside the class reported for it. *)
Theorem cast_modular_diverges :
  eval ideal narrow_env narrow_cast = Some (VInt 4) /\
  exists e, VisitExpr ∅ narrow_cast = Ok e /\ ~ in_entry e 4.
Proof.
  split; [reflexivity |]. eexists. split; [vm_compute; reflexivity |].
  intros [k Hk]. simpl in Hk. lia.
Qed.

(** ** Instances *)

Definition mod_env : Env := {| var_val := fun _ => VInt 10; leaf_val := fun _ => VInt 0 |}.
Definition mod_map : EntryMap := {[ 1%positive := MkEntry 4 2 ]}.

Lemma mod_map_ok : env_ok mod_map mod_env.
Proof.
  intros id e. unfold mod_map. rewrite lookup_singleton_Some. intros [_ <-].
  split; [split_and!; simpl; (lia64 || done || lia) | exists 2; done].
Qed.

Lemma modular_sound_witness : sound_entry (MkEntry 12 9) 33.
Proof.
  apply (modular_sound mod_map mod_env
    (Binary KAdd (Binary KMul (Var false 1 (Some INDEX)) (ConstInt 3 INDEX) INDEX)
                 (ConstInt 3 INDEX) INDEX) (VInt 33));
    [apply mod_map_ok | reflexivity | reflexivity | vm_compute; reflexivity].
Defined.

Definition mod_constraint : expr :=
  Binary KEq (Binary KFloorMod (Var false 1 (Some INDEX)) (ConstInt 6 INDEX) INDEX)
             (ConstInt 4 INDEX) BOOL.

Lemma modular_constraint_sound_witness : env_ok {[ 1%positive := MkEntry 12 10 ]} mod_env.
Proof.
  apply (modular_constraint_sound mod_map mod_env mod_constraint 1 6 4 _ (1%positive, MkEntry 4 2));
    [apply mod_map_ok | reflexivity | reflexivity | reflexivity | lia | vm_compute; reflexivity].
Defined.

Lemma modular_constraint_recover_witness :
  entry_of (Recover {[ 1%positive := MkEntry 12 10 ]} (1%positive, MkEntry 4 2)) 1 = MkEntry 4 2.
Proof.
  apply (modular_constraint_recover mod_map mod_constraint). vm_compute. reflexivity.
Defined.
