(* ===== verification/PatternMatch.v ===== *)
(** * Expression patterns ([include/pypto/ir/arith/pattern_match.h])

    Patterns as data, matching with capture, and the evaluation of a pattern
    back to an expression. *)

From Stdlib Require Import ZArith Lia Bool List.
From stdpp Require Import base list option.
From S2P Require Import Prelude Dtype IntOps ScalarExpr ConstFold.

(** ** Patterns

    [PX] is [PVar<ExprPtr>], [PC] is [PVar<ConstIntPtr>], [PBin] and [PUn] are
    [PBinaryExpr] and [PUnaryExpr], [PLike ref v] is [PConstWithTypeLike], and
    [PLit] is [PExprLiteral]. *)
Inductive pat :=
  | PX (i : nat)
  | PC (i : nat)
  | PBin (k : binkind) (a b : pat)
  | PUn (k : unkind) (a : pat)
  | PLike (ref : pat) (value : Z)
  | PLit (e : expr).

(** The captured values: [value_] and [filled_] of the pattern variables. *)
Record Binds := MkBinds {
  bx : nat -> option expr;
  bc : nat -> option (Z * DataType)
}.

Definition no_binds : Binds := MkBinds (fun _ => None) (fun _ => None).

Definition fill_x (b : Binds) (i : nat) (e : expr) : Binds :=
  MkBinds (fun j => if (j =? i)%nat then Some e else bx b j) (bc b).
Definition fill_c (b : Binds) (i : nat) (c : Z * DataType) : Binds :=
  MkBinds (bx b) (fun j => if (j =? i)%nat then Some c else bc b j).

Section Matching.
Context `{PtrEq} `{Libm}.

(** [PEqualChecker<ConstIntPtr>] and [PEqualChecker<ExprPtr>]: identity, then
    the value of literals, then structural equality. *)
Definition PEqualConst (a b : Z * DataType) : bool := (a.1 =? b.1) && dtype_eqb a.2 b.2.

Definition PEqual (a b : expr) : bool :=
  same a b ||
  match a, b with
  | ConstInt v d, ConstInt w e => PEqualConst (v, d) (w, e)
  | ConstBool v, ConstBool w => Bool.eqb v w
  | _, _ => bool_decide (a = b)
  end.

(** [Match_]. *)
Fixpoint Match_ (p : pat) (value : expr) (b : Binds) : option Binds :=
  match p with
  | PX i =>
      match bx b i with
      | None => Some (fill_x b i value)
      | Some e => if PEqual e value then Some b else None
      end
  | PC i =>
      match as_int value with
      | Some c =>
          match bc b i with
          | None => Some (fill_c b i c)
          | Some c' => if PEqualConst c' c then Some b else None
          end
      | None => None
      end
  | PBin k p q =>
      match value with
      | Binary k' l r _ =>
          if bool_decide (k' = k) then
            match Match_ p l b with Some b => Match_ q r b | None => None end
          else None
      | _ => None
      end
  | PUn k p =>
      match value with
      | Unary k' e _ => if bool_decide (k' = k) then Match_ p e b else None
      | _ => None
      end
  | PLike _ v =>
      match as_int value with Some (w, _) => if w =? v then Some b else None | None => None end
  | PLit e => if same e value then Some b else None
  end.

(** [Match]: the variables start unfilled. *)
Definition Match (p : pat) (value : expr) : option Binds := Match_ p value no_binds.

(** [MakeUnaryExprHelper<OpType>::Make]. *)
Definition MakeUnary (k : unkind) (e : expr) : result expr :=
  match k with
  | KNeg => MakeNeg e
  | KNot => Ok (MakeNot e)
  | KBitNot => MakeBitNot e
  | KAbs => let* dt := GetScalarDtype e in Ok (Unary KAbs e dt)
  | KCast => Err InternalError
  end.

(** [Eval]: constant folding at every node built. *)
Fixpoint Eval (p : pat) (b : Binds) : result expr :=
  match p with
  | PX i => match bx b i with Some e => Ok e | None => Err InternalError end
  | PC i => match bc b i with Some (v, d) => Ok (ConstInt v d) | None => Err InternalError end
  | PBin k p q =>
      let* l := Eval p b in
      let* r := Eval q b in
      let* f := TryConstFoldBinarySame k l r in
      match f with Some e => Ok e | None => MakeBinary k l r end
  | PUn k p =>
      let* e := Eval p b in
      let* f := TryConstFoldUnary k e in
      match f with Some e => Ok e | None => MakeUnary k e end
  | PLike ref v =>
      let* e := Eval ref b in
      let* dt := GetScalarDtype e in
      Ok (MakeConstInt v dt)
  | PLit e => Ok e
  end.

End Matching.

(** ** Uniformly typed expressions

    Every operation has operands of one dtype, so that building a node inserts
    no conversion; floating point is excluded. *)

Inductive kind_class := CArith | CCompare | CLogic | CFloat.

Definition class_of (k : binkind) : kind_class :=
  match k with
  | KEq | KNe | KLt | KLe | KGt | KGe => CCompare
  | KAnd | KOr | KXor => CLogic
  | KFloatDiv => CFloat
  | _ => CArith
  end.

Definition has_type (e : expr) (d : DataType) : bool := bool_decide (scalar_type e = Some d).
Definition int_typed (t : option DataType) : bool :=
  match t with Some d => IsInt d | None => false end.

(** The type of a variable node, fixed when the node is created. *)
Class VarTypes := var_type : positive -> option DataType.

Section Typing.
Context `{VarTypes}.

Definition leaf_typed (ty : option DataType) : bool :=
  match ty with Some d => IsInt d || IsBoolDtype d | None => false end.

Fixpoint wt (e : expr) : bool :=
  match e with
  | Var _ id ty => bool_decide (var_type id = ty) && leaf_typed ty
  | Leaf _ _ ty => leaf_typed ty
  | ConstInt _ d => IsInt d
  | ConstFloat _ _ => false
  | ConstBool _ => true
  | Binary k l r d =>
      wt l && wt r &&
      match class_of k with
      | CArith => IsInt d && has_type l d && has_type r d
      | CCompare => IsBoolDtype d && int_typed (scalar_type l)
                    && bool_decide (scalar_type l = scalar_type r)
      | CLogic => IsBoolDtype d && has_type l BOOL && has_type r BOOL
      | CFloat => false
      end
  | Unary k e d =>
      wt e &&
      match k with
      | KNeg | KAbs | KBitNot => IsInt d && has_type e d
      | KNot => IsBoolDtype d && has_type e BOOL
      | KCast => IsInt d && int_typed (scalar_type e)
      end
  end.

(** Uniformly typed, with literals that are [int64_t]. *)
Definition good (e : expr) : Prop := wt e = true /\ wf e = true.

End Typing.

(** ** The meaning of a pattern under captured values *)

(** An operation on values, whatever the dtype. *)
Definition op_val (k : binkind) (v w : value) : option value :=
  binary_sem k ideal (match class_of k with CArith => INT64 | _ => BOOL end) v w.
Definition un_val (k : unkind) (v : value) : option value :=
  match k with
  | KCast => None
  | KNot => unary_sem k ideal BOOL v
  | _ => unary_sem k ideal INT64 v
  end.

Fixpoint den (rho : Env) (b : Binds) (p : pat) : option value :=
  match p with
  | PX i => match bx b i with Some e => eval ideal rho e | None => None end
  | PC i => match bc b i with Some (v, _) => Some (VInt v) | None => None end
  | PBin k p q =>
      match den rho b p, den rho b q with
      | Some v, Some w => op_val k v w
      | _, _ => None
      end
  | PUn k p => match den rho b p with Some v => un_val k v | None => None end
  | PLike _ v => Some (VInt v)
  | PLit e => eval ideal rho e
  end.

Fixpoint ptype (b : Binds) (p : pat) : option DataType :=
  match p with
  | PX i => match bx b i with Some e => scalar_type e | None => None end
  | PC i => match bc b i with Some (_, d) => Some d | None => None end
  | PBin k p q => match class_of k with CArith => ptype b p | _ => Some BOOL end
  | PUn KNot _ => Some BOOL
  | PUn _ p => ptype b p
  | PLike ref _ => ptype b ref
  | PLit e => scalar_type e
  end.

(** The captured values make the pattern a uniformly typed expression. *)
Fixpoint typed `{VarTypes} (b : Binds) (p : pat) : Prop :=
  match p with
  | PX i => exists e, bx b i = Some e /\ good e
  | PC i => exists v d, bc b i = Some (v, d) /\ IsInt d = true /\ in_int64 v = true
  | PBin k p q =>
      typed b p /\ typed b q /\
      match class_of k with
      | CArith | CCompare => int_typed (ptype b p) = true /\ ptype b p = ptype b q
      | CLogic => ptype b p = Some BOOL /\ ptype b q = Some BOOL
      | CFloat => False
      end
  | PUn k p =>
      typed b p /\
      match k with
      | KNot => ptype b p = Some BOOL
      | KCast => False
      | _ => int_typed (ptype b p) = true
      end
  | PLike ref v => typed b ref /\ int_typed (ptype b ref) = true /\ in_int64 v = true
  | PLit e => good e
  end.

(** ** Matching captures instances *)

(** [e] is the instance of the source pattern [p] under [b]. *)
Fixpoint instance_of (b : Binds) (p : pat) (e : expr) : Prop :=
  match p with
  | PX i => bx b i = Some e
  | PC i => exists v d, e = ConstInt v d /\ bc b i = Some (v, d)
  | PBin k p q => exists l r d, e = Binary k l r d /\ instance_of b p l /\ instance_of b q r
  | PUn k p => exists o d, e = Unary k o d /\ instance_of b p o
  | PLike _ _ | PLit _ => False
  end.

(** Patterns that occur on the left of a rule: no literals, no casts. *)
Fixpoint source_pat (p : pat) : bool :=
  match p with
  | PX _ | PC _ => true
  | PBin _ p q => source_pat p && source_pat q
  | PUn KCast _ => false
  | PUn _ p => source_pat p
  | PLike _ _ | PLit _ => false
  end.

(** [b'] has everything [b] has. *)
Definition extends (b b' : Binds) : Prop :=
  (forall i e, bx b i = Some e -> bx b' i = Some e) /\
  (forall i c, bc b i = Some c -> bc b' i = Some c).

#[export] Instance extends_preorder : PreOrder extends.
Proof.
  split; [by intros b; split | intros b1 b2 b3 [H1 H2] [H3 H4]; split; eauto].
Qed.

Lemma instance_extends b b' p e : extends b b' -> instance_of b p e -> instance_of b' p e.
Proof.
  intros Hext. revert e. induction p as [i|i|k p IHp q IHq|k p IH|ref _ w|lit]; intros e Hi; cbn [instance_of] in *; try done.
  - by apply Hext.
  - destruct Hi as (v & d & -> & Hb). exists v, d. split; [done | by apply Hext].
  - destruct Hi as (l & r & d & -> & Hl & Hr). exists l, r, d. eauto.
  - destruct Hi as (o & d & -> & Ho). exists o, d. eauto.
Qed.

Section Facts.
Context `{PtrEq} `{Libm} `{VarTypes}.

Lemma PEqualConst_eq a b : PEqualConst a b = true -> a = b.
Proof.
  destruct a, b. unfold PEqualConst. simpl. rewrite andb_true_iff, Z.eqb_eq, dtype_eqb_eq.
  by intros [-> ->].
Qed.

Lemma PEqual_eq a b : PEqual a b = true -> a = b.
Proof.
  unfold PEqual. rewrite orb_true_iff. intros [Hs|Hs]; [by apply same_eq |].
  destruct a, b; try (by apply bool_decide_eq_true in Hs).
  - apply PEqualConst_eq in Hs. by simplify_eq.
  - by apply eqb_prop in Hs as ->.
Qed.

Lemma fill_x_extends b i e : bx b i = None -> extends b (fill_x b i e).
Proof.
  intros Hn. split; [|done]. intros j e' Hj. simpl. destruct (Nat.eqb_spec j i) as [->|]; congruence.
Qed.

Lemma fill_c_extends b i c : bc b i = None -> extends b (fill_c b i c).
Proof.
  intros Hn. split; [done |]. intros j c' Hj. simpl. destruct (Nat.eqb_spec j i) as [->|]; congruence.
Qed.

Lemma Match__instance p : source_pat p = true -> forall e b b',
  Match_ p e b = Some b' -> extends b b' /\ instance_of b' p e.
Proof.
  induction p as [i|i|k p IHp q IHq|k p IH|ref _ w|lit]; intros Hs e b b' Hm; cbn [Match_ source_pat] in *;
    try done.
  - destruct (bx b i) as [e'|] eqn:Eb; simplify_eq.
    + destruct (PEqual e' e) eqn:Eq; simplify_eq. apply PEqual_eq in Eq as ->. done.
    + split; [by apply fill_x_extends |]. simpl. by rewrite Nat.eqb_refl.
  - destruct (as_int e) as [[v d]|] eqn:Ei; [|done]. apply as_int_some in Ei as ->.
    destruct (bc b i) as [c|] eqn:Eb; simplify_eq.
    + destruct (PEqualConst c (v, d)) eqn:Eq; simplify_eq. apply PEqualConst_eq in Eq as ->.
      split; [done |]. by exists v, d.
    + split; [by apply fill_c_extends |]. exists v, d. split; [done |]. simpl. by rewrite Nat.eqb_refl.
  - apply andb_true_iff in Hs as [Hsp Hsq]. destruct e as [| | | |k' l r d| |]; try done.
    case_bool_decide; [|done]. subst k'. destruct (Match_ p l b) as [b1|] eqn:E1; [|done].
    destruct (IHp Hsp _ _ _ E1) as [He1 Hi1]. destruct (IHq Hsq _ _ _ Hm) as [He2 Hi2].
    split; [by transitivity b1 |]. exists l, r, d. split; [done |].
    split; [by eapply instance_extends | done].
  - destruct e as [| | | | |k1 o d|]; try done. case_bool_decide; [|done]. subst k1.
    assert (Hsp : source_pat p = true) by (by destruct k).
    destruct (IH Hsp _ _ _ Hm) as [He Hi]. split; [done |]. by exists o, d.
Qed.

(** A match finds an instance. *)
Lemma Match_instance p e b : source_pat p = true -> Match p e = Some b -> instance_of b p e.
Proof. intros Hs Hm. by apply (Match__instance p Hs) in Hm as [_ ?]. Qed.

(** An instance that is uniformly typed has the pattern's type. *)
Lemma instance_typed b p : source_pat p = true -> forall e,
  instance_of b p e -> good e -> typed b p /\ ptype b p = scalar_type e.
Proof.
  induction p as [i|i|k p IHp q IHq|k p IH|ref _ w|lit]; intros Hs e Hi Hg; cbn [instance_of source_pat] in *;
    try done.
  - split; [by exists e |]. simpl. by rewrite Hi.
  - destruct Hi as (v & d & -> & Hb). destruct Hg as [Hw Hf]. split; [by exists v, d |]. simpl. by rewrite Hb.
  - destruct Hi as (l & r & d & -> & Hl & Hr). apply andb_true_iff in Hs as [Hsp Hsq].
    destruct Hg as [Hw Hf]. cbn [wt wf] in Hw, Hf.
    apply andb_true_iff in Hf as [Hfl Hfr]. apply andb_true_iff in Hw as [Hw Hc].
    apply andb_true_iff in Hw as [Hwl Hwr].
    destruct (IHp Hsp l Hl) as [Tp Ep]; [done |]. destruct (IHq Hsq r Hr) as [Tq Eq]; [done |].
    cbn [typed ptype scalar_type]. rewrite Ep, Eq.
    destruct (class_of k) eqn:Ek; try done; bool_to_prop; unfold has_type in *;
      repeat match goal with H : bool_decide _ = true |- _ => apply bool_decide_eq_true in H end;
      try match goal with H : IsBoolDtype d = true |- _ => apply dtype_eqb_eq in H; subst d end.
    + assert (Hl' : scalar_type l = Some d) by done. assert (Hr' : scalar_type r = Some d) by done.
      rewrite Hl', Hr'. done.
    + done.
    + done.
  - destruct Hi as (o & d & -> & Ho). assert (Hsp : source_pat p = true) by (by destruct k).
    destruct Hg as [Hw Hf]. cbn [wt wf] in Hw, Hf. apply andb_true_iff in Hw as [Hw Hc].
    destruct (IH Hsp o Ho) as [Tp Ep]; [done |]. cbn [typed scalar_type].
    destruct k; try done; bool_to_prop; unfold has_type in *;
      repeat match goal with H : bool_decide _ = true |- _ => apply bool_decide_eq_true in H end;
      cbn [ptype]; rewrite ?Ep;
      try match goal with H : IsBoolDtype d = true |- _ => apply dtype_eqb_eq in H; subst d end;
      try match goal with H : scalar_type o = Some _ |- _ => rewrite H end; done.
Qed.

(** ** Instances mean what the pattern means *)

Lemma op_val_sem k d v w u : binary_sem k ideal d v w = Some u -> op_val k v w = Some u.
Proof.
  unfold op_val. destruct v as [a|a], w as [b|b]; try done; destruct k; simpl; repeat case_match;
    intros; inv_eval; subst; try done; simpl in *; inv_eval; simplify_eq; try done.
  unfold int_result. simpl. match goal with E : in_int64 _ = true |- _ => by rewrite E end.
Qed.

Lemma sem_op_val k d v w u :
  (match class_of k with CArith => IsInt d | _ => IsBoolDtype d end) = true ->
  op_val k v w = Some u -> binary_sem k ideal d v w = Some u.
Proof.
  unfold op_val. intros Hd. destruct v as [a|a], w as [b|b]; try done;
    destruct k; simpl in *; repeat case_match; try done; intros; inv_eval; subst;
    unfold int_result, bool_result; rewrite ?Hd; try done; simpl in *; inv_eval; simplify_eq; try done;
    match goal with E : in_int64 _ = true |- _ => rewrite E end; done.
Qed.

Lemma un_val_sem k d v u : k <> KCast -> unary_sem k ideal d v = Some u -> un_val k v = Some u.
Proof.
  intros Hk. unfold un_val. destruct k, v; simpl; try done; intros; inv_eval; subst; done.
Qed.

Lemma sem_un_val k d v u :
  (match k with KNot => IsBoolDtype d | _ => IsInt d end) = true ->
  un_val k v = Some u -> unary_sem k ideal d v = Some u.
Proof.
  intros Hd. unfold un_val. destruct k, v; simpl; try done; unfold int_result, bool_result;
    rewrite ?Hd; try done; by intros [= <-].
Qed.

Lemma instance_den rho b p : source_pat p = true -> forall e v,
  instance_of b p e -> eval ideal rho e = Some v -> den rho b p = Some v.
Proof.
  induction p as [i|i|k p IHp q IHq|k p IH|ref _ w|lit]; intros Hs e v Hi Hev;
    cbn [instance_of source_pat] in *; try done.
  - simpl. by rewrite Hi.
  - destruct Hi as (z & d & -> & Hb). simpl. rewrite Hb. simpl in Hev. inv_eval. by subst.
  - destruct Hi as (l & r & d & -> & Hl & Hr). apply andb_true_iff in Hs as [Hsp Hsq].
    apply eval_binary_inv in Hev as (vl & vr & El & Er & Hs').
    cbn [den]. rewrite (IHp Hsp _ _ Hl El), (IHq Hsq _ _ Hr Er). by eapply op_val_sem.
  - destruct Hi as (o & d & -> & Ho). cbn [eval] in Hev.
    destruct (eval ideal rho o) as [w|] eqn:Eo; [|done].
    assert (k <> KCast /\ source_pat p = true) as [Hk Hsp] by (by destruct k).
    cbn [den]. rewrite (IH Hsp _ _ Ho Eo). by eapply un_val_sem.
Qed.

(** ** Folding keeps uniform typing *)

Definition typed_as (d : option DataType) (e : expr) : Prop := wt e = true /\ scalar_type e = d.

Lemma typed_literal e v d D : as_int e = Some (v, d) -> typed_as (Some D) e -> d = D /\ IsInt D = true.
Proof. intros ->%as_int_some [Hw [= ->]]. done. Qed.

Lemma wt_no_float e : wt e = true -> as_float e = None.
Proof. by destruct e. Qed.

Lemma has_type_iff e d : has_type e d = true <-> scalar_type e = Some d.
Proof. unfold has_type. by rewrite bool_decide_eq_true. Qed.

Ltac fold_typed :=
  post_branches; cbn [operands lhs rhs] in *;
  repeat match goal with
  | E : as_float ?e = Some _ |- _ => rewrite (wt_no_float e) in E by done; discriminate E
  | E : as_int ?e = Some _, T : typed_as (Some _) ?e |- _ =>
      destruct (typed_literal _ _ _ _ E T) as [-> ?]; clear E
  end; try done.

Lemma fold_arith_typed k l r d :
  class_of k = CArith -> typed_as (Some d) l -> typed_as (Some d) r -> IsInt d = true ->
  fold_post (typed_as (Some d)) (TryConstFoldBinary k l r d).
Proof.
  intros Hk Hl Hr Hd. pose proof (proj1 Hl) as Wl. pose proof (proj1 Hr) as Wr.
  assert (Hlit : forall v, typed_as (Some d) (ConstInt v d)) by (by intros v).
  destruct k; try done; cbn [TryConstFoldBinary];
    unfold FoldAdd, FoldSub, FoldMul, FoldFloorDiv, FoldFloorMod, FoldPow, SafeIntPow,
      FoldIntOnly, FoldMin, FoldMax, FoldShiftLeft, FoldShiftRight;
    cbn [operands pa pb fa fb lhs rhs]; fold_typed.
  all: match goal with E : GetScalarDtype _ = Ok ?a |- _ =>
    assert (a = d) as -> by (apply GetScalarDtype_ok in E; destruct Hl; congruence) end.
  - match goal with E : IsFloat d = true |- _ => by rewrite IsInt_not_IsFloat in E end.
  - apply Hlit.
Qed.

Lemma fold_bool_typed k l r d :
  class_of k = CCompare \/ (class_of k = CLogic /\ typed_as (Some BOOL) l /\ typed_as (Some BOOL) r) ->
  wt l = true -> wt r = true ->
  fold_post (typed_as (Some BOOL)) (TryConstFoldBinary k l r d).
Proof.
  intros Hk Wl Wr.
  assert (Hlit : forall v, typed_as (Some BOOL) (MakeConstBool v)) by (by intros v).
  destruct Hk as [Hk|(Hk & Tl & Tr)]; destruct k; try done; cbn [TryConstFoldBinary];
    unfold FoldCompare, FoldAnd, FoldOr, FoldXor; post_branches;
    destruct (as_bool l) as [[]|], (as_bool r) as [[]|]; post_branches.
Qed.

(** The conditions [typed] puts on the operands of an operation. *)
Definition operands_ok (k : binkind) (tl tr : option DataType) : Prop :=
  match class_of k with
  | CArith | CCompare => int_typed tl = true /\ tl = tr
  | CLogic => tl = Some BOOL /\ tr = Some BOOL
  | CFloat => False
  end.

Definition node_type (k : binkind) (tl : option DataType) : option DataType :=
  match class_of k with CArith => tl | _ => Some BOOL end.

Lemma fold_binary_typed k l r d :
  wt l = true -> wt r = true -> operands_ok k (scalar_type l) (scalar_type r) ->
  scalar_type l = Some d ->
  fold_post (typed_as (node_type k (scalar_type l))) (TryConstFoldBinary k l r d).
Proof.
  unfold operands_ok, node_type. intros Wl Wr Ho Hl.
  destruct (class_of k) eqn:Ek; try done.
  - rewrite Hl in *. destruct Ho as [Hi Hr]. by apply fold_arith_typed.
  - apply fold_bool_typed; auto.
  - destruct Ho as [Tl Tr]. apply fold_bool_typed; try done. right. done.
Qed.

(** A node built from uniformly typed operands. *)
Lemma MakeBinary_good k l r d :
  good l -> good r -> operands_ok k (scalar_type l) (scalar_type r) -> scalar_type l = Some d ->
  MakeBinary k l r = Ok (Binary k l r (result_dtype k d)) /\
  good (Binary k l r (result_dtype k d)) /\
  Some (result_dtype k d) = node_type k (scalar_type l).
Proof.
  unfold operands_ok, node_type, good. intros [Wl Fl] [Wr Fr] Ho Hl.
  cbn [wt wf]. rewrite Wl, Wr, Fl, Fr. unfold has_type.
  destruct (class_of k) eqn:Ek; try done.
  - destruct Ho as [Hi Hr]. rewrite Hl in Hr, Hi. symmetry in Hr. cbn in Hi.
    assert (result_dtype k d = d) as E by (by destruct k). rewrite Hl, Hr, E, Hi.
    rewrite <- E at 1. rewrite (MakeBinary_uniform k l r d) by done. rewrite E.
    by rewrite !bool_decide_eq_true_2.
  - destruct Ho as [Hi Hr]. rewrite Hl in Hr, Hi. symmetry in Hr. cbn in Hi.
    rewrite (MakeBinary_uniform k l r d) by done. rewrite Hl, Hr.
    assert (result_dtype k d = BOOL) as -> by (by destruct k). cbn [int_typed]. rewrite Hi.
    by rewrite !bool_decide_eq_true_2.
  - destruct Ho as [Tl Tr]. rewrite Hl in Tl. injection Tl as ->. rewrite Hl, Tr.
    assert (result_dtype k BOOL = BOOL) as -> by (by destruct k).
    rewrite !bool_decide_eq_true_2 by done. by destruct k.
Qed.

(** ** Evaluating a pattern

    The expression built is uniformly typed, has the pattern's type, and means
    what the pattern means. *)
Definition built (b : Binds) (p : pat) (e : expr) : Prop :=
  good e /\ scalar_type e = ptype b p /\
  forall rho v, den rho b p = Some v -> eval ideal rho e = Some v.

Lemma eval_node rho k l r d v w u :
  (match class_of k with CArith => IsInt d | _ => IsBoolDtype d end) = true ->
  eval ideal rho l = Some v -> eval ideal rho r = Some w -> op_val k v w = Some u ->
  eval ideal rho (Binary k l r d) = Some u.
Proof. intros Hd Hl Hr Hu. cbn [eval]. rewrite Hl, Hr. by apply sem_op_val. Qed.

Lemma fold_unary_typed k e d :
  wt e = true -> scalar_type e = Some d ->
  match k with KNot => d = BOOL | KCast => False | _ => IsInt d = true end ->
  fold_post (typed_as (Some d)) (TryConstFoldUnary k e).
Proof.
  intros We Te Hk. assert (Tt : typed_as (Some d) e) by done.
  destruct k, e; cbn [TryConstFoldUnary]; post_branches; try done; simplify_eq/=; done.
Qed.

Lemma MakeUnary_good k e d :
  good e -> scalar_type e = Some d ->
  match k with KNot => d = BOOL | KCast => False | _ => IsInt d = true end ->
  MakeUnary k e = Ok (Unary k e d) /\ good (Unary k e d).
Proof.
  intros [We Fe] Te Hk. unfold good. cbn [wt wf]. rewrite We, Fe. unfold has_type. rewrite Te.
  rewrite !bool_decide_eq_true_2 by (destruct k; congruence).
  destruct k; try done; unfold MakeUnary, MakeNeg, MakeBitNot, MakeNot;
    rewrite ?(proj2 (GetScalarDtype_ok e d) Te); simpl; rewrite ?Hk; try done; subst; done.
Qed.

Lemma Eval_built b p e : typed b p -> Eval p b = Ok e -> built b p e.
Proof.
  revert e. induction p as [i|i|k p IHp q IHq|k p IH|ref IHr w|lit]; intros e Ht He;
    cbn [typed Eval] in *.
  - destruct Ht as (e' & Hb & Hg). rewrite Hb in He. simplify_eq. split; [done |].
    cbn [ptype den]. rewrite Hb. done.
  - destruct Ht as (v & d & Hb & Hi & H64). rewrite Hb in He. simplify_eq. split; [done |].
    cbn [ptype den]. rewrite Hb. split; [done |]. intros rho u [= <-]. simpl.
    unfold int_result. by rewrite Hi.
  - destruct Ht as (Tp & Tq & Hc). apply bind_ok in He as (l & El & He).
    apply bind_ok in He as (r & Er & He). apply bind_ok in He as (f & Ef & He).
    destruct (IHp _ Tp El) as (Gl & Tl & Dl). destruct (IHq _ Tq Er) as (Gr & Tr & Dr).
    assert (Ho : operands_ok k (scalar_type l) (scalar_type r)).
    { unfold operands_ok. rewrite Tl, Tr. by destruct (class_of k). }
    unfold TryConstFoldBinarySame in Ef. apply bind_ok in Ef as (d & Hd & Ef).
    apply GetScalarDtype_ok in Hd.
    destruct (MakeBinary_good k l r d Gl Gr Ho Hd) as (Hm & Gn & Tn).
    assert (Hden : forall rho v, den rho b (PBin k p q) = Some v ->
              eval ideal rho (Binary k l r (result_dtype k d)) = Some v).
    { intros rho v Hv. cbn [den] in Hv. destruct (den rho b p) as [vp|] eqn:Ep; [|done].
      destruct (den rho b q) as [vq|] eqn:Eq; [|done].
      apply (eval_node rho k l r _ vp vq); auto.
      destruct Gn as [Wn _]. cbn [wt] in Wn. apply andb_true_iff in Wn as [_ Wn].
      destruct (class_of k); try done; bool_to_prop; done. }
    destruct Gl as [Wl Fl], Gr as [Wr Fr].
    destruct f as [e'|]; [|rewrite Hm in He; simplify_eq; split_and!; try done].
    + simplify_eq. destruct (fold_binary_typed k l r d Wl Wr Ho Hd _ Ef) as [We Te].
      split; [split; [done | by apply (TryConstFoldBinary_wf k l r d Fl Fr)] |].
      split; [cbn [ptype]; rewrite Te, Tl; unfold node_type; by destruct (class_of k) |].
      intros rho v Hv. apply Hden in Hv.
      apply (TryConstFoldBinary_fold_sound ideal rho k l r (result_dtype k d) v e Fl Fr Hv).
      by destruct k.
    + cbn [ptype scalar_type]. rewrite Tn. unfold node_type. rewrite Tl. by destruct (class_of k).
  - destruct Ht as (Tp & Hc). apply bind_ok in He as (o & Eo & He).
    apply bind_ok in He as (f & Ef & He).
    destruct (IH _ Tp Eo) as (Go & To & Do).
    assert (Hd : exists d, scalar_type o = Some d /\
      match k with KNot => d = BOOL | KCast => False | _ => IsInt d = true end).
    { rewrite To. destruct k; try done; destruct (ptype b p) as [d|]; try done; exists d; try done.
      by injection Hc. }
    destruct Hd as (d & Hd & Hk). destruct (MakeUnary_good k o d Go Hd Hk) as [Hm Gn].
    assert (Hden : forall rho v, den rho b (PUn k p) = Some v ->
              eval ideal rho (Unary k o d) = Some v).
    { intros rho v Hv. cbn [den] in Hv. destruct (den rho b p) as [vp|] eqn:Ep; [|done].
      cbn [eval]. rewrite (Do _ _ Ep). apply sem_un_val; [|done]. destruct k; try done. by subst. }
    assert (Hpt : Some d = ptype b (PUn k p)).
    { cbn [ptype]. rewrite <- To, Hd. destruct k; try done. by subst. }
    destruct Go as [Wo Fo].
    destruct f as [e'|]; [|rewrite Hm in He; simplify_eq; done].
    simplify_eq. destruct (fold_unary_typed k o d Wo Hd Hk _ Ef) as [We Te].
    split; [split; [done | by apply (TryConstFoldUnary_wf k o)] |].
    split; [congruence |]. intros rho v Hv. apply Hden in Hv.
    by apply (TryConstFoldUnary_sound ideal rho k o d v e).
  - destruct Ht as (Tr & Hi & H64). apply bind_ok in He as (e0 & E0 & He).
    apply bind_ok in He as (dt & Hdt & He). simplify_eq. apply GetScalarDtype_ok in Hdt.
    destruct (IHr _ Tr E0) as (_ & Te & _). cbn [ptype den]. rewrite <- Te, Hdt in *.
    split; [done |]. split; [done |]. intros rho v [= <-]. simpl. unfold int_result.
    cbn [int_typed] in Hi. by rewrite Hi.
  - simplify_eq. done.
Qed.

End Facts.

(** Matching then evaluating one pattern is a round trip on meaning: if a pattern
    matches a uniformly typed expression, evaluating the pattern under the captured values
    gives a uniformly typed expression of the same dtype and value, although Eval folds
    constants on the way. *)
Theorem Match_Eval `{PtrEq} `{Libm} `{VarTypes} rho p e b e' :
  source_pat p = true -> good e -> Match p e = Some b -> Eval p b = Ok e' ->
  good e' /\ scalar_type e' = scalar_type e /\
  forall v, eval ideal rho e = Some v -> eval ideal rho e' = Some v.
Proof.
  intros Hs Hg Hm He. apply Match_instance in Hm; [|done].
  destruct (instance_typed b p Hs e Hm Hg) as [Ht Hp].
  destruct (Eval_built b p e' Ht He) as (Ge & Te & De). split; [done |]. split; [congruence |].
  intros v Hv. by eapply De, instance_den.
Qed.

Definition sum_pat : pat := PBin KAdd (PBin KMul (PX 0) (PC 0)) (PX 0).
Definition sum_expr : expr :=
  let i := Var false 1 (Some INDEX) in
  Binary KAdd (Binary KMul i (ConstInt 4 INDEX) INDEX) i INDEX.

#[local] Instance no_libm : Libm := {| std_pow := fun a _ => a |}.
#[local] Instance index_vars : VarTypes := fun _ => Some INDEX.

Lemma Match_Eval_witness :
  exists b, Match sum_pat sum_expr = Some b /\ Eval sum_pat b = Ok sum_expr /\ good sum_expr.
Proof.
  eexists. split; [reflexivity |]. split; [reflexivity |].
  eapply (Match_Eval no_env sum_pat sum_expr); [reflexivity | by split | reflexivity | reflexivity].
Defined.
