(* ===== verification/RewriteRules.v ===== *)
(** * The rewrite rules ([src/ir/arith/rewrite_simplify.cpp])

    One table per visitor, in the order in which the visitor tries its rules,
    and the soundness of every rule. *)

From Stdlib Require Import ZArith Lia Bool List.
From stdpp Require Import base list option.
From S2P Require Import Prelude Dtype IntOps ScalarExpr ConstFold PatternMatch.

(** ** Comparison outcomes ([CompareResult] in [analyzer.h]) *)

(** A set of the three possible orders, as three bits. *)
Inductive CompareResult :=
  kInconsistent | kEQ | kLT | kLE | kGT | kGE | kNE | kUnknown.

#[export] Instance CompareResult_eq_dec : EqDecision CompareResult.
Proof. solve_decision. Defined.

(** [TryCompare]: what the simplifier asks the bound analyzer. *)
Class Compare := TryCompare : expr -> Z -> result CompareResult.

(** ** Rules *)

Record rule := MkRule {
  src : pat;
  res : pat;
  cond : Binds -> result bool;
  recurse : bool   (** [RecursiveRewrite] on the result, or return it *)
}.

Declare Scope pat_scope.
Delimit Scope pat_scope with pat.
Notation "a + b" := (PBin KAdd a b) : pat_scope.
Notation "a - b" := (PBin KSub a b) : pat_scope.
Notation "a * b" := (PBin KMul a b) : pat_scope.
Notation "a == b" := (PBin KEq a b) (at level 70, no associativity) : pat_scope.
Notation "a != b" := (PBin KNe a b) (at level 70, no associativity) : pat_scope.
Notation "a < b" := (PBin KLt a b) : pat_scope.
Notation "a <= b" := (PBin KLe a b) : pat_scope.
Notation "a > b" := (PBin KGt a b) : pat_scope.
Notation "a >= b" := (PBin KGe a b) : pat_scope.
Notation "a && b" := (PBin KAnd a b) : pat_scope.
Notation "a || b" := (PBin KOr a b) : pat_scope.
Notation "! a" := (PUn KNot a) (at level 35, right associativity) : pat_scope.
Arguments PBin k (a b)%_pat.
Arguments PUn k a%_pat.
Arguments PLike ref%_pat value%_Z.
Abbreviation floordiv' := (PBin KFloorDiv).
Abbreviation floormod' := (PBin KFloorMod).
Abbreviation min' := (PBin KMin).
Abbreviation max' := (PBin KMax).
Abbreviation neg' := (PUn KNeg).
Abbreviation x := (PX 0).
Abbreviation y := (PX 1).
Abbreviation z := (PX 2).
Abbreviation c1 := (PC 0).
Abbreviation c2 := (PC 1).
Abbreviation c3 := (PC 2).

(** [PYPTO_TRY_REWRITE] and [PYPTO_TRY_REWRITE_IF]. *)
Definition always (b : Binds) : result bool := Ok true.
Notation "s ~> r" := (MkRule s%pat r%pat always true) (at level 90, no associativity).
Notation "s ~~> r 'when' c" := (MkRule s%pat r%pat c true)
  (at level 90, r at level 89, c at level 89, no associativity).
(** A rule whose result is returned as it is. *)
Notation "s ~!> r 'when' c" := (MkRule s%pat r%pat c false)
  (at level 90, r at level 89, c at level 89, no associativity).

(** ** Guards *)

(** [c.Eval()->value_]. *)
Definition const (b : Binds) (i : nat) : Z := match bc b i with Some (v, _) => v | None => 0 end.

Definition const_cond (i : nat) (f : Z -> bool) (b : Binds) : result bool := Ok (f (const b i)).

(** [cd > 0 && cn % cd == 0]. *)
Definition divides_cond (n d : nat) (b : Binds) : result bool :=
  if const b d >? 0 then
    let* r := rem64 (const b n) (const b d) in Ok (r =? 0)
  else Ok false.

Section Guards.
Context `{Compare}.

(** [CanProveGE], [CanProveLE] and [CanProveLess]. *)
Definition CanProveGE (e : expr) (val : Z) : result bool :=
  let* r := TryCompare e val in
  Ok (match r with kGE | kGT | kEQ => true | _ => false end).
Definition CanProveLE (e : expr) (val : Z) : result bool :=
  let* r := TryCompare e val in
  Ok (match r with kLE | kLT | kEQ => true | _ => false end).
Definition CanProveLess (e : expr) (val : Z) : result bool :=
  let* r := TryCompare e val in
  Ok (match r with kLT => true | _ => false end).

Definition on_var (i : nat) (f : expr -> result bool) (b : Binds) : result bool :=
  match bx b i with Some e => f e | None => Err InternalError end.

(** [a || b] and [a && b] with the right operand evaluated on demand. *)
Definition or_else (f g : Binds -> result bool) (b : Binds) : result bool :=
  let* r := f b in if r then Ok true else g b.
Definition and_then (f g : Binds -> result bool) (b : Binds) : result bool :=
  let* r := f b in if r then g b else Ok false.

(** [CanProveGE(x, 1) || CanProveLE(x, -1)]. *)
Definition nonzero_cond (i : nat) : Binds -> result bool :=
  or_else (on_var i (fun e => CanProveGE e 1)) (on_var i (fun e => CanProveLE e (-1))).

(** [c > 0 && CanProveGE(x, 0) && CanProveLess(x, c)]. *)
Definition below_cond (b : Binds) : result bool :=
  and_then (const_cond 0 (fun c => c >? 0))
    (and_then (on_var 0 (fun e => CanProveGE e 0))
              (fun b => on_var 0 (fun e => CanProveLess e (const b 0)) b)) b.

(** [CanProveLE(MakeSub(x, y), 0)] and [CanProveGE(MakeSub(x, y), 0)]. *)
Definition difference_cond (f : expr -> Z -> result bool) (b : Binds) : result bool :=
  match bx b 0, bx b 1 with
  | Some e0, Some e1 => let* d := MakeArith KSub e0 e1 in f d 0
  | _, _ => Err InternalError
  end.

(** [cd ? 0 && floormod(cn, cd) != cn], with the test on [cd] first. *)
Definition reduces_cond (test : Z -> bool) (b : Binds) : result bool :=
  if test (const b 1) then
    let* m := floormod (const b 0) (const b 1) in Ok (negb (m =? const b 0))
  else Ok false.

(** [cd / cn > 0], after [cn > 0 && cd % cn == 0]. *)
Definition quotient_cond (b : Binds) : result bool :=
  let* q := div64 (const b 1) (const b 0) in Ok (q >? 0).

(** [c2 > 0 && c1 % c2 != 0 && (c1 >= c2 || c1 < 0)]. *)
Definition outside_cond (b : Binds) : result bool :=
  if const b 1 >? 0 then
    let* r := rem64 (const b 0) (const b 1) in
    Ok (negb (r =? 0) && ((const b 0 >=? const b 1) || (const b 0 <? 0)))
  else Ok false.

Definition consts_cond (f : Z -> Z -> bool) (b : Binds) : result bool :=
  Ok (f (const b 0) (const b 1)).

(** [c2 + 1 >= c1] and [c2 <= c1 + 1]. *)
Definition adjacent_cond (b : Binds) : result bool :=
  let* s := add64 (const b 1) 1 in Ok (s >=? const b 0).
Definition touching_cond (b : Binds) : result bool :=
  let* s := add64 (const b 0) 1 in Ok (const b 1 <=? s).

(** [MakeConstInt(v, dt)] and [MakeConstBool(v)] inside a pattern. *)
Definition lit (dt : DataType) (v : Z) : pat := PLit (MakeConstInt v dt).
Definition truth (v : bool) : pat := PLit (MakeConstBool v).

(** ** The tables

    [dt] is [GetScalarDtype(ret)] in the arithmetic visitors and
    [GetScalarDtype(a)], the dtype of the left operand, in the comparisons. *)
Variable dt : DataType.

Definition Add_rules : list rule :=
  [ (x + c1) + c2 ~> x + (c1 + c2);
    (c1 + x) + c2 ~> x + (c1 + c2);
    (x - y) + y ~> x;
    x + (y - x) ~> y;
    (x - y) + (y - z) ~> x - z;
    (x - y) + (z - x) ~> z - y;
    x + x ~> x * (PLike x 2);
    (x * y) + x ~> (y + (PLike y 1)) * x;
    x + (x * y) ~> (y + (PLike y 1)) * x;
    (x * y) + (x * z) ~> (y + z) * x;
    (y * x) + (x * z) ~> (y + z) * x;
    (x * y) + (z * x) ~> (y + z) * x;
    (y * x) + (z * x) ~> (y + z) * x;
    ((floordiv' x y) * y) + (floormod' x y) ~> x;
    (floormod' x y) + ((floordiv' x y) * y) ~> x;
    (y * (floordiv' x y)) + (floormod' x y) ~> x;
    (floormod' x y) + (y * (floordiv' x y)) ~> x;
    (min' x (y - z)) + z ~> min' (x + z) y;
    (min' (x - z) y) + z ~> min' x (y + z);
    z + (min' x (y - z)) ~> min' (x + z) y;
    (max' x (y - z)) + z ~> max' (x + z) y;
    (max' (x - z) y) + z ~> max' x (y + z);
    z + (max' x (y - z)) ~> max' (x + z) y;
    (max' x y) + (min' x y) ~> x + y;
    (min' x y) + (max' x y) ~> x + y;
    (max' x y) + (min' y x) ~> x + y;
    (min' x y) + (max' y x) ~> x + y;
    c1 + x ~> x + c1;
    x + (c1 - y) ~> (x - y) + c1;
    (c1 - y) + x ~> (x - y) + c1;
    (x + c1) + y ~> (x + y) + c1 ].

Definition Sub_rules : list rule :=
  [ x - x ~> lit dt 0;
    (x + y) - y ~> x;
    (x + y) - x ~> y;
    (y + x) - x ~> y;
    x - (x + y) ~> neg' y;
    x - (y + x) ~> neg' y;
    (x + c1) - c2 ~> x + (c1 - c2);
    (c1 + x) - c2 ~> x + (c1 - c2);
    c1 - (c2 - x) ~> x + (c1 - c2);
    c1 - (x + c2) ~> (c1 - c2) - x;
    c1 - (c2 + x) ~> (c1 - c2) - x;
    (c1 - x) - (c2 - y) ~> (y - x) + (c1 - c2);
    (x - y) - (x - z) ~> z - y;
    (x + y) - (x + z) ~> y - z;
    (y + x) - (x + z) ~> y - z;
    (x + y) - (z + x) ~> y - z;
    (y + x) - (z + x) ~> y - z;
    (x * y) - x ~> (y - (PLike y 1)) * x;
    x - (x * y) ~> ((PLike y 1) - y) * x;
    (x * y) - (x * z) ~> (y - z) * x;
    (y * x) - (x * z) ~> (y - z) * x;
    (x * y) - (z * x) ~> (y - z) * x;
    (y * x) - (z * x) ~> (y - z) * x;
    x - ((floordiv' x c1) * c1) ~~> floormod' x c1 when (const_cond 0 (fun c => negb (c =? 0)));
    x - (c1 * (floordiv' x c1)) ~~> floormod' x c1 when (const_cond 0 (fun c => negb (c =? 0)));
    ((floordiv' x c1) * c1) - x ~~> (lit dt 0) - (floormod' x c1) when (const_cond 0 (fun c => negb (c =? 0)));
    x - ((floordiv' (x + y) c1) * c1) ~~> (floormod' (x + y) c1) - y when (const_cond 0 (fun c => negb (c =? 0)));
    ((floordiv' (x + y) c1) * c1) - x ~~> y - (floormod' (x + y) c1) when (const_cond 0 (fun c => negb (c =? 0)));
    x - ((floordiv' (x - y) c1) * c1) ~~> (floormod' (x - y) c1) + y when (const_cond 0 (fun c => negb (c =? 0)));
    ((floordiv' (x - y) c1) * c1) - x ~~> ((lit dt 0) - (floormod' (x - y) c1)) - y when (const_cond 0 (fun c => negb (c =? 0)));
    (min' x y) - x ~> min' (lit dt 0) (y - x);
    (min' x y) - y ~> min' (x - y) (lit dt 0);
    (max' x y) - x ~> max' (lit dt 0) (y - x);
    (max' x y) - y ~> max' (x - y) (lit dt 0);
    x - (min' x y) ~> max' (lit dt 0) (x - y);
    x - (max' x y) ~> min' (lit dt 0) (x - y);
    (min' (x + y) z) - x ~> min' y (z - x);
    (min' (y + x) z) - x ~> min' y (z - x);
    (min' z (x + y)) - x ~> min' (z - x) y;
    (min' z (y + x)) - x ~> min' (z - x) y;
    (max' (x + y) z) - x ~> max' y (z - x);
    (max' (y + x) z) - x ~> max' y (z - x);
    (max' z (x + y)) - x ~> max' (z - x) y;
    (max' z (y + x)) - x ~> max' (z - x) y;
    x - (min' (x + y) z) ~> max' ((lit dt 0) - y) (x - z);
    x - (min' (y + x) z) ~> max' ((lit dt 0) - y) (x - z);
    x - (min' z (x + y)) ~> max' (x - z) ((lit dt 0) - y);
    x - (min' z (y + x)) ~> max' (x - z) ((lit dt 0) - y);
    x - (max' (x + y) z) ~> min' ((lit dt 0) - y) (x - z);
    x - (max' (y + x) z) ~> min' ((lit dt 0) - y) (x - z);
    x - (max' z (x + y)) ~> min' (x - z) ((lit dt 0) - y);
    x - (max' z (y + x)) ~> min' (x - z) ((lit dt 0) - y);
    (min' x y) - (min' y x) ~> lit dt 0;
    (max' x y) - (max' y x) ~> lit dt 0;
    x - (y + c1) ~> (x - y) + ((PLike c1 0) - c1);
    (x + c1) - y ~> (x - y) + c1;
    x - (y - z) ~> (x + z) - y ].

Definition Mul_rules : list rule :=
  [ (x * c1) * c2 ~> x * (c1 * c2);
    (c1 * x) * c2 ~> x * (c1 * c2);
    (min' x y) * (max' x y) ~> x * y;
    (max' x y) * (min' x y) ~> x * y;
    c1 * x ~> x * c1;
    x * (c1 * y) ~> (x * y) * c1;
    (x + c1) * c2 ~> (x * c2) + (c1 * c2);
    (x - y) * c1 ~~> (y - x) * ((PLike c1 0) - c1) when (const_cond 0 (fun c => c <? 0)) ].

Definition FloorDiv_rules : list rule :=
  [ floordiv' (x * c1) c2 ~~> x * (floordiv' c1 c2) when (divides_cond 0 1);
    floordiv' (c1 * x) c2 ~~> x * (floordiv' c1 c2) when (divides_cond 0 1);
    floordiv' (x * c1) c2 ~~> floordiv' x (floordiv' c2 c1) when (and_then (divides_cond 1 0) quotient_cond);
    floordiv' (floordiv' x c1) c2 ~~> floordiv' x (c1 * c2) when (and_then (const_cond 0 (fun c => c >? 0)) (const_cond 1 (fun c => c >? 0)));
    floordiv' ((floordiv' x c1) + c2) c3 ~~> floordiv' (x + (c1 * c2)) (c1 * c3) when (and_then (const_cond 0 (fun c => c >? 0)) (const_cond 2 (fun c => c >? 0)));
    floordiv' x x ~~> lit dt 1 when (nonzero_cond 0);
    floordiv' (x * c1) x ~~> c1 when (nonzero_cond 0);
    floordiv' (c1 * x) x ~~> c1 when (nonzero_cond 0);
    floordiv' (x + c1) c2 ~~> (floordiv' x c2) + (floordiv' c1 c2) when (divides_cond 0 1);
    floordiv' (c1 + x) c2 ~~> (floordiv' x c2) + (floordiv' c1 c2) when (divides_cond 0 1);
    floordiv' ((x * c1) + y) c2 ~~> (x * (floordiv' c1 c2)) + (floordiv' y c2) when (divides_cond 0 1);
    floordiv' ((c1 * x) + y) c2 ~~> (x * (floordiv' c1 c2)) + (floordiv' y c2) when (divides_cond 0 1);
    floordiv' (y + (x * c1)) c2 ~~> (floordiv' y c2) + (x * (floordiv' c1 c2)) when (divides_cond 0 1);
    floordiv' (y + (c1 * x)) c2 ~~> (floordiv' y c2) + (x * (floordiv' c1 c2)) when (divides_cond 0 1);
    floordiv' (min' (x * c1) y) c2 ~~> min' (x * (floordiv' c1 c2)) (floordiv' y c2) when (divides_cond 0 1);
    floordiv' (max' (x * c1) y) c2 ~~> max' (x * (floordiv' c1 c2)) (floordiv' y c2) when (divides_cond 0 1);
    floordiv' (min' y (x * c1)) c2 ~~> min' (floordiv' y c2) (x * (floordiv' c1 c2)) when (divides_cond 0 1);
    floordiv' (max' y (x * c1)) c2 ~~> max' (floordiv' y c2) (x * (floordiv' c1 c2)) when (divides_cond 0 1);
    floordiv' (x - (floormod' x c1)) c1 ~~> floordiv' x c1 when (const_cond 0 (fun c => negb (c =? 0)));
    floordiv' (x * y) y ~~> x when (nonzero_cond 1);
    floordiv' (y * x) y ~~> x when (nonzero_cond 1);
    floordiv' ((x * z) + y) z ~~> x + (floordiv' y z) when (on_var 2 (fun e => CanProveGE e 0));
    floordiv' ((z * x) + y) z ~~> x + (floordiv' y z) when (on_var 2 (fun e => CanProveGE e 0));
    floordiv' (y + (x * z)) z ~~> (floordiv' y z) + x when (on_var 2 (fun e => CanProveGE e 0));
    floordiv' (y + (z * x)) z ~~> (floordiv' y z) + x when (on_var 2 (fun e => CanProveGE e 0));
    floordiv' x c1 ~~> lit dt 0 when (below_cond) ].

Definition FloorMod_rules : list rule :=
  [ floormod' (x * c1) c2 ~~> lit dt 0 when (divides_cond 0 1);
    floormod' (c1 * x) c2 ~~> lit dt 0 when (divides_cond 0 1);
    floormod' (x + c1) c2 ~~> floormod' x c2 when (divides_cond 0 1);
    floormod' (c1 + x) c2 ~~> floormod' x c2 when (divides_cond 0 1);
    floormod' ((x * c1) + y) c2 ~~> floormod' y c2 when (divides_cond 0 1);
    floormod' ((c1 * x) + y) c2 ~~> floormod' y c2 when (divides_cond 0 1);
    floormod' (y + (x * c1)) c2 ~~> floormod' y c2 when (divides_cond 0 1);
    floormod' (y + (c1 * x)) c2 ~~> floormod' y c2 when (divides_cond 0 1);
    floormod' (x * c1) c2 ~~> floormod' (x * (floormod' c1 c2)) c2 when (reduces_cond (fun c => negb (c =? 0)));
    floormod' (x * y) y ~~> lit dt 0 when (nonzero_cond 1);
    floormod' (y * x) y ~~> lit dt 0 when (nonzero_cond 1);
    floormod' (x + (y * c1)) c2 ~~> floormod' (x + (y * (floormod' c1 c2))) c2 when (reduces_cond (fun c => c >? 0));
    floormod' (x * c1) (x * c2) ~~> x * (floormod' c1 c2) when (and_then (const_cond 1 (fun c => negb (c =? 0))) (nonzero_cond 0));
    floormod' (x + c1) c2 ~~> floormod' (x + (floormod' c1 c2)) c2 when (outside_cond);
    floormod' x c1 ~~> x when (below_cond) ].

Definition Min_rules : list rule :=
  [ min' x x ~> x;
    min' (min' x c1) c2 ~> min' x (min' c1 c2);
    min' c1 (min' x c2) ~> min' x (min' c1 c2);
    min' (y - x) (z - x) ~> (min' y z) - x;
    min' (x - y) (x - z) ~> x - (max' y z);
    min' (x + y) (x + z) ~> x + (min' y z);
    min' (y + x) (x + z) ~> x + (min' y z);
    min' (x + y) (z + x) ~> x + (min' y z);
    min' (y + x) (z + x) ~> x + (min' y z);
    min' (x + c1) (x + c2) ~~> x + c1 when (consts_cond (fun a b => a <? b));
    min' (x + c1) (x + c2) ~~> x + c2 when (consts_cond (fun a b => negb (a <? b)));
    min' (x + c1) x ~~> x + c1 when (const_cond 0 (fun c => c <? 0));
    min' (x + c1) x ~!> x when (const_cond 0 (fun c => negb (c <? 0)));
    min' x (x + c1) ~~> x + c1 when (const_cond 0 (fun c => c <? 0));
    min' x (x + c1) ~!> x when (const_cond 0 (fun c => negb (c <? 0)));
    min' (c1 - x) (c2 - x) ~~> c1 - x when (consts_cond (fun a b => a <? b));
    min' (c1 - x) (c2 - x) ~~> c2 - x when (consts_cond (fun a b => negb (a <? b)));
    min' (min' x y) x ~> min' x y;
    min' (min' x y) y ~> min' x y;
    min' x (min' x y) ~> min' x y;
    min' y (min' x y) ~> min' x y;
    min' (max' x y) y ~> y;
    min' (max' y x) x ~> x;
    min' y (max' x y) ~> y;
    min' (max' x y) x ~> x;
    min' x (max' x y) ~> x;
    min' x (max' y x) ~> x;
    min' (max' x y) (max' x z) ~> max' (min' y z) x;
    min' (max' x y) (max' z x) ~> max' (min' y z) x;
    min' (max' y x) (max' x z) ~> max' (min' y z) x;
    min' (max' y x) (max' z x) ~> max' (min' y z) x;
    min' (min' x y) (min' x z) ~> min' (min' y z) x;
    min' (min' x y) (min' z x) ~> min' (min' y z) x;
    min' (min' y x) (min' x z) ~> min' (min' y z) x;
    min' (min' y x) (min' z x) ~> min' (min' y z) x;
    min' (floordiv' x c1) (floordiv' y c1) ~~> floordiv' (min' x y) c1 when (const_cond 0 (fun c => c >? 0));
    min' (floordiv' x c1) (floordiv' y c1) ~~> floordiv' (max' x y) c1 when (const_cond 0 (fun c => c <? 0));
    min' (x * c1) (y * c1) ~~> (min' x y) * c1 when (const_cond 0 (fun c => c >? 0));
    min' (x * c1) (y * c1) ~~> (max' x y) * c1 when (const_cond 0 (fun c => c <? 0));
    min' x y ~~> x when (difference_cond CanProveLE);
    min' x y ~~> y when (difference_cond CanProveGE);
    min' c1 x ~> min' x c1;
    min' (min' x c1) y ~> min' (min' x y) c1 ].

Definition Max_rules : list rule :=
  [ max' x x ~> x;
    max' (max' x c1) c2 ~> max' x (max' c1 c2);
    max' c1 (max' x c2) ~> max' x (max' c1 c2);
    max' (y - x) (z - x) ~> (max' y z) - x;
    max' (x - y) (x - z) ~> x - (min' y z);
    max' (x + y) (x + z) ~> x + (max' y z);
    max' (y + x) (x + z) ~> x + (max' y z);
    max' (x + y) (z + x) ~> x + (max' y z);
    max' (y + x) (z + x) ~> x + (max' y z);
    max' (x + c1) (x + c2) ~~> x + c1 when (consts_cond (fun a b => a >? b));
    max' (x + c1) (x + c2) ~~> x + c2 when (consts_cond (fun a b => negb (a >? b)));
    max' (x + c1) x ~~> x + c1 when (const_cond 0 (fun c => c >? 0));
    max' (x + c1) x ~!> x when (const_cond 0 (fun c => negb (c >? 0)));
    max' x (x + c1) ~~> x + c1 when (const_cond 0 (fun c => c >? 0));
    max' x (x + c1) ~!> x when (const_cond 0 (fun c => negb (c >? 0)));
    max' (c1 - x) (c2 - x) ~~> c1 - x when (consts_cond (fun a b => a >? b));
    max' (c1 - x) (c2 - x) ~~> c2 - x when (consts_cond (fun a b => negb (a >? b)));
    max' (max' x y) x ~> max' x y;
    max' (max' x y) y ~> max' x y;
    max' x (max' x y) ~> max' x y;
    max' y (max' x y) ~> max' x y;
    max' (min' x y) y ~> y;
    max' (min' y x) x ~> x;
    max' y (min' x y) ~> y;
    max' (min' x y) x ~> x;
    max' x (min' x y) ~> x;
    max' x (min' y x) ~> x;
    max' (min' x y) (min' x z) ~> min' (max' y z) x;
    max' (min' x y) (min' z x) ~> min' (max' y z) x;
    max' (min' y x) (min' x z) ~> min' (max' y z) x;
    max' (min' y x) (min' z x) ~> min' (max' y z) x;
    max' (max' x y) (max' x z) ~> max' (max' y z) x;
    max' (max' x y) (max' z x) ~> max' (max' y z) x;
    max' (max' y x) (max' x z) ~> max' (max' y z) x;
    max' (max' y x) (max' z x) ~> max' (max' y z) x;
    max' (floordiv' x c1) (floordiv' y c1) ~~> floordiv' (max' x y) c1 when (const_cond 0 (fun c => c >? 0));
    max' (floordiv' x c1) (floordiv' y c1) ~~> floordiv' (min' x y) c1 when (const_cond 0 (fun c => c <? 0));
    max' (x * c1) (y * c1) ~~> (max' x y) * c1 when (const_cond 0 (fun c => c >? 0));
    max' (x * c1) (y * c1) ~~> (min' x y) * c1 when (const_cond 0 (fun c => c <? 0));
    max' x y ~~> x when (difference_cond CanProveGE);
    max' x y ~~> y when (difference_cond CanProveLE);
    max' c1 x ~> max' x c1;
    max' (max' x c1) y ~> max' (max' x y) c1 ].

Definition Eq_rules : list rule :=
  [ x == x ~> truth true;
    (x + y) == (x + z) ~> y == z;
    (y + x) == (x + z) ~> y == z;
    (x + y) == (z + x) ~> y == z;
    (y + x) == (z + x) ~> y == z;
    (x - c1) == c2 ~> x == (c1 + c2);
    (x + c1) == c2 ~> x == (c2 - c1);
    (c1 - x) == c2 ~> x == (c1 - c2);
    c1 == x ~> x == c1 ].

Definition Ne_rules : list rule :=
  [ x != x ~> truth false;
    (x + y) != (x + z) ~> y != z;
    (y + x) != (x + z) ~> y != z;
    (x + y) != (z + x) ~> y != z;
    (y + x) != (z + x) ~> y != z;
    (x - c1) != c2 ~> x != (c1 + c2);
    (x + c1) != c2 ~> x != (c2 - c1);
    c1 != x ~> x != c1 ].

Definition Lt_rules : list rule :=
  [ x < x ~> truth false;
    (x + y) < (x + z) ~> y < z;
    (y + x) < (x + z) ~> y < z;
    (x + y) < (z + x) ~> y < z;
    (y + x) < (z + x) ~> y < z;
    (y - x) < (z - x) ~> y < z;
    (x - y) < (x - z) ~> z < y;
    x < (x + z) ~> (lit dt 0) < z;
    x < (z + x) ~> (lit dt 0) < z;
    x < (x - z) ~> z < (lit dt 0);
    (x + c1) < c2 ~> x < (c2 - c1);
    (x - c1) < c2 ~> x < (c2 + c1);
    (c1 - x) < c2 ~> (c1 - c2) < x;
    c1 < (x + c2) ~> (c1 - c2) < x;
    c1 < (x - c2) ~> (c1 + c2) < x;
    (x * c1) < (y * c1) ~~> x < y when (const_cond 0 (fun c => c >? 0));
    (x * c1) < (y * c1) ~~> y < x when (const_cond 0 (fun c => c <? 0));
    (floordiv' x c1) < c2 ~~> x < (c1 * c2) when (const_cond 0 (fun c => c >? 0));
    c1 < (floordiv' x c2) ~~> (((c1 + (PLike c1 1)) * c2) - (PLike ((c1 + (PLike c1 1)) * c2) 1)) < x when (const_cond 1 (fun c => c >? 0));
    ((floordiv' x c1) * c1) < x ~~> (lit dt 0) < (floormod' x c1) when (const_cond 0 (fun c => c >? 0));
    ((floordiv' x c1) * c1) < (x + y) ~~> (lit dt 0) < ((floormod' x c1) + y) when (const_cond 0 (fun c => c >? 0));
    ((floordiv' x c1) * c1) < (x - y) ~~> y < (floormod' x c1) when (const_cond 0 (fun c => c >? 0));
    (min' x y) < z ~> (x < z) || (y < z);
    (max' x y) < z ~> (x < z) && (y < z);
    z < (min' x y) ~> (z < x) && (z < y);
    z < (max' x y) ~> (z < x) || (z < y) ].

Definition Le_rules : list rule :=
  [ x <= x ~> truth true;
    (x + y) <= (x + z) ~> y <= z;
    (y + x) <= (x + z) ~> y <= z;
    (x + y) <= (z + x) ~> y <= z;
    (y + x) <= (z + x) ~> y <= z;
    (y - x) <= (z - x) ~> y <= z;
    (x - y) <= (x - z) ~> z <= y;
    (x + c1) <= c2 ~> x <= (c2 - c1);
    (x - c1) <= c2 ~> x <= (c2 + c1);
    c1 <= (x + c2) ~> (c1 - c2) <= x;
    c1 <= (x - c2) ~> (c1 + c2) <= x;
    (c1 - x) <= c2 ~> (c1 - c2) <= x;
    (x * c1) <= (y * c1) ~~> x <= y when (const_cond 0 (fun c => c >? 0));
    (x * c1) <= (y * c1) ~~> y <= x when (const_cond 0 (fun c => c <? 0)) ].

Definition Not_rules : list rule :=
  [ ! (! x) ~> x;
    ! (x < y) ~> y <= x;
    ! (x <= y) ~> y < x;
    ! (x > y) ~> y >= x;
    ! (x >= y) ~> y > x;
    ! (x == y) ~> x != y;
    ! (x != y) ~> x == y;
    ! (x || y) ~> (! x) && (! y);
    ! (x && y) ~> (! x) || (! y) ].

Definition And_rules : list rule :=
  [ x && x ~> x;
    x && (! x) ~> truth false;
    (! x) && x ~> truth false;
    (x == y) && (x != y) ~> truth false;
    (x != y) && (x == y) ~> truth false;
    (x <= y) && (y < x) ~> truth false;
    (y < x) && (x <= y) ~> truth false;
    (x < c1) && (c2 < x) ~~> truth false when (adjacent_cond);
    (c2 < x) && (x < c1) ~~> truth false when (adjacent_cond);
    (x <= c1) && (c2 <= x) ~~> truth false when (consts_cond (fun a b => b >? a));
    (c2 <= x) && (x <= c1) ~~> truth false when (consts_cond (fun a b => b >? a));
    x && (y && z) ~> (x && y) && z ].

Definition Or_rules : list rule :=
  [ x || x ~> x;
    x || (! x) ~> truth true;
    (! x) || x ~> truth true;
    (x == y) || (x != y) ~> truth true;
    (x != y) || (x == y) ~> truth true;
    (x <= y) || (y < x) ~> truth true;
    (y < x) || (x <= y) ~> truth true;
    (x < y) || (y < x) ~> x != y;
    (x < c1) || (c2 < x) ~~> truth true when (consts_cond (fun a b => b <? a));
    (c2 < x) || (x < c1) ~~> truth true when (consts_cond (fun a b => b <? a));
    (x <= c1) || (c2 <= x) ~~> truth true when (touching_cond);
    (c2 <= x) || (x <= c1) ~~> truth true when (touching_cond);
    (x < y) || (x == y) ~> x <= y;
    (x < y) || (y == x) ~> x <= y;
    (x == y) || (x < y) ~> x <= y;
    (y == x) || (x < y) ~> x <= y;
    x || (y || z) ~> (x || y) || z ].

Definition Neg_rules : list rule :=
  [ neg' (neg' x) ~> x;
    neg' (x - y) ~> y - x ].

End Guards.
