(* ===== verification/RewriteSound.v ===== *)
(** * Soundness of the rewrite rules

    Every rule of every table keeps uniform typing and the meaning of the
    expression: [Add_ok] to [Neg_ok], one theorem per table.  The tactics
    [rule_typing] and [rule_meaning] carry the proofs; the lemmas on quotients
    and remainders settle the rules with a literal or a divisor. *)

From Stdlib Require Import ZArith Lia Bool List.
From stdpp Require Import base list option.
From S2P Require Import Prelude Dtype IntOps ScalarExpr ConstFold PatternMatch RewriteRules.

(** ** Operations on values *)

(** The operations that occur in rules, on the values they accept. *)
Lemma op_val_eq k v w :
  match k, v, w with
  | KAdd, VInt a, VInt b => op_val k v w = Some (VInt (a + b))
  | KSub, VInt a, VInt b => op_val k v w = Some (VInt (a - b))
  | KMul, VInt a, VInt b => op_val k v w = Some (VInt (a * b))
  | KMin, VInt a, VInt b => op_val k v w = Some (VInt (Z.min a b))
  | KMax, VInt a, VInt b => op_val k v w = Some (VInt (Z.max a b))
  | KFloorDiv, VInt a, VInt b => b <> 0 -> op_val k v w = Some (VInt (a / b))
  | KFloorMod, VInt a, VInt b => b <> 0 -> op_val k v w = Some (VInt (a mod b))
  | KEq, VInt a, VInt b => op_val k v w = Some (VBool (a =? b))
  | KNe, VInt a, VInt b => op_val k v w = Some (VBool (negb (a =? b)))
  | KLt, VInt a, VInt b => op_val k v w = Some (VBool (a <? b))
  | KLe, VInt a, VInt b => op_val k v w = Some (VBool (a <=? b))
  | KGt, VInt a, VInt b => op_val k v w = Some (VBool (b <? a))
  | KGe, VInt a, VInt b => op_val k v w = Some (VBool (b <=? a))
  | KAnd, VBool a, VBool b => op_val k v w = Some (VBool (a && b))
  | KOr, VBool a, VBool b => op_val k v w = Some (VBool (a || b))
  | _, _, _ => True
  end.
Proof.
  destruct k, v as [a|a], w as [b|b]; try done; intros Hb; unfold op_val; simpl;
    by rewrite (proj2 (Z.eqb_neq b 0) Hb).
Qed.

Lemma un_val_eq k v :
  match k, v with
  | KNeg, VInt a => un_val k v = Some (VInt (- a))
  | KNot, VBool a => un_val k v = Some (VBool (negb a))
  | _, _ => True
  end.
Proof. by destruct k, v. Qed.

(** Conversely, the values an operation accepts. *)
Lemma op_val_inv k v w u : op_val k v w = Some u ->
  match k with
  | KAdd => exists a b, v = VInt a /\ w = VInt b /\ u = VInt (a + b)
  | KSub => exists a b, v = VInt a /\ w = VInt b /\ u = VInt (a - b)
  | KMul => exists a b, v = VInt a /\ w = VInt b /\ u = VInt (a * b)
  | KMin => exists a b, v = VInt a /\ w = VInt b /\ u = VInt (Z.min a b)
  | KMax => exists a b, v = VInt a /\ w = VInt b /\ u = VInt (Z.max a b)
  | KFloorDiv => exists a b, v = VInt a /\ w = VInt b /\ b <> 0 /\ u = VInt (a / b)
  | KFloorMod => exists a b, v = VInt a /\ w = VInt b /\ b <> 0 /\ u = VInt (a mod b)
  | KEq => exists a b, v = VInt a /\ w = VInt b /\ u = VBool (a =? b)
  | KNe => exists a b, v = VInt a /\ w = VInt b /\ u = VBool (negb (a =? b))
  | KLt => exists a b, v = VInt a /\ w = VInt b /\ u = VBool (a <? b)
  | KLe => exists a b, v = VInt a /\ w = VInt b /\ u = VBool (a <=? b)
  | KGt => exists a b, v = VInt a /\ w = VInt b /\ u = VBool (b <? a)
  | KGe => exists a b, v = VInt a /\ w = VInt b /\ u = VBool (b <=? a)
  | KAnd => exists a b, v = VBool a /\ w = VBool b /\ u = VBool (a && b)
  | KOr => exists a b, v = VBool a /\ w = VBool b /\ u = VBool (a || b)
  | _ => True
  end.
Proof.
  destruct k, v as [a|a], w as [b|b]; unfold op_val; simpl; try done;
    try (destruct (Z.eqb_spec b 0); [done |]); intros [= <-]; eauto 10.
Qed.

Lemma un_val_inv k v u : un_val k v = Some u ->
  match k with
  | KNeg => exists a, v = VInt a /\ u = VInt (- a)
  | KNot => exists a, v = VBool a /\ u = VBool (negb a)
  | _ => True
  end.
Proof. destruct k, v; unfold un_val; simpl; try done; intros [= <-]; eauto. Qed.

Lemma bin_inv (o o' : option value) k u :
  match o, o' with Some v, Some w => op_val k v w | _, _ => None end = Some u ->
  exists v w, o = Some v /\ o' = Some w /\ op_val k v w = Some u.
Proof. destruct o, o'; eauto; done. Qed.

Lemma un_inv (o : option value) k u :
  match o with Some v => un_val k v | None => None end = Some u ->
  exists v, o = Some v /\ un_val k v = Some u.
Proof. destruct o; eauto; done. Qed.

(** Invert the value of the source pattern down to its variables. *)
Ltac den_inv :=
  repeat match goal with
  | H : match ?o with Some _ => match ?o' with Some _ => op_val ?k _ _ | None => None end | None => None end = Some _ |- _ =>
      apply bin_inv in H; let v := fresh "v" in let w := fresh "w" in let E := fresh "E" in
      destruct H as (v & w & ? & ? & E);
      apply op_val_inv in E; cbv iota in E; destruct_and?; destruct E as (? & ? & E);
      destruct_and?; subst
  | H : match ?o with Some _ => un_val ?k _ | None => None end = Some _ |- _ =>
      apply un_inv in H; let v := fresh "v" in let E := fresh "E" in
      destruct H as (v & ? & E); apply un_val_inv in E; cbv iota in E;
      destruct E as (? & E); destruct_and?; subst
  | H : Some _ = Some _ |- _ => injection H as H; try subst
  end.

Lemma bin_eq (o o' : option value) k v w u :
  o = Some v -> o' = Some w -> op_val k v w = Some u ->
  match o, o' with Some v, Some w => op_val k v w | _, _ => None end = Some u.
Proof. by intros -> -> ->. Qed.

Lemma bin_eq_r (o : option value) k v w u :
  o = Some v -> op_val k v w = Some u ->
  match o with Some v => op_val k v w | None => None end = Some u.
Proof. by intros -> ->. Qed.

Lemma bin_eq_l (o : option value) k v w u :
  o = Some w -> op_val k v w = Some u ->
  match o with Some w => op_val k v w | None => None end = Some u.
Proof. by intros -> ->. Qed.

Lemma un_eq (o : option value) k v u :
  o = Some v -> un_val k v = Some u ->
  match o with Some v => un_val k v | None => None end = Some u.
Proof. by intros -> ->. Qed.

Lemma lit_eval dt v : IsInt dt = true -> int_result dt (sem_leaf ideal dt v) = Some (VInt v).
Proof. unfold int_result. by intros ->. Qed.

(** Evaluate the result pattern on the values of the variables; the
    denominators are left to [side]. *)
Ltac op_step side :=
  lazymatch goal with |- op_val ?k ?v ?w = _ =>
    let E := fresh in pose proof (op_val_eq k v w) as E; cbv iota in E;
    lazymatch type of E with _ -> _ => apply E; side | _ => exact E end
  end.
Ltac den_eval side :=
  lazymatch goal with
  | |- match ?o with Some _ => match ?o' with Some _ => op_val ?k _ _ | None => None end | None => None end = Some _ =>
      eapply bin_eq; [den_eval side | den_eval side | op_step side]
  | |- match ?o with Some v => op_val ?k v _ | None => None end = Some _ =>
      eapply bin_eq_r; [den_eval side | op_step side]
  | |- match ?o with Some w => op_val ?k _ w | None => None end = Some _ =>
      eapply bin_eq_l; [den_eval side | op_step side]
  | |- op_val _ _ _ = Some _ => op_step side
  | |- match ?o with Some _ => un_val ?k _ | None => None end = Some _ =>
      eapply un_eq; [den_eval side |];
      lazymatch goal with |- un_val ?k ?v = _ =>
        let E := fresh in pose proof (un_val_eq k v) as E; cbv iota in E; exact E
      end
  | |- Some _ = Some _ => reflexivity
  | |- int_result _ _ = Some _ => eapply lit_eval; eassumption
  | |- _ => eassumption
  end.

Section Rules.
Context `{Compare} `{VarTypes}.

(** What an answer of [TryCompare] claims of the expression's value. *)
Definition claims (r : CompareResult) (v w : Z) : Prop :=
  match r with
  | kInconsistent => False
  | kEQ => v = w | kLT => v < w | kLE => v <= w
  | kGT => w < v | kGE => w <= v | kNE => v <> w
  | kUnknown => True
  end.

(** The bound analyzer's answers hold in the environment. *)
Definition compare_sound (rho : Env) : Prop :=
  forall e w r v, TryCompare e w = Ok r -> eval ideal rho e = Some (VInt v) -> claims r v w.

(** The dtype of the left operand of the matched expression. *)
Definition left_type (b : Binds) (p : pat) : option DataType :=
  match p with PBin _ l _ => ptype b l | PUn _ l => ptype b l | _ => None end.

Definition rule_typed (dt : DataType) (r : rule) : Prop :=
  forall b, typed b (src r) -> left_type b (src r) = Some dt ->
  typed b (res r) /\ ptype b (res r) = ptype b (src r).

Definition rule_means (r : rule) : Prop :=
  forall rho b v, compare_sound rho -> typed b (src r) -> cond r b = Ok true ->
  den rho b (src r) = Some v -> den rho b (res r) = Some v.

(** Every left side is an operation. *)
Definition compound (p : pat) : bool :=
  match p with PBin _ _ _ | PUn _ _ => true | _ => false end.

Definition rule_ok (dt : DataType) (r : rule) : Prop :=
  source_pat (src r) && compound (src r) = true /\ rule_typed dt r /\ rule_means r.

Lemma val_eq (o : option value) v w : o = Some v -> v = w -> o = Some w.
Proof. by intros -> ->. Qed.

(** ** Quotients and remainders *)

Lemma div_exact q n d : d <> 0 -> n = q * d -> q = n / d.
Proof. intros Hd ->. by rewrite Z.div_mul. Qed.

Lemma div_plus q n d r : d <> 0 -> n = q * d + r -> q + r / d = n / d.
Proof. intros Hd ->. by rewrite Z.div_add_l. Qed.

Lemma div_plus' q n d r : d <> 0 -> n = q * d + r -> r / d + q = n / d.
Proof. intros. rewrite Z.add_comm. by apply div_plus. Qed.

Lemma div_cancel d q : d <> 0 -> d * q / d = q.
Proof. intros. rewrite Z.mul_comm. by apply Z.div_mul. Qed.

Lemma div_min a b d : 0 < d -> Z.min a b / d = Z.min (a / d) (b / d).
Proof.
  intros Hd. destruct (Z.le_ge_cases a b) as [Hl|Hl]; pose proof (Z.div_le_mono _ _ _ Hd Hl);
    [rewrite (Z.min_l a b) | rewrite (Z.min_r a b)]; lia.
Qed.

Lemma div_max a b d : 0 < d -> Z.max a b / d = Z.max (a / d) (b / d).
Proof.
  intros Hd. destruct (Z.le_ge_cases a b) as [Hl|Hl]; pose proof (Z.div_le_mono _ _ _ Hd Hl);
    [rewrite (Z.max_r a b) | rewrite (Z.max_l a b)]; lia.
Qed.

Lemma div_opp a d : d <> 0 -> a / d = - a / - d.
Proof. intros. by rewrite Z.div_opp_opp. Qed.

Lemma div_min_neg a b d : d < 0 -> Z.min (a / d) (b / d) = Z.max a b / d.
Proof.
  intros. rewrite !(div_opp _ d) by lia. rewrite <- div_min by lia. f_equal. lia.
Qed.

Lemma div_max_neg a b d : d < 0 -> Z.max (a / d) (b / d) = Z.min a b / d.
Proof. intros. rewrite !(div_opp _ d) by lia. rewrite <- div_max by lia. f_equal. lia. Qed.

Lemma div_quot_small x c q : 0 < q -> 0 < c -> x / q = x * c / (c * q).
Proof. intros. rewrite (Z.mul_comm c q), Z.div_mul_cancel_r; lia. Qed.

Lemma div_nested x c2 c1 c3 : 0 < c1 -> 0 < c3 -> (x + c1 * c2) / (c1 * c3) = (x / c1 + c2) / c3.
Proof. intros. rewrite <- Z.div_div by lia. f_equal. rewrite (Z.mul_comm c1 c2). apply Z.div_add. lia. Qed.

Lemma div_minus_mod x c : c <> 0 -> x / c = (x - x mod c) / c.
Proof. intros Hc. apply div_exact; [done |]. pose proof (Z.div_mod x c Hc). lia. Qed.

Lemma div_ltb a c b : 0 < c -> (a <? c * b) = (a / c <? b).
Proof.
  intros Hc. pose proof (Z.div_mod a c). pose proof (Z.mod_pos_bound a c Hc).
  apply Bool.eq_iff_eq_true. rewrite !Z.ltb_lt. split; intros; nia.
Qed.

Lemma ltb_div a c b : 0 < c -> ((b + 1) * c - 1 <? a) = (b <? a / c).
Proof.
  intros Hc. pose proof (Z.div_mod a c). pose proof (Z.mod_pos_bound a c Hc).
  apply Bool.eq_iff_eq_true. rewrite !Z.ltb_lt. split; intros; nia.
Qed.

Lemma mod_congr a b d k : d <> 0 -> a = b + k * d -> b mod d = a mod d.
Proof. intros Hd ->. by rewrite Z.mod_add. Qed.

Lemma mod_zero n d k : d <> 0 -> n = k * d -> 0 = n mod d.
Proof. intros Hd ->. by rewrite Z.mod_mul. Qed.

Lemma mod_scaled n m a d : d <> 0 -> (n + m * (a mod d)) mod d = (n + m * a) mod d.
Proof. intros. by rewrite <- Z.add_mod_idemp_r, Z.mul_mod_idemp_r, Z.add_mod_idemp_r. Qed.

(** ** What the guards establish *)

Definition xval (rho : Env) (b : Binds) (i : nat) : option value :=
  match bx b i with Some e => eval ideal rho e | None => None end.
Definition cval (b : Binds) (i : nat) : option value :=
  match bc b i with Some (v, _) => Some (VInt v) | None => None end.

Lemma const_val b i v : cval b i = Some (VInt v) -> const b i = v.
Proof. unfold cval, const. destruct (bc b i) as [[w d]|]; [by intros [= ->] | done]. Qed.

Lemma divides_inv n d b : divides_cond n d b = Ok true ->
  0 < const b d /\ exists q, const b n = const b d * q.
Proof.
  unfold divides_cond. case_match eqn:E; [|done]. intros Hc. bool_to_prop. split; [done |].
  apply bind_ok in Hc as (r & Hr & [= Hz]). bool_to_prop. subst r.
  unfold rem64 in Hr. case_match; simplify_eq. exists (Z.quot (const b n) (const b d)).
  pose proof (Z.quot_rem' (const b n) (const b d)). lia.
Qed.

Lemma and_then_inv f g b : and_then f g b = Ok true -> f b = Ok true /\ g b = Ok true.
Proof. unfold and_then. intros Hc. apply bind_ok in Hc as ([] & ? & ?); done. Qed.

Lemma or_else_inv f g b : or_else f g b = Ok true -> f b = Ok true \/ g b = Ok true.
Proof. unfold or_else. intros Hc. apply bind_ok in Hc as ([] & ? & ?); auto. Qed.

Lemma quotient_inv b : divides_cond 1 0 b = Ok true -> quotient_cond b = Ok true ->
  0 < const b 0 /\ exists q, const b 1 = const b 0 * q /\ 0 < q.
Proof.
  intros (Hp & q & Hq)%divides_inv. unfold quotient_cond, div64.
  intros Hc. apply bind_ok in Hc as (q' & Hq' & [= Hz]).
  case_match; [done |]. apply checked_ok in Hq' as [-> _]. split; [done |]. exists q. split; [done |].
  rewrite Hq, Z.mul_comm, Z.quot_mul in Hz by lia. bool_to_prop. lia.
Qed.

Lemma floormod_nonzero a c m : floormod a c = Ok m -> c <> 0.
Proof. intros Hf ->. unfold floormod, rem64 in Hf. done. Qed.

Lemma reduces_inv test b : reduces_cond test b = Ok true ->
  test (const b 1) = true /\ const b 1 <> 0.
Proof.
  unfold reduces_cond. case_match; [|done]. intros Hc. apply bind_ok in Hc as (m & Hm & _).
  split; [done | by eapply floormod_nonzero].
Qed.

Lemma outside_inv b : outside_cond b = Ok true -> 0 < const b 1.
Proof. unfold outside_cond. case_match; [|done]. intros _. bool_to_prop. lia. Qed.

Lemma adjacent_inv b : adjacent_cond b = Ok true -> const b 0 <= const b 1 + 1.
Proof.
  unfold adjacent_cond. intros (s & [-> _]%checked_ok & [= Hc])%bind_ok. bool_to_prop. lia.
Qed.

Lemma touching_inv b : touching_cond b = Ok true -> const b 1 <= const b 0 + 1.
Proof.
  unfold touching_cond. intros (s & [-> _]%checked_ok & [= Hc])%bind_ok. bool_to_prop. lia.
Qed.

Section Guards.
Context (rho : Env) (Ho : compare_sound rho).

Lemma canprove_ge e v w : CanProveGE e v = Ok true -> eval ideal rho e = Some (VInt w) -> v <= w.
Proof.
  unfold CanProveGE. intros (r & Hr & Hc)%bind_ok He. pose proof (Ho _ _ _ _ Hr He) as Hcl.
  destruct r; try done; simpl in Hcl; lia.
Qed.

Lemma canprove_le e v w : CanProveLE e v = Ok true -> eval ideal rho e = Some (VInt w) -> w <= v.
Proof.
  unfold CanProveLE. intros (r & Hr & Hc)%bind_ok He. pose proof (Ho _ _ _ _ Hr He) as Hcl.
  destruct r; try done; simpl in Hcl; lia.
Qed.

Lemma canprove_less e v w : CanProveLess e v = Ok true -> eval ideal rho e = Some (VInt w) -> w < v.
Proof.
  unfold CanProveLess. intros (r & Hr & Hc)%bind_ok He. pose proof (Ho _ _ _ _ Hr He) as Hcl.
  destruct r; try done; simpl in Hcl; lia.
Qed.

Lemma on_var_inv i f b w : on_var i f b = Ok true -> xval rho b i = Some (VInt w) ->
  exists e, f e = Ok true /\ eval ideal rho e = Some (VInt w).
Proof. unfold on_var, xval. destruct (bx b i); [eauto | done]. Qed.

Lemma nonzero_inv i b w : nonzero_cond i b = Ok true -> xval rho b i = Some (VInt w) -> w <> 0.
Proof.
  intros [Hc|Hc]%or_else_inv Hw; destruct (on_var_inv _ _ _ _ Hc Hw) as (e & Hp & He).
  - pose proof (canprove_ge _ _ _ Hp He). lia.
  - pose proof (canprove_le _ _ _ Hp He). lia.
Qed.

Lemma below_inv b w : below_cond b = Ok true -> xval rho b 0 = Some (VInt w) -> 0 <= w < const b 0.
Proof.
  intros (_ & (Hg & Hl)%and_then_inv)%and_then_inv Hw.
  destruct (on_var_inv _ _ _ _ Hg Hw) as (e & Hp & He).
  destruct (on_var_inv _ _ _ _ Hl Hw) as (e' & Hp' & He').
  split; [by eapply canprove_ge | by eapply canprove_less].
Qed.

Lemma difference_inv k f b v w :
  class_of k = CArith -> typed b (PBin k x y) -> difference_cond f b = Ok true ->
  xval rho b 0 = Some (VInt v) -> xval rho b 1 = Some (VInt w) ->
  exists e, f e 0 = Ok true /\ eval ideal rho e = Some (VInt (v - w)).
Proof.
  unfold difference_cond, xval. cbn [typed ptype]. intros ->.
  intros ((e0 & E0 & G0) & (e1 & E1 & G1) & Hi & Ht). rewrite E0, E1 in *. intros Hc Hx Hy.
  destruct (scalar_type e0) as [d|] eqn:Ed; [|done]. cbn in Hi.
  apply bind_ok in Hc as (e & He & Hf). exists e. split; [done |].
  change (MakeArith KSub e0 e1) with (MakeBinary KSub e0 e1) in He.
  rewrite (MakeBinary_uniform KSub e0 e1 d) in He by done. injection He as <-. simpl.
  rewrite Hx, Hy. simpl. unfold int_result. by rewrite Hi.
Qed.

End Guards.

(** Unfold what a rule means on the values of its variables. *)
Ltac rule_values :=
  intros rho b v Ho Ht Hc Hd;
  cbn [src res cond den lit truth MakeConstInt MakeConstBool eval] in Hd, Hc |- *; den_inv;
  repeat match goal with
  | E : VInt _ = VInt _ |- _ => injection E as E; try subst
  | E : VBool _ = VBool _ |- _ => injection E as E; try subst
  | E : ?o = Some ?a, E' : ?o = Some ?b |- _ => rewrite E in E'; injection E' as E'; try subst
  end;
  repeat match goal with
  | |- context [match bx b ?i with Some e => eval ideal rho e | None => None end] => fold (xval rho b i)
  | |- context [match bc b ?i with Some _ => _ | None => None end] => fold (cval b i)
  | E : match bx b ?i with Some e => eval ideal rho e | None => None end = _ |- _ => fold (xval rho b i) in E
  | E : match bc b ?i with Some _ => _ | None => None end = _ |- _ => fold (cval b i) in E
  end.

(** Turn the guard into facts on those values. *)
Ltac guard_facts :=
  repeat match goal with
  | E : cval ?b ?i = Some (VInt ?v) |- _ =>
      lazymatch goal with _ : const b i = v |- _ => fail | _ => pose proof (const_val b i v E) end
  end;
  repeat match goal with
  | H : and_then _ _ _ = Ok true |- _ => apply and_then_inv in H; destruct H
  | H : const_cond _ _ _ = Ok true |- _ => injection H as H
  | H : consts_cond _ _ = Ok true |- _ => injection H as H
  | H : divides_cond _ _ ?b = Ok true, H' : quotient_cond ?b = Ok true |- _ =>
      apply (quotient_inv b H) in H'; let q := fresh "q" in destruct H' as (? & q & H' & ?); clear H
  | H : divides_cond _ _ _ = Ok true |- _ =>
      lazymatch goal with _ : quotient_cond _ = Ok true |- _ => fail | _ => idtac end;
      apply divides_inv in H; let q := fresh "q" in destruct H as (? & q & H)
  | H : reduces_cond _ _ = Ok true |- _ => apply reduces_inv in H; destruct H
  | H : outside_cond _ = Ok true |- _ => apply outside_inv in H
  | H : adjacent_cond _ = Ok true |- _ => apply adjacent_inv in H
  | H : touching_cond _ = Ok true |- _ => apply touching_inv in H
  | Ho : compare_sound ?rho, H : nonzero_cond ?i ?b = Ok true, E : xval ?rho ?b ?i = _ |- _ =>
      apply (fun Hc => nonzero_inv rho Ho i b _ Hc E) in H
  | Ho : compare_sound ?rho, Ht : typed ?b _, H : difference_cond ?f ?b = Ok true,
    E : xval ?rho ?b 0 = _, E' : xval ?rho ?b 1 = _ |- _ =>
      let e := fresh "e" in let He := fresh "He" in let Hv := fresh "Hv" in
      first [destruct (difference_inv rho KMin f b _ _ eq_refl Ht H E E') as (e & He & Hv)
            |destruct (difference_inv rho KMax f b _ _ eq_refl Ht H E E') as (e & He & Hv)];
      first [apply (fun Hc => canprove_ge rho Ho e _ _ Hc Hv) in He
            |apply (fun Hc => canprove_le rho Ho e _ _ Hc Hv) in He]; clear H
  | Ho : compare_sound ?rho, H : below_cond ?b = Ok true, E : xval ?rho ?b 0 = _ |- _ =>
      apply (fun Hc => below_inv rho Ho b _ Hc E) in H
  end;
  repeat match goal with E : const ?b ?i = _ |- _ => rewrite E in *; clear E end;
  bool_to_prop.

(** [a = b * (a / b) + a mod b] for the quotients in view. *)
Ltac div_facts :=
  repeat match goal with
  | Hb : ?b <> 0 |- context [?a / ?b] =>
      lazymatch goal with _ : a = b * (a / b) + a mod b |- _ => fail | _ => pose proof (Z.div_mod a b Hb) end
  end.

Ltac bool_cases :=
  repeat match goal with b : bool |- _ => destruct b end; reflexivity.

(** Prove that a rule keeps the meaning. *)
Ltac rule_side := solve [assumption | lia | nia | subst; rewrite ?div_cancel by lia; lia].
Ltac rule_reduce := rule_values; guard_facts; eapply val_eq; [den_eval rule_side |]; f_equal.
Ltac rule_meaning := rule_reduce; div_facts; first [lia | nia | bool_cases].

(** The same for quotients by a literal or a divisor. *)
Ltac div_solve :=
  try (by first [apply div_min | symmetry; apply div_min_neg | apply div_max | symmetry; apply div_max_neg]);
  subst; rewrite ?div_min, ?div_max, ?div_cancel by lia;
  first
    [ symmetry; apply Z.div_small; lia | apply div_quot_small; lia | apply div_exact; [lia | ring] | apply div_plus; [lia | ring] | apply div_plus'; [lia | ring]
    | apply div_nested; lia | symmetry; apply Z.div_div; lia | by apply div_minus_mod
    | f_equal; first [apply div_exact; [lia | ring] | symmetry; apply div_exact; [lia | ring]] ].

Ltac mod_solve :=
  subst;
  first
    [ symmetry; apply Z.mod_small; lia | by apply mod_scaled
    | by apply Z.mul_mod_idemp_r | by apply Z.add_mod_idemp_r | symmetry; apply Zmult_mod_distr_l
    | multimatch goal with
      | k : Z |- _ => first [apply (mod_zero _ _ k) | apply (mod_congr _ _ _ k)]; [lia | ring]
      | k : Z, l : Z |- _ => first [apply (mod_zero _ _ (k * l)) | apply (mod_congr _ _ _ (k * l))]; [lia | ring]
      end ].

(** Prove that a rule keeps uniform typing. *)
Lemma good_literal v dt : IsInt dt = true -> in_int64 v = true -> good (ConstInt v dt).
Proof. by split. Qed.

Ltac rule_typing :=
  intros b Ht Hl; cbn -[in_int64] in Ht, Hl |- *; destruct_and?;
  repeat match goal with
  | H : exists _, _ |- _ => destruct H
  | H : _ /\ _ |- _ => destruct H
  end;
  repeat match goal with
  | E : bx ?b ?i = Some ?e, E' : bx ?b ?i = Some ?e' |- _ => rewrite E in E'; injection E' as <-
  | E : bc ?b ?i = Some ?e, E' : bc ?b ?i = Some ?e' |- _ => rewrite E in E'; injection E' as <- <-
  end;
  repeat match goal with
  | E : bx ?b ?i = Some ?e |- _ => rewrite !E in *; clear E
  | E : bc ?b ?i = Some ?e |- _ => rewrite !E in *; clear E
  end;
  split_and?; try first [eassumption | done | congruence
  | eexists; split; [reflexivity | first [eassumption | by apply good_literal | done]]
  | do 2 eexists; split; [reflexivity | split; eassumption]].

Ltac rules :=
  repeat (apply List.Forall_cons; [split; [done|split; [rule_typing|try rule_meaning]]|]);
  [..|apply List.Forall_nil].

Lemma Add_ok dt : Forall (rule_ok dt) Add_rules.
Proof.
  unfold Add_rules. rules. Qed.

Lemma Sub_ok dt : IsInt dt = true -> Forall (rule_ok dt) (Sub_rules dt).
Proof. intros Hdt. unfold Sub_rules. rules. Qed.

Lemma Mul_ok dt : Forall (rule_ok dt) Mul_rules.
Proof. unfold Mul_rules. rules. Qed.

Lemma Neg_ok dt : Forall (rule_ok dt) Neg_rules.
Proof. unfold Neg_rules. rules. Qed.

Lemma Eq_ok dt : Forall (rule_ok dt) Eq_rules.
Proof. unfold Eq_rules. rules. Qed.

Lemma Ne_ok dt : Forall (rule_ok dt) Ne_rules.
Proof. unfold Ne_rules. rules. Qed.


Lemma Not_ok dt : Forall (rule_ok dt) Not_rules.
Proof. unfold Not_rules. rules. Qed.

Lemma FloorDiv_ok dt : IsInt dt = true -> Forall (rule_ok dt) (FloorDiv_rules dt).
Proof. intros Hdt. unfold FloorDiv_rules. rules. all: rule_reduce; div_solve. Qed.

Lemma FloorMod_ok dt : IsInt dt = true -> Forall (rule_ok dt) (FloorMod_rules dt).
Proof. intros Hdt. unfold FloorMod_rules. rules. all: rule_reduce; mod_solve. Qed.

Lemma Lt_ok dt : IsInt dt = true -> Forall (rule_ok dt) (Lt_rules dt).
Proof. intros Hdt. unfold Lt_rules. rules. all: rule_reduce; by first [apply div_ltb | apply ltb_div]. Qed.

Lemma Le_ok dt : Forall (rule_ok dt) Le_rules.
Proof. unfold Le_rules. rules. Qed.

Lemma And_ok dt : Forall (rule_ok dt) And_rules.
Proof. unfold And_rules. rules. Qed.

Lemma Or_ok dt : Forall (rule_ok dt) Or_rules.
Proof. unfold Or_rules. rules. Qed.

Lemma Min_ok dt : Forall (rule_ok dt) Min_rules.
Proof. unfold Min_rules. rules. all: rule_reduce; div_solve. Qed.

Lemma Max_ok dt : Forall (rule_ok dt) Max_rules.
Proof. unfold Max_rules. rules. all: rule_reduce; div_solve. Qed.

End Rules.

(** ** The tables *)

Section Tables.
Context `{Compare} `{VarTypes}.

(** C2: Every rewrite rule of the Add, Sub, Mul, FloorDiv, FloorMod, Min, Max and Neg
    visitors is sound on its own: a match of the left side whose guard holds (guards on
    literals and on answers of the bound analyzer) gives a right side of the same dtype,
    uniformly typed, with the same value, floor division and floor modulo by negative
    divisors included. *)
Theorem arithmetic_rules_sound dt :
  IsInt dt = true ->
  Forall (rule_ok dt)
    (Add_rules ++ Sub_rules dt ++ Mul_rules ++ FloorDiv_rules dt ++ FloorMod_rules dt ++
     Min_rules ++ Max_rules ++ Neg_rules).
Proof.
  intros Hd. repeat (apply Forall_app; split);
    auto using Add_ok, Sub_ok, Mul_ok, FloorDiv_ok, FloorMod_ok, Min_ok, Max_ok, Neg_ok.
Qed.

(** C3: Every rewrite rule of the Eq, Ne, Lt, Le, Not, And and Or visitors is sound on its
    own: a match whose guard holds gives a boolean expression, uniformly typed, with the
    same truth value. *)
Theorem logic_rules_sound dt :
  IsInt dt = true ->
  Forall (rule_ok dt)
    (Eq_rules ++ Ne_rules ++ Lt_rules dt ++ Le_rules ++ Not_rules ++ And_rules ++ Or_rules).
Proof.
  intros Hd. repeat (apply Forall_app; split);
    auto using Eq_ok, Ne_ok, Lt_ok, Le_ok, Not_ok, And_ok, Or_ok.
Qed.

End Tables.

#[local] Instance no_answers : Compare := fun _ _ => Ok kUnknown.
#[local] Instance index_vars : VarTypes := fun _ => Some INDEX.

Lemma arithmetic_rules_sound_witness : Forall (rule_ok INDEX) Add_rules.
Proof.
  refine (proj1 (proj1 (Forall_app _ _ _) (arithmetic_rules_sound INDEX _))). reflexivity.
Defined.

Lemma logic_rules_sound_witness : Forall (rule_ok INDEX) Eq_rules.
Proof.
  refine (proj1 (proj1 (Forall_app _ _ _) (logic_rules_sound INDEX _))). reflexivity.
Defined.
