(* ===== verification/RewriteSimplify.v ===== *)
(** * The rewrite simplifier ([src/ir/arith/rewrite_simplify.cpp])

    The visitor that simplifies the children of a node, folds constants,
    rebuilds the node and applies the first rule that matches; the literal
    constraints; and the theorem that a simplified expression means what the
    original means. *)

From Stdlib Require Import ZArith Lia Bool List.
From stdpp Require Import base gmap list option.
From S2P Require Import Prelude Dtype IntOps ScalarExpr ConstFold ConstIntBound PatternMatch.
From S2P Require Import RewriteRules RewriteSound.

(** ** [TryCompare] (the parent analyzer's bounds) *)

(** The parent's [const_int_bound], or no parent in standalone mode. *)
Definition parent_compare (parent : option (expr -> result Bound)) : Compare := fun e val =>
  match parent with
  | None => Ok kUnknown
  | Some const_int_bound =>
      let* bound := const_int_bound e in
      Ok (if (min_value bound =? val) && (max_value bound =? val) then kEQ
          else if min_value bound >? val then kGT
          else if min_value bound =? val then kGE
          else if max_value bound <? val then kLT
          else if max_value bound =? val then kLE
          else kUnknown)
  end.

(** ** The visitor *)

Abbreviation VarMap := (gmap positive expr).

(** [kMaxRecursiveDepth]. *)
Definition kMaxRecursiveDepth : nat := 5.

Definition is_float_expr (e : expr) : bool :=
  match scalar_type e with Some d => IsFloat d | None => false end.

Definition AsVarLike (e : expr) : bool := match e with Var _ _ _ => true | _ => false end.

(** The early returns of [VisitExpr]: a float-typed expression that is not a
    variable, and an operation on floats under at most one negation. *)
Definition keeps (e : expr) : bool :=
  (is_float_expr e && negb (AsVarLike e)) ||
  match (match e with Unary KNot o _ => o | _ => e end) with
  | Binary _ l r _ => is_float_expr l || is_float_expr r
  | _ => false
  end.

(** [PreserveIntegerResultType] of [simplify_utils.h]. *)
Definition PreserveIntegerResultType (original result : expr) : Prelude.result expr :=
  match scalar_type original with
  | Some d =>
      if negb (IsInt d || dtype_eqb d INDEX) then Ok result
      else
        let* result_dtype := GetScalarDtype result in
        if negb (IsInt result_dtype || dtype_eqb result_dtype INDEX) || dtype_eqb result_dtype d
        then Ok result
        else
          let* f := TryConstFoldCast result d in
          match f with Some e => Ok e | None => Ok (MakeCast result d) end
  | None => Ok result
  end.

(** [VisitExpr] around the visitor of the node's kind. *)
Definition around (e : expr) (visit_node : result expr) : result expr :=
  if keeps e then Ok e
  else let* r := visit_node in PreserveIntegerResultType e r.

Section Visitor.
Context `{PtrEq} `{Libm} `{Compare}.

(** The rule table of each operation; [dt] is the dtype its literals get. *)
Definition binary_rules (k : binkind) (dt : DataType) : list rule :=
  match k with
  | KAdd => Add_rules | KSub => Sub_rules dt | KMul => Mul_rules
  | KFloorDiv => FloorDiv_rules dt | KFloorMod => FloorMod_rules dt
  | KMin => Min_rules | KMax => Max_rules
  | KEq => Eq_rules | KNe => Ne_rules | KLt => Lt_rules dt | KLe => Le_rules
  | KAnd => And_rules | KOr => Or_rules
  | _ => []
  end.

Definition unary_rules (k : unkind) : list rule :=
  match k with KNot => Not_rules | KNeg => Neg_rules | _ => [] end.

(** The sequence of [PYPTO_TRY_REWRITE]s that ends a visitor: the first rule
    that matches and whose guard holds. *)
Fixpoint try_rules (rewrite : expr -> result expr) (rules : list rule) (ret : expr) : result expr :=
  match rules with
  | [] => Ok ret
  | r :: rules =>
      match Match (src r) ret with
      | None => try_rules rewrite rules ret
      | Some b =>
          let* c := cond r b in
          if c : bool then
            let* e := Eval (res r) b in
            if recurse r then rewrite e else Ok e
          else try_rules rewrite rules ret
      end
  end.

Definition MutateBinary (k : binkind) (op l r a b : expr) : result expr :=
  if same a l && same b r then Ok op else MakeBinary k a b.

Definition MutateUnary (k : unkind) (op o a : expr) : result expr :=
  if same a o then Ok op else MakeUnary k a.

(** The visitors of binary operations other than [Gt] and [Ge], after both
    children, [l] and [r] of [op], have been visited to [a] and [b]. *)
Definition visit_binary (rewrite : expr -> result expr) (op : expr) (k : binkind) (l r : expr)
    (dtype : DataType) (a b : expr) : result expr :=
  let divides := bool_decide (k = KFloorDiv \/ k = KFloorMod) in
  if divides && negb (FloorDivModOperandsFitDtype a b dtype) then
    (if same a l && same b r then Ok op else Ok (Binary k a b dtype))
  else
    let* f := (if divides then TryConstFoldBinary k a b dtype else TryConstFoldBinarySame k a b) in
    match f with
    | Some e => Ok e
    | None =>
        let* ret := MutateBinary k op l r a b in
        match class_of k with
        | CCompare =>
            let* dt := GetScalarDtype a in
            if IsFloat dt then Ok ret else try_rules rewrite (binary_rules k dt) ret
        | _ =>
            let* dt := GetScalarDtype ret in
            try_rules rewrite (binary_rules k dt) ret
        end
    end.

(** The visitors of unary operations, [o] of [op] visited to [a]. *)
Definition visit_unary (rewrite : expr -> result expr) (op : expr) (k : unkind) (o : expr)
    (dtype : DataType) (a : expr) : result expr :=
  match k with
  | KCast =>
      let* f := TryConstFoldCast a dtype in
      match f with
      | Some e => Ok e
      | None => if same a o then Ok op else Ok (MakeCast a dtype)
      end
  | _ =>
      let* f := TryConstFoldUnary k a in
      match f with
      | Some e => Ok e
      | None =>
          let* ret := MutateUnary k op o a in
          try_rules rewrite (unary_rules k) ret
      end
  end.

(** Visit [e'], which operand promotion made from [e]: [e] itself or a cast of
    it.  [v] is the visit of [e]. *)
Definition visit_promoted (rewrite : expr -> result expr) (e e' : expr) (v : result expr) : result expr :=
  if bool_decide (e' = e) then v
  else match e' with
  | Unary KCast _ t => around e' (let* a := v in visit_unary rewrite e' KCast e t a)
  | _ => Err InternalError
  end.

(** [Gt] and [Ge] visit the mirrored [Lt] and [Le]. *)
Definition mirror (k : binkind) : option binkind :=
  match k with KGt => Some KLt | KGe => Some KLe | _ => None end.

Definition visit_node (rewrite : expr -> result expr) (m : VarMap) : expr -> result expr :=
  fix go (e : expr) : result expr :=
    around e
      match e with
      | Var _ id _ => Ok (default e (m !! id))
      | ConstInt _ _ | ConstFloat _ _ | ConstBool _ | Leaf _ _ _ => Ok e
      | Unary k o dt => let* a := go o in visit_unary rewrite e k o dt a
      | Binary k l r dt =>
          match mirror k with
          | None =>
              let* a := go l in
              let* b := go r in
              visit_binary rewrite e k l r dt a b
          | Some k' =>
              let* e' := MakeBinary k' r l in
              match e' with
              | Binary _ l' r' dt' =>
                  around e'
                    (let* a := visit_promoted rewrite r l' (go r) in
                     let* b := visit_promoted rewrite l r' (go l) in
                     visit_binary rewrite e' k' l' r' dt' a b)
              | _ => Err InternalError
              end
          end
      end.

(** [VisitExpr] with [budget] levels of [RecursiveRewrite] left:
    [kMaxRecursiveDepth - recursive_depth_]. *)
Fixpoint visit (budget : nat) (m : VarMap) : expr -> result expr :=
  visit_node (match budget with O => fun e => Ok e | S budget => visit budget m end) m.

Definition RecursiveRewrite (budget : nat) (m : VarMap) (e : expr) : result expr :=
  match budget with O => Ok e | S budget => visit budget m e end.

Definition VisitExpr (m : VarMap) (e : expr) : result expr := visit kMaxRecursiveDepth m e.

End Visitor.

(** ** Constraints *)

(** [ExtractConstraints] of [constraint_extract.h]: a worklist, its back the
    head of the list. *)
Fixpoint extract_loop (fuel : nat) (worklist result : list expr) : Prelude.result (list expr) :=
  match worklist with
  | [] => Ok result
  | current :: worklist =>
      match fuel with
      | O => Err OutOfFuel
      | S fuel =>
          extract_loop fuel
            (match current with Binary KAnd l r _ => l :: r :: worklist | _ => worklist end)
            (result ++ [current])
      end
  end.

(** The nodes of an [&&]-chain, the fuel that is enough. *)
Fixpoint chain_size (e : expr) : nat :=
  match e with Binary KAnd l r _ => S (chain_size l + chain_size r) | _ => 1 end.

Definition ExtractConstraints (e : expr) : result (list expr) :=
  extract_loop (chain_size e) [e] [].

Record State := MkState { var_map : VarMap; literal_constraints : list expr }.

Definition Update (s : State) (id : positive) (info : option expr) : State :=
  MkState (match info with Some e => <[id := e]> (var_map s) | None => delete id (var_map s) end)
          (literal_constraints s).

Section Constraints.
Context `{PtrEq} `{Libm} `{Compare}.

(** The state inside the scope, and the size the recovery restores. *)
Definition EnterConstraint (s : State) (constraint : expr) : result (State * nat) :=
  let* simplified := VisitExpr (var_map s) constraint in
  let* parts := ExtractConstraints simplified in
  Ok (MkState (var_map s) (literal_constraints s ++ parts), length (literal_constraints s)).

Definition Recover (s : State) (old_size : nat) : State :=
  MkState (var_map s) (take old_size (literal_constraints s)).

Definition match_literal (constraint e : expr) : option expr :=
  if same constraint e then Some (MakeConstBool true)
  else
    let negation :=
      match e with Unary KNot o _ => if same constraint o then true else false | _ => false end in
    if negation then Some (MakeConstBool false)
    else match constraint with
    | Unary KNot o _ => if same o e then Some (MakeConstBool false) else None
    | _ => None
    end.

Fixpoint TryMatchLiteralConstraint (constraints : list expr) (e : expr) : option expr :=
  match constraints with
  | [] => None
  | c :: constraints =>
      match match_literal c e with
      | Some b => Some b
      | None => TryMatchLiteralConstraint constraints e
      end
  end.

End Constraints.

(** ** Soundness *)

Section Soundness.
Context `{PtrEq} `{Libm} `{Compare} `{VarTypes} (rho : Env).

(** [e'] stands for [e]: uniformly typed, of the same type, and of the same
    value wherever [e] has one. *)
Definition means (e e' : expr) : Prop :=
  good e' /\ scalar_type e' = scalar_type e /\
  forall v, eval ideal rho e = Some v -> eval ideal rho e' = Some v.

(** What is bound to a variable has the variable's value, and its type up to
    an integer conversion that keeps the value. *)
Definition binding_ok (id : positive) (e' : expr) : Prop :=
  good e' /\ eval ideal rho e' = Some (var_val rho id) /\
  (scalar_type e' = var_type id \/
   exists d z, var_type id = Some d /\ IsInt d = true /\ var_val rho id = VInt z /\ fits d z).

Definition map_ok (m : VarMap) : Prop := forall id e', m !! id = Some e' -> binding_ok id e'.

Lemma means_refl e : good e -> means e e.
Proof. done. Qed.

Lemma means_trans e1 e2 e3 : means e1 e2 -> means e2 e3 -> means e1 e3.
Proof. intros (? & E1 & V1) (? & E2 & V2). split; [done |]. split; [congruence | auto]. Qed.

Lemma good_binary k l r dt : good (Binary k l r dt) -> good l /\ good r.
Proof.
  intros [Hw Hf]. cbn [wt wf] in *. bool_to_prop. by repeat split.
Qed.

Lemma good_unary k o dt : good (Unary k o dt) -> good o.
Proof. intros [Hw Hf]. cbn [wt wf] in *. bool_to_prop. by repeat split. Qed.

(** The dtypes of an operation's operands and result. *)
Lemma good_operands k l r dt : good (Binary k l r dt) ->
  operands_ok k (scalar_type l) (scalar_type r) /\
  exists d, scalar_type l = Some d /\ result_dtype k d = dt.
Proof.
  intros [Hw _]. cbn [wt] in Hw. apply andb_true_iff in Hw as [_ Hc]. unfold operands_ok, has_type in *.
  destruct (class_of k) eqn:Ek; try done; bool_to_prop;
    repeat match goal with E : bool_decide _ = true |- _ => apply bool_decide_eq_true in E end.
  - match goal with L : scalar_type l = Some dt |- _ => rewrite L end. split; [split; [done | congruence] |].
    exists dt. split; [done |]. by destruct k.
  - match goal with L : int_typed (scalar_type l) = true |- _ => unfold int_typed in L end.
    destruct (scalar_type l) as [d|]; [|done]. split; [done |]. exists d. split; [done |].
    match goal with D : IsBoolDtype dt = true |- _ => apply dtype_eqb_eq in D as -> end. by destruct k.
  - split; [done |]. exists BOOL. split; [done |].
    match goal with D : IsBoolDtype dt = true |- _ => apply dtype_eqb_eq in D as -> end. by destruct k.
Qed.

(** Other operands of the same types. *)
Lemma rebuild_good k l r dt a b :
  good (Binary k l r dt) -> good a -> good b -> scalar_type a = scalar_type l -> scalar_type b = scalar_type r ->
  good (Binary k a b dt).
Proof.
  intros [Hw _] [Wa Fa] [Wb Fb] Ta Tb. unfold good. cbn [wt wf] in *.
  apply andb_true_iff in Hw as [_ Hc]. unfold has_type in *. by rewrite Wa, Wb, Fa, Fb, Ta, Tb, Hc.
Qed.

Lemma rebuild_good_unary k o dt a :
  good (Unary k o dt) -> good a -> scalar_type a = scalar_type o -> good (Unary k a dt).
Proof.
  intros [Hw Hf] [Wa Fa] Ta. unfold good. cbn [wt wf] in *. bool_to_prop. unfold has_type in *.
  rewrite Wa, Fa, Ta. by split.
Qed.

Lemma good_rebuild k l r dt a b :
  good (Binary k l r dt) -> means l a -> means r b -> means (Binary k l r dt) (Binary k a b dt).
Proof.
  intros Hg (Ga & Ta & Va) (Gb & Tb & Vb). split.
  - by eapply rebuild_good.
  - split; [done |]. intros v Hv. apply eval_binary_inv in Hv as (x & y & Ex & Ey & Hs).
    cbn [eval]. by rewrite (Va _ Ex), (Vb _ Ey).
Qed.

(** Folding two operands of dtype [d]. *)
Lemma fold_means k a b dt d e' :
  good (Binary k a b dt) -> scalar_type a = Some d ->
  TryConstFoldBinary k a b d = Ok (Some e') -> means (Binary k a b dt) e'.
Proof.
  intros Hg Ha Hf. destruct (good_binary _ _ _ _ Hg) as [[Wa Fa] [Wb Fb]].
  destruct (good_operands _ _ _ _ Hg) as (Ho & d' & Hd' & Hdt).
  assert (d' = d) as -> by congruence.
  destruct (fold_binary_typed k a b d Wa Wb Ho Ha _ Hf) as [We Te].
  split; [split; [done | by apply (TryConstFoldBinary_wf k a b d Fa Fb)] |].
  split.
  - rewrite Te, Ha. cbn [scalar_type]. rewrite <- Hdt. unfold node_type. by destruct k.
  - intros v Hv. apply (TryConstFoldBinary_fold_sound ideal rho k a b dt v e' Fa Fb Hv).
    subst dt. by destruct k.
Qed.

Lemma MutateBinary_eq k l r dt a b ret :
  good (Binary k a b dt) -> MutateBinary k (Binary k l r dt) l r a b = Ok ret -> ret = Binary k a b dt.
Proof.
  intros Gn Hr. unfold MutateBinary in Hr. destruct (same a l && same b r) eqn:E.
  - apply andb_true_iff in E as [->%same_eq ->%same_eq]. congruence.
  - destruct (good_binary _ _ _ _ Gn) as [Ga Gb].
    destruct (good_operands _ _ _ _ Gn) as (Ho & d & Hd & Hdt).
    destruct (MakeBinary_good k a b d Ga Gb Ho Hd) as (Hm & _). congruence.
Qed.

Lemma cast_fold_means a dt e' :
  good (Unary KCast a dt) -> TryConstFoldCast a dt = Ok (Some e') -> means (Unary KCast a dt) e'.
Proof.
  intros Hg Hf. destruct (good_unary _ _ _ Hg) as [Wa Fa].
  assert (IsInt dt = true) as Hi by (destruct Hg as [Hw _]; cbn [wt] in Hw; by bool_to_prop).
  split; [|split].
  - destruct a as [|v d| | | | |]; try done. cbn [TryConstFoldCast] in Hf. repeat case_match; try done.
    injection Hf as <-. by split.
  - destruct a as [|v d| | | | |]; try done. cbn [TryConstFoldCast] in Hf. repeat case_match; try done.
    by injection Hf as <-.
  - intros v Hv. by apply (TryConstFoldCast_sound ideal rho a dt v e' Fa Hv).
Qed.

Lemma good_unary_type k o dt : good (Unary k o dt) -> k <> KCast ->
  scalar_type o = Some dt /\ match k with KNot => dt = BOOL | KCast => False | _ => IsInt dt = true end.
Proof.
  intros [Hw _] Hk. cbn [wt] in Hw. apply andb_true_iff in Hw as [_ Hc]. unfold has_type in *.
  destruct k; try done; apply andb_true_iff in Hc as [Hd Ht]; apply bool_decide_eq_true in Ht; try done.
  apply dtype_eqb_eq in Hd. by subst.
Qed.

Lemma unary_fold_means k a dt e' :
  good (Unary k a dt) -> k <> KCast -> TryConstFoldUnary k a = Ok (Some e') ->
  means (Unary k a dt) e'.
Proof.
  intros Hg Hk Hf. destruct (good_unary _ _ _ Hg) as [Wa Fa].
  destruct (good_unary_type _ _ _ Hg Hk) as [Ta Hd].
  destruct (fold_unary_typed k a dt Wa Ta Hd _ Hf) as [We Te].
  split; [split; [done | by apply (TryConstFoldUnary_wf k a)] | split; [done |]].
  intros v Hv. by apply (TryConstFoldUnary_sound ideal rho k a dt v e').
Qed.

Definition operand_type (e : expr) : option DataType :=
  match e with Binary _ l _ _ => scalar_type l | Unary _ o _ => scalar_type o | _ => None end.

Lemma instance_operand b p e :
  source_pat p && compound p = true -> instance_of b p e -> good e -> left_type b p = operand_type e.
Proof.
  intros [Hs Hc]%andb_true_iff Hi Hg. destruct p as [| |k p q|k p| |]; try done; cbn [instance_of source_pat] in *.
  - destruct Hi as (l & r & d & -> & Hl & Hr). bool_to_prop. destruct (good_binary _ _ _ _ Hg) as [Gl _].
    cbn [left_type operand_type]. by apply (instance_typed b p) in Hl as [_ ?].
  - destruct Hi as (o & d & -> & Ho). pose proof (good_unary _ _ _ Hg) as Go.
    cbn [left_type operand_type]. apply (instance_typed b p) in Ho as [_ ?]; try done. by destruct k.
Qed.

Lemma MutateUnary_eq k o dt a ret :
  good (Unary k a dt) -> k <> KCast -> MutateUnary k (Unary k o dt) o a = Ok ret -> ret = Unary k a dt.
Proof.
  intros Gn Hk Hr. unfold MutateUnary in Hr. destruct (same a o) eqn:E; [apply same_eq in E as ->; congruence |].
  destruct (good_unary_type _ _ _ Gn Hk) as [Ha Hd].
  destruct (MakeUnary_good k a dt (good_unary _ _ _ Gn) Ha Hd) as [Hm _]. congruence.
Qed.

Section Recursion.
Context (rewrite : expr -> result expr).
Hypothesis rewrite_means : forall e e', good e -> rewrite e = Ok e' -> means e e'.
Hypothesis answers : compare_sound rho.

Lemma rule_means_ok r dl ret b e :
  rule_ok dl r -> good ret -> operand_type ret = Some dl ->
  Match (src r) ret = Some b -> cond r b = Ok true -> Eval (res r) b = Ok e -> means ret e.
Proof.
  intros (Hs & Ht & Hm) Hg Hl Hb Hc He. pose proof Hs as Hs'. apply andb_true_iff in Hs' as [Hsrc _].
  apply Match_instance in Hb as Hi; [|done].
  destruct (instance_typed b (src r) Hsrc ret Hi Hg) as [Htb Hty].
  pose proof (instance_operand b (src r) ret Hs Hi Hg) as Hlt. rewrite Hl in Hlt.
  destruct (Ht b Htb Hlt) as [Htr Hpt].
  destruct (Eval_built b (res r) e Htr He) as (Ge & Te & De).
  split; [done |]. split; [congruence |]. intros v Hv. apply De. apply (Hm rho b v); try done.
  by eapply instance_den.
Qed.

Lemma try_rules_means rules dl ret e' :
  Forall (rule_ok dl) rules -> good ret -> operand_type ret = Some dl ->
  try_rules rewrite rules ret = Ok e' -> means ret e'.
Proof.
  intros Hr Hg Hl. induction Hr as [|r rules Hok _ IH]; cbn [try_rules]; [by intros [= <-] |].
  destruct (Match (src r) ret) as [b|] eqn:Hb; [|done].
  intros (c & Hc & He)%bind_ok. destruct c; [|by apply IH].
  apply bind_ok in He as (e & Hev & He).
  pose proof (rule_means_ok r dl ret b e Hok Hg Hl Hb Hc Hev) as Hm.
  destruct (recurse r); [|by simplify_eq]. apply (means_trans _ e); [done |].
  apply rewrite_means; [apply Hm | done].
Qed.

Lemma binary_rules_ok k dl :
  IsInt dl = true \/ class_of k = CLogic -> Forall (rule_ok dl) (binary_rules k dl).
Proof.
  intros Hd. destruct k; cbn [binary_rules]; try (by constructor);
    try (destruct Hd as [Hd|Hd]; [|done]);
    auto using Add_ok, Sub_ok, Mul_ok, FloorDiv_ok, FloorMod_ok, Min_ok, Max_ok, Eq_ok, Ne_ok,
      Lt_ok, Le_ok, And_ok, Or_ok.
Qed.

Lemma unary_rules_ok k dl : Forall (rule_ok dl) (unary_rules k).
Proof. destruct k; cbn [unary_rules]; try (by constructor); [apply Neg_ok | apply Not_ok]. Qed.

(** The rules of a rebuilt node. *)
Definition apply_rules (k : binkind) (a ret : expr) : result expr :=
  match class_of k with
  | CCompare =>
      let* dt := GetScalarDtype a in
      if IsFloat dt then Ok ret else try_rules rewrite (binary_rules k dt) ret
  | _ =>
      let* dt := GetScalarDtype ret in try_rules rewrite (binary_rules k dt) ret
  end.

Lemma apply_rules_means k a b dt e' :
  good (Binary k a b dt) -> apply_rules k a (Binary k a b dt) = Ok e' ->
  means (Binary k a b dt) e'.
Proof.
  intros Gn Hv. destruct (good_operands _ _ _ _ Gn) as (Ho & d & Hd & Hdt).
  assert (Hrun : IsInt d = true \/ class_of k = CLogic ->
    try_rules rewrite (binary_rules k d) (Binary k a b dt) = Ok e' -> means (Binary k a b dt) e').
  { intros Hc Ht. apply (try_rules_means (binary_rules k d) d); [|exact Gn|exact Hd|exact Ht].
    apply binary_rules_ok. exact Hc. }
  unfold apply_rules, operands_ok in *. rewrite Hd in Ho.
  destruct (class_of k) eqn:Ek; [| | |destruct Ho]; apply bind_ok in Hv as (d' & Hd' & Hv);
    apply GetScalarDtype_ok in Hd'.
  - assert (result_dtype k d = d) by (clear -Ek; by destruct k).
    cbn [scalar_type] in Hd'. assert (d' = d) as -> by congruence.
    apply Hrun; [left; apply Ho | exact Hv].
  - assert (d' = d) as -> by congruence. destruct (IsFloat d); [injection Hv as <-; by apply means_refl |].
    apply Hrun; [left; apply Ho | exact Hv].
  - assert (result_dtype k d = BOOL) by (clear -Ek; by destruct k).
    cbn [scalar_type] in Hd'. destruct Ho. assert (d' = d) as -> by congruence.
    apply Hrun; [by right | exact Hv].
Qed.

Lemma visit_binary_means k l r dt a b e' :
  good (Binary k l r dt) -> means l a -> means r b ->
  visit_binary rewrite (Binary k l r dt) k l r dt a b = Ok e' -> means (Binary k l r dt) e'.
Proof.
  intros Hg Ma Mb Hv. pose proof (good_rebuild _ _ _ _ _ _ Hg Ma Mb) as Mn.
  pose proof (proj1 Mn) as Gn. destruct (good_operands _ _ _ _ Gn) as (Ho & d & Hd & Hdt).
  assert (Hdi : bool_decide (k = KFloorDiv \/ k = KFloorMod) = true -> dt = d).
  { intros [-> | ->]%bool_decide_eq_true; done. }
  unfold visit_binary in Hv.
  destruct (bool_decide (k = KFloorDiv \/ k = KFloorMod)) eqn:Ek.
  all: cbn [andb] in Hv; try rewrite <- (Hdi eq_refl) in Hd.
  1: destruct (negb _).
  1: { destruct (same a l && same b r) eqn:E; injection Hv as <-; [by apply means_refl | done]. }
  all: apply bind_ok in Hv as (f & Hf & Hv).
  2: unfold TryConstFoldBinarySame in Hf; apply bind_ok in Hf as (d' & Hd' & Hf);
     apply GetScalarDtype_ok in Hd'; assert (d' = d) as -> by congruence.
  all: destruct f as [e|];
    [injection Hv as <-; by apply (means_trans _ (Binary k a b dt)), (fold_means k a b dt _ e Gn Hd) |].
  all: apply bind_ok in Hv as (ret & Hret & Hv); apply (MutateBinary_eq _ _ _ _ _ _ _ Gn) in Hret as ->;
    apply (means_trans _ (Binary k a b dt)); [done |]; by apply apply_rules_means.
Qed.

Lemma visit_unary_means k o dt a e' :
  good (Unary k o dt) -> means o a ->
  visit_unary rewrite (Unary k o dt) k o dt a = Ok e' -> means (Unary k o dt) e'.
Proof.
  intros Hg (Ga & Ta & Va) Hv.
  assert (Mn : means (Unary k o dt) (Unary k a dt)).
  { split.
    - by eapply rebuild_good_unary.
    - split; [done |]. intros v Hev. cbn [eval] in *. destruct (eval ideal rho o) as [w|] eqn:Eo; [|done].
      by rewrite (Va _ eq_refl). }
  pose proof (proj1 Mn) as Gn. apply (means_trans _ (Unary k a dt)); [done |].
  destruct (decide (k = KCast)) as [->|Hk].
  - cbn [visit_unary] in Hv. apply bind_ok in Hv as (f & Hf & Hv).
    destruct f as [e|]; [injection Hv as <-; by apply cast_fold_means |].
    destruct (same a o) eqn:E; [apply same_eq in E as -> |]; injection Hv as <-; by apply means_refl.
  - assert (Hv' : (let* f := TryConstFoldUnary k a in
        match f with Some e => Ok e | None =>
          let* ret := MutateUnary k (Unary k o dt) o a in try_rules rewrite (unary_rules k) ret end) = Ok e')
      by (clear -Hk Hv; by destruct k).
    clear Hv. apply bind_ok in Hv' as (f & Hf & Hv).
    destruct f as [e|]; [injection Hv as <-; by apply unary_fold_means |].
    apply bind_ok in Hv as (ret & Hr & Hv). destruct (good_unary_type _ _ _ Gn Hk) as [Ha Hd].
    apply (MutateUnary_eq k o dt a ret Gn Hk) in Hr as ->.
    apply (try_rules_means (unary_rules k) dt); [apply unary_rules_ok | exact Gn | exact Ha | exact Hv].
Qed.

Lemma PreserveIntegerResultType_same e r r' :
  scalar_type r = scalar_type e -> PreserveIntegerResultType e r = Ok r' -> r' = r.
Proof.
  unfold PreserveIntegerResultType, GetScalarDtype. intros ->. destruct (scalar_type e) as [d|]; [|congruence].
  cbn [bind]. rewrite dtype_eqb_refl, orb_true_r. by case_match; intros [= ->].
Qed.

Lemma around_means e body e' :
  good e -> (forall r, body = Ok r -> means e r) -> around e body = Ok e' -> means e e'.
Proof.
  intros Hg Hb. unfold around. destruct (keeps e); [by intros [= <-] |].
  intros (r & Hr & He)%bind_ok. pose proof (Hb r Hr) as Hm.
  apply PreserveIntegerResultType_same in He as ->; [done | apply Hm].
Qed.

(** A substituted variable keeps its type, by a conversion if it needs one. *)
Lemma around_var_means m iter id ty e' :
  map_ok m -> good (Var iter id ty) ->
  around (Var iter id ty) (Ok (default (Var iter id ty) (m !! id))) = Ok e' ->
  means (Var iter id ty) e'.
Proof.
  intros Hm Hg. destruct (m !! id) as [r|] eqn:E; unfold default, from_option, Datatypes.id.
  2: { apply around_means; [done |]. intros r [= <-]. by apply means_refl. }
  destruct (Hm id r E) as (Gr & Vr & Ht).
  pose proof Hg as [Hw _]. cbn [wt] in Hw. apply andb_true_iff in Hw as [Hty _].
  apply bool_decide_eq_true in Hty. rewrite Hty in Ht.
  assert (Hload : forall v, eval ideal rho (Var iter id ty) = Some v -> v = var_val rho id).
  { intros v Hv. cbn [eval] in Hv. unfold load in Hv. destruct ty, (var_val rho id); inv_eval; subst; try done.
    simpl in *. inv_eval. by subst. }
  destruct Ht as [Ht|(d & z & -> & Hi & Hz & Hfit)].
  - apply around_means; [done |]. intros r' [= <-]. split; [done |]. split; [done |].
    intros v Hv. by rewrite (Hload _ Hv).
  - unfold around. assert (keeps (Var iter id (Some d)) = false) as ->
      by (unfold keeps; cbn [AsVarLike negb]; by rewrite andb_false_r). cbn [bind].
    intros He. rewrite Hz in Vr. destruct (eval_typed ideal rho r _ Vr) as (dr & Hdr & Hir).
    cbn [value_type] in Hir.
    assert (Hvar : forall e, good e -> scalar_type e = Some d -> eval ideal rho e = Some (VInt z) ->
              means (Var iter id (Some d)) e).
    { intros e Ge Te Ve. split; [done |]. split; [done |]. intros v Hv.
      by rewrite (Hload _ Hv), Hz. }
    unfold PreserveIntegerResultType in He. cbn [scalar_type] in He. rewrite Hi in He.
    cbn [orb negb] in He. apply bind_ok in He as (dr' & Hdr' & He). apply GetScalarDtype_ok in Hdr'.
    assert (dr' = dr) as -> by congruence. rewrite Hir in He. cbn [orb negb] in He.
    destruct (dtype_eqb dr d) eqn:Ed.
    { injection He as <-. apply dtype_eqb_eq in Ed as ->. by apply Hvar. }
    assert (Gc : good (Unary KCast r d)).
    { destruct Gr as [Wr Fr]. unfold good. cbn [wt wf]. rewrite Wr, Fr, Hi, Hdr. cbn [int_typed]. by rewrite Hir. }
    assert (Mc : means (Unary KCast r d) e').
    { apply bind_ok in He as (f & Hf & He). destruct f as [e|]; injection He as <-;
        [by apply cast_fold_means | by apply means_refl]. }
    destruct Mc as (Ge & Te & Ve). apply Hvar; [done | done |]. apply Ve. cbn [eval]. rewrite Vr.
    cbn. unfold int_result. rewrite Hi. cbn. by rewrite Hfit.
Qed.

Lemma MakeBinary_mirror k k' l r dt e' :
  mirror k = Some k' -> good (Binary k l r dt) -> MakeBinary k' r l = Ok e' ->
  e' = Binary k' r l dt /\ means (Binary k l r dt) e'.
Proof.
  intros Hk Hg He. destruct (good_binary _ _ _ _ Hg) as [Gl Gr].
  destruct (good_operands _ _ _ _ Hg) as (Ho & d & Hd & Hdt).
  assert (Hcl : class_of k = CCompare /\ class_of k' = CCompare /\ dt = BOOL)
    by (destruct k; try done; injection Hk as <-; subst dt; done).
  destruct Hcl as (C & C' & ->). unfold operands_ok in Ho. rewrite C in Ho. destruct Ho as [Hi Heq].
  destruct (MakeBinary_good k' r l d Gr Gl) as (Hm & Gn & Tn).
  { unfold operands_ok. rewrite C'. split; congruence. }
  { congruence. }
  assert (result_dtype k' d = BOOL) as Hb by (clear -C'; by destruct k'). rewrite Hb in *.
  assert (e' = Binary k' r l BOOL) as -> by congruence. split; [done |].
  split; [done |]. split; [done |]. intros v Hv.
  apply eval_binary_inv in Hv as (x & y & Ex & Ey & Hs). cbn [eval]. rewrite Ex, Ey.
  destruct k; try done; injection Hk as <-; destruct x, y; done.
Qed.

Lemma visit_node_means m e : map_ok m -> forall e',
  good e -> visit_node rewrite m e = Ok e' -> means e e'.
Proof.
  intros Hm. induction e as [iter id ty|v d|f d|t|k l IHl r IHr dt|k o IH dt|k id ty]; intros e' Hg Hv;
    cbn [visit_node] in Hv.
  - by apply (around_var_means m).
  - revert Hv. apply around_means; [done |]. intros r [= <-]. by apply means_refl.
  - revert Hv. apply around_means; [done |]. intros r [= <-]. by apply means_refl.
  - revert Hv. apply around_means; [done |]. intros r [= <-]. by apply means_refl.
  - revert Hv. apply around_means; [done |]. intros res Hv.
    destruct (good_binary _ _ _ _ Hg) as [Gl Gr].
    destruct (mirror k) as [k'|] eqn:Ek.
    + apply bind_ok in Hv as (lt & Hlt & Hv).
      destruct (MakeBinary_mirror k k' l r dt lt Ek Hg Hlt) as [-> Hmir].
      apply (means_trans _ _ _ Hmir). revert Hv. apply around_means; [apply Hmir |]. intros e0 Hv.
      unfold visit_promoted in Hv. rewrite !bool_decide_eq_true_2 in Hv by done.
      apply bind_ok in Hv as (a & Ha & Hv). apply bind_ok in Hv as (b & Hb & Hv).
      apply (visit_binary_means k' r l dt a b); [apply Hmir | by apply IHr | by apply IHl | exact Hv].
    + apply bind_ok in Hv as (a & Ha & Hv). apply bind_ok in Hv as (b & Hb & Hv).
      apply (visit_binary_means k l r dt a b); [done | by apply IHl | by apply IHr | exact Hv].
  - revert Hv. apply around_means; [done |]. intros res Hv.
    apply bind_ok in Hv as (a & Ha & Hv). pose proof (good_unary _ _ _ Hg).
    apply (visit_unary_means k o dt a); [done | by apply IH | exact Hv].
  - revert Hv. apply around_means; [done |]. intros r [= <-]. by apply means_refl.
Qed.

End Recursion.

Lemma visit_means budget m e e' :
  compare_sound rho -> map_ok m -> good e -> visit budget m e = Ok e' -> means e e'.
Proof.
  intros Hc Hm. revert e e'. induction budget as [|budget IH]; intros e e' Hg Hv;
    (eapply visit_node_means; [| exact Hc | exact Hm | exact Hg | exact Hv]); [|exact IH].
  intros e0 e1 G0 [= <-]. by apply means_refl.
Qed.

End Soundness.

(** C1: The rewrite simplifier keeps types and meaning: for a uniformly typed integer or
    boolean expression, with a bound-analyzer that answers correctly and variable bindings
    that have their variable's value, every expression VisitExpr returns (children visited,
    constants folded, node rebuilt, first matching rule of about 330 applied and the result
    simplified again up to five levels) is uniformly typed, has the same dtype, and
    evaluates to the same value wherever the original has one. *)
Theorem VisitExpr_sound `{PtrEq} `{Libm} `{Compare} `{VarTypes} rho m e e' :
  compare_sound rho -> map_ok rho m -> good e -> VisitExpr m e = Ok e' ->
  good e' /\ scalar_type e' = scalar_type e /\
  forall v, eval ideal rho e = Some v -> eval ideal rho e' = Some v.
Proof. intros Hc Hm Hg He. by apply (visit_means rho kMaxRecursiveDepth m e e'). Qed.

(** ** The visitor's delegations *)

Lemma MaybeCast_cases e d e' : MaybeCast e d = Ok e' -> e' = e \/ e' = Unary KCast e d.
Proof.
  unfold MaybeCast. intros (t & _ & He)%bind_ok. repeat case_match; simplify_eq; auto.
Qed.

Lemma cast_neq e d : Unary KCast e d <> e.
Proof.
  revert d. induction e; intros d; try done. intros [= <- Hr <-]. by eapply IHe.
Qed.

Section Delegation.
Context `{PtrEq} `{Libm} `{Compare}.

Lemma visit_promoted_visit rewrite m e e' d :
  e' = e \/ e' = Unary KCast e d ->
  visit_promoted rewrite e e' (visit_node rewrite m e) = visit_node rewrite m e'.
Proof.
  unfold visit_promoted. intros [-> | ->]; [by rewrite bool_decide_eq_true_2 |].
  rewrite bool_decide_eq_false_2 by apply cast_neq. reflexivity.
Qed.

Lemma MakeCompare_shape k l r e :
  MakeCompare k l r = Ok e -> exists l' r' d, e = Binary k l' r' BOOL /\
    (l' = l \/ l' = Unary KCast l d) /\ (r' = r \/ r' = Unary KCast r d).
Proof.
  unfold MakeCompare, PromoteBinaryOperands.
  intros ([[l' r'] d'] & Hp & [= <-])%bind_ok.
  apply bind_ok in Hp as (dl & _ & Hp). apply bind_ok in Hp as (dr & _ & Hp).
  apply bind_ok in Hp as (d & _ & Hp). apply bind_ok in Hp as (l0 & Hl & Hp).
  apply bind_ok in Hp as (r0 & Hr & [= -> -> ->]). exists l', r', d'.
  split; [done |]. by split; apply MaybeCast_cases.
Qed.

(** The Gt and Ge visitors are exactly the visit of the mirrored Lt and Le node that
    MakeLt or MakeLe builds, operand casts of the promotion included. *)
Theorem visit_mirror budget m k k' l r dt :
  mirror k = Some k' ->
  visit budget m (Binary k l r dt) =
    around (Binary k l r dt) (let* e' := MakeCompare k' r l in visit budget m e').
Proof.
  intros Hk.
  assert (Hn : forall rw, visit_node rw m (Binary k l r dt) =
    around (Binary k l r dt) (let* e' := MakeCompare k' r l in visit_node rw m e')).
  { intros rw. cbn [visit_node]. rewrite Hk. f_equal.
    assert (MakeBinary k' r l = MakeCompare k' r l) as -> by (destruct k; try done; by injection Hk as <-).
    destruct (MakeCompare k' r l) as [e|] eqn:Em; [|done]. cbn [bind].
    destruct (MakeCompare_shape _ _ _ _ Em) as (r' & l' & d & -> & Hr & Hl).
    fold (visit_node rw m). rewrite !(visit_promoted_visit rw m _ _ d) by done.
    cbn [visit_node]. by destruct k; try done; injection Hk as <-. }
  destruct budget; apply Hn.
Qed.

End Delegation.

(** ** The bound analyzer answers *)

(** With the bound analyzer as parent, the simplifier's TryCompare is right: the
    comparison it reports between an expression and an integer holds of the expression's
    value. *)
Theorem TryCompare_sound m rho e w r v :
  env_ok m rho -> queries_ok rho e -> eval bounded rho e = Some (VInt v) ->
  parent_compare (Some (ConstIntBound.VisitExpr m)) e w = Ok r -> claims r v w.
Proof.
  intros Hm Hq Hev Hr. unfold parent_compare in Hr. apply bind_ok in Hr as (b & Hb & [= <-]).
  pose proof (VisitExpr_in_bound m rho e (VInt v) b Hm Hq Hev Hb) as Hin. unfold in_bound in Hin. cbn [num] in Hin.
  repeat case_match; bool_to_prop; simpl; lia.
Qed.

(** Without a parent every answer is [kUnknown]. *)
Lemma standalone_sound rho : @compare_sound (parent_compare None) rho.
Proof. by intros e w r v [= <-] _. Qed.

(** ** Constraints *)

(** The preorder of an [&&]-chain. *)
Fixpoint chain (e : expr) : list expr :=
  e :: match e with Binary KAnd l r _ => chain l ++ chain r | _ => [] end.

Definition conjuncts (e : expr) : list expr :=
  match e with Binary KAnd l r _ => [l; r] | _ => [] end.

Lemma chain_unfold e :
  chain e = e :: flat_map chain (conjuncts e) /\
  chain_size e = S (list_sum (map chain_size (conjuncts e))) /\
  forall w, (match e with Binary KAnd l r _ => l :: r :: w | _ => w end) = conjuncts e ++ w.
Proof.
  destruct e as [| | | |[]| |]; try done. cbn [chain chain_size conjuncts flat_map map app].
  rewrite app_nil_r. split_and!; try done. simpl. f_equal. lia.
Qed.

Lemma extract_loop_chain fuel worklist result :
  (list_sum (map chain_size worklist) <= fuel)%nat ->
  extract_loop fuel worklist result = Ok (result ++ flat_map chain worklist).
Proof.
  revert worklist result. induction fuel as [|fuel IH]; intros [|e w] result Hf;
    cbn [extract_loop flat_map]; rewrite ?app_nil_r; try done;
    destruct (chain_unfold e) as (Hc & Hs & Hp);
    change (list_sum (map chain_size (e :: w))) with (chain_size e + list_sum (map chain_size w))%nat in Hf;
    [lia |].
  rewrite Hp, IH by (rewrite map_app, list_sum_app; lia).
  by rewrite Hc, flat_map_app, <- !app_assoc.
Qed.

Lemma ExtractConstraints_parts e : ExtractConstraints e = Ok (chain e).
Proof.
  unfold ExtractConstraints. rewrite extract_loop_chain by (simpl; lia). simpl. by rewrite app_nil_r.
Qed.

(** The worklist loop of ExtractConstraints ends and returns the nodes of the
    conjunction in preorder, each conjunction before its parts. *)
Theorem ExtractConstraints_chain e : ExtractConstraints e = Ok (chain e).
Proof. apply ExtractConstraints_parts. Qed.

Lemma chain_true rho e :
  eval ideal rho e = Some (VBool true) ->
  Forall (fun c => eval ideal rho c = Some (VBool true)) (chain e).
Proof.
  induction e as [| | | |k l IHl r IHr dt| |]; intros He; cbn [chain]; (apply List.Forall_cons; [done |]);
    try by constructor.
  destruct k; try by constructor.
  apply eval_binary_inv in He as (v & w & El & Er & Hs).
  destruct v as [|a], w as [|b]; try done. cbn in Hs. inv_eval.
  match goal with E : true = a && b |- _ => symmetry in E; apply andb_true_iff in E as [-> ->] end.
  apply Forall_app. auto.
Qed.

Section Literals.
Context `{PtrEq} `{Libm} `{Compare} (rho : Env).

Definition holds (constraints : list expr) : Prop :=
  Forall (fun c => eval ideal rho c = Some (VBool true)) constraints.

Lemma match_literal_sound c e e' v :
  eval ideal rho c = Some (VBool true) -> match_literal c e = Some e' ->
  eval ideal rho e = Some v -> eval ideal rho e' = Some v.
Proof.
  intros Hc Hm He. unfold match_literal in Hm.
  destruct (same c e) eqn:E; [apply same_eq in E as ->; simplify_eq; done |].
  destruct (match e with Unary KNot o _ => if same c o then true else false | _ => false end) eqn:En.
  - simplify_eq. destruct e as [| | | | |[] o dt|]; try done.
    destruct (same c o) eqn:Eo; [|done]. apply same_eq in Eo as ->.
    cbn [eval] in He. rewrite Hc in He. cbn in He. inv_eval. by subst.
  - clear En. destruct c as [| | | | |[] o dt|]; try done.
    destruct (same o e) eqn:Eo; [|done]. apply same_eq in Eo as ->. simplify_eq.
    cbn [eval] in Hc. rewrite He in Hc. by destruct v as [|[]]; cbn in Hc; inv_eval.
Qed.

Lemma TryMatchLiteralConstraint_sound cs e e' v :
  holds cs -> TryMatchLiteralConstraint cs e = Some e' ->
  eval ideal rho e = Some v -> eval ideal rho e' = Some v.
Proof.
  intros Hh Hm He. induction Hh as [|c cs Hc _ IH]; [done |]. cbn [TryMatchLiteralConstraint] in Hm.
  destruct (match_literal c e) eqn:E; [simplify_eq; by eapply match_literal_sound | auto].
Qed.

End Literals.

(** Entering a constraint that holds keeps every recorded literal constraint true, a
    literal constraint that matches an expression gives the expression's truth value, and
    the recovery function restores the state. *)
Theorem EnterConstraint_sound `{PtrEq} `{Libm} `{Compare} `{VarTypes} rho s c s' n :
  compare_sound rho -> map_ok rho (var_map s) -> holds rho (literal_constraints s) ->
  good c -> eval ideal rho c = Some (VBool true) ->
  EnterConstraint s c = Ok (s', n) ->
  Recover s' n = s /\ holds rho (literal_constraints s') /\
  forall e e' v, TryMatchLiteralConstraint (literal_constraints s') e = Some e' ->
    eval ideal rho e = Some v -> eval ideal rho e' = Some v.
Proof.
  intros Ho Hm Hh Hg Hc Hs. unfold EnterConstraint in Hs.
  apply bind_ok in Hs as (e & He & Hs). apply bind_ok in Hs as (parts & Hp & [= <- <-]).
  rewrite ExtractConstraints_parts in Hp. injection Hp as <-.
  destruct (visit_means rho _ _ _ _ Ho Hm Hg He) as (_ & _ & Hv).
  assert (Hall : holds rho (literal_constraints s ++ chain e)).
  { apply Forall_app. split; [done |]. apply chain_true. auto. }
  split; [|split; [done | intros e0 e1 v; by apply TryMatchLiteralConstraint_sound]].
  unfold Recover. cbn [var_map literal_constraints]. rewrite take_app_length. by destruct s.
Qed.

(** ** Witnesses *)

#[local] Instance no_libm : Libm := {| std_pow := fun a _ => a |}.
#[local] Instance no_parent : Compare := parent_compare None.
#[local] Instance index_vars : VarTypes := fun _ => Some INDEX.

Definition vx : expr := Var false 1 (Some INDEX).
Definition vy : expr := Var false 2 (Some INDEX).
Definition index (v : Z) : expr := ConstInt v INDEX.

(** [((x * 8 + y) // 8) * 8 + (x * 8 + y) % 8], with [y] bound to [3]. *)
Definition tile_expr : expr :=
  let e := Binary KAdd (Binary KMul vx (index 8) INDEX) vy INDEX in
  Binary KAdd (Binary KMul (Binary KFloorDiv e (index 8) INDEX) (index 8) INDEX)
              (Binary KFloorMod e (index 8) INDEX) INDEX.

Definition tile_map : VarMap := {[ 2%positive := index 3 ]}.
Definition tile_env : Env := {| var_val := fun p => VInt (if (p =? 2)%positive then 3 else 5);
                                leaf_val := fun _ => VInt 0 |}.

Lemma tile_map_ok : map_ok tile_env tile_map.
Proof.
  intros id e. unfold tile_map. rewrite lookup_singleton_Some. intros [<- <-].
  split; [done |]. split; [done | by left].
Qed.

Lemma VisitExpr_sound_witness :
  VisitExpr tile_map tile_expr = Ok (Binary KAdd (Binary KMul vx (index 8) INDEX) (index 3) INDEX) /\
  eval ideal tile_env (Binary KAdd (Binary KMul vx (index 8) INDEX) (index 3) INDEX) = Some (VInt 43).
Proof.
  split; [vm_compute; reflexivity |].
  apply (VisitExpr_sound tile_env tile_map tile_expr);
    [apply standalone_sound | apply tile_map_ok | split; reflexivity
    | vm_compute; reflexivity | vm_compute; reflexivity].
Defined.

Lemma visit_mirror_witness :
  visit 5 ∅ (Binary KGt vx (index 3) BOOL) =
  around (Binary KGt vx (index 3) BOOL) (visit 5 ∅ (Binary KLt (index 3) vx BOOL)).
Proof. rewrite (visit_mirror 5 ∅ KGt KLt vx (index 3) BOOL); reflexivity. Defined.

Definition range_map : ConstIntBound.BoundMap := {[ 1%positive := MkBound 0 7 ]}.

Lemma range_map_ok : env_ok range_map tile_env.
Proof.
  intros id b. unfold range_map. rewrite lookup_singleton_Some. intros [<- <-].
  unfold in_bound. simpl. lia.
Qed.

Lemma TryCompare_sound_witness :
  parent_compare (Some (ConstIntBound.VisitExpr range_map)) vx 8 = Ok kLT /\ claims kLT 5 8.
Proof.
  split; [reflexivity |].
  apply (TryCompare_sound range_map tile_env vx 8 kLT 5);
    [apply range_map_ok | repeat split | reflexivity | reflexivity].
Defined.

(** Inside [with x < 8 && 0 <= x:] the parts of the condition are known. *)
Definition scope_cond : expr :=
  Binary KAnd (Binary KLt vx (index 8) BOOL) (Binary KLe (index 0) vx BOOL) BOOL.

Lemma EnterConstraint_sound_witness :
  exists s' n, EnterConstraint (MkState ∅ []) scope_cond = Ok (s', n) /\
    length (literal_constraints s') = 3%nat /\ holds tile_env (literal_constraints s').
Proof.
  eexists _, _. split; [vm_compute; reflexivity |]. split; [reflexivity |].
  eapply (EnterConstraint_sound tile_env (MkState ∅ []) scope_cond);
    [apply standalone_sound | by intros id e | by constructor | split; reflexivity
    | vm_compute; reflexivity | vm_compute; reflexivity].
Defined.

(** ** The guard of the touching intervals overflows

    [(x <= INT64_MAX) || (0 <= x)]: the rule for two half lines that cover the
    integers adds 1 to the literal before it compares. *)
(** Finding: simplifying (x <= INT64_MAX) || (0 <= x) evaluates INT64_MAX + 1 in the
    guard of the Or rules, a signed overflow. *)
Theorem touching_cond_overflow :
  VisitExpr ∅ (Binary KOr (Binary KLe vx (ConstInt INT64_MAX INDEX) BOOL)
                          (Binary KLe (index 0) vx BOOL) BOOL) = Err UndefinedBehaviour.
Proof. vm_compute. reflexivity. Qed.
