(* ===== verification/Canonical.v ===== *)
(** * The canonical simplifier ([src/ir/arith/canonical_simplify.cpp], [canonical_simplify.h])

    Sums of scaled quotients and remainders: the terms, their merging, the
    divisions of a sum, and the visitor with its cache of sums. *)

From Stdlib Require Import ZArith Lia Bool List.
From stdpp Require Import base gmap list option.
From S2P Require Import Prelude Dtype IntOps ScalarExpr ConstFold ConstIntBound PatternMatch.
From S2P Require Import RewriteSimplify.

(** ** Sums *)

(** [((index % upper_factor) / lower_factor) * scale]; [kPosInf] stands for no
    modulus. *)
Record SplitExpr := MkSplit { index : expr; lower_factor : Z; upper_factor : Z; scale : Z }.

Record SumExpr := MkSum { sum_base : Z; sum_args : list SplitExpr; sum_dtype : DataType }.

(** A term of an expression as it is. *)
Definition simple_split (e : expr) (scale : Z) : SplitExpr := MkSplit e 1 kPosInf scale.

Definition set_scale (s : SplitExpr) (scale : Z) : SplitExpr :=
  MkSplit (index s) (lower_factor s) (upper_factor s) scale.

(** ** Back to expressions *)

Definition NormalizeSplit (split : SplitExpr) (dtype : DataType) : result expr :=
  let* e := (if upper_factor split =? kPosInf then Ok (index split)
             else MakeBinary KFloorMod (index split) (MakeConstInt (upper_factor split) dtype)) in
  let* e := (if lower_factor split =? 1 then Ok e
             else MakeBinary KFloorDiv e (MakeConstInt (lower_factor split) dtype)) in
  if scale split =? 1 then Ok e
  else if scale split =? -1 then MakeNeg e
  else MakeBinary KMul e (MakeConstInt (scale split) dtype).

Fixpoint normalize_terms (args : list SplitExpr) (dtype : DataType) : result (list expr) :=
  match args with
  | [] => Ok []
  | arg :: args =>
      if scale arg =? 0 then normalize_terms args dtype
      else
        let* t := NormalizeSplit arg dtype in
        let* ts := normalize_terms args dtype in
        Ok (t :: ts)
  end.

Fixpoint add_terms (e : expr) (ts : list expr) : result expr :=
  match ts with [] => Ok e | t :: ts => let* e := MakeBinary KAdd e t in add_terms e ts end.

Definition Normalize (s : SumExpr) : result expr :=
  let* terms := normalize_terms (sum_args s) (sum_dtype s) in
  match terms with
  | [] => Ok (MakeConstInt (sum_base s) (sum_dtype s))
  | t :: ts =>
      let* e := add_terms t ts in
      if sum_base s =? 0 then Ok e
      else MakeBinary KAdd e (MakeConstInt (sum_base s) (sum_dtype s))
  end.

(** ** Merging terms *)

Section Merging.
Context `{PtrEq}.

Definition TryMergeSameFactors (a b : SplitExpr) : option SplitExpr :=
  if negb (same (index a) (index b)) then None
  else if negb (lower_factor a =? lower_factor b) then None
  else if negb (upper_factor a =? upper_factor b) then None
  else if AddWouldOverflow (scale a) (scale b) then None
  else Some (set_scale a (scale a + scale b)).

(** The lambda [try_merge]. *)
Definition merge_div_mod (div_part mod_part : SplitExpr) : option SplitExpr :=
  if negb (lower_factor mod_part =? 1) then None
  else if upper_factor mod_part =? kPosInf then None
  else if negb (lower_factor div_part =? upper_factor mod_part) then None
  else if MulWouldOverflow (lower_factor div_part) (scale mod_part) then None
  else if negb (scale div_part =? lower_factor div_part * scale mod_part) then None
  else Some (MkSplit (index mod_part) (lower_factor mod_part) (upper_factor div_part) (scale mod_part)).

Definition TryMergeDivModPair (a b : SplitExpr) : option SplitExpr :=
  if negb (same (index a) (index b)) then None
  else match merge_div_mod a b with Some m => Some m | None => merge_div_mod b a end.

Definition try_merge (a b : SplitExpr) : option SplitExpr :=
  match TryMergeSameFactors a b with Some m => Some m | None => TryMergeDivModPair a b end.

(** The inner loop of [MergeTerms]: [args[i]] is [a], [rest] what follows it;
    the flag is [changed]. *)
Fixpoint merge_into (a : SplitExpr) (rest : list SplitExpr) : SplitExpr * list SplitExpr * bool :=
  match rest with
  | [] => (a, [], false)
  | b :: rest =>
      if scale b =? 0 then
        let '(a, rest, changed) := merge_into a rest in (a, b :: rest, changed)
      else match try_merge a b with
      | Some m => let '(a, rest, _) := merge_into m rest in (a, set_scale b 0 :: rest, true)
      | None => let '(a, rest, changed) := merge_into a rest in (a, b :: rest, changed)
      end
  end.

(** One turn of the [while] loop, over the [n] terms of the list. *)
Fixpoint merge_pass (n : nat) (args : list SplitExpr) : list SplitExpr * bool :=
  match n, args with
  | S n, a :: rest =>
      if scale a =? 0 then let (rest, changed) := merge_pass n rest in (a :: rest, changed)
      else
        let '(a, rest, changed) := merge_into a rest in
        let (rest, changed') := merge_pass n rest in
        (a :: rest, changed || changed')
  | _, _ => (args, false)
  end.

Fixpoint merge_loop (fuel : nat) (args : list SplitExpr) : result (list SplitExpr) :=
  match fuel with
  | O => Err OutOfFuel
  | S fuel =>
      let (args, changed) := merge_pass (length args) args in
      if changed : bool then merge_loop fuel args else Ok args
  end.

Definition MergeTerms (args : list SplitExpr) : result (list SplitExpr) :=
  let* args := merge_loop (S (length args)) args in
  Ok (List.filter (fun s => negb (scale s =? 0)) args).

(** ** Operations on sums *)

Definition SumAdd (lhs rhs : SumExpr) : result SumExpr :=
  if AddWouldOverflow (sum_base lhs) (sum_base rhs) then
    let* l := Normalize lhs in
    let* r := Normalize rhs in
    let* e := MakeBinary KAdd l r in
    Ok (MkSum 0 [simple_split e 1] (sum_dtype lhs))
  else
    let* args := MergeTerms (sum_args lhs ++ sum_args rhs) in
    Ok (MkSum (sum_base lhs + sum_base rhs) args (sum_dtype lhs)).

End Merging.

Definition negate_split (dtype : DataType) (arg : SplitExpr) : result SplitExpr :=
  if NegWouldOverflow (scale arg) then
    let* e := NormalizeSplit arg dtype in Ok (simple_split e (-1))
  else Ok (set_scale arg (- scale arg)).

(** A loop over the terms that may build expressions. *)
Fixpoint map_splits (f : SplitExpr -> result SplitExpr) (args : list SplitExpr) : result (list SplitExpr) :=
  match args with
  | [] => Ok []
  | arg :: args => let* arg := f arg in let* args := map_splits f args in Ok (arg :: args)
  end.

Definition SumNegate (s : SumExpr) : result SumExpr :=
  if NegWouldOverflow (sum_base s) then
    let* e := Normalize s in Ok (MkSum 0 [simple_split e (-1)] (sum_dtype s))
  else
    let* args := map_splits (negate_split (sum_dtype s)) (sum_args s) in
    Ok (MkSum (- sum_base s) args (sum_dtype s)).

Definition mul_split (dtype : DataType) (c : Z) (arg : SplitExpr) : result SplitExpr :=
  if MulWouldOverflow (scale arg) c then
    let* e := NormalizeSplit arg dtype in Ok (simple_split e c)
  else Ok (set_scale arg (scale arg * c)).

Definition SumMulConst (s : SumExpr) (c : Z) : result SumExpr :=
  if c =? 0 then Ok (MkSum 0 [] (sum_dtype s))
  else if c =? 1 then Ok s
  else if MulWouldOverflow (sum_base s) c then
    let* e := Normalize s in Ok (MkSum 0 [simple_split e c] (sum_dtype s))
  else
    let* args := map_splits (mul_split (sum_dtype s) c) (sum_args s) in
    Ok (MkSum (sum_base s * c) args (sum_dtype s)).

(** ** Division of a sum by a positive literal *)

Definition divide_scales (divisor : Z) (s : SumExpr) (base : Z) : SumExpr :=
  MkSum base (map (fun arg => set_scale arg (Z.quot (scale arg) divisor)) (sum_args s)) (sum_dtype s).

Definition scales_divisible (divisor : Z) (args : list SplitExpr) : bool :=
  forallb (fun arg => Z.rem (scale arg) divisor =? 0) args.

(** Case 2 of [TrySumFloorDiv]: one term and no base. *)
Definition divide_split (split : SplitExpr) (divisor : Z) : result (option SplitExpr) :=
  let* _ := require (lower_factor split >? 0) InternalError in
  if Z.rem (scale split) divisor =? 0 then Ok (Some (set_scale split (Z.quot (scale split) divisor)))
  else if (scale split >? 0) && (Z.rem divisor (scale split) =? 0) then
    let k := Z.quot divisor (scale split) in
    if MulWouldOverflow (lower_factor split) k then Ok None
    else
      let new_lower := lower_factor split * k in
      let* _ := require (new_lower >? 0) InternalError in
      if negb (upper_factor split =? kPosInf) && negb (Z.rem (upper_factor split) new_lower =? 0)
      then Ok None
      else Ok (Some (MkSplit (index split) new_lower (upper_factor split) 1))
  else Ok None.

Definition TrySumFloorDiv (s : SumExpr) (divisor : Z) : result (option SumExpr) :=
  let* _ := require (divisor >? 0) InternalError in
  let* m := floormod (sum_base s) divisor in
  if (m =? 0) && scales_divisible divisor (sum_args s) then
    let* q := floordiv (sum_base s) divisor in
    Ok (Some (divide_scales divisor s q))
  else match sum_args s with
  | [split] =>
      if sum_base s =? 0 then
        let* r := divide_split split divisor in
        Ok (option_map (fun split => MkSum (sum_base s) [split] (sum_dtype s)) r)
      else Ok None
  | _ => Ok None
  end.

Definition TrySumFloorMod (s : SumExpr) (divisor : Z) : result (option SumExpr) :=
  let* _ := require (divisor >? 0) InternalError in
  if scales_divisible divisor (sum_args s) then
    let* m := floormod (sum_base s) divisor in
    Ok (Some (MkSum m [] (sum_dtype s)))
  else match sum_args s with
  | [split] =>
      if negb (sum_base s =? 0) then Ok None
      else if negb (scale split =? 0) && (Z.rem (scale split) divisor =? 0)
      then Ok (Some (MkSum 0 [] (sum_dtype s)))
      else if (scale split =? 1) && (lower_factor split =? 1) && negb (upper_factor split =? kPosInf)
              && (Z.rem (upper_factor split) divisor =? 0)
      then Ok (Some (MkSum (sum_base s) [MkSplit (index split) (lower_factor split) divisor (scale split)]
                       (sum_dtype s)))
      else Ok None
  | _ => Ok None
  end.

(** ** The visitor *)

(** [sum_cache_], a map keyed by the address of a node: its insertions, the
    latest first. *)
Abbreviation SumCache := (list (expr * SumExpr)).

(** Looking a node up by its address.  The cache does not keep its keys alive,
    so an entry may be found whose node is gone and whose address is in use
    again; the entry found was inserted in any case. *)
Class CacheFind := {
  sum_cache_find : SumCache -> expr -> option SumExpr;
  sum_cache_inserted c e s : sum_cache_find c e = Some s -> exists k, In (k, s) c
}.

(** No address is used again. *)
Definition addresses_fresh (F : CacheFind) : Prop :=
  forall c e s, sum_cache_find c e = Some s -> In (e, s) c.

Section Visitor.
Context `{PtrEq} `{Libm} `{CacheFind}.

Definition GetOrCreateSumExpr (c : SumCache) (e : expr) : result SumExpr :=
  match sum_cache_find c e with
  | Some s => Ok s
  | None =>
      let* dtype := GetScalarDtype e in
      match e with
      | ConstInt v _ => Ok (MkSum v [] dtype)
      | _ => Ok (MkSum 0 [simple_split e 1] dtype)
      end
  end.

Definition NormalizeAndCache (c : SumCache) (s : SumExpr) : result (expr * SumCache) :=
  let* e := Normalize s in Ok (e, (e, s) :: c).

(** The end of the division visitors: the node itself, cached as one term if
    the divisor is a positive literal. *)
Definition divided (c : SumCache) (k : binkind) (op l r a b : expr) (split : Z -> SplitExpr)
    : result (expr * SumCache) :=
  let* ret := MutateBinary k op l r a b in
  match b with
  | ConstInt v _ =>
      if v >? 0 then
        let* dtype := GetScalarDtype ret in Ok (ret, (ret, MkSum 0 [split v] dtype) :: c)
      else Ok (ret, c)
  | _ => Ok (ret, c)
  end.

(** [FloorDiv] and [FloorMod]. *)
Definition visit_division (c : SumCache) (k : binkind) (op l r : expr) (dtype : DataType) (a b : expr)
    (try_sum : SumExpr -> Z -> result (option SumExpr)) (split : Z -> SplitExpr)
    : result (expr * SumCache) :=
  if negb (FloorDivModOperandsFitDtype a b dtype) then
    (if same a l && same b r then Ok (op, c) else Ok (Binary k a b dtype, c))
  else
    let* f := TryConstFoldBinary k a b dtype in
    match f with
    | Some e => Ok (e, c)
    | None =>
        let* s := match b with
                  | ConstInt v _ =>
                      if v >? 0 then let* sa := GetOrCreateSumExpr c a in try_sum sa v else Ok None
                  | _ => Ok None
                  end in
        match s with
        | Some s => NormalizeAndCache c s
        | None => divided c k op l r a b split
        end
    end.

(** The visitors of binary operations, [l] and [r] of [op] visited to [a] and
    [b]. *)
Definition visit_binary (c : SumCache) (op : expr) (k : binkind) (l r : expr) (dtype : DataType)
    (a b : expr) : result (expr * SumCache) :=
  match k with
  | KFloorDiv => visit_division c k op l r dtype a b TrySumFloorDiv (fun v => MkSplit a v kPosInf 1)
  | KFloorMod => visit_division c k op l r dtype a b TrySumFloorMod (fun v => MkSplit a 1 v 1)
  | _ =>
      let* f := TryConstFoldBinarySame k a b in
      match f with
      | Some e => Ok (e, c)
      | None =>
          match k with
          | KAdd =>
              let* sa := GetOrCreateSumExpr c a in
              let* sb := GetOrCreateSumExpr c b in
              let* s := SumAdd sa sb in NormalizeAndCache c s
          | KSub =>
              let* sa := GetOrCreateSumExpr c a in
              let* sb := GetOrCreateSumExpr c b in
              let* nb := SumNegate sb in
              let* s := SumAdd sa nb in NormalizeAndCache c s
          | KMul =>
              match b, a with
              | ConstInt v _, _ =>
                  let* sa := GetOrCreateSumExpr c a in
                  let* s := SumMulConst sa v in NormalizeAndCache c s
              | _, ConstInt v _ =>
                  let* sb := GetOrCreateSumExpr c b in
                  let* s := SumMulConst sb v in NormalizeAndCache c s
              | _, _ => let* e := MutateBinary k op l r a b in Ok (e, c)
              end
          | _ => let* e := MutateBinary k op l r a b in Ok (e, c)
          end
      end
  end.

Definition visit_unary (c : SumCache) (op : expr) (k : unkind) (o : expr) (dtype : DataType) (a : expr)
    : result (expr * SumCache) :=
  match k with
  | KCast =>
      let* f := TryConstFoldCast a dtype in
      match f with
      | Some e => Ok (e, c)
      | None => if same a o then Ok (op, c) else Ok (MakeCast a dtype, c)
      end
  | _ =>
      let* f := TryConstFoldUnary k a in
      match f with
      | Some e => Ok (e, c)
      | None =>
          match k with
          | KNeg =>
              let* sa := GetOrCreateSumExpr c a in
              let* s := SumNegate sa in NormalizeAndCache c s
          | _ => let* e := MutateUnary k op o a in Ok (e, c)
          end
      end
  end.

(** [VisitExpr] around the visitor of the node's kind. *)
Definition visit_around (c : SumCache) (e : expr) (visit_node : result (expr * SumCache))
    : result (expr * SumCache) :=
  if is_float_expr e then Ok (e, c)
  else
    let* (r, c) := visit_node in
    let* r := PreserveIntegerResultType e r in Ok (r, c).

Fixpoint VisitExpr (m : VarMap) (c : SumCache) (e : expr) : result (expr * SumCache) :=
  visit_around c e
    match e with
    | Var _ id _ => Ok (default e (m !! id), c)
    | ConstInt _ _ | ConstFloat _ _ | ConstBool _ | Leaf _ _ _ => Ok (e, c)
    | Unary k o dt =>
        let* (a, c) := VisitExpr m c o in visit_unary c e k o dt a
    | Binary k l r dt =>
        let* (a, c) := VisitExpr m c l in
        let* (b, c) := VisitExpr m c r in
        visit_binary c e k l r dt a b
    end.

(** [operator()]: the cache is emptied first. *)
Definition Simplify (m : VarMap) (e : expr) : result expr :=
  let* (e, _) := VisitExpr m [] e in Ok e.

End Visitor.

(** [Update]. *)
Definition Update (m : VarMap) (id : positive) (info : option expr) : VarMap :=
  match info with Some e => <[ id := e ]> m | None => delete id m end.
