(* ===== verification/CanonicalSound.v ===== *)
(** * The canonical simplifier keeps the value

    Merging, dividing and normalising sums keep what they denote; the cache
    holds sums of its expressions; so the simplified expression has the value
    of the original. *)

From Stdlib Require Import ZArith Lia Bool List.
From stdpp Require Import base gmap list option.
From S2P Require Import Prelude Dtype IntOps ScalarExpr ConstFold ConstIntBound PatternMatch.
From S2P Require Import RewriteSimplify Canonical.

(** ** Merging terminates *)

Section Termination.
Context `{PtrEq}.

(** The terms that count. *)
Definition nonzero (args : list SplitExpr) : nat := length (List.filter (fun s => negb (scale s =? 0)) args).

Lemma nonzero_cons a args : nonzero (a :: args) = ((if (scale a =? 0)%Z then 0 else 1) + nonzero args)%nat.
Proof. unfold nonzero. simpl. by destruct (scale a =? 0). Qed.

Lemma merge_into_length a rest a' rest' changed :
  merge_into a rest = (a', rest', changed) ->
  length rest' = length rest /\ (nonzero rest' + (if changed then 1 else 0) <= nonzero rest)%nat.
Proof.
  revert a a' rest' changed. induction rest as [|b rest IH]; intros a a' rest' changed; cbn [merge_into].
  { intros [= <- <- <-]. split; [done | unfold nonzero; simpl; lia]. }
  destruct (scale b =? 0) eqn:Eb; [|destruct (try_merge a b) as [m|]].
  - destruct (merge_into a rest) as [[a1 r1] c1] eqn:E. intros [= <- <- <-]. apply IH in E as [El En].
    rewrite !nonzero_cons, Eb. simpl. split; [lia | done].
  - destruct (merge_into m rest) as [[a1 r1] c1] eqn:E. intros [= <- <- <-]. apply IH in E as [El En].
    rewrite !nonzero_cons, Eb. simpl. split; [lia |]. destruct c1; lia.
  - destruct (merge_into a rest) as [[a1 r1] c1] eqn:E. intros [= <- <- <-]. apply IH in E as [El En].
    rewrite !nonzero_cons, Eb. simpl. split; [lia |]. lia.
Qed.

Lemma merge_pass_length n args args' changed :
  (length args <= n)%nat -> merge_pass n args = (args', changed) ->
  length args' = length args /\ (nonzero args' + (if changed then 1 else 0) <= nonzero args)%nat.
Proof.
  revert args args' changed. induction n as [|n IH]; intros args args' changed Hn; cbn [merge_pass].
  { intros [= <- <-]. split; [done | lia]. }
  destruct args as [|a rest]; [intros [= <- <-]; split; [done | lia] |]. cbn [length] in Hn.
  destruct (scale a =? 0) eqn:Ea.
  - destruct (merge_pass n rest) as [r1 c1] eqn:E. intros [= <- <-]. apply IH in E as [El En]; [|lia].
    rewrite !nonzero_cons, Ea. simpl. split; [lia | done].
  - destruct (merge_into a rest) as [[a1 r0] c0] eqn:E0. apply merge_into_length in E0 as [El0 En0].
    destruct (merge_pass n r0) as [r1 c1] eqn:E. intros [= <- <-]. apply IH in E as [El En]; [|lia].
    rewrite !nonzero_cons, Ea. simpl. split; [lia |]. destruct (scale a1 =? 0), c0, c1; simpl in *; lia.
Qed.

Lemma nonzero_le args : (nonzero args <= length args)%nat.
Proof. unfold nonzero. apply filter_length_le. Qed.

Lemma merge_loop_total fuel args :
  (nonzero args < fuel)%nat -> exists args', merge_loop fuel args = Ok args' /\ length args' = length args.
Proof.
  revert args. induction fuel as [|fuel IH]; intros args Hf; [lia |]. cbn [merge_loop].
  destruct (merge_pass (length args) args) as [args' changed] eqn:E. apply merge_pass_length in E as [El En]; [|done].
  destruct changed; [|by exists args']. destruct (IH args') as (r & Er & Hr); [lia |]. exists r. split; [done | lia].
Qed.

Lemma MergeTerms_total args : exists args', MergeTerms args = Ok args'.
Proof.
  unfold MergeTerms. destruct (merge_loop_total (S (length args)) args) as (r & -> & _);
    [pose proof (nonzero_le args); lia |]. by eexists.
Qed.

End Termination.

(** ** What a sum denotes *)

Section Denotation.
Context (rho : Env).

Definition int_value (e : expr) : option Z :=
  match eval ideal rho e with Some (VInt z) => Some z | _ => None end.

Lemma int_value_eval e z : int_value e = Some z <-> eval ideal rho e = Some (VInt z).
Proof. unfold int_value. destruct (eval ideal rho e) as [[]|]; split; congruence. Qed.

Definition split_at (s : SplitExpr) (x : Z) : Z :=
  (if upper_factor s =? kPosInf then x else x mod upper_factor s) / lower_factor s * scale s.

Definition split_value (s : SplitExpr) : option Z := option_map (split_at s) (int_value (index s)).

Fixpoint args_value (args : list SplitExpr) : option Z :=
  match args with
  | [] => Some 0
  | s :: args =>
      match split_value s, args_value args with Some v, Some w => Some (v + w) | _, _ => None end
  end.

Definition sum_value (s : SumExpr) : option Z := option_map (Z.add (sum_base s)) (args_value (sum_args s)).

Lemma args_value_cons s args z :
  args_value (s :: args) = Some z <-> exists v w, split_value s = Some v /\ args_value args = Some w /\ z = v + w.
Proof.
  cbn [args_value]. destruct (split_value s), (args_value args); split; try done; try naive_solver.
  all: intros; destruct_and?; repeat match goal with H : ex _ |- _ => destruct H end; destruct_and?; simplify_eq.
Qed.

Lemma split_value_some s v :
  split_value s = Some v <-> exists x, int_value (index s) = Some x /\ v = split_at s x.
Proof. unfold split_value. destruct (int_value (index s)); simpl; split; naive_solver. Qed.

Lemma args_value_app l k z :
  args_value (l ++ k) = Some z <-> exists v w, args_value l = Some v /\ args_value k = Some w /\ z = v + w.
Proof.
  revert z. induction l as [|s l IH]; intros z.
  - simpl. split; [intros H; exists 0, z; split_and!; [done | done | lia] |].
    intros (v & w & [= <-] & Hw & ->). by rewrite Hw, Z.add_0_l.
  - cbn [app]. rewrite args_value_cons. setoid_rewrite IH. setoid_rewrite args_value_cons. split.
    + intros (v & w & Hv & (v' & w' & Hl & Hk & ->) & ->). exists (v + v'), w'. split_and!; [eauto | done | lia].
    + intros (u & w & (v & v' & Hv & Hl & ->) & Hk & ->). exists v, (v' + w). split_and!; [done | eauto | lia].
Qed.

Lemma sum_value_some s z : sum_value s = Some z <-> exists v, args_value (sum_args s) = Some v /\ z = sum_base s + v.
Proof. unfold sum_value. destruct (args_value (sum_args s)); simpl; split; naive_solver. Qed.

Lemma set_scale_value s c : split_value (set_scale s c) =
  option_map (fun x => (if upper_factor s =? kPosInf then x else x mod upper_factor s) / lower_factor s * c)
    (int_value (index s)).
Proof. done. Qed.

End Denotation.

(** ** Well-formed sums *)

Section Typed.
Context `{VarTypes}.

(** A modulus, if there is one, is a multiple of the divisor. *)
Record split_typed (d : DataType) (s : SplitExpr) : Prop := {
  split_good : good (index s);
  split_type : scalar_type (index s) = Some d;
  split_scale : in_int64 (scale s) = true;
  split_lower : 0 < lower_factor s <= INT64_MAX;
  split_upper : 0 < upper_factor s <= INT64_MAX;
  split_divides : upper_factor s = kPosInf \/ (lower_factor s | upper_factor s)
}.

Record sum_typed (d : DataType) (s : SumExpr) : Prop := {
  typed_int : IsInt d = true;
  typed_dtype : sum_dtype s = d;
  typed_base : in_int64 (sum_base s) = true;
  typed_args : Forall (split_typed d) (sum_args s)
}.

Lemma kPosInf_max : kPosInf = INT64_MAX.
Proof. done. Qed.

Lemma simple_split_typed d e c :
  good e -> scalar_type e = Some d -> in_int64 c = true -> split_typed d (simple_split e c).
Proof.
  intros Hg Ht Hc. split; cbn [simple_split index lower_factor upper_factor scale]; try done.
  by left.
Qed.

Lemma simple_split_value rho e c x :
  eval ideal rho e = Some (VInt x) -> split_value rho (simple_split e c) = Some (x * c).
Proof.
  intros Hx. apply split_value_some. exists x. split; [by apply int_value_eval |].
  unfold split_at. cbn [simple_split lower_factor upper_factor scale]. by rewrite Z.eqb_refl, Z.div_1_r.
Qed.

(** *** Building *)

(** An expression of dtype [d] that has the value [o], if [o] is one. *)
Definition builds (rho : Env) (d : DataType) (o : option Z) (e : expr) : Prop :=
  good e /\ scalar_type e = Some d /\ forall z, o = Some z -> eval ideal rho e = Some (VInt z).

Lemma literal_builds rho d z : IsInt d = true -> in_int64 z = true -> builds rho d (Some z) (MakeConstInt z d).
Proof.
  intros Hd Hz. split; [by split |]. split; [done |]. intros ? [= <-]. cbn [MakeConstInt eval]. unfold int_result.
  by rewrite Hd.
Qed.

Lemma arith_builds rho d k o1 o2 o e1 e2 :
  IsInt d = true -> class_of k = CArith -> builds rho d o1 e1 -> builds rho d o2 e2 ->
  (forall z, o = Some z -> exists x y, o1 = Some x /\ o2 = Some y /\ int_op k ideal d x y = Some (VInt z)) ->
  exists e, MakeBinary k e1 e2 = Ok e /\ builds rho d o e.
Proof.
  intros Hd Hk (G1 & T1 & V1) (G2 & T2 & V2) Ho.
  destruct (MakeBinary_good k e1 e2 d G1 G2) as (Hm & Gn & Tn); [|done |].
  { unfold operands_ok. rewrite Hk, T1, T2. by split. }
  assert (result_dtype k d = d) as E by (clear -Hk; by destruct k). rewrite E in *.
  exists (Binary k e1 e2 d). split; [done |]. split; [done |]. split; [done |].
  intros z Hz. destruct (Ho z Hz) as (x & y & -> & -> & Hop). cbn [eval]. by rewrite (V1 x), (V2 y).
Qed.

Lemma int_result_ideal d z : IsInt d = true -> int_result d (sem_arith ideal d z) = Some (VInt z).
Proof. intros Hd. unfold int_result. by rewrite Hd. Qed.

Lemma NormalizeSplit_builds rho d s :
  IsInt d = true -> split_typed d s -> exists e, NormalizeSplit s d = Ok e /\ builds rho d (split_value rho s) e.
Proof.
  intros Hd [Hg Ht Hs Hl Hu _]. unfold NormalizeSplit, split_value.
  assert (B0 : builds rho d (int_value rho (index s)) (index s)).
  { split; [done |]. split; [done |]. intros z Hz. by apply int_value_eval. }
  set (m := option_map (fun x => if upper_factor s =? kPosInf then x else x mod upper_factor s) (int_value rho (index s))).
  assert (B1 : exists e, (if upper_factor s =? kPosInf then Ok (index s)
    else MakeBinary KFloorMod (index s) (MakeConstInt (upper_factor s) d)) = Ok e /\ builds rho d m e).
  { unfold m. destruct (upper_factor s =? kPosInf) eqn:Eu.
    - exists (index s). split; [done |]. by destruct (int_value rho (index s)).
    - eapply arith_builds; [done | done | apply B0 | apply literal_builds; [done | apply in_int64_iff; lia64] |].
      intros z Hz. destruct (int_value rho (index s)) as [x|]; [|done]. simpl in Hz. simplify_eq.
      exists x, (upper_factor s). split_and!; [done | done |]. simpl.
      replace (upper_factor s =? 0) with false by lia. by apply int_result_ideal. }
  destruct B1 as (e1 & -> & B1). cbn [bind].
  set (q := option_map (fun x => x / lower_factor s) m).
  assert (B2 : exists e, (if lower_factor s =? 1 then Ok e1
    else MakeBinary KFloorDiv e1 (MakeConstInt (lower_factor s) d)) = Ok e /\ builds rho d q e).
  { unfold q. destruct (Z.eqb_spec (lower_factor s) 1) as [->|El].
    - exists e1. split; [done |]. destruct B1 as (? & ? & Hv). split; [done |]. split; [done |]. intros z Hz.
      apply Hv. destruct m; [|done]. simpl in Hz. by rewrite Z.div_1_r in Hz.
    - eapply arith_builds; [done | done | apply B1 | apply literal_builds; [done | apply in_int64_iff; lia64] |].
      intros z Hz. destruct m as [x|]; [|done]. simpl in Hz. simplify_eq. exists x, (lower_factor s).
      split_and!; [done | done |]. simpl. replace (lower_factor s =? 0) with false by lia. by apply int_result_ideal. }
  destruct B2 as (e2 & -> & B2). cbn [bind].
  assert (Eq : option_map (split_at s) (int_value rho (index s)) = option_map (fun x => x * scale s) q).
  { unfold q, m. by destruct (int_value rho (index s)). }
  rewrite Eq. destruct (Z.eqb_spec (scale s) 1) as [->|E1]; [|destruct (Z.eqb_spec (scale s) (-1)) as [->|E2]].
  - exists e2. split; [done |]. destruct q as [x|]; simpl; [by rewrite Z.mul_1_r | done].
  - destruct B2 as (G2 & T2 & V2). destruct (MakeUnary_good KNeg e2 d G2 T2 Hd) as [Hm Gn].
    exists (Unary KNeg e2 d). split; [exact Hm |]. split; [done |]. split; [done |]. intros z Hz.
    destruct q as [x|]; [|done]. simpl in Hz. simplify_eq. cbn [eval]. rewrite (V2 x) by done. cbn [unary_sem].
    rewrite int_result_ideal by done. do 2 f_equal. lia.
  - eapply arith_builds; [done | done | apply B2 | by apply literal_builds |].
    intros z Hz. destruct q as [x|]; [|done]. simpl in Hz. simplify_eq. exists x, (scale s).
    split_and!; [done | done |]. by apply int_result_ideal.
Qed.

(** The sum of a list of expressions. *)
Lemma add_terms_builds rho d o e args ts :
  IsInt d = true -> builds rho d o e -> Forall2 (fun s t => builds rho d (split_value rho s) t) args ts ->
  exists e', add_terms e ts = Ok e' /\
    builds rho d (match o, args_value rho args with Some v, Some w => Some (v + w) | _, _ => None end) e'.
Proof.
  intros Hd He Hts. revert o e He. induction Hts as [|s t args ts Ht _ IH]; intros o e He; cbn [add_terms].
  { exists e. split; [done |]. destruct o as [v|]; simpl; [by rewrite Z.add_0_r | done]. }
  destruct (arith_builds rho d KAdd o (split_value rho s)
    (match o, split_value rho s with Some v, Some w => Some (v + w) | _, _ => None end) e t) as (e1 & -> & H1); try done.
  { intros z Hz. destruct o as [x|], (split_value rho s) as [y|]; try done. exists x, y. split_and!; try done.
    simplify_eq. by apply int_result_ideal. }
  cbn [bind]. destruct (IH _ _ H1) as (e' & E & G & T & V). exists e'. split; [done |]. split; [done |]. split; [done |].
  intros z Hz. apply V. cbn [args_value] in Hz. destruct o, (split_value rho s), (args_value rho args); try done.
  simplify_eq. f_equal. lia.
Qed.

Lemma normalize_terms_builds rho d args :
  IsInt d = true -> Forall (split_typed d) args ->
  exists ts args', normalize_terms args d = Ok ts /\ Forall2 (fun s t => builds rho d (split_value rho s) t) args' ts /\
    forall z, args_value rho args = Some z -> args_value rho args' = Some z.
Proof.
  intros Hd Ha. induction Ha as [|s args Hs _ (ts & args' & E & Hts & Hv)]; cbn [normalize_terms].
  { exists [], []. by split_and!. }
  destruct (scale s =? 0) eqn:Es.
  - exists ts, args'. split_and!; try done. intros z Hz. apply args_value_cons in Hz as (v & w & Hs' & Hw & ->).
    apply split_value_some in Hs' as (x & _ & ->). unfold split_at. apply Z.eqb_eq in Es as ->.
    rewrite Z.mul_0_r. by apply Hv.
  - destruct (NormalizeSplit_builds rho d s Hd Hs) as (t & -> & Ht). cbn [bind]. rewrite E. cbn [bind].
    exists (t :: ts), (s :: args'). split_and!; [done | by constructor |].
    intros z Hz. apply args_value_cons in Hz as (v & w & Hs' & Hw & ->). apply args_value_cons.
    exists v, w. auto.
Qed.

Lemma Normalize_builds rho d s :
  sum_typed d s -> exists e, Normalize s = Ok e /\ builds rho d (sum_value rho s) e.
Proof.
  intros [Hd Hs Hb Ha]. unfold Normalize. rewrite Hs.
  destruct (normalize_terms_builds rho d (sum_args s) Hd Ha) as (ts & args' & -> & Hts & Hv). cbn [bind].
  assert (Hbase : builds rho d (Some (sum_base s)) (MakeConstInt (sum_base s) d)) by (by apply literal_builds).
  destruct Hts as [|a t args' ts Ht Hts].
  - eexists. split; [done |]. destruct Hbase as (? & ? & Hval). split; [done |]. split; [done |].
    intros z (v & Hz & ->)%sum_value_some. apply Hv in Hz. injection Hz as <-. rewrite Z.add_0_r. by apply Hval.
  - destruct (add_terms_builds rho d _ t args' ts Hd Ht Hts) as (e & -> & He). cbn [bind].
    fold (args_value rho (a :: args')) in He.
    assert (Hsum : forall z, sum_value rho s = Some z ->
      args_value rho (a :: args') = Some (z - sum_base s)).
    { intros z (v & Hz & ->)%sum_value_some. apply Hv in Hz. rewrite Hz. f_equal. lia. }
    destruct (Z.eqb_spec (sum_base s) 0) as [E|E].
    + exists e. split; [done |]. destruct He as (G & T & V). split; [done |]. split; [done |].
      intros z Hz. apply V. etrans; [by apply Hsum | rewrite E; f_equal; lia].
    + eapply arith_builds; [done | done | apply He | apply Hbase |]. intros z Hz.
      exists (z - sum_base s), (sum_base s). split_and!; [by apply Hsum | done |]. cbn [int_op].
      rewrite int_result_ideal by done. do 2 f_equal. lia.
Qed.

End Typed.

(** ** Operations on sums *)

Section Operations.
Context `{VarTypes} `{PtrEq} (rho : Env).

(** A sum of dtype [d] that denotes every integer [o] holds of. *)
Definition denotes (d : DataType) (o : Z -> Prop) (s : SumExpr) : Prop :=
  sum_typed d s /\ forall z, o z -> sum_value rho s = Some z.

(** The sum of one term and no base. *)
Lemma single_denotes d (o : Z -> Prop) split :
  IsInt d = true -> split_typed d split -> (forall z, o z -> split_value rho split = Some z) ->
  denotes d o (MkSum 0 [split] d).
Proof.
  intros Hd Hs Hv. split; [split; [done | done | done | by apply Forall_singleton] |].
  intros z Hz. apply sum_value_some. exists z. split; [|cbn; lia]. cbn [sum_args].
  apply args_value_cons. exists z, 0. split_and!; [by apply Hv | done | lia].
Qed.

Lemma scaled_denotes d o (o' : Z -> Prop) e c :
  IsInt d = true -> builds rho d o e -> in_int64 c = true ->
  (forall z, o' z -> exists x, o = Some x /\ z = x * c) ->
  denotes d o' (MkSum 0 [simple_split e c] d).
Proof.
  intros Hd (Hg & Ht & Hv) Hc Ho. apply single_denotes; [done | by apply simple_split_typed |].
  intros z (x & Hx & ->)%Ho. apply simple_split_value. by apply Hv.
Qed.

Lemma scaled_typed d s c : split_typed d s -> in_int64 c = true -> split_typed d (set_scale s c).
Proof. by intros [? ? ? ? ? ?] ?. Qed.

(** *** Merging *)

(** [m] has the value of the two terms together. *)
Definition merges (d : DataType) (a b m : SplitExpr) : Prop :=
  split_typed d m /\
  forall v w, split_value rho a = Some v -> split_value rho b = Some w -> split_value rho m = Some (v + w).

Lemma same_factors_merges d a b m :
  split_typed d a -> split_typed d b -> TryMergeSameFactors a b = Some m -> merges d a b m.
Proof.
  intros Ha Hb. unfold TryMergeSameFactors. destruct (same (index a) (index b)) eqn:Ei; [|done].
  apply same_eq in Ei. destruct (Z.eqb_spec (lower_factor a) (lower_factor b)) as [El|]; [|done].
  destruct (Z.eqb_spec (upper_factor a) (upper_factor b)) as [Eu|]; [|done]. cbn [negb].
  rewrite AddWouldOverflow_spec by (apply Ha || apply Hb).
  destruct (in_int64 (scale a + scale b)) eqn:Hs; [|done]. intros [= <-]. split; [by apply scaled_typed |].
  intros v w (x & Hx & ->)%split_value_some (y & Hy & ->)%split_value_some. apply split_value_some.
  exists x. split; [done |]. rewrite <- Ei, Hx in Hy. injection Hy as <-. unfold split_at, set_scale.
  cbn [upper_factor lower_factor scale]. rewrite <- El, <- Eu. lia.
Qed.

Lemma div_mod_sum x u l c :
  0 < l -> (u = None \/ exists n, u = Some n /\ 0 < n /\ (l | n)) ->
  let y := match u with Some n => x mod n | None => x end in
  y / l * (l * c) + x mod l * c = y * c.
Proof.
  intros Hl Hu y. assert (Hm : x mod l = y mod l).
  { unfold y. destruct Hu as [->|(n & -> & Hn & k & ->)]; [done |]. assert (0 < k) by nia.
    rewrite (Z.mul_comm k l), Z.rem_mul_r, (Z.mul_comm l), Z.mod_add, Z.mod_mod by lia. done. }
  rewrite Hm. pose proof (Z.div_mod y l). nia.
Qed.

Lemma merge_div_mod_merges d a b m :
  split_typed d a -> split_typed d b -> index a = index b -> merge_div_mod a b = Some m ->
  split_typed d m /\
  forall x, int_value rho (index a) = Some x -> split_at m x = split_at a x + split_at b x /\ index m = index a.
Proof.
  intros Ha Hb Ei. unfold merge_div_mod. destruct (Z.eqb_spec (lower_factor b) 1) as [El|]; [|done].
  destruct (Z.eqb_spec (upper_factor b) kPosInf) as [|Eu]; [done |].
  destruct (Z.eqb_spec (lower_factor a) (upper_factor b)) as [Eab|]; [|done]. cbn [negb].
  pose proof (split_lower _ _ Ha) as Hla. pose proof (split_scale _ _ Hb) as Hsb.
  rewrite MulWouldOverflow_spec by (done || (apply in_int64_iff; lia64)).
  destruct (in_int64 (lower_factor a * scale b)); [|done]. cbn [negb].
  destruct (Z.eqb_spec (scale a) (lower_factor a * scale b)) as [Es|]; [|done]. intros [= <-].
  pose proof (split_upper _ _ Ha) as Hua. pose proof (split_divides _ _ Ha) as Hda. split.
  - destruct Hb as [? ? ? ? ? ?]. split; cbn [index lower_factor upper_factor scale]; try done.
    right. rewrite El. apply Z.divide_1_l.
  - intros x _. split; [|done]. unfold split_at. cbn [index lower_factor upper_factor scale].
    rewrite Es, El, !Z.div_1_r, <- Eab. rewrite <- Eab in Eu. replace (lower_factor a =? kPosInf) with false by lia.
    destruct (Z.eqb_spec (upper_factor a) kPosInf) as [E|E].
    + pose proof (div_mod_sum x None (lower_factor a) (scale b) ltac:(lia) (or_introl eq_refl)) as Hdm.
      simpl in Hdm. lia.
    + pose proof (div_mod_sum x (Some (upper_factor a)) (lower_factor a) (scale b) ltac:(lia)) as Hdm.
      simpl in Hdm. rewrite Hdm; [done | right]. exists (upper_factor a). split_and!; [done | lia |].
      by destruct Hda.
Qed.

Lemma try_merge_merges d a b m :
  split_typed d a -> split_typed d b -> try_merge a b = Some m -> merges d a b m.
Proof.
  intros Ha Hb. unfold try_merge. destruct (TryMergeSameFactors a b) eqn:E1;
    [intros [= <-]; by apply same_factors_merges |].
  unfold TryMergeDivModPair. destruct (same (index a) (index b)) eqn:Ei; [|done]. apply same_eq in Ei. cbn [negb].
  assert (Hgen : forall m', split_typed d m' ->
    (forall x, int_value rho (index a) = Some x -> split_at m' x = split_at a x + split_at b x /\ index m' = index a) ->
    merges d a b m').
  { intros m' Ht Hv. split; [done |]. intros v w (x & Hx & ->)%split_value_some (y & Hy & ->)%split_value_some.
    rewrite <- Ei, Hx in Hy. injection Hy as <-. destruct (Hv x Hx) as [<- Hi]. apply split_value_some. exists x.
    by rewrite Hi. }
  destruct (merge_div_mod a b) eqn:E2.
  - intros [= <-]. destruct (merge_div_mod_merges d a b s Ha Hb Ei E2). by apply Hgen.
  - intros E3. destruct (merge_div_mod_merges d b a m Hb Ha (eq_sym Ei) E3) as [Ht Hv]. apply Hgen; [done |].
    intros x Hx. rewrite Ei in Hx. destruct (Hv x Hx) as [-> ->]. split; [lia | done].
Qed.

Lemma zero_value d s z : split_typed d s -> split_value rho s = Some z -> split_value rho (set_scale s 0) = Some 0.
Proof.
  intros _ (x & Hx & _)%split_value_some. apply split_value_some. exists x. split; [done |].
  unfold split_at. cbn [set_scale scale]. lia.
Qed.

(** The merged terms have the type, and the sum, of the terms. *)
Definition keeps_args (d : DataType) (args args' : list SplitExpr) : Prop :=
  Forall (split_typed d) args' /\ forall z, args_value rho args = Some z -> args_value rho args' = Some z.

Lemma merge_into_keeps d a rest a' rest' changed :
  split_typed d a -> Forall (split_typed d) rest -> merge_into a rest = (a', rest', changed) ->
  keeps_args d (a :: rest) (a' :: rest').
Proof.
  intros Ha Hr. revert a a' rest' changed Ha. induction Hr as [|b rest Hb Hr IH];
    intros a a' rest' changed Ha; cbn [merge_into].
  { intros [= <- <- <-]. split; [by apply Forall_singleton | done]. }
  assert (Hkeep : forall a1 r1 c1, merge_into a rest = (a1, r1, c1) -> keeps_args d (a :: b :: rest) (a1 :: b :: r1)).
  { intros a1 r1 c1 E. destruct (IH a a1 r1 c1 Ha E) as [Ht Hv].
    apply List.Forall_cons_iff in Ht as [Ha1 Hr1]. split; [by do 2 (constructor; [done |]) |].
    intros z (v & w & Hva & (vb & wr & Hvb & Hwr & ->)%args_value_cons & ->)%args_value_cons.
    destruct (proj1 (args_value_cons rho _ _ _) (Hv (v + wr) (proj2 (args_value_cons rho _ _ _)
      (ex_intro _ v (ex_intro _ wr (conj Hva (conj Hwr eq_refl))))))) as (v1 & w1 & H1 & H2 & E1).
    apply args_value_cons. exists v1, (vb + w1). split_and!; [done | apply args_value_cons; eauto | lia]. }
  destruct (scale b =? 0); [|destruct (try_merge a b) as [m|] eqn:Em].
  - destruct (merge_into a rest) as [[a1 r1] c1] eqn:E. intros [= <- <- <-]. by eapply Hkeep.
  - destruct (try_merge_merges d a b m Ha Hb Em) as [Hm Hvm].
    destruct (merge_into m rest) as [[a1 r1] c1] eqn:E. intros [= <- <- <-].
    destruct (IH m a1 r1 c1 Hm E) as [Ht Hv]. apply List.Forall_cons_iff in Ht as [Ha1 Hr1].
    split; [constructor; [done |]; constructor; [by apply scaled_typed | done] |].
    intros z (v & w & Hva & (vb & wr & Hvb & Hwr & ->)%args_value_cons & ->)%args_value_cons.
    destruct (proj1 (args_value_cons rho _ _ _) (Hv (v + vb + wr) (proj2 (args_value_cons rho _ _ _)
      (ex_intro _ (v + vb) (ex_intro _ wr (conj (Hvm v vb Hva Hvb) (conj Hwr eq_refl))))))) as (v1 & w1 & H1 & H2 & E1).
    apply args_value_cons. exists v1, w1. split_and!; [done | | lia]. apply args_value_cons. exists 0, w1.
    split_and!; [by eapply zero_value | done | lia].
  - destruct (merge_into a rest) as [[a1 r1] c1] eqn:E. intros [= <- <- <-]. by eapply Hkeep.
Qed.

Lemma keeps_args_cons d a args args' :
  split_typed d a -> keeps_args d args args' -> keeps_args d (a :: args) (a :: args').
Proof.
  intros Ha [Ht Hv]. split; [by constructor |]. intros z (v & w & H1 & H2 & ->)%args_value_cons.
  apply args_value_cons. exists v, w. auto.
Qed.

Lemma keeps_args_trans d a b c : keeps_args d a b -> keeps_args d b c -> keeps_args d a c.
Proof. intros [_ H1] [H2 H3]. split; [done | auto]. Qed.

Lemma merge_pass_keeps d n args args' changed :
  Forall (split_typed d) args -> merge_pass n args = (args', changed) -> keeps_args d args args'.
Proof.
  revert args args' changed. induction n as [|n IH]; intros args args' changed Ha; cbn [merge_pass].
  { intros [= <- <-]. by split. }
  destruct args as [|a rest]; [intros [= <- <-]; by split |]. apply List.Forall_cons_iff in Ha as [Ha Hr].
  destruct (scale a =? 0).
  - destruct (merge_pass n rest) as [r1 c1] eqn:E. intros [= <- <-]. apply keeps_args_cons; [done |]. by eapply IH.
  - destruct (merge_into a rest) as [[a1 r0] c0] eqn:E0. apply merge_into_keeps with (d := d) in E0 as Hk; try done.
    destruct (merge_pass n r0) as [r1 c1] eqn:E. intros [= <- <-].
    pose proof (proj1 Hk) as [Ha1 Hr0]%List.Forall_cons_iff.
    apply (keeps_args_trans d _ _ _ Hk). apply keeps_args_cons; [done |]. by eapply IH.
Qed.

Lemma merge_loop_keeps d fuel args args' :
  Forall (split_typed d) args -> merge_loop fuel args = Ok args' -> keeps_args d args args'.
Proof.
  revert args. induction fuel as [|fuel IH]; intros args Ha; cbn [merge_loop]; [done |].
  destruct (merge_pass (length args) args) as [args1 changed] eqn:E. apply merge_pass_keeps with (d := d) in E; [|done].
  destruct changed; [|by intros [= <-]]. intros Hl. apply (keeps_args_trans d _ _ _ E). by apply IH; [apply E |].
Qed.

Lemma drop_zeros d args :
  Forall (split_typed d) args -> keeps_args d args (List.filter (fun s => negb (scale s =? 0)) args).
Proof.
  induction 1 as [|s args Hs _ [Ht Hv]]; [by split |]. cbn [List.filter].
  destruct (Z.eqb_spec (scale s) 0) as [E|E]; cbn [negb].
  - split; [done |]. intros z (v & w & (x & _ & ->)%split_value_some & Hw & ->)%args_value_cons.
    unfold split_at. rewrite E, Z.mul_0_r. by apply Hv.
  - by apply keeps_args_cons.
Qed.

Lemma MergeTerms_keeps d args :
  Forall (split_typed d) args -> exists args', MergeTerms args = Ok args' /\ keeps_args d args args'.
Proof.
  intros Ha. unfold MergeTerms.
  destruct (merge_loop_total (S (length args)) args) as (r & E & _); [pose proof (nonzero_le args); lia |].
  rewrite E. eexists. split; [done |]. apply merge_loop_keeps with (d := d) in E; [|done].
  apply (keeps_args_trans d _ _ _ E), drop_zeros, E.
Qed.

(** *** Sums, negations, multiples *)

Definition plus (o o' : Z -> Prop) (z : Z) : Prop := exists v w, o v /\ o' w /\ z = v + w.
Definition image (f : Z -> Z) (o : Z -> Prop) (z : Z) : Prop := exists v, o v /\ z = f v.

Lemma SumAdd_denotes d o1 o2 s1 s2 :
  denotes d o1 s1 -> denotes d o2 s2 -> exists s, SumAdd s1 s2 = Ok s /\ denotes d (plus o1 o2) s.
Proof.
  intros [T1 V1] [T2 V2]. pose proof (typed_int _ _ T1) as Hd. unfold SumAdd.
  rewrite AddWouldOverflow_spec by (apply T1 || apply T2). rewrite (typed_dtype _ _ T1).
  destruct (in_int64 (sum_base s1 + sum_base s2)) eqn:Hb; cbn [negb].
  - destruct (MergeTerms_keeps d (sum_args s1 ++ sum_args s2)) as (args & -> & Ht & Hv).
    { apply Forall_app. split; [apply T1 | apply T2]. }
    cbn [bind]. eexists. split; [done |]. split; [by split |]. intros z (v & w & Hv1 & Hw1 & ->).
    destruct (proj1 (sum_value_some rho _ _) (V1 v Hv1)) as (a1 & E1 & ->). 
    destruct (proj1 (sum_value_some rho _ _) (V2 w Hw1)) as (a2 & E2 & ->).
    apply sum_value_some. exists (a1 + a2). split; [|cbn; lia]. apply Hv, args_value_app. eauto.
  - destruct (Normalize_builds rho d s1 T1) as (e1 & -> & B1). destruct (Normalize_builds rho d s2 T2) as (e2 & -> & B2).
    set (o := match sum_value rho s1, sum_value rho s2 with Some v, Some w => Some (v + w) | _, _ => None end).
    cbn [bind]. destruct (arith_builds rho d KAdd (sum_value rho s1) (sum_value rho s2) o e1 e2) as (e & -> & Be); try done.
    { intros z Hz. unfold o in Hz. destruct (sum_value rho s1) as [v|], (sum_value rho s2) as [w|]; try done.
      injection Hz as <-. exists v, w. split_and!; [done | done |]. by apply int_result_ideal. }
    cbn [bind]. eexists. split; [done |]. apply (scaled_denotes d o); try done.
    intros z (v & w & Hv1 & Hw1 & ->). exists (v + w). unfold o. rewrite (V1 v Hv1), (V2 w Hw1). split; [done | lia].
Qed.

Lemma map_splits_ok (f : SplitExpr -> result SplitExpr) (g : Z -> Z) d args :
  g 0 = 0 -> (forall x y, g (x + y) = g x + g y) ->
  (forall s, split_typed d s -> exists s', f s = Ok s' /\ split_typed d s' /\
    forall v, split_value rho s = Some v -> split_value rho s' = Some (g v)) ->
  Forall (split_typed d) args ->
  exists args', map_splits f args = Ok args' /\ Forall (split_typed d) args' /\
    forall v, args_value rho args = Some v -> args_value rho args' = Some (g v).
Proof.
  intros G0 Gadd Hf Ha. induction Ha as [|s args Hs _ (args' & E & Ht & Hv)]; cbn [map_splits].
  { exists []. split_and!; [done | done |]. intros v [= <-]. by rewrite G0. }
  destruct (Hf s Hs) as (s' & -> & Hs' & Hsv). cbn [bind]. rewrite E. cbn [bind].
  eexists. split_and!; [done | by constructor |]. intros z (v & w & H1 & H2 & ->)%args_value_cons.
  apply args_value_cons. exists (g v), (g w). auto.
Qed.

Lemma negate_split_ok d s :
  IsInt d = true -> split_typed d s -> exists s', negate_split d s = Ok s' /\ split_typed d s' /\
    forall v, split_value rho s = Some v -> split_value rho s' = Some (- v).
Proof.
  intros Hd Hs. unfold negate_split. rewrite NegWouldOverflow_spec by apply Hs.
  destruct (in_int64 (- scale s)) eqn:Hc; cbn [negb].
  - eexists. split_and!; [done | by apply scaled_typed |]. intros v (x & Hx & ->)%split_value_some.
    apply split_value_some. exists x. split; [done |]. unfold split_at. cbn [set_scale scale upper_factor lower_factor]. lia.
  - destruct (NormalizeSplit_builds rho d s Hd Hs) as (e & -> & G & T & V). cbn [bind]. eexists.
    split_and!; [done | by apply simple_split_typed |]. intros v Hv. rewrite (simple_split_value _ _ _ v) by auto.
    f_equal. lia.
Qed.

Lemma SumNegate_denotes d o s :
  denotes d o s -> exists s', SumNegate s = Ok s' /\ denotes d (image Z.opp o) s'.
Proof.
  intros [T V]. pose proof (typed_int _ _ T) as Hd. unfold SumNegate. rewrite (typed_dtype _ _ T).
  rewrite NegWouldOverflow_spec by apply T. destruct (in_int64 (- sum_base s)) eqn:Hb; cbn [negb].
  - destruct (map_splits_ok (negate_split d) Z.opp d (sum_args s)) as (args & -> & Ht & Hv); try lia; try apply T.
    { intros s0 Hs0. by apply negate_split_ok. }
    cbn [bind]. eexists. split; [done |]. split; [by split |]. intros z (v & Hv0 & ->).
    destruct (proj1 (sum_value_some rho _ _) (V v Hv0)) as (a & Ea & ->). apply sum_value_some. exists (- a). split; [by apply Hv | cbn; lia].
  - destruct (Normalize_builds rho d s T) as (e & -> & B). cbn [bind]. eexists. split; [done |].
    apply (scaled_denotes d (sum_value rho s)); try done. intros z (v & Hv0 & ->). exists v.
    split; [by apply V | lia].
Qed.

Lemma mul_split_ok d c s :
  IsInt d = true -> in_int64 c = true -> split_typed d s -> exists s', mul_split d c s = Ok s' /\ split_typed d s' /\
    forall v, split_value rho s = Some v -> split_value rho s' = Some (v * c).
Proof.
  intros Hd Hc Hs. unfold mul_split. rewrite MulWouldOverflow_spec by (apply Hs || done).
  destruct (in_int64 (scale s * c)) eqn:Ho; cbn [negb].
  - eexists. split_and!; [done | by apply scaled_typed |]. intros v (x & Hx & ->)%split_value_some.
    apply split_value_some. exists x. split; [done |]. unfold split_at. cbn [set_scale scale upper_factor lower_factor]. lia.
  - destruct (NormalizeSplit_builds rho d s Hd Hs) as (e & -> & G & T & V). cbn [bind]. eexists.
    split_and!; [done | by apply simple_split_typed |]. intros v Hv. by rewrite (simple_split_value _ _ _ v) by auto.
Qed.

Lemma SumMulConst_denotes d o s c :
  denotes d o s -> in_int64 c = true ->
  exists s', SumMulConst s c = Ok s' /\ denotes d (image (fun v => v * c) o) s'.
Proof.
  intros [T V] Hc. pose proof (typed_int _ _ T) as Hd. unfold SumMulConst. rewrite (typed_dtype _ _ T).
  destruct (Z.eqb_spec c 0) as [->|C0]; [|destruct (Z.eqb_spec c 1) as [->|C1]].
  - eexists. split; [done |]. split; [split; [done | done | done | constructor] |].
    intros z (v & Hv0 & ->). apply sum_value_some. exists 0. split; [done | cbn; lia].
  - exists s. split; [done |]. split; [done |]. intros z (v & Hv0 & ->). rewrite Z.mul_1_r. by apply V.
  - rewrite MulWouldOverflow_spec by (apply T || done). destruct (in_int64 (sum_base s * c)) eqn:Hb; cbn [negb].
    + destruct (map_splits_ok (mul_split d c) (fun v => v * c) d (sum_args s)) as (args & -> & Ht & Hv); try lia; try apply T.
      { intros s0 Hs0. by apply mul_split_ok. }
      cbn [bind]. eexists. split; [done |]. split; [by split |]. intros z (v & Hv0 & ->).
      destruct (proj1 (sum_value_some rho _ _) (V v Hv0)) as (a & Ea & ->). apply sum_value_some. exists (a * c). split; [by apply Hv | cbn; lia].
    + destruct (Normalize_builds rho d s T) as (e & -> & B). cbn [bind]. eexists. split; [done |].
      apply (scaled_denotes d (sum_value rho s)); try done. intros z (v & Hv0 & ->). exists v.
      split; [by apply V | done].
Qed.

End Operations.

(** ** Division of a sum *)

Section Division.
Context `{VarTypes} (rho : Env).

Lemma divisible_quot a n : 0 < n -> Z.rem a n = 0 -> exists k, a = k * n /\ Z.quot a n = k.
Proof.
  intros Hn Hr. apply Z.rem_divide in Hr as [k ->]; [|lia]. exists k. split; [done |]. by apply Z.quot_mul; lia.
Qed.

Lemma quot_in_int64 k n : 0 < n -> in_int64 (k * n) = true -> in_int64 k = true.
Proof. intros Hn. rewrite !in_int64_iff. unfold INT64_MIN, INT64_MAX. nia. Qed.

(** Terms whose scales are multiples. *)
Lemma divide_args d n args :
  0 < n -> scales_divisible n args = true -> Forall (split_typed d) args ->
  Forall (split_typed d) (map (fun arg => set_scale arg (Z.quot (scale arg) n)) args) /\
  forall w, args_value rho args = Some w -> exists k, w = k * n /\
    args_value rho (map (fun arg => set_scale arg (Z.quot (scale arg) n)) args) = Some k.
Proof.
  intros Hn Hdiv Ha. induction Ha as [|s args Hs _ IH]; cbn [map].
  { split; [done |]. intros w [= <-]. by exists 0. }
  cbn [scales_divisible forallb] in Hdiv. apply andb_true_iff in Hdiv as [Hq Hdiv]. destruct (IH Hdiv) as [Ht Hv].
  apply Z.eqb_eq in Hq. destruct (divisible_quot _ _ Hn Hq) as (k & Ek & ->). split.
  - constructor; [|done]. apply scaled_typed; [done |]. apply (quot_in_int64 k n); [done |]. rewrite <- Ek. apply Hs.
  - intros w (v & u & (x & Hx & ->)%split_value_some & Hu & ->)%args_value_cons.
    destruct (Hv u Hu) as (ku & -> & Eu). unfold split_at. rewrite Ek.
    eexists. split; [|apply args_value_cons; eexists _, ku; split_and!; [|done|reflexivity]].
    2: { apply split_value_some. exists x. by split. }
    unfold split_at. cbn [set_scale scale upper_factor lower_factor]. lia.
Qed.

Lemma divide_split_ok d n s :
  IsInt d = true -> in_int64 n = true -> 0 < n -> split_typed d s ->
  exists r, divide_split s n = Ok r /\
    forall s', r = Some s' -> split_typed d s' /\
      forall v, split_value rho s = Some v -> split_value rho s' = Some (v / n).
Proof.
  intros Hd Hi Hn Hs. pose proof (split_lower _ _ Hs) as Hl. unfold divide_split.
  replace (lower_factor s >? 0) with true by lia. cbn [require bind].
  destruct (Z.eqb_spec (Z.rem (scale s) n) 0) as [E|_].
  { destruct (divisible_quot _ _ Hn E) as (k & Ek & ->). eexists. split; [done |]. intros s' [= <-]. split.
    - apply scaled_typed; [done |]. apply (quot_in_int64 k n); [done |]. rewrite <- Ek. apply Hs.
    - intros v (x & Hx & ->)%split_value_some. apply split_value_some. exists x. split; [done |]. unfold split_at.
      cbn [set_scale scale upper_factor lower_factor]. rewrite Ek, Z.mul_assoc, Z.div_mul; lia. }
  destruct ((scale s >? 0) && (Z.rem n (scale s) =? 0)) eqn:E; [|by exists None].
  apply andb_true_iff in E as [Hpos%Z.gtb_lt E%Z.eqb_eq]. destruct (divisible_quot _ _ Hpos E) as (k & Ek & ->).
  assert (0 < k) by nia. assert (in_int64 k = true) by (apply (quot_in_int64 k (scale s)); [done | by rewrite <- Ek]).
  rewrite MulWouldOverflow_spec by (done || (apply in_int64_iff; lia64)).
  destruct (in_int64 (lower_factor s * k)) eqn:Hlk; [|by exists None]. cbn [negb].
  replace (lower_factor s * k >? 0) with true by nia. cbn [require bind].
  destruct (negb (upper_factor s =? kPosInf) && negb (Z.rem (upper_factor s) (lower_factor s * k) =? 0)) eqn:Eu;
    [by exists None |]. eexists. split; [done |]. intros s' [= <-]. apply in_int64_iff in Hlk. split.
  - destruct Hs. split; cbn [index lower_factor upper_factor scale]; try done; [split; [nia | lia64] |].
    apply andb_false_iff in Eu as [Eu|Eu]; apply negb_false_iff, Z.eqb_eq in Eu; [by left | right].
    apply Z.rem_divide in Eu; [done | nia].
  - intros v (x & Hx & ->)%split_value_some. apply split_value_some. exists x. split; [done |]. unfold split_at.
    cbn [index lower_factor upper_factor scale]. rewrite Z.mul_1_r, Ek, (Z.mul_comm k), (Z.mul_comm (_ / _) (scale s)).
    rewrite Z.div_mul_cancel_l by lia. by rewrite Z.div_div by lia.
Qed.

Lemma TrySumFloorDiv_denotes d o s n :
  denotes rho d o s -> in_int64 n = true -> 0 < n ->
  exists r, TrySumFloorDiv s n = Ok r /\ forall s', r = Some s' -> denotes rho d (image (fun v => v / n) o) s'.
Proof.
  intros [T V] Hi Hn. pose proof (typed_int _ _ T) as Hd. unfold TrySumFloorDiv.
  replace (n >? 0) with true by lia. cbn [require bind].
  rewrite floormod_spec by (try apply T; done || lia). cbn [bind].
  destruct ((sum_base s mod n =? 0) && scales_divisible n (sum_args s)) eqn:E.
  - apply andb_true_iff in E as [Eb%Z.eqb_eq Ea].
    rewrite floordiv_spec by (try apply T; done || lia). cbn [bind]. eexists. split; [done |]. intros s' [= <-].
    apply Z.mod_divide in Eb as [k Ek]; [|lia]. destruct (divide_args d n _ Hn Ea (typed_args _ _ T)) as [Ht Hv].
    rewrite Ek, Z.div_mul by lia. split.
    + split; [done | apply T | | done]. apply (quot_in_int64 k n); [done |]. rewrite <- Ek. apply T.
    + intros z (v & Hv0 & ->). destruct (proj1 (sum_value_some rho _ _) (V v Hv0)) as (w & Hw & ->).
      destruct (Hv w Hw) as (kw & -> & Hkw). apply sum_value_some. exists kw. split; [done |]. cbn [sum_base divide_scales].
      rewrite Ek, <- Z.mul_add_distr_r, Z.div_mul; lia.
  - destruct (sum_args s) as [|split [|? ?]] eqn:Ea; [by exists None | | by exists None].
    destruct (Z.eqb_spec (sum_base s) 0) as [Eb|]; [|by exists None].
    assert (Hs : split_typed d split) by (pose proof (typed_args _ _ T) as Hf; rewrite Ea in Hf; by apply List.Forall_inv in Hf).
    destruct (divide_split_ok d n split Hd Hi Hn Hs) as (r & -> & Hr). cbn [bind]. eexists. split; [done |].
    intros s' Hs'. destruct r as [split'|]; [|done]. injection Hs' as <-. destruct (Hr split' eq_refl) as [Ht Hv].
    rewrite Eb, (typed_dtype _ _ T). apply single_denotes; [done | done |].
    intros z (v & Hv0 & ->). apply Hv.
    destruct (proj1 (sum_value_some rho _ _) (V v Hv0)) as (w & Hw & ->). rewrite Ea in Hw.
    apply args_value_cons in Hw as (w1 & w2 & Hw1 & [= <-] & ->). rewrite Hw1. f_equal. lia.
Qed.

Lemma TrySumFloorMod_denotes d o s n :
  denotes rho d o s -> in_int64 n = true -> 0 < n ->
  exists r, TrySumFloorMod s n = Ok r /\ forall s', r = Some s' -> denotes rho d (image (fun v => v mod n) o) s'.
Proof.
  intros [T V] Hi Hn. pose proof (typed_int _ _ T) as Hd. apply in_int64_iff in Hi as Hi'. unfold TrySumFloorMod.
  replace (n >? 0) with true by lia. cbn [require bind].
  destruct (scales_divisible n (sum_args s)) eqn:Ea.
  - rewrite floormod_spec by (try apply T; done || lia). cbn [bind]. eexists. split; [done |]. intros s' [= <-].
    destruct (divide_args d n _ Hn Ea (typed_args _ _ T)) as [_ Hv]. rewrite (typed_dtype _ _ T).
    pose proof (Z.mod_pos_bound (sum_base s) n Hn). split.
    + split; [done | done | apply in_int64_iff; cbn; lia64 | constructor].
    + intros z (v & Hv0 & ->). destruct (proj1 (sum_value_some rho _ _) (V v Hv0)) as (w & Hw & ->).
      destruct (Hv w Hw) as (kw & -> & _). apply sum_value_some. exists 0. split; [done |]. cbn [sum_base].
      rewrite Z.mod_add by lia. lia.
  - destruct (sum_args s) as [|split [|? ?]] eqn:Eargs; [by exists None | | by exists None].
    destruct (Z.eqb_spec (sum_base s) 0) as [Eb|]; [|by exists None]. cbn [negb].
    assert (Hs : split_typed d split)
      by (pose proof (typed_args _ _ T) as Hf; rewrite Eargs in Hf; by apply List.Forall_inv in Hf).
    destruct (negb (scale split =? 0) && (Z.rem (scale split) n =? 0)) eqn:E1.
    { apply andb_true_iff in E1 as [_ E1]. cbn [scales_divisible forallb] in Ea. by rewrite E1 in Ea. }
    destruct ((scale split =? 1) && (lower_factor split =? 1) && negb (upper_factor split =? kPosInf)
      && (Z.rem (upper_factor split) n =? 0)) eqn:E2; [|by exists None]. bool_to_prop.
    eexists. split; [done |]. intros s' [= <-]. rewrite Eb, (typed_dtype _ _ T).
    pose proof (split_upper _ _ Hs) as Hu.
    match goal with Hr : Z.rem _ _ = 0 |- _ => destruct (divisible_quot _ _ Hn Hr) as (k & Ek & _) end.
    match goal with Hs1 : scale split = 1, Hl1 : lower_factor split = 1 |- _ => rewrite Hs1, Hl1 end.
    assert (Hk : 0 < k) by nia.
    assert (n <> kPosInf) by (intros ->; unfold kPosInf in *; nia).
    apply single_denotes; [done | |].
    + destruct Hs. split; cbn [index lower_factor upper_factor scale]; try done; [lia64 | right; apply Z.divide_1_l].
    + intros z (v & Hv0 & ->).
      destruct (proj1 (sum_value_some rho _ _) (V v Hv0)) as (w & Hw & ->). rewrite Eargs in Hw.
      apply args_value_cons in Hw as (w1 & w2 & (x & Hx & ->)%split_value_some & [= <-] & ->).
      apply split_value_some. exists x. split; [done |]. unfold split_at. cbn [index lower_factor upper_factor scale].
      replace (n =? kPosInf) with false by lia. replace (upper_factor split =? kPosInf) with false by lia.
      match goal with Hs1 : scale split = 1, Hl1 : lower_factor split = 1 |- _ => rewrite Hs1, Hl1 end.
      rewrite Eb, !Z.div_1_r, !Z.mul_1_r, Z.add_0_r, Z.add_0_l, Ek, (Z.mul_comm k n), Z.rem_mul_r by lia.
      by rewrite (Z.mul_comm n), Z.mod_add, Z.mod_mod by lia.
Qed.

End Division.

(** ** The visitor *)

Lemma bounded_int_result d o o' v :
  (forall z, o = Some z -> o' = Some z) -> int_result d o = Some v -> int_result d o' = Some v.
Proof. unfold int_result. destruct (IsInt d); [|done]. intros Ho. destruct o as [z|]; [|done]. by rewrite (Ho z). Qed.

Lemma bounded_leaf d z z' : sem_leaf bounded d z = Some z' -> sem_leaf ideal d z = Some z'.
Proof. simpl. intros H. by inv_eval; subst. Qed.

Lemma bounded_shift d z z' : sem_shift bounded d z = Some z' -> sem_shift ideal d z = Some z'.
Proof.
  simpl. intros H. apply guard_opt_some in H as [Hr E]. subst z'. unfold guard_opt.
  assert (in_int64 z = true) as ->; [|done]. apply in_range_iff in Hr. apply in_int64_iff. lia_inf.
Qed.

Lemma bounded_cast d z z' : sem_cast bounded d z = Some z' -> sem_cast ideal d z = Some z'.
Proof. simpl. intros H. by inv_eval; subst. Qed.

Lemma bounded_binary k d v w u : binary_sem k bounded d v w = Some u -> binary_sem k ideal d v w = Some u.
Proof.
  destruct v as [a|a], w as [b|b]; try done. cbn [binary_sem].
  destruct k; cbn [int_op]; try done; repeat case_match; try done; apply bounded_int_result; intros ?;
    first [apply bounded_leaf | apply bounded_shift].
Qed.

Lemma bounded_unary k d v u : unary_sem k bounded d v = Some u -> unary_sem k ideal d v = Some u.
Proof.
  destruct k, v; cbn [unary_sem cast_sem]; try done; repeat case_match; try done; apply bounded_int_result; intros ?;
    first [apply bounded_leaf | apply bounded_cast].
Qed.

(** Where no integer leaves the analyzers' range, the unbounded reading agrees. *)
Lemma bounded_ideal rho e v : eval bounded rho e = Some v -> eval ideal rho e = Some v.
Proof.
  assert (Hload : forall ty w u, load bounded ty w = Some u -> load ideal ty w = Some u).
  { intros ty w u. unfold load. destruct ty, w; try done. apply bounded_int_result. intros ?. apply bounded_leaf. }
  revert v. induction e as [| | | |k l IHl r IHr d|k o IH d|]; intros v; cbn [eval]; try done; auto.
  - apply bounded_int_result. intros ?. apply bounded_leaf.
  - destruct (eval bounded rho l) as [x|]; [|done]. destruct (eval bounded rho r) as [y|]; [|done].
    rewrite (IHl x), (IHr y) by done. apply bounded_binary.
  - destruct (eval bounded rho o) as [x|]; [|done]. rewrite (IH x) by done. apply bounded_unary.
Qed.

Section Visiting.
Context `{VarTypes} `{PtrEq} `{Libm} {F : CacheFind} (rho : Env).
Hypothesis fresh : addresses_fresh F.

(** The sums in the cache have the type and, in this environment, the value of
    their nodes. *)
Definition cache_typed (c : SumCache) : Prop :=
  forall e s, In (e, s) c -> good e /\ exists d, scalar_type e = Some d /\ sum_typed d s.

Definition cache_true (c : SumCache) : Prop :=
  forall e s, In (e, s) c -> forall z, int_value rho e = Some z -> sum_value rho s = Some z.

(** What a visitor returns for a node that means [ref], under the side
    condition [P] for its value. *)
Record outcome (c : SumCache) (ref : expr) (P : Prop) (res : expr * SumCache) : Prop := {
  out_good : good res.1;
  out_type : scalar_type res.1 = scalar_type ref;
  out_typed : cache_typed res.2;
  out_value v : P -> cache_true c -> eval ideal rho ref = Some v ->
    eval ideal rho res.1 = Some v /\ cache_true res.2
}.

Lemma outcome_means c ref P e : cache_typed c -> means rho ref e -> outcome c ref P (e, c).
Proof. intros Hc (Hg & Ht & Hv). split; try done. intros v _ Hct Hr. split; [by apply Hv | done]. Qed.

Lemma int_eval e d v : scalar_type e = Some d -> IsInt d = true -> eval ideal rho e = Some v -> exists z, v = VInt z.
Proof.
  intros Ht Hd He. destruct (eval_typed _ _ _ _ He) as (d' & Hd' & Hv). assert (d' = d) as -> by congruence.
  destruct v as [z|b]; [by exists z |]. simpl in Hv. subst d. done.
Qed.

Lemma denotes_weaken d (o o' : Z -> Prop) s : (forall z, o' z -> o z) -> denotes rho d o s -> denotes rho d o' s.
Proof. intros Ho [Ht Hv]. split; [done | auto]. Qed.

Definition cached_value (c : SumCache) (e : expr) (z : Z) : Prop := cache_true c /\ int_value rho e = Some z.

Lemma GetOrCreate_denotes c e d :
  cache_typed c -> good e -> scalar_type e = Some d -> IsInt d = true ->
  exists s, GetOrCreateSumExpr c e = Ok s /\ denotes rho d (cached_value c e) s.
Proof.
  intros Hc Hg Ht Hd. unfold GetOrCreateSumExpr. destruct (sum_cache_find c e) as [s|] eqn:Ef.
  - apply fresh in Ef. exists s. split; [done |]. destruct (Hc e s Ef) as (_ & d' & Hd' & Hs).
    assert (d' = d) as -> by congruence. split; [done |]. intros z [Hct Hz]. by eapply Hct.
  - rewrite (proj2 (GetScalarDtype_ok e d) Ht). cbn [bind].
    assert (Hgen : denotes rho d (cached_value c e) (MkSum 0 [simple_split e 1] d)).
    { apply (scaled_denotes rho d (int_value rho e)); [done | | done |].
      - split; [done |]. split; [done |]. intros z. apply int_value_eval.
      - intros z [_ Hz]. exists z. split; [done | lia]. }
    destruct e; (eexists; split; [done |]); try done.
    destruct Hg as [_ Hw]. cbn [wf] in Hw. split; [by split |]. intros z [_ Hz]. apply sum_value_some. exists 0.
    split; [done |]. apply int_value_eval in Hz. cbn [eval scalar_type] in *. simplify_eq. unfold int_result in Hz.
    rewrite Hd in Hz. simpl in Hz. cbn [sum_base]. injection Hz as ->. lia.
Qed.

Lemma NormalizeAndCache_outcome c ref P d s res :
  cache_typed c -> scalar_type ref = Some d -> denotes rho d (fun z => P /\ cached_value c ref z) s ->
  NormalizeAndCache c s = Ok res -> outcome c ref P res.
Proof.
  intros Hc Ht [Hs Hv] Hr. unfold NormalizeAndCache in Hr.
  destruct (Normalize_builds rho d s Hs) as (e & He & Hg & Te & Ve). rewrite He in Hr. injection Hr as <-.
  split; cbn [fst snd]; [done | congruence | |].
  - intros e' s' [[= <- <-]|Hin]; [|by apply Hc]. split; [done |]. by exists d.
  - intros v HP Hct Hev. destruct (int_eval ref d v Ht (typed_int _ _ Hs) Hev) as [z ->].
    assert (Hz : sum_value rho s = Some z) by (apply Hv; split; [done |]; split; [done | by apply int_value_eval]).
    split; [by apply Ve |]. intros e' s' [[= <- <-]|Hin] z' Hz'; [|by eapply Hct].
    apply int_value_eval in Hz'. rewrite (Ve z Hz) in Hz'. congruence.
Qed.

(** The value of a node whose operands are integers. *)
Lemma arith_value k a b dt z :
  class_of k = CArith -> int_value rho (Binary k a b dt) = Some z ->
  exists x y, int_value rho a = Some x /\ int_value rho b = Some y /\ int_op k ideal dt x y = Some (VInt z).
Proof.
  intros Hk Hz. apply int_value_eval, eval_binary_inv in Hz as (v & w & Ha & Hb & Hop).
  destruct v as [x|x], w as [y|y]; try done; [|by destruct k].
  exists x, y. split_and!; [by apply int_value_eval | by apply int_value_eval | done].
Qed.

Section Node.
Context (c : SumCache) (k : binkind) (l r : expr) (dt : DataType) (a b : expr).
Hypothesis c_typed : cache_typed c.
Abbreviation node := (Binary k a b dt).
Hypothesis node_good : good node.

Lemma kept_outcome P e :
  MutateBinary k (Binary k l r dt) l r a b = Ok e -> outcome c node P (e, c).
Proof.
  intros He. apply MutateBinary_eq in He as ->; [|done]. apply outcome_means; [done |]. by apply means_refl.
Qed.

Lemma fold_outcome P d e :
  scalar_type a = Some d -> TryConstFoldBinary k a b d = Ok (Some e) -> outcome c node P (e, c).
Proof. intros Hd Hf. apply outcome_means; [done |]. by eapply fold_means. Qed.

Lemma arith_operands : class_of k = CArith ->
  IsInt dt = true /\ scalar_type a = Some dt /\ scalar_type b = Some dt /\ good a /\ good b.
Proof.
  intros Hk. destruct (good_binary _ _ _ _ node_good) as [Ga Gb].
  destruct (good_operands _ _ _ _ node_good) as (Ho & d & Hd & Hdt).
  unfold operands_ok in Ho. rewrite Hk in Ho. destruct Ho as [Hi E].
  assert (result_dtype k d = d) as E' by (clear -Hk; by destruct k). rewrite E' in Hdt. subst d.
  rewrite Hd in Hi. split_and!; try done. congruence.
Qed.

(** Division by a literal: [f] is the operation, [try_sum] its version on sums,
    [split] the term cached for the node itself. *)
Lemma visit_division_outcome P (f : Z -> Z -> Z) try_sum split res :
  class_of k = CArith ->
  (forall x y z, int_op k ideal dt x y = Some (VInt z) -> z = f y x) ->
  (forall o s n, denotes rho dt o s -> in_int64 n = true -> 0 < n ->
    exists r, try_sum s n = Ok r /\ forall s', r = Some s' -> denotes rho dt (image (f n) o) s') ->
  (forall n, in_int64 n = true -> 0 < n -> split_typed dt (split n)) ->
  (forall n d x, P -> b = ConstInt n d -> 0 < n -> int_value rho a = Some x -> split_value rho (split n) = Some (f n x)) ->
  visit_division c k (Binary k l r dt) l r dt a b try_sum split = Ok res -> outcome c node P res.
Proof.
  intros Hk Hf Htry Hst Hsv. destruct (arith_operands Hk) as (Hd & Ta & Tb & Ga & Gb).
  assert (Hlit : forall n d z, b = ConstInt n d -> int_value rho node = Some z ->
    exists x, int_value rho a = Some x /\ z = f n x).
  { intros n d z -> (x & y & Hx & Hy & Hop)%arith_value; [|done]. exists x. split; [done |].
    apply int_value_eval in Hy. cbn [eval] in Hy. cbn [scalar_type] in Tb. simplify_eq. unfold int_result in Hy.
    rewrite Hd in Hy. simpl in Hy. injection Hy as <-. by apply Hf. }
  assert (Hdiv : forall res, divided c k (Binary k l r dt) l r a b split = Ok res -> outcome c node P res).
  { clear res. intros res. unfold divided. intros (ret & Hret & Hr)%bind_ok.
    pose proof (kept_outcome P ret Hret) as Hkept. apply MutateBinary_eq in Hret as ->; [|done].
    destruct b as [|n d| | | | |] eqn:Eb; try (by injection Hr as <-). destruct (Z.gtb_spec n 0) as [Hn|]; [|by injection Hr as <-].
    cbn [GetScalarDtype scalar_type bind] in Hr. injection Hr as <-.
    assert (Hin : in_int64 n = true) by (by destruct Gb as [_ Hw]).
    destruct Hkept as [K1 K2 K3 K4]. split; cbn [fst snd] in *; try done.
    - intros e s [[= <- <-]|Hi]; [|by apply c_typed]. split; [done |]. exists dt. split; [done |].
      split; [done | done | done |]. cbn [sum_args]. apply Forall_singleton. by apply Hst.
    - intros v HP Hct Hv. split; [done |]. intros e s [[= <- <-]|Hi] z Hz; [|by eapply Hct].
      destruct (Hlit n d z eq_refl Hz) as (x & Hx & ->). apply sum_value_some. exists (f n x). cbn [sum_args sum_base].
      split; [|lia]. apply args_value_cons. exists (f n x), 0. split_and!; [by eapply Hsv | done | lia]. }
  unfold visit_division. destruct (negb _).
  { intros Hr. assert (res = (node, c)) as ->; [|apply outcome_means; [done |]; by apply means_refl].
    destruct (same a l && same b r) eqn:E; [|congruence].
    apply andb_true_iff in E as [->%same_eq ->%same_eq]. congruence. }
  intros (g & Hg & Hr)%bind_ok. destruct g as [e|]; [injection Hr as <-; by eapply fold_outcome |].
  apply bind_ok in Hr as (s & Hs & Hr). destruct s as [s|]; [|by apply Hdiv].
  destruct b as [|n d| | | | |] eqn:Eb; try done. destruct (Z.gtb_spec n 0) as [Hn|]; [|done].
  destruct (GetOrCreate_denotes c a dt c_typed Ga Ta Hd) as (sa & Hsa & Hda). rewrite Hsa in Hs. cbn [bind] in Hs.
  assert (Hin : in_int64 n = true) by (by destruct Gb as [_ Hw]).
  destruct (Htry _ sa n Hda Hin Hn) as (rr & Hrr & Hspec).
  rewrite Hrr in Hs. injection Hs as ->.
  apply (NormalizeAndCache_outcome c (Binary k a (ConstInt n d) dt) P dt s); try done. eapply denotes_weaken; [|by apply Hspec].
  intros z [_ [Hct Hz]]. destruct (Hlit n d z eq_refl Hz) as (x & Hx & ->). by exists x.
Qed.

(** An operation on the sums of the operands. *)
Lemma sums_outcome P (o : Z -> Prop) s res :
  class_of k = CArith -> denotes rho dt o s -> (forall z, cached_value c node z -> o z) ->
  NormalizeAndCache c s = Ok res -> outcome c node P res.
Proof.
  intros Hk Hs Ho Hr. eapply NormalizeAndCache_outcome; [done | done | | exact Hr].
  eapply denotes_weaken; [|exact Hs]. intros z [_ Hz]. by apply Ho.
Qed.

(** Folding, or an operation that is rebuilt. *)
Lemma fold_same_outcome P e : TryConstFoldBinarySame k a b = Ok (Some e) -> outcome c node P (e, c).
Proof.
  intros (d & Hd & Hf)%bind_ok. apply GetScalarDtype_ok in Hd. by eapply fold_outcome.
Qed.

Lemma passthrough_outcome P f res :
  TryConstFoldBinarySame k a b = Ok f ->
  (match f with Some e => Ok (e, c) | None =>
    let* e := MutateBinary k (Binary k l r dt) l r a b in Ok (e, c) end) = Ok res -> outcome c node P res.
Proof.
  intros Hf He. destruct f as [e|]; [injection He as <-; by apply fold_same_outcome |].
  apply bind_ok in He as (e & He & [= <-]). by apply kept_outcome.
Qed.

Lemma operand_sums : class_of k = CArith -> exists sa sb,
  GetOrCreateSumExpr c a = Ok sa /\ GetOrCreateSumExpr c b = Ok sb /\
  denotes rho dt (cached_value c a) sa /\ denotes rho dt (cached_value c b) sb.
Proof.
  intros Hk. destruct (arith_operands Hk) as (Hi & Ta & Tb & Ga & Gb).
  destruct (GetOrCreate_denotes c a dt c_typed Ga Ta Hi) as (sa & -> & Da).
  destruct (GetOrCreate_denotes c b dt c_typed Gb Tb Hi) as (sb & -> & Db). by exists sa, sb.
Qed.

Lemma literal_operand e n d : class_of k = CArith -> e = a \/ e = b -> e = ConstInt n d ->
  in_int64 n = true /\ forall x, int_value rho e = Some x -> x = n.
Proof.
  intros Hk He ->. destruct (arith_operands Hk) as (Hi & Ta & Tb & Ga & Gb).
  assert (good (ConstInt n d) /\ scalar_type (ConstInt n d) = Some dt) as [[_ Gw] Tn] by (by destruct He as [-> | ->]).
  split; [done |]. intros x Hx. apply int_value_eval in Hx. cbn [eval scalar_type] in *. simplify_eq.
  unfold int_result in Hx. rewrite Hi in Hx. simpl in Hx. congruence.
Qed.

End Node.

Section Sums.
Context (c : SumCache) (l r : expr) (dt : DataType) (a b : expr) (P : Prop).
Hypothesis c_typed : cache_typed c.

Lemma add_outcome res :
  good (Binary KAdd a b dt) -> visit_binary c (Binary KAdd l r dt) KAdd l r dt a b = Ok res ->
  outcome c (Binary KAdd a b dt) P res.
Proof.
  intros Gn (f & Hf & Hv)%bind_ok. destruct f as [e|]; [injection Hv as <-; by apply fold_same_outcome |].
  destruct (operand_sums c KAdd dt a b c_typed Gn eq_refl) as (sa & sb & Ea & Eb & Da & Db).
  rewrite Ea, Eb in Hv. cbn [bind] in Hv.
  destruct (SumAdd_denotes rho dt _ _ sa sb Da Db) as (s & Es & Ds). rewrite Es in Hv. cbn [bind] in Hv.
  eapply (sums_outcome c KAdd dt a b); [done | done | exact Ds | | exact Hv].
  intros z [Hct (x & y & Hx & Hy & Hop)%arith_value]; [|done]. exists x, y. split_and!; [done | done |].
  simpl in Hop. inv_eval. by subst.
Qed.

Lemma sub_outcome res :
  good (Binary KSub a b dt) -> visit_binary c (Binary KSub l r dt) KSub l r dt a b = Ok res ->
  outcome c (Binary KSub a b dt) P res.
Proof.
  intros Gn (f & Hf & Hv)%bind_ok. destruct f as [e|]; [injection Hv as <-; by apply fold_same_outcome |].
  destruct (operand_sums c KSub dt a b c_typed Gn eq_refl) as (sa & sb & Ea & Eb & Da & Db).
  rewrite Ea, Eb in Hv. cbn [bind] in Hv.
  destruct (SumNegate_denotes rho dt _ sb Db) as (nb & En & Dn). rewrite En in Hv. cbn [bind] in Hv.
  destruct (SumAdd_denotes rho dt _ _ sa nb Da Dn) as (s & Es & Ds). rewrite Es in Hv. cbn [bind] in Hv.
  eapply (sums_outcome c KSub dt a b); [done | done | exact Ds | | exact Hv].
  intros z [Hct (x & y & Hx & Hy & Hop)%arith_value]; [|done]. exists x, (- y).
  split_and!; [done | by exists y |]. simpl in Hop. inv_eval. subst. lia.
Qed.

(** [e] times the literal [n] is the product. *)
Lemma scaled_outcome n s e res :
  in_int64 n = true -> denotes rho dt (cached_value c e) s ->
  (forall x y, int_value rho a = Some x -> int_value rho b = Some y ->
    exists w, int_value rho e = Some w /\ x * y = w * n) ->
  (let* s := SumMulConst s n in NormalizeAndCache c s) = Ok res -> outcome c (Binary KMul a b dt) P res.
Proof.
  intros Hn Ds Hw Hr. destruct (SumMulConst_denotes rho dt _ s n Ds Hn) as (s' & Es & Ds').
  rewrite Es in Hr. cbn [bind] in Hr. eapply (sums_outcome c KMul dt a b); [done | done | exact Ds' | | exact Hr].
  intros z [Hct (x & y & Hx & Hy & Hop)%arith_value]; [|done]. destruct (Hw x y Hx Hy) as (w & Hew & E).
  exists w. split; [done |]. simpl in Hop. inv_eval. by subst.
Qed.

Lemma mul_outcome res :
  good (Binary KMul a b dt) -> visit_binary c (Binary KMul l r dt) KMul l r dt a b = Ok res ->
  outcome c (Binary KMul a b dt) P res.
Proof.
  intros Gn (f & Hf & Hv)%bind_ok. destruct f as [e|]; [injection Hv as <-; by apply fold_same_outcome |].
  destruct (operand_sums c KMul dt a b c_typed Gn eq_refl) as (sa & sb & Ea & Eb & Da & Db).
  rewrite Ea, Eb in Hv. cbn [bind] in Hv.
  assert (Hb : forall n d, b = ConstInt n d -> (let* s := SumMulConst sa n in NormalizeAndCache c s) = Ok res ->
    outcome c (Binary KMul a b dt) P res).
  { intros n d E. destruct (literal_operand KMul dt a b Gn b n d eq_refl (or_intror eq_refl) E) as [Hn Hval].
    apply (scaled_outcome n sa a); [done | done |]. intros x y Hx Hy. exists x. by rewrite (Hval y Hy). }
  assert (Ha : forall n d, a = ConstInt n d -> (let* s := SumMulConst sb n in NormalizeAndCache c s) = Ok res ->
    outcome c (Binary KMul a b dt) P res).
  { intros n d E. destruct (literal_operand KMul dt a b Gn a n d eq_refl (or_introl eq_refl) E) as [Hn Hval].
    apply (scaled_outcome n sb b); [done | done |]. intros x y Hx Hy. exists y. split; [done |]. rewrite (Hval x Hx). lia. }
  destruct b as [|n d| | | | |] eqn:Eqb; [| by eapply Hb | ..];
    (destruct a as [|n d| | | | |] eqn:Eqa; [| by eapply Ha | ..]); by apply (passthrough_outcome c KMul l r dt _ _ c_typed Gn P None).
Qed.

End Sums.

(** A modulus that is not the sentinel. *)
Definition modulus_ok (k : binkind) (b : expr) : Prop :=
  k = KFloorMod -> forall n d, b = ConstInt n d -> n <> kPosInf.

Lemma visit_binary_outcome c k l r dt a b res :
  cache_typed c -> good (Binary k a b dt) ->
  visit_binary c (Binary k l r dt) k l r dt a b = Ok res -> outcome c (Binary k a b dt) (modulus_ok k b) res.
Proof.
  intros Hc Gn Hv.
  destruct k; try exact (add_outcome c l r dt a b _ Hc res Gn Hv); try exact (sub_outcome c l r dt a b _ Hc res Gn Hv);
    try exact (mul_outcome c l r dt a b _ Hc res Gn Hv);
    try (cbn [visit_binary] in Hv; apply bind_ok in Hv as (f & Hf & Hv); by eapply passthrough_outcome).
  - destruct (arith_operands KFloorDiv dt a b Gn eq_refl) as (_ & Ta & _ & Ga & _).
    apply (visit_division_outcome c KFloorDiv l r dt a b Hc Gn (modulus_ok KFloorDiv b) (fun n x => x / n)) in Hv; try done.
    + intros x y z Hop. simpl in Hop. destruct (y =? 0); [done |]. inv_eval. by subst.
    + intros o s n Ds Hn Hpos. by apply TrySumFloorDiv_denotes.
    + intros n Hn Hpos. apply in_int64_iff in Hn.
      split; cbn [index lower_factor upper_factor scale]; try done; [lia64 | by left].
    + intros n d' x _ _ Hn Hx. apply split_value_some. exists x. split; [done |]. unfold split_at.
      cbn [lower_factor upper_factor scale]. rewrite Z.eqb_refl. lia.
  - destruct (arith_operands KFloorMod dt a b Gn eq_refl) as (_ & Ta & _ & Ga & _).
    apply (visit_division_outcome c KFloorMod l r dt a b Hc Gn (modulus_ok KFloorMod b) (fun n x => x mod n)) in Hv; try done.
    + intros x y z Hop. simpl in Hop. destruct (y =? 0); [done |]. inv_eval. by subst.
    + intros o s n Ds Hn Hpos. by apply TrySumFloorMod_denotes.
    + intros n Hn Hpos. apply in_int64_iff in Hn.
      split; cbn [index lower_factor upper_factor scale]; try done; [lia64 | right; apply Z.divide_1_l].
    + intros n d' x HP Eb Hn Hx. apply split_value_some. exists x. split; [done |]. unfold split_at.
      cbn [lower_factor upper_factor scale]. specialize (HP eq_refl n d' Eb). replace (n =? kPosInf) with false by lia.
      rewrite Z.div_1_r. lia.
Qed.

Lemma visit_unary_outcome c k o dt a res :
  cache_typed c -> good (Unary k a dt) ->
  visit_unary c (Unary k o dt) k o dt a = Ok res -> outcome c (Unary k a dt) True res.
Proof.
  intros Hc Gn Hv. destruct (decide (k = KCast)) as [->|Hk].
  - cbn [visit_unary] in Hv. apply bind_ok in Hv as (f & Hf & Hv).
    destruct f as [e|]; [injection Hv as <-; apply outcome_means; [done | by apply cast_fold_means] |].
    destruct (same a o) eqn:E; [apply same_eq in E as -> |]; injection Hv as <-; apply outcome_means; try done;
      by apply means_refl.
  - destruct (good_unary_type _ _ _ Gn Hk) as [Ta Hd]. pose proof (good_unary _ _ _ Gn) as Ga.
    assert (Hfold : forall e, TryConstFoldUnary k a = Ok (Some e) -> outcome c (Unary k a dt) True (e, c)).
    { intros e Hf. apply outcome_means; [done |]. by apply unary_fold_means. }
    assert (Hkeep : forall f, TryConstFoldUnary k a = Ok f ->
      (match f with Some e => Ok (e, c) | None => let* e := MutateUnary k (Unary k o dt) o a in Ok (e, c) end) = Ok res ->
      outcome c (Unary k a dt) True res).
    { intros f Hf He. destruct f as [e|]; [injection He as <-; by apply Hfold |].
      apply bind_ok in He as (e & He & [= <-]). apply (MutateUnary_eq k o dt a e Gn Hk) in He as ->.
      apply outcome_means; [done |]. by apply means_refl. }
    destruct k; try done; cbn [visit_unary] in Hv; apply bind_ok in Hv as (f & Hf & Hv); try (by eapply Hkeep).
    destruct f as [e|]; [injection Hv as <-; by apply Hfold |].
    destruct (GetOrCreate_denotes c a dt Hc Ga Ta Hd) as (sa & Ea & Da). rewrite Ea in Hv. cbn [bind] in Hv.
    destruct (SumNegate_denotes rho dt _ sa Da) as (s & Es & Ds). rewrite Es in Hv. cbn [bind] in Hv.
    eapply NormalizeAndCache_outcome; [done | done | | exact Hv]. eapply denotes_weaken; [|exact Ds].
    intros z [_ [Hct Hz]]. apply int_value_eval in Hz. cbn [eval] in Hz.
    destruct (eval ideal rho a) as [[x|]|] eqn:Ex; try done. exists x. split; [split; [done | by apply int_value_eval] |].
    simpl in Hz. inv_eval. by subst.
Qed.

(** ** The theorem for the visitor *)

(** What the visit of [e] promises. *)
Definition visited (c : SumCache) (e : expr) (res : expr * SumCache) : Prop :=
  good res.1 /\ scalar_type res.1 = scalar_type e /\ cache_typed res.2 /\
  forall v, cache_true c -> eval bounded rho e = Some v -> eval ideal rho res.1 = Some v /\ cache_true res.2.

Lemma visited_same c e : good e -> cache_typed c -> visited c e (e, c).
Proof. intros Hg Hc. split_and!; try done. intros v Hct Hv. split; [by apply bounded_ideal | done]. Qed.

Lemma visit_around_visited c e body res :
  good e -> cache_typed c -> (forall r, body = Ok r -> visited c e r) -> visit_around c e body = Ok res -> visited c e res.
Proof.
  intros Hg Hc Hb. unfold visit_around. destruct (is_float_expr e); [intros [= <-]; by apply visited_same |].
  intros ([r c'] & Hr & Hv)%bind_ok. apply bind_ok in Hv as (r' & Hp & [= <-]).
  pose proof (Hb _ Hr) as Hvis. pose proof Hvis as (_ & Ht & _). simpl in Ht.
  by apply PreserveIntegerResultType_same in Hp as ->.
Qed.

(** A node rebuilt from its visited operands. *)
Lemma outcome_visited c c' e ref P res :
  scalar_type ref = scalar_type e -> outcome c' ref P res ->
  (forall v, cache_true c -> eval bounded rho e = Some v -> P /\ cache_true c' /\ eval ideal rho ref = Some v) ->
  visited c e res.
Proof.
  intros Ht [O1 O2 O3 O4] Hv. split; [done |]. split; [congruence |]. split; [done |]. intros v Hct He.
  destruct (Hv v Hct He) as (HP & Hct' & Href). by apply O4.
Qed.

Lemma var_visited m c iter id ty res :
  map_ok rho m -> good (Var iter id ty) -> cache_typed c ->
  visit_around c (Var iter id ty) (Ok (default (Var iter id ty) (m !! id), c)) = Ok res ->
  visited c (Var iter id ty) res.
Proof.
  intros Hm Hg Hc Hv. unfold visit_around in Hv.
  destruct (is_float_expr (Var iter id ty)); [injection Hv as <-; by apply visited_same |]. cbn [bind] in Hv.
  apply bind_ok in Hv as (r & Hr & [= <-]).
  destruct (around_var_means rho m iter id ty r Hm Hg) as (Gr & Tr & Vr).
  { unfold around. assert (keeps (Var iter id ty) = false) as ->; [|exact Hr].
    unfold keeps. cbn [AsVarLike negb]. by rewrite andb_false_r. }
  split_and!; try done. intros v Hct Hev. split; [by apply Vr, bounded_ideal | done].
Qed.

Lemma VisitExpr_visited m e : map_ok rho m -> forall c res,
  good e -> cache_typed c -> VisitExpr m c e = Ok res -> visited c e res.
Proof.
  intros Hm. induction e as [iter id ty|v d|f d|t|k l IHl r IHr dt|k o IH dt|k id ty]; intros c res Hg Hc Hv;
    cbn [VisitExpr] in Hv; [by eapply var_visited | | | | | |].
  all: revert Hv; apply visit_around_visited; [done | done |]; intros res' Hv.
  1-3,6: injection Hv as <-; by apply visited_same.
  - destruct (good_binary _ _ _ _ Hg) as [Gl Gr]. apply bind_ok in Hv as ([a c1] & Ha & Hv).
    apply bind_ok in Hv as ([b c2] & Hb & Hv).
    destruct (IHl c (a, c1) Gl Hc Ha) as (Ga & Ta & Hc1 & Va). destruct (IHr c1 (b, c2) Gr Hc1 Hb) as (Gb & Tb & Hc2 & Vb).
    cbn [fst snd] in *.
    apply (outcome_visited c c2 (Binary k l r dt) (Binary k a b dt) (modulus_ok k b)); [done | |].
    { eapply visit_binary_outcome; [done | by apply (rebuild_good k l r dt a b) | exact Hv]. }
    intros v Hct (x & y & Ex & Ey & Hop)%eval_binary_inv. destruct (Va x Hct Ex) as [Ea Hct1].
    destruct (Vb y Hct1 Ey) as [Eb Hct2]. split_and!; [| done | cbn [eval]; rewrite Ea, Eb; by apply bounded_binary].
    intros _ n d ->. pose proof (eval_bounded _ _ _ Ey) as Hy. cbn [eval] in Eb. unfold int_result in Eb.
    destruct (IsInt d); [|done]. injection Eb as <-. simpl in Hy. lia.
  - pose proof (good_unary _ _ _ Hg) as Go. apply bind_ok in Hv as ([a c1] & Ha & Hv).
    destruct (IH c (a, c1) Go Hc Ha) as (Ga & Ta & Hc1 & Va). cbn [fst snd] in *.
    apply (outcome_visited c c1 (Unary k o dt) (Unary k a dt) True); [done | |].
    { eapply visit_unary_outcome; [done | by apply (rebuild_good_unary k o dt a) | exact Hv]. }
    intros v Hct Hev. cbn [eval] in Hev. destruct (eval bounded rho o) as [x|] eqn:Ex; [|done].
    destruct (Va x Hct eq_refl) as [Ea Hct1]. split_and!; [done | done |]. cbn [eval]. rewrite Ea. by apply bounded_unary.
Qed.

(** *** The visitor returns *)

Definition returns {A} (r : result A) : Prop := exists x, r = Ok x.

Lemma returns_bind {A B} (r : result A) (f : A -> result B) :
  returns r -> (forall x, r = Ok x -> returns (f x)) -> returns (let* x := r in f x).
Proof. intros [x ->] Hf. by apply Hf. Qed.

Lemma fold_returns (f : result (option expr)) : (forall err, f <> Err err) -> returns f.
Proof. intros Hf. destruct f as [x|err]; [by exists x | by destruct (Hf err)]. Qed.

Lemma literal_eval e n d v : e = ConstInt n d -> eval ideal rho e = Some v -> v = VInt n.
Proof. intros ->. cbn [eval]. unfold int_result. destruct (IsInt d); [|done]. by intros [= <-]. Qed.

(** A fold does not throw on operands for which the operation stays in the
    analyzers' range. *)
Lemma defined_fold k a b d dt x y v :
  good a -> good b -> scalar_type a = Some d ->
  eval ideal rho a = Some x -> eval ideal rho b = Some y -> kNegInf < num x -> binary_sem k bounded dt x y = Some v ->
  returns (TryConstFoldBinary k a b d).
Proof.
  intros [Wa Fa] [Wb Fb] Ta Ea Eb Hx Hop. apply fold_returns. intros err Hf.
  assert (Hw : wf (Binary k a b d) = true) by (cbn [wf]; by rewrite Fa, Fb).
  destruct (TryConstFold_err (Binary k a b d) err Hw Hf) as [[_ Hu]|(_ & k' & l' & r' & d' & [= <- <- <- <-] & Hn)];
    [|congruence].
  assert (Hmin : forall d', a = ConstInt INT64_MIN d' -> False).
  { intros d' E. pose proof (literal_eval a _ d' x E Ea) as ->. vm_compute in Hx. done. }
  cbn [undefined_literals] in Hu. destruct k; try done.
  - destruct b as [|n d'| | | | |]; try done. apply (literal_eval _ n d' _ eq_refl) in Eb as ->.
    destruct x; try done. cbn [binary_sem int_op] in Hop. destruct Hu as [->|[_ [d0 E]]]; [done | by apply (Hmin d0)].
  - destruct b as [|n d'| | | | |]; try done. apply (literal_eval _ n d' _ eq_refl) in Eb as ->.
    destruct x; try done. cbn [binary_sem int_op] in Hop. destruct Hu as [->|[_ [d0 E]]]; [done | by apply (Hmin d0)].
  - destruct a as [|m da| | | | |], b as [|n db| | | | |]; try done. apply (literal_eval _ n db _ eq_refl) in Eb as ->.
    destruct x; try done. cbn [binary_sem int_op] in Hop. by replace (n <? 0) with true in Hop by lia.
Qed.

Lemma NormalizeAndCache_returns c d s : sum_typed d s -> returns (NormalizeAndCache c s).
Proof.
  intros Hs. destruct (Normalize_builds rho d s Hs) as (e & He & _). unfold NormalizeAndCache. rewrite He. by eexists.
Qed.

Lemma MutateBinary_returns k op l r a b dt : good (Binary k a b dt) -> returns (MutateBinary k op l r a b).
Proof.
  intros Gn. unfold MutateBinary. destruct (_ && _); [by eexists |].
  destruct (good_binary _ _ _ _ Gn) as [Ga Gb]. destruct (good_operands _ _ _ _ Gn) as (Ho & d & Hd & _).
  destruct (MakeBinary_good k a b d Ga Gb Ho Hd) as (-> & _). by eexists.
Qed.

Lemma divided_returns c k op l r a b dt split :
  good (Binary k a b dt) -> op = Binary k l r dt -> returns (divided c k op l r a b split).
Proof.
  intros Gn ->. unfold divided. apply returns_bind; [by eapply MutateBinary_returns |]. intros ret Hr.
  apply MutateBinary_eq in Hr as ->; [|done]. destruct b; try (by eexists). destruct (_ >? 0); by eexists.
Qed.

Lemma visit_division_returns c k l r dt a b try_sum split :
  cache_typed c -> good (Binary k a b dt) -> class_of k = CArith -> returns (TryConstFoldBinary k a b dt) ->
  (forall s n, sum_typed dt s -> in_int64 n = true -> 0 < n ->
    exists o, try_sum s n = Ok o /\ forall s', o = Some s' -> sum_typed dt s') ->
  returns (visit_division c k (Binary k l r dt) l r dt a b try_sum split).
Proof.
  intros Hc Gn Hk Hf Htry. unfold visit_division. destruct (negb _); [by destruct (_ && _); eexists |].
  apply returns_bind; [done |]. intros f Ef. destruct f as [e|]; [by eexists |].
  destruct (arith_operands k dt a b Gn Hk) as (Hd & Ta & _ & Ga & Gb).
  destruct (GetOrCreate_denotes c a dt Hc Ga Ta Hd) as (sa & Esa & Hsa & _).
  destruct b as [|n d| | | | |] eqn:Eb; try (by eapply divided_returns).
  destruct (Z.gtb_spec n 0); [|by eapply divided_returns]. rewrite Esa. cbn [bind].
  destruct (Htry sa n Hsa) as (o & -> & Ho); [by destruct Gb as [_ Hw] | lia |]. cbn [bind].
  destruct o as [s|]; [by eapply NormalizeAndCache_returns, Ho | by eapply divided_returns].
Qed.

Definition nothing (z : Z) : Prop := False.

Lemma typed_denotes d s : sum_typed d s -> denotes rho d nothing s.
Proof. intros Hs. by split. Qed.

Lemma visit_binary_returns c k l r dt a b x y v :
  cache_typed c -> good (Binary k a b dt) ->
  eval ideal rho a = Some x -> eval ideal rho b = Some y -> kNegInf < num x -> binary_sem k bounded dt x y = Some v ->
  returns (visit_binary c (Binary k l r dt) k l r dt a b).
Proof.
  intros Hc Gn Ea Eb Hx Hop. destruct (good_binary _ _ _ _ Gn) as [Ga Gb].
  destruct (good_operands _ _ _ _ Gn) as (_ & d & Hd & Hdt).
  pose proof (defined_fold k a b d dt x y v Ga Gb Hd Ea Eb Hx Hop) as Hf.
  assert (Hsame : returns (TryConstFoldBinarySame k a b)).
  { unfold TryConstFoldBinarySame. by rewrite (proj2 (GetScalarDtype_ok a d) Hd). }
  assert (Hkeep : forall f, returns (match f : option expr with Some e => Ok (e, c) | None =>
      let* e := MutateBinary k (Binary k l r dt) l r a b in Ok (e, c) end)).
  { intros [e|]; [by eexists |]. apply returns_bind; [by eapply MutateBinary_returns |]. by eexists. }
  assert (Hsums : class_of k = CArith -> exists sa sb, GetOrCreateSumExpr c a = Ok sa /\
    GetOrCreateSumExpr c b = Ok sb /\ denotes rho dt nothing sa /\ denotes rho dt nothing sb).
  { intros Hk. destruct (operand_sums c k dt a b Hc Gn Hk) as (sa & sb & Hsa & Hsb & [Da _] & [Db _]).
    exists sa, sb. split_and!; try done; by apply typed_denotes. }
  destruct k; cbn [visit_binary]; try (apply returns_bind; [exact Hsame | intros f _; apply Hkeep]).
  - apply returns_bind; [exact Hsame |]. intros [e|] _; [by eexists |].
    destruct (Hsums eq_refl) as (sa & sb & -> & -> & Da & Db). cbn [bind].
    destruct (SumAdd_denotes rho dt _ _ sa sb Da Db) as (s & -> & [Hs _]). by eapply NormalizeAndCache_returns.
  - apply returns_bind; [exact Hsame |]. intros [e|] _; [by eexists |].
    destruct (Hsums eq_refl) as (sa & sb & -> & -> & Da & Db). cbn [bind].
    destruct (SumNegate_denotes rho dt _ sb Db) as (nb & -> & Dn). cbn [bind].
    destruct (SumAdd_denotes rho dt _ _ sa nb Da Dn) as (s & -> & [Hs _]). by eapply NormalizeAndCache_returns.
  - apply returns_bind; [exact Hsame |]. intros [e|] _; [by eexists |].
    destruct (Hsums eq_refl) as (sa & sb & -> & -> & Da & Db). cbn [bind].
    assert (Hlit : forall n d0 e s, e = a \/ e = b -> e = ConstInt n d0 -> denotes rho dt nothing s ->
      returns (let* s := SumMulConst s n in NormalizeAndCache c s)).
    { intros n d0 e s He E Ds. destruct (literal_operand KMul dt a b Gn e n d0 eq_refl He E) as [Hn _].
      destruct (SumMulConst_denotes rho dt _ s n Ds Hn) as (s' & -> & [Hs' _]). by eapply NormalizeAndCache_returns. }
    destruct b as [|n d'| | | | |] eqn:Eqb; [| by eapply (Hlit _ _ _ _ (or_intror eq_refl)) | ..];
      (destruct a as [|n d'| | | | |] eqn:Eqa; [| by eapply (Hlit _ _ _ _ (or_introl eq_refl)) | ..]); apply (Hkeep None).
  - simpl in Hdt. subst d. apply visit_division_returns; try done. intros s n Hs Hn Hpos.
    destruct (TrySumFloorDiv_denotes rho dt _ s n (typed_denotes dt s Hs) Hn Hpos) as (o & -> & Ho).
    exists o. split; [done |]. intros s' E. by destruct (Ho s' E).
  - simpl in Hdt. subst d. apply visit_division_returns; try done. intros s n Hs Hn Hpos.
    destruct (TrySumFloorMod_denotes rho dt _ s n (typed_denotes dt s Hs) Hn Hpos) as (o & -> & Ho).
    exists o. split; [done |]. intros s' E. by destruct (Ho s' E).
Qed.

Lemma visit_unary_returns c k o dt a :
  cache_typed c -> good (Unary k a dt) -> returns (visit_unary c (Unary k o dt) k o dt a).
Proof.
  intros Hc Gn. assert (Hf : returns (TryConstFold (Unary k a dt))).
  { apply fold_returns. intros err Hf. destruct Gn as [_ Hw].
    by destruct (TryConstFold_err _ err Hw Hf) as [[_ Hu]|(_ & ? & ? & ? & ? & ? & _)]. }
  cbn [TryConstFold] in Hf.
  destruct (decide (k = KCast)) as [->|Hk].
  { cbn [visit_unary]. apply returns_bind; [done |]. intros [e|] _; [by eexists |]. destruct (same a o); by eexists. }
  destruct (good_unary_type _ _ _ Gn Hk) as [Ta Hd]. pose proof (good_unary _ _ _ Gn) as Ga.
  assert (Hm : returns (MutateUnary k (Unary k o dt) o a)).
  { unfold MutateUnary. destruct (same a o); [by eexists |].
    destruct (MakeUnary_good k a dt Ga Ta Hd) as [-> _]. by eexists. }
  destruct k; try done; cbn [visit_unary]; (apply returns_bind; [exact Hf |]); intros [e|] _; try (by eexists);
    try (apply returns_bind; [exact Hm | by eexists]).
  destruct (GetOrCreate_denotes c a dt Hc Ga Ta Hd) as (sa & -> & Da). cbn [bind].
  destruct (SumNegate_denotes rho dt _ sa Da) as (s & -> & [Hs _]). by eapply NormalizeAndCache_returns.
Qed.

Lemma visit_around_returns c e body :
  returns body -> (forall r, body = Ok r -> scalar_type r.1 = scalar_type e) -> returns (visit_around c e body).
Proof.
  intros Hb Ht. unfold visit_around. destruct (is_float_expr e); [by eexists |].
  apply returns_bind; [done |]. intros [r c'] Hr. specialize (Ht _ Hr). simpl in Ht.
  apply returns_bind; [|by eexists]. unfold PreserveIntegerResultType, GetScalarDtype. rewrite Ht.
  destruct (scalar_type e) as [d|]; [|by eexists]. destruct (negb _); [by eexists |]. cbn [bind].
  rewrite dtype_eqb_refl, orb_true_r. by eexists.
Qed.

Lemma var_returns m c iter id ty :
  map_ok rho m -> good (Var iter id ty) ->
  returns (visit_around c (Var iter id ty) (Ok (default (Var iter id ty) (m !! id), c))).
Proof.
  intros Hm Hg. destruct (m !! id) as [r|] eqn:E; unfold default, from_option, Datatypes.id.
  2: { apply visit_around_returns; [by eexists | by intros ? [= <-]]. }
  destruct (Hm id r E) as ([Wr Fr] & Vr & _). destruct (eval_typed _ _ _ _ Vr) as (dr & Tr & _).
  unfold visit_around. destruct (is_float_expr _); [by eexists |]. cbn [bind].
  apply returns_bind; [|by eexists]. unfold PreserveIntegerResultType, GetScalarDtype. rewrite Tr.
  destruct (scalar_type (Var iter id ty)) as [d|]; [|by eexists]. destruct (negb _); [by eexists |]. cbn [bind].
  match goal with |- returns (if ?b then _ else _) => destruct b end; [by eexists |].
  apply returns_bind; [|intros [e|] _; by eexists].
  apply fold_returns. intros err Hf.
  by destruct (TryConstFold_err (Unary KCast r d) err Fr Hf) as [[_ Hu]|(_ & ? & ? & ? & ? & ? & _)].
Qed.

Lemma VisitExpr_returns m e : map_ok rho m -> forall c v,
  good e -> cache_typed c -> cache_true c -> eval bounded rho e = Some v -> returns (VisitExpr m c e).
Proof.
  intros Hm. induction e as [iter id ty|n d|f d|t|k l IHl r IHr dt|k o IH dt|k id ty]; intros c v Hg Hc Hct Hv;
    cbn [VisitExpr]; [by apply var_returns | | | | | |].
  1-3,6: apply visit_around_returns; [by eexists | by intros ? [= <-]].
  - destruct (good_binary _ _ _ _ Hg) as [Gl Gr]. apply eval_binary_inv in Hv as (x & y & Ex & Ey & Hop).
    destruct (IHl c x Gl Hc Hct Ex) as [[a c1] Ha].
    destruct (VisitExpr_visited m l Hm c (a, c1) Gl Hc Ha) as (Ga & Ta & Hc1 & Va). destruct (Va x Hct Ex) as [Ea Hct1].
    destruct (IHr c1 y Gr Hc1 Hct1 Ey) as [[b c2] Hb].
    destruct (VisitExpr_visited m r Hm c1 (b, c2) Gr Hc1 Hb) as (Gb & Tb & Hc2 & Vb). destruct (Vb y Hct1 Ey) as [Eb Hct2].
    cbn [fst snd] in *. pose proof (rebuild_good k l r dt a b Hg Ga Gb Ta Tb) as Gn. rewrite Ha. cbn [bind]. rewrite Hb.
    cbn [bind]. apply visit_around_returns.
    + by apply (visit_binary_returns c2 k l r dt a b x y v), Hop; try done; apply (eval_bounded rho l).
    + intros res Hr. by destruct (visit_binary_outcome c2 k l r dt a b res Hc2 Gn Hr).
  - pose proof (good_unary _ _ _ Hg) as Go. cbn [eval] in Hv. destruct (eval bounded rho o) as [x|] eqn:Ex; [|done].
    destruct (IH c x Go Hc Hct eq_refl) as [[a c1] Ha].
    destruct (VisitExpr_visited m o Hm c (a, c1) Go Hc Ha) as (Ga & Ta & Hc1 & Va). cbn [fst snd] in *.
    pose proof (rebuild_good_unary k o dt a Hg Ga Ta) as Gn. rewrite Ha. cbn [bind]. apply visit_around_returns.
    + by apply visit_unary_returns.
    + intros res Hr. by destruct (visit_unary_outcome c1 k o dt a res Hc1 Gn Hr).
Qed.

Lemma Simplify_returns m e v :
  map_ok rho m -> good e -> eval bounded rho e = Some v -> exists e', Simplify m e = Ok e' /\ eval ideal rho e' = Some v.
Proof.
  intros Hm Hg Hv. destruct (VisitExpr_returns m e Hm [] v Hg) as [[e' c] He]; [by intros ? ? [] | by intros ? ? [] | done |].
  destruct (VisitExpr_visited m e Hm [] (e', c) Hg) as (_ & _ & _ & V); [by intros ? ? [] | done |].
  exists e'. unfold Simplify. rewrite He. split; [done |]. by apply V; [intros ? ? [] |].
Qed.

Lemma Simplify_value m e e' :
  map_ok rho m -> good e -> Simplify m e = Ok e' ->
  good e' /\ scalar_type e' = scalar_type e /\ forall v, eval bounded rho e = Some v -> eval ideal rho e' = Some v.
Proof.
  intros Hm Hg (res & Hv & He)%bind_ok. destruct res as [r c]. injection He as <-.
  destruct (VisitExpr_visited m e Hm [] (r, c) Hg) as (G & T & _ & V); [by intros ? ? [] | done |].
  split_and!; [done | done |]. intros v Hev. by apply V; [intros ? ? [] |].
Qed.

End Visiting.

(** C17: The canonical simplifier keeps types and meaning: for a uniformly typed integer or
    boolean expression, variable bindings that have their variable's value, and a cache in
    which no sum is found by the address of a destroyed node (addresses_fresh), the result
    of the simplifier is uniformly typed with the same dtype; and wherever every literal,
    variable, result and conversion of the expression lies strictly between INT64_MIN and
    INT64_MAX (the reading bounded; INT64_MAX itself is excluded, since as a modulus it is
    taken for none), the simplifier returns a result and the result has the expression's
    value, over unbounded integers. Sums are merged, negated, scaled, divided and recombined
    on the way, with the overflow fallbacks. *)
Theorem Canonical_sound `{VarTypes} `{PtrEq} `{Libm} (F : CacheFind) rho m e :
  addresses_fresh F -> map_ok rho m -> good e ->
  (forall e', Simplify m e = Ok e' -> good e' /\ scalar_type e' = scalar_type e) /\
  forall v, eval bounded rho e = Some v -> exists e', Simplify m e = Ok e' /\ eval ideal rho e' = Some v.
Proof.
  intros HF Hm Hg. split.
  - intros e' He. by destruct (Simplify_value rho HF m e e' Hm Hg He) as (? & ? & _).
  - intros v Hv. by apply (Simplify_returns rho HF).
Qed.

(** MergeTerms ends: every turn of its loop that changes anything zeroes a scale, so
    one turn more than there are terms is enough; the terms it returns are well formed, none
    has scale zero, and their sum has the value the terms had. *)
Theorem MergeTerms_spec `{VarTypes} `{PtrEq} rho d args :
  Forall (split_typed d) args ->
  exists args', MergeTerms args = Ok args' /\ Forall (split_typed d) args' /\
    Forall (fun s => scale s <> 0) args' /\
    forall z, args_value rho args = Some z -> args_value rho args' = Some z.
Proof.
  intros Ha. destruct (MergeTerms_keeps rho d args Ha) as (args' & E & Ht & Hv).
  exists args'. split_and!; try done. unfold MergeTerms in E. apply bind_ok in E as (r & _ & [= <-]).
  apply List.Forall_forall. intros s [_ Hs]%filter_In. by apply negb_true_iff, Z.eqb_neq in Hs.
Qed.

(** ** Witnesses and findings *)

Module Examples.

Definition types : VarTypes := fun _ => Some INT64.
Definition libm : Libm := {| std_pow := fun a _ => a |}.

(** The latest entry of an equal node. *)
Definition latest (c : SumCache) (e : expr) : option SumExpr :=
  option_map snd (List.find (fun entry => bool_decide (entry.1 = e)) c).

Lemma latest_fresh c e s : latest c e = Some s -> In (e, s) c.
Proof.
  unfold latest. destruct (List.find _ c) as [[k s']|] eqn:E; [|done]. intros [= <-].
  apply find_some in E as [Hin Hk%bool_decide_eq_true]. simpl in *. by subst.
Qed.

Definition keeps_addresses : CacheFind :=
  {| sum_cache_find := latest; sum_cache_inserted c e s H := ex_intro _ e (latest_fresh c e s H) |}.

Definition x : expr := Var false 1 (Some INT64).
Definition num64 (n : Z) : expr := ConstInt n INT64.
Definition op64 (k : binkind) (a b : expr) : expr := Binary k a b INT64.
Definition at_x (n : Z) : Env := {| var_val _ := VInt n; leaf_val _ := VInt 0 |}.

(** [(x // 4) * 4 + x % 4] becomes [x]. *)
Lemma Canonical_sound_witness :
  let e := op64 KAdd (op64 KMul (op64 KFloorDiv x (num64 4)) (num64 4)) (op64 KFloorMod x (num64 4)) in
  @Simplify structural_ptr libm keeps_addresses ∅ e = Ok x /\
  exists e', @Simplify structural_ptr libm keeps_addresses ∅ e = Ok e' /\ eval ideal (at_x (-7)) e' = Some (VInt (-7)).
Proof.
  intros e. split; [by vm_compute |].
  assert (Hm : @map_ok types (at_x (-7)) ∅) by (intros id e' Hl; by rewrite lookup_empty in Hl).
  assert (Hg : @good types e) by (by split; vm_compute).
  apply (@Canonical_sound types structural_ptr libm keeps_addresses (at_x (-7)) ∅ e latest_fresh Hm Hg). by vm_compute.
Defined.

Lemma MergeTerms_witness :
  MergeTerms [MkSplit x 4 kPosInf 4; MkSplit x 1 4 1] = Ok [MkSplit x 1 kPosInf 1] /\
  exists args', MergeTerms [MkSplit x 4 kPosInf 4; MkSplit x 1 4 1] = Ok args' /\
    args_value (at_x 9) args' = Some 9.
Proof.
  split; [by vm_compute |].
  assert (Ht : Forall (@split_typed types INT64) [MkSplit x 4 kPosInf 4; MkSplit x 1 4 1]).
  { constructor; [|constructor; [|constructor]].
    - split; cbn [index lower_factor upper_factor scale]; try done; by left.
    - split; cbn [index lower_factor upper_factor scale]; try done. right. apply Z.divide_1_l. }
  destruct (@MergeTerms_spec types structural_ptr (at_x 9) INT64 _ Ht) as (args' & E & _ & _ & Hv).
  exists args'. split; [done |]. apply Hv. by vm_compute.
Defined.

(** An address used again: the entry of the destroyed node [x + 1] is found for
    the node of [min]. *)
Definition reused (c : SumCache) (e : expr) : option SumExpr :=
  match e with
  | Binary KMin _ _ _ => latest c (op64 KAdd x (num64 1))
  | _ => latest c e
  end.

Lemma reused_inserted c e s : reused c e = Some s -> exists k, In (k, s) c.
Proof. unfold reused. intros H. repeat case_match; eexists; by apply latest_fresh in H. Qed.

Definition reuses_addresses : CacheFind := {| sum_cache_find := reused; sum_cache_inserted := reused_inserted |}.

(** Finding: with the address of a destroyed node in use again, ((x + 1) + 2) + min(x,
    1 + 2) simplifies to an expression that is 24 at x = 10, where the original is 16. *)
Theorem stale_sum_diverges :
  let e := op64 KAdd (op64 KAdd (op64 KAdd x (num64 1)) (num64 2)) (op64 KMin x (op64 KAdd (num64 1) (num64 2))) in
  exists e', @Simplify structural_ptr libm reuses_addresses ∅ e = Ok e' /\
    eval bounded (at_x 10) e = Some (VInt 16) /\ eval ideal (at_x 10) e' = Some (VInt 24).
Proof. eexists. split; [by vm_compute |]. by split; vm_compute. Qed.

(** Finding: a modulus equal to the sentinel for no modulus is lost: x %
    9223372036854775807 + 1 simplifies to x + 1, which differs from it at x = -1. *)
Theorem modulus_infinity_diverges :
  let e := op64 KAdd (op64 KFloorMod x (num64 INT64_MAX)) (num64 1) in
  exists e', @Simplify structural_ptr libm keeps_addresses ∅ e = Ok e' /\
    eval machine (at_x (-1)) e = Some (VInt INT64_MAX) /\ eval machine (at_x (-1)) e' = Some (VInt 0).
Proof. eexists. split; [by vm_compute |]. by split; vm_compute. Qed.

End Examples.
