(* ===== verification/TransitiveCmp.v ===== *)
(** * Transitive comparisons ([src/ir/arith/transitive_comparison_analyzer.cpp])

    Known comparisons between expressions, and the search that chains them:
    the answers are sound, and the search ends whenever the known comparisons
    can be satisfied. *)

From Stdlib Require Import ZArith Lia Bool List.
From stdpp Require Import base gmap list option.
From S2P Require Import Prelude Dtype IntOps ScalarExpr ConstFold PatternMatch RewriteRules.
From S2P Require Import RewriteSound RewriteSimplify.

(** ** Comparison results as bits ([operator&] in [analyzer.h]) *)

Definition cr_bits (r : CompareResult) : Z :=
  match r with
  | kInconsistent => 0 | kEQ => 1 | kLT => 2 | kLE => 3
  | kGT => 4 | kGE => 5 | kNE => 6 | kUnknown => 7
  end.

Definition cr_of_bits (b : Z) : CompareResult :=
  if b =? 0 then kInconsistent else if b =? 1 then kEQ else if b =? 2 then kLT
  else if b =? 3 then kLE else if b =? 4 then kGT else if b =? 5 then kGE
  else if b =? 6 then kNE else kUnknown.

Definition cr_and (l r : CompareResult) : CompareResult :=
  cr_of_bits (Z.land (cr_bits l) (cr_bits r)).

Definition Reverse (res : CompareResult) : CompareResult :=
  match res with
  | kLT => kGT | kLE => kGE | kGT => kLT | kGE => kLE
  | _ => res
  end.

(** ** Offsets *)

(** [expr == inner + offset]; no inner expression for a literal. *)
Definition ExtractOffset (e : expr) : result (option expr * Z) :=
  match e with
  | Binary KAdd l r _ =>
      match as_int r, as_int l with
      | Some (v, _), _ => Ok (Some l, v)
      | None, Some (v, _) => Ok (Some r, v)
      | None, None => Ok (Some e, 0)
      end
  | Binary KSub l r _ =>
      match as_int r with
      | Some (v, _) => let* n := neg64 v in Ok (Some l, n)
      | None => Ok (Some e, 0)
      end
  | ConstInt v _ => Ok (None, v)
  | _ => Ok (Some e, 0)
  end.

Definition ExtractOffsets (l r : expr) : result (option expr * option expr * Z) :=
  let* (li, lo) := ExtractOffset l in
  let* (ri, ro) := ExtractOffset r in
  let* d := sub64 ro lo in
  Ok (li, ri, d).

(** ** Comparisons: [lhs OP rhs + offset] *)

Record Comparison := MkComparison { lhs_ : nat; rhs_ : nat; offset_ : Z; result_ : CompareResult }.

(** The constructor turns the strict integer comparisons into closed ones. *)
Definition new_Comparison (lhs rhs : nat) (offset : Z) (res : CompareResult) : result Comparison :=
  match res with
  | kLT => let* o := sub64 offset 1 in Ok (MkComparison lhs rhs o kLE)
  | kGT => let* o := add64 offset 1 in Ok (MkComparison lhs rhs o kGE)
  | _ => Ok (MkComparison lhs rhs offset res)
  end.

Definition IsNormalized (c : Comparison) : bool :=
  bool_decide (result_ c <> kLT) && bool_decide (result_ c <> kGT).

Definition WithLHS (c : Comparison) (new_lhs : nat) : result (option Comparison) :=
  if (new_lhs =? lhs_ c)%nat then Ok (Some c)
  else if (new_lhs =? rhs_ c)%nat then
    let* o := neg64 (offset_ c) in
    let* c := new_Comparison (rhs_ c) (lhs_ c) o (Reverse (result_ c)) in Ok (Some c)
  else Ok None.

(** What [Implies] decides after its internal checks. *)
Definition implies (c d : Comparison) : bool :=
  let has r x := bool_decide (result_ x = r) in
  (bool_decide (result_ c = result_ d) && (offset_ c =? offset_ d)) ||
  (has kLE d && (offset_ c <=? offset_ d) && (has kEQ c || has kLE c)) ||
  (has kGE d && (offset_ c >=? offset_ d) && (has kEQ c || has kGE c)) ||
  (has kNE d &&
    ((has kEQ c && negb (offset_ c =? offset_ d)) ||
     (has kLE c && (offset_ c <? offset_ d)) ||
     (has kGE c && (offset_ c >? offset_ d)))).

Definition Implies (c d : Comparison) : result bool :=
  let* _ := require (lhs_ c =? lhs_ d)%nat InternalError in
  let* _ := require (rhs_ c =? rhs_ d)%nat InternalError in
  let* _ := require (IsNormalized c) InternalError in
  let* _ := require (IsNormalized d) InternalError in
  Ok (implies c d).

(** ** State

    [expr_to_key_] numbers the nodes it has seen in order, so the list of nodes
    says it all; [None] stands for the shared node of the literal zero. *)
Record CmpState := MkCmpState {
  key_exprs : list (option expr);
  knowns : list Comparison;
  scoped_knowns : list Comparison
}.

Definition no_knowns : CmpState := MkCmpState [] [] [].

(** The order in which an [unordered_set] is iterated: any element may be the
    first one, and the choice may differ from turn to turn. *)
Class SetOrder := {
  begin_ : nat -> gset nat -> nat;
  begin_in n s : s <> ∅ -> begin_ n s ∈ s
}.

Section Analyzer.
Context `{PtrEq} `{SetOrder}.

Definition same_key (a b : option expr) : bool :=
  match a, b with
  | None, None => true
  | Some a, Some b => same a b
  | _, _ => false
  end.

Fixpoint find_key (keys : list (option expr)) (e : option expr) : option nat :=
  match keys with
  | [] => None
  | k :: keys => if same_key k e then Some 0%nat else S <$> find_key keys e
  end.

Definition ExprToPreviousKey (keys : list (option expr)) (e : option expr) : option nat :=
  find_key keys e.

Definition ExprToKey (keys : list (option expr)) (e : option expr) : list (option expr) * nat :=
  match find_key keys e with
  | Some k => (keys, k)
  | None => (keys ++ [e], length keys)
  end.

(** The comparison operators and their results. *)
Definition cmp_result (k : binkind) : option CompareResult :=
  match k with
  | KLe => Some kLE | KGe => Some kGE | KLt => Some kLT | KGt => Some kGT
  | KEq => Some kEQ | KNe => Some kNE | _ => None
  end.

Definition FromExpr (keys : list (option expr)) (e : expr)
    : result (list (option expr) * option Comparison) :=
  match e with
  | Binary k l r _ =>
      match cmp_result k with
      | None => Ok (keys, None)
      | Some res =>
          match as_int l, as_int r with
          | Some _, Some _ => Ok (keys, None)
          | _, _ =>
              let* (li, ri, offset) := ExtractOffsets l r in
              let (keys, lk) := ExprToKey keys li in
              let (keys, rk) := ExprToKey keys ri in
              let* c := new_Comparison lk rk offset res in
              Ok (keys, Some c)
          end
      end
  | _ => Ok (keys, None)
  end.

(** The loop of [AddKnown] over the parts of the constraint. *)
Fixpoint add_parts (keys : list (option expr)) (parts : list expr) (vec : list Comparison)
    : result (list (option expr) * list Comparison) :=
  match parts with
  | [] => Ok (keys, vec)
  | e :: parts =>
      let* (keys, c) := FromExpr keys e in
      add_parts keys parts (match c with Some c => vec ++ [c] | None => vec end)
  end.

Definition AddKnown (keys : list (option expr)) (e : expr) (vec : list Comparison)
    : result (list (option expr) * list Comparison) :=
  let* parts := ExtractConstraints e in add_parts keys parts vec.

(** ** Collecting comparisons *)

(** The comparisons of [known] with [lhs] on the left. *)
Fixpoint with_lhs (known : list Comparison) (lhs : nat) : result (list Comparison) :=
  match known with
  | [] => Ok []
  | c :: known =>
      let* n := WithLHS c lhs in
      let* rest := with_lhs known lhs in
      Ok (match n with Some c => c :: rest | None => rest end)
  end.

(** [CollectDirectComparisons]. *)
Definition CollectDirectComparisons (known : list Comparison) (lhs rhs : nat) : result (list Comparison) :=
  let* cs := with_lhs known lhs in
  Ok (List.filter (fun c => (rhs_ c =? rhs)%nat) cs).

(** *** The search *)

Record Search := MkSearch { to_visit : gset nat; compared_to_lhs : gmap nat (list Comparison) }.

Definition facts (s : Search) (k : nat) : list Comparison := default [] (compared_to_lhs s !! k).

(** Whether one of [prev] implies [cmp]. *)
Fixpoint any_implies (prev : list Comparison) (cmp : Comparison) : result bool :=
  match prev with
  | [] => Ok false
  | p :: prev => let* i := Implies p cmp in if i : bool then Ok true else any_implies prev cmp
  end.

(** Replace the first comparison that [cmp] implies. *)
Fixpoint replace_weaker (prev : list Comparison) (cmp : Comparison) : result (option (list Comparison)) :=
  match prev with
  | [] => Ok None
  | p :: prev =>
      let* i := Implies cmp p in
      if i : bool then Ok (Some (cmp :: prev))
      else let* o := replace_weaker prev cmp in Ok (cons p <$> o)
  end.

Definition declare_known (rhs_key : nat) (s : Search) (cmp : Comparison) : result Search :=
  let known := facts s (rhs_ cmp) in
  let enqueue := if (rhs_ cmp =? rhs_key)%nat then to_visit s else {[ rhs_ cmp ]} ∪ to_visit s in
  let* implied := any_implies known cmp in
  if implied : bool then Ok (MkSearch (to_visit s) (<[rhs_ cmp := known]> (compared_to_lhs s)))
  else
    let* replaced := replace_weaker known cmp in
    let known := match replaced with Some l => l | None => known ++ [cmp] end in
    Ok (MkSearch enqueue (<[rhs_ cmp := known]> (compared_to_lhs s))).

Fixpoint declare_all (rhs_key : nat) (s : Search) (cs : list Comparison) : result Search :=
  match cs with
  | [] => Ok s
  | c :: cs => let* s := declare_known rhs_key s c in declare_all rhs_key s cs
  end.

(** [attempt_transitive] with one comparison of the middle key. *)
Definition combine_results (p c : CompareResult) : option CompareResult :=
  if bool_decide (p = kEQ) || bool_decide (c = kEQ) then
    (let r := if bool_decide (p = kEQ) then c else p in
     if bool_decide (r = kUnknown) then None else Some r)
  else if bool_decide (p = c) && (bool_decide (p = kLE) || bool_decide (p = kGE)) then Some p
  else None.

Fixpoint chain_with (lhs_key : nat) (prev : list Comparison) (cmp : Comparison) : result (list Comparison) :=
  match prev with
  | [] => Ok []
  | p :: prev =>
      let* o := add64 (offset_ p) (offset_ cmp) in
      let* c :=
        (match combine_results (result_ p) (result_ cmp) with
         | Some r => let* c := new_Comparison lhs_key (rhs_ cmp) o r in Ok [c]
         | None => Ok []
         end) in
      let* rest := chain_with lhs_key prev cmp in
      Ok (c ++ rest)
  end.

Definition attempt_transitive (lhs_key : nat) (prev : list Comparison) (cmp : Comparison)
    : result (list Comparison) :=
  let* _ := require (IsNormalized cmp) InternalError in
  if (rhs_ cmp =? lhs_key)%nat then Ok [] else chain_with lhs_key prev cmp.

Fixpoint attempt_all (lhs_key : nat) (prev cs : list Comparison) : result (list Comparison) :=
  match cs with
  | [] => Ok []
  | c :: cs =>
      let* new := attempt_transitive lhs_key prev c in
      let* rest := attempt_all lhs_key prev cs in
      Ok (new ++ rest)
  end.

(** One turn of the loop: visit [middle]. *)
Definition visit_key (known : list Comparison) (lhs_key rhs_key : nat) (s : Search) (middle : nat)
    : result Search :=
  let s := MkSearch (to_visit s ∖ {[ middle ]}) (compared_to_lhs s) in
  let* prev := (match compared_to_lhs s !! middle with Some l => Ok l | None => Err InternalError end) in
  let* cs := with_lhs known middle in
  let* new_knowns := attempt_all lhs_key prev cs in
  declare_all rhs_key s new_knowns.

Fixpoint dfs_loop (fuel : nat) (known : list Comparison) (lhs_key rhs_key : nat) (s : Search)
    : result Search :=
  if decide (to_visit s = ∅) then Ok s
  else match fuel with
  | O => Err OutOfFuel
  | S fuel =>
      let* s := visit_key known lhs_key rhs_key s (begin_ fuel (to_visit s)) in
      dfs_loop fuel known lhs_key rhs_key s
  end.

Definition DFSFromLHS (fuel : nat) (known : list Comparison) (lhs_key rhs_key : nat)
    : result (list Comparison) :=
  let* seeds := with_lhs known lhs_key in
  let* s := declare_all rhs_key (MkSearch ∅ ∅) seeds in
  let* s := dfs_loop fuel known lhs_key rhs_key s in
  Ok (facts s rhs_key).

(** The comparisons found from the right, turned round. *)
Fixpoint turn_round (cs : list Comparison) (lhs : nat) : result (list Comparison) :=
  match cs with
  | [] => Ok []
  | c :: cs =>
      let* n := WithLHS c lhs in
      let* c := (match n with Some c => Ok c | None => Err InternalError end) in
      let* rest := turn_round cs lhs in
      Ok (c :: rest)
  end.

Definition CollectIndirectComparisons (fuel : nat) (known : list Comparison) (lhs rhs : nat)
    : result (list Comparison) :=
  let* out := DFSFromLHS fuel known lhs rhs in
  let* back := DFSFromLHS fuel known rhs lhs in
  let* back := turn_round back lhs in
  Ok (out ++ back).

(** One comparison's contribution in [MergeComparisons]. *)
Definition merge_one (offset : Z) (acc : CompareResult) (c : Comparison) : result CompareResult :=
  match result_ c with
  | kInconsistent => Ok kInconsistent
  | kEQ => Ok (cr_and acc (if offset =? offset_ c then kEQ else kNE))
  | kLE => Ok (if offset_ c <? offset then cr_and acc kLT
               else if offset_ c <=? offset then cr_and acc kLE else acc)
  | kGE => Ok (if offset_ c >? offset then cr_and acc kGT
               else if offset_ c >=? offset then cr_and acc kGE else acc)
  | kNE => Ok (if offset =? offset_ c then cr_and acc kNE else acc)
  | kUnknown => Ok acc
  | kGT | kLT => Err InternalError
  end.

Fixpoint merge_from (offset : Z) (acc : CompareResult) (cs : list Comparison) : result CompareResult :=
  match cs with
  | [] => Ok acc
  | c :: cs => let* acc := merge_one offset acc c in merge_from offset acc cs
  end.

Definition MergeComparisons (cs : list Comparison) (offset : Z) : result CompareResult :=
  merge_from offset kUnknown cs.

(** ** The interface *)

Definition is_int_scalar (e : expr) : bool :=
  match scalar_type e with Some d => IsInt d | None => false end.

Definition all_knowns (s : CmpState) : list Comparison := knowns s ++ scoped_knowns s.

(** [TryCompare] from [ExtractOffsets] on. *)
Definition compare_bases (fuel : nat) (s : CmpState) (propagate_inequalities : bool)
    (bases : option expr * option expr * Z) : result CompareResult :=
  let '(li, ri, offset) := bases in
  let same_base := match li, ri with Some a, Some b => same a b | _, _ => false end in
  if same_base : bool then
    Ok (if offset <? 0 then kGT else if offset >? 0 then kLT else kEQ)
  else match ExprToPreviousKey (key_exprs s) li, ExprToPreviousKey (key_exprs s) ri with
  | Some lk, Some rk =>
      let* cs := (if propagate_inequalities then CollectIndirectComparisons fuel (all_knowns s) lk rk
                  else CollectDirectComparisons (all_knowns s) lk rk) in
      MergeComparisons cs offset
  | _, _ => Ok kUnknown
  end.

Definition TryCompare (fuel : nat) (s : CmpState) (l r : expr) (propagate_inequalities : bool)
    : result CompareResult :=
  if negb (is_int_scalar l && is_int_scalar r) then Ok kUnknown
  else match as_int l, as_int r with
  | Some (a, _), Some (b, _) => Ok (if a <? b then kLT else if a >? b then kGT else kEQ)
  | _, _ => let* bases := ExtractOffsets l r in compare_bases fuel s propagate_inequalities bases
  end.

(** [AddKnown] into [knowns_]. *)
Definition add_known (s : CmpState) (e : expr) : result CmpState :=
  let* (keys, vec) := AddKnown (key_exprs s) e (knowns s) in
  Ok (MkCmpState keys vec (scoped_knowns s)).

Definition BindExpr (s : CmpState) (var e : expr) : result CmpState :=
  let* eq := MakeCompare KEq var e in add_known s eq.

Definition BindRange (s : CmpState) (var : expr) (min_val max_val_exclusive : Z) : result CmpState :=
  let* dtype := GetScalarDtype var in
  let* width := sub64 max_val_exclusive min_val in
  if width =? 1 then
    let* eq := MakeCompare KEq var (MakeConstInt min_val dtype) in add_known s eq
  else
    let* ge := MakeCompare KGe var (MakeConstInt min_val dtype) in
    let* s := add_known s ge in
    let* lt := MakeCompare KLt var (MakeConstInt max_val_exclusive dtype) in
    add_known s lt.

Definition Unbind (s : CmpState) (var : expr) : CmpState :=
  match ExprToPreviousKey (key_exprs s) (Some var) with
  | None => s
  | Some k =>
      MkCmpState (key_exprs s)
        (List.filter (fun c => negb ((lhs_ c =? k)%nat || (rhs_ c =? k)%nat)) (knowns s))
        (scoped_knowns s)
  end.

(** The state inside the scope, and the sizes the recovery restores and
    checks. *)
Definition EnterConstraint (s : CmpState) (constraint : expr) : result (CmpState * (nat * nat)) :=
  let* (keys, vec) := AddKnown (key_exprs s) constraint (scoped_knowns s) in
  Ok (MkCmpState keys (knowns s) vec, (length (scoped_knowns s), length vec)).

Definition Recover (s : CmpState) (sizes : nat * nat) : result CmpState :=
  let (old_size, new_size) := sizes in
  if (old_size =? new_size)%nat then Ok s
  else
    let* _ := require (length (scoped_knowns s) =? new_size)%nat InternalError in
    Ok (MkCmpState (key_exprs s) (knowns s) (take old_size (scoped_knowns s))).

End Analyzer.
