(* ===== verification/TransitiveSound.v ===== *)
(** * Transitive comparisons: answers and termination

    The known comparisons hold in the environment, after any sequence of
    operations that are told the truth; a query then ends, whatever the
    iteration order of the sets, and its answer is right.  Under contradictory
    constraints it does not end. *)

From Stdlib Require Import ZArith Lia Bool List.
From stdpp Require Import base gmap list option.
From S2P Require Import Prelude Dtype IntOps ScalarExpr ConstFold PatternMatch RewriteRules.
From S2P Require Import RewriteSound RewriteSimplify.
From S2P Require Import TransitiveCmp.

(** ** Outcomes

    Everything but the loop returns, with a postcondition, or overflows. *)
Definition outcome {A} (P : A -> Prop) (m : result A) : Prop :=
  match m with Ok a => P a | Err e => e = UndefinedBehaviour end.

Lemma outcome_bind {A B} (P : A -> Prop) (Q : B -> Prop) m k :
  outcome P m -> (forall a, P a -> outcome Q (k a)) -> outcome Q (bind m k).
Proof. destruct m; simpl; auto. Qed.

Lemma outcome_mono {A} (P Q : A -> Prop) m : outcome P m -> (forall a, P a -> Q a) -> outcome Q m.
Proof. destruct m; simpl; auto. Qed.

Lemma outcome_checked z : outcome (fun r => r = z) (checked z).
Proof. unfold checked. by destruct (in_int64 z). Qed.

Lemma outcome_ok {A} (P : A -> Prop) m a : outcome P m -> m = Ok a -> P a.
Proof. by intros H ->. Qed.

(** ** The search, under a valuation of the keys *)

Section Search.
Context (val : nat -> Z) (n : nat) (gaps : list Z).
Hypothesis gaps_opp : forall g, g ∈ gaps -> - g ∈ gaps.

Definition holds (c : Comparison) : Prop := claims (result_ c) (val (lhs_ c)) (val (rhs_ c) + offset_ c).

(** How far the offset is from the difference of the two sides. *)
Definition gap (c : Comparison) : Z := offset_ c - (val (lhs_ c) - val (rhs_ c)).

Definition proper (r : CompareResult) : bool :=
  match r with kEQ | kLE | kGE | kNE => true | _ => false end.

(** A closed comparison between the [n] known keys that holds; the distances of
    the disequalities come from a finite set. *)
Record true_cmp (c : Comparison) : Prop := {
  true_proper : proper (result_ c) = true;
  true_holds : holds c;
  true_lhs : (lhs_ c < n)%nat;
  true_rhs : (rhs_ c < n)%nat;
  true_gap : result_ c = kNE -> gap c ∈ gaps
}.

Lemma proper_normalized c : proper (result_ c) = true -> IsNormalized c = true.
Proof. unfold IsNormalized. by destruct (result_ c). Qed.

Lemma new_Comparison_proper l r o res :
  proper res = true -> new_Comparison l r o res = Ok (MkComparison l r o res).
Proof. by destruct res. Qed.

(** The constructor keeps the meaning of the comparison it normalises. *)
Lemma new_Comparison_holds l r o res :
  outcome (fun c => lhs_ c = l /\ rhs_ c = r /\
    (claims res (val l) (val r + o) -> holds c) /\
    (proper res || bool_decide (res = kLT) || bool_decide (res = kGT) = true ->
     proper (result_ c) = true))
    (new_Comparison l r o res).
Proof.
  destruct res; simpl; try (by split_and!);
    (eapply outcome_bind; [apply outcome_checked |]); intros ? ->; split_and!; try done;
    unfold holds; simpl; lia.
Qed.

Lemma WithLHS_true c k :
  true_cmp c -> outcome (fun o => forall d, o = Some d -> true_cmp d /\ lhs_ d = k) (WithLHS c k).
Proof.
  intros [Hp Hh Hl Hr Hg]. unfold WithLHS. destruct (k =? lhs_ c)%nat eqn:El.
  - apply Nat.eqb_eq in El as ->. intros d [= <-]. by split.
  - destruct (k =? rhs_ c)%nat eqn:Er; [|done]. apply Nat.eqb_eq in Er as ->.
    eapply outcome_bind; [apply outcome_checked |]. intros ? ->.
    rewrite new_Comparison_proper by (by destruct (result_ c)).
    intros d [= <-]. split; [|done]. unfold holds in Hh.
    split; simpl; try done; [by destruct (result_ c) | unfold holds; simpl .. |].
    + destruct (result_ c); simpl in *; lia.
    + intros Hne. assert (Hc : result_ c = kNE) by (by destruct (result_ c)).
      specialize (gaps_opp _ (Hg Hc)). unfold gap in *. simpl.
      by replace (- offset_ c - (val (rhs_ c) - val (lhs_ c))) with (- (offset_ c - (val (lhs_ c) - val (rhs_ c)))) by lia.
Qed.

Lemma with_lhs_true known k :
  Forall true_cmp known -> outcome (Forall (fun c => true_cmp c /\ lhs_ c = k)) (with_lhs known k).
Proof.
  induction 1 as [|c known Hc _ IH]; cbn [with_lhs]; [by constructor |].
  eapply outcome_bind; [by apply WithLHS_true |]. intros o Ho.
  eapply outcome_bind; [exact IH |]. intros rest Hr. destruct o; simpl; [|done].
  constructor; auto.
Qed.

Lemma combine_proper p c r : combine_results p c = Some r ->
  proper p = true -> proper c = true -> proper r = true.
Proof. destruct p, c; intros [= <-]; done. Qed.

Lemma chain_with_true L prev cmp :
  (L < n)%nat -> Forall (fun p => true_cmp p /\ lhs_ p = L /\ rhs_ p = lhs_ cmp) prev -> true_cmp cmp ->
  outcome (Forall (fun c => true_cmp c /\ lhs_ c = L)) (chain_with L prev cmp).
Proof.
  intros HL Hprev [Cp Ch _ Cr Cg]. induction Hprev as [|p prev ([Pp Ph _ Pr Pg] & El & Er) _ IH];
    cbn [chain_with]; [by constructor |].
  eapply outcome_bind; [apply outcome_checked |]. intros o ->.
  eapply (outcome_bind (Forall (fun c => true_cmp c /\ lhs_ c = L))).
  2: { intros c Hc. eapply outcome_bind; [exact IH |]. intros rest Hr. by apply Forall_app. }
  destruct (combine_results (result_ p) (result_ cmp)) as [r|] eqn:E; [|by constructor].
  pose proof (combine_proper _ _ _ E Pp Cp) as Hr. rewrite new_Comparison_proper by done.
  constructor; [|by constructor]. split; [|done].
  unfold holds, gap in *. rewrite El, Er in *. split; simpl; try done.
  - unfold holds. simpl. destruct (result_ p), (result_ cmp); try discriminate;
      injection E as <-; simpl in *; lia.
  - intros ->. unfold gap. simpl.
    destruct (result_ p) eqn:Rp, (result_ cmp) eqn:Rc; try discriminate; simpl in *;
      [specialize (Cg eq_refl) | specialize (Pg eq_refl)];
      (match goal with H : ?x ∈ _ |- ?y ∈ _ => replace y with x by lia; done end).
Qed.

Lemma attempt_all_true L prev cs middle :
  (L < n)%nat -> Forall (fun p => true_cmp p /\ lhs_ p = L /\ rhs_ p = middle) prev ->
  Forall (fun c => true_cmp c /\ lhs_ c = middle) cs ->
  outcome (Forall (fun c => true_cmp c /\ lhs_ c = L)) (attempt_all L prev cs).
Proof.
  intros HL Hprev. induction 1 as [|c cs [Hc El] _ IH]; cbn [attempt_all]; [by constructor |].
  eapply (outcome_bind (Forall (fun c => true_cmp c /\ lhs_ c = L))).
  - unfold attempt_transitive. rewrite (proper_normalized _ (true_proper _ Hc)). cbn [require bind].
    destruct (rhs_ c =? L)%nat; [by constructor |]. apply chain_with_true; [done | by rewrite El | done].
  - intros new Hn. eapply outcome_bind; [exact IH |]. intros rest Hr. by apply Forall_app.
Qed.

(** *** Facts about one key *)

(** The facts [F] relate [L] and [k]. *)
Definition facts_ok (L k : nat) (F : list Comparison) : Prop :=
  Forall (fun c => true_cmp c /\ lhs_ c = L /\ rhs_ c = k) F.

Definition implied_by (F : list Comparison) (c : Comparison) : bool := existsb (fun p => implies p c) F.

Lemma facts_ok_in L k F p : facts_ok L k F -> p ∈ F -> true_cmp p /\ lhs_ p = L /\ rhs_ p = k.
Proof. unfold facts_ok. rewrite List.Forall_forall. intros HF Hp%list_elem_of_In. by apply HF. Qed.

(** [F'] is [F] with the news [c]. *)
Record improves (F : list Comparison) (c : Comparison) (F' : list Comparison) : Prop := {
  news : implied_by F c = false;
  news_in : c ∈ F';
  only_news p : p ∈ F' -> p ∈ F \/ p = c;
  kept p : p ∈ F -> p ∈ F' \/ implies c p = true
}.

Lemma Implies_ok L k p c :
  true_cmp p /\ lhs_ p = L /\ rhs_ p = k -> true_cmp c /\ lhs_ c = L /\ rhs_ c = k ->
  Implies p c = Ok (implies p c).
Proof.
  intros ([Pp] & El & Er) ([Pc] & El' & Er'). unfold Implies. rewrite El, El', Er, Er'.
  by rewrite !Nat.eqb_refl, !proper_normalized.
Qed.

Lemma any_implies_ok L k F c :
  facts_ok L k F -> true_cmp c /\ lhs_ c = L /\ rhs_ c = k -> any_implies F c = Ok (implied_by F c).
Proof.
  intros HF Hc. induction HF as [|p F Hp _ IH]; [done |]. cbn [any_implies].
  rewrite (Implies_ok L k) by done. cbn [bind implied_by existsb]. by destruct (implies p c).
Qed.

Lemma replace_weaker_ok L k F c :
  facts_ok L k F -> true_cmp c /\ lhs_ c = L /\ rhs_ c = k ->
  exists o, replace_weaker F c = Ok o /\ forall F', o = Some F' ->
    c ∈ F' /\ (forall p, p ∈ F' -> p ∈ F \/ p = c) /\ (forall p, p ∈ F -> p ∈ F' \/ implies c p = true).
Proof.
  intros HF Hc. induction HF as [|p F Hp _ (o & Eo & IH)]; [by exists None |]. cbn [replace_weaker].
  rewrite (Implies_ok L k) by done. cbn [bind]. destruct (implies c p) eqn:Ei.
  - eexists. split; [done |]. intros F' [= <-]. split_and!; [set_solver | set_solver |].
    intros q. rewrite !elem_of_cons. intros [->|]; auto.
  - rewrite Eo. cbn [bind]. eexists. split; [done |]. intros F' HF'.
    destruct o as [F0|]; [|done]. injection HF' as <-. destruct (IH F0 eq_refl) as (H1 & H2 & H3).
    split_and!; [set_solver | |]; intros q; rewrite !elem_of_cons; intros [->|Hq]; auto.
    + destruct (H2 q Hq); auto.
    + destruct (H3 q Hq); auto.
Qed.

Record search_ok (L : nat) (s : Search) : Prop := {
  all_facts k : facts_ok L k (facts s k);
  to_visit_in : to_visit s ⊆ dom (compared_to_lhs s)
}.

Lemma facts_insert s t k F k' :
  facts (MkSearch t (<[k := F]> (compared_to_lhs s))) k' = if decide (k' = k) then F else facts s k'.
Proof.
  unfold facts. simpl. destruct (decide (k' = k)) as [->|Hk].
  - by rewrite lookup_insert_eq.
  - by rewrite lookup_insert_ne by done.
Qed.

(** What declaring a comparison does: nothing, or news about its right side. *)
Lemma declare_known_ok L K s c :
  search_ok L s -> true_cmp c -> lhs_ c = L ->
  exists s', declare_known K s c = Ok s' /\ search_ok L s' /\
    (forall k, k <> rhs_ c -> facts s' k = facts s k) /\
    ((to_visit s' = to_visit s /\ facts s' (rhs_ c) = facts s (rhs_ c)) \/
     improves (facts s (rhs_ c)) c (facts s' (rhs_ c))).
Proof.
  intros [Hf Hv] Hc El. pose proof (Hf (rhs_ c)) as HF.
  assert (Hcc : true_cmp c /\ lhs_ c = L /\ rhs_ c = rhs_ c) by done.
  unfold declare_known. rewrite (any_implies_ok L (rhs_ c)) by done. cbn [bind].
  destruct (implied_by (facts s (rhs_ c)) c) eqn:Ei.
  - eexists. split; [done |]. split; [split | split; [| left]]; [| set_solver | |].
    + intros k. rewrite facts_insert. case_decide; [by subst | done].
    + intros k Hk. rewrite facts_insert. by rewrite decide_False.
    + split; [done |]. rewrite facts_insert. by rewrite decide_True.
  - destruct (replace_weaker_ok L (rhs_ c) _ c HF Hcc) as (o & -> & Ho). cbn [bind].
    assert (Hi : improves (facts s (rhs_ c)) c (match o with Some l => l | None => facts s (rhs_ c) ++ [c] end)).
    { destruct o as [F'|]; [destruct (Ho F' eq_refl) as (H1 & H2 & H3); by split |].
      split; [done | set_solver | set_solver |]. intros p Hp. left. set_solver. }
    set (F' := match o with Some _ => _ | None => _ end) in *. clearbody F'.
    eexists. split; [done |]. split; [split | split; [|right]].
    + intros k. rewrite facts_insert. case_decide; [subst k | done].
      apply List.Forall_forall. intros p Hp%list_elem_of_In.
      pose proof (facts_ok_in _ _ _ p HF) as HFp.
      destruct (only_news _ _ _ Hi p Hp) as [Hq | ->]; auto.
    + simpl. rewrite dom_insert_L. destruct (rhs_ c =? K)%nat; set_solver.
    + intros k Hk. rewrite facts_insert. by rewrite decide_False.
    + rewrite facts_insert. by rewrite decide_True.
Qed.

(** *** How far the facts about a key are from the best possible ones *)

(** A comparison that bounds the left side from above ([up]) or from below, and
    by how much more than needed. *)
Definition bounds_side (up : bool) (r : CompareResult) : bool :=
  match r with kEQ => true | kLE => up | kGE => negb up | _ => false end.

Definition slack (up : bool) (c : Comparison) : nat := Z.to_nat (if up then gap c else - gap c).

Fixpoint level (up : bool) (F : list Comparison) : option nat :=
  match F with
  | [] => None
  | p :: F =>
      if bounds_side up (result_ p)
      then Some (match level up F with Some m => Nat.min (slack up p) m | None => slack up p end)
      else level up F
  end.

Definition has_eq (F : list Comparison) : bool := existsb (fun p => bool_decide (result_ p = kEQ)) F.

(** Whether a fact excludes the left side from being at distance [g]. *)
Definition excludes (p : Comparison) (g : Z) : bool :=
  match result_ p with
  | kNE => gap p =? g | kEQ => negb (gap p =? g)
  | kLE => gap p <? g | kGE => g <? gap p | _ => false
  end.

Definition excluded (F : list Comparison) (g : Z) : bool := existsb (fun p => excludes p g) F.

Definition flag (b : bool) : nat := if b then 0%nat else 1%nat.
Definition open_gaps (F : list Comparison) : nat := length (List.filter (fun g => negb (excluded F g)) gaps).
Definition missing (F : list Comparison) : nat :=
  (flag (bool_decide (is_Some (level true F))) + flag (bool_decide (is_Some (level false F))) +
   flag (has_eq F) + open_gaps F)%nat.
Definition slacks (F : list Comparison) : nat :=
  (default 0 (level true F) + default 0 (level false F))%nat.

Lemma level_le up F p :
  p ∈ F -> bounds_side up (result_ p) = true -> exists m, level up F = Some m /\ (m <= slack up p)%nat.
Proof.
  induction F as [|q F IH]; [set_solver |]. rewrite elem_of_cons. cbn [level]. intros [->|Hp] Hb.
  - rewrite Hb. destruct (level up F); eexists; (split; [done | lia]).
  - destruct (IH Hp Hb) as (m & -> & Hm). destruct (bounds_side up (result_ q));
      eexists; (split; [done | lia]).
Qed.

Lemma level_in up F m :
  level up F = Some m -> exists p, p ∈ F /\ bounds_side up (result_ p) = true /\ slack up p = m.
Proof.
  revert m. induction F as [|q F IH]; [done |]. cbn [level]. intros m.
  assert (Hr : forall m', level up F = Some m' ->
    exists p, p ∈ q :: F /\ bounds_side up (result_ p) = true /\ slack up p = m').
  { intros m' (p & Hp & H1)%IH. exists p. split; [set_solver | done]. }
  destruct (bounds_side up (result_ q)) eqn:Eb; [|apply Hr].
  destruct (level up F) as [m'|]; intros [= <-].
  - destruct (Nat.min_dec (slack up q) m') as [-> | ->]; [exists q; split; [set_solver | done] | by apply Hr].
  - exists q. split; [set_solver | done].
Qed.

Lemma existsb_elem {A} (f : A -> bool) l : existsb f l = true <-> exists x, x ∈ l /\ f x = true.
Proof. rewrite existsb_exists. by setoid_rewrite list_elem_of_In. Qed.

(** The facts about one pair of keys, through their gaps. *)
Lemma gap_cases c : true_cmp c ->
  (result_ c = kEQ /\ gap c = 0) \/ (result_ c = kLE /\ 0 <= gap c) \/
  (result_ c = kGE /\ gap c <= 0) \/ (result_ c = kNE /\ gap c <> 0).
Proof.
  intros [Hp Hh _ _ _]. unfold holds, gap in *. destruct (result_ c); try done; simpl in Hh;
    [left | right; left | right; right; left | right; right; right]; (split; [done | lia]).
Qed.

Lemma same_result a b : bool_decide (a = b) = (cr_bits a =? cr_bits b).
Proof. destruct a, b; reflexivity. Qed.

(** [implies] between true facts about one pair of keys. *)
Definition implies_spec (p c : Comparison) : Prop :=
  match result_ c with
  | kEQ => result_ p = kEQ
  | kLE => bounds_side true (result_ p) = true /\ gap p <= gap c
  | kGE => bounds_side false (result_ p) = true /\ gap c <= gap p
  | kNE => excludes p (gap c) = true
  | _ => False
  end.

Lemma implies_iff L k p c :
  true_cmp p /\ lhs_ p = L /\ rhs_ p = k -> true_cmp c /\ lhs_ c = L /\ rhs_ c = k ->
  implies p c = true <-> implies_spec p c.
Proof.
  intros (Tp & Lp & Rp) (Tc & Lc & Rc).
  assert (Hd : offset_ c - offset_ p = gap c - gap p) by (unfold gap; rewrite Lp, Lc, Rp, Rc; lia).
  unfold implies, implies_spec, excludes.
  destruct (gap_cases p Tp) as [[-> ?]|[[-> ?]|[[-> ?]|[-> ?]]]];
    destruct (gap_cases c Tc) as [[-> ?]|[[-> ?]|[[-> ?]|[-> ?]]]];
    rewrite !same_result; cbn;
    rewrite ?Z.geb_leb, ?Z.gtb_ltb, ?andb_true_r, ?andb_false_r, ?orb_false_r;
    destruct (Z.eqb_spec (offset_ p) (offset_ c)); destruct (Z.leb_spec (offset_ p) (offset_ c));
    destruct (Z.leb_spec (offset_ c) (offset_ p)); try lia; cbn;
    destruct (Z.ltb_spec (offset_ p) (offset_ c)); destruct (Z.ltb_spec (offset_ c) (offset_ p)); try lia;
    cbn; rewrite ?negb_true_iff, ?Z.eqb_eq, ?Z.eqb_neq, ?Z.ltb_lt; (split; intros; try done; lia).
Qed.

(** Everything known stays known. *)
Definition refines (F F' : list Comparison) : Prop :=
  (forall up m, level up F = Some m -> exists m', level up F' = Some m' /\ (m' <= m)%nat) /\
  (has_eq F = true -> has_eq F' = true) /\
  (forall g, excluded F g = true -> excluded F' g = true).

Lemma implies_spec_refines p c :
  true_cmp p -> true_cmp c -> implies_spec c p ->
  (forall up, bounds_side up (result_ p) = true ->
    bounds_side up (result_ c) = true /\ (slack up c <= slack up p)%nat) /\
  (result_ p = kEQ -> result_ c = kEQ) /\
  (forall g, excludes p g = true -> excludes c g = true).
Proof.
  intros Tp Tc. unfold implies_spec, excludes, slack.
  destruct (gap_cases p Tp) as [[-> ?]|[[-> ?]|[[-> ?]|[-> ?]]]];
    destruct (gap_cases c Tc) as [[-> ?]|[[-> ?]|[[-> ?]|[-> ?]]]]; cbn; intros Hi; try done;
    try match goal with H : _ /\ _ |- _ => destruct H as [Hb Hi] end; try discriminate; bool_to_prop;
    (split; [intros []; try done; intros _; (split; [done | lia]) | split; [done |]]);
    intros g Hg; rewrite ?negb_true_iff, ?Z.eqb_eq, ?Z.eqb_neq, ?Z.ltb_lt in *; lia.
Qed.

Lemma improves_refines L k F c F' :
  facts_ok L k F -> facts_ok L k F' -> improves F c F' -> refines F F'.
Proof.
  intros HF HF' Hi.
  assert (Hk : forall p, p ∈ F -> exists q, q ∈ F' /\
    (forall up, bounds_side up (result_ p) = true ->
      bounds_side up (result_ q) = true /\ (slack up q <= slack up p)%nat) /\
    (result_ p = kEQ -> result_ q = kEQ) /\ (forall g, excludes p g = true -> excludes q g = true)).
  { intros p Hp. destruct (kept _ _ _ Hi p Hp) as [H|Himp]; [exists p; by auto |].
    exists c. split; [apply Hi |].
    pose proof (facts_ok_in _ _ _ p HF Hp) as Tp.
    pose proof (facts_ok_in _ _ _ c HF' (news_in _ _ _ Hi)) as Tc.
    apply implies_spec_refines; [apply Tp | apply Tc |]. by apply (implies_iff L k). }
  unfold refines, has_eq, excluded. split; [|split].
  - intros up m (p & Hp & Hb & <-)%level_in. destruct (Hk p Hp) as (q & Hq & Hs & _).
    destruct (Hs up Hb) as [Hb' Hle]. destruct (level_le up F' q Hq Hb') as (m' & Hm' & Hle').
    exists m'. split; [done | lia].
  - rewrite !existsb_elem. intros (p & Hp & He%bool_decide_eq_true). destruct (Hk p Hp) as (q & Hq & _ & Hs & _).
    exists q. split; [done |]. apply bool_decide_eq_true. auto.
  - intros g. rewrite !existsb_elem. intros (p & Hp & He). destruct (Hk p Hp) as (q & Hq & _ & _ & Hs).
    exists q. auto.
Qed.

Lemma filter_le {A} (f g : A -> bool) l :
  (forall x, f x = true -> g x = true) ->
  (length (List.filter f l) <= length (List.filter g l))%nat /\
  forall x, x ∈ l -> f x = false -> g x = true -> (length (List.filter f l) < length (List.filter g l))%nat.
Proof.
  intros Hfg. induction l as [|y l [IH1 IH2]]; [split; [done | set_solver] |]. cbn [List.filter].
  destruct (f y) eqn:Ef.
  - rewrite (Hfg y Ef). simpl. split; [lia |]. intros x [->|Hx]%elem_of_cons Hf Hg; [congruence |].
    specialize (IH2 x Hx Hf Hg). lia.
  - split; [destruct (g y); simpl; lia |]. intros x [->|Hx]%elem_of_cons Hf Hg.
    + rewrite Hg. simpl. lia.
    + specialize (IH2 x Hx Hf Hg). destruct (g y); simpl; lia.
Qed.

Lemma open_gaps_le F F' :
  refines F F' -> (open_gaps F' <= open_gaps F)%nat /\
  forall g, g ∈ gaps -> excluded F g = false -> excluded F' g = true -> (open_gaps F' < open_gaps F)%nat.
Proof.
  intros (_ & _ & He).
  destruct (filter_le (fun g => negb (excluded F' g)) (fun g => negb (excluded F g)) gaps) as [H1 H2].
  { intros g. rewrite !negb_true_iff. specialize (He g). destruct (excluded F g); [by rewrite He | done]. }
  split; [exact H1 |]. intros g Hg Hf Hf'. apply (H2 g); [done | by rewrite Hf' | by rewrite Hf].
Qed.

(** A level that is reached, with what remains of it, is not lost. *)
Lemma refines_level F F' up :
  refines F F' ->
  (flag (bool_decide (is_Some (level up F'))) <= flag (bool_decide (is_Some (level up F))))%nat /\
  (flag (bool_decide (is_Some (level up F'))) = flag (bool_decide (is_Some (level up F))) ->
   default 0%nat (level up F') <= default 0%nat (level up F))%nat.
Proof.
  intros (Hl & _ & _). specialize (Hl up). destruct (level up F) as [m|].
  - destruct (Hl m eq_refl) as (m' & -> & Hm). rewrite !bool_decide_eq_true_2 by eauto. simpl. lia.
  - destruct (level up F'); simpl; [|done]. split; [lia | done].
Qed.

(** News about a key: a step down, lexicographically. *)
Lemma improves_decreases L k F c F' :
  facts_ok L k F -> facts_ok L k F' -> improves F c F' ->
  (missing F' < missing F)%nat \/ (missing F' = missing F /\ slacks F' < slacks F)%nat.
Proof.
  intros HF HF' Hi. pose proof (improves_refines L k F c F' HF HF' Hi) as Hr.
  destruct (refines_level F F' true Hr) as [U1 U2], (refines_level F F' false Hr) as [D1 D2].
  destruct (open_gaps_le F F' Hr) as [G1 G2].
  assert (E1 : (flag (has_eq F') <= flag (has_eq F))%nat).
  { destruct Hr as (_ & He & _). destruct (has_eq F); [by rewrite He | destruct (has_eq F'); simpl; lia]. }
  pose proof (facts_ok_in _ _ _ c HF' (news_in _ _ _ Hi)) as Tc.
  assert (Hnew : forall p, p ∈ F -> ~ implies_spec p c).
  { intros p Hp Hs. pose proof (news _ _ _ Hi) as Hn. apply not_true_iff_false in Hn. apply Hn.
    apply existsb_elem. exists p. split; [done |]. apply (implies_iff L k); [by apply (facts_ok_in L k F) | done | done]. }
  unfold missing, slacks. unfold implies_spec in Hnew.
  assert (Hside : forall up, bounds_side up (result_ c) = true -> result_ c <> kEQ ->
    level up F = None /\ level up F' <> None \/
    (default 0%nat (level up F') < default 0%nat (level up F))%nat).
  { intros up Hb Hne. destruct (level_le up F' c (news_in _ _ _ Hi) Hb) as (m' & E' & Hm').
    rewrite E'. destruct (level up F) as [m|] eqn:E; [right | by left]. simpl.
    destruct (level_in up F m E) as (p & Hp & Hbp & <-).
    assert (~ (slack up p <= slack up c)%nat); [|lia]. intros Hle. apply (Hnew p Hp). unfold slack in *.
    destruct (gap_cases c (proj1 Tc)) as [[Ec ?]|[[Ec ?]|[[Ec ?]|[Ec ?]]]]; rewrite Ec in *; try done;
      destruct up; try done; (split; [done |]);
      destruct (gap_cases p (proj1 (facts_ok_in L k F p HF Hp))) as [[? ?]|[[Ep ?]|[[Ep ?]|[Ep ?]]]];
      try (rewrite Ep in Hbp; done); lia. }
  destruct (gap_cases c (proj1 Tc)) as [[Ec Gc]|[[Ec Gc]|[[Ec Gc]|[Ec Gc]]]]; rewrite Ec in *.
  - left. assert (has_eq F = false).
    { apply not_true_iff_false. intros (p & Hp & Hq%bool_decide_eq_true)%existsb_elem. by apply (Hnew p). }
    assert (has_eq F' = true).
    { apply existsb_elem. exists c. split; [apply Hi | by apply bool_decide_eq_true]. }
    rewrite H, H0 in *. simpl in *. lia.
  - destruct (Hside true eq_refl ltac:(done)) as [[E E']|Hlt].
    + left. rewrite E in *. destruct (level true F'); [|done]. simpl in *. lia.
    + lia.
  - destruct (Hside false eq_refl ltac:(done)) as [[E E']|Hlt].
    + left. rewrite E in *. destruct (level false F'); [|done]. simpl in *. lia.
    + lia.
  - left. assert (excluded F (gap c) = false).
    { apply not_true_iff_false. intros (p & Hp & Hq)%existsb_elem. by apply (Hnew p). }
    assert (excluded F' (gap c) = true).
    { apply existsb_elem. exists c. split; [apply Hi |]. unfold excludes. rewrite Ec. lia. }
    specialize (G2 (gap c) (true_gap _ (proj1 Tc) Ec) H H0). lia.
Qed.

(** *** The search as a whole *)

Definition total (f : list Comparison -> nat) (s : Search) : nat :=
  list_sum (map (fun k => f (facts s k)) (seq 0 n)).

(** Progress: the measure of the facts goes down. *)
Definition progress (s s' : Search) : Prop :=
  (total missing s' < total missing s)%nat \/
  (total missing s' = total missing s /\ (total slacks s' < total slacks s)%nat).

Definition unchanged (s s' : Search) : Prop :=
  to_visit s' = to_visit s /\ forall k, facts s' k = facts s k.

Lemma list_sum_at (f g : nat -> nat) l k :
  k ∈ l -> (forall i, i <> k -> f i = g i) ->
  exists rest m, (0 < m)%nat /\ list_sum (map f l) = (rest + m * f k)%nat /\
    list_sum (map g l) = (rest + m * g k)%nat.
Proof.
  intros Hk Heq.
  assert (Hl : exists rest m, list_sum (map f l) = (rest + m * f k)%nat /\
    list_sum (map g l) = (rest + m * g k)%nat /\ (k ∈ l -> (0 < m)%nat)).
  { clear Hk. induction l as [|i l (rest & m & E & E' & Hm)].
    - exists 0%nat, 0%nat. split_and!; [done | done |]. by intros ?%not_elem_of_nil.
    - change (list_sum (map f (i :: l))) with (f i + list_sum (map f l))%nat.
      change (list_sum (map g (i :: l))) with (g i + list_sum (map g l))%nat. rewrite E, E'.
      destruct (decide (i = k)) as [->|Hi].
      + exists rest, (S m). split_and!; [lia | lia | lia].
      + exists (rest + f i)%nat, m. rewrite (Heq i Hi). split_and!; [lia | lia |].
        intros [|Hin]%elem_of_cons; [by subst | auto]. }
  destruct Hl as (rest & m & E & E' & Hm). exists rest, m. auto.
Qed.

Lemma declare_known_steps L K s c :
  search_ok L s -> true_cmp c -> lhs_ c = L ->
  exists s', declare_known K s c = Ok s' /\ search_ok L s' /\ (unchanged s s' \/ progress s s').
Proof.
  intros Hs Hc El. destruct (declare_known_ok L K s c Hs Hc El) as (s' & E & Hs' & Hne & Hcase).
  exists s'. split; [done |]. split; [done |]. destruct Hcase as [[Ht He]|Hi]; [left | right].
  - split; [done |]. intros k. destruct (decide (k = rhs_ c)) as [->|]; auto.
  - assert (Hin : rhs_ c ∈ seq 0 n) by (apply elem_of_seq; pose proof (true_rhs _ Hc); lia).
    destruct (list_sum_at (fun k => missing (facts s' k)) (fun k => missing (facts s k)) (seq 0 n) (rhs_ c) Hin)
      as (r1 & m1 & Hm1 & E1 & E1'); [intros i Hi'; cbn beta; by rewrite Hne |].
    destruct (list_sum_at (fun k => slacks (facts s' k)) (fun k => slacks (facts s k)) (seq 0 n) (rhs_ c) Hin)
      as (r2 & m2 & Hm2 & E2 & E2'); [intros i Hi'; cbn beta; by rewrite Hne |].
    unfold progress, total. rewrite E1, E1', E2, E2'.
    destruct (improves_decreases L (rhs_ c) _ c _ (all_facts _ _ Hs _) (all_facts _ _ Hs' _) Hi) as [?|[-> ?]];
      [left; nia | right; split; [done | nia]].
Qed.

Lemma unchanged_trans s1 s2 s3 : unchanged s1 s2 -> unchanged s2 s3 -> unchanged s1 s3.
Proof. intros [T1 F1] [T2 F2]. split; [congruence |]. intros k. by rewrite F2. Qed.

Lemma unchanged_total f s1 s2 : unchanged s1 s2 -> total f s2 = total f s1.
Proof. intros [_ HF]. unfold total. f_equal. apply map_ext. intros k. by rewrite HF. Qed.

Lemma steps_trans s1 s2 s3 :
  unchanged s1 s2 \/ progress s1 s2 -> unchanged s2 s3 \/ progress s2 s3 -> unchanged s1 s3 \/ progress s1 s3.
Proof.
  intros [H1|H1] [H2|H2]; [left; by apply (unchanged_trans _ s2) | right ..]; unfold progress in *;
    try (apply (unchanged_total missing) in H1 as ?; apply (unchanged_total slacks) in H1 as ?);
    try (apply (unchanged_total missing) in H2 as ?; apply (unchanged_total slacks) in H2 as ?); lia.
Qed.

Lemma declare_all_steps L K cs s :
  search_ok L s -> Forall (fun c => true_cmp c /\ lhs_ c = L) cs ->
  exists s', declare_all K s cs = Ok s' /\ search_ok L s' /\ (unchanged s s' \/ progress s s').
Proof.
  intros Hs Hcs. revert s Hs. induction Hcs as [|c cs [Hc El] _ IH]; intros s Hs; cbn [declare_all].
  - exists s. split; [done |]. split; [done |]. by left.
  - destruct (declare_known_steps L K s c Hs Hc El) as (s1 & -> & Hs1 & St1). cbn [bind].
    destruct (IH s1 Hs1) as (s2 & -> & Hs2 & St2). exists s2. split; [done |]. split; [done |].
    by apply (steps_trans _ s1).
Qed.

(** One turn: the visited key is done with, unless there was progress. *)
Lemma visit_key_steps known L K s middle :
  Forall true_cmp known -> (L < n)%nat -> search_ok L s -> middle ∈ to_visit s ->
  outcome (fun s' => search_ok L s' /\
    (progress s s' \/ (to_visit s' = to_visit s ∖ {[middle]} /\ forall k, facts s' k = facts s k)))
    (visit_key known L K s middle).
Proof.
  intros Hk HL Hs Hm. unfold visit_key. cbn [compared_to_lhs].
  assert (is_Some (compared_to_lhs s !! middle)) as [prev Ep]
    by (apply elem_of_dom; by apply (to_visit_in _ _ Hs)).
  rewrite Ep. cbn [bind].
  assert (Hprev : Forall (fun p => true_cmp p /\ lhs_ p = L /\ rhs_ p = middle) prev).
  { pose proof (all_facts _ _ Hs middle) as HF. unfold facts_ok, facts in HF. by rewrite Ep in HF. }
  eapply outcome_bind; [by apply with_lhs_true |]. intros cs Hcs.
  eapply outcome_bind; [by apply (attempt_all_true L prev cs middle) |]. intros new Hnew.
  set (s1 := MkSearch (to_visit s ∖ {[middle]}) (compared_to_lhs s)).
  assert (Hs1 : search_ok L s1).
  { split; [intros k; apply (all_facts _ _ Hs) |]. pose proof (to_visit_in _ _ Hs). simpl. set_solver. }
  destruct (declare_all_steps L K new s1 Hs1 Hnew) as (s' & -> & Hs' & Hst). split; [done |].
  destruct Hst as [[Ht HF]|Hp]; [right | left]; done.
Qed.

(** With finitely many next states, one fuel is enough for all of them. *)
Lemma uniform_fuel {A} (P : A -> nat -> Prop) (l : list A) :
  (forall x, x ∈ l -> exists f0, forall f, (f0 <= f)%nat -> P x f) ->
  exists f0, forall x f, x ∈ l -> (f0 <= f)%nat -> P x f.
Proof.
  induction l as [|x l IH]; intros Hx; [exists 0%nat; by intros ? ? ?%not_elem_of_nil |].
  destruct (Hx x) as [f1 H1]; [set_solver |]. destruct IH as [f2 H2]; [intros; apply Hx; set_solver |].
  exists (Nat.max f1 f2). intros y f [->|Hy]%elem_of_cons Hf; [apply H1; lia | apply H2; [done | lia]].
Qed.

Context `{SetOrder}.

Lemma dfs_loop_inv known L K fuel s s' :
  Forall true_cmp known -> (L < n)%nat -> search_ok L s ->
  dfs_loop fuel known L K s = Ok s' -> search_ok L s'.
Proof.
  intros Hk HL. revert s. induction fuel as [|fuel IH]; intros s Hs; cbn [dfs_loop];
    (destruct (decide (to_visit s = ∅)) as [|Hne]; [by intros [= <-] |]); [done |].
  intros (s1 & Hv & Hl)%bind_ok. apply (IH s1); [|done].
  eapply outcome_ok in Hv; [|by apply visit_key_steps, begin_in]. apply Hv.
Qed.

(** The loop ends: lexicographic descent on the missing facts, the slacks and
    the keys still to visit. *)
Lemma dfs_loop_ends known L K s :
  Forall true_cmp known -> (L < n)%nat -> search_ok L s ->
  exists f0, forall f, (f0 <= f)%nat -> outcome (fun _ => True) (dfs_loop f known L K s).
Proof.
  intros Hk HL. remember (total missing s) as a eqn:Ea. revert s Ea.
  induction (lt_wf a) as [a _ IHa]. intros s Ea. remember (total slacks s) as b eqn:Eb. revert s Ea Eb.
  induction (lt_wf b) as [b _ IHb]. intros s Ea Eb. remember (size (to_visit s)) as c eqn:Ec. revert s Ea Eb Ec.
  induction (lt_wf c) as [c _ IHc]. intros s -> -> -> Hs.
  destruct (uniform_fuel (fun m f => outcome (fun _ => True)
      (let* s' := visit_key known L K s m in dfs_loop f known L K s')) (elements (to_visit s))) as [f0 Hf].
  { intros m Hm%elem_of_elements. pose proof (visit_key_steps known L K s m Hk HL Hs Hm) as Hv.
    destruct (visit_key known L K s m) as [s'|e]; [|by exists 0%nat]. cbn [bind]. destruct Hv as [Hs' Hp].
    destruct Hp as [[Hp|[Hp Hp']]|[Ht HF]].
    - by apply (IHa _ Hp s').
    - by apply (IHb _ Hp' s').
    - assert (Hu : forall f, total f s' = total f s) by (intros f; unfold total; f_equal; apply map_ext; intros k; by rewrite HF).
      apply (IHc (size (to_visit s'))); try done; rewrite ?Hu; try done. rewrite Ht.
      apply subset_size. set_solver. }
  exists (S f0). intros [|f] Hle; [lia |]. cbn [dfs_loop].
  destruct (decide (to_visit s = ∅)) as [|Hne]; [done |].
  apply Hf; [by apply elem_of_elements, begin_in | lia].
Qed.

Definition between (L K : nat) (c : Comparison) : Prop := true_cmp c /\ lhs_ c = L /\ rhs_ c = K.

Lemma search_start known L K :
  Forall true_cmp known ->
  outcome (search_ok L) (let* seeds := with_lhs known L in declare_all K (MkSearch ∅ ∅) seeds).
Proof.
  intros Hk. eapply outcome_bind; [by apply with_lhs_true |]. intros seeds Hs.
  destruct (declare_all_steps L K seeds (MkSearch ∅ ∅)) as (s & -> & Hok & _); [|done | done].
  split; [intros k; unfold facts; simpl; by constructor | done].
Qed.

Lemma DFSFromLHS_alt fuel known L K :
  DFSFromLHS fuel known L K =
    (let* s := (let* seeds := with_lhs known L in declare_all K (MkSearch ∅ ∅) seeds) in
     let* s := dfs_loop fuel known L K s in Ok (facts s K)).
Proof. unfold DFSFromLHS. by destruct (with_lhs known L). Qed.

Lemma DFSFromLHS_sound fuel known L K cs :
  Forall true_cmp known -> (L < n)%nat -> DFSFromLHS fuel known L K = Ok cs -> Forall (between L K) cs.
Proof.
  intros Hk HL. rewrite DFSFromLHS_alt. intros (s & Hs & (s' & Hl & [= <-])%bind_ok)%bind_ok.
  eapply outcome_ok in Hs; [|by apply search_start].
  apply (all_facts L), (dfs_loop_inv known L K fuel s); done.
Qed.

Lemma DFSFromLHS_ends known L K :
  Forall true_cmp known -> (L < n)%nat ->
  exists f0, forall f, (f0 <= f)%nat -> outcome (fun _ => True) (DFSFromLHS f known L K).
Proof.
  intros Hk HL. setoid_rewrite DFSFromLHS_alt. pose proof (search_start known L K Hk) as Hs.
  destruct (let* seeds := with_lhs known L in declare_all K (MkSearch ∅ ∅) seeds) as [s|e]; [|by exists 0%nat].
  destruct (dfs_loop_ends known L K s Hk HL Hs) as [f0 Hf]. exists f0. intros f Hle. cbn [bind].
  eapply outcome_bind; [by apply Hf | done].
Qed.

Lemma turn_round_true L K cs :
  Forall (between K L) cs -> outcome (Forall (between L K)) (turn_round cs L).
Proof.
  induction 1 as [|c cs (Hc & El & Er) _ IH]; cbn [turn_round]; [by constructor |].
  eapply (outcome_bind (fun o => exists d, o = Some d /\ between L K d)).
  - pose proof (WithLHS_true c L Hc) as Hw. unfold WithLHS in *. rewrite El, Er in *.
    destruct (L =? K)%nat eqn:E; [apply Nat.eqb_eq in E as ->; by exists c |]. rewrite Nat.eqb_refl in *.
    destruct (neg64 (offset_ c)) as [o|]; [|done]. cbn [bind] in *.
    rewrite new_Comparison_proper in * by (pose proof (true_proper _ Hc); by destruct (result_ c)).
    cbn [bind] in *. eexists. split; [done |]. destruct (Hw _ eq_refl). by split.
  - intros o (d & -> & Hd). cbn [bind]. eapply outcome_bind; [exact IH |]. intros rest Hr. by constructor.
Qed.

Lemma CollectIndirect_sound fuel known L K cs :
  Forall true_cmp known -> (L < n)%nat -> (K < n)%nat ->
  CollectIndirectComparisons fuel known L K = Ok cs -> Forall (between L K) cs.
Proof.
  intros Hk HL HK (out & Ho & (back & Hb & (back' & Ht & [= <-])%bind_ok)%bind_ok)%bind_ok.
  apply Forall_app. split; [by eapply DFSFromLHS_sound |].
  eapply outcome_ok in Ht; [done |]. apply turn_round_true. by eapply DFSFromLHS_sound.
Qed.

Lemma CollectIndirect_ends known L K :
  Forall true_cmp known -> (L < n)%nat -> (K < n)%nat ->
  exists f0, forall f, (f0 <= f)%nat ->
    outcome (Forall (between L K)) (CollectIndirectComparisons f known L K).
Proof.
  intros Hk HL HK. destruct (DFSFromLHS_ends known L K Hk HL) as [f1 H1].
  destruct (DFSFromLHS_ends known K L Hk HK) as [f2 H2]. exists (Nat.max f1 f2). intros f Hf.
  unfold CollectIndirectComparisons. specialize (H1 f ltac:(lia)). specialize (H2 f ltac:(lia)).
  destruct (DFSFromLHS f known L K) as [out|] eqn:E1; [|done].
  destruct (DFSFromLHS f known K L) as [back|] eqn:E2; [|done]. cbn [bind].
  apply DFSFromLHS_sound in E1, E2; try done.
  eapply outcome_bind; [by apply turn_round_true |]. intros back' Hb. by apply Forall_app.
Qed.

Lemma CollectDirect_true known L K :
  Forall true_cmp known -> outcome (Forall (between L K)) (CollectDirectComparisons known L K).
Proof.
  intros Hk. eapply outcome_bind; [by apply with_lhs_true |]. intros cs Hcs. cbn.
  induction Hcs as [|c cs [Hc El] _ IH]; cbn [List.filter]; [by constructor |].
  destruct (rhs_ c =? K)%nat eqn:E; [|done]. apply Nat.eqb_eq in E. constructor; [by split | done].
Qed.

Lemma cr_and_claims a b v w : claims a v w -> claims b v w -> claims (cr_and a b) v w.
Proof.
  destruct a, b;
    (match goal with |- context [cr_and ?a ?b] =>
       let r := eval vm_compute in (cr_and a b) in change (cr_and a b) with r end); simpl; lia.
Qed.

Lemma MergeComparisons_claims L K cs offset :
  Forall (between L K) cs ->
  exists r, MergeComparisons cs offset = Ok r /\ claims r (val L) (val K + offset).
Proof.
  unfold MergeComparisons. intros Hcs. assert (Hu : claims kUnknown (val L) (val K + offset)) by done.
  revert Hu. generalize kUnknown as acc. induction Hcs as [|c cs (Hc & El & Er) _ IH]; intros acc Ha;
    cbn [merge_from]; [by exists acc |].
  assert (exists acc', merge_one offset acc c = Ok acc' /\ claims acc' (val L) (val K + offset))
    as (acc' & -> & Ha'); [|by apply IH].
  pose proof (true_holds _ Hc) as Hh. unfold holds in Hh. rewrite El, Er in Hh.
  unfold merge_one. destruct (gap_cases c Hc) as [[E _]|[[E _]|[[E _]|[E _]]]]; rewrite E in *;
    (eexists; split; [done |]); simpl in Hh; repeat case_match; bool_to_prop;
    try done; apply cr_and_claims; try done; simpl; lia.
Qed.

End Search.

(** ** The analyzer's state in an environment *)

Section State.
Context `{PtrEq} (rho : Env).

(** What a key stands for; the zero node is zero. *)
Definition key_value (o : option expr) : Z :=
  match o with
  | None => 0%Z
  | Some e => match eval ideal rho e with Some (VInt v) => v | _ => 0%Z end
  end.

Definition valuation (keys : list (option expr)) (k : nat) : Z := from_option key_value 0%Z (keys !! k).

Record known_ok (keys : list (option expr)) (c : Comparison) : Prop := {
  known_proper : proper (result_ c) = true;
  known_holds : holds (valuation keys) c;
  known_lhs : (lhs_ c < length keys)%nat;
  known_rhs : (rhs_ c < length keys)%nat
}.

(** Every known comparison holds. *)
Definition state_ok (s : CmpState) : Prop := Forall (known_ok (key_exprs s)) (all_knowns s).

Lemma valuation_app keys more k : (k < length keys)%nat -> valuation (keys ++ more) k = valuation keys k.
Proof. intros Hk. unfold valuation. by rewrite lookup_app_l. Qed.

Lemma known_ok_app keys more c : known_ok keys c -> known_ok (keys ++ more) c.
Proof.
  intros [Hp Hh Hl Hr]. unfold holds in Hh.
  split; [done | unfold holds; by rewrite !valuation_app | rewrite length_app; lia ..].
Qed.

Lemma knowns_app keys more cs : Forall (known_ok keys) cs -> Forall (known_ok (keys ++ more)) cs.
Proof. apply List.Forall_impl. intros c. apply known_ok_app. Qed.

(** The distances of the known comparisons: a finite set, closed under
    negation. *)
Definition known_gaps (keys : list (option expr)) (cs : list Comparison) : list Z :=
  flat_map (fun c => [gap (valuation keys) c; - gap (valuation keys) c]) cs.

Lemma known_gaps_opp keys cs g : g ∈ known_gaps keys cs -> - g ∈ known_gaps keys cs.
Proof.
  unfold known_gaps. rewrite !list_elem_of_In, !in_flat_map. intros (c & Hc & Hg). exists c. split; [done |].
  simpl in *. destruct Hg as [<-|[<-|[]]]; [by right; left | left; lia].
Qed.

Lemma knowns_true keys cs :
  Forall (known_ok keys) cs -> Forall (true_cmp (valuation keys) (length keys) (known_gaps keys cs)) cs.
Proof.
  rewrite !List.Forall_forall. intros Hcs c Hc. destruct (Hcs c Hc) as [Hp Hh Hl Hr]. split; try done.
  intros _. unfold known_gaps. apply list_elem_of_In, in_flat_map. exists c. split; [done | by left].
Qed.

(** *** Keys and offsets *)

Lemma find_key_some keys o k : find_key keys o = Some k -> keys !! k = Some o.
Proof.
  revert k. induction keys as [|o' keys IH]; [done |]. intros k. cbn [find_key].
  destruct (same_key o' o) eqn:E.
  - intros [= <-]. simpl. f_equal. destruct o', o; try done. simpl in E. by apply same_eq in E as ->.
  - destruct (find_key keys o) as [k'|]; [|done]. intros [= <-]. by apply IH.
Qed.

Lemma find_key_value keys o k :
  find_key keys o = Some k -> (k < length keys)%nat /\ valuation keys k = key_value o.
Proof.
  intros Hk%find_key_some. split; [by eapply lookup_lt_Some |]. unfold valuation. by rewrite Hk.
Qed.

Lemma ExprToKey_value keys o keys' k :
  ExprToKey keys o = (keys', k) ->
  (exists more, keys' = keys ++ more) /\ (k < length keys')%nat /\ valuation keys' k = key_value o.
Proof.
  unfold ExprToKey. destruct (find_key keys o) as [k'|] eqn:E; intros [= <- <-].
  - split; [exists []; by rewrite app_nil_r | by apply find_key_value].
  - split; [by exists [o] |]. rewrite length_app. simpl. split; [lia |].
    unfold valuation. by rewrite list_lookup_middle.
Qed.

Lemma key_value_eval e z : eval ideal rho e = Some (VInt z) -> key_value (Some e) = z.
Proof. intros He. simpl. by rewrite He. Qed.

Lemma as_int_eval e v dt z : as_int e = Some (v, dt) -> eval ideal rho e = Some (VInt z) -> z = v.
Proof. intros ->%as_int_some He. simpl in He. by inv_eval; subst. Qed.

Lemma ExtractOffset_value e o d z :
  ExtractOffset e = Ok (o, d) -> eval ideal rho e = Some (VInt z) -> key_value o = z - d.
Proof.
  intros Ho He. assert (Hself : key_value (Some e) = z - 0) by (rewrite (key_value_eval e z) by done; lia).
  destruct e as [| | | |k l r dt| |]; try (by injection Ho as <- <-).
  - injection Ho as <- <-. simpl in He. inv_eval. subst. simpl. lia.
  - destruct k; try (by injection Ho as <- <-); cbn [ExtractOffset] in Ho;
      apply eval_binary_inv in He as (v & w & El & Er & Hs); destruct v, w; try done; cbn in Hs; inv_eval; subst;
      repeat match type of Ho with
      | context [match as_int ?e with _ => _ end] => let E := fresh "E" in destruct (as_int e) as [[? ?]|] eqn:E
      end;
      repeat match goal with
      | E : as_int ?e = Some _, Ev : eval _ _ ?e = Some _ |- _ =>
          pose proof (as_int_eval _ _ _ _ E Ev); clear E
      end; unfold neg64 in Ho; inv_ok;
      repeat match goal with E : checked _ = Ok _ |- _ => apply checked_ok in E as [-> _] end;
      simplify_eq; try done;
      match goal with Ev : eval _ _ ?e = Some (VInt _) |- key_value (Some ?e) = _ => rewrite (key_value_eval _ _ Ev) end; lia.
Qed.

Lemma ExtractOffsets_value l r lo ro d a b :
  ExtractOffsets l r = Ok (lo, ro, d) -> eval ideal rho l = Some (VInt a) -> eval ideal rho r = Some (VInt b) ->
  a - b = key_value lo - (key_value ro + d).
Proof.
  unfold ExtractOffsets. intros ([li dl] & Hl & ([ri dr] & Hr & (d' & Hd & [= <- <- <-])%bind_ok)%bind_ok)%bind_ok Ea Eb.
  apply checked_ok in Hd as [-> _].
  rewrite (ExtractOffset_value _ _ _ _ Hl Ea), (ExtractOffset_value _ _ _ _ Hr Eb). lia.
Qed.

(** *** Constraints become comparisons that hold *)

Lemma cmp_result_claims k res a b dt :
  cmp_result k = Some res -> int_op k ideal dt a b = Some (VBool true) -> claims res a b.
Proof.
  destruct k; intros [= <-]; simpl; intros; inv_eval;
    match goal with E : true = _ |- _ => symmetry in E end; rewrite ?negb_true_iff in *; bool_to_prop; lia.
Qed.

Lemma cmp_result_closed k res :
  cmp_result k = Some res -> proper res || bool_decide (res = kLT) || bool_decide (res = kGT) = true.
Proof. by destruct k; intros [= <-]. Qed.

Lemma claims_shift res a b c d : a - b = c - d -> claims res a b -> claims res c d.
Proof. destruct res; simpl; lia. Qed.

Lemma FromExpr_known keys e keys' o :
  eval ideal rho e = Some (VBool true) -> FromExpr keys e = Ok (keys', o) ->
  (exists more, keys' = keys ++ more) /\ forall c, o = Some c -> known_ok keys' c.
Proof.
  intros He Hf.
  assert (Hno : (keys, @None Comparison) = (keys', o) ->
    (exists more, keys' = keys ++ more) /\ forall c, o = Some c -> known_ok keys' c).
  { intros [= <- <-]. split; [exists []; by rewrite app_nil_r | done]. }
  destruct e as [| | | |k l r dt| |]; cbn [FromExpr] in Hf; try (apply Hno; congruence).
  destruct (cmp_result k) as [res|] eqn:Ek; [|apply Hno; congruence].
  apply eval_binary_inv in He as (v & w & El & Er & Hs).
  destruct v as [a|a], w as [b|b]; try done; [|by destruct k].
  assert (Hb : (let* (li, ri, offset) := ExtractOffsets l r in
                let (keys, lk) := ExprToKey keys li in
                let (keys, rk) := ExprToKey keys ri in
                let* c := new_Comparison lk rk offset res in Ok (keys, Some c)) = Ok (keys', o) ->
    (exists more, keys' = keys ++ more) /\ forall c, o = Some c -> known_ok keys' c).
  2: { destruct (as_int l), (as_int r); try (by apply Hb). apply Hno. congruence. }
  clear Hno Hf. intros ([[li ri] d] & Ho & Hf)%bind_ok.
  pose proof (ExtractOffsets_value _ _ _ _ _ _ _ Ho El Er) as Hd.
  destruct (ExprToKey keys li) as [keys1 lk] eqn:E1. destruct (ExprToKey keys1 ri) as [keys2 rk] eqn:E2.
  apply ExprToKey_value in E1 as ((m1 & ->) & H1 & V1). apply ExprToKey_value in E2 as ((m2 & ->) & H2 & V2).
  apply bind_ok in Hf as (c0 & Hc & [= <- <-]). split; [exists (m1 ++ m2); by rewrite app_assoc |].
  intros c [= <-]. pose proof (new_Comparison_holds (valuation ((keys ++ m1) ++ m2)) lk rk d res) as Hn.
  rewrite Hc in Hn. destruct Hn as (L1 & L2 & Hh & Hp).
  split; [by eapply Hp, cmp_result_closed | | rewrite L1, length_app; lia | by rewrite L2].
  apply Hh. rewrite V2, (valuation_app (keys ++ m1)), V1 by done.
  eapply claims_shift; [exact Hd | by eapply cmp_result_claims].
Qed.

Lemma add_parts_known parts keys vec keys' vec' :
  Forall (fun e => eval ideal rho e = Some (VBool true)) parts -> Forall (known_ok keys) vec ->
  add_parts keys parts vec = Ok (keys', vec') ->
  (exists more, keys' = keys ++ more) /\ Forall (known_ok keys') vec' /\ exists new, vec' = vec ++ new.
Proof.
  intros Hp. revert keys vec. induction Hp as [|e parts He _ IH]; intros keys vec Hv; cbn [add_parts].
  - intros [= <- <-]. split_and!; [exists []; by rewrite app_nil_r | done | exists []; by rewrite app_nil_r].
  - intros ([keys1 o] & Hf & Ha)%bind_ok. apply (FromExpr_known keys e keys1 o He) in Hf as ((m1 & ->) & Ho).
    apply IH in Ha as ((m2 & ->) & Hv' & new & ->).
    + split_and!; [exists (m1 ++ m2); by rewrite app_assoc | done |].
      destruct o as [c|]; [exists (c :: new); by rewrite <- app_assoc | by exists new].
    + apply (knowns_app keys m1) in Hv. destruct o; [apply Forall_app; split; [done | repeat constructor; auto] | done].
      all: by apply Ho.
Qed.

Lemma AddKnown_known keys e vec keys' vec' :
  eval ideal rho e = Some (VBool true) -> Forall (known_ok keys) vec ->
  AddKnown keys e vec = Ok (keys', vec') ->
  (exists more, keys' = keys ++ more) /\ Forall (known_ok keys') vec' /\ exists new, vec' = vec ++ new.
Proof.
  intros He Hv (parts & Hp & Ha)%bind_ok. eapply add_parts_known; [| done | exact Ha].
  rewrite ExtractConstraints_parts in Hp. injection Hp as <-. by apply chain_true.
Qed.

(** *** The operations *)

Lemma state_knowns s : state_ok s <->
  Forall (known_ok (key_exprs s)) (knowns s) /\ Forall (known_ok (key_exprs s)) (scoped_knowns s).
Proof. apply Forall_app. Qed.

Lemma add_known_ok s e s' :
  state_ok s -> eval ideal rho e = Some (VBool true) -> add_known s e = Ok s' -> state_ok s'.
Proof.
  rewrite !state_knowns. intros [Hk Hs] He ([keys vec] & Ha & [= <-])%bind_ok.
  eapply AddKnown_known in Ha as ((more & ->) & Hv & _); [|done..]. split; [done | by apply knowns_app].
Qed.

Lemma EnterConstraint_ok s c s' sizes :
  state_ok s -> eval ideal rho c = Some (VBool true) -> EnterConstraint s c = Ok (s', sizes) ->
  state_ok s' /\ (exists more, key_exprs s' = key_exprs s ++ more) /\ knowns s' = knowns s /\
  exists new, scoped_knowns s' = scoped_knowns s ++ new /\
    sizes = (length (scoped_knowns s), length (scoped_knowns s')).
Proof.
  rewrite !state_knowns. intros [Hk Hs] He ([keys vec] & Ha & [= <- <-])%bind_ok.
  eapply AddKnown_known in Ha as ((more & ->) & Hv & new & ->); [|done..]. simpl.
  split_and!; [by apply knowns_app | done | by exists more | done | by exists new].
Qed.

Lemma Recover_ok s sizes s' : state_ok s -> Recover s sizes = Ok s' -> state_ok s'.
Proof.
  rewrite !state_knowns. intros [Hk Hs]. destruct sizes as [old new]. unfold Recover.
  destruct (old =? new)%nat; [by intros [= <-] |]. intros (_ & _ & [= <-])%bind_ok. simpl.
  split; [done | by apply Forall_take].
Qed.

Lemma Unbind_ok s var : state_ok s -> state_ok (Unbind s var).
Proof.
  rewrite !state_knowns. intros [Hk Hs]. unfold Unbind. destruct (ExprToPreviousKey _ _) as [k|]; [|done].
  split; [|done]. simpl. rewrite List.Forall_forall in *. intros c [Hc _]%filter_In. auto.
Qed.

(** A comparison of a variable with a literal at its own dtype. *)
Lemma MakeCompare_literal k var lo dt v res eq :
  scalar_type var = Some dt -> eval ideal rho var = Some (VInt v) -> cmp_result k = Some res ->
  claims res v lo -> MakeCompare k var (MakeConstInt lo dt) = Ok eq -> eval ideal rho eq = Some (VBool true).
Proof.
  intros Ht Hv Hk Hc Hm. pose proof (eval_int_type _ _ _ _ _ Hv Ht) as Hi.
  assert (eq = Binary k var (MakeConstInt lo dt) BOOL) as ->.
  { unfold MakeCompare, PromoteBinaryOperands in Hm. rewrite (proj2 (GetScalarDtype_ok _ _) Ht) in Hm. cbn [bind] in Hm.
    change (GetScalarDtype (MakeConstInt lo dt)) with (Ok dt : result DataType) in Hm. cbn [bind] in Hm.
    rewrite Promote_int in Hm by done.
    destruct (GetBit dt >? GetBit dt); cbn [bind] in Hm; rewrite !MaybeCast_same in Hm by done; by injection Hm as <-. }
  cbn [eval MakeConstInt]. rewrite Hv. unfold int_result. rewrite Hi. simpl.
  destruct k; try discriminate; injection Hk as <-; simpl in *; unfold bool_result; simpl; do 2 f_equal;
    rewrite ?negb_true_iff; lia.
Qed.

Lemma BindRange_ok s var lo hi dt v s' :
  state_ok s -> scalar_type var = Some dt -> eval ideal rho var = Some (VInt v) -> lo <= v < hi ->
  BindRange s var lo hi = Ok s' -> state_ok s'.
Proof.
  intros Hs Ht Hv Hr Hb. unfold BindRange in Hb. rewrite (proj2 (GetScalarDtype_ok _ _) Ht) in Hb. cbn [bind] in Hb.
  apply bind_ok in Hb as (w & Hw & Hb). apply checked_ok in Hw as [-> _].
  destruct (hi - lo =? 1) eqn:E; bool_to_prop.
  - apply bind_ok in Hb as (e & He & Hb). eapply add_known_ok; [exact Hs | | exact Hb].
    eapply (MakeCompare_literal KEq var lo); [done.. | | done]. simpl. lia.
  - apply bind_ok in Hb as (e & He & Hb). apply bind_ok in Hb as (s1 & H1 & Hb).
    apply bind_ok in Hb as (e2 & He2 & Hb).
    eapply add_known_ok; [eapply add_known_ok; [exact Hs | | exact H1] | | exact Hb].
    + eapply (MakeCompare_literal KGe var lo); [done.. | | done]. simpl. lia.
    + eapply (MakeCompare_literal KLt var hi); [done.. | | done]. simpl. lia.
Qed.

(** One operation of the analyzer, told things that are true in [rho]. *)
Inductive cmp_step : CmpState -> CmpState -> Prop :=
  | step_bind s var e eq s' :
      MakeCompare KEq var e = Ok eq -> eval ideal rho eq = Some (VBool true) ->
      BindExpr s var e = Ok s' -> cmp_step s s'
  | step_range s var lo hi dt v s' :
      scalar_type var = Some dt -> eval ideal rho var = Some (VInt v) -> lo <= v < hi ->
      BindRange s var lo hi = Ok s' -> cmp_step s s'
  | step_unbind s var : cmp_step s (Unbind s var)
  | step_enter s e s' sizes :
      eval ideal rho e = Some (VBool true) -> EnterConstraint s e = Ok (s', sizes) -> cmp_step s s'
  | step_recover s sizes s' : Recover s sizes = Ok s' -> cmp_step s s'.

Lemma cmp_step_ok s s' : cmp_step s s' -> state_ok s -> state_ok s'.
Proof.
  destruct 1 as [s var e eq s' Hm He Hb|s var lo hi dt v s' Ht Hv Hr Hb|s var|s e s' sizes He Hc|s sizes s' Hr]; intros Hs.
  - unfold BindExpr in Hb. rewrite Hm in Hb. by eapply add_known_ok.
  - by eapply BindRange_ok.
  - by apply Unbind_ok.
  - by eapply EnterConstraint_ok.
  - by eapply Recover_ok.
Qed.

Lemma reachable_ok s s' : rtc cmp_step s s' -> state_ok s -> state_ok s'.
Proof. induction 1; eauto using cmp_step_ok. Qed.

(** *** Queries *)

Context `{SetOrder}.

Lemma compare_bases_answer fuel s p li ri d res a b :
  state_ok s -> a - b = key_value li - (key_value ri + d) ->
  compare_bases fuel s p (li, ri, d) = Ok res -> claims res a b.
Proof.
  intros Hs Hd Hr. cbn [compare_bases] in Hr. cbv zeta in Hr.
  destruct (match li with Some _ => _ | None => _ end) eqn:Es.
  - destruct li as [x1|], ri as [x2|]; try done. apply same_eq in Es as ->.
    injection Hr as <-. repeat case_match; bool_to_prop; simpl; lia.
  - destruct (ExprToPreviousKey (key_exprs s) li) as [lk|] eqn:El; [|by injection Hr as <-].
    destruct (ExprToPreviousKey (key_exprs s) ri) as [rk|] eqn:Er; [|by injection Hr as <-].
    apply find_key_value in El as [Ll Vl]. apply find_key_value in Er as [Lr Vr].
    apply bind_ok in Hr as (cs & Hc & Hm). pose proof (knowns_true _ _ Hs) as Hk.
    pose proof (known_gaps_opp (key_exprs s) (all_knowns s)) as Hg.
    assert (Hcs : Forall (between (valuation (key_exprs s)) (length (key_exprs s))
      (known_gaps (key_exprs s) (all_knowns s)) lk rk) cs).
    { destruct p; [by eapply CollectIndirect_sound | eapply outcome_ok; [by apply CollectDirect_true | done]]. }
    destruct (MergeComparisons_claims _ _ _ _ _ _ d Hcs) as (res' & Hm' & Hcl).
    rewrite Hm in Hm'. injection Hm' as <-. rewrite Vl, Vr in Hcl. eapply claims_shift; [symmetry; exact Hd | exact Hcl].
Qed.

Lemma TryCompare_answer fuel s l r p res a b :
  state_ok s -> eval ideal rho l = Some (VInt a) -> eval ideal rho r = Some (VInt b) ->
  TryCompare fuel s l r p = Ok res -> claims res a b.
Proof.
  intros Hs Ea Eb. unfold TryCompare. destruct (negb _); [by intros [= <-] |].
  assert (Hb : (let* bases := ExtractOffsets l r in compare_bases fuel s p bases) = Ok res -> claims res a b).
  { intros ([[li ri] d] & Ho & Hr)%bind_ok. eapply compare_bases_answer; [done | | exact Hr].
    by eapply ExtractOffsets_value. }
  destruct (as_int l) as [[va da]|] eqn:Il; [|exact Hb].
  destruct (as_int r) as [[vb db]|] eqn:Ir; [|exact Hb].
  rewrite (as_int_eval _ _ _ _ Il Ea), (as_int_eval _ _ _ _ Ir Eb).
  intros [= <-]. repeat case_match; bool_to_prop; simpl; lia.
Qed.

Lemma ExtractOffsets_outcome l r : outcome (fun _ => True) (ExtractOffsets l r).
Proof.
  assert (He : forall e, outcome (fun _ => True) (ExtractOffset e)).
  { intros e. destruct e as [| | | |[]| |]; cbn [ExtractOffset]; repeat case_match; try done.
    unfold neg64, checked. by case_match. }
  unfold ExtractOffsets. eapply outcome_bind; [apply He |]. intros [li lo] _.
  eapply outcome_bind; [apply He |]. intros [ri ro] _. unfold sub64, checked. by case_match.
Qed.

Lemma compare_bases_answers s p bases :
  state_ok s -> exists f0, forall f, (f0 <= f)%nat -> outcome (fun _ => True) (compare_bases f s p bases).
Proof.
  intros Hs. destruct bases as [[li ri] d]. cbn [compare_bases]. cbv zeta.
  destruct (match li with Some _ => _ | None => _ end); [by exists 0%nat |].
  destruct (ExprToPreviousKey (key_exprs s) li) as [lk|] eqn:El; [|by exists 0%nat].
  destruct (ExprToPreviousKey (key_exprs s) ri) as [rk|] eqn:Er; [|by exists 0%nat].
  apply find_key_value in El as [Ll _]. apply find_key_value in Er as [Lr _].
  pose proof (knowns_true _ _ Hs) as Hk. pose proof (known_gaps_opp (key_exprs s) (all_knowns s)) as Hg.
  assert (Hm : forall cs, Forall (between (valuation (key_exprs s)) (length (key_exprs s))
      (known_gaps (key_exprs s) (all_knowns s)) lk rk) cs -> outcome (fun _ => True) (MergeComparisons cs d)).
  { intros cs Hcs. destruct (MergeComparisons_claims _ _ _ _ _ _ d Hcs) as (res & E & _). by rewrite E. }
  destruct p.
  - destruct (CollectIndirect_ends _ _ _ Hg (all_knowns s) lk rk Hk Ll Lr) as [f0 Hf]. exists f0. intros f Hle.
    eapply outcome_bind; [by apply Hf | exact Hm].
  - exists 0%nat. intros _ _. eapply outcome_bind; [by apply CollectDirect_true | exact Hm].
Qed.

Lemma TryCompare_answers s l r p :
  state_ok s -> exists f0, forall f, (f0 <= f)%nat -> outcome (fun _ => True) (TryCompare f s l r p).
Proof.
  intros Hs. unfold TryCompare. destruct (negb _); [by exists 0%nat |].
  assert (Hb : exists f0, forall f, (f0 <= f)%nat -> outcome (fun _ => True)
     (let* bases := ExtractOffsets l r in compare_bases f s p bases)).
  { destruct (ExtractOffsets l r) as [bases|e] eqn:E.
    - by apply compare_bases_answers.
    - exists 0%nat. intros f _. pose proof (ExtractOffsets_outcome l r) as Ho. by rewrite E in Ho. }
  destruct (as_int l) as [[? ?]|]; [|exact Hb]. destruct (as_int r) as [[? ?]|]; [|exact Hb]. by exists 0%nat.
Qed.

End State.

(** ** Claims *)

(** The analyzer is right about everything it was told the truth about. *)
(** C16: The transitive comparison analyzer is right: after any sequence of Bind, range
    Bind, Unbind, EnterConstraint and recovery calls that are told the truth about an
    environment, every comparison TryCompare derives between two integer expressions,
    directly or through chains of known comparisons, holds of their values. *)
Theorem TransitiveCompare_sound `{PtrEq} `{SetOrder} rho s fuel l r p res a b :
  rtc (cmp_step rho) no_knowns s ->
  eval ideal rho l = Some (VInt a) -> eval ideal rho r = Some (VInt b) ->
  TryCompare fuel s l r p = Ok res -> claims res a b.
Proof. intros Hs. apply TryCompare_answer. apply (reachable_ok rho _ _ Hs). by constructor. Qed.

(** The search ends. *)
(** C33: The search over known comparisons ends when the facts told to the analyzer can all
    hold: enough fuel always gives an answer, or a signed overflow of an offset, whatever
    the iteration order of the unordered_set of keys to visit. *)
Theorem TryCompare_terminates `{PtrEq} `{SetOrder} rho s l r p :
  rtc (cmp_step rho) no_knowns s ->
  exists f0, forall f, (f0 <= f)%nat ->
    (exists res, TryCompare f s l r p = Ok res) \/ TryCompare f s l r p = Err UndefinedBehaviour.
Proof.
  intros Hs. assert (Ho : state_ok rho s) by (apply (reachable_ok rho _ _ Hs); by constructor).
  destruct (TryCompare_answers rho s l r p Ho) as [f0 Hf]. exists f0. intros f Hle.
  specialize (Hf f Hle). destruct (TryCompare f s l r p) as [res|e]; [by left; exists res | right; by rewrite Hf].
Qed.

(** Leaving a scope takes back exactly what entering it added. *)
(** Entering a true constraint keeps every known comparison of the transitive analyzer
    true, and its recovery function finds the size it expects and takes back exactly the
    comparisons that were added. *)
Theorem EnterConstraint_recover `{PtrEq} rho s e s' sizes :
  state_ok rho s -> eval ideal rho e = Some (VBool true) -> EnterConstraint s e = Ok (s', sizes) ->
  state_ok rho s' /\
  exists s'', Recover s' sizes = Ok s'' /\ state_ok rho s'' /\ all_knowns s'' = all_knowns s.
Proof.
  intros Hs He Hc. destruct (EnterConstraint_ok rho s e s' sizes Hs He Hc)
    as (Hs' & (more & Ek) & Hk & new & Hn & ->). split; [done |].
  unfold Recover, all_knowns. rewrite Hn, length_app.
  destruct (length (scoped_knowns s) =? length (scoped_knowns s) + length new)%nat eqn:E.
  - apply Nat.eqb_eq in E. destruct new; [|simpl in E; lia]. exists s'.
    split_and!; [done | done | by rewrite Hn, Hk, app_nil_r].
  - rewrite Nat.eqb_refl. cbn [require bind]. eexists. split; [done |]. simpl. rewrite Hk, take_app_length.
    split; [|done]. apply state_knowns. apply state_knowns in Hs' as [Ha Hb]. simpl. rewrite Hk, Hn in *.
    split; [done |]. by apply Forall_app in Hb as [? _].
Qed.

(** ** What unbinding leaves behind *)

Section Findings.
Context `{SetOrder}.
#[local] Existing Instance structural_ptr.

Definition ix (id : positive) : expr := Var false id (Some INDEX).
Definition num_lit (v : Z) : expr := ConstInt v INDEX.

(** Finding: Unbind leaves the comparisons of open constraint scopes: after entering x
    <= 3 and unbinding x the analyzer still answers x < 4. *)
Theorem Unbind_keeps_scoped :
  (let* (s, sizes) := EnterConstraint no_knowns (Binary KLe (ix 1) (num_lit 3) BOOL) in
   TryCompare 0 (Unbind s (ix 1)) (ix 1) (num_lit 4) false) = Ok kLT.
Proof. vm_compute. reflexivity. Qed.

(** ** Contradictory constraints *)

(** [a <= b], [b < c], [c < b] and an unrelated [0 <= d]. *)
Definition cmp (k : binkind) (i j : positive) : expr := Binary k (ix i) (ix j) BOOL.
Definition contradiction : expr :=
  Binary KAnd (Binary KAnd (cmp KLe 1 2) (cmp KLt 2 3) BOOL)
    (Binary KAnd (cmp KLt 3 2) (Binary KLe (num_lit 0) (ix 4) BOOL) BOOL) BOOL.

Definition contradiction_state : CmpState :=
  MkCmpState [Some (ix 1); Some (ix 2); Some (ix 3); None; Some (ix 4)] []
    [MkComparison 0 1 0 kLE; MkComparison 1 2 (-1) kLE; MkComparison 2 1 (-1) kLE; MkComparison 3 4 0 kLE].

(** The search goes round between [b] and [c], and each turn improves the bound
    by one. *)
Definition fact (k : nat) (o : Z) : Comparison := MkComparison 0 k o kLE.

Definition spinning (k k' : nat) (o : Z) (s : Search) : Prop :=
  to_visit s = {[ k ]} /\ compared_to_lhs s !! k = Some [fact k o] /\
  (compared_to_lhs s !! k' = None \/ exists o', compared_to_lhs s !! k' = Some [fact k' o'] /\ o - 1 < o').

Lemma spin_chain k k' o :
  (k = 1 /\ k' = 2 \/ k = 2 /\ k' = 1)%nat -> INT64_MIN + 2 <= o <= 0 ->
  (let* cs := with_lhs (all_knowns contradiction_state) k in attempt_all 0 [fact k o] cs) =
    Ok [fact k' (o - 1)].
Proof.
  intros Hk Ho. destruct Hk as [[-> ->]|[-> ->]].
  - assert (with_lhs (all_knowns contradiction_state) 1 =
      Ok [MkComparison 1 0 0 kGE; MkComparison 1 2 (-1) kLE; MkComparison 1 2 1 kGE]) as -> by (vm_compute; reflexivity).
    cbn [bind attempt_all attempt_transitive chain_with fact offset_ result_ rhs_ lhs_].
    unfold attempt_transitive. cbn. unfold add64. rewrite !(checked_in (o + _)) by lia64. reflexivity.
  - assert (with_lhs (all_knowns contradiction_state) 2 =
      Ok [MkComparison 2 1 1 kGE; MkComparison 2 1 (-1) kLE]) as -> by (vm_compute; reflexivity).
    cbn [bind attempt_all attempt_transitive chain_with fact offset_ result_ rhs_ lhs_].
    unfold attempt_transitive. cbn. unfold add64. rewrite !(checked_in (o + _)) by lia64. reflexivity.
Qed.

Lemma spin_declare k' o s :
  (k' = 1 \/ k' = 2)%nat -> to_visit s = ∅ ->
  (compared_to_lhs s !! k' = None \/ exists o', compared_to_lhs s !! k' = Some [fact k' o'] /\ o < o') ->
  declare_known 4 s (fact k' o) = Ok (MkSearch {[ k' ]} (<[ k' := [fact k' o] ]> (compared_to_lhs s))).
Proof.
  intros Hk Ht Hf. unfold declare_known, facts. rewrite Ht. cbn [fact rhs_].
  replace (k' =? 4)%nat with false by (symmetry; apply Nat.eqb_neq; lia). rewrite union_empty_r_L.
  destruct Hf as [-> | (o' & -> & Hlt)]; [done |].
  cbn [default from_option id any_implies replace_weaker].
  assert (Hi : forall a b, Implies (fact k' a) (fact k' b) = Ok (a <=? b)).
  { intros a b. unfold Implies, fact. cbn [lhs_ rhs_]. rewrite !Nat.eqb_refl. cbn [require bind].
    change (IsNormalized (MkComparison 0 k' a kLE)) with true.
    change (IsNormalized (MkComparison 0 k' b kLE)) with true. cbn [require bind]. f_equal.
    unfold implies. rewrite !same_result. cbn. rewrite !andb_true_r, !orb_false_r. lia. }
  fold (fact k' o). rewrite !Hi. replace (o' <=? o) with false by lia. replace (o <=? o') with true by lia. done.
Qed.

Lemma spin_step k k' o s :
  (k = 1 /\ k' = 2 \/ k = 2 /\ k' = 1)%nat -> INT64_MIN + 2 <= o <= 0 -> spinning k k' o s ->
  exists s', visit_key (all_knowns contradiction_state) 0 4 s k = Ok s' /\ spinning k' k (o - 1) s'.
Proof.
  intros Hk Ho (Ht & Hf & Hf'). unfold visit_key. cbn [compared_to_lhs]. rewrite Hf. cbn [bind].
  pose proof (spin_chain k k' o Hk Ho) as Ha. apply bind_ok in Ha as (cs & -> & Ha). cbn [bind].
  rewrite Ha. cbn [bind declare_all]. rewrite spin_declare; [|lia | rewrite Ht; simpl; set_solver | done].
  cbn [bind]. eexists. split; [done |]. split; [done |]. cbn [compared_to_lhs].
  rewrite lookup_insert_eq, lookup_insert_ne by lia. split; [done |]. right. exists o. split; [done | lia].
Qed.

Lemma spinning_forever fuel k k' o s :
  (k = 1 /\ k' = 2 \/ k = 2 /\ k' = 1)%nat -> INT64_MIN + 2 + Z.of_nat fuel <= o <= 0 -> spinning k k' o s ->
  dfs_loop fuel (all_knowns contradiction_state) 0 4 s = Err OutOfFuel.
Proof.
  revert k k' o s. induction fuel as [|fuel IH]; intros k k' o s Hk Ho Hs; cbn [dfs_loop];
    (destruct (decide (to_visit s = ∅)) as [E|_]; [destruct Hs as [Ht _]; set_solver |]); [done |].
  assert (begin_ fuel (to_visit s) = k) as ->.
  { destruct Hs as [-> _]. pose proof (begin_in fuel {[k]} ltac:(set_solver)). set_solver. }
  destruct (spin_step k k' o s Hk ltac:(lia) Hs) as (s' & -> & Hs'). cbn [bind].
  apply (IH k' k (o - 1)); [lia | lia | done].
Qed.

(** C38: Finding: under the contradictory constraints a <= b, b < c, c < b the search from a
    does not end within 2^62 turns: b and c are queued again each time the derived bound
    improves by one. *)
Theorem contradiction_spins fuel :
  Z.of_nat fuel <= 2 ^ 62 ->
  (let* (s, sizes) := EnterConstraint no_knowns contradiction in TryCompare fuel s (ix 1) (ix 4) true) =
    Err OutOfFuel.
Proof.
  intros Hf.
  assert (EnterConstraint no_knowns contradiction = Ok (contradiction_state, (0, 4)%nat)) as -> by (vm_compute; reflexivity).
  cbn [bind].
  assert (ExtractOffsets (ix 1) (ix 4) = Ok (Some (ix 1), Some (ix 4), 0)) as Eo by (vm_compute; reflexivity).
  unfold TryCompare. cbn [is_int_scalar andb negb as_int]. rewrite Eo.
  unfold compare_bases. cbn [bind].
  assert (ExprToPreviousKey (key_exprs contradiction_state) (Some (ix 1)) = Some 0%nat) as -> by (vm_compute; reflexivity).
  assert (ExprToPreviousKey (key_exprs contradiction_state) (Some (ix 4)) = Some 4%nat) as -> by (vm_compute; reflexivity).
  replace (same (ix 1) (ix 4)) with false by (vm_compute; reflexivity).
  unfold CollectIndirectComparisons. rewrite DFSFromLHS_alt.
  assert ((let* seeds := with_lhs (all_knowns contradiction_state) 0 in declare_all 4 (MkSearch ∅ ∅) seeds) =
    Ok (MkSearch {[ 1%nat ]} {[ 1%nat := [fact 1 0] ]})) as -> by (vm_compute; reflexivity).
  cbn [bind]. rewrite (spinning_forever fuel 1 2 0); [done | lia | lia64 |].
  split; [done |]. split; [done | by left].
Qed.

End Findings.

(** ** Witnesses *)

Definition first_element (s : gset nat) : nat := match elements s with k :: _ => k | [] => 0%nat end.

Lemma first_element_in s : s <> ∅ -> first_element s ∈ s.
Proof.
  intros Hs. unfold first_element. destruct (elements s) as [|k l] eqn:E.
  - by apply elements_empty_inv, leibniz_equiv in E.
  - apply elem_of_elements. rewrite E. by left.
Qed.

#[local] Instance in_order : SetOrder := {| begin_ := fun _ => first_element; begin_in _ := first_element_in |}.
#[local] Existing Instance structural_ptr.

(** [i < n] and [n <= 7], with [i = 3] and [n = 5]. *)
Definition loop_cond : expr := Binary KAnd (cmp KLt 1 2) (Binary KLe (ix 2) (num_lit 7) BOOL) BOOL.
Definition loop_env : Env := {| var_val := fun p => VInt (if (p =? 1)%positive then 3 else 5);
                                leaf_val := fun _ => VInt 0 |}.
Definition loop_state : CmpState :=
  MkCmpState [Some (ix 1); Some (ix 2); None] [] [MkComparison 0 1 (-1) kLE; MkComparison 1 2 7 kLE].

Lemma loop_entered : EnterConstraint no_knowns loop_cond = Ok (loop_state, (0, 2)%nat).
Proof. vm_compute. reflexivity. Qed.

Lemma loop_reachable : rtc (cmp_step loop_env) no_knowns loop_state.
Proof.
  eapply rtc_l; [|apply rtc_refl]. eapply step_enter; [|exact loop_entered]. vm_compute. reflexivity.
Qed.

Lemma TransitiveCompare_sound_witness :
  TryCompare 10 loop_state (ix 1) (num_lit 7) true = Ok kLT /\ claims kLT 3 7.
Proof.
  split; [vm_compute; reflexivity |].
  apply (TransitiveCompare_sound loop_env loop_state 10 (ix 1) (num_lit 7) true);
    [apply loop_reachable | vm_compute; reflexivity | vm_compute; reflexivity | vm_compute; reflexivity].
Defined.

Lemma TryCompare_terminates_witness :
  exists f0, forall f, (f0 <= f)%nat ->
    (exists res, TryCompare f loop_state (ix 1) (num_lit 7) true = Ok res) \/
    TryCompare f loop_state (ix 1) (num_lit 7) true = Err UndefinedBehaviour.
Proof. apply (TryCompare_terminates loop_env), loop_reachable. Defined.

Lemma EnterConstraint_recover_witness :
  exists s'', Recover loop_state (0, 2)%nat = Ok s'' /\ state_ok loop_env s'' /\ all_knowns s'' = [].
Proof.
  apply (EnterConstraint_recover loop_env no_knowns loop_cond);
    [by constructor | vm_compute; reflexivity | apply loop_entered].
Defined.

Lemma contradiction_spins_witness :
  Z.of_nat 1000 <= 2 ^ 62 /\
  (let* (s, sizes) := EnterConstraint no_knowns contradiction in TryCompare 1000 s (ix 1) (ix 4) true) =
    Err OutOfFuel.
Proof. split; [lia | apply (contradiction_spins 1000); lia]. Defined.
