(* ===== verification/IntSet.v ===== *)
(** * Symbolic integer sets ([src/ir/arith/int_set.cpp], [IntSet] in [analyzer.h])

    Intervals whose ends are expressions: the arithmetic of ends, the visitor,
    and the constraints that tighten the interval of a variable.  What the
    analyzer asks of the analyzer that owns it is the record [Parent]. *)

From Stdlib Require Import ZArith Lia Bool List.
From stdpp Require Import base gmap list option.
From S2P Require Import Prelude Dtype IntOps ScalarExpr ConstFold ConstIntBound PatternMatch.
From S2P Require Import RewriteSimplify.

(** ** Sets *)

(** No end is an infinite one. *)
Record IntSet := MkSet { min_end : option expr; max_end : option expr }.

Definition Everything : IntSet := MkSet None None.
Definition SinglePoint (val : expr) : IntSet := MkSet (Some val) (Some val).

Definition set_is_everything (s : IntSet) : bool :=
  match min_end s, max_end s with None, None => true | _, _ => false end.

(** [var_map_], keyed by the address of the variable. *)
Abbreviation SetMap := (gmap positive IntSet).

(** What the analyzer calls on its [parent_]. *)
Record Parent := {
  parent_Simplify : expr -> result expr;
  parent_CanProve : expr -> result bool;
  parent_CanProveGreaterEqual : expr -> Z -> result bool;
  parent_CanProveLess : expr -> Z -> result bool
}.

Section Sets.
Context `{PtrEq} `{Libm} (parent_ : option Parent).

Definition is_single_point (s : IntSet) : bool :=
  match min_end s, max_end s with Some a, Some b => same a b | _, _ => false end.

(** ** Arithmetic of ends *)

Definition MaybeSimplify (e : expr) : result expr :=
  match parent_ with Some p => parent_Simplify p e | None => Ok e end.

Definition IsNonNeg (e : option expr) : result bool :=
  match e, parent_ with
  | None, _ => Ok false
  | Some (ConstInt v _), _ => Ok (v >=? 0)
  | Some e, Some p => parent_CanProveGreaterEqual p e 0
  | Some _, None => Ok false
  end.

Definition IsNeg (e : option expr) : result bool :=
  match e, parent_ with
  | None, _ => Ok false
  | Some (ConstInt v _), _ => Ok (v <? 0)
  | Some e, Some p => parent_CanProveLess p e 0
  | Some _, None => Ok false
  end.

(** [SymAdd], [SymSub], [SymMul] and [SymFloorDiv]. *)
Definition SymBinary (k : binkind) (a b : option expr) : result (option expr) :=
  match a, b with
  | Some a, Some b =>
      let* e := MakeBinary k a b in
      let* e := MaybeSimplify e in Ok (Some e)
  | _, _ => Ok None
  end.

Definition SymAdd : option expr -> option expr -> result (option expr) := SymBinary KAdd.
Definition SymSub : option expr -> option expr -> result (option expr) := SymBinary KSub.
Definition SymMul : option expr -> option expr -> result (option expr) := SymBinary KMul.
Definition SymFloorDiv : option expr -> option expr -> result (option expr) := SymBinary KFloorDiv.

Definition SymNeg (a : option expr) : result (option expr) :=
  match a with
  | Some a => let* e := MakeNeg a in let* e := MaybeSimplify e in Ok (Some e)
  | None => Ok None
  end.

(** Of two finite ends the first if [first] is proved of them, the second if
    [second] is, else the node [k]: the common part of the four functions
    below. *)
Definition SymSelect (k first second : binkind) (a b : expr) : result (option expr) :=
  let* decided :=
    match parent_ with
    | Some p =>
        let* c := MakeBinary first a b in
        let* l := parent_CanProve p c in
        if l : bool then Ok (Some a)
        else
          let* c := MakeBinary second a b in
          let* r := parent_CanProve p c in
          Ok (if r : bool then Some b else None)
    | None => Ok None
    end in
  match decided with
  | Some e => Ok (Some e)
  | None => let* e := MakeBinary k a b in let* e := MaybeSimplify e in Ok (Some e)
  end.

Definition SymMinLower (a b : option expr) : result (option expr) :=
  match a, b with Some a, Some b => SymSelect KMin KLe KGe a b | _, _ => Ok None end.

Definition SymMinUpper (a b : option expr) : result (option expr) :=
  match a, b with
  | None, _ => Ok b
  | _, None => Ok a
  | Some a, Some b => SymSelect KMin KLe KGe a b
  end.

Definition SymMaxLower (a b : option expr) : result (option expr) :=
  match a, b with
  | None, _ => Ok b
  | _, None => Ok a
  | Some a, Some b => SymSelect KMax KGe KLe a b
  end.

Definition SymMaxUpper (a b : option expr) : result (option expr) :=
  match a, b with Some a, Some b => SymSelect KMax KGe KLe a b | _, _ => Ok None end.

(** ** Arithmetic of intervals *)

Definition IntervalPreservesDtype (interval : IntSet) (operand_dtype result_dtype : DataType) : bool :=
  let preserves_domain :=
    Bool.eqb (IsUnsignedInt operand_dtype) (IsUnsignedInt result_dtype)
    && (GetBit operand_dtype <=? GetBit result_dtype) in
  forallb (fun bound =>
      match bound with
      | Some (ConstInt v d) =>
          ConstIntFitsDtype v d && ConstIntFitsDtype v operand_dtype && ConstIntFitsDtype v result_dtype
      | _ => preserves_domain
      end) [min_end interval; max_end interval].

Definition interval_of (lo hi : result (option expr)) : result IntSet :=
  let* lo := lo in let* hi := hi in Ok (MkSet lo hi).

Definition CombineAdd (a b : IntSet) : result IntSet :=
  interval_of (SymAdd (min_end a) (min_end b)) (SymAdd (max_end a) (max_end b)).

Definition CombineSub (a b : IntSet) : result IntSet :=
  interval_of (SymSub (min_end a) (max_end b)) (SymSub (max_end a) (min_end b)).

(** [CombineMul] once a single factor is on the right. *)
Definition CombineMulRhs (a b : IntSet) : result IntSet :=
  let* scaled := if is_single_point b then IsNonNeg (min_end b) else Ok false in
  if scaled : bool then
    interval_of (SymMul (min_end a) (min_end b)) (SymMul (max_end a) (min_end b))
  else
    let* flipped := if is_single_point b then IsNeg (min_end b) else Ok false in
    if flipped : bool then
      interval_of (SymMul (max_end a) (min_end b)) (SymMul (min_end a) (min_end b))
    else
      let* pa := IsNonNeg (min_end a) in
      let* both := if pa : bool then IsNonNeg (min_end b) else Ok false in
      if both : bool then
        interval_of (SymMul (min_end a) (min_end b)) (SymMul (max_end a) (max_end b))
      else Ok Everything.

Definition CombineMul (a b : IntSet) : result IntSet :=
  if is_single_point a && is_single_point b then
    let* val := SymMul (min_end a) (min_end b) in Ok (MkSet val val)
  else if is_single_point a && negb (is_single_point b) then CombineMulRhs b a
  else CombineMulRhs a b.

(** The positive literal a single-point set consists of. *)
Definition positive_divisor (b : IntSet) : option Z :=
  if is_single_point b then
    match min_end b with
    | Some (ConstInt v _) => if v <=? 0 then None else Some v
    | _ => None
    end
  else None.

Definition CombineFloorDiv (a b : IntSet) : result IntSet :=
  match positive_divisor b with
  | Some _ => interval_of (SymFloorDiv (min_end a) (min_end b)) (SymFloorDiv (max_end a) (min_end b))
  | None => Ok Everything
  end.

Definition CombineFloorMod (b : IntSet) : IntSet :=
  match positive_divisor b with
  | Some v => MkSet (Some (MakeConstInt 0 INT64)) (Some (MakeConstInt (v - 1) INT64))
  | None => Everything
  end.

Definition CombineMin (a b : IntSet) : result IntSet :=
  interval_of (SymMinLower (min_end a) (min_end b)) (SymMinUpper (max_end a) (max_end b)).

Definition CombineMax (a b : IntSet) : result IntSet :=
  interval_of (SymMaxLower (min_end a) (min_end b)) (SymMaxUpper (max_end a) (max_end b)).

Definition BoolInterval : IntSet :=
  MkSet (Some (MakeConstInt 0 INT64)) (Some (MakeConstInt 1 INT64)).

(** ** The analyzer *)

Fixpoint VisitExpr (m : SetMap) (e : expr) : result IntSet :=
  match e with
  | ConstInt v d => Ok (if ConstIntFitsDtype v d then SinglePoint e else Everything)
  | ConstBool _ => Ok (SinglePoint e)
  | Var _ id _ => Ok (default (SinglePoint e) (m !! id))
  | ConstFloat _ _ | Leaf _ _ _ => Ok Everything
  | Binary KAdd l r _ =>
      let* a := VisitExpr m l in let* b := VisitExpr m r in CombineAdd a b
  | Binary KSub l r _ =>
      let* a := VisitExpr m l in let* b := VisitExpr m r in CombineSub a b
  | Binary KMul l r _ =>
      let* a := VisitExpr m l in let* b := VisitExpr m r in CombineMul a b
  | Binary KMin l r _ =>
      let* a := VisitExpr m l in let* b := VisitExpr m r in CombineMin a b
  | Binary KMax l r _ =>
      let* a := VisitExpr m l in let* b := VisitExpr m r in CombineMax a b
  | Binary KFloorDiv l r dtype =>
      if negb (FloorDivModOperandsFitDtype l r dtype) then Ok Everything
      else
        let* a := VisitExpr m l in
        let* b := VisitExpr m r in
        let* dl := GetScalarDtype l in
        if negb (IntervalPreservesDtype a dl dtype) then Ok Everything
        else
          let* dr := GetScalarDtype r in
          if negb (IntervalPreservesDtype b dr dtype) then Ok Everything else CombineFloorDiv a b
  | Binary KFloorMod l r dtype =>
      if negb (FloorDivModOperandsFitDtype l r dtype) then Ok Everything
      else
        let* _ := VisitExpr m l in
        let* b := VisitExpr m r in
        let* dr := GetScalarDtype r in
        Ok (if negb (IntervalPreservesDtype b dr dtype) then Everything else CombineFloorMod b)
  | Binary (KEq | KNe | KLt | KLe | KGt | KGe | KAnd | KOr | KXor) _ _ _ => Ok BoolInterval
  | Binary (KFloatDiv | KPow | KBitAnd | KBitOr | KBitXor | KBitShiftLeft | KBitShiftRight) _ _ _ =>
      Ok Everything
  | Unary KNeg o _ =>
      let* a := VisitExpr m o in interval_of (SymNeg (max_end a)) (SymNeg (min_end a))
  | Unary KNot _ _ => Ok BoolInterval
  | Unary (KAbs | KBitNot) _ _ => Ok Everything
  | Unary KCast o dst =>
      let* src := GetScalarDtype o in
      if (GetBit dst >=? GetBit src) && Bool.eqb (IsInt dst) (IsInt src) then
        let* interval := VisitExpr m o in
        Ok (if negb (IntervalPreservesDtype interval src dst) then Everything else interval)
      else Ok Everything
  end.

Definition Update (m : SetMap) (id : positive) (s : IntSet) : SetMap := <[id := s]> m.

Definition Unbind (m : SetMap) (id : positive) : SetMap := delete id m.

(** From the half-open range to the closed one. *)
Definition Bind (m : SetMap) (id : positive) (min_val max_val_exclusive : expr) : result SetMap :=
  let* sub_expr := MakeBinary KSub max_val_exclusive (MakeConstInt 1 INT64) in
  let* folded := TryConstFold sub_expr in
  let* max_inclusive := match folded with Some e => Ok e | None => MaybeSimplify sub_expr end in
  Ok (<[id := MkSet (Some min_val) (Some max_inclusive)]> m).

(** ** Constraints *)

(** The lambda [NumericScalarType]. *)
Definition NumericScalarType (e : expr) : option DataType :=
  match scalar_type e with
  | Some d => if IsInt d || IsFloat d then Some d else None
  | None => None
  end.

(** The lambda [MatchesVarCategory], for an end that may be missing. *)
Definition MatchesVarCategory (var_type : DataType) (bound : option expr) : bool :=
  match bound with
  | None => true
  | Some e =>
      match NumericScalarType e with
      | Some d => Bool.eqb (IsInt d) (IsInt var_type)
      | None => false
      end
  end.

(** The lambda [StrictBound]. *)
Definition StrictBound (bound : expr) (increment : bool) : result expr :=
  match NumericScalarType bound with
  | Some d =>
      if IsInt d then
        let* e := MakeBinary (if increment then KAdd else KSub) bound (MakeConstInt 1 INT64) in
        MaybeSimplify e
      else Ok bound
  | None => Ok bound
  end.

(** The set a comparison gives the variable on its left ([true]) or on its
    right, from the expression on the other side. *)
Definition side_set (k : binkind) (left_ : bool) (other : expr) : result IntSet :=
  match k, left_ with
  | KGe, true | KLe, false => Ok (MkSet (Some other) None)
  | KGe, false | KLe, true => Ok (MkSet None (Some other))
  | KGt, true | KLt, false => let* e := StrictBound other true in Ok (MkSet (Some e) None)
  | KGt, false | KLt, true => let* e := StrictBound other false in Ok (MkSet None (Some e))
  | _, _ => Ok (SinglePoint other)
  end.

End Sets.

(** ** Scopes *)

Section Scopes.
Context `{PtrEq} `{Libm}.

(** The parent as it answers while the map is the given one: it looks its
    variables up in the map the scope is changing. *)
Context (parent_at : SetMap -> option Parent).

(** The map inside the scope, and the sets of the tightened variables before,
    the last tightening first. *)
Definition SetRecovery := list (positive * IntSet).

Definition TryTighten (s : SetMap * SetRecovery) (var : expr) (id : positive) (new_set : IntSet)
    : result (SetMap * SetRecovery) :=
  let '(m, recovery) := s in
  if set_is_everything new_set then Ok s
  else match NumericScalarType var with
  | None => Ok s
  | Some var_type =>
      if negb (MatchesVarCategory var_type (min_end new_set)) then Ok s
      else if negb (MatchesVarCategory var_type (max_end new_set)) then Ok s
      else
        let old := default Everything (m !! id) in
        if negb (MatchesVarCategory var_type (min_end old)) then Ok s
        else if negb (MatchesVarCategory var_type (max_end old)) then Ok s
        else
          let* new := interval_of (SymMaxLower (parent_at m) (min_end old) (min_end new_set))
                                  (SymMinUpper (parent_at m) (max_end old) (max_end new_set)) in
          Ok (<[id := new]> m, (id, old) :: recovery)
  end.

(** One side of a comparison: tighten it if it is a variable. *)
Definition tighten_side (s : SetMap * SetRecovery) (k : binkind) (left_ : bool) (side other : expr)
    : result (SetMap * SetRecovery) :=
  match as_var side with
  | Some (id, _) => let* new := side_set (parent_at s.1) k left_ other in TryTighten s side id new
  | None => Ok s
  end.

Fixpoint TryParse (s : SetMap * SetRecovery) (e : expr) : result (SetMap * SetRecovery) :=
  match e with
  | Binary ((KGe | KGt | KLe | KLt | KEq) as k) l r _ =>
      let* s := tighten_side s k true l r in tighten_side s k false r l
  | Binary KAnd l r _ => let* s := TryParse s l in TryParse s r
  | _ => Ok s
  end.

Definition EnterConstraint (m : SetMap) (constraint : expr) : result (SetMap * SetRecovery) :=
  TryParse (m, []) constraint.

(** The recovery function: the last tightening is undone first. *)
Fixpoint Recover (m : SetMap) (recovery : SetRecovery) : SetMap :=
  match recovery with
  | [] => m
  | (id, s) :: rest =>
      Recover (if set_is_everything s then delete id m else <[id := s]> m) rest
  end.

End Scopes.
