(* ===== verification/IntSetSound.v ===== *)
(** * Symbolic integer sets are right

    The ends of an interval denote integers below and above the value the
    interval stands for; the arithmetic of intervals, the visitor, [Bind] and
    the constraints keep this, for expressions over [INT64]. *)

From Stdlib Require Import ZArith Lia Bool List.
From stdpp Require Import base gmap list option.
From S2P Require Import Prelude Dtype IntOps ScalarExpr ConstFold ConstIntBound PatternMatch.
From S2P Require Import RewriteSimplify IntSet.

Section Ends.
Context `{PtrEq} `{Libm} `{VarTypes} (rho : Env).

(** ** What the analyzer relies on *)

(** The parent's answers are right in the environment. *)
Class ParentSound (p : Parent) : Prop := {
  Simplify_means e e' : good e -> parent_Simplify p e = Ok e' -> means rho e e';
  CanProve_true c v :
    good c -> scalar_type c = Some BOOL -> parent_CanProve p c = Ok true -> eval ideal rho c = Some v ->
    v = VBool true;
  CanProveGreaterEqual_true e lower z :
    good e -> parent_CanProveGreaterEqual p e lower = Ok true -> eval ideal rho e = Some (VInt z) -> lower <= z;
  CanProveLess_true e upper z :
    good e -> parent_CanProveLess p e upper = Ok true -> eval ideal rho e = Some (VInt z) -> z < upper
}.

(** [e] is an [INT64] expression with value [z]. *)
Definition denotes (e : expr) (z : Z) : Prop :=
  good e /\ scalar_type e = Some INT64 /\ eval ideal rho e = Some (VInt z).

(** An end that is finite denotes an integer on the side [R] of [v]. *)
Definition end_ok (R : Z -> Z -> Prop) (o : option expr) (v : Z) : Prop :=
  match o with Some e => exists z, denotes e z /\ R z v | None => True end.

Definition set_ok (s : IntSet) (v : Z) : Prop := end_ok Z.le (min_end s) v /\ end_ok Z.ge (max_end s) v.

Definition set_map_ok (m : SetMap) : Prop :=
  forall id s z, m !! id = Some s -> var_type id = Some INT64 -> var_val rho id = VInt z -> set_ok s z.

Lemma Everything_ok v : set_ok Everything v.
Proof. by split. Qed.

#[local] Hint Resolve Everything_ok : core.

Lemma SinglePoint_ok e z : denotes e z -> set_ok (SinglePoint e) z.
Proof. intros Hd. split; (exists z; split; [done | lia]). Qed.

Lemma ConstInt_denotes v : in_int64 v = true -> denotes (ConstInt v INT64) v.
Proof. intros Hv. by split_and!; [split | |]. Qed.

(** ** Arithmetic of ends *)

Context (parent_ : option Parent) (Hp : forall p, parent_ = Some p -> ParentSound p).

Lemma MaybeSimplify_denotes e z e' : denotes e z -> MaybeSimplify parent_ e = Ok e' -> denotes e' z.
Proof.
  intros (Hg & Ht & Hv). unfold MaybeSimplify. destruct parent_ as [p|]; [|by intros [= <-]].
  intros Hs. destruct (Hp p eq_refl) as [Hm _ _ _]. destruct (Hm e e' Hg Hs) as (Hg' & Ht' & Hv').
  split_and!; [done | congruence | auto].
Qed.

Lemma node_denotes k a b x y z :
  class_of k = CArith -> denotes a x -> denotes b y -> int_op k ideal INT64 x y = Some (VInt z) ->
  MakeBinary k a b = Ok (Binary k a b INT64) /\ denotes (Binary k a b INT64) z.
Proof.
  intros Hk (Ga & Ta & Va) (Gb & Tb & Vb) Hz.
  destruct (MakeBinary_good k a b INT64 Ga Gb) as (Hm & Hg & _).
  { unfold operands_ok. by rewrite Hk, Ta, Tb. }
  { done. }
  assert (Hr : result_dtype k INT64 = INT64) by (by destruct k).
  rewrite Hr in *. split; [done |]. split_and!; [done | done |]. cbn [eval]. by rewrite Va, Vb.
Qed.

Lemma SymBinary_ok k R a b (Ra Rb : Z -> Z -> Prop) x y v o :
  class_of k = CArith ->
  (forall x' y', Ra x' x -> Rb y' y -> exists z, int_op k ideal INT64 x' y' = Some (VInt z) /\ R z v) ->
  end_ok Ra a x -> end_ok Rb b y -> SymBinary parent_ k a b = Ok o -> end_ok R o v.
Proof.
  intros Hk Hop Ha Hb. destruct a as [a|], b as [b|]; cbn [SymBinary]; try by intros [= <-].
  destruct Ha as (x' & Da & Hx), Hb as (y' & Db & Hy). destruct (Hop x' y' Hx Hy) as (z & Hz & HR).
  destruct (node_denotes k a b x' y' z Hk Da Db Hz) as [-> Dn]. cbn [bind].
  intros (e & He & [= <-])%bind_ok. exists z. split; [by eapply MaybeSimplify_denotes | done].
Qed.

Lemma SymNeg_ok R a (Ra : Z -> Z -> Prop) x o :
  (forall x', Ra x' x -> R (- x') (- x)) ->
  end_ok Ra a x -> SymNeg parent_ a = Ok o -> end_ok R o (- x).
Proof.
  intros Hop Ha. destruct a as [a|]; cbn [SymNeg]; [|by intros [= <-]].
  destruct Ha as (x' & (Ga & Ta & Va) & Hx). unfold MakeNeg.
  rewrite (proj2 (GetScalarDtype_ok _ _) Ta). cbn [bind]. intros (e & He & [= <-])%bind_ok.
  exists (- x'). split; [|auto]. eapply MaybeSimplify_denotes; [|done].
  destruct (MakeUnary_good KNeg a INT64 Ga Ta eq_refl) as [_ Hg].
  split_and!; [done | done |]. cbn [eval]. by rewrite Va.
Qed.

(** [SymSelect] is the minimum or the maximum, however it finds it. *)
Definition pick (k : binkind) (x y : Z) : Z := match k with KMin => Z.min x y | _ => Z.max x y end.

Definition selects (k first second : binkind) : Prop :=
  (k = KMin /\ first = KLe /\ second = KGe) \/ (k = KMax /\ first = KGe /\ second = KLe).

Lemma compared k x y : int_op k ideal BOOL x y = Some (VBool true) ->
  match k with KLe => x <= y | KGe => y <= x | _ => True end.
Proof.
  destruct k; try done; cbn [int_op]; intros [_ Hx]%bool_result_some; injection Hx as Hx; symmetry in Hx; bool_to_prop; lia.
Qed.

Lemma pick_decided k first second x y :
  selects k first second ->
  (int_op first ideal BOOL x y = Some (VBool true) -> pick k x y = x) /\
  (int_op second ideal BOOL x y = Some (VBool true) -> pick k x y = y).
Proof. intros [(-> & -> & ->)|(-> & -> & ->)]; split; intros Hx%compared; cbn; lia. Qed.

Lemma decides_order k a b x y p c :
  class_of k = CCompare -> ParentSound p -> denotes a x -> denotes b y ->
  MakeBinary k a b = Ok c -> parent_CanProve p c = Ok true -> int_op k ideal BOOL x y = Some (VBool true).
Proof.
  intros Hk [_ Hc _ _] (Ga & Ta & Va) (Gb & Tb & Vb) Hm Hpr.
  destruct (MakeBinary_good k a b INT64 Ga Gb) as (Hm' & Hg & _).
  { unfold operands_ok. by rewrite Hk, Ta, Tb. }
  { done. }
  rewrite Hm in Hm'. injection Hm' as ->.
  assert (Hr : result_dtype k INT64 = BOOL) by (by destruct k). rewrite Hr in *.
  destruct (int_op k ideal BOOL x y) as [v|] eqn:E; [|by destruct k].
  f_equal. apply (Hc _ v Hg eq_refl Hpr). cbn [eval]. by rewrite Va, Vb.
Qed.

Lemma SymSelect_ok k first second a b x y o :
  selects k first second -> denotes a x -> denotes b y -> SymSelect parent_ k first second a b = Ok o ->
  exists e, o = Some e /\ denotes e (pick k x y).
Proof.
  intros Hk Da Db. destruct (pick_decided k first second x y Hk) as [Hx Hy].
  assert (class_of first = CCompare /\ class_of second = CCompare) as [Cf Cs]
    by (by destruct Hk as [(-> & -> & ->)|(-> & -> & ->)]).
  unfold SymSelect. intros (d & Hd & Ho)%bind_ok.
  assert (match d with Some e => denotes e (pick k x y) | None => True end) as Hdec.
  { destruct parent_ as [p|]; [|by injection Hd as <-]. specialize (Hp p eq_refl).
    apply bind_ok in Hd as (c & Hc & Hd). apply bind_ok in Hd as (l & Hl & Hd). destruct l.
    - injection Hd as <-. rewrite Hx; [done |]. by eapply decides_order.
    - apply bind_ok in Hd as (c' & Hc' & Hd). apply bind_ok in Hd as (r & Hr & Hd). injection Hd as <-.
      destruct r; [|done]. rewrite Hy; [done |]. by eapply decides_order. }
  destruct d as [e|]; [injection Ho as <-; by exists e |].
  destruct (node_denotes k a b x y (pick k x y)) as [Hm Dn]; [| done | done | |].
  1,2: by destruct Hk as [(-> & _)|(-> & _)].
  rewrite Hm in Ho. cbn [bind] in Ho. apply bind_ok in Ho as (e & He & [= <-]). exists e. split; [done |].
  by eapply MaybeSimplify_denotes.
Qed.

Lemma SymSelect_end k first second (Ra Rb R : Z -> Z -> Prop) a b x y o :
  selects k first second ->
  (forall x' y', Ra x' x -> Rb y' y -> R (pick k x' y') (pick k x y)) ->
  end_ok Ra (Some a) x -> end_ok Rb (Some b) y -> SymSelect parent_ k first second a b = Ok o ->
  end_ok R o (pick k x y).
Proof.
  intros Hk HR (x' & Da & Hx) (y' & Db & Hy) Ho.
  destruct (SymSelect_ok k first second a b x' y' o Hk Da Db Ho) as (e & -> & De).
  exists (pick k x' y'). auto.
Qed.

Lemma min_selects : selects KMin KLe KGe.
Proof. by left. Qed.
Lemma max_selects : selects KMax KGe KLe.
Proof. by right. Qed.

Lemma SymMinLower_ok a b x y o :
  end_ok Z.le a x -> end_ok Z.le b y -> SymMinLower parent_ a b = Ok o -> end_ok Z.le o (Z.min x y).
Proof.
  destruct a as [a|], b as [b|]; cbn [SymMinLower]; try by intros _ _ [= <-].
  apply (SymSelect_end KMin KLe KGe); [apply min_selects | cbn; lia].
Qed.

Lemma SymMinUpper_ok a b x y o :
  end_ok Z.ge a x -> end_ok Z.ge b y -> SymMinUpper parent_ a b = Ok o -> end_ok Z.ge o (Z.min x y).
Proof.
  destruct a as [a|], b as [b|]; cbn [SymMinUpper].
  - apply (SymSelect_end KMin KLe KGe); [apply min_selects | cbn; lia].
  - intros (z & Dz & Hz) _ [= <-]. exists z. split; [done | lia].
  - intros _ (z & Dz & Hz) [= <-]. exists z. split; [done | lia].
  - by intros _ _ [= <-].
Qed.

Lemma SymMaxLower_ok a b x y o :
  end_ok Z.le a x -> end_ok Z.le b y -> SymMaxLower parent_ a b = Ok o -> end_ok Z.le o (Z.max x y).
Proof.
  destruct a as [a|], b as [b|]; cbn [SymMaxLower].
  - apply (SymSelect_end KMax KGe KLe); [apply max_selects | cbn; lia].
  - intros (z & Dz & Hz) _ [= <-]. exists z. split; [done | lia].
  - intros _ (z & Dz & Hz) [= <-]. exists z. split; [done | lia].
  - by intros _ _ [= <-].
Qed.

Lemma SymMaxUpper_ok a b x y o :
  end_ok Z.ge a x -> end_ok Z.ge b y -> SymMaxUpper parent_ a b = Ok o -> end_ok Z.ge o (Z.max x y).
Proof.
  destruct a as [a|], b as [b|]; cbn [SymMaxUpper]; try by intros _ _ [= <-].
  apply (SymSelect_end KMax KGe KLe); [apply max_selects | cbn; lia].
Qed.

(** ** Arithmetic of intervals *)

Lemma denotes_fun e z z' : denotes e z -> denotes e z' -> z = z'.
Proof. intros (_ & _ & E) (_ & _ & E'). congruence. Qed.

Lemma single_point_denotes s v : is_single_point s = true -> set_ok s v -> exists e, s = SinglePoint e /\ denotes e v.
Proof.
  destruct s as [[a|] [b|]]; cbn [is_single_point min_end max_end]; try done.
  intros ->%same_eq [(z & Dz & Hz) (z' & Dz' & Hz')]. assert (z = z') as <- by by eapply denotes_fun.
  exists b. split; [done |]. assert (z = v) as <- by lia. done.
Qed.

Lemma interval_of_ok lo hi s v :
  (forall o, lo = Ok o -> end_ok Z.le o v) -> (forall o, hi = Ok o -> end_ok Z.ge o v) ->
  interval_of lo hi = Ok s -> set_ok s v.
Proof. intros Hl Hh (l & El & (h & Eh & [= <-])%bind_ok)%bind_ok. by split; cbn; auto. Qed.

Lemma IsNonNeg_ok R o v : end_ok R o v -> IsNonNeg parent_ o = Ok true ->
  exists e z, o = Some e /\ denotes e z /\ R z v /\ 0 <= z.
Proof.
  destruct o as [e|]; [|done]. intros (z & De & Hz) Hn. exists e, z. split_and!; try done.
  destruct De as (Ge & Te & Ve). cbn [IsNonNeg] in Hn.
  assert (forall p, parent_ = Some p -> parent_CanProveGreaterEqual p e 0 = Ok true -> 0 <= z) as Hpar.
  { intros p E. destruct (Hp p E) as [_ _ Hge _]. intros Hpr. by apply (Hge e 0 z). }
  destruct e as [|c d| | | | |]; [| injection Hn as Hn; cbn in Ve; inv_eval; subst; bool_to_prop; lia | ..];
    (destruct parent_ as [p|]; [by apply (Hpar p) | done]).
Qed.

Lemma IsNeg_ok R o v : end_ok R o v -> IsNeg parent_ o = Ok true ->
  exists e z, o = Some e /\ denotes e z /\ R z v /\ z < 0.
Proof.
  destruct o as [e|]; [|done]. intros (z & De & Hz) Hn. exists e, z. split_and!; try done.
  destruct De as (Ge & Te & Ve). cbn [IsNeg] in Hn.
  assert (forall p, parent_ = Some p -> parent_CanProveLess p e 0 = Ok true -> z < 0) as Hpar.
  { intros p E. destruct (Hp p E) as [_ _ _ Hlt]. intros Hpr. by apply (Hlt e 0 z). }
  destruct e as [|c d| | | | |]; [| injection Hn as Hn; cbn in Ve; inv_eval; subst; bool_to_prop; lia | ..];
    (destruct parent_ as [p|]; [by apply (Hpar p) | done]).
Qed.

(** The ends of a combination, each an operation on two ends. *)
Ltac by_ends k f Ra Rb x y :=
  intros ?; apply (SymBinary_ok k _ _ _ Ra Rb x y); [done | | done | done];
  intros x' y' ??; exists (f x' y'); split; [done | nia].

Lemma CombineAdd_ok a b x y s : set_ok a x -> set_ok b y -> CombineAdd parent_ a b = Ok s -> set_ok s (x + y).
Proof.
  intros [Al Ah] [Bl Bh]. apply interval_of_ok;
    [by_ends KAdd Z.add Z.le Z.le x y | by_ends KAdd Z.add Z.ge Z.ge x y].
Qed.

Lemma CombineSub_ok a b x y s : set_ok a x -> set_ok b y -> CombineSub parent_ a b = Ok s -> set_ok s (x - y).
Proof.
  intros [Al Ah] [Bl Bh]. apply interval_of_ok;
    [by_ends KSub Z.sub Z.le Z.ge x y | by_ends KSub Z.sub Z.ge Z.le x y].
Qed.

Lemma eq_end e z : denotes e z -> end_ok eq (Some e) z.
Proof. intros De. by exists z. Qed.

Lemma CombineMulRhs_ok a b x y s :
  set_ok a x -> set_ok b y -> CombineMulRhs parent_ a b = Ok s -> set_ok s (x * y).
Proof.
  intros [Al Ah] Hb. unfold CombineMulRhs. intros (c & Hc & Hs)%bind_ok. destruct c.
  { destruct (is_single_point b) eqn:Eb; [|done]. destruct (single_point_denotes b y Eb Hb) as (e & -> & De).
    pose proof (eq_end e y De) as He. destruct (IsNonNeg_ok eq _ y He Hc) as (? & ? & _ & _ & -> & Hy).
    revert Hs. apply interval_of_ok; [by_ends KMul Z.mul Z.le (@eq Z) x y | by_ends KMul Z.mul Z.ge (@eq Z) x y]. }
  apply bind_ok in Hs as (f & Hf & Hs). destruct f.
  { destruct (is_single_point b) eqn:Eb; [|done]. destruct (single_point_denotes b y Eb Hb) as (e & -> & De).
    pose proof (eq_end e y De) as He. destruct (IsNeg_ok eq _ y He Hf) as (? & ? & _ & _ & -> & Hy).
    revert Hs. apply interval_of_ok; [by_ends KMul Z.mul Z.ge (@eq Z) x y | by_ends KMul Z.mul Z.le (@eq Z) x y]. }
  destruct Hb as [Bl Bh]. apply bind_ok in Hs as (pa & Hpa & Hs). apply bind_ok in Hs as (both & Hpb & Hs).
  destruct both; [|by injection Hs as <-]. destruct pa; [|done].
  destruct (IsNonNeg_ok Z.le _ x Al Hpa) as (ea & za & Ea & Da & Hza & Hpos).
  destruct (IsNonNeg_ok Z.le _ y Bl Hpb) as (eb & zb & Eb & Db & Hzb & Hpos').
  revert Hs. apply interval_of_ok; [|by_ends KMul Z.mul Z.ge Z.ge x y].
  rewrite Ea, Eb. intros o. apply (SymBinary_ok KMul _ _ _ (fun z _ => z = za) (fun z _ => z = zb) x y); [done | | |].
  - intros x' y' -> ->. exists (za * zb). split; [done | nia].
  - by exists za.
  - by exists zb.
Qed.

Lemma CombineMul_ok a b x y s : set_ok a x -> set_ok b y -> CombineMul parent_ a b = Ok s -> set_ok s (x * y).
Proof.
  intros Ha Hb. unfold CombineMul. destruct (is_single_point a) eqn:Ea, (is_single_point b) eqn:Eb; cbn [andb negb];
    try (by apply CombineMulRhs_ok); [|rewrite Z.mul_comm; by apply CombineMulRhs_ok].
  destruct (single_point_denotes a x Ea Ha) as (ea & -> & Da), (single_point_denotes b y Eb Hb) as (eb & -> & Db).
  intros (o & Ho & [= <-])%bind_ok.
  assert (He : end_ok eq o (x * y)).
  { apply (SymBinary_ok KMul eq (Some ea) (Some eb) eq eq x y); [done | | by apply eq_end | by apply eq_end | done].
    intros x' y' -> ->. by exists (x * y). }
  destruct o as [e|]; [|done]. destruct He as (z & De & ->). by apply (SinglePoint_ok e).
Qed.

Lemma positive_divisor_ok b y v : positive_divisor b = Some v -> set_ok b y ->
  y = v /\ 0 < y /\ in_int64 y = true /\ exists e, b = SinglePoint e /\ denotes e y.
Proof.
  intros Hd Hb. unfold positive_divisor in Hd. destruct (is_single_point b) eqn:Eb; [|done].
  destruct (single_point_denotes b y Eb Hb) as (e & -> & De). cbn [min_end SinglePoint] in Hd.
  destruct e as [|c d| | | | |]; try done. destruct (Z.leb_spec c 0); [done |]. injection Hd as ->.
  pose proof De as (Ge & Te & Ve). destruct Ge as [_ Fe]. cbn in Fe, Te, Ve. injection Te as ->. inv_eval.
  subst. cbn in *. simplify_eq. split_and!; try done. eauto.
Qed.

Lemma CombineFloorDiv_ok a b x y s :
  set_ok a x -> set_ok b y -> CombineFloorDiv parent_ a b = Ok s -> set_ok s (x / y).
Proof.
  intros [Al Ah] Hb. unfold CombineFloorDiv. destruct (positive_divisor b) as [v|] eqn:Ev; [|by intros [= <-]].
  destruct (positive_divisor_ok b y v Ev Hb) as (_ & Hpos & _ & e & -> & De). pose proof (eq_end e y De) as He.
  apply interval_of_ok; intros o;
    [apply (SymBinary_ok KFloorDiv _ _ _ Z.le (@eq Z) x y) | apply (SymBinary_ok KFloorDiv _ _ _ Z.ge (@eq Z) x y)];
    try done; intros x' y' Hx ->; exists (x' / y); cbn [int_op]; rewrite (proj2 (Z.eqb_neq y 0)) by lia;
    (split; [done |]).
  - apply Z.div_le_mono; lia.
  - apply Z.le_ge, Z.div_le_mono; lia.
Qed.

Lemma CombineFloorMod_ok b x y : set_ok b y -> set_ok (CombineFloorMod b) (x mod y).
Proof.
  intros Hb. unfold CombineFloorMod. destruct (positive_divisor b) as [v|] eqn:Ev; [|done].
  destruct (positive_divisor_ok b y v Ev Hb) as (<- & Hpos & Hy & _). apply in_int64_iff in Hy.
  pose proof (Z.mod_pos_bound x y Hpos). split; cbn [min_end max_end MakeConstInt].
  - exists 0. split; [by apply ConstInt_denotes | lia].
  - exists (y - 1). split; [apply ConstInt_denotes, in_int64_iff; lia64 | lia].
Qed.

Lemma CombineMin_ok a b x y s : set_ok a x -> set_ok b y -> CombineMin parent_ a b = Ok s -> set_ok s (Z.min x y).
Proof. intros [Al Ah] [Bl Bh]. apply interval_of_ok; intros o; [by apply SymMinLower_ok | by apply SymMinUpper_ok]. Qed.

Lemma CombineMax_ok a b x y s : set_ok a x -> set_ok b y -> CombineMax parent_ a b = Ok s -> set_ok s (Z.max x y).
Proof. intros [Al Ah] [Bl Bh]. apply interval_of_ok; intros o; [by apply SymMaxLower_ok | by apply SymMaxUpper_ok]. Qed.

(** ** The visitor *)

(** No conversion on the way to a leaf: the visitor follows the operands of
    these operations only. *)
Fixpoint cast_free (e : expr) : bool :=
  match e with
  | Binary (KAdd | KSub | KMul | KMin | KMax | KFloorDiv | KFloorMod) l r _ => cast_free l && cast_free r
  | Unary KNeg o _ => cast_free o
  | Unary KCast _ _ => false
  | _ => true
  end.

Lemma good_int64_operands k l r : class_of k = CArith -> good (Binary k l r INT64) ->
  good l /\ good r /\ scalar_type l = Some INT64 /\ scalar_type r = Some INT64.
Proof.
  intros Hk Hg. destruct (good_binary _ _ _ _ Hg) as [Gl Gr]. destruct Hg as [Hw _]. cbn [wt] in Hw.
  rewrite Hk in Hw. bool_to_prop. unfold has_type in *.
  repeat match goal with E : bool_decide _ = true |- _ => apply bool_decide_eq_true in E end. done.
Qed.

Lemma arith_eval_inv k l r v : class_of k = CArith -> eval ideal rho (Binary k l r INT64) = Some (VInt v) ->
  exists x y, eval ideal rho l = Some (VInt x) /\ eval ideal rho r = Some (VInt y) /\
    int_op k ideal INT64 x y = Some (VInt v).
Proof.
  intros Hk (a & b & Ea & Eb & Hop)%eval_binary_inv. destruct a as [x|a], b as [y|b]; try done; [by exists x, y |].
  by destruct k.
Qed.

(** A binary node, from what is known of its operands. *)
Lemma binary_set m k l r s v :
  good (Binary k l r INT64) -> cast_free (Binary k l r INT64) = true ->
  (forall a x, cast_free l = true -> eval ideal rho l = Some (VInt x) -> VisitExpr parent_ m l = Ok a -> set_ok a x) ->
  (forall b y, cast_free r = true -> eval ideal rho r = Some (VInt y) -> VisitExpr parent_ m r = Ok b -> set_ok b y) ->
  eval ideal rho (Binary k l r INT64) = Some (VInt v) ->
  VisitExpr parent_ m (Binary k l r INT64) = Ok s -> set_ok s v.
Proof.
  intros Hg Hc Hl Hr Hv Hs. assert (Hk : class_of k = CArith).
  { destruct Hg as [Hw _]. cbn [wt] in Hw. apply andb_true_iff in Hw as [_ Hw]. by destruct k. }
  destruct (arith_eval_inv k l r v Hk Hv) as (x & y & El & Er & Hop).
  destruct k; try done; cbn [VisitExpr cast_free] in Hs, Hc; try (by injection Hs as <-);
    apply andb_true_iff in Hc as [Cl Cr].
  1-3,6-7: apply bind_ok in Hs as (a & Ha & Hs); apply bind_ok in Hs as (b & Hb & Hs);
    specialize (Hl a x Cl El Ha); specialize (Hr b y Cr Er Hb); cbn in Hop; simplify_eq.
  - by apply (CombineAdd_ok a b).
  - by apply (CombineSub_ok a b).
  - by apply (CombineMul_ok a b).
  - by apply (CombineMin_ok a b).
  - by apply (CombineMax_ok a b).
  - destruct (negb _); [by injection Hs as <- |].
    apply bind_ok in Hs as (a & Ha & Hs). apply bind_ok in Hs as (b & Hb & Hs).
    specialize (Hl a x Cl El Ha). specialize (Hr b y Cr Er Hb).
    apply bind_ok in Hs as (dl & _ & Hs). destruct (negb _); [by injection Hs as <- |].
    apply bind_ok in Hs as (dr & _ & Hs). destruct (negb _); [by injection Hs as <- |].
    cbn [int_op] in Hop. destruct (y =? 0); [done |]. cbn in Hop. simplify_eq. by apply (CombineFloorDiv_ok a b).
  - destruct (negb _); [by injection Hs as <- |].
    apply bind_ok in Hs as (a & Ha & Hs). apply bind_ok in Hs as (b & Hb & Hs).
    specialize (Hr b y Cr Er Hb). apply bind_ok in Hs as (dr & _ & [= <-]). destruct (negb _); [done |].
    cbn [int_op] in Hop. destruct (y =? 0); [done |]. cbn in Hop. simplify_eq. by apply (CombineFloorMod_ok b).
Qed.

Lemma VisitExpr_set m e : set_map_ok m -> forall s v,
  good e -> scalar_type e = Some INT64 -> cast_free e = true -> eval ideal rho e = Some (VInt v) ->
  VisitExpr parent_ m e = Ok s -> set_ok s v.
Proof.
  intros Hm. induction e as [iter id ty|n d|f d|t|k l IHl r IHr dt|k o IH dt|k id ty]; intros s v Hg Ht Hc Hv Hs;
    cbn [scalar_type] in Ht; try done; try (injection Ht as ->).
  - subst ty. cbn [VisitExpr] in Hs. injection Hs as <-. pose proof Hg as [Hw _]. cbn [wt] in Hw.
    apply andb_true_iff in Hw as [Hty _]. apply bool_decide_eq_true in Hty.
    assert (E : var_val rho id = VInt v) by (cbn in Hv; destruct (var_val rho id); [by injection Hv as -> | done]).
    destruct (m !! id) as [s|] eqn:El; [by eapply Hm | by apply SinglePoint_ok].
  - cbn [VisitExpr] in Hs. injection Hs as <-.
    repeat case_match; (apply Everything_ok || by apply SinglePoint_ok).
  - destruct (good_binary _ _ _ _ Hg) as [Gl Gr].
    assert (Hk : class_of k = CArith).
    { destruct Hg as [Hw _]. cbn [wt] in Hw. apply andb_true_iff in Hw as [_ Hw]. by destruct k. }
    destruct (good_int64_operands k l r Hk Hg) as (_ & _ & Tl & Tr).
    apply (binary_set m k l r); auto.
  - assert (Hk : k <> KNot).
    { intros ->. destruct Hg as [Hw _]. cbn [wt] in Hw. by apply andb_true_iff in Hw as [_ Hw]. }
    destruct k; try done; cbn [VisitExpr cast_free] in Hs, Hc; try (by injection Hs as <-).
    pose proof (good_unary _ _ _ Hg) as Go. destruct (good_unary_type _ _ _ Hg ltac:(done)) as [To _].
    cbn [eval] in Hv. destruct (eval ideal rho o) as [w|] eqn:Eo; [|done].
    destruct w as [x|]; [|done]. cbn in Hv. simplify_eq.
    apply bind_ok in Hs as (a & Ha & Hs). destruct (IH a x Go To Hc eq_refl Ha) as [Al Ah].
    revert Hs. apply interval_of_ok; intros q.
    + apply (SymNeg_ok Z.le _ Z.ge); [lia | done].
    + apply (SymNeg_ok Z.ge _ Z.le); [lia | done].
  - by injection Hs as <-.
Qed.

(** ** Constraints *)

(** A set recorded for a variable holds of its value. *)
Definition entry_ok (id : positive) (s : IntSet) : Prop :=
  forall z, var_type id = Some INT64 -> var_val rho id = VInt z -> set_ok s z.

Lemma set_map_insert m id s : set_map_ok m -> entry_ok id s -> set_map_ok (<[id := s]> m).
Proof.
  intros Hm Hs i s' z. rewrite lookup_insert. case_decide as E; [|by apply Hm].
  subst i. intros [= <-]. apply Hs.
Qed.

Lemma set_map_delete m id : set_map_ok m -> set_map_ok (delete id m).
Proof. intros Hm i s z. rewrite lookup_delete. case_decide; [done | apply Hm]. Qed.

Definition scope_ok (s : SetMap * SetRecovery) : Prop :=
  set_map_ok s.1 /\ Forall (fun e => entry_ok e.1 e.2) s.2.

Lemma old_entry_ok m id : set_map_ok m -> entry_ok id (default Everything (m !! id)).
Proof.
  intros Hm z Ht Hz. destruct (m !! id) as [s|] eqn:E; [by apply (Hm id) | apply Everything_ok].
Qed.

(** What a comparison says of its left operand, [x], or of its right one. *)
Lemma StrictBound_ok other y (increment : bool) e :
  denotes other y -> StrictBound parent_ other increment = Ok e -> denotes e (if increment then y + 1 else y - 1).
Proof.
  intros D. pose proof D as (Go & To & Vo). unfold StrictBound, NumericScalarType. rewrite To. cbn [IsInt].
  change (IsInt INT64 || IsFloat INT64) with true. change (IsInt INT64) with true. cbn [negb].
  intros (n & Hn & He)%bind_ok. eapply MaybeSimplify_denotes; [|done]. destruct increment.
  - destruct (node_denotes KAdd other (ConstInt 1 INT64) y 1 (y + 1)) as [Hm Dn]; try done.
    unfold MakeConstInt in Hn. congruence.
  - destruct (node_denotes KSub other (ConstInt 1 INT64) y 1 (y - 1)) as [Hm Dn]; try done.
    unfold MakeConstInt in Hn. congruence.
Qed.

Lemma compared_ints k (left_ : bool) x y :
  int_op k ideal BOOL (if left_ then x else y) (if left_ then y else x) = Some (VBool true) ->
  match k, left_ with
  | KGe, true | KLe, false => y <= x
  | KGe, false | KLe, true => x <= y
  | KGt, true | KLt, false => y + 1 <= x
  | KGt, false | KLt, true => x <= y - 1
  | KEq, _ => x = y
  | _, _ => True
  end.
Proof.
  destruct k; try done; cbn [int_op]; intros [_ Hx]%bool_result_some; injection Hx as Hx; symmetry in Hx;
    destruct left_; bool_to_prop; lia.
Qed.

(** The comparisons a constraint is read from. *)
Definition bounds_var (k : binkind) : bool :=
  match k with KGe | KGt | KLe | KLt | KEq => true | _ => false end.

Lemma side_set_ok k (left_ : bool) other x y s :
  bounds_var k = true -> denotes other y ->
  int_op k ideal BOOL (if left_ then x else y) (if left_ then y else x) = Some (VBool true) ->
  side_set parent_ k left_ other = Ok s -> set_ok s x.
Proof.
  intros Hk D Hop%compared_ints Hs.
  assert (Hstrict : forall inc e z, StrictBound parent_ other inc = Ok e ->
    z = (if inc : bool then y + 1 else y - 1) -> denotes e z) by (intros inc e z He ->; by eapply StrictBound_ok).
  destruct k; try done; destruct left_; cbn [side_set] in Hs; try (apply bind_ok in Hs as (e & He & Hs); specialize (Hstrict _ _ _ He eq_refl));
    injection Hs as <-; split; cbn [min_end max_end SinglePoint]; try done;
    (eexists; split; [eassumption | cbn in *; lia]).
Qed.

Lemma Recover_sets recovery : forall m, scope_ok (m, recovery) -> set_map_ok (Recover m recovery).
Proof.
  induction recovery as [|[id s] rest IH]; intros m [Hm Hr]; [done |]. cbn [Recover fst snd] in *.
  apply List.Forall_cons_iff in Hr as [Hid Hr]. apply IH. split; [|done]. cbn [fst].
  destruct (set_is_everything s); [by apply set_map_delete | by apply set_map_insert].
Qed.

Lemma Bind_sets m id lo hi l h v m' :
  set_map_ok m -> denotes lo l -> denotes hi h -> var_val rho id = VInt v -> l <= v < h ->
  Bind parent_ m id lo hi = Ok m' -> set_map_ok m'.
Proof.
  intros Hm Dl Dh Hv Hr. unfold Bind.
  destruct (node_denotes KSub hi (ConstInt 1 INT64) h 1 (h - 1)) as [Hmk Dn]; try done.
  unfold MakeConstInt. rewrite Hmk. cbn [bind]. intros (f & Hf & (mx & Hmx & [= <-])%bind_ok)%bind_ok.
  apply set_map_insert; [done |]. intros z Tz Vz. assert (z = v) as -> by congruence.
  split; cbn [min_end max_end]; [exists l; split; [done | lia] | exists (h - 1); split; [|lia]].
  destruct f as [e|].
  - injection Hmx as <-. destruct Dn as (Gn & _ & Vn). cbn [TryConstFold] in Hf.
    destruct (fold_means rho KSub hi (ConstInt 1 INT64) INT64 INT64 e Gn) as (G & T & V); [by apply Dh | done |].
    split_and!; [done | done | auto].
  - by eapply MaybeSimplify_denotes.
Qed.

End Ends.

(** ** Scopes *)

Section Scopes.
Context `{PtrEq} `{Libm} `{VarTypes} (rho : Env) (parent_at : SetMap -> option Parent).

(** The parent is right while the map is. *)
Hypothesis parents : forall m p, set_map_ok rho m -> parent_at m = Some p -> ParentSound rho p.

Lemma TryTighten_ok s var id new s' :
  scope_ok rho s -> entry_ok rho id new -> TryTighten parent_at s var id new = Ok s' -> scope_ok rho s'.
Proof.
  destruct s as [m recovery]. intros [Hm Hr] Hn Ht. unfold TryTighten in Ht. cbn [fst snd] in *.
  destruct (set_is_everything new); [by injection Ht as <- |].
  destruct (NumericScalarType var); [|by injection Ht as <-].
  repeat (destruct (negb _); [by injection Ht as <- |]).
  apply bind_ok in Ht as (n & Hi & [= <-]). pose proof (old_entry_ok rho m id Hm) as Ho. split; cbn [fst snd].
  - apply set_map_insert; [done |]. intros z Ht Hz. destruct (Ho z Ht Hz) as [Ol Oh], (Hn z Ht Hz) as [Nl Nh].
    revert Hi. apply interval_of_ok; intros o.
    + intros Hs. rewrite <- (Z.max_id z). exact (SymMaxLower_ok rho _ (fun p => parents m p Hm) _ _ z z o Ol Nl Hs).
    + intros Hs. rewrite <- (Z.min_id z). exact (SymMinUpper_ok rho _ (fun p => parents m p Hm) _ _ z z o Oh Nh Hs).
  - by constructor.
Qed.

Lemma tighten_side_ok s k (left_ : bool) side other dt s' :
  bounds_var k = true -> scope_ok rho s -> good side -> good other -> scalar_type side = scalar_type other ->
  eval ideal rho (if left_ then Binary k side other dt else Binary k other side dt) = Some (VBool true) ->
  tighten_side parent_at s k left_ side other = Ok s' -> scope_ok rho s'.
Proof.
  intros Hk Hs Gs Go Ht Hev Hc. unfold tighten_side in Hc.
  destruct side as [[|] id ty| | | | | |]; cbn [as_var] in Hc; try by injection Hc as <-.
  apply bind_ok in Hc as (new & Hnew & Hc). eapply TryTighten_ok; [done | | exact Hc].
  intros z Tz Vz. destruct Gs as [Ws _]. cbn [wt] in Ws. apply andb_true_iff in Ws as [Ws _].
  apply bool_decide_eq_true in Ws. cbn [scalar_type] in Ht. rewrite <- Ws, Tz in *.
  assert (Ev : eval ideal rho (Var false id (Some INT64)) = Some (VInt z)) by (cbn; by rewrite Vz).
  assert (exists y, eval ideal rho other = Some (VInt y) /\
    int_op k ideal dt (if left_ then z else y) (if left_ then y else z) = Some (VBool true)) as (y & Ey & Hop).
  { destruct left_; apply eval_binary_inv in Hev as (a & b & Ea & Eb & Hop); rewrite Ev in *; simplify_eq.
    - destruct b as [y|]; [by exists y | done].
    - destruct a as [y|]; [by exists y | done]. }
  assert (dt = BOOL) as ->.
  { destruct k; try done; cbn [int_op] in Hop; by apply bool_result_some in Hop as [? _]. }
  eapply (side_set_ok rho _ (fun p => parents s.1 p (proj1 Hs))); [done | | exact Hop | exact Hnew]. by split_and!.
Qed.

Lemma TryParse_ok e : forall s s',
  scope_ok rho s -> good e -> eval ideal rho e = Some (VBool true) -> TryParse parent_at s e = Ok s' -> scope_ok rho s'.
Proof.
  induction e as [| | | |k l IHl r IHr dt| |]; intros s s' Hs Hg Hev Hp'; cbn [TryParse] in Hp'; try by injection Hp' as <-.
  destruct (good_binary _ _ _ _ Hg) as [Gl Gr].
  assert (Hcmp : bounds_var k = true ->
    (let* s := tighten_side parent_at s k true l r in tighten_side parent_at s k false r l) = Ok s' -> scope_ok rho s').
  { intros Hk (s1 & E1 & E2)%bind_ok. assert (Ht : scalar_type l = scalar_type r).
    { destruct (good_operands _ _ _ _ Hg) as [Ho _]. unfold operands_ok in Ho.
      destruct k; try done; by apply Ho. }
    assert (scope_ok rho s1) by by eapply (tighten_side_ok s k true l r dt).
    by eapply (tighten_side_ok s1 k false r l dt). }
  destruct (bounds_var k) eqn:Ek; [destruct k; try done; by apply Hcmp |].
  destruct k; try done; try (by injection Hp' as <-).
  apply bind_ok in Hp' as (s1 & E1 & E2). apply eval_binary_inv in Hev as (a & b & Ea & Eb & Hop).
  destruct a as [|a], b as [|b]; try done. cbn [binary_sem bool_op] in Hop.
  apply bool_result_some in Hop as [_ Hop]. injection Hop as Hop. symmetry in Hop. apply andb_true_iff in Hop as [-> ->].
  by eapply IHr; [eapply IHl | | |].
Qed.

Lemma EnterConstraint_sets m e m' recovery :
  set_map_ok rho m -> good e -> eval ideal rho e = Some (VBool true) ->
  EnterConstraint parent_at m e = Ok (m', recovery) -> scope_ok rho (m', recovery).
Proof. intros Hm Hg Hev He. eapply TryParse_ok; [| done | done | exact He]. by split. Qed.

End Scopes.

(** ** Leaving a scope *)

Section Recovery.
Context `{PtrEq} `{Libm}.

(** No variable is recorded with the set of all integers, which would be
    taken for no record. *)
Definition proper (m : SetMap) : Prop :=
  forall id s, m !! id = Some s -> set_is_everything s = false.

Lemma SymSelect_finite parent_ k first second a b o :
  SymSelect parent_ k first second a b = Ok o -> exists e, o = Some e.
Proof.
  unfold SymSelect. intros (d & _ & Ho)%bind_ok. destruct d as [e|]; [injection Ho as <-; by exists e |].
  apply bind_ok in Ho as (n & _ & Ho). apply bind_ok in Ho as (e & _ & Ho). injection Ho as <-. by exists e.
Qed.

Lemma SymMaxLower_finite parent_ a b o : SymMaxLower parent_ a b = Ok o -> b <> None -> o <> None.
Proof.
  destruct a as [a|], b as [b|]; cbn [SymMaxLower]; try done; [|congruence].
  by intros (e & ->)%SymSelect_finite.
Qed.

Lemma SymMinUpper_finite parent_ a b o : SymMinUpper parent_ a b = Ok o -> b <> None -> o <> None.
Proof.
  destruct a as [a|], b as [b|]; cbn [SymMinUpper]; try done; [|congruence].
  by intros (e & ->)%SymSelect_finite.
Qed.

Context (parent_at : SetMap -> option Parent).

Lemma tighten_recover s var id new s' :
  proper s.1 -> TryTighten parent_at s var id new = Ok s' ->
  proper s'.1 /\ Recover s'.1 s'.2 = Recover s.1 s.2.
Proof.
  destruct s as [m recovery]. intros Hp Ht. unfold TryTighten in Ht. cbn [fst snd] in *.
  destruct (set_is_everything new) eqn:En; [by injection Ht as <- |].
  destruct (NumericScalarType var); [|by injection Ht as <-].
  repeat (destruct (negb _); [by injection Ht as <- |]).
  apply bind_ok in Ht as (n & Hi & [= <-]). cbn [fst snd Recover]. split.
  - intros i s. rewrite lookup_insert. case_decide; [|apply Hp]. intros [= <-].
    apply bind_ok in Hi as (lo & Hlo & Hi). apply bind_ok in Hi as (hi & Hhi & [= <-]).
    unfold set_is_everything in *. cbn [min_end max_end] in *.
    destruct (min_end new); [apply SymMaxLower_finite in Hlo; [by destruct lo | done] |].
    destruct (max_end new); [|done]. apply SymMinUpper_finite in Hhi; [by destruct lo, hi | done].
  - f_equal. destruct (m !! id) as [s|] eqn:E; cbn [default from_option].
    + unfold Datatypes.id. rewrite (Hp id s E). by rewrite insert_insert_eq, insert_id.
    + rewrite delete_insert_eq. by rewrite delete_id.
Qed.

Lemma tighten_side_recover s k (left_ : bool) side other s' :
  proper s.1 -> tighten_side parent_at s k left_ side other = Ok s' ->
  proper s'.1 /\ Recover s'.1 s'.2 = Recover s.1 s.2.
Proof.
  intros Hp Ht. unfold tighten_side in Ht. destruct (as_var side) as [[id ty]|]; [|by injection Ht as <-].
  apply bind_ok in Ht as (new & _ & Ht). by eapply tighten_recover.
Qed.

Lemma TryParse_recover e : forall s s',
  proper s.1 -> TryParse parent_at s e = Ok s' -> proper s'.1 /\ Recover s'.1 s'.2 = Recover s.1 s.2.
Proof.
  induction e as [| | | |k l IHl r IHr dt| |]; intros s s' Hp Hs; cbn [TryParse] in Hs; try by injection Hs as <-.
  assert (Hcmp : (let* s := tighten_side parent_at s k true l r in tighten_side parent_at s k false r l) = Ok s' ->
    proper s'.1 /\ Recover s'.1 s'.2 = Recover s.1 s.2).
  { intros (s1 & E1 & E2)%bind_ok. apply tighten_side_recover in E1 as [P1 <-]; [|done].
    by apply tighten_side_recover in E2. }
  destruct (bounds_var k) eqn:Ek; [destruct k; try done; by apply Hcmp |].
  destruct k; try done; try (by injection Hs as <-).
  apply bind_ok in Hs as (s1 & E1 & E2). destruct (IHl _ _ Hp E1) as [P1 R1]. destruct (IHr _ _ P1 E2) as [P2 R2].
  split; [done | congruence].
Qed.

End Recovery.

(** ** Claims *)

(** C21: The symbolic interval IntSetAnalyzer computes for an INT64 expression without casts
    contains its value: each finite end is an INT64 expression whose value is at most, or at
    least, that of the expression, for every environment the sets of the variables describe;
    the parent analyzer is any whose answers are right (the interface ParentSound, which the
    analyzer itself implements). *)
Theorem int_set_sound `{PtrEq} `{Libm} `{VarTypes} rho parent_ m e s v :
  (forall p, parent_ = Some p -> ParentSound rho p) -> set_map_ok rho m ->
  good e -> scalar_type e = Some INT64 -> cast_free e = true -> eval ideal rho e = Some (VInt v) ->
  VisitExpr parent_ m e = Ok s -> set_ok rho s v.
Proof. intros Hp Hm. by apply VisitExpr_set. Qed.

Theorem int_set_scope `{PtrEq} `{Libm} `{VarTypes} rho parent_at m c m' recovery :
  (forall m p, set_map_ok rho m -> parent_at m = Some p -> ParentSound rho p) -> set_map_ok rho m -> proper m ->
  good c -> eval ideal rho c = Some (VBool true) -> EnterConstraint parent_at m c = Ok (m', recovery) ->
  set_map_ok rho m' /\ proper m' /\ Recover m' recovery = m.
Proof.
  intros Hp Hm Hpr Hg Hev He. destruct (EnterConstraint_sets rho parent_at Hp m c m' recovery Hm Hg Hev He) as [Hm' _].
  destruct (TryParse_recover parent_at c (m, []) (m', recovery) Hpr He) as [Hp' Hr]. done.
Qed.
