(* ===== verification/Analyzer.v ===== *)
(** * The analyzer ([src/ir/arith/analyzer.cpp], [Analyzer] and
    [ConstraintContext] in [analyzer.h])

    The five sub-analyzers under one roof: binding a variable in all of them,
    proving conditions with all of them, and the scopes in which a condition
    is assumed.

    The questions that the parts ask about expressions go through [watch], a
    test the theorems use to say that no question of a run was about an
    expression that overflows.  The code asks without a test: [unwatched]. *)

From Stdlib Require Import ZArith Lia Bool List.
From stdpp Require Import base gmap list option.
From S2P Require Import Prelude Dtype IntOps ScalarExpr ConstFold PatternMatch.
From S2P Require Import RewriteRules.
From S2P Require Import ConstIntBound ModularSet RewriteSimplify TransitiveCmp Canonical IntSet.

(** ** Questions *)

Inductive question := AskBound | AskModular | AskCanonical | AskSet.

Class Watch := watch : question -> expr -> bool.

Definition unwatched : Watch := fun _ _ => true.

Definition asked `{Watch} (q : question) (e : expr) : result unit := require (watch q e) UndefinedBehaviour.

(** ** State *)

Record Analyzer := MkAnalyzer {
  const_int_bound : ConstIntBound.BoundMap;
  modular_set : ModularSet.EntryMap;
  rewrite_simplify : RewriteSimplify.State;
  transitive_cmp : CmpState;
  int_set : IntSet.SetMap
}.

(** The default constructor. *)
Definition new_analyzer : Analyzer := MkAnalyzer ∅ ∅ (RewriteSimplify.MkState ∅ []) no_knowns ∅.

(** The variable a [VarPtr] points to. *)
Record VarPtr := MkVar { var_iter : bool; var_id : positive; var_ty : option DataType }.

Definition var_node (v : VarPtr) : expr := Var (var_iter v) (var_id v) (var_ty v).

(** [ResultImplies]. *)
Definition ResultImplies (r required : CompareResult) : bool :=
  bool_decide (cr_and r required = r) && bool_decide (r <> kUnknown) && bool_decide (r <> kInconsistent).

(** The tests [CanProve] makes of the difference of the operands, by
    comparison, and the results of [TryCompare] it accepts. *)
Definition difference_decides (k : binkind) (b : Bound) : bool :=
  match k with
  | KLt => ConstIntBound.max_value b <? 0
  | KLe => ConstIntBound.max_value b <=? 0
  | KGt => ConstIntBound.min_value b >? 0
  | KGe => ConstIntBound.min_value b >=? 0
  | KEq => (ConstIntBound.min_value b =? 0) && (ConstIntBound.max_value b =? 0)
  | KNe => (ConstIntBound.min_value b >? 0) || (ConstIntBound.max_value b <? 0)
  | _ => false
  end.

(** [check_upper] and [strict] of [TrySymbolicFallback], for the comparisons
    that use it. *)
Definition fallback_mode (k : binkind) : option (bool * bool) :=
  match k with
  | KLt => Some (true, true) | KLe => Some (true, false)
  | KGt => Some (false, true) | KGe => Some (false, false)
  | _ => None
  end.

Section Operations.
Context `{PtrEq} `{SetOrder} `{Libm} `{CacheFind} `{Watch} (fuel : nat).

(** ** Simplification and bounds *)

Definition bound_query (a : Analyzer) (e : expr) : result Bound :=
  let* _ := asked AskBound e in ConstIntBound.VisitExpr (const_int_bound a) e.

Definition modular_query (a : Analyzer) (e : expr) : result Entry :=
  let* _ := asked AskModular e in ModularSet.VisitExpr (modular_set a) e.

(** The comparisons the rewrite rules ask for. *)
Definition compare_with (a : Analyzer) : Compare := parent_compare (Some (bound_query a)).

Definition rewrite (a : Analyzer) (e : expr) : result expr :=
  @RewriteSimplify.VisitExpr _ _ (compare_with a) (var_map (rewrite_simplify a)) e.

Fixpoint simplify_steps (a : Analyzer) (steps : nat) (e : expr) : result expr :=
  match steps with O => Ok e | S steps => let* e := rewrite a e in simplify_steps a steps e end.

Definition Simplify (a : Analyzer) (e : expr) (steps : Z) : result expr :=
  let* _ := require (steps >=? 0) CheckFailed in simplify_steps a (Z.to_nat steps) e.

Definition CanProveGreaterEqual (a : Analyzer) (e : expr) (lower_bound : Z) : result bool :=
  let* s := Simplify a e 2 in
  let* b := bound_query a s in Ok (ConstIntBound.min_value b >=? lower_bound).

Definition CanProveLess (a : Analyzer) (e : expr) (upper_bound : Z) : result bool :=
  let* s := Simplify a e 2 in
  let* b := bound_query a s in Ok (ConstIntBound.max_value b <? upper_bound).

Definition CanProveEqual (a : Analyzer) (lhs rhs : expr) : result bool :=
  if same lhs rhs then Ok true
  else
    let* d := MakeBinary KSub lhs rhs in
    let* diff := Simplify a d 2 in
    let* b := bound_query a diff in
    Ok ((ConstIntBound.min_value b =? 0) && (ConstIntBound.max_value b =? 0)).

(** ** [CanProve] *)

(** An operation on floats, which is never proved. *)
Definition float_operands (e : expr) : bool :=
  match e with Binary _ l r _ => is_float_expr l || is_float_expr r | _ => false end.

(** The comparisons: bounds of the difference, then known comparisons, then
    [fallback]. *)
Definition prove_compare (fallback : expr -> expr -> bool -> bool -> result bool) (a : Analyzer)
    (k : binkind) (l r : expr) : result bool :=
  match cmp_result k with
  | None => Ok false
  | Some required =>
      let* d := MakeBinary KSub l r in
      let* diff := Simplify a d 2 in
      let* b := bound_query a diff in
      if difference_decides k b then Ok true
      else
        let* res := TransitiveCmp.TryCompare fuel (transitive_cmp a) l r true in
        if ResultImplies res required then Ok true
        else match fallback_mode k with
        | Some (check_upper, strict) => fallback l r check_upper strict
        | None => Ok false
        end
  end.

Fixpoint prove (depth : nat) (fallback : expr -> expr -> bool -> bool -> result bool) (a : Analyzer)
    (cond : expr) : result bool :=
  let* simplified := Simplify a cond 2 in
  match simplified with
  | ConstBool b => Ok b
  | ConstInt v _ => Ok (negb (v =? 0))
  | Binary k l r _ =>
      if float_operands simplified then Ok false
      else match k with
      | KAnd =>
          match depth with
          | O => Err OutOfFuel
          | S depth =>
              let* p := prove depth fallback a l in
              if p : bool then prove depth fallback a r else Ok false
          end
      | _ => prove_compare fallback a k l r
      end
  | _ => Ok false
  end.

(** While [in_int_set_eval_] is set, [TrySymbolicFallback] gives up at once. *)
Definition no_fallback (l r : expr) (check_upper strict : bool) : result bool := Ok false.

(** The analyzer as the parent of [int_set]. *)
Definition parent_of (can_prove : expr -> result bool) (a : Analyzer) : Parent := {|
  parent_Simplify e := Simplify a e 2;
  parent_CanProve := can_prove;
  parent_CanProveGreaterEqual := CanProveGreaterEqual a;
  parent_CanProveLess := CanProveLess a
|}.

Definition set_query (can_prove : expr -> result bool) (a : Analyzer) (e : expr) : result IntSet :=
  let* _ := asked AskSet e in IntSet.VisitExpr (Some (parent_of can_prove a)) (int_set a) e.

(** The lambda [DeepSimplify]; the canonical simplifier is a new one. *)
Definition DeepSimplify (a : Analyzer) (e : expr) : result expr :=
  let* e := Simplify a e 2 in
  let* _ := asked AskCanonical e in Canonical.Simplify ∅ e.

(** [lhs - rhs] is on the side of zero that is asked for. *)
Definition difference_check (a : Analyzer) (check_upper strict : bool) (lhs rhs : expr) : result bool :=
  let* d := MakeBinary KSub lhs rhs in
  let* d := DeepSimplify a d in
  let* b := bound_query a d in
  Ok (if check_upper then
        if strict then ConstIntBound.max_value b <? 0 else ConstIntBound.max_value b <=? 0
      else
        if strict then ConstIntBound.min_value b >? 0 else ConstIntBound.min_value b >=? 0).

Definition TrySymbolicFallback (depth : nat) (a : Analyzer) (lhs rhs : expr) (check_upper strict : bool)
    : result bool :=
  let can_prove := prove depth no_fallback a in
  let* lhs_set := set_query can_prove a lhs in
  let* rhs_set := set_query can_prove a rhs in
  let lhs_end := if check_upper then max_end lhs_set else min_end lhs_set in
  let rhs_end := if check_upper then min_end rhs_set else max_end rhs_set in
  let* by_lhs := match lhs_end with
                 | Some e => difference_check a check_upper strict e rhs
                 | None => Ok false
                 end in
  if by_lhs : bool then Ok true
  else match rhs_end with
  | Some e => difference_check a check_upper strict lhs e
  | None => Ok false
  end.

Definition CanProve (depth : nat) (a : Analyzer) (cond : expr) : result bool :=
  prove depth (TrySymbolicFallback depth a) a cond.

(** ** Bindings *)

Definition with_rewrite (a : Analyzer) (s : RewriteSimplify.State) : Analyzer :=
  MkAnalyzer (const_int_bound a) (modular_set a) s (transitive_cmp a) (int_set a).

(** [Bind] of a variable to an expression. *)
Definition Bind (a : Analyzer) (var : VarPtr) (e : expr) : result Analyzer :=
  let* simplified := rewrite a e in
  let* dtype := GetScalarDtype (var_node var) in
  let rewriter := RewriteSimplify.Update (rewrite_simplify a) (var_id var) (Some simplified) in
  if dtype_eqb dtype BOOL then Ok (with_rewrite a rewriter)
  else
    let* b := bound_query a simplified in
    let* bounds := ConstIntBound.Update (const_int_bound a) (var_id var) b in
    let* en := modular_query a simplified in
    let* entries := ModularSet.Update (modular_set a) (var_id var) (coeff en) (base en) in
    let* knowns := TransitiveCmp.BindExpr (transitive_cmp a) (var_node var) simplified in
    Ok (MkAnalyzer bounds entries rewriter knowns
          (IntSet.Update (int_set a) (var_id var) (SinglePoint simplified))).

(** [Bind] of a variable to a half-open range. *)
Definition BindRange (depth : nat) (a : Analyzer) (var : VarPtr) (min_val max_val_exclusive : Z)
    : result Analyzer :=
  let* _ := require (max_val_exclusive >? min_val) CheckFailed in
  let* bounds := ConstIntBound.Bind (const_int_bound a) (var_id var) min_val max_val_exclusive in
  let* knowns := TransitiveCmp.BindRange (transitive_cmp a) (var_node var) min_val max_val_exclusive in
  let* dtype := GetScalarDtype (var_node var) in
  let a := MkAnalyzer bounds (modular_set a) (rewrite_simplify a) knowns (int_set a) in
  let* sets := IntSet.Bind (Some (parent_of (CanProve depth a) a)) (int_set a) (var_id var)
                 (MakeConstInt min_val dtype) (MakeConstInt max_val_exclusive dtype) in
  let a := MkAnalyzer bounds (modular_set a) (rewrite_simplify a) knowns sets in
  let* width := sub64 max_val_exclusive min_val in
  if width =? 1 then
    let bound_value := MakeConstInt min_val dtype in
    let a := with_rewrite a (RewriteSimplify.Update (rewrite_simplify a) (var_id var) (Some bound_value)) in
    let* en := modular_query a bound_value in
    let* entries := ModularSet.Update (modular_set a) (var_id var) (coeff en) (base en) in
    Ok (MkAnalyzer bounds entries (rewrite_simplify a) knowns sets)
  else Ok a.

Definition Unbind (a : Analyzer) (var : VarPtr) : Analyzer :=
  MkAnalyzer (ConstIntBound.Unbind (const_int_bound a) (var_id var))
             (ModularSet.Unbind (modular_set a) (var_id var))
             (RewriteSimplify.Update (rewrite_simplify a) (var_id var) None)
             (TransitiveCmp.Unbind (transitive_cmp a) (var_node var))
             (IntSet.Unbind (int_set a) (var_id var)).

(** ** Scopes *)

(** [recovery_functions_]: what each closure captured. *)
Record Scope := MkScope {
  bound_recovery : ConstIntBound.Recovery;
  modular_recovery : option (positive * Entry);
  rewrite_recovery : nat;
  cmp_recovery : nat * nat;
  set_recovery : SetRecovery
}.

Record ConstraintContext := MkContext { exited_ : bool; scope : Scope }.

(** The constructor of [ConstraintContext]. *)
Definition EnterScope (depth : nat) (a : Analyzer) (constraint : expr) : result (Analyzer * ConstraintContext) :=
  let* normalized := rewrite a constraint in
  let* _ := asked AskBound normalized in
  let* (bounds, rb) := ConstIntBound.EnterConstraint (const_int_bound a) normalized in
  let* _ := asked AskModular normalized in
  let* m := ModularSet.EnterConstraint (modular_set a) normalized in
  let entries := match m with Some (entries, _) => entries | None => modular_set a end in
  let a := MkAnalyzer bounds entries (rewrite_simplify a) (transitive_cmp a) (int_set a) in
  let* (rewriter, rr) := @RewriteSimplify.EnterConstraint _ _ (compare_with a) (rewrite_simplify a) normalized in
  let* (knowns, rc) := TransitiveCmp.EnterConstraint (transitive_cmp a) normalized in
  let parent_at sets :=
    let a := MkAnalyzer bounds entries rewriter knowns sets in Some (parent_of (CanProve depth a) a) in
  let* (sets, rs) := IntSet.EnterConstraint parent_at (int_set a) normalized in
  Ok (MkAnalyzer bounds entries rewriter knowns sets,
      MkContext false (MkScope rb (option_map snd m) rr rc rs)).

(** The recovery functions, the last one first. *)
Definition recover (a : Analyzer) (s : Scope) : result Analyzer :=
  let sets := IntSet.Recover (int_set a) (set_recovery s) in
  let* knowns := TransitiveCmp.Recover (transitive_cmp a) (cmp_recovery s) in
  let rewriter := RewriteSimplify.Recover (rewrite_simplify a) (rewrite_recovery s) in
  let entries := match modular_recovery s with
                 | Some saved => ModularSet.Recover (modular_set a) saved
                 | None => modular_set a
                 end in
  let bounds := ConstIntBound.Recover (const_int_bound a) (bound_recovery s) in
  Ok (MkAnalyzer bounds entries rewriter knowns sets).

Definition ExitScope (a : Analyzer) (c : ConstraintContext) : result (Analyzer * ConstraintContext) :=
  if exited_ c then Ok (a, c)
  else let* a := recover a (scope c) in Ok (a, MkContext true (scope c)).

End Operations.
