(* ===== verification/Watched.v ===== *)
(** * A watched run returns what the code returns

    Two runs of the same component whose parts answer alike, except that the
    parts of the first may fail where those of the second do not: what the
    first returns, the second returns.  A [watch] that stops a run at certain
    questions therefore never changes an answer. *)

From Stdlib Require Import ZArith Lia Bool List.
From stdpp Require Import base gmap list option.
From S2P Require Import Prelude Dtype IntOps ScalarExpr ConstFold PatternMatch.
From S2P Require Import RewriteRules.
From S2P Require Import ConstIntBound ModularSet RewriteSimplify TransitiveCmp Canonical IntSet Analyzer.

(** ** The order *)

Definition extends {A} (m n : result A) : Prop := forall v, m = Ok v -> n = Ok v.

Lemma extends_refl {A} (m : result A) : extends m m.
Proof. by intros v. Qed.

Lemma extends_bind {A B} (m n : result A) (f g : A -> result B) :
  extends m n -> (forall v, extends (f v) (g v)) -> extends (bind m f) (bind n g).
Proof.
  intros Hm Hf v (a & Ha & Hv)%bind_ok. apply bind_ok. exists a. split; [by apply Hm | by apply Hf].
Qed.

#[export] Hint Resolve extends_refl : pypto.

(** Step through two programs of the same shape. *)
Ltac extend := solve [
  repeat match goal with
  | |- extends ?m ?m => apply extends_refl
  | H : forall e w, extends (?f e w) (?g e w) |- extends (?f _ _) (?g _ _) => apply H
  | H : forall e, extends (?f e) (?g e) |- extends (?f _) (?g _) => apply H
  | |- extends (bind _ _) (bind _ _) => apply extends_bind; [|intros ?]
  | |- extends (match ?x with _ => _ end) (match ?x with _ => _ end) => destruct x
  end; auto with pypto].

(** ** The rewrite simplifier *)

Section Simplifier.
Context `{PtrEq} `{Libm} (C C' : Compare).
Hypothesis answers : forall e w, extends (@RewriteRules.TryCompare C e w) (@RewriteRules.TryCompare C' e w).

Lemma CanProveGE_extends e v : extends (@RewriteRules.CanProveGE C e v) (@RewriteRules.CanProveGE C' e v).
Proof. unfold RewriteRules.CanProveGE. extend. Qed.
Lemma CanProveLE_extends e v : extends (@RewriteRules.CanProveLE C e v) (@RewriteRules.CanProveLE C' e v).
Proof. unfold RewriteRules.CanProveLE. extend. Qed.
Lemma CanProveLess_extends e v : extends (@RewriteRules.CanProveLess C e v) (@RewriteRules.CanProveLess C' e v).
Proof. unfold RewriteRules.CanProveLess. extend. Qed.

Definition cond_extends (f g : Binds -> result bool) : Prop := forall b, extends (f b) (g b).

Lemma on_var_extends i f g : (forall e, extends (f e) (g e)) -> cond_extends (on_var i f) (on_var i g).
Proof. intros Hf b. unfold on_var. extend. Qed.

Lemma or_else_extends f g f' g' :
  cond_extends f f' -> cond_extends g g' -> cond_extends (or_else f g) (or_else f' g').
Proof. intros Hf Hg b. unfold or_else. apply extends_bind; [apply Hf | intros []; [extend | apply Hg]]. Qed.

Lemma and_then_extends f g f' g' :
  cond_extends f f' -> cond_extends g g' -> cond_extends (and_then f g) (and_then f' g').
Proof. intros Hf Hg b. unfold and_then. apply extends_bind; [apply Hf | intros []; [apply Hg | extend]]. Qed.

Lemma difference_extends f g :
  (forall e w, extends (f e w) (g e w)) -> cond_extends (difference_cond f) (difference_cond g).
Proof. intros Hf b. unfold difference_cond. extend. Qed.

Lemma nonzero_extends i : cond_extends (@nonzero_cond C i) (@nonzero_cond C' i).
Proof.
  apply or_else_extends; apply on_var_extends; intros e; [apply CanProveGE_extends | apply CanProveLE_extends].
Qed.

Lemma below_extends : cond_extends (@below_cond C) (@below_cond C').
Proof.
  intros b. unfold below_cond. apply and_then_extends; [intros ?; extend |].
  apply and_then_extends; [apply on_var_extends; intros e; apply CanProveGE_extends |].
  intros b'. apply on_var_extends. intros e. apply CanProveLess_extends.
Qed.

Lemma cond_refl f : cond_extends f f.
Proof. intros b. apply extends_refl. Qed.

#[local] Hint Resolve cond_refl CanProveGE_extends CanProveLE_extends CanProveLess_extends
  nonzero_extends below_extends : pypto.
#[local] Hint Resolve on_var_extends or_else_extends and_then_extends difference_extends : pypto.

(** The same rule, guards apart. *)
Definition rule_extends (r r' : rule) : Prop :=
  src r = src r' /\ res r = res r' /\ recurse r = recurse r' /\ cond_extends (cond r) (cond r').

Lemma rule_refl r : rule_extends r r.
Proof. unfold rule_extends. repeat split. apply cond_refl. Qed.

Lemma rule_guard s r f g b : cond_extends f g -> rule_extends (MkRule s r f b) (MkRule s r g b).
Proof. unfold rule_extends. by repeat split. Qed.

Lemma binary_rules_extends k dt : Forall2 rule_extends (@binary_rules C k dt) (@binary_rules C' k dt).
Proof.
  destruct k; cbn [binary_rules]; unfold Add_rules, Sub_rules, Mul_rules, FloorDiv_rules, FloorMod_rules,
    Min_rules, Max_rules, Eq_rules, Ne_rules, Lt_rules, Le_rules, And_rules, Or_rules;
    repeat (apply List.Forall2_cons; [first [apply rule_refl | apply rule_guard; auto with pypto] |]);
    apply List.Forall2_nil.
Qed.

Lemma unary_rules_refl k : Forall2 rule_extends (unary_rules k) (unary_rules k).
Proof. induction (unary_rules k); constructor; auto using rule_refl. Qed.

Lemma try_rules_extends rw rw' rules rules' ret :
  Forall2 rule_extends rules rules' -> (forall e, extends (rw e) (rw' e)) ->
  extends (try_rules rw rules ret) (try_rules rw' rules' ret).
Proof.
  intros Hr Hw. induction Hr as [|r r' rules rules' (Es & Ee & Er & Ec) _ IH]; [extend |].
  cbn [try_rules]. rewrite Es, Ee, Er. destruct (Match (src r') ret) as [b|]; [|done].
  apply extends_bind; [apply Ec | intros []; [extend | done]].
Qed.

Lemma visit_binary_extends rw rw' op k l r dt a b :
  (forall e, extends (rw e) (rw' e)) ->
  extends (@RewriteSimplify.visit_binary _ _ C rw op k l r dt a b)
          (@RewriteSimplify.visit_binary _ _ C' rw' op k l r dt a b).
Proof.
  intros Hw. unfold RewriteSimplify.visit_binary. cbv zeta. destruct (_ && _); [extend |].
  apply extends_bind; [extend |]. intros [e|]; [extend |]. apply extends_bind; [extend |]. intros ret.
  assert (Ht : forall d, extends (try_rules rw (@binary_rules C k d) ret) (try_rules rw' (@binary_rules C' k d) ret))
    by (intros d; by apply try_rules_extends; [apply binary_rules_extends |]).
  destruct (class_of k); (apply extends_bind; [extend |]); intros d; try apply Ht.
  destruct (IsFloat d); [extend | apply Ht].
Qed.

Lemma visit_unary_extends rw rw' op k o dt a :
  (forall e, extends (rw e) (rw' e)) ->
  extends (@RewriteSimplify.visit_unary _ _ rw op k o dt a) (@RewriteSimplify.visit_unary _ _ rw' op k o dt a).
Proof.
  intros Hw. unfold RewriteSimplify.visit_unary.
  assert (Ht : forall ret, extends (try_rules rw (unary_rules k) ret) (try_rules rw' (unary_rules k) ret))
    by (intros ret; by apply try_rules_extends; [apply unary_rules_refl |]).
  destruct k; try (apply extends_bind; [extend |]; intros [e|]; [extend |]; apply extends_bind; [extend | apply Ht]).
  extend.
Qed.
Lemma visit_promoted_extends rw rw' e e' v v' :
  (forall e, extends (rw e) (rw' e)) -> extends v v' ->
  extends (visit_promoted rw e e' v) (visit_promoted rw' e e' v').
Proof.
  intros Hw Hv. unfold visit_promoted. destruct (bool_decide _); [done |].
  destruct e' as [| | | | |[]|]; try extend. unfold around. destruct (keeps _); [extend |].
  apply extends_bind; [|extend]. apply extends_bind; [done | intros a; by apply visit_unary_extends].
Qed.

Lemma around_extends e v v' : extends v v' -> extends (around e v) (around e v').
Proof. intros Hv. unfold around. destruct (keeps e); [extend | apply extends_bind; [done | extend]]. Qed.

Lemma visit_node_extends rw rw' m e :
  (forall e, extends (rw e) (rw' e)) ->
  extends (@visit_node _ _ C rw m e) (@visit_node _ _ C' rw' m e).
Proof.
  intros Hw. induction e as [| | | |k l IHl r IHr dt|k o IH dt|]; cbn [visit_node]; apply around_extends; try extend.
  - destruct (mirror k) as [k'|].
    + apply extends_bind; [extend |]. intros e'. destruct e' as [| | | |k2 l' r' dt'| |]; try extend.
      apply around_extends. apply extends_bind; [by apply visit_promoted_extends |]. intros a.
      apply extends_bind; [by apply visit_promoted_extends |]. intros b. by apply visit_binary_extends.
    + apply extends_bind; [done |]. intros a. apply extends_bind; [done |]. intros b. by apply visit_binary_extends.
  - apply extends_bind; [done |]. intros a. by apply visit_unary_extends.
Qed.

Lemma visit_extends budget m e : extends (@visit _ _ C budget m e) (@visit _ _ C' budget m e).
Proof.
  revert e. induction budget as [|budget IH]; intros e; apply visit_node_extends; [extend | apply IH].
Qed.

Lemma rewrite_extends m e :
  extends (@RewriteSimplify.VisitExpr _ _ C m e) (@RewriteSimplify.VisitExpr _ _ C' m e).
Proof. apply visit_extends. Qed.

Lemma literals_extends s c :
  extends (@RewriteSimplify.EnterConstraint _ _ C s c) (@RewriteSimplify.EnterConstraint _ _ C' s c).
Proof. apply extends_bind; [apply rewrite_extends | extend]. Qed.

End Simplifier.

(** ** Symbolic sets *)

Section Sets.
Context `{PtrEq} `{Libm} (p p' : Parent).

(** The second parent answers whenever the first does. *)
Record parent_extends : Prop := {
  Simplify_extends e : extends (parent_Simplify p e) (parent_Simplify p' e);
  CanProve_extends e : extends (parent_CanProve p e) (parent_CanProve p' e);
  GreaterEqual_extends e w : extends (parent_CanProveGreaterEqual p e w) (parent_CanProveGreaterEqual p' e w);
  Less_extends e w : extends (parent_CanProveLess p e w) (parent_CanProveLess p' e w)
}.
Hypothesis parents : parent_extends.

Lemma MaybeSimplify_extends e : extends (MaybeSimplify (Some p) e) (MaybeSimplify (Some p') e).
Proof. apply parents. Qed.

Lemma SymBinary_extends k a b : extends (SymBinary (Some p) k a b) (SymBinary (Some p') k a b).
Proof.
  unfold SymBinary. destruct a, b; try extend. apply extends_bind; [extend |]. intros n.
  apply extends_bind; [apply MaybeSimplify_extends | extend].
Qed.

Lemma SymNeg_extends a : extends (SymNeg (Some p) a) (SymNeg (Some p') a).
Proof.
  unfold SymNeg. destruct a; [|extend]. apply extends_bind; [extend |]. intros n.
  apply extends_bind; [apply MaybeSimplify_extends | extend].
Qed.

Lemma SymSelect_extends k f g a b : extends (SymSelect (Some p) k f g a b) (SymSelect (Some p') k f g a b).
Proof.
  unfold SymSelect. apply extends_bind.
  - apply extends_bind; [extend |]. intros c. apply extends_bind; [apply parents |]. intros []; [extend |].
    apply extends_bind; [extend |]. intros c'. apply extends_bind; [apply parents | extend].
  - intros [d|]; [extend |]. apply extends_bind; [extend |]. intros e'.
    apply extends_bind; [apply MaybeSimplify_extends | extend].
Qed.

Lemma interval_extends a b a' b' :
  extends a a' -> extends b b' -> extends (interval_of a b) (interval_of a' b').
Proof. intros Ha Hb. apply extends_bind; [done |]. intros lo. apply extends_bind; [done | extend]. Qed.

Lemma IsNonNeg_extends o : extends (IsNonNeg (Some p) o) (IsNonNeg (Some p') o).
Proof. destruct o as [[]|]; cbn; try extend; apply parents. Qed.
Lemma IsNeg_extends o : extends (IsNeg (Some p) o) (IsNeg (Some p') o).
Proof. destruct o as [[]|]; cbn; try extend; apply parents. Qed.

#[local] Hint Resolve SymBinary_extends SymNeg_extends SymSelect_extends interval_extends IsNonNeg_extends
  IsNeg_extends MaybeSimplify_extends : pypto.

Lemma SymMinLower_extends a b : extends (SymMinLower (Some p) a b) (SymMinLower (Some p') a b).
Proof. destruct a, b; cbn; auto with pypto. Qed.
Lemma SymMinUpper_extends a b : extends (SymMinUpper (Some p) a b) (SymMinUpper (Some p') a b).
Proof. destruct a, b; cbn; auto with pypto. Qed.
Lemma SymMaxLower_extends a b : extends (SymMaxLower (Some p) a b) (SymMaxLower (Some p') a b).
Proof. destruct a, b; cbn; auto with pypto. Qed.
Lemma SymMaxUpper_extends a b : extends (SymMaxUpper (Some p) a b) (SymMaxUpper (Some p') a b).
Proof. destruct a, b; cbn; auto with pypto. Qed.

#[local] Hint Resolve SymMinLower_extends SymMinUpper_extends SymMaxLower_extends SymMaxUpper_extends : pypto.

Lemma CombineMulRhs_extends a b : extends (CombineMulRhs (Some p) a b) (CombineMulRhs (Some p') a b).
Proof. unfold CombineMulRhs, SymMul. extend. Qed.

Lemma CombineMul_extends a b : extends (CombineMul (Some p) a b) (CombineMul (Some p') a b).
Proof.
  unfold CombineMul. destruct (_ && _); [apply extends_bind; [apply SymBinary_extends | extend] |].
  destruct (_ && _); apply CombineMulRhs_extends.
Qed.

#[local] Hint Resolve CombineMul_extends : pypto.

Lemma VisitExpr_extends m e : extends (IntSet.VisitExpr (Some p) m e) (IntSet.VisitExpr (Some p') m e).
Proof.
  induction e as [| | | |k l IHl r IHr dt|k o IH dt|]; try (cbn; extend).
  destruct k; cbn [IntSet.VisitExpr]; unfold CombineAdd, CombineSub, CombineMin, CombineMax, CombineFloorDiv,
    SymAdd, SymSub, SymFloorDiv; extend.
Qed.

Lemma set_bind_extends m id lo hi : extends (IntSet.Bind (Some p) m id lo hi) (IntSet.Bind (Some p') m id lo hi).
Proof. unfold IntSet.Bind. extend. Qed.

Lemma side_set_extends k b e : extends (side_set (Some p) k b e) (side_set (Some p') k b e).
Proof. assert (Hs : forall i, extends (IntSet.StrictBound (Some p) e i) (IntSet.StrictBound (Some p') e i))
    by (intros i; unfold IntSet.StrictBound; extend).
  destruct k, b; cbn [side_set]; first [extend | apply extends_bind; [apply Hs | extend]].
Qed.

End Sets.

Section Scopes.
Context `{PtrEq} `{Libm} (p p' : SetMap -> Parent) (parents : forall m, parent_extends (p m) (p' m)).

Lemma TryTighten_extends s var id new :
  extends (TryTighten (fun m => Some (p m)) s var id new) (TryTighten (fun m => Some (p' m)) s var id new).
Proof.
  unfold TryTighten. destruct s as [m r]. pose proof (SymMaxLower_extends (p m) (p' m) (parents m)).
  pose proof (SymMinUpper_extends (p m) (p' m) (parents m)). pose proof interval_extends. extend.
Qed.

Lemma tighten_side_extends s k b e o :
  extends (tighten_side (fun m => Some (p m)) s k b e o) (tighten_side (fun m => Some (p' m)) s k b e o).
Proof.
  unfold tighten_side. destruct (as_var e) as [[id ty]|]; [|extend].
  apply extends_bind; [by apply side_set_extends | intros n; apply TryTighten_extends].
Qed.

Lemma TryParse_extends c s : extends (TryParse (fun m => Some (p m)) s c) (TryParse (fun m => Some (p' m)) s c).
Proof.
  revert s. induction c as [| | | |k l IHl r IHr dt| |]; intros s; try extend.
  destruct k; cbn [TryParse]; first [ extend | apply extends_bind; [apply IHl | intros s1; apply IHr]
    | apply extends_bind; [apply tighten_side_extends | intros s1; apply tighten_side_extends] ].
Qed.

Lemma set_scope_extends m c :
  extends (IntSet.EnterConstraint (fun m => Some (p m)) m c) (IntSet.EnterConstraint (fun m => Some (p' m)) m c).
Proof. apply TryParse_extends. Qed.

End Scopes.

(** ** The analyzer *)

Section Analyzer.
Context `{PtrEq} `{SetOrder} `{Libm} `{CacheFind} (W : Watch) (fuel : nat).

(** What is proved of the operations with watch [W] holds of the operations
    without one. *)
Lemma asked_extends q e : extends (@asked W q e) (@asked unwatched q e).
Proof. by intros [] _. Qed.

#[local] Hint Resolve asked_extends : pypto.

Lemma bound_query_extends a e : extends (@bound_query W a e) (@bound_query unwatched a e).
Proof. apply extends_bind; [apply asked_extends | extend]. Qed.

Lemma modular_query_extends a e : extends (@modular_query W a e) (@modular_query unwatched a e).
Proof. apply extends_bind; [apply asked_extends | extend]. Qed.

Lemma compare_extends a e w :
  extends (@RewriteRules.TryCompare (@compare_with W a) e w) (@RewriteRules.TryCompare (@compare_with unwatched a) e w).
Proof. apply extends_bind; [apply bound_query_extends | extend]. Qed.

Lemma analyzer_rewrite_extends a e : extends (@rewrite _ _ W a e) (@rewrite _ _ unwatched a e).
Proof. apply rewrite_extends. apply compare_extends. Qed.

Lemma simplify_extends a e n : extends (@Simplify _ _ W a e n) (@Simplify _ _ unwatched a e n).
Proof.
  apply extends_bind; [extend |]. intros _. generalize (Z.to_nat n). intros k. revert e.
  induction k as [|k IH]; intros e; [extend |]. apply extends_bind; [apply analyzer_rewrite_extends | apply IH].
Qed.

#[local] Hint Resolve simplify_extends bound_query_extends modular_query_extends analyzer_rewrite_extends : pypto.

Lemma prove_ge_extends a e w :
  extends (@CanProveGreaterEqual _ _ W a e w) (@CanProveGreaterEqual _ _ unwatched a e w).
Proof. unfold CanProveGreaterEqual. extend. Qed.

Lemma prove_less_extends a e w : extends (@CanProveLess _ _ W a e w) (@CanProveLess _ _ unwatched a e w).
Proof. unfold CanProveLess. extend. Qed.

Lemma prove_compare_extends f f' a k l r :
  (forall l r u s, extends (f l r u s) (f' l r u s)) ->
  extends (@prove_compare _ _ _ W fuel f a k l r) (@prove_compare _ _ _ unwatched fuel f' a k l r).
Proof. intros Hf. unfold prove_compare. extend. Qed.

(** More depth does not change an answer either. *)
Lemma prove_extends depth depth' f f' a c :
  (depth <= depth')%nat -> (forall l r u s, extends (f l r u s) (f' l r u s)) ->
  extends (@prove _ _ _ W fuel depth f a c) (@prove _ _ _ unwatched fuel depth' f' a c).
Proof.
  intros Hd Hf. revert depth' Hd c. induction depth as [|depth IH]; intros [|depth'] Hd c; try lia; cbn [prove];
    (apply extends_bind; [apply simplify_extends |]); intros s; destruct s; try extend;
    (destruct (float_operands _); [extend |]); (destruct k; try (by apply prove_compare_extends)); [extend | done |].
  apply extends_bind; [apply IH; lia | intros []; [apply IH; lia | extend]].
Qed.

Lemma parent_of_extends p p' a :
  (forall e, extends (p e) (p' e)) -> parent_extends (@parent_of _ _ W p a) (@parent_of _ _ unwatched p' a).
Proof.
  intros Hp. by constructor; [intros e; apply simplify_extends | | intros; apply prove_ge_extends | intros; apply prove_less_extends].
Qed.

Lemma set_query_extends p p' a e :
  (forall e, extends (p e) (p' e)) -> extends (@set_query _ _ W p a e) (@set_query _ _ unwatched p' a e).
Proof. intros Hp. apply extends_bind; [apply asked_extends |]. intros _. by apply VisitExpr_extends, parent_of_extends. Qed.

Lemma difference_check_extends a u s l r :
  extends (@difference_check _ _ _ W a u s l r) (@difference_check _ _ _ unwatched a u s l r).
Proof. unfold difference_check, DeepSimplify. extend. Qed.

Lemma fallback_extends depth depth' a l r u s :
  (depth <= depth')%nat ->
  extends (@TrySymbolicFallback _ _ _ _ W fuel depth a l r u s) (@TrySymbolicFallback _ _ _ _ unwatched fuel depth' a l r u s).
Proof.
  intros Hd.
  assert (Hp : forall e, extends (@prove _ _ _ W fuel depth no_fallback a e) (@prove _ _ _ unwatched fuel depth' no_fallback a e))
    by (intros e; apply prove_extends; [done | extend]).
  unfold TrySymbolicFallback. cbv zeta. apply extends_bind; [by apply set_query_extends |]. intros ls.
  apply extends_bind; [by apply set_query_extends |]. intros rs.
  apply extends_bind; [destruct u; [destruct (max_end ls) | destruct (min_end ls)]; try extend; apply difference_check_extends |].
  intros []; [extend |]. destruct u; [destruct (min_end rs) | destruct (max_end rs)]; try extend; apply difference_check_extends.
Qed.

Lemma CanProve_watched depth depth' a c :
  (depth <= depth')%nat ->
  extends (@CanProve _ _ _ _ W fuel depth a c) (@CanProve _ _ _ _ unwatched fuel depth' a c).
Proof. intros Hd. apply prove_extends; [done |]. intros. by apply fallback_extends. Qed.

Lemma Bind_watched a v e : extends (@Bind _ _ W a v e) (@Bind _ _ unwatched a v e).
Proof. unfold Bind. extend. Qed.

Lemma BindRange_watched depth a v lo hi :
  extends (@BindRange _ _ _ _ W fuel depth a v lo hi) (@BindRange _ _ _ _ unwatched fuel depth a v lo hi).
Proof.
  unfold BindRange. cbv zeta. do 4 (apply extends_bind; [extend | intros ?]).
  apply extends_bind; [|intros sets; extend]. apply set_bind_extends, parent_of_extends. intros q. by apply CanProve_watched.
Qed.

Lemma EnterScope_watched depth a c :
  extends (@EnterScope _ _ _ _ W fuel depth a c) (@EnterScope _ _ _ _ unwatched fuel depth a c).
Proof.
  unfold EnterScope. apply extends_bind; [apply analyzer_rewrite_extends |]. intros n. cbv zeta.
  apply extends_bind; [apply asked_extends |]. intros _. apply extends_bind; [extend |]. intros [b rb].
  apply extends_bind; [apply asked_extends |]. intros _. apply extends_bind; [extend |]. intros m.
  apply extends_bind; [apply literals_extends, compare_extends |]. intros [w rw].
  apply extends_bind; [extend |]. intros [t rt]. apply extends_bind; [|extend].
  apply set_scope_extends. intros sets. apply parent_of_extends. intros q. by apply CanProve_watched.
Qed.

End Analyzer.
