(* ===== verification/AnalyzerSound.v ===== *)
(** * The analyzer is right

    A run of the analyzer is watched at an environment: it stops when a part
    asks about an expression that overflows there.  Under such a watch the
    state of every part stays true of the environment through any sequence of
    bindings and scopes, and what [CanProve] proves is true. *)

From Stdlib Require Import ZArith Lia Bool List String.
From stdpp Require Import base gmap list option relations strings.
From S2P Require Import Prelude Dtype IntOps ScalarExpr ConstFold PatternMatch.
From S2P Require Import RewriteRules RewriteSound.
From S2P Require Import ConstIntBound ModularSet RewriteSimplify TransitiveCmp TransitiveSound.
From S2P Require Import Canonical CanonicalSound IntSet IntSetSound Analyzer Watched.

(** ** The watch at an environment *)

#[export] Instance queries_ok_dec rho e : Decision (queries_ok rho e).
Proof.
  induction e as [| | | |k l IHl r IHr dt|k o IH dt|k id ty]; cbn [queries_ok]; try apply _.
  destruct k as [| |[op|]| | |]; apply _.
Defined.

(** Nothing overflows in [e], and the hardware queries in it keep their
    promises; for the congruences also, no conversion changes its operand; for
    the symbolic sets, [e] is over [INT64]. *)
Definition watching (rho : Env) : Watch := fun q e =>
  match q with
  | AskBound => bool_decide (eval bounded rho e = eval ideal rho e) && bool_decide (queries_ok rho e)
  | AskModular => bool_decide (eval ideal_cast rho e = eval ideal rho e)
  | AskCanonical => bool_decide (eval bounded rho e = eval ideal rho e)
  | AskSet => cast_free e && bool_decide (scalar_type e = Some INT64)
  end.

Section Proving.
Context `{PtrEq} `{SetOrder} `{Libm} `{VarTypes} (F : CacheFind) (rho : Env) (fuel : nat).
Hypothesis fresh : addresses_fresh F.

(** ** What the parts know is true *)

Record analyzer_ok (a : Analyzer) : Prop := {
  bounds_ok : ConstIntBound.env_ok (const_int_bound a) rho;
  entries_ok : ModularSet.env_ok (modular_set a) rho;
  bindings_ok : map_ok rho (var_map (rewrite_simplify a));
  literals_ok : RewriteSimplify.holds rho (literal_constraints (rewrite_simplify a));
  knowns_ok : state_ok rho (transitive_cmp a);
  sets_ok : set_map_ok rho (int_set a)
}.

(** The operations of a watched run. *)
Abbreviation watched := (watching rho).

Lemma asked_bound e u :
  @asked watched AskBound e = Ok u -> eval bounded rho e = eval ideal rho e /\ queries_ok rho e.
Proof.
  unfold asked, watch. intros Ha%require_ok. cbn in Ha. apply andb_true_iff in Ha as [Hb Hq].
  apply bool_decide_eq_true in Hb, Hq. done.
Qed.

Lemma bound_query_right a e b v :
  analyzer_ok a -> eval ideal rho e = Some v -> @bound_query watched a e = Ok b -> in_bound b (num v).
Proof.
  intros Ha Hv Hb. apply bind_ok in Hb as (u & Hu & Hb). apply asked_bound in Hu as [Hev Hq].
  apply (VisitExpr_in_bound (const_int_bound a) rho e v b); [apply Ha | done | congruence | done].
Qed.

Lemma compare_right a : analyzer_ok a -> @compare_sound (@compare_with watched a) rho.
Proof.
  intros Ha e w r v Hr Hev. unfold RewriteRules.TryCompare, compare_with, parent_compare in Hr.
  apply bind_ok in Hr as (b & Hb & [= <-]). pose proof (bound_query_right a e b _ Ha Hev Hb) as Hin.
  unfold in_bound in Hin. cbn [num] in Hin. repeat case_match; bool_to_prop; simpl; lia.
Qed.

Lemma rewrite_right a e e' : analyzer_ok a -> good e -> @rewrite _ _ watched a e = Ok e' -> means rho e e'.
Proof.
  intros Ha Hg He. apply (@visit_means _ _ (@compare_with watched a) _ rho kMaxRecursiveDepth (var_map (rewrite_simplify a)) e e'); try done;
    [by apply compare_right | apply Ha].
Qed.

Lemma Simplify_right a e n e' : analyzer_ok a -> good e -> @Simplify _ _ watched a e n = Ok e' -> means rho e e'.
Proof.
  intros Ha Hg (u & _ & Hs)%bind_ok. revert e Hg Hs. induction (Z.to_nat n) as [|k IH]; intros e Hg Hs.
  - injection Hs as <-. by apply means_refl.
  - apply bind_ok in Hs as (e1 & H1' & Hs). apply rewrite_right in H1' as Hm; [|done..].
    eapply means_trans; [exact Hm |]. apply IH; [apply Hm | done].
Qed.

Lemma Simplify_value_right a e n e' z :
  analyzer_ok a -> good e -> @Simplify _ _ watched a e n = Ok e' -> eval ideal rho e = Some z ->
  good e' /\ scalar_type e' = scalar_type e /\ eval ideal rho e' = Some z.
Proof. intros Ha Hg Hs Hz. destruct (Simplify_right a e n e' Ha Hg Hs) as (G & T & V). auto. Qed.

Lemma CanProveGreaterEqual_right a e w z :
  analyzer_ok a -> good e -> @CanProveGreaterEqual _ _ watched a e w = Ok true ->
  eval ideal rho e = Some (VInt z) -> w <= z.
Proof.
  intros Ha Hg (s & Hs & (b & Hb & Hr)%bind_ok)%bind_ok Hz. injection Hr as Hr.
  destruct (Simplify_value_right a e 2 s _ Ha Hg Hs Hz) as (_ & _ & Hv).
  pose proof (bound_query_right a s b _ Ha Hv Hb) as Hin. unfold in_bound in Hin. cbn [num] in Hin. bool_to_prop. lia.
Qed.

Lemma CanProveLess_right a e w z :
  analyzer_ok a -> good e -> @CanProveLess _ _ watched a e w = Ok true ->
  eval ideal rho e = Some (VInt z) -> z < w.
Proof.
  intros Ha Hg (s & Hs & (b & Hb & Hr)%bind_ok)%bind_ok Hz. injection Hr as Hr.
  destruct (Simplify_value_right a e 2 s _ Ha Hg Hs Hz) as (_ & _ & Hv).
  pose proof (bound_query_right a s b _ Ha Hv Hb) as Hin. unfold in_bound in Hin. cbn [num] in Hin. bool_to_prop. lia.
Qed.

(** ** Comparisons *)

(** What [CanProve] decides between two integers. *)
Definition compares (k : binkind) (x y : Z) : Prop :=
  match k with
  | KLt => x < y | KLe => x <= y | KGt => y < x | KGe => y <= x | KEq => x = y | KNe => x <> y
  | _ => False
  end.

Lemma compares_true k dt x y v :
  compares k x y -> binary_sem k ideal dt (VInt x) (VInt y) = Some v -> v = VBool true.
Proof.
  destruct k; try done; cbn; intros Hc [_ ->]%bool_result_some; f_equal;
    try apply negb_true_iff; by (apply Z.eqb_eq || apply Z.eqb_neq || apply Z.ltb_lt || apply Z.leb_le).
Qed.

Lemma difference_right k b x y : in_bound b (x - y) -> difference_decides k b = true -> compares k x y.
Proof.
  unfold in_bound. destruct k; try done; cbn; intros Hin Hd; bool_to_prop; try lia.
Qed.

Lemma ResultImplies_right k required r x y :
  cmp_result k = Some required -> ResultImplies r required = true -> claims r x y -> compares k x y.
Proof. destruct k; try done; intros [= <-]; destruct r; try done; cbn; lia. Qed.

(** Operands of a comparison. *)
Record operands (l r : expr) (x y : Z) : Prop := {
  left_good : good l;
  right_good : good r;
  operand_int : int_typed (scalar_type l) = true;
  operand_same : scalar_type l = scalar_type r;
  left_value : eval ideal rho l = Some (VInt x);
  right_value : eval ideal rho r = Some (VInt y)
}.

(** The difference of two operands, as the constructor builds it. *)
Lemma difference_node l r x y d :
  operands l r x y -> MakeBinary KSub l r = Ok d -> good d /\ eval ideal rho d = Some (VInt (x - y)).
Proof.
  intros [Gl Gr Ti Ts Vl Vr] Hd. destruct (scalar_type l) as [t|] eqn:Tl; [|done].
  destruct (MakeBinary_good KSub l r t Gl Gr) as (Hm & Hg & _).
  { unfold operands_ok. cbn [class_of]. by rewrite Tl. }
  { done. }
  rewrite Hd in Hm. injection Hm as ->. split; [done |]. cbn [eval result_dtype]. rewrite Vl, Vr.
  cbn [binary_sem int_op]. unfold int_result. by rewrite (Ti : IsInt t = true).
Qed.

(** The fallback is right about the comparisons it serves. *)
Definition fallback_right (fallback : expr -> expr -> bool -> bool -> result bool) : Prop :=
  forall k l r x y u s, fallback_mode k = Some (u, s) -> operands l r x y -> fallback l r u s = Ok true ->
  compares k x y.

Lemma prove_compare_right fb a k l r x y :
  analyzer_ok a -> fallback_right fb -> operands l r x y ->
  @prove_compare _ _ _ watched fuel fb a k l r = Ok true -> compares k x y.
Proof.
  intros Ha Hfb Ho. unfold prove_compare. destruct (cmp_result k) as [required|] eqn:Ek; [|done].
  intros (d & Hd & (s & Hs & (b & Hb & Hp)%bind_ok)%bind_ok)%bind_ok.
  destruct (difference_node l r x y d Ho Hd) as [Gd Vd].
  destruct (Simplify_value_right a d 2 s _ Ha Gd Hs Vd) as (_ & _ & Vs).
  pose proof (bound_query_right a s b _ Ha Vs Hb) as Hin. cbn [num] in Hin.
  destruct (difference_decides k b) eqn:Ed; [by eapply difference_right |].
  apply bind_ok in Hp as (res & Hr & Hp). destruct (ResultImplies res required) eqn:Ei.
  - eapply ResultImplies_right; [done | done |]. eapply TryCompare_answer; [apply Ha | apply Ho | apply Ho | done].
  - destruct (fallback_mode k) as [[u st]|] eqn:Ef; [by eapply Hfb | done].
Qed.

(** The last step of [prove], for a simplified condition that is not a
    conjunction. *)
Lemma prove_node fb a k l r v :
  analyzer_ok a -> fallback_right fb -> good (Binary k l r BOOL) ->
  eval ideal rho (Binary k l r BOOL) = Some v -> @prove_compare _ _ _ watched fuel fb a k l r = Ok true ->
  v = VBool true.
Proof.
  intros Ha Hfb Gs Vs Hc. assert (Hk : class_of k = CCompare) by (unfold prove_compare in Hc; by destruct k).
  pose proof (eval_binary_inv _ _ _ _ _ _ _ Vs) as (vl & vr & El & Er & Hop).
  destruct (good_binary _ _ _ _ Gs) as [Gl Gr]. destruct (good_operands _ _ _ _ Gs) as (Ho & _).
  unfold operands_ok in Ho. rewrite Hk in Ho. destruct Ho as [Ti Ts].
  destruct vl as [x|], vr as [y|]; try (by destruct k).
  eapply compares_true; [|exact Hop]. eapply prove_compare_right; [done | done | | exact Hc]. by constructor.
Qed.

Lemma prove_right fb a : analyzer_ok a -> fallback_right fb -> forall depth cond v,
  good cond -> scalar_type cond = Some BOOL -> eval ideal rho cond = Some v ->
  @prove _ _ _ watched fuel depth fb a cond = Ok true -> v = VBool true.
Proof.
  intros Ha Hfb depth. induction depth as [|depth IH]; intros cond v Hg Ht Hv Hp; cbn [prove] in Hp;
    apply bind_ok in Hp as (s & Hs & Hp);
    destruct (Simplify_value_right a cond 2 s v Ha Hg Hs Hv) as (Gs & Ts & Vs); rewrite Ht in Ts;
    (destruct s as [|n d| |t|k l r dt|k o dt|]; try done;
      [ cbn in Ts; injection Ts as ->; by destruct Gs as [Ws _]
      | injection Hp as ->; cbn in Vs; congruence | ]);
    cbn [scalar_type] in Ts; injection Ts as ->;
    (destruct (float_operands _); [done |]);
    (destruct (decide (k = KAnd)) as [-> |Hk]; [|apply (prove_node fb a k l r v); try done; by destruct k]).
  { done. }
  apply bind_ok in Hp as (pl & Hl & Hp). destruct pl; [|done].
  apply eval_binary_inv in Vs as (vl & vr & El & Er & Hop). destruct (good_binary _ _ _ _ Gs) as [Gl Gr].
  destruct (good_operands _ _ _ _ Gs) as ([Tl Tr] & _).
  rewrite (IH l vl Gl Tl El Hl), (IH r vr Gr Tr Er Hp) in Hop. cbn in Hop. congruence.
Qed.

(** ** The symbolic fallback *)

Lemma parent_right can_prove a :
  analyzer_ok a ->
  (forall c v, good c -> scalar_type c = Some BOOL -> can_prove c = Ok true -> eval ideal rho c = Some v ->
    v = VBool true) ->
  ParentSound rho (@parent_of _ _ watched can_prove a).
Proof.
  intros Ha Hp. constructor; cbn [parent_of parent_Simplify parent_CanProve parent_CanProveGreaterEqual parent_CanProveLess].
  - intros e e'. by apply (Simplify_right a e 2).
  - done.
  - intros e w z Hg Hr. by apply (CanProveGreaterEqual_right a e).
  - intros e w z Hg Hr. by apply (CanProveLess_right a e).
Qed.

Lemma difference_check_right k a l r x y u s :
  analyzer_ok a -> fallback_mode k = Some (u, s) -> denotes rho l x -> denotes rho r y ->
  @difference_check _ _ _ watched a u s l r = Ok true -> compares k x y.
Proof.
  intros Ha Hm (Gl & Tl & Vl) (Gr & Tr & Vr) (d & Hd & (c & Hc & (b & Hb & Ht)%bind_ok)%bind_ok)%bind_ok.
  destruct (difference_node l r x y d) as [Gd Vd]; [constructor; try done; by rewrite ?Tl, ?Tr | done |].
  apply bind_ok in Hc as (d' & Hs & Hc). destruct (Simplify_value_right a d 2 d' _ Ha Gd Hs Vd) as (Gd' & _ & Vd').
  apply bind_ok in Hc as (q & Hq & Hc). apply require_ok in Hq. cbn in Hq. apply bool_decide_eq_true in Hq.
  destruct (Simplify_value rho fresh ∅ d' c) as (_ & _ & Vc); [by intros ? ? | done | done |].
  assert (Vcd : eval ideal rho c = Some (VInt (x - y))) by (apply Vc; congruence).
  pose proof (bound_query_right a c b _ Ha Vcd Hb) as Hin. unfold in_bound in Hin. cbn [num] in Hin.
  injection Ht as Ht. destruct k; try done; injection Hm as <- <-; bool_to_prop; cbn; lia.
Qed.

Lemma set_query_right can_prove a e s v :
  analyzer_ok a -> ParentSound rho (@parent_of _ _ watched can_prove a) -> good e -> eval ideal rho e = Some (VInt v) ->
  @set_query _ _ watched can_prove a e = Ok s -> denotes rho e v /\ set_ok rho s v.
Proof.
  intros Ha Hp Hg Hv (u & Hu & Hs)%bind_ok. apply require_ok in Hu. cbn in Hu. apply andb_true_iff in Hu as [Hc Ht].
  apply bool_decide_eq_true in Ht. split; [by split_and! |].
  eapply (VisitExpr_set rho (Some _)); [|apply Ha | done | done | done | done | exact Hs].
  by intros p [= <-].
Qed.

Lemma TrySymbolicFallback_right depth a :
  analyzer_ok a -> fallback_right (@TrySymbolicFallback _ _ _ _ watched fuel depth a).
Proof.
  intros Ha k l r x y u s Hm [Gl Gr Ti Ts Vl Vr]. unfold TrySymbolicFallback. cbv zeta.
  assert (Hp : ParentSound rho (@parent_of _ _ watched (@prove _ _ _ watched fuel depth no_fallback a) a)).
  { apply parent_right; [done |]. intros c v Gc Tc Hc Vc. by eapply (prove_right no_fallback). }
  intros (ls & Hls & (rs & Hrs & (by_l & Hl & Hr)%bind_ok)%bind_ok)%bind_ok.
  destruct (set_query_right _ a l ls x Ha Hp Gl Vl Hls) as [Dl [Ll Lu]].
  destruct (set_query_right _ a r rs y Ha Hp Gr Vr Hrs) as [Dr [Rl Ru]].
  assert (Hbound : forall x' y', (u = true -> x <= x' /\ y' <= y) -> (u = false -> x' <= x /\ y <= y') ->
    compares k x' y' -> compares k x y).
  { intros x' y' Hu Hf. destruct k; try done; injection Hm as <- <-; cbn; (destruct Hu + destruct Hf); try done; lia. }
  destruct by_l.
  - destruct (if u then max_end ls else min_end ls) as [e|] eqn:E; [|done].
    assert (exists z, denotes rho e z /\ (u = true -> x <= z) /\ (u = false -> z <= x)) as (z & De & H1' & H2').
    { destruct u; rewrite E in *; [destruct Lu as (z & De & Hz) | destruct Ll as (z & De & Hz)]; exists z; split_and!; try done; lia. }
    apply (Hbound z y); [intros Hu; split; [auto | lia] | intros Hu; split; [auto | lia] |].
    by eapply difference_check_right.
  - destruct (if u then min_end rs else max_end rs) as [e|] eqn:E; [|done].
    assert (exists z, denotes rho e z /\ (u = true -> z <= y) /\ (u = false -> y <= z)) as (z & De & H1' & H2').
    { destruct u; rewrite E in *; [destruct Rl as (z & De & Hz) | destruct Ru as (z & De & Hz)]; exists z; split_and!; try done; lia. }
    apply (Hbound x z); [intros Hu; split; [lia | auto] | intros Hu; split; [lia | auto] |].
    by eapply difference_check_right.
Qed.

Lemma CanProve_right depth a cond v :
  analyzer_ok a -> good cond -> scalar_type cond = Some BOOL -> eval ideal rho cond = Some v ->
  @CanProve _ _ _ _ watched fuel depth a cond = Ok true -> v = VBool true.
Proof. intros Ha Hg Ht Hv. eapply prove_right; try done. by apply TrySymbolicFallback_right. Qed.

Lemma analyzer_parent depth a :
  analyzer_ok a -> ParentSound rho (@parent_of _ _ watched (@CanProve _ _ _ _ watched fuel depth a) a).
Proof.
  intros Ha. apply parent_right; [done |]. intros c v Gc Tc Hc Vc. by eapply CanProve_right.
Qed.

(** ** Bindings *)

(** A variable node of the program. *)
Definition var_ok (v : VarPtr) : Prop := good (var_node v).

Lemma var_ok_type v : var_ok v -> var_type (var_id v) = var_ty v.
Proof.
  intros [Hw _]. cbn [var_node wt] in Hw. apply andb_true_iff in Hw as [Hw _]. by apply bool_decide_eq_true in Hw.
Qed.

Lemma map_ok_insert m id e : map_ok rho m -> binding_ok rho id e -> map_ok rho (<[id := e]> m).
Proof.
  intros Hm Hb i e'. rewrite lookup_insert. case_decide as E; [|apply Hm]. subst. by intros [= <-].
Qed.

Lemma map_ok_delete m id : map_ok rho m -> map_ok rho (delete id m).
Proof. intros Hm i e'. rewrite lookup_delete. case_decide; [done | apply Hm]. Qed.

Lemma Update_bounds m id b m' :
  ConstIntBound.env_ok m rho -> in_bound b (num (var_val rho id)) -> ConstIntBound.Update m id b = Ok m' ->
  ConstIntBound.env_ok m' rho.
Proof.
  intros Hm Hb (u & _ & [= <-])%bind_ok i b'. rewrite lookup_insert. case_decide as E; [|apply Hm].
  subst. by intros [= <-].
Qed.

Lemma Update_entries m id en m' :
  ModularSet.env_ok m rho -> sound_entry en (num (var_val rho id)) ->
  ModularSet.Update m id (coeff en) (base en) = Ok m' -> ModularSet.env_ok m' rho.
Proof.
  intros Hm [Hw Hin] (u & _ & (en' & He & [= <-])%bind_ok)%bind_ok. destruct Hw as (Hc & Hb & Hn).
  assert (Hc' : in_int64 (coeff en) = true) by (apply in_int64_iff; lia64).
  destruct (new_entry_in _ _ en' _ Hc' Hb (proj1 Hc) He Hin) as [Hw' Hin'].
  intros i e'. rewrite lookup_insert. case_decide as E; [|apply Hm]. subst. by intros [= <-].
Qed.

Lemma modular_query_right a e en v :
  analyzer_ok a -> good e -> eval ideal rho e = Some v -> @modular_query watched a e = Ok en ->
  sound_entry en (num v).
Proof.
  intros Ha [_ Hf] Hv (u & Hu & Hm)%bind_ok. apply require_ok in Hu. cbn in Hu. apply bool_decide_eq_true in Hu.
  apply (VisitExpr_entry (modular_set a) rho e v en); [apply Ha | done | congruence | done].
Qed.

(** An equation between a variable and an expression of its value. *)
Lemma equation_true v e d eq :
  var_ok v -> var_ty v = Some d -> IsInt d = true -> good e -> scalar_type e = Some d ->
  eval ideal rho e = Some (var_val rho (var_id v)) -> MakeCompare KEq (var_node v) e = Ok eq ->
  eval ideal rho eq = Some (VBool true).
Proof.
  intros Gv Tv Hd Ge Te Ve Hm. assert (Tn : scalar_type (var_node v) = Some d) by done.
  destruct (MakeBinary_good KEq (var_node v) e d Gv Ge) as (Hm' & _); [|done |].
  { unfold operands_ok. cbn [class_of]. by rewrite Tn, Te. }
  cbn [MakeBinary] in Hm'. rewrite Hm in Hm'. injection Hm' as ->.
  destruct (eval_typed _ _ _ _ Ve) as (d' & Td & Hv). assert (d' = d) as -> by congruence.
  destruct (var_val rho (var_id v)) as [z|b] eqn:E; [|cbn in Hv; by subst d].
  cbn [eval result_dtype var_node]. rewrite Ve, E, Tv. cbn [load]. unfold int_result. rewrite Hd. cbn.
  by rewrite Z.eqb_refl.
Qed.

Lemma Bind_right a v e a' :
  analyzer_ok a -> var_ok v -> good e -> scalar_type e = var_ty v ->
  eval ideal rho e = Some (var_val rho (var_id v)) -> @Bind _ _ watched a v e = Ok a' -> analyzer_ok a'.
Proof.
  intros Ha Gv Ge Te Ve Hb. apply bind_ok in Hb as (s & Hs & Hb).
  destruct (rewrite_right a e s Ha Ge Hs) as (Gs & Ts & Vs). specialize (Vs _ Ve). rewrite Te in Ts.
  apply bind_ok in Hb as (d & Hd & Hb). apply GetScalarDtype_ok in Hd. cbn [var_node scalar_type] in Hd.
  assert (Hmap : map_ok rho (<[var_id v := s]> (var_map (rewrite_simplify a)))).
  { apply map_ok_insert; [apply Ha |]. split_and!; [done | done | left]. rewrite Ts. symmetry. by apply var_ok_type. }
  cbv zeta in Hb. destruct (dtype_eqb d BOOL) eqn:Ed.
  { injection Hb as <-. constructor; cbn; try apply Ha; try done. }
  apply bind_ok in Hb as (b & Hbq & (bounds & Hub & Hb)%bind_ok).
  apply bind_ok in Hb as (en & Hen & (entries & Hue & Hb)%bind_ok). apply bind_ok in Hb as (knowns & Hk & [= <-]).
  assert (Hi : IsInt d = true).
  { destruct Gv as [Hw _]. cbn [var_node wt] in Hw. rewrite Hd in Hw. cbn [leaf_typed] in Hw.
    apply andb_true_iff in Hw as [_ Hw]. unfold IsBoolDtype in Hw. by rewrite Ed, orb_false_r in Hw. }
  constructor; cbn [const_int_bound modular_set rewrite_simplify transitive_cmp int_set var_map literal_constraints
    RewriteSimplify.Update]; try done; try apply Ha.
  - eapply Update_bounds; [apply Ha | eapply bound_query_right; done | done].
  - eapply Update_entries; [apply Ha | eapply modular_query_right; done | done].
  - unfold TransitiveCmp.BindExpr in Hk. apply bind_ok in Hk as (eq & Heq & Hk).
    eapply add_known_ok; [apply Ha | | exact Hk]. eapply equation_true; try done; congruence.
  - apply set_map_insert; [apply Ha |]. intros z Tz Vz. apply SinglePoint_ok.
    rewrite (var_ok_type v Gv) in Tz. split_and!; [done | congruence | congruence].
Qed.

(** A literal of the variable's type. *)
Lemma literal_good z d : IsInt d = true -> in_int64 z = true -> good (MakeConstInt z d).
Proof. intros Hd Hz. by split. Qed.

Lemma literal_value z d : IsInt d = true -> eval ideal rho (MakeConstInt z d) = Some (VInt z).
Proof. intros Hd. cbn. unfold int_result. by rewrite Hd. Qed.

Lemma range_bounds m id lo hi z m' :
  ConstIntBound.env_ok m rho -> var_val rho id = VInt z -> lo <= z < hi ->
  ConstIntBound.Bind m id lo hi = Ok m' -> ConstIntBound.env_ok m' rho.
Proof.
  intros Hm Vz Hr Hb. apply bind_ok in Hb as (q & _ & (h & Hh & [= <-])%bind_ok).
  unfold sub64 in Hh. apply checked_ok in Hh as [-> _].
  intros i b. rewrite lookup_insert. case_decide as E; [|apply Hm]. subst. intros [= <-].
  rewrite Vz. unfold in_bound. cbn. lia.
Qed.

Lemma range_sets depth a v lo hi d z sets :
  analyzer_ok a -> var_ok v -> var_ty v = Some d -> in_int64 lo = true -> in_int64 hi = true ->
  var_val rho (var_id v) = VInt z -> lo <= z < hi ->
  IntSet.Bind (Some (@parent_of _ _ watched (@CanProve _ _ _ _ watched fuel depth a) a)) (int_set a) (var_id v)
    (MakeConstInt lo d) (MakeConstInt hi d) = Ok sets ->
  set_map_ok rho sets.
Proof.
  intros Ha Gv Tv Hlo Hhi Vz Hr Hs. destruct (decide (d = INT64)) as [-> |Hne].
  - eapply (Bind_sets rho (Some _)); [| apply Ha | | | exact Vz | exact Hr | exact Hs].
    + intros p [= <-]. by apply analyzer_parent.
    + by apply ConstInt_denotes.
    + by apply ConstInt_denotes.
  - apply bind_ok in Hs as (e & _ & (f & _ & (m & _ & [= <-])%bind_ok)%bind_ok).
    apply set_map_insert; [apply Ha |]. intros y Ty. rewrite (var_ok_type v Gv) in Ty. congruence.
Qed.

Lemma BindRange_right depth a v lo hi d z a' :
  analyzer_ok a -> var_ok v -> var_ty v = Some d -> IsInt d = true ->
  in_int64 lo = true -> in_int64 hi = true -> var_val rho (var_id v) = VInt z -> lo <= z < hi ->
  @BindRange _ _ _ _ watched fuel depth a v lo hi = Ok a' -> analyzer_ok a'.
Proof.
  intros Ha Gv Tv Hd Hlo Hhi Vz Hr Hb.
  assert (En : eval ideal rho (var_node v) = Some (VInt z)).
  { cbn. rewrite Tv, Vz. cbn. unfold int_result. by rewrite Hd. }
  apply bind_ok in Hb as (u & _ & (bounds & Hbnd & (knowns & Hk & (d' & Hd' & Hb)%bind_ok)%bind_ok)%bind_ok).
  apply GetScalarDtype_ok in Hd'. assert (d' = d) as -> by (cbn in Hd'; congruence). cbv zeta in Hb.
  assert (Hbounds : ConstIntBound.env_ok bounds rho) by (eapply range_bounds; [apply Ha | done | exact Hr | done]).
  assert (Hknowns : state_ok rho knowns) by (eapply (BindRange_ok rho); [apply Ha | done | done | done | exact Hk]).
  pose (a1 := MkAnalyzer bounds (modular_set a) (rewrite_simplify a) knowns (int_set a)).
  assert (Ha1 : analyzer_ok a1) by (constructor; try done; apply Ha).
  apply bind_ok in Hb as (sets & Hs & Hb).
  assert (Hsets : set_map_ok rho sets) by exact (range_sets depth a1 v lo hi d z sets Ha1 Gv Tv Hlo Hhi Vz Hr Hs).
  pose (a2 := MkAnalyzer bounds (modular_set a) (rewrite_simplify a) knowns sets).
  assert (Ha2 : analyzer_ok a2) by (constructor; try done; apply Ha).
  apply bind_ok in Hb as (w & Hw & Hb). unfold sub64 in Hw. apply checked_ok in Hw as [-> _].
  destruct (hi - lo =? 1) eqn:Ew; [|by injection Hb as <-]. assert (z = lo) as -> by (bool_to_prop; lia).
  pose (a3 := with_rewrite a2 (RewriteSimplify.Update (rewrite_simplify a) (var_id v) (Some (MakeConstInt lo d)))).
  assert (Ha3 : analyzer_ok a3).
  { constructor; try apply Ha2. cbn. apply map_ok_insert; [apply Ha |].
    split; [by apply literal_good | split; [rewrite Vz; by apply literal_value | left]]. by rewrite (var_ok_type v Gv). }
  apply bind_ok in Hb as (en & Hen & (entries & Hue & [= <-])%bind_ok).
  constructor; try apply Ha3. cbn [modular_set]. eapply Update_entries; [apply Ha | | exact Hue].
  rewrite Vz. eapply (modular_query_right a3 (MakeConstInt lo d)); [done | by apply literal_good | by apply literal_value | exact Hen].
Qed.

Lemma Unbind_right a v : analyzer_ok a -> analyzer_ok (Unbind a v).
Proof.
  intros Ha. constructor; cbn.
  - intros i b. unfold ConstIntBound.Unbind. rewrite lookup_delete. case_decide; [done | apply Ha].
  - intros i b. unfold ModularSet.Unbind. rewrite lookup_delete. case_decide; [done | apply Ha].
  - apply map_ok_delete, Ha.
  - apply Ha.
  - apply Unbind_ok, Ha.
  - apply set_map_delete, Ha.
Qed.

(** ** Scopes *)

(** What a scope will put back is true as well. *)
Record scope_right (s : Scope) : Prop := {
  saved_bounds : Forall (saved_ok rho) (bound_recovery s);
  saved_entry : match modular_recovery s with
                | Some (id, old) => sound_entry old (num (var_val rho id))
                | None => True
                end;
  saved_sets : Forall (fun e => entry_ok rho e.1 e.2) (set_recovery s)
}.

(** A congruence in a constraint has a modulus that is not negative. *)
Definition modulus_ok (c : expr) : Prop :=
  forall id m b, parse_constraint c = Some (id, m, b) -> 0 <= m.

Lemma enter_bounds a n bounds rb :
  analyzer_ok a -> @asked watched AskBound n = Ok tt -> eval ideal rho n = Some (VBool true) ->
  ConstIntBound.EnterConstraint (const_int_bound a) n = Ok (bounds, rb) ->
  ConstIntBound.env_ok bounds rho /\ Forall (saved_ok rho) rb.
Proof.
  intros Ha Hu Vn Hb. apply asked_bound in Hu as [Hev Hq]. rewrite Vn in Hev. split.
  - exact (TryParseConstraint_sound rho n (const_int_bound a, []) (bounds, rb) (bounds_ok a Ha) Hq Hev Hb).
  - by eapply (TryParseConstraint_saved rho n (const_int_bound a, []) (bounds, rb) (bounds_ok a Ha) Hq Hev Hb).
Qed.

Lemma enter_entries a n m :
  analyzer_ok a -> @asked watched AskModular n = Ok tt -> good n -> modulus_ok n ->
  eval ideal rho n = Some (VBool true) -> ModularSet.EnterConstraint (modular_set a) n = Ok m ->
  ModularSet.env_ok (match m with Some (entries, _) => entries | None => modular_set a end) rho /\
  match option_map snd m with Some (id, old) => sound_entry old (num (var_val rho id)) | None => True end.
Proof.
  intros Ha Hu [_ Wn] Hmod Vn Hm. apply require_ok in Hu. cbn in Hu. apply bool_decide_eq_true in Hu. rewrite Vn in Hu.
  destruct m as [[entries [i old]]|]; [|split; [apply Ha | done]].
  assert (exists id c b, parse_constraint n = Some (id, c, b)) as (id & c & b & Ep).
  { unfold ModularSet.EnterConstraint in Hm. destruct (parse_constraint n) as [[[id c] b]|]; [by exists id, c, b | done]. }
  exact (EnterConstraint_entries (modular_set a) rho n id c b entries i old (entries_ok a Ha) Wn Hu Ep (Hmod _ _ _ Ep) Hm).
Qed.

Lemma enter_literals a n s k :
  analyzer_ok a -> good n -> eval ideal rho n = Some (VBool true) ->
  @RewriteSimplify.EnterConstraint _ _ (@compare_with watched a) (rewrite_simplify a) n = Ok (s, k) ->
  map_ok rho (var_map s) /\ RewriteSimplify.holds rho (literal_constraints s).
Proof.
  intros Ha Gn Vn Hs. unfold RewriteSimplify.EnterConstraint in Hs.
  apply bind_ok in Hs as (e & He & (parts & Hp & [= <- <-])%bind_ok).
  rewrite ExtractConstraints_parts in Hp. injection Hp as <-.
  destruct (rewrite_right a n e Ha Gn He) as (_ & _ & V). split; [apply Ha |].
  apply Forall_app. split; [apply Ha |]. apply chain_true. auto.
Qed.

Lemma EnterScope_right depth a c a' ctx :
  analyzer_ok a -> good c -> eval ideal rho c = Some (VBool true) ->
  (forall n, @rewrite _ _ watched a c = Ok n -> modulus_ok n) ->
  @EnterScope _ _ _ _ watched fuel depth a c = Ok (a', ctx) ->
  analyzer_ok a' /\ scope_right (scope ctx) /\ exited_ ctx = false.
Proof.
  intros Ha Gc Vc Hmod Hs. apply bind_ok in Hs as (n & Hn & Hs). specialize (Hmod n Hn).
  destruct (rewrite_right a c n Ha Gc Hn) as (Gn & _ & Vn). specialize (Vn _ Vc).
  apply bind_ok in Hs as ([] & Hu & ([bounds rb] & Hb & Hs)%bind_ok).
  destruct (enter_bounds a n bounds rb Ha Hu Vn Hb) as [Ob Sb].
  apply bind_ok in Hs as ([] & Hu' & (m & Hm & Hs)%bind_ok).
  destruct (enter_entries a n m Ha Hu' Gn Hmod Vn Hm) as [Oe Se]. cbv zeta in Hs.
  set (entries := match m with Some (entries, _) => entries | None => modular_set a end) in *.
  assert (Ha1 : analyzer_ok (MkAnalyzer bounds entries (rewrite_simplify a) (transitive_cmp a) (int_set a)))
    by (constructor; try done; apply Ha).
  apply bind_ok in Hs as ([rw rr] & Hr & Hs). destruct (enter_literals _ n rw rr Ha1 Gn Vn Hr) as [Om Ol].
  apply bind_ok in Hs as ([knowns rc] & Hk & Hs).
  destruct (EnterConstraint_ok rho _ n knowns rc (knowns_ok _ Ha1) Vn Hk) as [Ok' _].
  apply bind_ok in Hs as ([sets rs] & Hse & [= <- <-]).
  edestruct (fun P => EnterConstraint_sets rho _ P _ n sets rs (sets_ok a Ha) Gn Vn Hse) as [Os Ss].
  { intros s p Hsets [= <-]. apply analyzer_parent. constructor; try done; apply Ha. }
  split_and!; [by constructor | by constructor | done].
Qed.

Lemma recover_right a s a' : analyzer_ok a -> scope_right s -> recover a s = Ok a' -> analyzer_ok a'.
Proof.
  intros Ha [Sb Se Ss] Hr. apply bind_ok in Hr as (knowns & Hk & [= <-]).
  constructor; cbn [const_int_bound modular_set rewrite_simplify transitive_cmp int_set].
  - apply Recover_saved; [apply Ha | done].
  - destruct (modular_recovery s) as [[id old]|]; [|apply Ha]. unfold ModularSet.Recover.
    destruct (_ && _); intros i e.
    + rewrite lookup_delete. case_decide; [done | apply Ha].
    + rewrite lookup_insert. case_decide as E; [|apply Ha]. subst. by intros [= <-].
  - apply Ha.
  - cbn. apply Forall_take, Ha.
  - by eapply (Recover_ok rho); [apply Ha | exact Hk].
  - apply Recover_sets. split; [apply Ha | done].
Qed.

Lemma ExitScope_right a ctx a' ctx' :
  analyzer_ok a -> scope_right (scope ctx) -> ExitScope a ctx = Ok (a', ctx') ->
  analyzer_ok a' /\ scope ctx' = scope ctx.
Proof.
  intros Ha Hs He. unfold ExitScope in He. destruct (exited_ ctx); [by injection He as <- <- |].
  apply bind_ok in He as (b & Hb & [= <- <-]). split; [by eapply recover_right | done].
Qed.

(** ** Runs *)

Abbreviation step_state := (Analyzer * list ConstraintContext)%type.

(** One operation on an analyzer and the scopes opened so far, told things that
    are true in [rho]; a scope may be left more than once, in any order. *)
Inductive analyzer_step (W : Watch) : step_state -> step_state -> Prop :=
  | step_bind a cs v e a' :
      var_ok v -> good e -> scalar_type e = var_ty v -> eval ideal rho e = Some (var_val rho (var_id v)) ->
      @Bind _ _ W a v e = Ok a' -> analyzer_step W (a, cs) (a', cs)
  | step_range a cs depth v lo hi d z a' :
      var_ok v -> var_ty v = Some d -> IsInt d = true -> in_int64 lo = true -> in_int64 hi = true ->
      var_val rho (var_id v) = VInt z -> lo <= z < hi ->
      @BindRange _ _ _ _ W fuel depth a v lo hi = Ok a' -> analyzer_step W (a, cs) (a', cs)
  | step_unbind a cs v : analyzer_step W (a, cs) (Unbind a v, cs)
  | step_enter a cs depth c a' ctx :
      good c -> eval ideal rho c = Some (VBool true) ->
      (forall n, @rewrite _ _ W a c = Ok n -> modulus_ok n) ->
      @EnterScope _ _ _ _ W fuel depth a c = Ok (a', ctx) -> analyzer_step W (a, cs) (a', ctx :: cs)
  | step_exit a cs1 ctx cs2 a' ctx' :
      ExitScope a ctx = Ok (a', ctx') -> analyzer_step W (a, cs1 ++ ctx :: cs2) (a', cs1 ++ ctx' :: cs2).

Definition run_ok (s : step_state) : Prop := analyzer_ok s.1 /\ Forall (fun c => scope_right (scope c)) s.2.

Lemma new_analyzer_ok : run_ok (new_analyzer, []).
Proof.
  split; [|by constructor]. constructor; cbn; try (by intros ? ?); by constructor.
Qed.

Lemma analyzer_step_ok s s' : analyzer_step watched s s' -> run_ok s -> run_ok s'.
Proof.
  destruct 1 as [a cs v e a' Gv Ge Te Ve Hb|a cs depth v lo hi d z a' Gv Tv Hd Hlo Hhi Vz Hr Hb|a cs v
    |a cs depth c a' ctx Gc Vc Hm Hs|a cs1 ctx cs2 a' ctx' He]; intros [Ha Hcs]; cbn [fst snd] in *.
  - split; [exact (Bind_right a v e a' Ha Gv Ge Te Ve Hb) | done].
  - split; [exact (BindRange_right depth a v lo hi d z a' Ha Gv Tv Hd Hlo Hhi Vz Hr Hb) | done].
  - split; [by apply Unbind_right | done].
  - destruct (EnterScope_right depth a c a' ctx Ha Gc Vc Hm Hs) as (Ha' & Hs' & _). split; [done |]. by constructor.
  - apply Forall_app in Hcs as [H1' Hcs]. apply List.Forall_cons_iff in Hcs as [Hc H2'].
    destruct (ExitScope_right a ctx a' ctx' Ha Hc He) as [Ha' Es]. split; [done |].
    apply Forall_app. split; [done |]. constructor; [by rewrite Es | done].
Qed.

Lemma reachable_run s : rtc (analyzer_step watched) (new_analyzer, []) s -> run_ok s.
Proof.
  assert (Hrun : forall s s', rtc (analyzer_step watched) s s' -> run_ok s -> run_ok s')
    by (induction 1; eauto using analyzer_step_ok).
  intros Hs. eapply Hrun; [exact Hs | apply new_analyzer_ok].
Qed.

(** A watched run is a run. *)
Lemma step_unwatched s s' : analyzer_step watched s s' -> analyzer_step unwatched s s'.
Proof.
  destruct 1 as [a cs v e a' Gv Ge Te Ve Hb|a cs depth v lo hi d z a' Gv Tv Hd Hlo Hhi Vz Hr Hb|a cs v
    |a cs depth c a' ctx Gc Vc Hm Hs|a cs1 ctx cs2 a' ctx' He].
  - apply (step_bind _ a cs v e a' Gv Ge Te Ve). by apply (Bind_watched watched).
  - apply (step_range _ a cs depth v lo hi d z a' Gv Tv Hd Hlo Hhi Vz Hr). by apply (BindRange_watched watched fuel).
  - apply step_unbind.
  - apply (step_enter _ a cs depth c a' ctx Gc Vc); [|by apply (EnterScope_watched watched fuel)].
    intros n Hn. apply bind_ok in Hs as (n' & Hn' & _). specialize (Hm n' Hn').
    apply (analyzer_rewrite_extends watched) in Hn'. rewrite Hn in Hn'. injection Hn' as ->. exact Hm.
  - by apply step_exit.
Qed.

Lemma run_unwatched s s' : rtc (analyzer_step watched) s s' -> rtc (analyzer_step unwatched) s s'.
Proof. induction 1; [apply rtc_refl | eapply rtc_l; [by apply step_unwatched | done]]. Qed.

End Proving.

(** ** Leaving a scope *)

(** Two analyzers that answer alike: the same bounds, classes, bindings,
    literal constraints, comparisons and sets; the numbering of nodes may have
    grown. *)
Record alike (a b : Analyzer) : Prop := {
  alike_bounds id : ConstIntBound.bound_of (const_int_bound a) id = ConstIntBound.bound_of (const_int_bound b) id;
  alike_entries id : entry_of (modular_set a) id = entry_of (modular_set b) id;
  alike_rewriter : rewrite_simplify a = rewrite_simplify b;
  alike_knowns : knowns (transitive_cmp a) = knowns (transitive_cmp b);
  alike_scoped : scoped_knowns (transitive_cmp a) = scoped_knowns (transitive_cmp b);
  alike_sets : int_set a = int_set b
}.

#[export] Instance alike_equiv : Equivalence alike.
Proof.
  split.
  - by intros a.
  - intros a b []. by constructor.
  - intros a b c [] []. constructor; [intros id; etrans; eauto | intros id; etrans; eauto | etrans; eauto ..].
Qed.

Section Leaving.
Context `{PtrEq} `{SetOrder} `{Libm} `{CacheFind} `{W : Watch} (fuel : nat).

Lemma add_parts_appends parts : forall keys vec keys' vec',
  add_parts keys parts vec = Ok (keys', vec') -> exists new, vec' = vec ++ new.
Proof.
  induction parts as [|e parts IH]; intros keys vec keys' vec' Ha; cbn [add_parts] in Ha.
  - injection Ha as <- <-. exists []. by rewrite app_nil_r.
  - apply bind_ok in Ha as ([keys1 c] & _ & Ha). apply IH in Ha as [new ->].
    destruct c as [c|]; [exists (c :: new); by rewrite <- app_assoc | by exists new].
Qed.

Lemma knowns_restored s c s' sizes t :
  TransitiveCmp.EnterConstraint s c = Ok (s', sizes) -> knowns t = knowns s' -> scoped_knowns t = scoped_knowns s' ->
  exists s'', TransitiveCmp.Recover t sizes = Ok s'' /\ knowns s'' = knowns s /\ scoped_knowns s'' = scoped_knowns s.
Proof.
  intros ([keys vec] & (parts & _ & Hp)%bind_ok & [= <- <-])%bind_ok. apply add_parts_appends in Hp as [new ->].
  cbn [knowns scoped_knowns]. intros Ek Es. unfold TransitiveCmp.Recover. rewrite length_app.
  destruct (length (scoped_knowns s) =? length (scoped_knowns s) + length new)%nat eqn:E.
  - apply Nat.eqb_eq in E. destruct new; [|simpl in E; lia]. eexists. split; [done |]. by rewrite Es, app_nil_r.
  - rewrite Es, length_app, Nat.eqb_refl. cbn [require bind]. eexists. split; [done |].
    cbn. by rewrite Ek, take_app_length.
Qed.

(** The class of a variable after recovery depends on the classes before. *)
Lemma Recover_entry m saved id :
  entry_of (ModularSet.Recover m saved) id = if decide (saved.1 = id) then entry_of (ModularSet.Recover ∅ saved) id else entry_of m id.
Proof.
  destruct saved as [id' old]. unfold ModularSet.Recover, entry_of. cbn [fst].
  destruct ((coeff old =? 1) && (base old =? 0)); case_decide as E; subst;
    by rewrite ?lookup_delete_eq, ?lookup_delete_ne, ?lookup_insert_eq, ?lookup_insert_ne by done.
Qed.

Lemma entries_restored m n o m' :
  ModularSet.EnterConstraint m n = Ok o ->
  (forall id, entry_of m' id = entry_of (match o with Some (entries, _) => entries | None => m end) id) -> forall id,
  entry_of (match option_map snd o with Some saved => ModularSet.Recover m' saved | None => m' end) id = entry_of m id.
Proof.
  destruct o as [[entries saved]|]; [|done]. intros He Hm id. cbn [option_map snd].
  rewrite <- (Recover_entries m n entries saved He id), (Recover_entry m' saved id), (Recover_entry entries saved id).
  case_decide; [done | by apply Hm].
Qed.

(** A scope left from an analyzer that answers like the one inside it. *)
Lemma scope_restored depth a c a' ctx b :
  proper (int_set a) -> EnterScope fuel depth a c = Ok (a', ctx) -> alike b a' ->
  proper (int_set a') /\
  exists a'' ctx', ExitScope b ctx = Ok (a'', ctx') /\ alike a'' a /\ ExitScope a'' ctx' = Ok (a'', ctx').
Proof.
  intros Hp (n & _ & (u & _ & ([bounds rb] & Hb & (u' & _ & (m & Hm & Hs)%bind_ok)%bind_ok)%bind_ok)%bind_ok)%bind_ok.
  cbv zeta in Hs. apply bind_ok in Hs as ([rw rr] & Hr & ([known rc] & Hk & ([sets rs] & Hse & [= <- <-])%bind_ok)%bind_ok).
  cbn [rewrite_simplify transitive_cmp int_set] in *. intros [Bb Be Br Bk Bs Bi].
  cbn [const_int_bound modular_set rewrite_simplify transitive_cmp int_set] in *.
  destruct (TryParse_recover _ n (int_set a, []) (sets, rs) Hp Hse) as [Hp' Hrec]. split; [done |].
  destruct (knowns_restored _ _ _ _ (transitive_cmp b) Hk Bk Bs) as (known' & Hkr & Ek & Es).
  unfold ExitScope, recover. cbn [exited_ scope cmp_recovery transitive_cmp]. rewrite Hkr. cbn [bind].
  eexists _, _. split; [done |]. split; [|done]. constructor;
    cbn [const_int_bound modular_set rewrite_simplify transitive_cmp int_set bound_recovery modular_recovery
      rewrite_recovery set_recovery].
  - etrans; [apply (ConstIntBound.Recover_alike _ _ Bb rb rb eq_refl) |].
    apply (TryParseConstraint_recover n (const_int_bound a, []) (bounds, rb) Hb).
  - by apply (entries_restored (modular_set a) n).
  - rewrite Br. apply bind_ok in Hr as (s & _ & (parts & _ & [= <- <-])%bind_ok). unfold RewriteSimplify.Recover. cbn.
    rewrite take_app_length. by destruct (rewrite_simplify a).
  - done.
  - done.
  - by rewrite Bi.
Qed.

(** *** Any sequence of operations *)

(** An analyzer in use: any operations, scopes left in any order or again. *)
Inductive operated : Analyzer -> Prop :=
  | operated_new : operated new_analyzer
  | operated_bind a v e a' : operated a -> Bind a v e = Ok a' -> operated a'
  | operated_range a depth v lo hi a' : operated a -> BindRange fuel depth a v lo hi = Ok a' -> operated a'
  | operated_unbind a v : operated a -> operated (Unbind a v)
  | operated_enter a depth c a' ctx : operated a -> EnterScope fuel depth a c = Ok (a', ctx) -> operated a'
  | operated_exit a ctx a' ctx' : operated a -> ExitScope a ctx = Ok (a', ctx') -> operated a'.

(** Scopes entered and left in turn, each around others. *)
Inductive nested : Analyzer -> Analyzer -> Prop :=
  | nested_none a : nested a a
  | nested_scope a depth c a1 ctx a2 a3 ctx' a4 :
      EnterScope fuel depth a c = Ok (a1, ctx) -> nested a1 a2 -> ExitScope a2 ctx = Ok (a3, ctx') -> nested a3 a4 -> nested a a4.

Lemma proper_insert m id s : proper m -> set_is_everything s = false -> proper (<[id := s]> m).
Proof. intros Hm Hs id' s' [[_ <-]|[_ ?]]%lookup_insert_Some; [done | by eapply Hm]. Qed.

Lemma proper_delete m id : proper m -> proper (delete id m).
Proof. intros Hm id' s' [_ ?]%lookup_delete_Some. by eapply Hm. Qed.

Lemma Recover_proper r : forall m, proper m -> proper (IntSet.Recover m r).
Proof.
  induction r as [|[id s] r IH]; intros m Hm; [done |]. cbn [IntSet.Recover]. apply IH.
  destruct (set_is_everything s) eqn:E; [by apply proper_delete | by apply proper_insert].
Qed.

(** No operation records the set of all integers. *)
Lemma operated_proper a : operated a -> proper (int_set a).
Proof.
  induction 1 as [|a v e a' _ IH Hb|a depth v lo hi a' _ IH Hb|a v _ IH|a depth c a' ctx _ IH He|a ctx a' ctx' _ IH He].
  - intros id s Hs. cbn in Hs. by rewrite lookup_empty in Hs.
  - apply bind_ok in Hb as (x & _ & (d & _ & Hb)%bind_ok). destruct (dtype_eqb d BOOL); [by injection Hb as <- |].
    repeat (apply bind_ok in Hb as (? & _ & Hb)). injection Hb as <-. by apply proper_insert.
  - apply bind_ok in Hb as (u & _ & (bs & _ & (ks & _ & (d & _ & Hb)%bind_ok)%bind_ok)%bind_ok).
    apply bind_ok in Hb as (sets & Hs & (w & _ & Hb)%bind_ok).
    assert (Hp : proper sets).
    { apply bind_ok in Hs as (x & _ & (y & _ & (z & _ & [= <-])%bind_ok)%bind_ok). by apply proper_insert. }
    cbv zeta in Hb. destruct (w =? 1); [|by injection Hb as <-].
    repeat (apply bind_ok in Hb as (? & _ & Hb)). by injection Hb as <-.
  - by apply proper_delete.
  - by eapply (scope_restored depth a c a' ctx a').
  - unfold ExitScope in He. destruct (exited_ ctx); [by injection He as <- _ |].
    apply bind_ok in He as (b & (k & _ & [= <-])%bind_ok & [= <- <-]). by apply Recover_proper.
Qed.

Lemma nested_alike a b : nested a b -> proper (int_set a) -> alike b a.
Proof.
  induction 1 as [a|a depth c a1 ctx a2 a3 ctx' a4 He _ IH1 Hx _ IH2]; intros Hp; [done |].
  destruct (scope_restored depth a c a1 ctx a1 Hp He) as [Hp1 _]; [done |].
  destruct (scope_restored depth a c a1 ctx a2 Hp He (IH1 Hp1)) as (_ & a' & ctx1 & Hx' & Ha & _).
  rewrite Hx in Hx'. injection Hx' as <- <-. etrans; [|exact Ha]. apply IH2. by rewrite (alike_sets _ _ Ha).
Qed.

End Leaving.

(** ** Claims *)



(** C20: Leaving a constraint scope restores the analyzer: from any analyzer in use (reached
    from the new one by any Bind, range Bind, Unbind, entering and leaving of scopes, in any
    order) a scope entered, whatever its constraint, and left after any scopes nested in it
    have been entered and left, is left with success and gives back an analyzer that answers
    as before the scope was entered: the same bounds and congruence classes of every
    variable, the same bindings and literal constraints, the same known comparisons and
    integer sets; leaving it a second time changes nothing. *)
Theorem scope_restores `{PtrEq} `{SetOrder} `{Libm} `{CacheFind} `{Watch} fuel depth a c a' ctx b :
  operated fuel a -> EnterScope fuel depth a c = Ok (a', ctx) -> nested fuel a' b ->
  exists a'' ctx', ExitScope b ctx = Ok (a'', ctx') /\ alike a'' a /\ ExitScope a'' ctx' = Ok (a'', ctx').
Proof.
  intros Ha He Hn. apply operated_proper in Ha. destruct (scope_restored fuel depth a c a' ctx a' Ha He) as [Hp' _]; [done |].
  apply (scope_restored fuel depth a c a' ctx b Ha He). by eapply nested_alike.
Qed.

(** ** Witnesses *)

Module Examples.

Definition types : VarTypes := fun _ => Some INT64.
Definition libm : Libm := {| std_pow := fun a _ => a |}.

(** The smallest element comes first. *)
Definition smallest_first : SetOrder := {| begin_ _ s := first_element s; begin_in _ := first_element_in |}.

Definition addresses : CacheFind := CanonicalSound.Examples.keeps_addresses.

Definition var_i : VarPtr := MkVar false 1 (Some INT64).
Definition var_n : VarPtr := MkVar false 2 (Some INT64).
Definition i : expr := var_node var_i.
Definition n : expr := var_node var_n.
Definition num64 (v : Z) : expr := ConstInt v INT64.
Definition op (k : binkind) (a b : expr) : expr := Binary k a b INT64.
Definition cmp (k : binkind) (a b : expr) : expr := Binary k a b BOOL.

(** [i] is 3 and [n] is 8. *)
Definition env : Env := {| var_val p := VInt (if (p =? 1)%positive then 3 else 8); leaf_val _ := VInt 0 |}.

(** [n] in [1, 100), and inside [if i < n:]. *)
Definition guard : expr := cmp KLt i n.

Definition bound_state : result Analyzer :=
  @BindRange structural_ptr smallest_first libm addresses (watching env) 20 2 new_analyzer var_n 1 100.

Definition bound_analyzer : Analyzer := match bound_state with Ok a => a | Err _ => new_analyzer end.

Definition scope_state : result (Analyzer * ConstraintContext) :=
  @EnterScope structural_ptr smallest_first libm addresses (watching env) 20 2 bound_analyzer guard.

Definition scope_analyzer : Analyzer := match scope_state with Ok (a, _) => a | Err _ => new_analyzer end.
Definition scope_context : ConstraintContext :=
  match scope_state with Ok (_, ctx) => ctx | Err _ => MkContext true (MkScope [] None 0 (0, 0)%nat []) end.

Lemma scope_run :
  rtc (@analyzer_step structural_ptr smallest_first libm types addresses env 20 (watching env))
    (new_analyzer, []) (scope_analyzer, [scope_context]).
Proof.
  eapply rtc_l; [|eapply rtc_l; [|apply rtc_refl]].
  - apply (@step_range structural_ptr smallest_first libm types addresses env 20 (watching env)
      new_analyzer [] 2 var_n 1 100 INT64 8 bound_analyzer); try done; vm_compute; reflexivity.
  - apply (@step_enter structural_ptr smallest_first libm types addresses env 20 (watching env)
      bound_analyzer [] 2 guard scope_analyzer scope_context); [done | by vm_compute | | by vm_compute].
    intros c Hc. assert (Ec : @rewrite structural_ptr libm (watching env) bound_analyzer guard = Ok guard) by (by vm_compute).
    rewrite Hc in Ec. injection Ec as ->. intros id m b Hp. discriminate Hp.
Qed.

(** [i + 1 <= n && i // 2 <= (n - 1) // 2]: the first part by the known
    comparisons, the second by the symbolic set of [i]. *)
Definition goal : expr :=
  cmp KAnd (cmp KLe (op KAdd i (num64 1)) n)
           (cmp KLe (op KFloorDiv i (num64 2)) (op KFloorDiv (op KSub n (num64 1)) (num64 2))).



(** Inside it, [if n < 50:] is entered and left. *)
Definition inner_state : result (Analyzer * ConstraintContext) :=
  @EnterScope structural_ptr smallest_first libm addresses (watching env) 20 2 scope_analyzer (cmp KLt n (num64 50)).
Definition inner_analyzer : Analyzer := match inner_state with Ok (a, _) => a | Err _ => new_analyzer end.
Definition inner_context : ConstraintContext := match inner_state with Ok (_, ctx) => ctx | Err _ => scope_context end.
Definition left_state : result (Analyzer * ConstraintContext) := ExitScope inner_analyzer inner_context.
Definition left_analyzer : Analyzer := match left_state with Ok (a, _) => a | Err _ => new_analyzer end.
Definition left_context : ConstraintContext := match left_state with Ok (_, ctx) => ctx | Err _ => scope_context end.

Lemma scope_restores_witness :
  exists a ctx, ExitScope left_analyzer scope_context = Ok (a, ctx) /\ alike a bound_analyzer.
Proof.
  assert (Ho : @operated structural_ptr smallest_first libm addresses (watching env) 20 bound_analyzer).
  { apply (@operated_range structural_ptr smallest_first libm addresses (watching env) 20 new_analyzer 2 var_n 1 100);
      [apply operated_new | vm_compute; reflexivity]. }
  assert (He : @EnterScope structural_ptr smallest_first libm addresses (watching env) 20 2 bound_analyzer guard
    = Ok (scope_analyzer, scope_context)) by (vm_compute; reflexivity).
  assert (Hn : @nested structural_ptr smallest_first libm addresses (watching env) 20 scope_analyzer left_analyzer).
  { apply (@nested_scope structural_ptr smallest_first libm addresses (watching env) 20 scope_analyzer 2 (cmp KLt n (num64 50))
      inner_analyzer inner_context inner_analyzer left_analyzer left_context left_analyzer);
      [vm_compute; reflexivity | apply nested_none | vm_compute; reflexivity | apply nested_none]. }
  destruct (@scope_restores structural_ptr smallest_first libm addresses (watching env) 20 2 bound_analyzer guard
    scope_analyzer scope_context left_analyzer Ho He Hn) as (a & ctx & Ha & Hl & _).
  exists a, ctx. split; [exact Ha | exact Hl].
Defined.

(** In the scope, [(i + 3) // 2] is at most [(n - 1 + 3) // 2]. *)
Definition half : expr := op KFloorDiv (op KAdd i (num64 3)) (num64 2).

Definition half_max : expr := op KFloorDiv (op KAdd (op KSub n (num64 1)) (num64 3)) (num64 2).

Definition scope_parent : Parent :=
  @parent_of structural_ptr libm (watching env)
    (@CanProve structural_ptr smallest_first libm addresses (watching env) 20 2 scope_analyzer) scope_analyzer.

Lemma int_set_sound_witness :
  exists s, @IntSet.VisitExpr structural_ptr (Some scope_parent) (int_set scope_analyzer) half = Ok s /\
    max_end s = Some half_max /\ @set_ok types env s 3.
Proof.
  pose (r := @IntSet.VisitExpr structural_ptr (Some scope_parent) (int_set scope_analyzer) half).
  destruct r as [s|] eqn:Es; [|by vm_compute in Es].
  exists s. split; [done |]. split.
  { assert (E : match r with Ok s => max_end s | Err _ => None end = Some half_max)
      by (vm_compute; reflexivity). by rewrite Es in E. }
  destruct (@reachable_run structural_ptr smallest_first libm types addresses env 20
    CanonicalSound.Examples.latest_fresh (scope_analyzer, [scope_context]) scope_run) as [Ha _].
  apply (@int_set_sound structural_ptr libm types env (Some scope_parent) (int_set scope_analyzer) half s 3);
    [|apply Ha | by split; vm_compute | done | done | done | exact Es].
  intros p Hp. injection Hp as <-.
  exact (@analyzer_parent structural_ptr smallest_first libm types addresses env 20 CanonicalSound.Examples.latest_fresh
    2 scope_analyzer Ha).
Defined.

End Examples.
