(* ===== verification/Dsa.v ===== *)
(** * Storage allocation problems ([src/ir/transforms/dsa/dsa_reuse_penalty_solver.cpp])

    Buffers with lifetimes to be placed in memory pools: the problem, the
    validation of a problem and of a placement, the objective, and the
    relaxation of separations to penalties. *)

From Stdlib Require Import ZArith Lia Bool List String.
From stdpp Require Import base gmap list option strings pretty sorting.
From S2P Require Import Prelude.

(** ** Unsigned 64-bit arithmetic *)

Definition AddOverflows (first second : Z) : bool := first >? UINT64_MAX - second.

Definition SaturatingAdd (first second : Z) : Z :=
  if AddOverflows first second then UINT64_MAX else u64 (first + second).

Definition AlignUp (value alignment : Z) : option Z :=
  if alignment <=? 1 then Some value
  else
    let remainder := value mod alignment in
    if remainder =? 0 then Some value
    else
      let delta := u64 (alignment - remainder) in
      if AddOverflows value delta then None else Some (u64 (value + delta)).

Definition RangesOverlap (first_offset first_size second_offset second_size : Z) : bool :=
  if (first_size =? 0) || (second_size =? 0) || AddOverflows first_offset first_size
     || AddOverflows second_offset second_size then false
  else (first_offset <? u64 (second_offset + second_size)) && (second_offset <? u64 (first_offset + first_size)).

(** ** Ordered containers

    [std::sort] by a tuple, and the ascending iteration of [std::set] and
    [std::map]. *)
Definition by_key {A} (key : A -> list Z) (a b : A) : Prop := lex_le (key a) (key b) = true.

#[export] Instance by_key_dec {A} (key : A -> list Z) : RelDecision (by_key key).
Proof. intros a b. unfold by_key. solve_decision. Defined.

Definition sort_by {A} (key : A -> list Z) (l : list A) : list A := merge_sort (by_key key) l.

Definition ascending (s : gset Z) : list Z := sort_by (fun v => [v]) (elements s).
Definition ascending_map {A} (m : gmap Z A) : list (Z * A) := sort_by (fun kv => [kv.1]) (map_to_list m).
Definition ascending_pairs {A} (m : gmap (Z * Z) A) : list (Z * Z * A) :=
  sort_by (fun '((a, b), _) => [a; b]) (map_to_list m).

(** [emplace] keeps what is there. *)
Definition emplace {A} (m : gmap Z A) (k : Z) (v : A) : gmap Z A * bool :=
  match m !! k with None => (<[ k := v ]> m, true) | Some _ => (m, false) end.

Definition by_id {A} (id : A -> Z) (l : list A) : gmap Z A :=
  foldl (fun m v => (emplace m (id v) v).1) ∅ l.

(** ** The model *)

Record Interval := MkInterval { ibegin : Z; iend : Z }.
Definition Overlaps (a b : Interval) : bool := (ibegin a <? iend b) && (ibegin b <? iend a).

Record AddressRange := MkRange { rbegin : Z; rend : Z }.

Record Pool := MkPool { pool_id : Z; capacity : Z; reserved_ranges : list AddressRange }.

Record Buffer := MkBuffer {
  buffer_id : Z; bsize : Z; alignment : Z; bpool : Z; lifetime : Interval
}.

Record Separation := MkSeparation { sfirst : Z; ssecond : Z }.
Record ReusePenalty := MkPenalty { pfirst : Z; psecond : Z; weight : Z }.

Record DsaProblem := MkProblem {
  pools : list Pool;
  buffers : list Buffer;
  separations : list Separation;
  reuse_penalties : list ReusePenalty
}.

(** [DsaSolution]: the offsets; [Find] is the map's lookup. *)
Abbreviation DsaSolution := (gmap Z Z).

Record ObjectiveValue := MkObjective {
  reuse_cost : Z; total_peak : Z; max_peak : Z; peak_by_pool : gmap Z Z
}.

Definition PoolsById (p : DsaProblem) : gmap Z Pool := by_id pool_id (pools p).
Definition BuffersById (p : DsaProblem) : gmap Z Buffer := by_id buffer_id (buffers p).

Definition CanonicalBufferPair (first second : Z) : Z * Z :=
  if first <? second then (first, second) else (second, first).

(** ** Validation of a problem *)

Definition complain (b : bool) (message : string) : list string := if b then [message] else [].

Definition range_errors (pool : Pool) (reserved : AddressRange) : list string :=
  if rbegin reserved >=? rend reserved
  then ["pool " +:+ pretty (pool_id pool) +:+ " has an empty or reversed reserved range"]
  else complain (rend reserved >? capacity pool)
         ("pool " +:+ pretty (pool_id pool) +:+ " has a reserved range beyond capacity").

Fixpoint pool_errors (m : gmap Z Pool) (ps : list Pool) : list string * gmap Z Pool :=
  match ps with
  | [] => ([], m)
  | pool :: ps =>
      let (m, fresh) := emplace m (pool_id pool) pool in
      let (rest, m) := pool_errors m ps in
      (complain (negb fresh) ("duplicate pool id " +:+ pretty (pool_id pool)) ++
       complain (capacity pool =? 0)
         ("pool " +:+ pretty (pool_id pool) +:+ " must have a positive fixed capacity") ++
       flat_map (range_errors pool) (reserved_ranges pool) ++ rest, m)
  end.

Fixpoint buffer_errors (ps : gmap Z Pool) (m : gmap Z Buffer) (bs : list Buffer)
    : list string * gmap Z Buffer :=
  match bs with
  | [] => ([], m)
  | b :: bs =>
      let (m, fresh) := emplace m (buffer_id b) b in
      let (rest, m) := buffer_errors ps m bs in
      let name := "buffer " +:+ pretty (buffer_id b) in
      (complain (negb fresh) ("duplicate buffer id " +:+ pretty (buffer_id b)) ++
       complain (bsize b =? 0) (name +:+ " has zero size") ++
       complain (alignment b =? 0) (name +:+ " has zero alignment") ++
       complain ((ibegin (lifetime b) <? 0) || (ibegin (lifetime b) >=? iend (lifetime b)))
         (name +:+ " has an invalid half-open lifetime") ++
       complain (bool_decide (ps !! bpool b = None))
         (name +:+ " references unknown pool " +:+ pretty (bpool b)) ++ rest, m)
  end.

(** [validate_pair]. *)
Definition pair_errors (bs : gmap Z Buffer) (first second : Z) (kind : string) : list string :=
  complain (first =? second) (kind +:+ " has identical endpoints " +:+ pretty first) ++
  match bs !! first, bs !! second with
  | Some b, Some c => complain (negb (bpool b =? bpool c)) (kind +:+ " spans different fixed pools")
  | _, _ => [kind +:+ " references an unknown buffer"]
  end.

Fixpoint penalty_errors (bs : gmap Z Buffer) (total : Z) (rs : list ReusePenalty) : list string :=
  match rs with
  | [] => []
  | r :: rs =>
      pair_errors bs (pfirst r) (psecond r) "reuse penalty" ++
      match bs !! pfirst r, bs !! psecond r with
      | Some b, Some c =>
          complain ((bpool b =? bpool c) && Overlaps (lifetime b) (lifetime c))
            "reuse penalty endpoints must have lifetime-compatible buffers"
      | _, _ => []
      end ++
      if AddOverflows total (weight r)
      then "total reuse-penalty weight exceeds uint64" :: penalty_errors bs total rs
      else penalty_errors bs (u64 (total + weight r)) rs
  end.

Definition ValidateProblem (p : DsaProblem) : list string :=
  let (errors, ps) := pool_errors ∅ (pools p) in
  let (errors', bs) := buffer_errors ps ∅ (buffers p) in
  errors ++ errors' ++
  flat_map (fun s => pair_errors bs (sfirst s) (ssecond s) "separation") (separations p) ++
  penalty_errors bs 0 (reuse_penalties p).

(** ** Validation of a placement *)

(** The placement of one buffer; [None] when its pool is missing. *)
Definition placement_errors (ps : gmap Z Pool) (s : DsaSolution) (b : Buffer) : result (list string) :=
  let name := "buffer " +:+ pretty (buffer_id b) in
  match s !! buffer_id b with
  | None => Ok [name +:+ " has no offset"]
  | Some offset =>
      let errors := complain (negb (offset mod alignment b =? 0)) (name +:+ " violates alignment") in
      if AddOverflows offset (bsize b)
      then Ok (errors ++ [name +:+ " address range overflows uint64"])
      else match ps !! bpool b with
      | None => Err OutOfRange
      | Some pool =>
          Ok (errors ++
              complain (u64 (offset + bsize b) >? capacity pool) (name +:+ " exceeds pool capacity") ++
              flat_map (fun r =>
                complain (RangesOverlap offset (bsize b) (rbegin r) (u64 (rend r - rbegin r)))
                  (name +:+ " overlaps a reserved range")) (reserved_ranges pool))
      end
  end.

Fixpoint placements_errors (ps : gmap Z Pool) (s : DsaSolution) (bs : list Buffer) : result (list string) :=
  match bs with
  | [] => Ok []
  | b :: bs =>
      let* errors := placement_errors ps s b in
      let* rest := placements_errors ps s bs in
      Ok (errors ++ rest)
  end.

Definition conflict (seps : gset (Z * Z)) (b c : Buffer) : bool :=
  Overlaps (lifetime b) (lifetime c) ||
  bool_decide (CanonicalBufferPair (buffer_id b) (buffer_id c) ∈ seps).

Definition conflict_errors (seps : gset (Z * Z)) (s : DsaSolution) (b c : Buffer) : list string :=
  if negb (bpool b =? bpool c) then []
  else if negb (conflict seps b c) then []
  else match s !! buffer_id b, s !! buffer_id c with
  | Some o, Some o' =>
      complain (RangesOverlap o (bsize b) o' (bsize c))
        ("hard-conflicting buffers " +:+ pretty (buffer_id b) +:+ "," +:+ pretty (buffer_id c)
         +:+ " overlap in address")
  | _, _ => []
  end.

(** The loops over [first < second]. *)
Fixpoint conflicts_errors (seps : gset (Z * Z)) (s : DsaSolution) (bs : list Buffer) : list string :=
  match bs with
  | [] => []
  | b :: bs => flat_map (conflict_errors seps s b) bs ++ conflicts_errors seps s bs
  end.

Definition separation_pairs (l : list Separation) : gset (Z * Z) :=
  list_to_set (map (fun s => CanonicalBufferPair (sfirst s) (ssecond s)) l).

Definition ValidateSolution (p : DsaProblem) (s : DsaSolution) : result (list string) :=
  match ValidateProblem p with
  | [] =>
      let bs := BuffersById p in
      let unknown := flat_map (fun '(id, _) =>
        complain (bool_decide (bs !! id = None)) ("solution contains unknown buffer " +:+ pretty id))
        (ascending_map s) in
      let* placed := placements_errors (PoolsById p) s (buffers p) in
      Ok (unknown ++ placed ++ conflicts_errors (separation_pairs (separations p)) s (buffers p))
  | errors => Ok errors
  end.

(** ** The objective *)

Definition pool_peaks (p : DsaProblem) : gmap Z Z :=
  foldl (fun m pool =>
    <[ pool_id pool := foldl Z.max (default 0 (m !! pool_id pool)) (map rend (reserved_ranges pool)) ]> m)
    ∅ (pools p).

Definition buffer_peaks (s : DsaSolution) (m : gmap Z Z) (bs : list Buffer) : gmap Z Z :=
  foldl (fun m b =>
    match s !! buffer_id b with
    | Some offset =>
        if AddOverflows offset (bsize b) then m
        else <[ bpool b := Z.max (default 0 (m !! bpool b)) (u64 (offset + bsize b)) ]> m
    | None => m
    end) m bs.

(** Whether a penalty is activated by a placement. *)
Definition activated (bs : gmap Z Buffer) (s : DsaSolution) (r : ReusePenalty) : bool :=
  match bs !! pfirst r, bs !! psecond r, s !! pfirst r, s !! psecond r with
  | Some b, Some c, Some o, Some o' =>
      (bpool b =? bpool c) && negb (Overlaps (lifetime b) (lifetime c)) &&
      RangesOverlap o (bsize b) o' (bsize c)
  | _, _, _, _ => false
  end.

Definition EvaluateObjective (p : DsaProblem) (s : DsaSolution) : ObjectiveValue :=
  let peaks := buffer_peaks s (pool_peaks p) (buffers p) in
  let bs := BuffersById p in
  {| peak_by_pool := peaks;
     total_peak := foldl SaturatingAdd 0 (map snd (ascending_map peaks));
     max_peak := foldl Z.max 0 (map snd (ascending_map peaks));
     reuse_cost := foldl (fun cost r => if activated bs s r then SaturatingAdd cost (weight r) else cost)
                     0 (reuse_penalties p) |}.

(** ** Relaxation *)

Definition add_weight (m : gmap (Z * Z) Z) (pair : Z * Z) (w : Z) : gmap (Z * Z) Z :=
  <[ pair := SaturatingAdd (default 0 (m !! pair)) w ]> m.

Definition ascending_pair_set (s : gset (Z * Z)) : list (Z * Z) :=
  sort_by (fun '(a, b) => [a; b]) (elements s).

Definition RelaxSeparationsToPenalties (p : DsaProblem) (relaxable : list Separation) (w : Z) : DsaProblem :=
  let bs := BuffersById p in
  let selected := separation_pairs relaxable in
  let kept := List.filter
    (fun s => negb (bool_decide (CanonicalBufferPair (sfirst s) (ssecond s) ∈ selected))) (separations p) in
  let weights := foldl (fun m r => add_weight m (CanonicalBufferPair (pfirst r) (psecond r)) (weight r))
    ∅ (reuse_penalties p) in
  let weights := foldl (fun m pair =>
    match bs !! pair.1, bs !! pair.2 with
    | Some b, Some c => if Overlaps (lifetime b) (lifetime c) then m else add_weight m pair w
    | _, _ => m
    end) weights (ascending_pair_set selected) in
  MkProblem (pools p) (buffers p) kept
    (flat_map (fun '((a, b), w) => if w =? 0 then [] else [MkPenalty a b w]) (ascending_pairs weights)).

Definition CountOverlappingPairs (p : DsaProblem) (s : DsaSolution) (pairs : list Separation) : nat :=
  let bs := BuffersById p in
  length (List.filter (fun pair =>
    match bs !! sfirst pair, bs !! ssecond pair, s !! sfirst pair, s !! ssecond pair with
    | Some b, Some c, Some o, Some o' =>
        (bpool b =? bpool c) && RangesOverlap o (bsize b) o' (bsize c)
    | _, _, _, _ => false
    end) pairs).
