(* ===== verification/DsaSearch.v ===== *)
(** * The canonical greedy solver ([src/ir/transforms/dsa/dsa_reuse_penalty_solver.cpp])

    The search space, the orders, lowest fit, the scored placement of an order,
    and [Solve]. *)

From Stdlib Require Import ZArith Lia Bool List String.
From stdpp Require Import base gmap list option strings sorting.
From S2P Require Import Prelude.
From S2P Require Import Dsa.

(** ** The search space *)

Record SearchSpace := MkSearchSpace {
  nodes : list Buffer;
  node_by_buffer : gmap Z nat;
  hard_neighbors : list (gset nat);
  soft_weights : gmap (nat * nat) Z;
  soft_neighbors : list (list (nat * Z))
}.

Definition CanonicalPair (first second : nat) : nat * nat :=
  if (first <? second)%nat then (first, second) else (second, first).

(** [hard_neighbors[first].insert(second)] and the other way round. *)
Definition connect (nbrs : list (gset nat)) (pair : nat * nat) : list (gset nat) :=
  let (first, second) := pair in
  alter (fun s => {[ first ]} ∪ s) second (alter (fun s => {[ second ]} ∪ s) first nbrs).

Definition all_pairs (count : nat) : list (nat * nat) :=
  flat_map (fun first => map (pair first) (seq (S first) (count - S first))) (seq 0 count).

Definition lifetime_conflict (ns : list Buffer) (pair : nat * nat) : bool :=
  match ns !! pair.1, ns !! pair.2 with
  | Some b, Some c => (bpool b =? bpool c) && Overlaps (lifetime b) (lifetime c)
  | _, _ => false
  end.

Definition node_at (m : gmap Z nat) (id : Z) : result nat :=
  match m !! id with Some i => Ok i | None => Err OutOfRange end.

Fixpoint separate (m : gmap Z nat) (nbrs : list (gset nat)) (l : list Separation) : result (list (gset nat)) :=
  match l with
  | [] => Ok nbrs
  | s :: l =>
      let* first := node_at m (sfirst s) in
      let* second := node_at m (ssecond s) in
      separate m (connect nbrs (first, second)) l
  end.

Definition adjacent (nbrs : list (gset nat)) (first second : nat) : bool :=
  bool_decide (second ∈ default ∅ (nbrs !! first)).

Fixpoint weigh (m : gmap Z nat) (nbrs : list (gset nat)) (ws : gmap (nat * nat) Z) (l : list ReusePenalty)
    : result (gmap (nat * nat) Z) :=
  match l with
  | [] => Ok ws
  | r :: l =>
      let* first := node_at m (pfirst r) in
      let* second := node_at m (psecond r) in
      if (weight r =? 0) || adjacent nbrs first second then weigh m nbrs ws l
      else
        let pair := CanonicalPair first second in
        weigh m nbrs (<[ pair := SaturatingAdd (default 0 (ws !! pair)) (weight r) ]> ws) l
  end.

(** [std::map]'s order of node pairs. *)
Definition ascending_weights (ws : gmap (nat * nat) Z) : list (nat * nat * Z) :=
  sort_by (fun '((i, j), _) => [Z.of_nat i; Z.of_nat j]) (map_to_list ws).

Definition link (l : list (list (nat * Z))) (entry : nat * nat * Z) : list (list (nat * Z)) :=
  let '((first, second), w) := entry in
  alter (fun l => l ++ [(first, w)]) second (alter (fun l => l ++ [(second, w)]) first l).

Definition number_nodes (bs : list Buffer) : gmap Z nat :=
  foldl (fun m '(i, b) => (emplace m (buffer_id b) i).1) ∅ (imap pair bs).

Definition BuildSearchSpace (p : DsaProblem) : result SearchSpace :=
  let ns := buffers p in
  let m := number_nodes ns in
  let count := length ns in
  let nbrs := foldl connect (replicate count ∅) (List.filter (lifetime_conflict ns) (all_pairs count)) in
  let* nbrs := separate m nbrs (separations p) in
  let* ws := weigh m nbrs ∅ (reuse_penalties p) in
  Ok (MkSearchSpace ns m nbrs ws (foldl link (replicate count []) (ascending_weights ws))).

(** ** Orders *)

(** [std::shuffle] with a generator seeded once: the permutation of each
    restart. *)
Class Shuffle := {
  shuffle : Z -> nat -> list nat -> list nat;
  shuffle_perm seed i l : shuffle seed i l ≡ₚ l
}.

Record CanonicalGreedyOptions := MkOptions { seed : Z; random_restarts : nat }.

Definition node_key (ns : list Buffer) (key : Buffer -> list Z) (i : nat) : list Z :=
  match ns !! i with Some b => key b | None => [] end.

Definition SizeOrder (s : SearchSpace) : list nat :=
  sort_by (node_key (nodes s) (fun b => [UINT64_MAX - bsize b; ibegin (lifetime b); buffer_id b]))
    (seq 0 (length (nodes s))).

Definition incident_weight (ws : list (nat * nat * Z)) (i : nat) : Z :=
  foldl (fun total '((first, second), w) =>
    let total := if (first =? i)%nat then SaturatingAdd total w else total in
    if (second =? i)%nat then SaturatingAdd total w else total) 0 ws.

Fixpoint restarts `{Shuffle} (seed : Z) (i : nat) (count : nat) (l : list nat) : list (list nat) :=
  match count with
  | O => []
  | S count => let l := shuffle seed i l in l :: restarts seed (S i) count l
  end.

Fixpoint keep_first (seen : gset (list nat)) (orders : list (list nat)) : list (list nat) :=
  match orders with
  | [] => []
  | order :: orders =>
      if bool_decide (order ∈ seen) then keep_first seen orders
      else order :: keep_first ({[ order ]} ∪ seen) orders
  end.

Definition CanonicalOrders `{Shuffle} (s : SearchSpace) (options : CanonicalGreedyOptions) : list (list nat) :=
  let by_size := SizeOrder s in
  let by_birth := sort_by (node_key (nodes s) (fun b => [ibegin (lifetime b); buffer_id b])) by_size in
  let ws := ascending_weights (soft_weights s) in
  let by_weight := sort_by (fun i => UINT64_MAX - incident_weight ws i ::
    node_key (nodes s) (fun b => [UINT64_MAX - bsize b; buffer_id b]) i) by_birth in
  keep_first ∅ (by_size :: by_birth :: by_weight :: restarts (seed options) 0 (random_restarts options) by_weight).

(** ** Placing one buffer

    A placement maps the placed nodes to their offsets ([placed] and
    [offsets]). *)
Abbreviation Placement := (gmap nat Z).

Definition pool_ranges (ps : list Pool) (id : Z) : list AddressRange :=
  match List.find (fun pool => pool_id pool =? id) ps with Some pool => reserved_ranges pool | None => [] end.

(** The top of a placed node of the pool; [None] if it is not placed, in
    another pool, or its range overflows. *)
Definition placed_range (s : SearchSpace) (pl : Placement) (other : nat) : option (Buffer * AddressRange) :=
  match nodes s !! other, pl !! other with
  | Some b, Some o => if AddOverflows o (bsize b) then None else Some (b, MkRange o (u64 (o + bsize b)))
  | _, _ => None
  end.

Definition in_pool (id : Z) (r : option (Buffer * AddressRange)) : list AddressRange :=
  match r with Some (b, r) => if bpool b =? id then [r] else [] | None => [] end.

Definition hard_of (s : SearchSpace) (i : nat) : list nat := elements (default ∅ (hard_neighbors s !! i)).
Definition soft_of (s : SearchSpace) (i : nat) : list (nat * Z) := default [] (soft_neighbors s !! i).

Definition BlockingRanges (p : DsaProblem) (s : SearchSpace) (pl : Placement) (node : Buffer) (current : nat)
    : list AddressRange :=
  pool_ranges (pools p) (bpool node) ++
  flat_map (fun other => in_pool (bpool node) (placed_range s pl other)) (hard_of s current).

Definition range_key (r : AddressRange) : list Z := [rbegin r; rend r].

(** The loop of [LowestFit] over the sorted ranges. *)
Fixpoint lowest_fit_loop (size alignment candidate : Z) (blocked : list AddressRange) : option Z :=
  match blocked with
  | [] => if AddOverflows candidate size then None else Some candidate
  | r :: blocked =>
      if rend r <=? candidate then lowest_fit_loop size alignment candidate blocked
      else if AddOverflows candidate size then None
      else if rbegin r >=? u64 (candidate + size) then Some candidate
      else match AlignUp (rend r) alignment with
      | None => None
      | Some candidate => lowest_fit_loop size alignment candidate blocked
      end
  end.

Definition LowestFit (size alignment : Z) (blocked : list AddressRange) : option Z :=
  match AlignUp 0 alignment with
  | None => None
  | Some candidate => lowest_fit_loop size alignment candidate (sort_by range_key blocked)
  end.

Fixpoint merge_ranges (last : AddressRange) (rs : list AddressRange) : list AddressRange :=
  match rs with
  | [] => [last]
  | r :: rs =>
      if rend last <? rbegin r then last :: merge_ranges r rs
      else merge_ranges (MkRange (rbegin last) (Z.max (rend last) (rend r))) rs
  end.

Definition MergeBlockingRanges (rs : list AddressRange) : list AddressRange :=
  match sort_by range_key rs with [] => [] | r :: rs => merge_ranges r rs end.

Record WeightedBoundary := MkBoundary { position : Z; bweight : Z }.

Definition boundary_key (b : WeightedBoundary) : list Z := [position b; bweight b].

Definition placed_soft (s : SearchSpace) (pl : Placement) (current : nat) : list (AddressRange * Z) :=
  flat_map (fun '(other, w) =>
    match placed_range s pl other with Some (_, r) => [(r, w)] | None => [] end) (soft_of s current).

Definition BuildSoftBoundaries (s : SearchSpace) (pl : Placement) (current : nat)
    : list WeightedBoundary * list WeightedBoundary :=
  let l := placed_soft s pl current in
  (sort_by boundary_key (map (fun '(r, w) => MkBoundary (rbegin r) w) l),
   sort_by boundary_key (map (fun '(r, w) => MkBoundary (rend r) w) l)).

Definition CandidateOffsets (p : DsaProblem) (s : SearchSpace) (pl : Placement) (node : Buffer) (current : nat)
    : list Z :=
  let tops l := flat_map (fun other => map rend (in_pool (bpool node) (placed_range s pl other))) l in
  let candidates : gset Z := list_to_set
    (0 :: map rend (pool_ranges (pools p) (bpool node)) ++ tops (hard_of s current) ++
     tops (map fst (soft_of s current))) in
  let aligned : gset Z := list_to_set (omap (fun v => AlignUp v (alignment node)) (ascending candidates)) in
  ascending aligned.

(** ** First fit *)

Definition BuildSolution (s : SearchSpace) (pl : Placement) : DsaSolution :=
  foldl (fun sol '(i, b) => (emplace sol (buffer_id b) (default 0 (pl !! i))).1) ∅ (imap pair (nodes s)).

Definition pool_at (p : DsaProblem) (id : Z) : result Pool :=
  match PoolsById p !! id with Some pool => Ok pool | None => Err OutOfRange end.

Definition node_of (s : SearchSpace) (i : nat) : result Buffer :=
  match nodes s !! i with Some b => Ok b | None => Err UndefinedBehaviour end.

Fixpoint first_fit_loop (p : DsaProblem) (s : SearchSpace) (pl : Placement) (order : list nat)
    : result (option Placement) :=
  match order with
  | [] => Ok (Some pl)
  | current :: order =>
      let* node := node_of s current in
      let offset := LowestFit (bsize node) (alignment node) (BlockingRanges p s pl node current) in
      let* pool := pool_at p (bpool node) in
      match offset with
      | None => Ok None
      | Some o =>
          if AddOverflows o (bsize node) || (u64 (o + bsize node) >? capacity pool) then Ok None
          else first_fit_loop p s (<[ current := o ]> pl) order
      end
  end.

Definition FirstFitIncumbent (p : DsaProblem) (s : SearchSpace) : result (option DsaSolution) :=
  let* pl := first_fit_loop p s ∅ (SizeOrder s) in Ok (BuildSolution s <$> pl).

(** ** The scored placement *)

(** [while (i < v.size() && v[i].end <= offset) ++i]. *)
Fixpoint skip_ended (offset : Z) (blocked : list AddressRange) : list AddressRange :=
  match blocked with
  | [] => []
  | r :: rest => if rend r <=? offset then skip_ended offset rest else blocked
  end.

(** The same, adding up the weights passed; unsigned addition wraps. *)
Fixpoint pass (test : Z -> bool) (bs : list WeightedBoundary) (total : Z) : list WeightedBoundary * Z :=
  match bs with
  | [] => ([], total)
  | b :: rest => if test (position b) then pass test rest (u64 (total + bweight b)) else (bs, total)
  end.

Record Sweep := MkSweep {
  blocked_left : list AddressRange;
  starts_left : list WeightedBoundary;
  ends_left : list WeightedBoundary;
  started_weight : Z;
  ended_weight : Z;
  best : option (Z * Z)
}.

Definition score_less (a b : Z * Z) : bool := (a.1 <? b.1) || ((a.1 =? b.1) && (a.2 <? b.2)).

(** The candidates of one buffer: the number evaluated, and the best score
    unless the sweep gave up. *)
Fixpoint sweep (size capacity : Z) (candidates : list Z) (sw : Sweep) (evaluated : Z)
    : Z * option (option (Z * Z)) :=
  match candidates with
  | [] => (evaluated, Some (best sw))
  | offset :: candidates =>
      let evaluated := u64 (evaluated + 1) in
      if AddOverflows offset size || (u64 (offset + size) >? capacity)
      then sweep size capacity candidates sw evaluated
      else
        let candidate_end := u64 (offset + size) in
        let blocked := skip_ended offset (blocked_left sw) in
        if match blocked with r :: _ => rbegin r <? candidate_end | [] => false end
        then sweep size capacity candidates
               (MkSweep blocked (starts_left sw) (ends_left sw) (started_weight sw) (ended_weight sw) (best sw))
               evaluated
        else
          let (starts, started) := pass (fun v => v <? candidate_end) (starts_left sw) (started_weight sw) in
          let (ends, ended) := pass (fun v => v <=? offset) (ends_left sw) (ended_weight sw) in
          if started <? ended then (evaluated, None)
          else
            let score := (started - ended, offset) in
            let best := match best sw with
                        | Some b => if score_less score b then Some score else Some b
                        | None => Some score
                        end in
            sweep size capacity candidates (MkSweep blocked starts ends started ended best) evaluated
  end.

Definition best_offset (p : DsaProblem) (s : SearchSpace) (pl : Placement) (node : Buffer) (pool : Pool)
    (current : nat) (evaluated : Z) : Z * option (option (Z * Z)) :=
  let (starts, ends) := BuildSoftBoundaries s pl current in
  sweep (bsize node) (capacity pool) (CandidateOffsets p s pl node current)
    (MkSweep (MergeBlockingRanges (BlockingRanges p s pl node current)) starts ends 0 0 None) evaluated.

Fixpoint place_loop (p : DsaProblem) (s : SearchSpace) (pl : Placement) (order : list nat) (evaluated : Z)
    : result (option Placement * Z) :=
  match order with
  | [] => Ok (Some pl, evaluated)
  | current :: order =>
      let* node := node_of s current in
      let* pool := pool_at p (bpool node) in
      let (evaluated, found) := best_offset p s pl node pool current evaluated in
      match found with
      | Some (Some (_, o)) => place_loop p s (<[ current := o ]> pl) order evaluated
      | _ => Ok (None, evaluated)
      end
  end.

Definition PlaceCanonicalOrder (p : DsaProblem) (s : SearchSpace) (order : list nat) (evaluated : Z)
    : result (option DsaSolution * Z) :=
  let* (pl, evaluated) := place_loop p s ∅ order evaluated in Ok (BuildSolution s <$> pl, evaluated).

(** ** Solve *)

Inductive SolveStatus := kFeasible | kNoFit | kInvalidProblem.

Record SolverStatistics := MkStatistics {
  candidate_offsets_evaluated : Z;
  orders_evaluated : nat;
  selected_order : nat;
  first_fit_seed_feasible : bool;
  selected_first_fit_seed : bool
}.

Record DsaResult := MkResult {
  status : SolveStatus;
  solution : option DsaSolution;
  objective : ObjectiveValue;
  statistics : SolverStatistics;
  diagnostics : list string
}.

Definition no_objective : ObjectiveValue := MkObjective 0 0 0 ∅.
Definition initial_result : DsaResult :=
  MkResult kInvalidProblem None no_objective (MkStatistics 0 0 0 false false) [].

Definition objective_key (o : ObjectiveValue) : list Z := [reuse_cost o; total_peak o; max_peak o].
Definition IsBetterObjective (candidate incumbent : ObjectiveValue) : bool :=
  negb (lex_le (objective_key incumbent) (objective_key candidate)).

(** The last step of [Solve]. *)
Definition finish (r : DsaResult) : DsaResult :=
  match solution r with
  | Some _ => r
  | None => MkResult kNoFit None (objective r) (statistics r)
              (diagnostics r ++ ["canonical greedy found no capacity-fitting placement"])
  end.

Definition count_order (st : SolverStatistics) (evaluated : Z) : SolverStatistics :=
  MkStatistics evaluated (S (orders_evaluated st)) (selected_order st) (first_fit_seed_feasible st)
    (selected_first_fit_seed st).

Definition adopt (r : DsaResult) (s : DsaSolution) (o : ObjectiveValue) (st : SolverStatistics) (index : nat)
    : DsaResult :=
  MkResult kFeasible (Some s) o
    (MkStatistics (candidate_offsets_evaluated st) (orders_evaluated st) index (first_fit_seed_feasible st) false)
    (diagnostics r).

Fixpoint try_orders (p : DsaProblem) (s : SearchSpace) (orders : list (list nat)) (index : nat) (r : DsaResult)
    : result DsaResult :=
  match orders with
  | [] => Ok (finish r)
  | order :: orders =>
      let* (placement, evaluated) :=
        PlaceCanonicalOrder p s order (candidate_offsets_evaluated (statistics r)) in
      let st := count_order (statistics r) evaluated in
      match placement with
      | None => try_orders p s orders (S index) (MkResult (status r) (solution r) (objective r) st (diagnostics r))
      | Some sol =>
          let* errors := ValidateSolution p sol in
          match errors with
          | [] =>
              let o := EvaluateObjective p sol in
              let replace := match solution r with None => true | Some _ => IsBetterObjective o (objective r) end in
              if replace then try_orders p s orders (S index) (adopt r sol o st index)
              else try_orders p s orders (S index) (MkResult (status r) (solution r) (objective r) st (diagnostics r))
          | _ =>
              Ok (MkResult kInvalidProblem None (objective r) st
                    (diagnostics r ++
                     "canonical greedy produced a placement that failed independent validation" :: errors))
          end
      end
  end.

Definition Solve `{Shuffle} (options : CanonicalGreedyOptions) (p : DsaProblem) : result DsaResult :=
  match ValidateProblem p with
  | [] =>
      let* s := BuildSearchSpace p in
      let* first_fit := FirstFitIncumbent p s in
      match first_fit with
      | None => try_orders p s (CanonicalOrders s options) 0 initial_result
      | Some sol =>
          let* errors := ValidateSolution p sol in
          match errors with
          | [] =>
              try_orders p s (CanonicalOrders s options) 0
                (MkResult kFeasible (Some sol) (EvaluateObjective p sol) (MkStatistics 0 0 0 true true) [])
          | _ =>
              Ok (MkResult kInvalidProblem None no_objective (MkStatistics 0 0 0 false false)
                    ("internal first-fit incumbent failed independent validation" :: errors))
          end
      end
  | errors => Ok (MkResult kInvalidProblem None no_objective (MkStatistics 0 0 0 false false) errors)
  end.
