(* ===== verification/DsaSpec.v ===== *)
(** * What a valid allocation is

    The abstract specification of problems and placements, in terms of byte
    ranges, and the proof that the validators decide it. *)

From Stdlib Require Import ZArith Lia Bool List String.
From stdpp Require Import base gmap list option strings pretty sorting.
From S2P Require Import Prelude.
From S2P Require Import Dsa.

(** ** The specification *)

Definition disjoint_ranges (o n o' n' : Z) : Prop := o + n <= o' \/ o' + n' <= o.

Definition range_ok (pool : Pool) (r : AddressRange) : Prop := rbegin r < rend r <= capacity pool.

Definition pool_ok (pool : Pool) : Prop :=
  capacity pool <> 0 /\ Forall (range_ok pool) (reserved_ranges pool).

Definition buffer_ok (p : DsaProblem) (b : Buffer) : Prop :=
  bsize b <> 0 /\ alignment b <> 0 /\ 0 <= ibegin (lifetime b) < iend (lifetime b) /\
  exists pool, pool ∈ pools p /\ pool_id pool = bpool b.

(** Two distinct known buffers of one pool, and more about them. *)
Definition pair_ok (p : DsaProblem) (P : Buffer -> Buffer -> Prop) (first second : Z) : Prop :=
  first <> second /\
  exists b c, b ∈ buffers p /\ c ∈ buffers p /\ buffer_id b = first /\ buffer_id c = second /\
    bpool b = bpool c /\ P b c.

Record problem_ok (p : DsaProblem) : Prop := {
  pool_ids : NoDup (map pool_id (pools p));
  pools_ok : Forall pool_ok (pools p);
  buffer_ids : NoDup (map buffer_id (buffers p));
  buffers_ok : Forall (buffer_ok p) (buffers p);
  separations_ok : Forall (fun s => pair_ok p (fun _ _ => True) (sfirst s) (ssecond s)) (separations p);
  penalties_ok : Forall (fun r => pair_ok p (fun b c => Overlaps (lifetime b) (lifetime c) = false)
    (pfirst r) (psecond r)) (reuse_penalties p);
  total_weight_ok : foldr Z.add 0 (map weight (reuse_penalties p)) <= UINT64_MAX
}.

(** The members are unsigned 64-bit integers. *)
Record typed (p : DsaProblem) : Prop := {
  typed_pools : Forall (fun pool => is_u64 (capacity pool) /\
    Forall (fun r => is_u64 (rbegin r) /\ is_u64 (rend r)) (reserved_ranges pool)) (pools p);
  typed_buffers : Forall (fun b => is_u64 (bsize b) /\ is_u64 (alignment b)) (buffers p);
  typed_penalties : Forall (fun r => is_u64 (weight r)) (reuse_penalties p)
}.

Definition separated (l : list Separation) (b c : Buffer) : Prop :=
  exists s, s ∈ l /\ (sfirst s = buffer_id b /\ ssecond s = buffer_id c \/
                      sfirst s = buffer_id c /\ ssecond s = buffer_id b).

(** Buffers of one pool that must not share a byte. *)
Definition conflicting (p : DsaProblem) (b c : Buffer) : Prop :=
  bpool b = bpool c /\ (Overlaps (lifetime b) (lifetime c) = true \/ separated (separations p) b c).

Definition placed_ok (p : DsaProblem) (b : Buffer) (o : Z) : Prop :=
  (alignment b | o) /\
  forall pool, pool ∈ pools p -> pool_id pool = bpool b ->
    o + bsize b <= capacity pool /\
    Forall (fun r => disjoint_ranges o (bsize b) (rbegin r) (rend r - rbegin r)) (reserved_ranges pool).

Record solution_ok (p : DsaProblem) (s : DsaSolution) : Prop := {
  only_buffers id : is_Some (s !! id) -> exists b, b ∈ buffers p /\ buffer_id b = id;
  all_placed b : b ∈ buffers p -> exists o, s !! buffer_id b = Some o /\ placed_ok p b o;
  no_overlap b c o o' : b ∈ buffers p -> c ∈ buffers p -> buffer_id b <> buffer_id c ->
    conflicting p b c -> s !! buffer_id b = Some o -> s !! buffer_id c = Some o' ->
    disjoint_ranges o (bsize b) o' (bsize c)
}.

Definition typed_solution (s : DsaSolution) : Prop := forall id o, s !! id = Some o -> is_u64 o.

(** ** Arithmetic *)

Lemma AddOverflows_false a b : AddOverflows a b = false <-> a + b <= UINT64_MAX.
Proof. unfold AddOverflows. rewrite Z.gtb_ltb, Z.ltb_ge. lia. Qed.

Lemma add_u64 a b : is_u64 a -> is_u64 b -> AddOverflows a b = false -> u64 (a + b) = a + b.
Proof. intros Ha Hb H%AddOverflows_false. apply u64_id. unfold is_u64 in *. lia. Qed.

Lemma RangesOverlap_false o n o' n' :
  is_u64 o -> is_u64 n -> is_u64 o' -> is_u64 n' -> n <> 0 -> n' <> 0 ->
  o + n <= UINT64_MAX -> o' + n' <= UINT64_MAX ->
  RangesOverlap o n o' n' = false <-> disjoint_ranges o n o' n'.
Proof.
  intros Ho Hn Ho' Hn' Nn Nn' H H'. unfold RangesOverlap, disjoint_ranges.
  apply AddOverflows_false in H, H'. rewrite H, H', !add_u64 by done.
  replace (n =? 0) with false by lia. replace (n' =? 0) with false by lia. cbn [orb].
  rewrite andb_false_iff, !Z.ltb_ge. lia.
Qed.

(** ** Lists of messages *)

Lemma complain_nil b m : complain b m = [] <-> b = false.
Proof. by destruct b. Qed.

Lemma flat_map_nil {A B} (f : A -> list B) l : flat_map f l = [] <-> forall x, x ∈ l -> f x = [].
Proof.
  induction l as [|x l IH]; simpl; [split; [intros _ x Hx; by apply not_elem_of_nil in Hx | done] |].
  rewrite app_nil, IH. setoid_rewrite elem_of_cons. naive_solver.
Qed.

(** ** [emplace] *)

Definition emplace_all {A} (id : A -> Z) (m : gmap Z A) (l : list A) : gmap Z A :=
  foldl (fun m v => (emplace m (id v) v).1) m l.

Lemma emplace_lookup {A} (m : gmap Z A) k v i :
  (emplace m k v).1 !! i = match m !! i with Some w => Some w | None => if decide (i = k) then Some v else None end.
Proof.
  unfold emplace. destruct (m !! k) eqn:E; simpl.
  - destruct (m !! i) eqn:Ei; [done |]. case_decide; [congruence | done].
  - destruct (decide (i = k)) as [->|Hi]; [by rewrite lookup_insert_eq, E |].
    rewrite lookup_insert_ne by done. by destruct (m !! i).
Qed.

Lemma emplace_fresh {A} (m : gmap Z A) k v : (emplace m k v).2 = true <-> m !! k = None.
Proof. unfold emplace. destruct (m !! k); simpl; split; congruence. Qed.

(** Emplacing the values of a list under their keys. *)
Definition emplace_with {A B} (key : A -> Z) (val : A -> B) (m : gmap Z B) (l : list A) : gmap Z B :=
  foldl (fun m v => (emplace m (key v) (val v)).1) m l.

Lemma emplace_with_some {A B} (key : A -> Z) (val : A -> B) m l i w :
  emplace_with key val m l !! i = Some w -> m !! i = Some w \/ exists v, v ∈ l /\ key v = i /\ val v = w.
Proof.
  revert m. induction l as [|v l IH]; intros m; simpl; [auto |].
  intros [Hm|(u & Hu & H)]%IH; [|right; exists u; split; [by right | done]].
  rewrite emplace_lookup in Hm. destruct (m !! i); [by left |]. case_decide; [|done].
  simplify_eq. right. exists v. split; [by left | done].
Qed.

Lemma emplace_with_keeps {A B} (key : A -> Z) (val : A -> B) m l i w :
  m !! i = Some w -> emplace_with key val m l !! i = Some w.
Proof.
  revert m. induction l as [|v l IH]; intros m; simpl; [done |].
  intros Hm. apply IH. by rewrite emplace_lookup, Hm.
Qed.

Lemma emplace_with_in {A B} (key : A -> Z) (val : A -> B) m l v :
  NoDup (map key l) -> (forall w, w ∈ l -> m !! key w = None) -> v ∈ l ->
  emplace_with key val m l !! key v = Some (val v).
Proof.
  revert m. induction l as [|w l IH]; intros m Hn Hm Hv; [by apply not_elem_of_nil in Hv |].
  apply NoDup_cons in Hn as [Hw Hn]. simpl. apply elem_of_cons in Hv as [->|Hv].
  - apply emplace_with_keeps. rewrite emplace_lookup, (Hm w) by (by left). by rewrite decide_True.
  - apply IH; [done | | done]. intros u Hu. rewrite emplace_lookup, (Hm u) by (by right).
    rewrite decide_False; [done |]. intros E. apply Hw. rewrite <- E. by apply list_elem_of_fmap_2.
Qed.

Lemma emplace_all_some {A} (id : A -> Z) m l i v :
  emplace_all id m l !! i = Some v -> m !! i = Some v \/ v ∈ l /\ id v = i.
Proof.
  intros [H|(w & Hw & E & <-)]%(emplace_with_some id (fun v => v)); auto.
Qed.

Lemma emplace_all_keeps {A} (id : A -> Z) m l i v :
  m !! i = Some v -> emplace_all id m l !! i = Some v.
Proof. apply (emplace_with_keeps id (fun v => v)). Qed.

Lemma emplace_all_in {A} (id : A -> Z) m l v :
  NoDup (map id l) -> (forall w, w ∈ l -> m !! id w = None) -> v ∈ l ->
  emplace_all id m l !! id v = Some v.
Proof. apply (emplace_with_in id (fun v => v)). Qed.

Lemma by_id_some {A} (id : A -> Z) l i v : by_id id l !! i = Some v -> v ∈ l /\ id v = i.
Proof. intros [Hm|H]%emplace_all_some; [by rewrite lookup_empty in Hm | done]. Qed.

Lemma by_id_in {A} (id : A -> Z) l v : NoDup (map id l) -> v ∈ l -> by_id id l !! id v = Some v.
Proof. intros Hn Hv. apply emplace_all_in; [done | intros; apply lookup_empty | done]. Qed.

(** ** The validator of problems *)

Lemma range_errors_nil pool r : range_errors pool r = [] <-> range_ok pool r.
Proof.
  unfold range_errors, range_ok. rewrite Z.geb_leb.
  destruct (rend r <=? rbegin r) eqn:E; bool_to_prop; [split; [done | lia] |].
  rewrite complain_nil, Z.gtb_ltb, Z.ltb_ge. lia.
Qed.

Lemma fresh_cons {A} (id : A -> Z) (m : gmap Z A) v l :
  m !! id v = None /\ NoDup (map id l) /\ (forall w, w ∈ l -> (emplace m (id v) v).1 !! id w = None) <->
  NoDup (map id (v :: l)) /\ (forall w, w ∈ v :: l -> m !! id w = None).
Proof.
  cbn [map]. rewrite NoDup_cons. split.
  - intros (Hv & Hn & Hw). split_and!; [|done|].
    + intros (w & E & Hin)%list_elem_of_fmap_1. specialize (Hw w Hin).
      rewrite emplace_lookup, <- E, Hv, decide_True in Hw by done. done.
    + intros w [->|Hin]%elem_of_cons; [done |]. specialize (Hw w Hin). rewrite emplace_lookup in Hw.
      by destruct (m !! id w).
  - intros [[Hnot Hn] Hw]. split_and!; [apply Hw; by left | done |].
    intros w Hin. rewrite emplace_lookup, (Hw w) by (by right). rewrite decide_False; [done |].
    intros E. apply Hnot. rewrite <- E. by apply list_elem_of_fmap_2.
Qed.

Lemma pool_errors_spec m ps errors m' :
  pool_errors m ps = (errors, m') ->
  m' = emplace_all pool_id m ps /\
  (errors = [] <-> (NoDup (map pool_id ps) /\ forall w, w ∈ ps -> m !! pool_id w = None) /\ Forall pool_ok ps).
Proof.
  revert m errors m'. induction ps as [|pool ps IH]; intros m errors m'; cbn [pool_errors].
  - intros [= <- <-]. split; [done |]. split; [|done]. intros _. split; [|by constructor].
    split; [constructor | intros w Hw; by apply not_elem_of_nil in Hw].
  - destruct (emplace m (pool_id pool) pool) as [m1 fresh] eqn:Ee.
    destruct (pool_errors m1 ps) as [rest m2] eqn:Er. intros [= <- <-].
    assert (Em : m1 = (emplace m (pool_id pool) pool).1) by (by rewrite Ee).
    assert (Ef : fresh = true <-> m !! pool_id pool = None) by (rewrite <- (emplace_fresh _ _ pool); by rewrite Ee).
    apply IH in Er as [-> Hr]. split; [cbn [emplace_all foldl]; by rewrite Em |].
    rewrite !app_nil, !complain_nil, negb_false_iff, Ef, flat_map_nil, Hr, Em, <- fresh_cons, Z.eqb_neq.
    assert (Hp : pool_ok pool <->
      capacity pool <> 0 /\ forall r, r ∈ reserved_ranges pool -> range_errors pool r = []).
    { unfold pool_ok. rewrite List.Forall_forall. setoid_rewrite range_errors_nil. by setoid_rewrite list_elem_of_In. }
    rewrite List.Forall_cons_iff, Hp. tauto.
Qed.

Lemma buffer_errors_spec p ps m bs errors m' :
  (forall id, is_Some (ps !! id) <-> exists pool, pool ∈ pools p /\ pool_id pool = id) ->
  buffer_errors ps m bs = (errors, m') ->
  m' = emplace_all buffer_id m bs /\
  (errors = [] <-> (NoDup (map buffer_id bs) /\ forall w, w ∈ bs -> m !! buffer_id w = None) /\
    Forall (buffer_ok p) bs).
Proof.
  intros Hps. revert m errors m'. induction bs as [|b bs IH]; intros m errors m'; cbn [buffer_errors].
  - intros [= <- <-]. split; [done |]. split; [|done]. intros _. split; [|by constructor].
    split; [constructor | intros w Hw; by apply not_elem_of_nil in Hw].
  - destruct (emplace m (buffer_id b) b) as [m1 fresh] eqn:Ee.
    destruct (buffer_errors ps m1 bs) as [rest m2] eqn:Er. intros [= <- <-].
    assert (Em : m1 = (emplace m (buffer_id b) b).1) by (by rewrite Ee).
    assert (Ef : fresh = true <-> m !! buffer_id b = None) by (rewrite <- (emplace_fresh _ _ b); by rewrite Ee).
    apply IH in Er as [-> Hr]. split; [cbn [emplace_all foldl]; by rewrite Em |].
    rewrite !app_nil, !complain_nil, negb_false_iff, Ef, Hr, Em, <- fresh_cons, !Z.eqb_neq.
    rewrite orb_false_iff, Z.ltb_ge, Z.geb_leb, Z.leb_gt, bool_decide_eq_false.
    assert (Hb : buffer_ok p b <-> bsize b <> 0 /\ alignment b <> 0 /\
      (0 <= ibegin (lifetime b) /\ ibegin (lifetime b) < iend (lifetime b)) /\ ps !! bpool b <> None).
    { unfold buffer_ok. by rewrite <- Hps, <- not_eq_None_Some. }
    rewrite List.Forall_cons_iff, Hb. tauto.
Qed.

Lemma pair_errors_nil p first second kind :
  NoDup (map buffer_id (buffers p)) ->
  pair_errors (BuffersById p) first second kind = [] <-> pair_ok p (fun _ _ => True) first second.
Proof.
  intros Hn. unfold pair_errors. rewrite app_nil, complain_nil, Z.eqb_neq. unfold pair_ok.
  split; intros [Hne H]; (split; [done |]).
  - destruct (BuffersById p !! first) as [b|] eqn:Eb, (BuffersById p !! second) as [c|] eqn:Ec; try done.
    apply complain_nil, negb_false_iff, Z.eqb_eq in H.
    apply by_id_some in Eb as [Hb <-], Ec as [Hc <-]. by exists b, c.
  - destruct H as (b & c & Hb & Hc & <- & <- & E & _). unfold BuffersById. rewrite !by_id_in by done.
    apply complain_nil, negb_false_iff, Z.eqb_eq. done.
Qed.

Lemma penalty_errors_nil p total rs :
  NoDup (map buffer_id (buffers p)) -> is_u64 total -> Forall (fun r => is_u64 (weight r)) rs ->
  penalty_errors (BuffersById p) total rs = [] <->
  Forall (fun r => pair_ok p (fun b c => Overlaps (lifetime b) (lifetime c) = false) (pfirst r) (psecond r)) rs /\
  total + foldr Z.add 0 (map weight rs) <= UINT64_MAX.
Proof.
  intros Hn Ht Hw. revert total Ht. induction Hw as [|r rs Hr Hrs IH]; intros total Ht;
    cbn [penalty_errors map foldr].
  { split; [intros _; split; [by constructor | unfold is_u64 in Ht; lia] | done]. }
  rewrite !app_nil, (pair_errors_nil p) by done. rewrite List.Forall_cons_iff.
  assert (Hpair : pair_ok p (fun _ _ => True) (pfirst r) (psecond r) /\
    match BuffersById p !! pfirst r, BuffersById p !! psecond r with
    | Some b, Some c => complain ((bpool b =? bpool c) && Overlaps (lifetime b) (lifetime c))
        "reuse penalty endpoints must have lifetime-compatible buffers"
    | _, _ => [] end = [] <->
    pair_ok p (fun b c => Overlaps (lifetime b) (lifetime c) = false) (pfirst r) (psecond r)).
  { unfold pair_ok, BuffersById. split.
    - intros [(Hne & b & c & Hb & Hc & E1 & E2 & Ep & _) H]. split; [done |]. exists b, c.
      rewrite <- E1, <- E2, !by_id_in in H by done. apply complain_nil in H.
      apply Z.eqb_eq in Ep as Ep'. rewrite Ep' in H. done.
    - intros (Hne & b & c & Hb & Hc & E1 & E2 & Ep & Ho). split; [split; [done |]; by exists b, c |].
      rewrite <- E1, <- E2, !by_id_in by done. by rewrite Ho, andb_false_r. }
  rewrite <- Logic.and_assoc, Hpair.
  assert (Hsum : 0 <= foldr Z.add 0 (map weight rs)).
  { clear -Hrs. induction Hrs as [|r rs Hr _ IH]; simpl; [lia |]. unfold is_u64 in Hr. lia. }
  destruct (AddOverflows total (weight r)) eqn:Eo.
  - apply not_false_iff_true in Eo. rewrite AddOverflows_false in Eo. split; [by intros [_ ?] |]. intros [_ H]. lia.
  - rewrite add_u64 by done. apply AddOverflows_false in Eo. rewrite IH by (unfold is_u64 in *; lia).
    replace (total + weight r + foldr Z.add 0 (map weight rs)) with (total + (weight r + foldr Z.add 0 (map weight rs))) by lia.
    tauto.
Qed.

Lemma ValidateProblem_ok p : typed p -> ValidateProblem p = [] <-> problem_ok p.
Proof.
  intros [_ _ Hw]. unfold ValidateProblem.
  destruct (pool_errors ∅ (pools p)) as [e1 ps] eqn:E1. apply pool_errors_spec in E1 as [-> H1].
  destruct (buffer_errors _ ∅ (buffers p)) as [e2 bs] eqn:E2.
  apply (buffer_errors_spec p) in E2 as [-> H2].
  2: { intros id. split.
       - intros [pool [Hm|H]%emplace_all_some]; [by rewrite lookup_empty in Hm | by exists pool].
       - intros (pool & Hp & <-). destruct (emplace_all pool_id ∅ (pools p) !! pool_id pool) eqn:E; [done |]. exfalso.
         clear -Hp E. revert Hp E. generalize (∅ : gmap Z Pool). induction (pools p) as [|q l IH]; intros m Hp E;
           [by apply not_elem_of_nil in Hp |]. apply elem_of_cons in Hp as [<-|Hp]; [|by eapply IH].
         assert (exists v, (emplace m (pool_id pool) pool).1 !! pool_id pool = Some v) as [v Hv].
         { rewrite emplace_lookup, decide_True by done. destruct (m !! pool_id pool); eauto. }
         simpl in E. rewrite (emplace_all_keeps pool_id _ l _ _ Hv) in E. done. }
  rewrite !app_nil, H1, H2, flat_map_nil.
  assert (Hs : NoDup (map buffer_id (buffers p)) ->
    (forall s, s ∈ separations p -> pair_errors (BuffersById p) (sfirst s) (ssecond s) "separation" = []) <->
    Forall (fun s => pair_ok p (fun _ _ => True) (sfirst s) (ssecond s)) (separations p)).
  { intros Hn. rewrite List.Forall_forall. setoid_rewrite list_elem_of_In.
    by setoid_rewrite (fun s => pair_errors_nil p (sfirst s) (ssecond s) "separation" Hn). }
  pose proof (fun Hn => penalty_errors_nil p 0 (reuse_penalties p) Hn ltac:(unfold is_u64, UINT64_MAX; lia) Hw) as Hp.
  split.
  - intros ([[Hn1 _] Hpo] & [[Hn2 _] Hbo] & Hse & Hpe). apply Hs in Hse; [|done]. apply Hp in Hpe as [Hpe ?]; [|done].
    by split.
  - intros [Hn1 Hpo Hn2 Hbo Hse Hpe Ht]. split_and!; try done; [by apply Hs | by apply Hp].
Qed.

(** ** The validator of placements *)

Lemma canonical_eq a b c d :
  CanonicalBufferPair a b = CanonicalBufferPair c d <-> (a = c /\ b = d) \/ (a = d /\ b = c).
Proof.
  unfold CanonicalBufferPair. destruct (Z.ltb_spec a b), (Z.ltb_spec c d); (split; [intros [= -> ->]; lia |]);
    intros [[-> ->]|[-> ->]]; try done; try lia; f_equal; lia.
Qed.

Lemma separation_pairs_in l b c :
  CanonicalBufferPair (buffer_id b) (buffer_id c) ∈ separation_pairs l <-> separated l b c.
Proof.
  unfold separation_pairs. rewrite elem_of_list_to_set. split.
  - intros (s & E & Hs)%list_elem_of_fmap_1. apply canonical_eq in E. exists s. split; [done |]. naive_solver.
  - intros (s & Hs & H). apply list_elem_of_fmap. exists s. split; [|done]. apply canonical_eq. naive_solver.
Qed.

Lemma Overlaps_sym a b : Overlaps a b = Overlaps b a.
Proof. unfold Overlaps. apply andb_comm. Qed.

Lemma conflict_sym seps b c : conflict seps b c = conflict seps c b.
Proof.
  unfold conflict. rewrite Overlaps_sym. f_equal. apply bool_decide_ext.
  by assert (CanonicalBufferPair (buffer_id b) (buffer_id c) = CanonicalBufferPair (buffer_id c) (buffer_id b))
    as -> by (apply canonical_eq; auto).
Qed.

Lemma RangesOverlap_sym o n o' n' : RangesOverlap o n o' n' = RangesOverlap o' n' o n.
Proof.
  unfold RangesOverlap. destruct (n =? 0), (n' =? 0), (AddOverflows o n), (AddOverflows o' n'); try done.
  apply andb_comm.
Qed.

Lemma conflict_errors_sym seps s b c : conflict_errors seps s b c = [] <-> conflict_errors seps s c b = [].
Proof.
  unfold conflict_errors. rewrite (conflict_sym seps b c), (Z.eqb_sym (bpool b)).
  destruct (bpool c =? bpool b), (conflict seps c b); try done. cbn [negb].
  destruct (s !! buffer_id b), (s !! buffer_id c); try done. by rewrite !complain_nil, RangesOverlap_sym.
Qed.

Lemma conflicts_errors_nil seps s bs :
  NoDup (map buffer_id bs) ->
  conflicts_errors seps s bs = [] <->
  forall b c, b ∈ bs -> c ∈ bs -> buffer_id b <> buffer_id c -> conflict_errors seps s b c = [].
Proof.
  induction bs as [|b bs IH]; cbn [conflicts_errors map].
  { intros _. split; [intros _ b c Hb; by apply not_elem_of_nil in Hb | done]. }
  intros [Hb Hn]%NoDup_cons. rewrite app_nil, flat_map_nil, IH by done. split.
  - intros [H1 H2] d c Hd Hc Hne. apply elem_of_cons in Hd as [->|Hd], Hc as [->|Hc]; try done; auto.
    apply conflict_errors_sym. auto.
  - intros H. split; [|intros d c Hd Hc; apply H; by right].
    intros c Hc. apply H; [by left | by right |]. intros E. apply Hb. rewrite E. by apply list_elem_of_fmap_2.
Qed.

Section Placement.
Context (p : DsaProblem) (s : DsaSolution).
Hypothesis p_typed : typed p.
Hypothesis p_ok : problem_ok p.
Hypothesis s_typed : typed_solution s.

Lemma pool_of b : b ∈ buffers p -> exists pool,
  PoolsById p !! bpool b = Some pool /\ pool ∈ pools p /\ pool_id pool = bpool b /\ pool_ok pool /\
  forall q, q ∈ pools p -> pool_id q = bpool b -> q = pool.
Proof.
  intros Hb. destruct (proj1 (List.Forall_forall _ _) (buffers_ok _ p_ok) b) as (_ & _ & _ & pool & Hp & Hid);
    [by apply list_elem_of_In |].
  exists pool. rewrite <- Hid. unfold PoolsById. pose proof (pool_ids _ p_ok) as Hn.
  split_and!; try done; [by apply by_id_in | |].
  - by apply (proj1 (List.Forall_forall _ _) (pools_ok _ p_ok)), list_elem_of_In.
  - intros q Hq E. pose proof (by_id_in pool_id _ _ Hn Hq) as H1. rewrite E, (by_id_in _ _ _ Hn Hp) in H1. congruence.
Qed.

Lemma buffer_facts b : b ∈ buffers p -> is_u64 (bsize b) /\ is_u64 (alignment b) /\ bsize b <> 0 /\ alignment b <> 0.
Proof.
  rewrite list_elem_of_In. intros Hb.
  pose proof (proj1 (List.Forall_forall _ _) (typed_buffers _ p_typed) b Hb) as [? ?].
  pose proof (proj1 (List.Forall_forall _ _) (buffers_ok _ p_ok) b Hb) as (? & ? & _). done.
Qed.

Lemma capacity_u64 pool : pool ∈ pools p -> is_u64 (capacity pool).
Proof.
  rewrite list_elem_of_In. intros Hp. by apply (proj1 (List.Forall_forall _ _) (typed_pools _ p_typed)).
Qed.

Lemma range_facts pool r : pool ∈ pools p -> r ∈ reserved_ranges pool ->
  is_u64 (rbegin r) /\ is_u64 (rend r) /\ rbegin r < rend r <= capacity pool.
Proof.
  rewrite !list_elem_of_In. intros Hp Hr.
  pose proof (proj1 (List.Forall_forall _ _) (typed_pools _ p_typed) pool Hp) as [_ Ht].
  pose proof (proj1 (List.Forall_forall _ _) Ht r Hr) as [? ?].
  pose proof (proj1 (List.Forall_forall _ _) (pools_ok _ p_ok) pool Hp) as [_ Ho].
  pose proof (proj1 (List.Forall_forall _ _) Ho r Hr). done.
Qed.

Lemma placement_errors_spec b : b ∈ buffers p ->
  exists errors, placement_errors (PoolsById p) s b = Ok errors /\
    (errors = [] <-> exists o, s !! buffer_id b = Some o /\ placed_ok p b o).
Proof.
  intros Hb. destruct (pool_of b Hb) as (pool & Ep & Hp & Hid & [Hc Hr] & Hu).
  destruct (buffer_facts b Hb) as (Tn & Ta & Nn & Na). unfold placement_errors. rewrite Ep.
  destruct (s !! buffer_id b) as [o|] eqn:Eo; [|eexists; split; [done |]; split; [done | by intros (? & ? & _)]].
  pose proof (s_typed _ _ Eo) as To. pose proof (capacity_u64 pool Hp) as Tc.
  assert (Hal : (alignment b | o) <-> negb (o mod alignment b =? 0) = false).
  { rewrite negb_false_iff, Z.eqb_eq. by rewrite Z.mod_divide. }
  assert (Hpl : (exists o0, Some o = Some o0 /\ placed_ok p b o0) <-> (alignment b | o) /\ o + bsize b <= capacity pool /\
    Forall (fun r => disjoint_ranges o (bsize b) (rbegin r) (rend r - rbegin r)) (reserved_ranges pool)).
  { split.
    - intros (? & [= <-] & Ha & Hq). split; [done | by apply Hq].
    - intros [Ha Hq]. exists o. split; [done |]. split; [done |]. intros q Hq1 Hq2. by rewrite (Hu q Hq1 Hq2). }
  destruct (AddOverflows o (bsize b)) eqn:Ov; (eexists; split; [done |]); rewrite Hpl, Hal.
  - rewrite app_nil. split; [by intros [_ ?] |]. intros (_ & Hle & _). apply not_false_iff_true in Ov.
    rewrite AddOverflows_false in Ov. unfold is_u64 in *. lia.
  - rewrite !app_nil, !complain_nil, flat_map_nil, add_u64, Z.gtb_ltb, Z.ltb_ge, List.Forall_forall by done.
    apply AddOverflows_false in Ov. apply and_iff_compat_l, and_iff_compat_l.
    split; intros H r Hin; [apply list_elem_of_In in Hin | apply list_elem_of_In in Hin as Hin'];
      specialize (H r); destruct (range_facts pool r Hp) as (T1 & T2 & Hlt);
      try done; try (by apply list_elem_of_In); unfold is_u64 in *.
    + rewrite complain_nil, u64_id, RangesOverlap_false in H by (unfold is_u64; done || lia). auto.
    + rewrite complain_nil, u64_id, RangesOverlap_false by (unfold is_u64; done || lia). auto.
Qed.

Lemma placements_errors_spec bs :
  (forall b, b ∈ bs -> b ∈ buffers p) ->
  exists errors, placements_errors (PoolsById p) s bs = Ok errors /\
    (errors = [] <-> forall b, b ∈ bs -> exists o, s !! buffer_id b = Some o /\ placed_ok p b o).
Proof.
  induction bs as [|b bs IH]; intros Hin; cbn [placements_errors].
  - exists []. split; [done |]. split; [|done]. intros _ b Hb. by apply not_elem_of_nil in Hb.
  - destruct (placement_errors_spec b) as (e1 & -> & H1); [apply Hin; by left |].
    destruct IH as (e2 & -> & H2); [intros c Hc; apply Hin; by right |]. cbn [bind].
    eexists. split; [done |]. rewrite app_nil, H1, H2. split.
    + intros [Hb Hbs] c [->|Hc]%elem_of_cons; auto.
    + intros H. split; [apply H; by left | intros c Hc; apply H; by right].
Qed.

Lemma conflict_errors_spec b c o o' :
  b ∈ buffers p -> c ∈ buffers p -> s !! buffer_id b = Some o -> s !! buffer_id c = Some o' ->
  placed_ok p b o -> placed_ok p c o' ->
  conflict_errors (separation_pairs (separations p)) s b c = [] <->
  (conflicting p b c -> disjoint_ranges o (bsize b) o' (bsize c)).
Proof.
  intros Hb Hc Eo Eo' [_ Po] [_ Po']. destruct (buffer_facts b Hb) as (Tb & _ & Nb & _).
  destruct (buffer_facts c Hc) as (Tc & _ & Nc & _).
  destruct (pool_of b Hb) as (q & _ & Hq & Eq & _). destruct (Po q Hq Eq) as [Hle _].
  destruct (pool_of c Hc) as (q' & _ & Hq' & Eq' & _). destruct (Po' q' Hq' Eq') as [Hle' _].
  pose proof (capacity_u64 q Hq). pose proof (capacity_u64 q' Hq').
  unfold conflict_errors, conflicting. rewrite Eo, Eo'.
  destruct (Z.eqb_spec (bpool b) (bpool c)) as [E|E]; [|cbn; split; [by intros _ [? _] | done]]. cbn [negb].
  destruct (conflict _ b c) eqn:Ec; cbn [negb].
  - rewrite complain_nil, RangesOverlap_false by (try apply (s_typed _ _ Eo); try apply (s_typed _ _ Eo');
      unfold is_u64 in *; done || lia).
    split; [auto |]. intros H1. apply H1. split; [done |]. unfold conflict in Ec. apply orb_true_iff in Ec as [Ec|Ec];
      [by left | right]. by apply bool_decide_eq_true, separation_pairs_in in Ec.
  - split; [|done]. intros _ [_ H1]. unfold conflict in Ec. apply orb_false_iff in Ec as [E1 E2].
    apply bool_decide_eq_false in E2. rewrite separation_pairs_in in E2. destruct H1; congruence.
Qed.

Lemma ValidateSolution_ok : exists errors, ValidateSolution p s = Ok errors /\ (errors = [] <-> solution_ok p s).
Proof.
  unfold ValidateSolution. rewrite (proj2 (ValidateProblem_ok p p_typed) p_ok).
  destruct (placements_errors_spec (buffers p)) as (e & -> & He); [done |]. cbn [bind]. eexists. split; [done |].
  rewrite !app_nil, flat_map_nil, He, conflicts_errors_nil by apply (buffer_ids _ p_ok).
  assert (Hun : (forall kv, kv ∈ ascending_map s -> (let '(id, _) := kv in complain (bool_decide (BuffersById p !! id = None))
      ("solution contains unknown buffer " +:+ pretty id)) = []) <->
    forall id, is_Some (s !! id) -> exists b, b ∈ buffers p /\ buffer_id b = id).
  { unfold ascending_map, sort_by. setoid_rewrite merge_sort_Permutation. split.
    - intros H id [o Ho]. specialize (H (id, o) (proj2 (elem_of_map_to_list _ _ _) Ho)). simpl in H.
      apply complain_nil, bool_decide_eq_false in H. destruct (BuffersById p !! id) as [b|] eqn:E; [|done].
      apply by_id_some in E. by exists b.
    - intros H [id o] Ho%elem_of_map_to_list. destruct (H id) as (b & Hb & <-); [by exists o |].
      apply complain_nil, bool_decide_eq_false. unfold BuffersById. by rewrite (by_id_in _ _ _ (buffer_ids _ p_ok) Hb). }
  rewrite Hun. split.
  - intros (H1 & H2 & H3). split; [done | done |]. intros b c o o' Hb Hc Hne Hcf Eo Eo'.
    destruct (H2 b Hb) as (? & ? & Pb), (H2 c Hc) as (? & ? & Pc). simplify_eq.
    by apply (conflict_errors_spec b c o o'); auto.
  - intros [H1 H2 H3]. split; [done |]. split; [done |]. intros b c Hb Hc Hne.
    destruct (H2 b Hb) as (o & Eo & Pb), (H2 c Hc) as (o' & Eo' & Pc).
    apply (conflict_errors_spec b c o o'); try done. intros Hcf. by apply (H3 b c).
Qed.

End Placement.
