(* ===== verification/DsaFit.v ===== *)
(** * Fitting one buffer

    Lowest fit finds the lowest aligned offset that avoids the blocked ranges;
    merging keeps what ranges block; the sweep over candidates computes, for
    each, the weight of the soft neighbours it overlaps, and keeps the best. *)

From Stdlib Require Import ZArith Lia Bool List String.
From stdpp Require Import base gmap list option sorting.
From S2P Require Import Prelude.
From S2P Require Import Dsa DsaSearch DsaSpec.

(** ** Sorting *)

#[export] Instance by_key_total {A} (key : A -> list Z) : Total (by_key key).
Proof. intros a b. apply lex_le_total. Qed.
#[export] Instance by_key_trans {A} (key : A -> list Z) : Transitive (by_key key).
Proof. intros a b c. apply lex_le_trans. Qed.

Lemma sort_by_perm {A} (key : A -> list Z) l : sort_by key l ≡ₚ l.
Proof. apply merge_sort_Permutation. Qed.

Lemma sort_by_sorted {A} (key : A -> list Z) l : StronglySorted (by_key key) (sort_by key l).
Proof. apply StronglySorted_merge_sort; apply _. Qed.

Lemma sorted_impl {A} (P Q : A -> A -> Prop) l :
  (forall a b, P a b -> Q a b) -> StronglySorted P l -> StronglySorted Q l.
Proof.
  intros HPQ. induction 1 as [|a l _ IH HF]; constructor; [done |].
  eapply List.Forall_impl; [|exact HF]. auto.
Qed.

Lemma sort_by_first {A} (key : A -> list Z) (f : A -> Z) l :
  (forall a, head (key a) = Some (f a)) -> StronglySorted (fun a b => f a <= f b) (sort_by key l).
Proof.
  intros Hf. eapply sorted_impl; [|apply sort_by_sorted]. unfold by_key. intros a b H.
  specialize (Hf a) as Ha. specialize (Hf b) as Hb. destruct (key a), (key b); try done.
  simplify_eq/=. rewrite orb_true_iff, andb_true_iff, Z.ltb_lt, Z.eqb_eq in H. lia.
Qed.

Lemma ascending_in s v : v ∈ ascending s <-> v ∈ s.
Proof. unfold ascending. by rewrite sort_by_perm, elem_of_elements. Qed.

Lemma ascending_sorted s : StronglySorted Z.le (ascending s).
Proof. by apply (sort_by_first (fun v => [v]) (fun v => v)). Qed.

(** ** Alignment *)

Lemma AlignUp_spec value al :
  is_u64 value -> is_u64 al -> al <> 0 ->
  match AlignUp value al with
  | Some r => is_u64 r /\ (al | r) /\ value <= r /\ forall v, (al | v) -> value <= v -> r <= v
  | None => forall v, (al | v) -> value <= v -> UINT64_MAX < v
  end.
Proof.
  intros Hv Ha Hne. unfold AlignUp. unfold is_u64 in *.
  destruct (Z.leb_spec al 1) as [H1|H1].
  { assert (al = 1) as -> by lia. split_and!; try lia. apply Z.divide_1_l. }
  pose proof (Z.div_mod value al Hne) as Hd. pose proof (Z.mod_pos_bound value al ltac:(lia)) as Hm.
  assert (Hnext : value mod al <> 0 -> forall v, (al | v) -> value <= v -> value + (al - value mod al) <= v).
  { intros Hr v [k ->] Hle. assert (value / al + 1 <= k) by nia. nia. }
  destruct (Z.eqb_spec (value mod al) 0) as [E|E].
  { split_and!; try lia. exists (value / al). lia. }
  rewrite (u64_id (al - value mod al)) by (unfold is_u64; lia).
  destruct (AddOverflows value (al - value mod al)) eqn:Eo.
  - intros v Hv' Hle. specialize (Hnext E v Hv' Hle). apply not_false_iff_true in Eo. rewrite AddOverflows_false in Eo. lia.
  - apply AddOverflows_false in Eo. rewrite u64_id by (unfold is_u64; lia).
    split_and!; try lia; [|by apply Hnext]. exists (value / al + 1). lia.
Qed.

(** ** Lowest fit *)

Definition avoids (o size : Z) (r : AddressRange) : Prop := o + size <= rbegin r \/ rend r <= o.

Definition fits_at (size al : Z) (blocked : list AddressRange) (o : Z) : Prop :=
  0 <= o /\ (al | o) /\ o + size <= UINT64_MAX /\ forall r, r ∈ blocked -> avoids o size r.

Definition u64_range (r : AddressRange) : Prop := is_u64 (rbegin r) /\ is_u64 (rend r).

Lemma lowest_fit_loop_spec size al c blocked :
  is_u64 size -> is_u64 al -> al <> 0 -> is_u64 c -> (al | c) ->
  (forall r, r ∈ blocked -> u64_range r) ->
  StronglySorted (fun a b => rbegin a <= rbegin b) blocked ->
  match lowest_fit_loop size al c blocked with
  | Some o => c <= o /\ fits_at size al blocked o /\ forall v, c <= v -> fits_at size al blocked v -> o <= v
  | None => forall v, c <= v -> ~ fits_at size al blocked v
  end.
Proof.
  intros Hs Ha Hne Hc Hd Hr Hsort. revert c Hc Hd. induction Hsort as [|r blocked _ IH HF]; intros c Hc Hd;
    cbn [lowest_fit_loop].
  - destruct (AddOverflows c size) eqn:Eo.
    + apply not_false_iff_true in Eo. rewrite AddOverflows_false in Eo. intros v Hle (_ & _ & H & _). lia.
    + apply AddOverflows_false in Eo. split; [lia |]. split; [|intros v Hle _; lia].
      split_and!; try done; [unfold is_u64 in *; lia |]. intros r Hin. by apply not_elem_of_nil in Hin.
  - assert (IH' := IH (fun q Hq => Hr q (list_elem_of_further _ _ _ Hq))). clear IH.
    destruct (Hr r ltac:(by left)) as [T1 T2].
    assert (Hsub : forall v, fits_at size al (r :: blocked) v <-> avoids v size r /\ fits_at size al blocked v).
    { intros v. unfold fits_at. setoid_rewrite elem_of_cons. naive_solver. }
    destruct (Z.leb_spec (rend r) c) as [H1|H1].
    + specialize (IH' c Hc Hd). destruct (lowest_fit_loop size al c blocked) as [o|].
      * destruct IH' as (H2 & H3 & H4). split; [done |].
        split; [apply Hsub; split; [right; lia | done] |]. intros v Hv [_ H5]%Hsub. auto.
      * intros v Hv [_ H5]%Hsub. by apply (IH' v).
    + destruct (AddOverflows c size) eqn:Eo.
      { apply not_false_iff_true in Eo. rewrite AddOverflows_false in Eo. intros v Hle [_ (_ & _ & H & _)]%Hsub. lia. }
      rewrite add_u64 by done. apply AddOverflows_false in Eo. rewrite Z.geb_leb.
      destruct (Z.leb_spec (c + size) (rbegin r)) as [H2|H2].
      * split; [lia |]. split; [|intros v Hv _; lia]. apply Hsub. split; [by left |].
        split_and!; try done; [unfold is_u64 in *; lia |]. intros q Hq. left.
        pose proof (proj1 (List.Forall_forall _ _) HF q (proj1 (list_elem_of_In _ _) Hq)). simpl in *. lia.
      * pose proof (AlignUp_spec (rend r) al T2 Ha Hne) as Hal. destruct (AlignUp (rend r) al) as [c'|].
        -- destruct Hal as (Tc & Dc & Hle & Hmin). specialize (IH' c' Tc Dc).
           assert (Hge : forall v, c <= v -> avoids v size r -> fits_at size al blocked v -> c' <= v).
           { intros v Hv [Hav|Hav] (_ & Hdv & _); [lia | by apply Hmin]. }
           destruct (lowest_fit_loop size al c' blocked) as [o|].
           ++ destruct IH' as (H3 & H4 & H5). split; [lia |]. split; [apply Hsub; split; [right; lia | done] |].
              intros v Hv [Hav Hfv]%Hsub. apply H5; [by apply Hge | done].
           ++ intros v Hv [Hav Hfv]%Hsub. by apply (IH' v); [apply Hge |].
        -- intros v Hv [[Hav|Hav] (_ & Hdv & Hm & _)]%Hsub; [lia |]. specialize (Hal v Hdv Hav). unfold is_u64 in *. lia.
Qed.

Lemma LowestFit_least size al blocked :
  is_u64 size -> is_u64 al -> al <> 0 -> (forall r, r ∈ blocked -> u64_range r) ->
  match LowestFit size al blocked with
  | Some o => fits_at size al blocked o /\ forall v, fits_at size al blocked v -> o <= v
  | None => forall v, ~ fits_at size al blocked v
  end.
Proof.
  intros Hs Ha Hne Hr. unfold LowestFit.
  assert (AlignUp 0 al = Some 0) as -> by (unfold AlignUp; destruct (al <=? 1); [done |]; by rewrite Z.mod_0_l by done).
  pose proof (lowest_fit_loop_spec size al 0 (sort_by range_key blocked) Hs Ha Hne ltac:(unfold is_u64, UINT64_MAX; lia)
    (Z.divide_0_r al)) as H.
  assert (Heq : forall v, fits_at size al (sort_by range_key blocked) v <-> fits_at size al blocked v).
  { intros v. unfold fits_at. by setoid_rewrite (sort_by_perm range_key blocked). }
  specialize (H ltac:(intros r; rewrite sort_by_perm; apply Hr)
    ltac:(by apply sort_by_first)).
  destruct (lowest_fit_loop _ _ _ _) as [o|].
  - destruct H as (_ & H1%Heq & H2). split; [done |]. intros v Hv. apply H2; [apply Hv | by apply Heq].
  - intros v Hv. apply (H v); [apply Hv | by apply Heq].
Qed.

(** ** Merged ranges *)

Definition hits (o e : Z) (r : AddressRange) : Prop := rbegin r < e /\ o < rend r.

Definition proper_range (r : AddressRange) : Prop := rbegin r < rend r.

Lemma merge_ranges_spec last rs :
  proper_range last -> (forall r, r ∈ rs -> proper_range r) ->
  StronglySorted (fun a b => rbegin a <= rbegin b) (last :: rs) ->
  exists first rest, merge_ranges last rs = first :: rest /\ rbegin first = rbegin last /\
    StronglySorted (fun a b => rend a < rbegin b) (first :: rest) /\
    (forall r, r ∈ first :: rest -> proper_range r) /\
    forall o e, o < e -> (exists r, r ∈ first :: rest /\ hits o e r) <-> (exists r, r ∈ last :: rs /\ hits o e r).
Proof.
  revert last. induction rs as [|r rs IH]; intros last Hl Hr Hsort; cbn [merge_ranges].
  { exists last, []. split_and!; try done; [by repeat constructor |].
    intros q Hq. apply list_elem_of_singleton in Hq. by subst. }
  apply StronglySorted_inv in Hsort as [Hsort HF]. apply List.Forall_cons_iff in HF as [Hle HF].
  apply StronglySorted_inv in Hsort as [Hs2 HF2].
  assert (Hpr : proper_range r) by (apply Hr; by left).
  assert (Hprs : forall q, q ∈ rs -> proper_range q) by (intros q Hq; apply Hr; by right).
  destruct (Z.ltb_spec (rend last) (rbegin r)) as [Hgap|Hgap].
  - destruct (IH r Hpr Hprs ltac:(by constructor)) as (first & rest & -> & Eb & Hss & Hpp & Hcov).
    exists last, (first :: rest). split_and!; try done.
    + constructor; [done |]. constructor; [lia |]. apply StronglySorted_inv in Hss as [_ HFF].
      eapply List.Forall_impl; [|exact HFF]. simpl. intros q Hq. specialize (Hpp first ltac:(by left)).
      unfold proper_range in *. lia.
    + intros q [->|Hq]%elem_of_cons; auto.
    + intros o e Hoe. specialize (Hcov o e Hoe). setoid_rewrite (elem_of_cons _ _ last). naive_solver.
  - set (l' := MkRange (rbegin last) (Z.max (rend last) (rend r))).
    destruct (IH l') as (first & rest & -> & Eb & Hss & Hpp & Hcov).
    + unfold proper_range in *. simpl. lia.
    + done.
    + constructor; [done |]. eapply List.Forall_impl; [|exact HF2]. simpl. intros q. lia.
    + exists first, rest. split_and!; try done. intros o e Hoe. rewrite (Hcov o e Hoe).
      assert (Hl' : hits o e l' <-> hits o e last \/ hits o e r) by (unfold hits, proper_range in *; simpl; lia).
      setoid_rewrite elem_of_cons. setoid_rewrite elem_of_cons. naive_solver.
Qed.

Lemma MergeBlockingRanges_spec rs :
  (forall r, r ∈ rs -> proper_range r) ->
  StronglySorted (fun a b => rend a < rbegin b) (MergeBlockingRanges rs) /\
  (forall r, r ∈ MergeBlockingRanges rs -> proper_range r) /\
  forall o e, o < e -> (exists r, r ∈ MergeBlockingRanges rs /\ hits o e r) <-> (exists r, r ∈ rs /\ hits o e r).
Proof.
  intros Hr. unfold MergeBlockingRanges.
  assert (Hin : forall r, r ∈ rs <-> r ∈ sort_by range_key rs) by (intros r; by rewrite sort_by_perm).
  pose proof (sort_by_first range_key rbegin rs ltac:(done)) as Hs.
  setoid_rewrite Hin. setoid_rewrite Hin in Hr. clear Hin. destruct (sort_by range_key rs) as [|r l].
  { split_and!; [constructor | intros r Hin; by apply not_elem_of_nil in Hin | done]. }
  destruct (merge_ranges_spec r l) as (first & rest & -> & _ & H); [apply Hr; by left | | done | done].
  intros q Hq. apply Hr. by right.
Qed.

(** Skipping ranges that end before the candidate. *)
Lemma skip_ended_spec offset bl :
  exists skipped, bl = skipped ++ skip_ended offset bl /\ (forall r, r ∈ skipped -> rend r <= offset) /\
    forall r, head (skip_ended offset bl) = Some r -> offset < rend r.
Proof.
  induction bl as [|r bl (sk & E & H1 & H2)]; cbn [skip_ended].
  { exists []. split_and!; [done | intros r Hr; by apply not_elem_of_nil in Hr | done]. }
  destruct (Z.leb_spec (rend r) offset).
  - exists (r :: sk). split_and!; [by rewrite E at 1 | | done]. intros q [->|Hq]%elem_of_cons; auto.
  - exists []. split_and!; [done | intros q Hq; by apply not_elem_of_nil in Hq |]. by intros q [= <-].
Qed.

(** The first range left decides whether the candidate is blocked. *)
Lemma head_decides (rest : list AddressRange) offset e :
  StronglySorted (fun a b => rend a < rbegin b) rest -> (forall r, r ∈ rest -> proper_range r) ->
  (forall r, head rest = Some r -> offset < rend r) -> 
  match rest with r :: _ => rbegin r <? e | [] => false end = true <-> exists r, r ∈ rest /\ hits offset e r.
Proof.
  intros Hs Hp Hh. destruct rest as [|r rest]; [split; [done | intros (r & Hr & _); by apply not_elem_of_nil in Hr] |].
  rewrite Z.ltb_lt. split.
  - intros H. exists r. split; [by left |]. split; [done | by apply Hh].
  - intros (q & [->|Hq]%elem_of_cons & Hb & _); [done |].
    apply StronglySorted_inv in Hs as [_ HF].
    pose proof (proj1 (List.Forall_forall _ _) HF q (proj1 (list_elem_of_In _ _) Hq)). simpl in *.
    specialize (Hp r ltac:(by left)). unfold proper_range in *. lia.
Qed.

(** ** Weights *)

Definition wsum (l : list WeightedBoundary) : Z := foldr (fun b total => bweight b + total) 0 l.

Lemma wsum_app l k : wsum (l ++ k) = wsum l + wsum k.
Proof. induction l as [|b l IH]; simpl; lia. Qed.

Definition weights_nonneg (l : list WeightedBoundary) : Prop := forall b, b ∈ l -> 0 <= bweight b.

Lemma wsum_nonneg l : weights_nonneg l -> 0 <= wsum l.
Proof.
  induction l as [|b l IH]; intros H; simpl; [lia |]. pose proof (H b ltac:(by left)).
  assert (0 <= wsum l) by (apply IH; intros c Hc; apply H; by right). lia.
Qed.

Lemma pass_spec test l t :
  weights_nonneg l -> is_u64 t -> t + wsum l <= UINT64_MAX ->
  exists passed, l = passed ++ (pass test l t).1 /\ (pass test l t).2 = t + wsum passed /\
    (forall b, b ∈ passed -> test (position b) = true) /\
    forall b, head (pass test l t).1 = Some b -> test (position b) = false.
Proof.
  revert t. induction l as [|b l IH]; intros t Hw Ht Hs; cbn [pass].
  { exists []. split_and!; simpl; [done | lia | intros b Hb; by apply not_elem_of_nil in Hb | done]. }
  assert (Hwl : weights_nonneg l) by (intros c Hc; apply Hw; by right).
  pose proof (wsum_nonneg l Hwl). pose proof (Hw b ltac:(by left)). simpl in Hs.
  destruct (test (position b)) eqn:Et.
  - assert (Tb : is_u64 (t + bweight b)) by (unfold is_u64 in *; lia). rewrite u64_id by done.
    destruct (IH (t + bweight b) Hwl Tb ltac:(lia)) as (passed & E & E2 & H1 & H2).
    exists (b :: passed). split_and!; [simpl; by rewrite E at 1 | simpl; lia | | done].
    intros c [->|Hc]%elem_of_cons; auto.
  - exists []. split_and!; simpl; [done | lia | intros c Hc; by apply not_elem_of_nil in Hc |]. by intros c [= <-].
Qed.

(** The weight of the boundaries that pass a test. *)
Definition weight_if (test : Z -> bool) (l : list WeightedBoundary) : Z :=
  wsum (List.filter (fun b => test (position b)) l).

Lemma filter_all {A} (f : A -> bool) l : (forall x, x ∈ l -> f x = true) -> List.filter f l = l.
Proof.
  induction l as [|x l IH]; intros H; simpl; [done |]. rewrite (H x) by (by left).
  f_equal. apply IH. intros y Hy. apply H. by right.
Qed.

Lemma filter_none {A} (f : A -> bool) l : (forall x, x ∈ l -> f x = false) -> List.filter f l = [].
Proof.
  induction l as [|x l IH]; intros H; simpl; [done |]. rewrite (H x) by (by left).
  apply IH. intros y Hy. apply H. by right.
Qed.

(** Having passed some already, what [pass] totals up on sorted boundaries. *)
Lemma pass_total test l before rest t :
  (forall v w, v <= w -> test w = true -> test v = true) ->
  l = before ++ rest -> StronglySorted (fun a b => position a <= position b) l ->
  weights_nonneg l -> wsum l <= UINT64_MAX ->
  (forall b, b ∈ before -> test (position b) = true) -> t = wsum before ->
  exists before', l = before' ++ (pass test rest t).1 /\ (forall b, b ∈ before' -> test (position b) = true) /\
    (pass test rest t).2 = wsum before' /\ wsum before' = weight_if test l.
Proof.
  intros Hdown -> Hsort Hw Hmax Hb ->. rewrite wsum_app in Hmax.
  assert (Hw1 : weights_nonneg before) by (intros b Hin; apply Hw, elem_of_app; by left).
  assert (Hw2 : weights_nonneg rest) by (intros b Hin; apply Hw, elem_of_app; by right).
  pose proof (wsum_nonneg _ Hw1). pose proof (wsum_nonneg _ Hw2).
  destruct (pass_spec test rest (wsum before) Hw2) as (passed & E & E2 & H1 & H2); [unfold is_u64; lia | lia |].
  set (left := (pass test rest (wsum before)).1) in *. exists (before ++ passed).
  assert (Hall : forall b, b ∈ before ++ passed -> test (position b) = true).
  { intros b [Hin|Hin]%elem_of_app; auto. }
  assert (Hleft : forall b, b ∈ left -> test (position b) = false).
  { intros b Hin. rewrite E, app_assoc in Hsort. clear -Hdown Hsort H2 Hin.
    destruct left as [|c left]; [by apply not_elem_of_nil in Hin |]. specialize (H2 c eq_refl).
    apply elem_of_cons in Hin as [->|Hin]; [done |]. apply not_true_iff_false. intros Ht.
    apply StronglySorted_app in Hsort as (_ & _ & Hsort). apply StronglySorted_inv in Hsort as [_ HF].
    pose proof (proj1 (List.Forall_forall _ _) HF b (proj1 (list_elem_of_In _ _) Hin)) as Hle. simpl in Hle.
    rewrite (Hdown _ _ Hle Ht) in H2. done. }
  split_and!; [by rewrite E at 1; rewrite app_assoc | done | by rewrite E2, wsum_app |].
  unfold weight_if. rewrite E, app_assoc, List.filter_app, (filter_all _ (before ++ passed)), (filter_none _ left) by done.
  by rewrite app_nil_r.
Qed.

Lemma wsum_perm l k : l ≡ₚ k -> wsum l = wsum k.
Proof. induction 1; simpl; lia. Qed.

#[export] Instance filter_perm {A} (f : A -> bool) : Proper (Permutation ==> Permutation) (List.filter f).
Proof.
  induction 1; simpl; repeat case_match; auto; [apply Permutation_swap | by etrans].
Qed.

Lemma weight_if_perm test l k : l ≡ₚ k -> weight_if test l = weight_if test k.
Proof. intros H. unfold weight_if. apply wsum_perm. by rewrite H. Qed.

(** ** The sweep over candidates *)

Section Sweep.
Context (size capacity : Z) (blocked : list AddressRange) (soft : list (AddressRange * Z)).
Hypothesis size_u64 : is_u64 size.
Hypothesis size_pos : size <> 0.
Hypothesis capacity_ok : is_u64 capacity.
Hypothesis blocked_sorted : StronglySorted (fun a b => rend a < rbegin b) blocked.
Hypothesis blocked_proper : forall r, r ∈ blocked -> proper_range r.
Hypothesis soft_ordered : forall r w, (r, w) ∈ soft -> rbegin r <= rend r.
Hypothesis soft_nonneg : forall r w, (r, w) ∈ soft -> 0 <= w.
Hypothesis soft_total : foldr Z.add 0 (map snd soft) <= UINT64_MAX.

Definition starts : list WeightedBoundary :=
  sort_by boundary_key (map (fun '(r, w) => MkBoundary (rbegin r) w) soft).
Definition ends : list WeightedBoundary :=
  sort_by boundary_key (map (fun '(r, w) => MkBoundary (rend r) w) soft).

(** The weight of the soft neighbours a candidate overlaps: the reference. *)
Definition overlap_cost (o : Z) : Z :=
  foldr (fun '(r, w) total => (if (rbegin r <? o + size) && (o <? rend r) then w else 0) + total) 0 soft.

Definition usable (o : Z) : Prop :=
  o + size <= capacity /\ ~ exists r, r ∈ blocked /\ hits o (o + size) r.

Lemma boundaries_facts (f : AddressRange -> Z) :
  let l := map (fun '(r, w) => MkBoundary (f r) w) soft in
  weights_nonneg (sort_by boundary_key l) /\ wsum (sort_by boundary_key l) <= UINT64_MAX /\
  StronglySorted (fun a b => position a <= position b) (sort_by boundary_key l).
Proof.
  cbv zeta. split; [|split].
  - intros b. rewrite sort_by_perm. intros ([r w] & -> & Hin)%list_elem_of_fmap_1. simpl. by eapply soft_nonneg.
  - rewrite (wsum_perm _ _ (sort_by_perm _ _)). etrans; [|apply soft_total]. apply Z.eq_le_incl.
    clear. induction soft as [|[r w] l IH]; simpl; lia.
  - by apply sort_by_first.
Qed.

Lemma cost_difference o :
  weight_if (fun v => v <? o + size) starts - weight_if (fun v => v <=? o) ends = overlap_cost o /\ 0 <= overlap_cost o.
Proof.
  unfold starts, ends. rewrite !(weight_if_perm _ _ _ (sort_by_perm _ _)).
  unfold overlap_cost, weight_if. unfold is_u64 in size_u64. clear soft_total blocked_sorted blocked_proper.
  induction soft as [|[r w] l IH]; simpl; [lia |].
  destruct IH as [IH1 IH2]; [intros; by eapply soft_ordered; right | intros; by eapply soft_nonneg; right |].
  pose proof (soft_ordered r w ltac:(by left)). pose proof (soft_nonneg r w ltac:(by left)).
  destruct (Z.ltb_spec (rbegin r) (o + size)), (Z.leb_spec (rend r) o), (Z.ltb_spec o (rend r)); simpl; lia.
Qed.

(** What the sweep has passed is below the candidates to come. *)
Record sweep_ok (lo : Z) (sw : Sweep) : Prop := {
  skipped_blocked : exists sk, blocked = sk ++ blocked_left sw /\ forall r, r ∈ sk -> rend r <= lo;
  passed_starts : exists ps, starts = ps ++ starts_left sw /\
    (forall b, b ∈ ps -> position b < lo + size) /\ started_weight sw = wsum ps;
  passed_ends : exists pe, ends = pe ++ ends_left sw /\
    (forall b, b ∈ pe -> position b <= lo) /\ ended_weight sw = wsum pe
}.

Lemma sweep_start lo : sweep_ok lo (MkSweep blocked starts ends 0 0 None).
Proof.
  split; exists []; (split_and!; [done | intros v Hv; by apply not_elem_of_nil in Hv | done]) ||
    (split; [done | intros v Hv; by apply not_elem_of_nil in Hv]).
Qed.

(** [b] is the best of an earlier best [b0] and the usable candidates. *)
Definition is_best (b0 : option (Z * Z)) (candidates : list Z) (b : option (Z * Z)) : Prop :=
  match b with
  | None => b0 = None /\ forall o, o ∈ candidates -> ~ usable o
  | Some sc =>
      (b0 = Some sc \/ (sc.2 ∈ candidates /\ usable sc.2 /\ sc.1 = overlap_cost sc.2)) /\
      (forall o, o ∈ candidates -> usable o -> score_less (overlap_cost o, o) sc = false) /\
      (forall s0, b0 = Some s0 -> score_less s0 sc = false)
  end.

Lemma score_less_irrefl sc : score_less sc sc = false.
Proof. unfold score_less. rewrite Z.ltb_irrefl, Z.eqb_refl, Z.ltb_irrefl. done. Qed.

Lemma score_less_trans a b c : score_less a b = false -> score_less b c = false -> score_less a c = false.
Proof.
  unfold score_less. rewrite !orb_false_iff, !andb_false_iff, !Z.ltb_ge, !Z.eqb_neq. lia.
Qed.

Lemma is_best_skip b0 o candidates b :
  ~ usable o -> is_best b0 candidates b -> is_best b0 (o :: candidates) b.
Proof.
  intros Hu. destruct b as [sc|]; simpl.
  - intros ([H|(H1 & H2 & H3)] & H4 & H5); (split; [|split; [|done]]);
      try (intros o' [->|Ho]%elem_of_cons Hu'; [done | auto]); [by left | right].
    split; [by right | done].
  - intros [-> H]. split; [done |]. intros o' [->|Ho]%elem_of_cons; auto.
Qed.

Lemma is_best_take b0 o candidates b :
  usable o ->
  is_best (match b0 with
           | Some s0 => if score_less (overlap_cost o, o) s0 then Some (overlap_cost o, o) else Some s0
           | None => Some (overlap_cost o, o) end) candidates b ->
  is_best b0 (o :: candidates) b.
Proof.
  intros Hu. destruct b as [sc|]; simpl.
  - intros (H1 & H2 & H3). split; [|split].
    + destruct H1 as [H1|(H1 & H4 & H5)]; [|right; split; [by right | done]].
      assert (Hsc : Some (overlap_cost o, o) = Some sc -> sc.2 ∈ o :: candidates /\ usable sc.2 /\ sc.1 = overlap_cost sc.2).
      { intros [= <-]. split; [by left | done]. }
      destruct b0 as [s0|]; [|by right; apply Hsc]. destruct (score_less _ s0); [by right; apply Hsc | by left].
    + intros o' [->|Ho]%elem_of_cons Hu'; [|auto]. destruct b0 as [s0|]; [|by apply H3].
      destruct (score_less (overlap_cost o, o) s0) eqn:E; [by apply H3 |].
      apply (score_less_trans _ s0); [done | by apply H3].
    + intros s0 ->. destruct (score_less (overlap_cost o, o) s0) eqn:E; [|by apply H3].
      apply (score_less_trans _ (overlap_cost o, o)); [|by apply H3].
      unfold score_less in *. simpl in *. rewrite orb_true_iff, andb_true_iff, !Z.ltb_lt, Z.eqb_eq in E.
      rewrite orb_false_iff, andb_false_iff, !Z.ltb_ge, Z.eqb_neq. lia.
  - destruct b0 as [s0|]; [destruct (score_less _ s0)|]; by intros [? _].
Qed.

Lemma sweep_ok_mono lo lo' sw : lo <= lo' -> sweep_ok lo sw -> sweep_ok lo' sw.
Proof.
  intros Hle [(sk & E1 & H1) (ps & E2 & H2 & W2) (pe & E3 & H3 & W3)]. split.
  - exists sk. split; [done |]. intros r Hr. specialize (H1 r Hr). lia.
  - exists ps. split_and!; [done | | done]. intros b Hb. specialize (H2 b Hb). lia.
  - exists pe. split_and!; [done | | done]. intros b Hb. specialize (H3 b Hb). lia.
Qed.

Lemma sweep_spec candidates sw lo evaluated :
  StronglySorted Z.le candidates -> (forall o, o ∈ candidates -> is_u64 o /\ lo <= o) -> sweep_ok lo sw ->
  exists evaluated' b, sweep size capacity candidates sw evaluated = (evaluated', Some b) /\
    is_best (best sw) candidates b.
Proof.
  intros Hsort. revert sw lo evaluated. induction Hsort as [|o candidates _ IH HF]; intros sw lo evaluated Hc Hok;
    cbn [sweep].
  { exists evaluated, (best sw). split; [done |]. unfold is_best. destruct (best sw) as [sc|].
    - split; [by left |]. split; [intros o Ho; by apply not_elem_of_nil in Ho |].
      intros s0 [= <-]. apply score_less_irrefl.
    - split; [done |]. intros o Ho. by apply not_elem_of_nil in Ho. }
  destruct (Hc o ltac:(by left)) as [To Hlo].
  assert (Hc' : forall lo', lo' <= o -> forall o', o' ∈ candidates -> is_u64 o' /\ lo' <= o').
  { intros lo' Hle o' Ho'. split; [apply Hc; by right |].
    pose proof (proj1 (List.Forall_forall _ _) HF o' (proj1 (list_elem_of_In _ _) Ho')). lia. }
  set (ev := u64 (evaluated + 1)).
  destruct (AddOverflows o size || (u64 (o + size) >? capacity)) eqn:Ecap.
  { destruct (IH sw lo ev (Hc' lo Hlo) Hok) as (ev' & b & -> & Hb). exists ev', b. split; [done |].
    apply is_best_skip; [|done]. intros [Hle _]. unfold is_u64 in *.
    assert (Hno : AddOverflows o size = false) by (apply AddOverflows_false; lia). rewrite Hno in Ecap. cbn [orb] in Ecap.
    rewrite u64_id in Ecap by (unfold is_u64; lia). bool_to_prop. lia. }
  apply orb_false_iff in Ecap as [Hno Hcap]. rewrite add_u64 in * by done. rewrite Z.gtb_ltb, Z.ltb_ge in Hcap.
  apply (sweep_ok_mono lo o) in Hok; [|done]. destruct Hok as [(sk & E1 & H1) (ps & E2 & H2 & W2) (pe & E3 & H3 & W3)].
  destruct (skip_ended_spec o (blocked_left sw)) as (sk' & E4 & H4 & Hh). set (left := skip_ended o (blocked_left sw)) in *.
  assert (Ebl : blocked = (sk ++ sk') ++ left) by (by rewrite <- app_assoc, <- E4).
  assert (Hsk : forall r, r ∈ sk ++ sk' -> rend r <= o) by (intros r [Hr|Hr]%elem_of_app; auto).
  assert (Hleft : match left with r :: _ => rbegin r <? o + size | [] => false end = true <->
    exists r, r ∈ blocked /\ hits o (o + size) r).
  { rewrite head_decides with (offset := o).
    - rewrite Ebl. setoid_rewrite elem_of_app. split; [intros (r & Hr & Hhit); exists r; auto |].
      intros (r & [Hr|Hr] & Hb & Hhit); [|exists r; by split]. specialize (Hsk r Hr). lia.
    - rewrite Ebl in blocked_sorted. by eapply StronglySorted_app_1_r.
    - intros r Hr. apply blocked_proper. rewrite Ebl. apply elem_of_app. by right.
    - done. }
  destruct (match left with r :: _ => _ | [] => _ end) eqn:Eh.
  { edestruct (IH (MkSweep left (starts_left sw) (ends_left sw) (started_weight sw) (ended_weight sw) (best sw)) o ev)
      as (ev' & b & -> & Hb); [by apply Hc' | split; [by exists (sk ++ sk') | by exists ps | by exists pe] |].
    exists ev', b. split; [done |]. apply is_best_skip; [|done]. intros [_ Hn]. by apply Hn, Hleft. }
  destruct (boundaries_facts rbegin) as (N1 & M1 & S1). destruct (boundaries_facts rend) as (N2 & M2 & S2).
  fold starts in N1, M1, S1. fold ends in N2, M2, S2.
  destruct (pass_total (fun v => v <? o + size) starts ps (starts_left sw) (started_weight sw)) as (ps' & P1 & P2 & P3 & P4);
    try done; [intros v w Hvw Hw; lia | intros b Hb; specialize (H2 b Hb); lia |].
  destruct (pass_total (fun v => v <=? o) ends pe (ends_left sw) (ended_weight sw)) as (pe' & Q1 & Q2 & Q3 & Q4);
    try done; [intros v w Hvw Hw; lia | intros b Hb; specialize (H3 b Hb); lia |].
  destruct (pass (fun v => v <? o + size) _ _) as [st' started]. destruct (pass (fun v => v <=? o) _ _) as [en' ended].
  simpl in P1, P3, Q1, Q3. destruct (cost_difference o) as [Hcost Hpos].
  rewrite <- P4, <- Q4, <- P3, <- Q3 in Hcost. replace (started <? ended) with false by lia. rewrite Hcost.
  match goal with |- context [sweep _ _ candidates ?s ev] => destruct (IH s o ev) as (ev' & b & -> & Hb) end.
  - by apply Hc'.
  - split; [by exists (sk ++ sk') | exists ps' | exists pe']; (split_and!; [done | | done]); intros b Hb; simpl;
      [specialize (P2 b Hb) | specialize (Q2 b Hb)]; lia.
  - exists ev', b. split; [done |]. apply is_best_take; [|done]. split; [done |]. intros H. by apply Hleft in H.
Qed.

End Sweep.
