(* ===== verification/DsaSound.v ===== *)
(** * The solver's placements are valid

    The search space holds every conflict of the problem; placing one buffer
    after the other keeps the placement valid; so the validation inside [Solve]
    never fails, and [Solve] returns the best valid placement it found. *)

From Stdlib Require Import ZArith Lia Bool List String.
From stdpp Require Import base gmap list option sorting.
From S2P Require Import Prelude.
From S2P Require Import Dsa DsaSearch DsaSpec DsaFit.

(** ** The search space *)

Lemma foldl_same {A B} (f g : A -> B -> A) l m :
  (forall m v, f m v = g m v) -> foldl f m l = foldl g m l.
Proof. intros H. revert m. induction l as [|v l IH]; intros m; simpl; [done |]. by rewrite H, IH. Qed.

Definition adj (nbrs : list (gset nat)) (i j : nat) : Prop := j ∈ default ∅ (nbrs !! i).

Lemma adj_alter nbrs a v i j :
  adj (alter (fun s => {[ v ]} ∪ s) a nbrs) i j <->
  adj nbrs i j \/ (i = a /\ j = v /\ a < length nbrs)%nat.
Proof.
  unfold adj. rewrite list_lookup_alter. case_decide as Ha; [subst i | split; [by left | intros [?|[? _]]; [done | by subst]]].
  destruct (nbrs !! a) as [s|] eqn:Es; simpl.
  - apply lookup_lt_Some in Es. rewrite elem_of_union, elem_of_singleton. tauto.
  - apply lookup_ge_None in Es. split; [by left | intros [?|(_ & _ & ?)]; [done | lia]].
Qed.

Lemma connect_length nbrs pair : length (connect nbrs pair) = length nbrs.
Proof. destruct pair. unfold connect. by rewrite !length_alter. Qed.

Lemma connect_adj nbrs a b i j :
  (a < length nbrs)%nat -> (b < length nbrs)%nat ->
  adj (connect nbrs (a, b)) i j <-> adj nbrs i j \/ (i = a /\ j = b) \/ (i = b /\ j = a).
Proof. intros Ha Hb. unfold connect. rewrite !adj_alter, length_alter. tauto. Qed.

Lemma connect_all_adj l nbrs i j :
  (forall a b, (a, b) ∈ l -> (a < length nbrs)%nat /\ (b < length nbrs)%nat) ->
  length (foldl connect nbrs l) = length nbrs /\
  (adj (foldl connect nbrs l) i j <-> adj nbrs i j \/ (i, j) ∈ l \/ (j, i) ∈ l).
Proof.
  revert nbrs. induction l as [|[a b] l IH]; intros nbrs Hl; cbn [foldl].
  { split; [done |]. split; [by left | intros [?|[H|H]]; [done | by apply not_elem_of_nil in H ..]]. }
  destruct (Hl a b ltac:(by left)) as [Ha Hb].
  destruct (IH (connect nbrs (a, b))) as [El Hadj].
  { rewrite connect_length. intros c d Hin. apply Hl. by right. }
  rewrite connect_length in El. split; [done |]. rewrite Hadj, connect_adj, !elem_of_cons by done.
  naive_solver.
Qed.

Section Space.
Context (p : DsaProblem).
Hypothesis p_typed : typed p.
Hypothesis p_ok : problem_ok p.

Lemma number_nodes_lookup i b :
  buffers p !! i = Some b -> number_nodes (buffers p) !! buffer_id b = Some i.
Proof.
  intros Hi. unfold number_nodes.
  assert (E : foldl (fun m '(i, b) => (emplace m (buffer_id b) i).1) ∅ (imap pair (buffers p)) =
    emplace_with (fun v => buffer_id v.2) fst ∅ (imap pair (buffers p))).
  { unfold emplace_with. apply foldl_same. by intros m [k c]. }
  rewrite E. apply (emplace_with_in (fun v => buffer_id v.2) fst ∅ _ (i, b)).
  - assert (map (fun v : nat * Buffer => buffer_id v.2) (imap pair (buffers p)) = map buffer_id (buffers p)) as ->.
    { clear. change (map ?f (imap ?g ?l)) with (f <$> imap g l). rewrite fmap_imap. apply imap_const. }
    apply p_ok.
  - intros w _. apply lookup_empty.
  - apply elem_of_lookup_imap. eauto.
Qed.

Lemma index_of b : b ∈ buffers p -> exists i, buffers p !! i = Some b.
Proof. apply list_elem_of_lookup_1. Qed.

Lemma index_inj i j b c :
  buffers p !! i = Some b -> buffers p !! j = Some c -> buffer_id b = buffer_id c -> i = j.
Proof.
  intros Hi Hj E. apply number_nodes_lookup in Hi, Hj. rewrite E in Hi. congruence.
Qed.

Lemma separate_spec nbrs l :
  length nbrs = length (buffers p) ->
  Forall (fun s => pair_ok p (fun _ _ => True) (sfirst s) (ssecond s)) l ->
  exists nbrs', separate (number_nodes (buffers p)) nbrs l = Ok nbrs' /\ length nbrs' = length nbrs /\
    forall i j, adj nbrs' i j <-> adj nbrs i j \/
      exists b c, buffers p !! i = Some b /\ buffers p !! j = Some c /\ separated l b c.
Proof.
  intros Hlen Hl. revert nbrs Hlen. induction Hl as [|s l (Hne & b & c & Hb & Hc & Eb & Ec & _ & _) _ IH];
    intros nbrs Hlen; cbn [separate].
  { exists nbrs. split_and!; try done. intros i j. split; [by left |].
    intros [?|(b & c & _ & _ & s & Hs & _)]; [done | by apply not_elem_of_nil in Hs]. }
  destruct (index_of b Hb) as [bi Ebi], (index_of c Hc) as [ci Eci].
  unfold node_at. rewrite <- Eb, <- Ec, (number_nodes_lookup bi b Ebi), (number_nodes_lookup ci c Eci). cbn [bind].
  destruct (IH (connect nbrs (bi, ci))) as (nbrs' & -> & El & Hadj); [by rewrite connect_length |].
  exists nbrs'. rewrite connect_length in El. split_and!; [done | done |]. intros i j.
  pose proof (lookup_lt_Some _ _ _ Ebi). pose proof (lookup_lt_Some _ _ _ Eci).
  rewrite Hadj, connect_adj by (rewrite Hlen; done). split.
  - intros [[?|[[-> ->]|[-> ->]]]|(b' & c' & Hb' & Hc' & s' & Hs' & H')]; [by left | right ..].
    + exists b, c. split_and!; try done. exists s. split; [by left | auto].
    + exists c, b. split_and!; try done. exists s. split; [by left | auto].
    + exists b', c'. split_and!; try done. exists s'. split; [by right | done].
  - intros [?|(b' & c' & Hb' & Hc' & s' & [->|Hs']%elem_of_cons & H')]; [by left; left | left; right | right].
    + destruct H' as [[E1 E2]|[E1 E2]]; rewrite <- Eb in E1; rewrite <- Ec in E2.
      * left. split; symmetry; [by apply (index_inj bi i b b') | by apply (index_inj ci j c c')].
      * right. split; symmetry; [by apply (index_inj ci i c b') | by apply (index_inj bi j b c')].
    + exists b', c'. split_and!; try done. by exists s'.
Qed.

Lemma all_pairs_in count i j : (i, j) ∈ all_pairs count <-> (i < j < count)%nat.
Proof.
  unfold all_pairs. rewrite list_elem_of_In, in_flat_map. setoid_rewrite in_map_iff. setoid_rewrite in_seq. split.
  - intros (a & Ha & b & [= <- <-] & Hb). lia.
  - intros H. exists i. split; [lia |]. exists j. split; [done | lia].
Qed.

(** The hard neighbours are exactly the conflicts. *)
Lemma hard_neighbors_spec :
  exists nbrs, (let nbrs := foldl connect (replicate (length (buffers p)) ∅)
                  (List.filter (lifetime_conflict (buffers p)) (all_pairs (length (buffers p)))) in
                separate (number_nodes (buffers p)) nbrs (separations p)) = Ok nbrs /\
    length nbrs = length (buffers p) :> nat /\
    forall i j, adj nbrs i j <-> i <> j /\ exists b c, buffers p !! i = Some b /\ buffers p !! j = Some c /\
      conflicting p b c.
Proof.
  set (pairs := List.filter _ _). set (base := replicate (length (buffers p)) (∅ : gset nat)).
  assert (Hin : forall i j, (i, j) ∈ pairs <-> (i < j)%nat /\ exists b c, buffers p !! i = Some b /\
    buffers p !! j = Some c /\ bpool b = bpool c /\ Overlaps (lifetime b) (lifetime c) = true).
  { intros i j. unfold pairs. rewrite list_elem_of_In, filter_In, <- list_elem_of_In, all_pairs_in.
    unfold lifetime_conflict. simpl. split.
    - intros [Hij H]. split; [lia |]. destruct (buffers p !! i) as [b|], (buffers p !! j) as [c|]; try done.
      exists b, c. bool_to_prop. done.
    - intros [Hij (b & c & Eb & Ec & E & Ho)]. pose proof (lookup_lt_Some _ _ _ Ec). split; [lia |].
      rewrite Eb, Ec, Ho, E, Z.eqb_refl. done. }
  destruct (connect_all_adj pairs base 0 0) as [Elen _].
  { intros a b Hab%Hin. unfold base. rewrite length_replicate. destruct Hab as (_ & b' & c' & H1 & H2 & _).
    by split; eapply lookup_lt_Some. }
  unfold base in Elen at 2. rewrite length_replicate in Elen.
  cbv zeta. destruct (separate_spec (foldl connect base pairs) (separations p) Elen (separations_ok _ p_ok))
    as (nbrs & -> & El & Hadj).
  exists nbrs. split_and!; [done | congruence |]. intros i j. rewrite Hadj.
  destruct (connect_all_adj pairs base i j) as [_ ->].
  { intros a b Hab%Hin. unfold base. rewrite length_replicate. destruct Hab as (_ & b' & c' & H1 & H2 & _).
    by split; eapply lookup_lt_Some. }
  assert (Hno : ~ adj base i j).
  { unfold adj. intros H. destruct (base !! i) as [v|] eqn:Eb; [|by apply not_elem_of_empty in H].
    apply lookup_replicate in Eb as [-> _]. by apply not_elem_of_empty in H. }
  rewrite !Hin. split.
  - intros [[H|[[Hij (b & c & Hb & Hc & E & Ho)]|[Hij (b & c & Hb & Hc & E & Ho)]]]|(b & c & Hb & Hc & Hs)]; [done | | |].
    + split; [lia |]. exists b, c. split_and!; [done | done | split; [done | by left]].
    + split; [lia |]. exists c, b. split_and!; [done | done | split; [done | left]]. by rewrite Overlaps_sym.
    + destruct Hs as (s & Hin' & Hs).
      destruct (proj1 (List.Forall_forall _ _) (separations_ok _ p_ok) s (proj1 (list_elem_of_In _ _) Hin'))
        as (Hne & b' & c' & Hb' & Hc' & Eb' & Ec' & E & _).
      assert (Hbc : buffer_id b <> buffer_id c) by (destruct Hs as [[<- <-]|[<- <-]]; congruence).
      assert (Hpool : bpool b = bpool c).
      { destruct (index_of b' Hb') as [bi Ebi], (index_of c' Hc') as [ci Eci].
        destruct Hs as [[E1 E2]|[E1 E2]].
        - assert (bi = i) as -> by (eapply index_inj; [done.. | congruence]).
          assert (ci = j) as -> by (eapply index_inj; [done.. | congruence]). congruence.
        - assert (bi = j) as -> by (eapply index_inj; [done.. | congruence]).
          assert (ci = i) as -> by (eapply index_inj; [done.. | congruence]). congruence. }
      split; [intros ->; congruence |]. exists b, c. split_and!; [done | done | split; [done | right]]. by exists s.
  - intros (Hij & b & c & Hb & Hc & E & [Ho|Hs]); [left; right | right; by exists b, c].
    destruct (decide (i < j)%nat) as [Hlt|Hge]; [left | right].
    + split; [done |]. by exists b, c.
    + split; [lia |]. exists c, b. split_and!; try done. by rewrite Overlaps_sym.
Qed.

(** *** Soft weights *)

Definition zsum (l : list Z) : Z := foldr Z.add 0 l.

Lemma zsum_perm l k : l ≡ₚ k -> zsum l = zsum k.
Proof. induction 1; simpl; lia. Qed.

Lemma zsum_nonneg l : (forall v, v ∈ l -> 0 <= v) -> 0 <= zsum l.
Proof.
  induction l as [|v l IH]; intros H; simpl; [lia |]. pose proof (H v ltac:(by left)).
  assert (0 <= zsum l) by (apply IH; intros w Hw; apply H; by right). lia.
Qed.

(** The total weight of the pairs selected by [f]. *)
Definition entry_weight (f : nat * nat -> bool) (entry : nat * nat * Z) : Z :=
  if f entry.1 then entry.2 else 0.
Definition ws_sum (f : nat * nat -> bool) (ws : gmap (nat * nat) Z) : Z :=
  zsum (map (entry_weight f) (map_to_list ws)).

Definition nonneg_weights (ws : gmap (nat * nat) Z) : Prop := forall k w, ws !! k = Some w -> 0 <= w.

Lemma ws_sum_delete f ws k :
  ws_sum f ws = (if f k then default 0 (ws !! k) else 0) + ws_sum f (delete k ws).
Proof.
  unfold ws_sum. destruct (ws !! k) as [w|] eqn:E.
  - rewrite <- (insert_delete_id ws k w E) at 1.
    rewrite (zsum_perm _ _ (Permutation_map _ (map_to_list_insert _ k w (lookup_delete_eq ws k)))). done.
  - rewrite delete_id by done. simpl. by destruct (f k).
Qed.

Lemma ws_sum_insert f ws k w :
  ws_sum f (<[ k := default 0 (ws !! k) + w ]> ws) = ws_sum f ws + (if f k then w else 0).
Proof.
  rewrite (ws_sum_delete f (<[ k := _ ]> ws) k), (ws_sum_delete f ws k), lookup_insert_eq, delete_insert_eq.
  simpl. destruct (f k); lia.
Qed.

Lemma ws_sum_nonneg f ws : nonneg_weights ws -> 0 <= ws_sum f ws.
Proof.
  intros Hn. apply zsum_nonneg. intros v ([k w] & -> & Hin)%list_elem_of_fmap_1.
  apply elem_of_map_to_list in Hin. specialize (Hn _ _ Hin). unfold entry_weight. simpl. destruct (f k); lia.
Qed.

Lemma ws_entry_le ws k : nonneg_weights ws -> default 0 (ws !! k) <= ws_sum (fun _ => true) ws.
Proof.
  intros Hn. rewrite (ws_sum_delete _ ws k).
  assert (0 <= ws_sum (fun _ => true) (delete k ws)); [|lia].
  apply ws_sum_nonneg. intros i w Hi. apply lookup_delete_Some in Hi as [_ Hi]. by eapply Hn.
Qed.

(** What one penalty contributes to the soft weights. *)
Definition node_pair (r : ReusePenalty) : nat * nat :=
  CanonicalPair (default 0%nat (number_nodes (buffers p) !! pfirst r))
                (default 0%nat (number_nodes (buffers p) !! psecond r)).

Definition soft_pair (nbrs : list (gset nat)) (r : ReusePenalty) : bool :=
  negb ((weight r =? 0) || adjacent nbrs (default 0%nat (number_nodes (buffers p) !! pfirst r))
                                        (default 0%nat (number_nodes (buffers p) !! psecond r))).

Definition soft_weight (nbrs : list (gset nat)) (f : nat * nat -> bool) (r : ReusePenalty) : Z :=
  if soft_pair nbrs r && f (node_pair r) then weight r else 0.

Definition penalty_ok (r : ReusePenalty) : Prop :=
  pair_ok p (fun b c => Overlaps (lifetime b) (lifetime c) = false) (pfirst r) (psecond r).

Lemma penalty_nodes r : penalty_ok r -> exists i j b c,
  buffers p !! i = Some b /\ buffers p !! j = Some c /\ i <> j /\
  buffer_id b = pfirst r /\ buffer_id c = psecond r /\
  bpool b = bpool c /\ Overlaps (lifetime b) (lifetime c) = false /\
  number_nodes (buffers p) !! pfirst r = Some i /\ number_nodes (buffers p) !! psecond r = Some j.
Proof.
  intros (Hne & b & c & Hb & Hc & Eb & Ec & Ep & Ho). destruct (index_of b Hb) as [i Hi], (index_of c Hc) as [j Hj].
  exists i, j, b, c. rewrite <- Eb, <- Ec, (number_nodes_lookup i b), (number_nodes_lookup j c) by done.
  split_and!; try done. intros ->. congruence.
Qed.

Definition ordered_keys (ws : gmap (nat * nat) Z) : Prop :=
  forall i j w, ws !! (i, j) = Some w -> (i < j)%nat /\ exists b c, buffers p !! i = Some b /\ buffers p !! j = Some c /\
    bpool b = bpool c.

Lemma weigh_spec nbrs ws l :
  Forall penalty_ok l -> Forall (fun r => is_u64 (weight r)) l ->
  nonneg_weights ws -> ordered_keys ws ->
  ws_sum (fun _ => true) ws + zsum (map weight l) <= UINT64_MAX ->
  exists ws', weigh (number_nodes (buffers p)) nbrs ws l = Ok ws' /\ nonneg_weights ws' /\ ordered_keys ws' /\
    forall f, ws_sum f ws' = ws_sum f ws + zsum (map (soft_weight nbrs f) l).
Proof.
  intros Hl Hu. revert ws. induction Hl as [|r l Hr Hl IH]; intros ws Hn Hk Hmax; cbn [weigh].
  { exists ws. split_and!; try done. intros f. simpl. lia. }
  apply List.Forall_cons_iff in Hu as [Hw Hu]. cbn [map zsum foldr] in Hmax. fold (zsum (map weight l)) in Hmax.
  assert (Hpos : 0 <= zsum (map weight l)).
  { apply zsum_nonneg. intros v (q & -> & Hq)%list_elem_of_fmap_1.
    by apply (proj1 (List.Forall_forall _ _) Hu q), list_elem_of_In. }
  destruct (penalty_nodes r Hr) as (i & j & b & c & Hi & Hj & Hij & _ & _ & Ep & _ & Ei & Ej).
  unfold node_at. rewrite Ei, Ej. cbn [bind].
  assert (Hsw : forall f, soft_weight nbrs f r =
    if (weight r =? 0) || adjacent nbrs i j then 0 else if f (CanonicalPair i j) then weight r else 0).
  { intros f. unfold soft_weight, soft_pair, node_pair. rewrite Ei, Ej. simpl. by destruct (_ || _). }
  destruct ((weight r =? 0) || adjacent nbrs i j).
  - destruct (IH Hu ws Hn Hk) as (ws' & E & Hn' & Hk' & Hs); [unfold is_u64 in Hw; lia |].
    exists ws'. split_and!; try done. intros f. rewrite Hs. simpl. rewrite Hsw. lia.
  - set (k := CanonicalPair i j). pose proof (ws_entry_le ws k Hn) as Hle.
    assert (0 <= default 0 (ws !! k)) by (destruct (ws !! k) eqn:E; simpl; [by eapply Hn | lia]).
    assert (Hsat : SaturatingAdd (default 0 (ws !! k)) (weight r) = default 0 (ws !! k) + weight r).
    { unfold SaturatingAdd. assert (AddOverflows (default 0 (ws !! k)) (weight r) = false) as H0
        by (apply AddOverflows_false; lia). rewrite H0. apply u64_id. unfold is_u64 in *. lia. }
    rewrite Hsat. destruct (IH Hu (<[ k := default 0 (ws !! k) + weight r ]> ws)) as (ws' & E & Hn' & Hk' & Hs).
    + intros k' w. rewrite lookup_insert_Some. intros [[_ <-]|[_ Hlk]]; [unfold is_u64 in Hw; lia | by eapply Hn].
    + intros i' j' w. rewrite lookup_insert_Some. intros [[E _]|[_ Hlk]]; [|by eapply Hk].
      unfold k, CanonicalPair in E. destruct (Nat.ltb_spec i j); injection E as <- <-; (split; [lia |]);
        [by exists b, c | by exists c, b].
    + rewrite ws_sum_insert. lia.
    + exists ws'. split_and!; try done. intros f. rewrite Hs, ws_sum_insert. simpl. rewrite Hsw. fold k. lia.
Qed.

(** The soft neighbours of a node are the weights it occurs in. *)
Definition incident (k : nat) (entry : nat * nat * Z) : list (nat * Z) :=
  let '((i, j), w) := entry in
  (if (i =? k)%nat then [(j, w)] else []) ++ (if (j =? k)%nat then [(i, w)] else []).

Lemma link_all l base k :
  (k < length base)%nat ->
  default [] (foldl link base l !! k) = default [] (base !! k) ++ flat_map (incident k) l.
Proof.
  revert base. induction l as [|[[i j] w] l IH]; intros base Hk; cbn [foldl flat_map]; [by rewrite app_nil_r |].
  rewrite IH by (unfold link; by rewrite !length_alter).
  unfold link, incident. rewrite !list_lookup_alter.
  destruct (lookup_lt_is_Some_2 base k Hk) as [v Ev].
  destruct (Nat.eqb_spec i k) as [->|Hi], (Nat.eqb_spec j k) as [->|Hj];
    repeat case_decide; try done; simplify_eq; rewrite ?Ev; simpl; rewrite <- ?app_assoc; done.
Qed.

End Space.

Record space_ok (p : DsaProblem) (s : SearchSpace) : Prop := {
  space_nodes : nodes s = buffers p;
  space_hard i j : adj (hard_neighbors s) i j <-> i <> j /\ exists b c,
    buffers p !! i = Some b /\ buffers p !! j = Some c /\ conflicting p b c;
  space_soft k : (k < length (buffers p))%nat ->
    soft_of s k = flat_map (incident k) (ascending_weights (soft_weights s));
  space_keys : ordered_keys p (soft_weights s);
  space_nonneg : nonneg_weights (soft_weights s);
  space_sum f : ws_sum f (soft_weights s) =
    zsum (map (soft_weight p (hard_neighbors s) f) (reuse_penalties p));
  space_total : ws_sum (fun _ => true) (soft_weights s) <= UINT64_MAX
}.

Lemma BuildSearchSpace_ok p : typed p -> problem_ok p -> exists s, BuildSearchSpace p = Ok s /\ space_ok p s.
Proof.
  intros Ht Hp. unfold BuildSearchSpace. destruct (hard_neighbors_spec p Hp) as (nbrs & En & Elen & Hadj).
  cbv zeta in En. cbv zeta. rewrite En. cbn [bind].
  assert (Hz : forall f, ws_sum f ∅ = 0) by (intros f; unfold ws_sum; by rewrite map_to_list_empty).
  destruct (weigh_spec p Hp nbrs ∅ (reuse_penalties p)) as (ws & -> & Hn & Hk & Hs).
  - apply (penalties_ok _ Hp).
  - apply (typed_penalties _ Ht).
  - intros k w Hl. by rewrite lookup_empty in Hl.
  - intros i j w Hl. by rewrite lookup_empty in Hl.
  - rewrite Hz. apply (total_weight_ok _ Hp).
  - cbn [bind]. eexists. split; [done |]. split; cbn [nodes hard_neighbors soft_weights]; try done.
    + intros k Hlt. unfold soft_of. simpl. rewrite link_all by (by rewrite length_replicate).
      by rewrite lookup_replicate_2.
    + rewrite Hs, Hz. etrans; [|apply (total_weight_ok _ Hp)]. pose proof (typed_penalties _ Ht) as Hu.
      clear -Hu. induction Hu as [|r l Hr _ IH]; simpl; [lia |]. unfold is_u64 in Hr.
      fold zsum. change (foldr Z.add 0 ?l) with (zsum l) in *. unfold soft_weight at 1. destruct (_ && _); lia.
Qed.

(** ** Placements *)

Section Placing.
Context (p : DsaProblem) (s : SearchSpace).
Hypothesis p_typed : typed p.
Hypothesis p_ok : problem_ok p.
Hypothesis s_ok : space_ok p s.

(** The placed buffers are where they may be. *)
Record pl_ok (pl : Placement) : Prop := {
  pl_node i o : pl !! i = Some o -> exists b, buffers p !! i = Some b /\ is_u64 o /\ placed_ok p b o;
  pl_disjoint i j b c o o' : pl !! i = Some o -> pl !! j = Some o' ->
    buffers p !! i = Some b -> buffers p !! j = Some c -> i <> j ->
    conflicting p b c -> disjoint_ranges o (bsize b) o' (bsize c)
}.

Lemma pl_ok_empty : pl_ok ∅.
Proof. split; [intros i o H | intros i j b c o o' H]; by rewrite lookup_empty in H. Qed.

Lemma node_in i b : buffers p !! i = Some b -> b ∈ buffers p.
Proof. apply list_elem_of_lookup_2. Qed.

Lemma placed_top b o : b ∈ buffers p -> placed_ok p b o -> o + bsize b <= UINT64_MAX.
Proof.
  intros Hb [_ H]. destruct (pool_of p p_ok b Hb) as (pool & _ & Hp & E & _).
  destruct (H pool Hp E) as [Hle _]. pose proof (capacity_u64 p p_typed pool Hp). unfold is_u64 in *. lia.
Qed.

Lemma placed_range_some pl i o b :
  pl_ok pl -> pl !! i = Some o -> buffers p !! i = Some b ->
  placed_range s pl i = Some (b, MkRange o (o + bsize b)).
Proof.
  intros Hpl Hi Hb. destruct (pl_node _ Hpl i o Hi) as (b' & Hb' & Hu & Hok). simplify_eq.
  pose proof (placed_top b o (node_in i b Hb) Hok) as Htop.
  unfold placed_range. rewrite (space_nodes _ _ s_ok), Hb, Hi.
  assert (AddOverflows o (bsize b) = false) as -> by (by apply AddOverflows_false).
  destruct (buffer_facts p p_typed p_ok b (node_in i b Hb)) as (? & _). by rewrite u64_id by (unfold is_u64 in *; lia).
Qed.

Lemma placed_range_inv pl i r :
  pl_ok pl -> placed_range s pl i = Some r -> exists o b, pl !! i = Some o /\ buffers p !! i = Some b /\
    r = (b, MkRange o (o + bsize b)).
Proof.
  intros Hpl Hr. pose proof Hr as Hr'. unfold placed_range in Hr'. rewrite (space_nodes _ _ s_ok) in Hr'.
  destruct (buffers p !! i) as [b|] eqn:Hb; [|done]. destruct (pl !! i) as [o|] eqn:Ho; [|done].
  exists o, b. split_and!; try done. rewrite (placed_range_some pl i o b) in Hr by done. congruence.
Qed.

Lemma pool_ranges_of pool b :
  pool ∈ pools p -> pool_id pool = bpool b -> pool_ranges (pools p) (bpool b) = reserved_ranges pool.
Proof.
  intros Hp E. unfold pool_ranges. pose proof (pool_ids _ p_ok) as Hn. induction (pools p) as [|q l IH];
    [by apply not_elem_of_nil in Hp |]. cbn [List.find map] in *. apply NoDup_cons in Hn as [Hq Hn].
  destruct (Z.eqb_spec (pool_id q) (bpool b)) as [Eq|Nq].
  - apply elem_of_cons in Hp as [->|Hp]; [done |]. exfalso. apply Hq. rewrite Eq, <- E. by apply list_elem_of_fmap_2.
  - apply elem_of_cons in Hp as [->|Hp]; [done |]. by apply IH.
Qed.

Lemma blocking_in pl k b pool r :
  pl_ok pl -> buffers p !! k = Some b -> pool ∈ pools p -> pool_id pool = bpool b ->
  r ∈ BlockingRanges p s pl b k <-> r ∈ reserved_ranges pool \/
    exists j c o, adj (hard_neighbors s) k j /\ buffers p !! j = Some c /\ pl !! j = Some o /\ bpool c = bpool b /\
      r = MkRange o (o + bsize c).
Proof.
  intros Hpl Hk Hp E. unfold BlockingRanges. rewrite (pool_ranges_of pool b), elem_of_app by done.
  apply or_iff_compat_l. rewrite list_elem_of_In, in_flat_map. unfold hard_of. split.
  - intros (j & Hj & Hr). apply list_elem_of_In, elem_of_elements in Hj. unfold in_pool in Hr.
    destruct (placed_range s pl j) as [[c q]|] eqn:Ej; [|done].
    apply placed_range_inv in Ej as (o & c' & Ho & Hc & [= <- ->]); [|done].
    destruct (Z.eqb_spec (bpool c) (bpool b)); [|done]. destruct Hr as [<-|[]]. by exists j, c, o.
  - intros (j & c & o & Hj & Hc & Ho & Ec & ->). exists j. split; [by apply list_elem_of_In, elem_of_elements |].
    rewrite (placed_range_some pl j o c) by done. simpl. rewrite Ec, Z.eqb_refl. by left.
Qed.

Lemma blocking_facts pl k b pool r :
  pl_ok pl -> buffers p !! k = Some b -> pool ∈ pools p -> pool_id pool = bpool b ->
  r ∈ BlockingRanges p s pl b k -> u64_range r /\ proper_range r.
Proof.
  intros Hpl Hk Hp E Hr. apply (blocking_in pl k b pool r Hpl Hk Hp E) in Hr as [Hr|(j & c & o & _ & Hc & Ho & _ & ->)].
  - destruct (range_facts p p_typed p_ok pool r Hp Hr) as (? & ? & ?). unfold u64_range, proper_range. split; [done | lia].
  - destruct (pl_node _ Hpl j o Ho) as (c' & Hc' & Hu & Hok). simplify_eq.
    pose proof (placed_top c o (node_in j c Hc) Hok) as Htop.
    destruct (buffer_facts p p_typed p_ok c (node_in j c Hc)) as (? & _ & ? & _).
    unfold u64_range, proper_range, is_u64 in *. simpl. lia.
Qed.

Lemma disjoint_sym o n o' n' : disjoint_ranges o n o' n' -> disjoint_ranges o' n' o n.
Proof. unfold disjoint_ranges. tauto. Qed.

Lemma conflicting_sym b c : conflicting p b c -> conflicting p c b.
Proof.
  intros [E [H|(r & Hr & H)]]; (split; [done |]); [left; by rewrite Overlaps_sym | right].
  exists r. split; [done |]. tauto.
Qed.

(** Placing one more buffer where nothing blocks it. *)
Lemma pl_ok_insert pl k b pool o :
  pl_ok pl -> buffers p !! k = Some b -> pool ∈ pools p -> pool_id pool = bpool b ->
  is_u64 o -> (alignment b | o) -> o + bsize b <= capacity pool ->
  (forall r, r ∈ BlockingRanges p s pl b k -> avoids o (bsize b) r) ->
  pl_ok (<[ k := o ]> pl).
Proof.
  intros Hpl Hk Hp E Ho Hal Hcap Hav.
  assert (Hnew : forall j c o', pl !! j = Some o' -> buffers p !! j = Some c -> k <> j -> conflicting p b c ->
    disjoint_ranges o (bsize b) o' (bsize c)).
  { intros j c o' Hj Hc Hkj Hcf. destruct (Hav (MkRange o' (o' + bsize c))) as [H|H];
      [|simpl in H; unfold disjoint_ranges; lia..].
    apply (blocking_in pl k b pool); try done. right. exists j, c, o'. split_and!; try done.
    - apply (space_hard _ _ s_ok). split; [done |]. by exists b, c.
    - symmetry. apply Hcf. }
  split.
  - intros i o'. rewrite lookup_insert_Some. intros [[<- <-]|[_ Hi]]; [|by apply (pl_node _ Hpl)].
    exists b. split_and!; try done. split; [done |]. intros q Hq Eq.
    destruct (pool_of p p_ok b (node_in k b Hk)) as (q' & _ & _ & _ & _ & Hu).
    rewrite (Hu q Hq Eq), <- (Hu pool Hp E). split; [done |]. apply List.Forall_forall. intros r Hr%list_elem_of_In.
    destruct (Hav r) as [H|H]; [apply (blocking_in pl k b pool); auto | |]; unfold disjoint_ranges; lia.
  - intros i j bi bj oi oj. rewrite !lookup_insert_Some.
    intros [[<- <-]|[Hki Hi]] [[<- <-]|[Hkj Hj]] Hbi Hbj Hij Hcf; simplify_eq; try done.
    + by apply (Hnew j).
    + apply disjoint_sym. by apply (Hnew i); [.. | apply conflicting_sym].
    + by apply (pl_disjoint _ Hpl i j).
Qed.

(** ** The solution built from a complete placement *)

Lemma BuildSolution_lookup pl i b :
  buffers p !! i = Some b -> BuildSolution s pl !! buffer_id b = Some (default 0 (pl !! i)).
Proof.
  intros Hi. unfold BuildSolution. rewrite (space_nodes _ _ s_ok).
  assert (E : foldl (fun sol '(i, b) => (emplace sol (buffer_id b) (default 0 (pl !! i))).1) ∅ (imap pair (buffers p)) =
    emplace_with (fun v => buffer_id v.2) (fun v => default 0 (pl !! v.1)) ∅ (imap pair (buffers p))).
  { unfold emplace_with. apply foldl_same. by intros m [j c]. }
  rewrite E. apply (emplace_with_in (fun v => buffer_id v.2) (fun v => default 0 (pl !! v.1)) ∅ _ (i, b)).
  - assert (map (fun v : nat * Buffer => buffer_id v.2) (imap pair (buffers p)) = map buffer_id (buffers p)) as ->.
    { clear. change (map ?f (imap ?g ?l)) with (f <$> imap g l). rewrite fmap_imap. apply imap_const. }
    apply p_ok.
  - intros w _. apply lookup_empty.
  - apply elem_of_lookup_imap. eauto.
Qed.

Lemma BuildSolution_inv pl id o : BuildSolution s pl !! id = Some o ->
  exists i b, buffers p !! i = Some b /\ buffer_id b = id /\ o = default 0 (pl !! i).
Proof.
  unfold BuildSolution. rewrite (space_nodes _ _ s_ok).
  assert (E : foldl (fun sol '(i, b) => (emplace sol (buffer_id b) (default 0 (pl !! i))).1) ∅ (imap pair (buffers p)) =
    emplace_with (fun v => buffer_id v.2) (fun v => default 0 (pl !! v.1)) ∅ (imap pair (buffers p))).
  { unfold emplace_with. apply foldl_same. by intros m [j c]. }
  rewrite E. intros [H|([i b] & Hv & Hid & Ho)]%emplace_with_some; [by rewrite lookup_empty in H |].
  apply elem_of_lookup_imap in Hv as (i' & b' & [= <- <-] & Hi). by exists i, b.
Qed.

Definition complete (pl : Placement) : Prop := forall i, (i < length (buffers p))%nat -> is_Some (pl !! i).

Lemma BuildSolution_ok pl :
  pl_ok pl -> complete pl -> solution_ok p (BuildSolution s pl) /\ typed_solution (BuildSolution s pl).
Proof.
  intros Hpl Hc.
  assert (Hat : forall i b, buffers p !! i = Some b -> exists o, pl !! i = Some o /\ BuildSolution s pl !! buffer_id b = Some o).
  { intros i b Hi. destruct (Hc i (lookup_lt_Some _ _ _ Hi)) as [o Ho]. exists o. split; [done |].
    by rewrite (BuildSolution_lookup pl i b Hi), Ho. }
  split; [split|].
  - intros id [o Ho]. apply BuildSolution_inv in Ho as (i & b & Hi & <- & _). exists b. split; [by eapply node_in | done].
  - intros b Hb. destruct (index_of p b Hb) as [i Hi]. destruct (Hat i b Hi) as (o & Ho & Hs). exists o. split; [done |].
    destruct (pl_node _ Hpl i o Ho) as (b' & Hb' & _ & Hok). by simplify_eq.
  - intros b c o o' Hb Hc' Hne Hcf Hs Hs'. destruct (index_of p b Hb) as [i Hi], (index_of p c Hc') as [j Hj].
    destruct (Hat i b Hi) as (o1 & Ho & E1), (Hat j c Hj) as (o2 & Ho' & E2). simplify_eq.
    apply (pl_disjoint _ Hpl i j); try done. intros ->. congruence.
  - intros id o Ho. apply BuildSolution_inv in Ho as (i & b & Hi & <- & ->).
    destruct (Hat i b Hi) as (o' & Ho' & _). rewrite Ho'.
    by destruct (pl_node _ Hpl i o' Ho') as (b' & _ & Hu & _).
Qed.

(** ** One step of a placement *)

Lemma soft_of_in k j w : (k < length (buffers p))%nat -> (j, w) ∈ soft_of s k ->
  exists i i', soft_weights s !! (i, i') = Some w /\ (i = k /\ i' = j \/ i = j /\ i' = k).
Proof.
  intros Hk. rewrite (space_soft _ _ s_ok k Hk), list_elem_of_In, in_flat_map. intros ([[i i'] w'] & Hin & H).
  apply list_elem_of_In in Hin. unfold ascending_weights in Hin. rewrite sort_by_perm in Hin.
  apply elem_of_map_to_list in Hin. exists i, i'. unfold incident in H. apply in_app_iff in H.
  destruct (Nat.eqb_spec i k), (Nat.eqb_spec i' k); simpl in H; naive_solver.
Qed.

Lemma soft_of_total k : (k < length (buffers p))%nat -> zsum (map snd (soft_of s k)) <= UINT64_MAX.
Proof.
  intros Hk. etrans; [|apply (space_total _ _ s_ok)]. rewrite (space_soft _ _ s_ok k Hk).
  unfold ws_sum. rewrite <- (zsum_perm _ _ (Permutation_map _ (sort_by_perm (fun '((i, j), _) => [Z.of_nat i; Z.of_nat j]) _))).
  fold (ascending_weights (soft_weights s)).
  assert (Hall : forall i j w, ((i, j), w) ∈ ascending_weights (soft_weights s) -> (i < j)%nat /\ 0 <= w).
  { intros i j w. unfold ascending_weights. rewrite sort_by_perm, elem_of_map_to_list. intros Hw.
    split; [by apply (space_keys _ _ s_ok) in Hw as [? _] | by apply (space_nonneg _ _ s_ok) in Hw]. }
  induction (ascending_weights (soft_weights s)) as [|[[i j] w] l IH]; [done |].
  destruct (Hall i j w ltac:(by left)) as [Hij Hw]. specialize (IH (fun i j w H => Hall i j w (list_elem_of_further _ _ _ H))).
  cbn [flat_map map]. unfold incident at 1. unfold zsum in *. cbn [foldr]. unfold entry_weight at 1. cbn [fst snd].
  rewrite map_app, foldr_app.
  destruct (Nat.eqb_spec i k), (Nat.eqb_spec j k); try lia; simpl; lia.
Qed.

Lemma placed_soft_in pl k r w : pl_ok pl -> (r, w) ∈ placed_soft s pl k ->
  exists j c o, (j, w) ∈ soft_of s k /\ pl !! j = Some o /\ buffers p !! j = Some c /\ r = MkRange o (o + bsize c).
Proof.
  intros Hpl. unfold placed_soft. rewrite list_elem_of_In, in_flat_map. intros ([j w'] & Hj & H).
  destruct (placed_range s pl j) as [[c q]|] eqn:E; [|done]. apply placed_range_inv in E as (o & c' & Ho & Hc & [= -> ->]); [|done].
  destruct H as [[= <- <-]|[]]. exists j, c', o. split_and!; try done. by apply list_elem_of_In.
Qed.

Lemma soft_nonneg_of k j w : (k < length (buffers p))%nat -> (j, w) ∈ soft_of s k -> 0 <= w.
Proof. intros Hk (i & i' & Hw & _)%soft_of_in; [by apply (space_nonneg _ _ s_ok) in Hw | done]. Qed.

Lemma placed_soft_total pl k : (k < length (buffers p))%nat ->
  foldr Z.add 0 (map snd (placed_soft s pl k)) <= UINT64_MAX.
Proof.
  intros Hk. etrans; [|by apply (soft_of_total k)]. unfold placed_soft.
  pose proof (fun j w => soft_nonneg_of k j w Hk) as Hn. unfold zsum. induction (soft_of s k) as [|[j w] l IH]; [done |].
  specialize (IH (fun j w H => Hn j w (list_elem_of_further _ _ _ H))). pose proof (Hn j w ltac:(by left)).
  cbn [flat_map]. rewrite map_app, foldr_app. simpl. destruct (placed_range s pl j) as [[c r]|]; simpl; lia.
Qed.

Lemma candidate_facts pl k b pool o :
  pl_ok pl -> buffers p !! k = Some b -> pool ∈ pools p -> pool_id pool = bpool b ->
  o ∈ CandidateOffsets p s pl b k -> is_u64 o /\ (alignment b | o).
Proof.
  intros Hpl Hk Hp E. unfold CandidateOffsets. rewrite ascending_in, elem_of_list_to_set, list_elem_of_omap.
  intros (v & Hv & Ha). apply ascending_in, elem_of_list_to_set in Hv.
  destruct (buffer_facts p p_typed p_ok b (node_in k b Hk)) as (_ & Ta & _ & Na).
  assert (Htop : forall l, v ∈ flat_map (fun other => map rend (in_pool (bpool b) (placed_range s pl other))) l -> is_u64 v).
  { intros l (j & Hj & (r & <- & Hr)%in_map_iff)%list_elem_of_In%in_flat_map. unfold in_pool in Hr.
    destruct (placed_range s pl j) as [[c q]|] eqn:Ej; [|done].
    apply placed_range_inv in Ej as (o' & c' & Ho & Hc & [= <- ->]); [|done].
    destruct (Z.eqb_spec (bpool c) (bpool b)); [|done]. destruct Hr as [<-|[]]. simpl.
    destruct (pl_node _ Hpl j o' Ho) as (d & Hd & Hu & Hok). assert (d = c) as -> by congruence.
    pose proof (placed_top c o' (node_in j c Hd) Hok).
    destruct (buffer_facts p p_typed p_ok c (node_in j c Hd)) as (? & _). unfold is_u64 in *. lia. }
  assert (Hu : is_u64 v).
  { rewrite (pool_ranges_of pool b), elem_of_cons, !elem_of_app in Hv by done.
    destruct Hv as [->|[(r & -> & Hr)%list_elem_of_fmap_1|[Hv|Hv]]]; [unfold is_u64, UINT64_MAX; lia | | by eapply Htop ..].
    by destruct (range_facts p p_typed p_ok pool r Hp Hr) as (_ & ? & _). }
  pose proof (AlignUp_spec v (alignment b) Hu Ta Na) as Hs. rewrite Ha in Hs. by destruct Hs as (? & ? & _).
Qed.

Definition merged (pl : Placement) (b : Buffer) (k : nat) : list AddressRange :=
  MergeBlockingRanges (BlockingRanges p s pl b k).

Definition usable_at (pl : Placement) (b : Buffer) (pool : Pool) (k : nat) : Z -> Prop :=
  usable (bsize b) (capacity pool) (merged pl b k).
Definition cost_at (pl : Placement) (b : Buffer) (k : nat) : Z -> Z := overlap_cost (bsize b) (placed_soft s pl k).

(** The sweep of one buffer finds its best candidate. *)
Lemma best_offset_ok pl k b pool evaluated :
  pl_ok pl -> buffers p !! k = Some b -> pool ∈ pools p -> pool_id pool = bpool b ->
  exists evaluated' found, best_offset p s pl b pool k evaluated = (evaluated', Some found) /\
    is_best (bsize b) (capacity pool) (merged pl b k) (placed_soft s pl k) None (CandidateOffsets p s pl b k) found.
Proof.
  intros Hpl Hk Hp E. destruct (buffer_facts p p_typed p_ok b (node_in k b Hk)) as (Tb & _ & Nb & _).
  pose proof (lookup_lt_Some _ _ _ Hk) as Hlt.
  destruct (MergeBlockingRanges_spec (BlockingRanges p s pl b k)) as (M1 & M2 & M3).
  { intros r Hr. by apply (blocking_facts pl k b pool r). }
  unfold best_offset, BuildSoftBoundaries.
  eapply (sweep_spec (bsize b) (capacity pool) (merged pl b k) (placed_soft s pl k)) with (lo := 0); try done.
  - by apply (capacity_u64 p p_typed).
  - intros r w (j & c & o & _ & Ho & Hc & ->)%placed_soft_in; [|done]. simpl.
    destruct (buffer_facts p p_typed p_ok c (node_in j c Hc)) as (? & _). unfold is_u64 in *. lia.
  - intros r w (j & c & o & Hj & _)%placed_soft_in; [|done]. by eapply soft_nonneg_of.
  - by apply placed_soft_total.
  - apply ascending_sorted.
  - intros o Ho. apply (candidate_facts pl k b pool) in Ho as [Hu _]; try done. split; [done | apply Hu].
  - apply sweep_start.
Qed.

Lemma usable_avoids pl k b pool o :
  pl_ok pl -> buffers p !! k = Some b -> pool ∈ pools p -> pool_id pool = bpool b -> 
  usable_at pl b pool k o <-> o + bsize b <= capacity pool /\
    forall r, r ∈ BlockingRanges p s pl b k -> avoids o (bsize b) r.
Proof.
  intros Hpl Hk Hp E. destruct (buffer_facts p p_typed p_ok b (node_in k b Hk)) as (Tb & _ & Nb & _).
  destruct (MergeBlockingRanges_spec (BlockingRanges p s pl b k)) as (_ & _ & M3).
  { intros r Hr. by apply (blocking_facts pl k b pool r). }
  unfold usable_at, usable, merged. rewrite M3 by (unfold is_u64 in Tb; lia).
  apply and_iff_compat_l. unfold hits, avoids. split.
  - intros H r Hr. destruct (decide (o + bsize b <= rbegin r)); [by left |].
    destruct (decide (rend r <= o)); [by right |]. exfalso. apply H. exists r. split; [done | lia].
  - intros H (r & Hr & Hh). specialize (H r Hr). lia.
Qed.

Lemma pool_at_ok b : b ∈ buffers p -> exists pool, pool_at p (bpool b) = Ok pool /\ pool ∈ pools p /\ pool_id pool = bpool b.
Proof.
  intros Hb. destruct (pool_of p p_ok b Hb) as (pool & E & Hp & Hid & _). exists pool. unfold pool_at. by rewrite E.
Qed.

Definition in_range (order : list nat) : Prop := forall i, i ∈ order -> (i < length (buffers p))%nat.

(** A loop's outcome: no placement, or a valid one of the whole order. *)
Definition placed_all (pl : Placement) (order : list nat) (o : option Placement) : Prop :=
  forall pl', o = Some pl' -> pl_ok pl' /\ forall i, i ∈ order \/ is_Some (pl !! i) -> is_Some (pl' !! i).

Lemma placed_all_cons pl k o order res :
  placed_all (<[ k := o ]> pl) order res -> placed_all pl (k :: order) res.
Proof.
  intros H pl' E. destruct (H pl' E) as [Hok Hall]. split; [done |]. intros i Hi. apply Hall.
  destruct (decide (i = k)) as [->|Hne]; [right; by rewrite lookup_insert_eq |].
  rewrite lookup_insert_ne by done. rewrite elem_of_cons in Hi. tauto.
Qed.

Lemma in_range_cons k order : in_range (k :: order) -> (exists b, buffers p !! k = Some b) /\ in_range order.
Proof.
  intros H. split; [apply lookup_lt_is_Some_2, H; by left | intros i Hi; apply H; by right].
Qed.

Lemma first_fit_loop_ok pl order :
  pl_ok pl -> in_range order -> exists o, first_fit_loop p s pl order = Ok o /\ placed_all pl order o.
Proof.
  revert pl. induction order as [|k order IH]; intros pl Hpl Hr; cbn [first_fit_loop].
  { exists (Some pl). split; [done |]. intros pl' [= <-]. split; [done |].
    intros i [Hi|Hi]; [by apply not_elem_of_nil in Hi | done]. }
  apply in_range_cons in Hr as [[b Hb] Hr]. unfold node_of. rewrite (space_nodes _ _ s_ok), Hb. cbn [bind].
  destruct (pool_at_ok b (node_in k b Hb)) as (pool & -> & Hp & E). cbn [bind].
  destruct (buffer_facts p p_typed p_ok b (node_in k b Hb)) as (Tb & Ta & _ & Na).
  pose proof (LowestFit_least (bsize b) (alignment b) (BlockingRanges p s pl b k) Tb Ta Na) as Hfit.
  destruct (LowestFit _ _ _) as [o|]; [|by exists None].
  destruct Hfit as [(H0 & Hal & Hmax & Hav) _]; [intros r Hin; by apply (blocking_facts pl k b pool r) |].
  assert (Ho : is_u64 o) by (unfold is_u64 in *; lia).
  assert (AddOverflows o (bsize b) = false) as Eo by (by apply AddOverflows_false). rewrite Eo, add_u64 by done. cbn [orb].
  destruct (o + bsize b >? capacity pool) eqn:Ec; [by exists None |]. bool_to_prop.
  destruct (IH (<[ k := o ]> pl)) as (res & -> & Hres); [by apply (pl_ok_insert pl k b pool) | done |].
  exists res. split; [done |]. by eapply placed_all_cons.
Qed.

Lemma place_loop_ok pl order evaluated :
  pl_ok pl -> in_range order ->
  exists o evaluated', place_loop p s pl order evaluated = Ok (o, evaluated') /\ placed_all pl order o.
Proof.
  revert pl evaluated. induction order as [|k order IH]; intros pl evaluated Hpl Hr; cbn [place_loop].
  { exists (Some pl), evaluated. split; [done |]. intros pl' [= <-]. split; [done |].
    intros i [Hi|Hi]; [by apply not_elem_of_nil in Hi | done]. }
  apply in_range_cons in Hr as [[b Hb] Hr]. unfold node_of. rewrite (space_nodes _ _ s_ok), Hb. cbn [bind].
  destruct (pool_at_ok b (node_in k b Hb)) as (pool & -> & Hp & E). cbn [bind].
  destruct (best_offset_ok pl k b pool evaluated Hpl Hb Hp E) as (ev & found & -> & Hbest).
  destruct found as [[c o]|]; [|by exists None, ev].
  destruct Hbest as ([?|(Hin & Hus & _)] & _ & _); [done |]. simpl in Hin, Hus.
  apply (candidate_facts pl k b pool) in Hin as [Hu Hal]; try done.
  apply (usable_avoids pl k b pool) in Hus as [Hcap Hav]; try done.
  destruct (IH (<[ k := o ]> pl) ev) as (res & ev' & -> & Hres); [by apply (pl_ok_insert pl k b pool) | done |].
  exists res, ev'. split; [done |]. by eapply placed_all_cons.
Qed.

(** ** The reuse cost *)

(** Whether two placed nodes share a byte. *)
Definition overlapping (pl : Placement) (pair : nat * nat) : bool :=
  match pl !! pair.1, pl !! pair.2, buffers p !! pair.1, buffers p !! pair.2 with
  | Some o, Some o', Some b, Some c => (o <? o' + bsize c) && (o' <? o + bsize b)
  | _, _, _, _ => false
  end.

(** The soft weights a partial placement activates. *)
Definition cost_of (pl : Placement) : Z := ws_sum (overlapping pl) (soft_weights s).

Lemma overlapping_sym pl i j : overlapping pl (i, j) = overlapping pl (j, i).
Proof.
  unfold overlapping. simpl. destruct (pl !! i), (pl !! j), (buffers p !! i), (buffers p !! j); try done.
  apply andb_comm.
Qed.

Lemma overlap_cost_app size l l' o : overlap_cost size (l ++ l') o = overlap_cost size l o + overlap_cost size l' o.
Proof. unfold overlap_cost. induction l as [|[r w] l IH]; simpl; lia. Qed.

Lemma overlapping_insert pl k b o j :
  pl_ok pl -> buffers p !! k = Some b -> j <> k ->
  (if overlapping (<[ k := o ]> pl) (k, j) then 1 else 0) =
  overlap_cost (bsize b) (match placed_range s pl j with Some (_, r) => [(r, 1)] | None => [] end) o.
Proof.
  intros Hpl Hb Hne. unfold overlapping. simpl. rewrite lookup_insert_eq, lookup_insert_ne, Hb by done.
  destruct (pl !! j) as [o'|] eqn:Ho.
  - destruct (pl_node _ Hpl j o' Ho) as (c & Hc & _). rewrite Hc, (placed_range_some pl j o' c) by done.
    unfold overlap_cost. simpl. rewrite andb_comm. destruct (_ && _); lia.
  - destruct (placed_range s pl j) as [r|] eqn:E; [|done].
    apply placed_range_inv in E as (o' & c & Ho' & _); [congruence | done].
Qed.

(** What placing a buffer adds to the cost is what the sweep computed. *)
Lemma cost_insert pl k b o :
  pl_ok pl -> pl !! k = None -> buffers p !! k = Some b ->
  cost_of (<[ k := o ]> pl) = cost_of pl + cost_at pl b k o.
Proof.
  intros Hpl Hk Hb. unfold cost_of, cost_at, ws_sum, placed_soft.
  rewrite (space_soft _ _ s_ok k (lookup_lt_Some _ _ _ Hb)).
  assert (Hp : map_to_list (soft_weights s) ≡ₚ ascending_weights (soft_weights s)) by (symmetry; apply sort_by_perm).
  rewrite !(zsum_perm _ _ (Permutation_map _ Hp)).
  assert (Hall : forall i j w, ((i, j), w) ∈ ascending_weights (soft_weights s) -> (i < j)%nat).
  { intros i j w. unfold ascending_weights. rewrite sort_by_perm, elem_of_map_to_list. intros Hw.
    by apply (space_keys _ _ s_ok) in Hw as [? _]. }
  clear Hp. induction (ascending_weights (soft_weights s)) as [|[[i j] w] l IH]; [done |].
  specialize (IH (fun i j w H => Hall i j w (list_elem_of_further _ _ _ H))).
  pose proof (Hall i j w ltac:(by left)) as Hij. cbn [flat_map map]. rewrite flat_map_app, overlap_cost_app.
  unfold zsum in *. cbn [foldr]. rewrite IH.
  assert (Hone : entry_weight (overlapping (<[ k := o ]> pl)) ((i, j), w) =
    entry_weight (overlapping pl) ((i, j), w) + overlap_cost (bsize b)
      (flat_map (fun '(other, w) => match placed_range s pl other with Some (_, r) => [(r, w)] | None => [] end)
        (incident k ((i, j), w))) o); [|lia].
  assert (Hscale : forall m, overlap_cost (bsize b) (flat_map (fun '(other, w) =>
      match placed_range s pl other with Some (_, r) => [(r, w)] | None => [] end) [(m, w)]) o =
    w * overlap_cost (bsize b) (match placed_range s pl m with Some (_, r) => [(r, 1)] | None => [] end) o).
  { intros m. simpl. destruct (placed_range s pl m) as [[c r]|]; unfold overlap_cost; simpl; [|lia].
    destruct (_ && _); lia. }
  unfold entry_weight, incident. simpl fst. simpl snd.
  destruct (Nat.eqb_spec i k) as [->|Hi]; destruct (Nat.eqb_spec j k) as [->|Hj]; try lia; cbn [app].
  - rewrite Hscale, <- (overlapping_insert pl k b o j) by done.
    assert (overlapping pl (k, j) = false) as -> by (unfold overlapping; simpl; by rewrite Hk). destruct (overlapping _ _); lia.
  - rewrite Hscale, <- (overlapping_insert pl k b o i) by done. rewrite (overlapping_sym _ i k).
    assert (overlapping pl (i, k) = false) as -> by (unfold overlapping; simpl; rewrite Hk; by destruct (pl !! i)).
    destruct (overlapping _ _); lia.
  - assert (overlapping (<[ k := o ]> pl) (i, j) = overlapping pl (i, j)) as ->
      by (unfold overlapping; simpl; by rewrite !lookup_insert_ne by done). simpl. lia.
Qed.

Lemma saturating_sum (f : ReusePenalty -> bool) l acc :
  Forall (fun r => is_u64 (weight r)) l -> 0 <= acc -> acc + zsum (map weight l) <= UINT64_MAX ->
  foldl (fun cost r => if f r then SaturatingAdd cost (weight r) else cost) acc l =
  acc + zsum (map (fun r => if f r then weight r else 0) l).
Proof.
  intros Hl. revert acc. induction Hl as [|r l Hr Hl IH]; intros acc Ha Hmax; simpl; [lia |].
  unfold zsum in *. simpl in Hmax.
  assert (0 <= foldr Z.add 0 (map weight l)).
  { apply zsum_nonneg. intros v (q & -> & Hq)%list_elem_of_fmap_1.
    by apply (proj1 (List.Forall_forall _ _) Hl q), list_elem_of_In. }
  unfold is_u64 in Hr. destruct (f r); [|rewrite IH; lia].
  unfold SaturatingAdd. assert (AddOverflows acc (weight r) = false) as -> by (apply AddOverflows_false; lia).
  rewrite u64_id by (unfold is_u64; lia). rewrite IH; lia.
Qed.

(** The objective counts the soft weights a complete placement activates. *)
Lemma reuse_cost_eq pl :
  pl_ok pl -> complete pl -> reuse_cost (EvaluateObjective p (BuildSolution s pl)) = cost_of pl.
Proof.
  intros Hpl Hc. unfold EvaluateObjective. simpl.
  rewrite saturating_sum; [|apply p_typed | lia | apply (total_weight_ok _ p_ok)].
  unfold cost_of. rewrite (space_sum _ _ s_ok), Z.add_0_l. f_equal. apply map_ext_in. intros r Hr.
  pose proof (proj1 (List.Forall_forall _ _) (penalties_ok _ p_ok) r Hr) as Hpr.
  destruct (penalty_nodes p p_ok r Hpr) as (i & j & b & c & Hi & Hj & Hij & Eb & Ec & Ep & Ho & Ni & Nj).
  destruct (Hc i (lookup_lt_Some _ _ _ Hi)) as [o Eo], (Hc j (lookup_lt_Some _ _ _ Hj)) as [o' Eo'].
  unfold soft_weight, soft_pair, node_pair. rewrite Ni, Nj. cbn [default from_option id].
  assert (Hcan : overlapping pl (CanonicalPair i j) = overlapping pl (i, j)).
  { unfold CanonicalPair. destruct (i <? j)%nat; [done | apply overlapping_sym]. }
  assert (Hact : activated (BuffersById p) (BuildSolution s pl) r = RangesOverlap o (bsize b) o' (bsize c)).
  { unfold activated, BuffersById. rewrite <- Eb, <- Ec, !by_id_in by (apply (buffer_ids _ p_ok) || by eapply node_in).
    rewrite (BuildSolution_lookup pl i b), (BuildSolution_lookup pl j c), Eo, Eo' by done. simpl.
    by rewrite Ep, Z.eqb_refl, Ho. }
  rewrite Hact, Hcan. destruct (pl_node _ Hpl i o Eo) as (b' & Hb' & Uo & Po).
  destruct (pl_node _ Hpl j o' Eo') as (c' & Hc' & Uo' & Po'). simplify_eq.
  pose proof (placed_top b o (node_in i b Hi) Po). pose proof (placed_top c o' (node_in j c Hj) Po').
  destruct (buffer_facts p p_typed p_ok b (node_in i b Hi)) as (Tb & _ & Nb & _).
  destruct (buffer_facts p p_typed p_ok c (node_in j c Hj)) as (Tc & _ & Nc & _).
  assert (Hov : RangesOverlap o (bsize b) o' (bsize c) = overlapping pl (i, j)).
  { unfold overlapping. simpl. rewrite Eo, Eo', Hi, Hj. unfold RangesOverlap.
    replace (bsize b =? 0) with false by lia. replace (bsize c =? 0) with false by lia.
    assert (AddOverflows o (bsize b) = false) as -> by (by apply AddOverflows_false).
    assert (AddOverflows o' (bsize c) = false) as -> by (by apply AddOverflows_false). cbn [orb].
    by rewrite !u64_id by (unfold is_u64 in *; lia). }
  destruct (Z.eqb_spec (weight r) 0) as [->|Hw]; [simpl; by destruct (RangesOverlap _ _ _ _)|]. cbn [orb].
  destruct (adjacent (hard_neighbors s) i j) eqn:Ea; [|by rewrite Hov].
  apply bool_decide_eq_true, (space_hard _ _ s_ok) in Ea as (_ & b' & c' & Hb'' & Hc'' & Hcf). simplify_eq.
  assert (RangesOverlap o (bsize b) o' (bsize c) = false) as ->; [|done].
  apply RangesOverlap_false; try done. by apply (pl_disjoint _ Hpl i j).
Qed.

(** ** Greedy placements: the abstract specification of one order *)

(** An offset the code considers, at which the placement stays valid. *)
Definition candidate (pl : Placement) (k : nat) (b : Buffer) (o : Z) : Prop :=
  o ∈ CandidateOffsets p s pl b k /\ pl_ok (<[ k := o ]> pl).

Lemma pl_ok_insert_iff pl k b pool o :
  pl_ok pl -> pl !! k = None -> buffers p !! k = Some b -> pool ∈ pools p -> pool_id pool = bpool b ->
  o ∈ CandidateOffsets p s pl b k ->
  pl_ok (<[ k := o ]> pl) <-> usable_at pl b pool k o.
Proof.
  intros Hpl Hk Hb Hp E Hin. rewrite (usable_avoids pl k b pool) by done. split.
  - intros Hok. destruct (pl_node _ Hok k o) as (b' & Hb' & _ & _ & Hpool); [by rewrite lookup_insert_eq |].
    simplify_eq. destruct (Hpool pool Hp E) as [Hcap Hres]. split; [done |]. intros r Hr.
    apply (blocking_in pl k b pool r Hpl Hb Hp E) in Hr as [Hr|(j & c & o' & Hj & Hc & Ho' & _ & ->)].
    + pose proof (proj1 (List.Forall_forall _ _) Hres r (proj1 (list_elem_of_In _ _) Hr)) as Hd.
      unfold disjoint_ranges, avoids in *. lia.
    + apply (space_hard _ _ s_ok) in Hj as (Hkj & b' & c' & Hb'' & Hc'' & Hcf).
      assert (b' = b) as -> by congruence. assert (c' = c) as -> by congruence.
      assert (Hd : disjoint_ranges o (bsize b) o' (bsize c)).
      { apply (pl_disjoint _ Hok k j); try done; [by rewrite lookup_insert_eq | by rewrite lookup_insert_ne]. }
      unfold disjoint_ranges, avoids in *. simpl. lia.
  - intros [Hcap Hav]. destruct (candidate_facts pl k b pool o Hpl Hb Hp E Hin) as [Hu Hal].
    by apply (pl_ok_insert pl k b pool).
Qed.

(** Each buffer in turn goes where it adds least to the reuse cost, and lowest
    among those. *)
Inductive greedy : Placement -> list nat -> Placement -> Prop :=
  | greedy_done pl : greedy pl [] pl
  | greedy_place pl k b o order pl' :
      buffers p !! k = Some b -> candidate pl k b o ->
      (forall v, candidate pl k b v -> cost_of (<[ k := o ]> pl) < cost_of (<[ k := v ]> pl) \/
        cost_of (<[ k := o ]> pl) = cost_of (<[ k := v ]> pl) /\ o <= v) ->
      greedy (<[ k := o ]> pl) order pl' -> greedy pl (k :: order) pl'.

Lemma place_loop_greedy pl order evaluated :
  pl_ok pl -> in_range order -> NoDup order -> (forall k, k ∈ order -> pl !! k = None) ->
  exists res evaluated', place_loop p s pl order evaluated = Ok (res, evaluated') /\
    forall pl', res = Some pl' <-> greedy pl order pl'.
Proof.
  revert pl evaluated. induction order as [|k order IH]; intros pl evaluated Hpl Hr Hn Hnone; cbn [place_loop].
  { exists (Some pl), evaluated. split; [done |]. intros pl'. split; [intros [= <-]; constructor |].
    intros H. by inversion H. }
  apply in_range_cons in Hr as [[b Hb] Hr]. apply NoDup_cons in Hn as [Hk Hn].
  unfold node_of. rewrite (space_nodes _ _ s_ok), Hb. cbn [bind].
  destruct (pool_at_ok b (node_in k b Hb)) as (pool & -> & Hp & E). cbn [bind].
  destruct (best_offset_ok pl k b pool evaluated Hpl Hb Hp E) as (ev & found & -> & Hbest).
  pose proof (Hnone k ltac:(by left)) as Hk0.
  assert (Hcost : forall v, cost_of (<[ k := v ]> pl) = cost_of pl + cost_at pl b k v) by (intros v; by apply cost_insert).
  assert (Hcand : forall v, candidate pl k b v <-> v ∈ CandidateOffsets p s pl b k /\ usable_at pl b pool k v).
  { intros v. unfold candidate. split; intros [Hv H]; (split; [done |]); by apply (pl_ok_insert_iff pl k b pool). }
  destruct found as [[c o]|].
  - destruct Hbest as ([?|(Hin & Hus & Hco)] & Hmin & _); [done |]. simpl in Hin, Hus, Hco. subst c.
    destruct (IH (<[ k := o ]> pl) ev) as (res & ev' & -> & Hres).
    + by apply (pl_ok_insert_iff pl k b pool).
    + done.
    + done.
    + intros j Hj. rewrite lookup_insert_ne by (intros ->; done). apply Hnone. by right.
    + exists res, ev'. split; [done |]. intros pl'. rewrite Hres. split.
      * intros Hg. apply (greedy_place pl k b o); [done | by apply Hcand | | done].
        intros v [Hv1 Hv2]%Hcand. specialize (Hmin v Hv1 Hv2). rewrite !Hcost. unfold cost_at.
        unfold score_less in Hmin. simpl in Hmin. lia.
      * intros Hg. inversion Hg as [|? ? b' o' ? ? Hb' Hc' Hm' Hg']; subst. simplify_eq.
        assert (o' = o) as ->; [|done].
        pose proof (Hm' o ltac:(by apply Hcand)) as Hle. apply Hcand in Hc' as [Hv1 Hv2].
        specialize (Hmin o' Hv1 Hv2). rewrite !Hcost in Hle. unfold cost_at in Hle. unfold score_less in Hmin.
        simpl in Hmin. lia.
  - destruct Hbest as [_ Hbest]. exists None, ev. split; [done |]. intros pl'. split; [done |].
    intros Hg. inversion Hg as [|? ? b' o' ? ? Hb' Hc' Hm' Hg']; subst. simplify_eq.
    apply Hcand in Hc' as [Hv1 Hv2]. by destruct (Hbest o' Hv1).
Qed.

End Placing.
