(* ===== verification/DsaSolve.v ===== *)
(** * What [Solve] returns

    The orders it tries are permutations of the buffers; every placement it
    considers is valid; the result is the best of them, and says which order
    it came from. *)

From Stdlib Require Import ZArith Lia Bool List String.
From stdpp Require Import base gmap list option sorting.
From S2P Require Import Prelude.
From S2P Require Import Dsa DsaSearch DsaSpec DsaFit DsaSound.

(** ** Orders *)

Lemma restarts_perm `{Shuffle} seed i count l order :
  order ∈ restarts seed i count l -> order ≡ₚ l.
Proof.
  revert i l. induction count as [|count IH]; intros i l; cbn [restarts]; [by intros ?%not_elem_of_nil |].
  intros [->|Ho]%elem_of_cons; [apply shuffle_perm |]. etrans; [by eapply IH | apply shuffle_perm].
Qed.

(** No order is tried twice, and none is lost. *)
Lemma keep_first_spec seen orders :
  NoDup (keep_first seen orders) /\
  forall order, order ∈ keep_first seen orders <-> order ∈ orders /\ order ∉ seen.
Proof.
  revert seen. induction orders as [|o orders IH]; intros seen; cbn [keep_first].
  { split; [constructor |]. intros order. split; [by intros ?%not_elem_of_nil | intros [? _]; done]. }
  setoid_rewrite elem_of_cons. case_bool_decide as Ho.
  - destruct (IH seen) as [Hn Hin]. split; [done |]. intros order. rewrite Hin. split; [tauto |].
    intros [[->|?] ?]; done.
  - destruct (IH ({[ o ]} ∪ seen)) as [Hn Hin]. split.
    + apply NoDup_cons. split; [|done]. rewrite Hin. set_solver.
    + intros order. rewrite elem_of_cons, Hin. destruct (decide (order = o)) as [->|]; set_solver.
Qed.

Lemma CanonicalOrders_perm `{Shuffle} s options order :
  order ∈ CanonicalOrders s options -> order ≡ₚ seq 0 (length (nodes s)).
Proof.
  assert (Hsize : SizeOrder s ≡ₚ seq 0 (length (nodes s))) by apply sort_by_perm.
  unfold CanonicalOrders. intros [Ho _]%keep_first_spec. rewrite !elem_of_cons in Ho.
  destruct Ho as [->|[->|[->|Ho]]]; [done | by rewrite sort_by_perm | by rewrite !sort_by_perm |].
  apply restarts_perm in Ho. by rewrite Ho, !sort_by_perm.
Qed.

(** ** The placements considered *)

Section Considered.
Context (p : DsaProblem) (s : SearchSpace).
Hypothesis p_typed : typed p.
Hypothesis p_ok : problem_ok p.
Hypothesis s_ok : space_ok p s.

Definition is_order (order : list nat) : Prop := order ≡ₚ seq 0 (length (buffers p)).

Lemma is_order_range order : is_order order -> in_range p order.
Proof. unfold is_order. intros Ho i. rewrite Ho, list_elem_of_In, in_seq. lia. Qed.

Lemma is_order_NoDup order : is_order order -> NoDup order.
Proof. unfold is_order. intros Ho. rewrite Ho. apply NoDup_ListNoDup, seq_NoDup. Qed.

(** A solution obtained by placing an order greedily. *)
Definition ordered (order : list nat) (sol : DsaSolution) : Prop :=
  exists pl, greedy p s ∅ order pl /\ BuildSolution s pl = sol.

Definition valid (sol : DsaSolution) : Prop := solution_ok p sol /\ typed_solution sol.

Lemma placed_all_complete order res pl :
  is_order order -> placed_all p ∅ order res -> res = Some pl -> pl_ok p pl /\ complete p pl.
Proof.
  unfold is_order. intros Ho Hall E. destruct (Hall pl E) as [Hpl Hin]. split; [done |]. intros i Hi. apply Hin. left.
  rewrite Ho, list_elem_of_In, in_seq. lia.
Qed.

Lemma FirstFitIncumbent_ok : exists res, FirstFitIncumbent p s = Ok res /\ forall sol, res = Some sol -> valid sol.
Proof.
  assert (Ho : is_order (SizeOrder s)).
  { unfold is_order. rewrite <- (space_nodes _ _ s_ok). apply sort_by_perm. }
  destruct (first_fit_loop_ok p s p_typed p_ok s_ok ∅ (SizeOrder s) (pl_ok_empty p) (is_order_range _ Ho))
    as (res & E & Hall).
  exists (BuildSolution s <$> res). unfold FirstFitIncumbent. rewrite E. split; [done |].
  intros sol (pl & Hpl & ->)%fmap_Some_1. destruct (placed_all_complete _ _ pl Ho Hall Hpl) as [Hok Hc].
  by apply BuildSolution_ok.
Qed.

Lemma PlaceCanonicalOrder_ok order evaluated :
  is_order order ->
  exists res evaluated', PlaceCanonicalOrder p s order evaluated = Ok (res, evaluated') /\
    forall sol, res = Some sol <-> ordered order sol.
Proof.
  intros Ho. destruct (place_loop_greedy p s p_typed p_ok s_ok ∅ order evaluated (pl_ok_empty p)
    (is_order_range _ Ho) (is_order_NoDup _ Ho)) as (res & ev & E & Hg); [intros k _; apply lookup_empty |].
  exists (BuildSolution s <$> res), ev. unfold PlaceCanonicalOrder. rewrite E. split; [done |].
  intros sol. unfold ordered. split.
  - intros (pl & Hpl & ->)%fmap_Some_1. exists pl. split; [by apply Hg | done].
  - intros (pl & Hpl%Hg & <-). by rewrite Hpl.
Qed.

Lemma greedy_complete order pl : is_order order -> greedy p s ∅ order pl -> pl_ok p pl /\ complete p pl.
Proof.
  intros Ho Hg.
  destruct (place_loop_greedy p s p_typed p_ok s_ok ∅ order 0 (pl_ok_empty p)
    (is_order_range _ Ho) (is_order_NoDup _ Ho)) as (res & ev & E & Hres); [intros k _; apply lookup_empty |].
  destruct (place_loop_ok p s p_typed p_ok s_ok ∅ order 0 (pl_ok_empty p) (is_order_range _ Ho))
    as (res' & ev' & E' & Hall). rewrite E in E'. injection E' as <- <-.
  by apply (placed_all_complete order res pl Ho Hall), Hres.
Qed.

Lemma ordered_valid order sol : is_order order -> ordered order sol -> valid sol.
Proof.
  intros Ho (pl & Hg & <-). destruct (greedy_complete order pl Ho Hg). by apply BuildSolution_ok.
Qed.

Lemma ordered_unique order sol sol' : is_order order -> ordered order sol -> ordered order sol' -> sol = sol'.
Proof.
  intros Ho. destruct (PlaceCanonicalOrder_ok order 0 Ho) as (res & ev & _ & H). rewrite <- !H. congruence.
Qed.

Lemma valid_no_errors sol : valid sol -> ValidateSolution p sol = Ok [].
Proof.
  intros [Hs Ht]. destruct (ValidateSolution_ok p sol p_typed p_ok Ht) as (errors & E & Herr).
  by rewrite E, (proj2 Herr Hs).
Qed.

(** ** The search over orders *)

Definition no_worse (o o' : ObjectiveValue) : Prop := lex_le (objective_key o) (objective_key o') = true.

(** The result so far: [done] are the orders tried, [seed] is first fit's
    placement. *)
Record best_of (seed : option DsaSolution) (done : list (list nat)) (r : DsaResult) : Prop := {
  best_diagnostics : diagnostics r = [];
  best_count : orders_evaluated (statistics r) = length done;
  best_seed : first_fit_seed_feasible (statistics r) = bool_decide (is_Some seed);
  best_from sol : solution r = Some sol ->
    status r = kFeasible /\ objective r = EvaluateObjective p sol /\
    if selected_first_fit_seed (statistics r) then seed = Some sol
    else exists order, done !! selected_order (statistics r) = Some order /\ ordered order sol;
  best_least sol : seed = Some sol \/ (exists order, order ∈ done /\ ordered order sol) ->
    is_Some (solution r) /\ no_worse (objective r) (EvaluateObjective p sol)
}.

Lemma best_of_start sol st :
  orders_evaluated st = 0%nat -> first_fit_seed_feasible st = true -> selected_first_fit_seed st = true ->
  best_of (Some sol) [] (MkResult kFeasible (Some sol) (EvaluateObjective p sol) st []).
Proof.
  intros E1 E2 E3. split; simpl; try done.
  - intros ? [= <-]. by rewrite E3.
  - intros sol' [[= <-]|(order & Ho & _)]; [|by apply not_elem_of_nil in Ho]. split; [done |].
    unfold no_worse. by destruct (lex_le_total (objective_key (EvaluateObjective p sol))
      (objective_key (EvaluateObjective p sol))).
Qed.

Lemma best_of_empty : best_of None [] initial_result.
Proof. split; simpl; try done. intros sol [?|(order & Ho & _)]; [done | by apply not_elem_of_nil in Ho]. Qed.

(** An order that fails, or whose placement is not better, changes nothing. *)
Lemma best_of_keep seed done order r evaluated :
  best_of seed done r ->
  (forall sol, ordered order sol -> is_Some (solution r) /\ no_worse (objective r) (EvaluateObjective p sol)) ->
  best_of seed (done ++ [order])
    (MkResult (status r) (solution r) (objective r) (count_order (statistics r) evaluated) (diagnostics r)).
Proof.
  intros [H1 H2 H3 H4 H5] Hnew. split; simpl; try done.
  - rewrite H2, length_app. simpl. lia.
  - intros sol Hs. destruct (H4 sol Hs) as (E1 & E2 & E3). split_and!; try done.
    destruct (selected_first_fit_seed _); [done |]. destruct E3 as (o & Ho & Hg). exists o. split; [|done].
    by rewrite lookup_app, Ho.
  - intros sol [Hs|(o & [Ho|Ho]%elem_of_app & Hg)]; [apply H5; by left | apply H5; right; by exists o |].
    apply list_elem_of_singleton in Ho as ->. by apply Hnew.
Qed.

Lemma best_of_adopt seed done order r evaluated sol :
  best_of seed done r -> is_order order -> ordered order sol ->
  (forall old, solution r = Some old -> no_worse (EvaluateObjective p sol) (objective r)) ->
  best_of seed (done ++ [order])
    (adopt r sol (EvaluateObjective p sol) (count_order (statistics r) evaluated) (length done)).
Proof.
  intros [H1 H2 H3 H4 H5] Ho Hsol Hle. split; simpl; try done.
  - rewrite H2, length_app. simpl. lia.
  - intros ? [= <-]. split_and!; try done. exists order. split; [|done].
    by rewrite lookup_app_r, Nat.sub_diag by done.
  - intros sol' Hin. split; [done |].
    assert (Hold : seed = Some sol' \/ (exists o, o ∈ done /\ ordered o sol') ->
      no_worse (EvaluateObjective p sol) (EvaluateObjective p sol')).
    { intros [[old Es] Hw]%H5. eapply lex_le_trans; [by eapply Hle | done]. }
    destruct Hin as [?|(o & [Hd|Hd]%elem_of_app & Hg)]; [auto | apply Hold; right; by exists o |].
    apply list_elem_of_singleton in Hd as ->.
    rewrite (ordered_unique order sol' sol Ho Hg Hsol). unfold no_worse.
    by destruct (lex_le_total (objective_key (EvaluateObjective p sol)) (objective_key (EvaluateObjective p sol))).
Qed.

Lemma IsBetterObjective_spec c i :
  if IsBetterObjective c i then no_worse c i else no_worse i c.
Proof.
  unfold IsBetterObjective, no_worse. destruct (lex_le (objective_key i) (objective_key c)) eqn:E; simpl; [done |].
  destruct (lex_le_total (objective_key c) (objective_key i)) as [H|H]; [done | congruence].
Qed.

Lemma try_orders_spec seed orders done r :
  (forall order, order ∈ orders -> is_order order) -> best_of seed done r ->
  exists r', try_orders p s orders (length done) r = Ok (finish r') /\ best_of seed (done ++ orders) r'.
Proof.
  revert done r. induction orders as [|order orders IH]; intros done r Hin Hb; cbn [try_orders].
  { exists r. by rewrite app_nil_r. }
  assert (Ho : is_order order) by (apply Hin; by left).
  assert (Hrest : forall o, o ∈ orders -> is_order o) by (intros o Hi; apply Hin; by right).
  assert (Hnext : forall r', best_of seed (done ++ [order]) r' ->
    exists r'', try_orders p s orders (S (length done)) r' = Ok (finish r'') /\ best_of seed (done ++ order :: orders) r'').
  { intros r' Hr'. destruct (IH (done ++ [order]) r' Hrest Hr') as (r'' & E & Hr'').
    rewrite length_app, Nat.add_1_r in E. rewrite <- app_assoc in Hr''. by exists r''. }
  destruct (PlaceCanonicalOrder_ok order (candidate_offsets_evaluated (statistics r)) Ho) as (res & ev & -> & Hres).
  cbn [bind]. destruct res as [sol|].
  - pose proof (proj1 (Hres sol) eq_refl) as Hsol. rewrite (valid_no_errors sol) by (by eapply ordered_valid). cbn [bind].
    pose proof (IsBetterObjective_spec (EvaluateObjective p sol) (objective r)) as Hbetter.
    destruct (solution r) as [old|] eqn:Es; [destruct (IsBetterObjective _ _)|].
    + apply Hnext. by apply best_of_adopt.
    + apply Hnext. rewrite <- Es. apply best_of_keep; [done |]. intros sol' Hs'.
      by rewrite Es, (ordered_unique order sol' sol Ho Hs' Hsol).
    + apply Hnext. apply best_of_adopt; try done. congruence.
  - apply Hnext. apply best_of_keep; [done |]. intros sol Hs%Hres. done.
Qed.

End Considered.

(** ** Relaxed separations *)

Lemma count_zero {A} (f : A -> bool) l :
  length (List.filter f l) = 0%nat <-> forall x, x ∈ l -> f x = false.
Proof.
  rewrite length_zero_iff_nil. induction l as [|x l IH]; simpl; [split; [by intros _ x ?%not_elem_of_nil | done] |].
  setoid_rewrite elem_of_cons. destruct (f x) eqn:E; [split; [done | intros H; by rewrite H in E; [|left]] |].
  rewrite IH. naive_solver.
Qed.

Section Relaxed.
Context (p : DsaProblem) (relaxable : list Separation) (w : Z).
Hypothesis p_typed : typed p.
Hypothesis p_ok : problem_ok p.

Abbreviation relaxed := (RelaxSeparationsToPenalties p relaxable w).

Lemma relaxed_placed b o : placed_ok relaxed b o <-> placed_ok p b o.
Proof. done. Qed.

Lemma kept_separation r :
  r ∈ separations relaxed <-> r ∈ separations p /\
    ~ exists q, q ∈ relaxable /\ CanonicalBufferPair (sfirst q) (ssecond q) = CanonicalBufferPair (sfirst r) (ssecond r).
Proof.
  cbn [separations RelaxSeparationsToPenalties]. rewrite list_elem_of_In, filter_In, <- list_elem_of_In, negb_true_iff,
    bool_decide_eq_false. unfold separation_pairs. rewrite elem_of_list_to_set, list_elem_of_fmap.
  apply and_iff_compat_l. naive_solver.
Qed.

Lemma conflicting_relaxed b c : conflicting relaxed b c -> conflicting p b c.
Proof.
  intros [E [Ho|(r & [Hr _]%kept_separation & H)]]; (split; [done |]); [by left | right]. by exists r.
Qed.

Lemma conflicting_split b c :
  conflicting p b c -> conflicting relaxed b c \/ bpool b = bpool c /\ separated relaxable b c.
Proof.
  intros [E [Ho|(r & Hr & H)]]; [left; split; [done | by left] |].
  assert (Hc : CanonicalBufferPair (sfirst r) (ssecond r) = CanonicalBufferPair (buffer_id b) (buffer_id c))
    by (by apply canonical_eq).
  destruct (decide (CanonicalBufferPair (sfirst r) (ssecond r) ∈ separation_pairs relaxable)) as [Hin|Hout].
  - right. split; [done |]. rewrite Hc in Hin. by apply separation_pairs_in.
  - left. split; [done |]. right. exists r. split; [|done]. apply kept_separation. split; [done |].
    intros (q & Hq & Eq). apply Hout. unfold separation_pairs. apply elem_of_list_to_set, list_elem_of_fmap. eauto.
Qed.

(** Two placed buffers of one pool do not share a byte exactly when the code's
    test says so. *)
Lemma placed_overlap b c o o' :
  b ∈ buffers p -> c ∈ buffers p -> is_u64 o -> is_u64 o' -> placed_ok p b o -> placed_ok p c o' ->
  RangesOverlap o (bsize b) o' (bsize c) = false <-> disjoint_ranges o (bsize b) o' (bsize c).
Proof.
  intros Hb Hc Ho Ho' Pb Pc. pose proof (placed_top p p_typed p_ok b o Hb Pb).
  pose proof (placed_top p p_typed p_ok c o' Hc Pc).
  destruct (buffer_facts p p_typed p_ok b Hb) as (? & _ & ? & _).
  destruct (buffer_facts p p_typed p_ok c Hc) as (? & _ & ? & _). by apply RangesOverlap_false.
Qed.

Definition overlap_test (sol : DsaSolution) (pair : Separation) : bool :=
  match BuffersById p !! sfirst pair, BuffersById p !! ssecond pair, sol !! sfirst pair, sol !! ssecond pair with
  | Some b, Some c, Some o, Some o' => (bpool b =? bpool c) && RangesOverlap o (bsize b) o' (bsize c)
  | _, _, _, _ => false
  end.

Lemma relaxed_solution sol :
  typed_solution sol -> (forall r, r ∈ relaxable -> r ∈ separations p) ->
  solution_ok p sol <-> solution_ok relaxed sol /\ CountOverlappingPairs p sol relaxable = 0%nat.
Proof.
  intros Ht Hsub. unfold CountOverlappingPairs. rewrite (count_zero (overlap_test sol)). split.
  - intros Hs. split.
    + destruct Hs as [H1 H2 H3]. split; [done | done |]. intros b c o o' Hb Hc Hne Hcf.
      apply (H3 b c o o'); try done. by apply conflicting_relaxed.
    + intros r Hr. unfold overlap_test.
      destruct (BuffersById p !! sfirst r) as [b|] eqn:Eb; [|done]. destruct (BuffersById p !! ssecond r) as [c|] eqn:Ec; [|done].
      destruct (sol !! sfirst r) as [o|] eqn:Eo; [|done]. destruct (sol !! ssecond r) as [o'|] eqn:Eo'; [|done].
      destruct (Z.eqb_spec (bpool b) (bpool c)) as [E|]; [|done]. cbn [andb].
      apply by_id_some in Eb as [Hb Ib], Ec as [Hc Ic]. rewrite <- Ib in Eo. rewrite <- Ic in Eo'.
      destruct (all_placed _ _ Hs b Hb) as (o1 & Eo1 & Pb), (all_placed _ _ Hs c Hc) as (o2 & Eo2 & Pc). simplify_eq.
      apply (placed_overlap b c); try done; [by eapply Ht | by eapply Ht |].
      destruct (proj1 (List.Forall_forall _ _) (separations_ok _ p_ok) r (proj1 (list_elem_of_In _ _) (Hsub r Hr)))
        as (Hne & _).
      apply (no_overlap _ _ Hs b c); try done; [congruence |]. split; [done |]. right. exists r. split; [by apply Hsub | auto].
  - intros [[H1 H2 H3] Hcount]. split; [done | done |]. intros b c o o' Hb Hc Hne Hcf Eo Eo'.
    destruct (conflicting_split b c Hcf) as [Hr|[E (r & Hr & Hends)]]; [by apply (H3 b c) |].
    destruct (H2 b Hb) as (o1 & Eo1 & Pb), (H2 c Hc) as (o2 & Eo2 & Pc). simplify_eq.
    specialize (Hcount r Hr). unfold overlap_test, BuffersById in Hcount.
    pose proof (buffer_ids _ p_ok) as Hn.
    destruct Hends as [[E1 E2]|[E1 E2]]; rewrite E1, E2, !by_id_in, Eo, Eo', E, Z.eqb_refl in Hcount by done; cbn [andb] in Hcount.
    + apply (placed_overlap b c) in Hcount; try done; by eapply Ht.
    + apply disjoint_sym. apply (placed_overlap c b) in Hcount; try done; by eapply Ht.
Qed.

End Relaxed.

(** ** Properties *)

(** Problems and machines for the witnesses; they are those of the solver's
    unit tests. *)
Module Examples.

#[export] Instance same_order : Shuffle := { shuffle _ _ l := l; shuffle_perm _ _ l := reflexivity l }.

Definition tile (id size al b e : Z) : Buffer := MkBuffer id size al 0 (MkInterval b e).

Definition penalised : DsaProblem :=
  MkProblem [MkPool 0 128 []] [tile 0 64 32 0 2; tile 1 64 32 2 4; tile 2 64 32 4 6] []
    [MkPenalty 0 1 10; MkPenalty 0 2 1; MkPenalty 1 2 1].

Definition strict : DsaProblem :=
  MkProblem [MkPool 0 128 []] [tile 0 64 32 0 2; tile 1 64 32 2 4] [MkSeparation 0 1] [].

(** Six buffers that fit, but not in the orders tried. *)
Definition tight : DsaProblem :=
  MkProblem [MkPool 0 16 []]
    [tile 0 6 2 3 5; tile 1 6 2 2 7; tile 2 4 4 4 5; tile 3 8 4 0 3; tile 4 2 2 5 7; tile 5 1 1 5 10] [] [].

Definition tight_fit : DsaSolution := list_to_map [(0, 4); (1, 10); (2, 0); (3, 0); (4, 0); (5, 2)].

Ltac solve_typed := split; repeat constructor; simpl; unfold is_u64, UINT64_MAX; lia.

Lemma penalised_typed : typed penalised.
Proof. solve_typed. Qed.
Lemma strict_typed : typed strict.
Proof. solve_typed. Qed.
Lemma tight_typed : typed tight.
Proof. solve_typed. Qed.

Lemma typed_solution_list l : Forall (fun kv : Z * Z => is_u64 kv.2) l -> typed_solution (list_to_map l).
Proof.
  intros Hl id o Ho%elem_of_list_to_map_2. rewrite List.Forall_forall in Hl. by apply (Hl (id, o)), list_elem_of_In.
Qed.

End Examples.
Import Examples.

(** C32: The two validators decide the abstract notions: ValidateProblem has no message
    exactly for well-formed problems (distinct ids, positive sizes, known pools, half-open
    lifetimes, separations and penalties between distinct known buffers of one pool, total
    weight in 64 bits), and ValidateSolution has none exactly for valid placements of
    well-formed problems, by byte ranges of unbounded integers. *)
Theorem validators_spec p :
  typed p ->
  (ValidateProblem p = [] <-> problem_ok p) /\
  forall sol, typed_solution sol ->
    exists errors, ValidateSolution p sol = Ok errors /\ (errors = [] <-> problem_ok p /\ solution_ok p sol).
Proof.
  intros Hp. split; [by apply ValidateProblem_ok |]. intros sol Hs. destruct (ValidateProblem p) as [|e errors] eqn:E.
  - apply ValidateProblem_ok in E as Hok; [|done]. destruct (ValidateSolution_ok p sol Hp Hok Hs) as (errors & -> & H).
    exists errors. split; [done |]. rewrite H. tauto.
  - exists (e :: errors). split; [unfold ValidateSolution; by rewrite E |]. split; [done |].
    intros [Hok%ValidateProblem_ok _]; congruence.
Qed.

(** LowestFit returns the lowest aligned offset whose range avoids every blocked range
    and stays below 2^64, and nothing exactly when there is none, for blocked ranges in any
    order. *)
Theorem LowestFit_spec size al blocked :
  is_u64 size -> is_u64 al -> al <> 0 -> (forall r, r ∈ blocked -> u64_range r) ->
  match LowestFit size al blocked with
  | Some o => fits_at size al blocked o /\ forall v, fits_at size al blocked v -> o <= v
  | None => forall v, ~ fits_at size al blocked v
  end.
Proof. apply LowestFit_least. Qed.

(** C31: PlaceCanonicalOrder refines the greedy specification: each buffer of the order in
    turn goes to the candidate offset that keeps the placement valid and adds least to the
    reuse cost, the lowest among equals, and there is no placement exactly when some buffer
    has no such offset; the sweep over sorted boundaries computes these costs without
    overflow, and the cost of the complete placement is the objective's reuse cost. *)
Theorem PlaceCanonicalOrder_refines p s order evaluated :
  typed p -> problem_ok p -> BuildSearchSpace p = Ok s -> is_order p order ->
  exists res evaluated', PlaceCanonicalOrder p s order evaluated = Ok (res, evaluated') /\
    (forall sol, res = Some sol <-> exists pl, greedy p s ∅ order pl /\ BuildSolution s pl = sol) /\
    forall pl, greedy p s ∅ order pl ->
      solution_ok p (BuildSolution s pl) /\ reuse_cost (EvaluateObjective p (BuildSolution s pl)) = cost_of p s pl.
Proof.
  intros Ht Hp Es Ho. destruct (BuildSearchSpace_ok p Ht Hp) as (s' & Es' & Hs). rewrite Es in Es'. injection Es' as <-.
  destruct (PlaceCanonicalOrder_ok p s Ht Hp Hs order evaluated Ho) as (res & ev & E & Hres).
  exists res, ev. split_and!; [done | exact Hres |]. intros pl Hg.
  destruct (greedy_complete p s Ht Hp Hs order pl Ho Hg) as [Hok Hc].
  split; [by apply BuildSolution_ok | by apply reuse_cost_eq].
Qed.

Lemma Solve_outcome `{Shuffle} options p :
  typed p -> problem_ok p ->
  exists s seed r, BuildSearchSpace p = Ok s /\ space_ok p s /\ FirstFitIncumbent p s = Ok seed /\
    (forall sol, seed = Some sol -> valid p sol) /\
    Solve options p = Ok (finish r) /\ best_of p s seed (CanonicalOrders s options) r.
Proof.
  intros Ht Hp. unfold Solve. rewrite (proj2 (ValidateProblem_ok p Ht) Hp).
  destruct (BuildSearchSpace_ok p Ht Hp) as (s & Es & Hs). rewrite Es. cbn [bind].
  destruct (FirstFitIncumbent_ok p s Ht Hp Hs) as (seed & Ef & Hv). rewrite Ef. cbn [bind].
  assert (Horders : forall order, order ∈ CanonicalOrders s options -> is_order p order).
  { intros order Ho. unfold is_order. rewrite <- (space_nodes _ _ Hs). by eapply CanonicalOrders_perm. }
  exists s, seed. destruct seed as [sol|].
  - rewrite (valid_no_errors p Ht Hp sol) by auto. cbn [bind].
    destruct (try_orders_spec p s Ht Hp Hs (Some sol) _ [] _ Horders
      (best_of_start p s sol (MkStatistics 0 0 0 true true) eq_refl eq_refl eq_refl)) as (r & E & Hb). by exists r.
  - destruct (try_orders_spec p s Ht Hp Hs None _ [] _ Horders (best_of_empty p s)) as (r & E & Hb). by exists r.
Qed.

Lemma best_valid p s seed done r sol :
  typed p -> problem_ok p -> space_ok p s -> (forall order, order ∈ done -> is_order p order) ->
  (forall sol, seed = Some sol -> valid p sol) -> best_of p s seed done r -> solution r = Some sol -> valid p sol.
Proof.
  intros Ht Hp Hs Hd Hv Hb Er. destruct (best_from _ _ _ _ _ Hb sol Er) as (_ & _ & Hfrom).
  destruct (selected_first_fit_seed _); [by apply Hv |]. destruct Hfrom as (order & Ho & Hg).
  apply (ordered_valid p s Ht Hp Hs order); [|done]. by eapply Hd, list_elem_of_lookup_2.
Qed.

(** What [Solve] promises. *)
Inductive solve_result (p : DsaProblem) (r : DsaResult) : Prop :=
  | solve_invalid : ~ problem_ok p -> status r = kInvalidProblem -> solution r = None ->
      diagnostics r = ValidateProblem p -> solve_result p r
  | solve_no_fit : problem_ok p -> status r = kNoFit -> solution r = None -> diagnostics r <> [] -> solve_result p r
  | solve_feasible sol : problem_ok p -> status r = kFeasible -> solution r = Some sol -> solution_ok p sol ->
      objective r = EvaluateObjective p sol -> diagnostics r = [] -> solve_result p r.

(** C4: Solve refines its contract on every problem whose members are 64-bit unsigned: it
    returns, and either the problem is ill-formed and the result is kInvalidProblem with the
    validator's messages, or it is well-formed and the result is kNoFit with a message, or
    kFeasible with a placement that is aligned, within capacity, off the reserved ranges and
    free of overlap between conflicting buffers, and with that placement's objective; the
    two internal validation failures never happen. *)
Theorem Solve_refines `{Shuffle} options p :
  typed p -> exists r, Solve options p = Ok r /\ solve_result p r.
Proof.
  intros Ht. destruct (ValidateProblem p) as [|e errors] eqn:E.
  - apply ValidateProblem_ok in E as Hp; [|done].
    destruct (Solve_outcome options p Ht Hp) as (s & seed & r & _ & Hs & _ & Hv & -> & Hb).
    exists (finish r). split; [done |]. unfold finish. destruct (solution r) as [sol|] eqn:Er.
    + destruct (best_from _ _ _ _ _ Hb sol Er) as (H1 & H2 & _).
      apply (solve_feasible p r sol); try done; [|by apply (best_diagnostics _ _ _ _ _ Hb)].
      eapply (best_valid p s seed _ r); try done. intros order Ho. unfold is_order.
      rewrite <- (space_nodes _ _ Hs). by eapply CanonicalOrders_perm.
    + apply solve_no_fit; try done. simpl. by destruct (diagnostics r).
  - eexists. unfold Solve. rewrite E. split; [done |]. apply solve_invalid; try done.
    rewrite <- ValidateProblem_ok by done. congruence.
Qed.

(** C30: Solve returns the best placement it considered and says where it came from: first
    fit's placement when selected_first_fit_seed is set, else the greedy placement of the
    order at index selected_order; a feasible first fit is never lost, and no order's greedy
    placement has a smaller (reuse cost, total peak, maximal peak). *)
Theorem Solve_best `{Shuffle} options p s seed :
  typed p -> problem_ok p -> BuildSearchSpace p = Ok s -> FirstFitIncumbent p s = Ok seed ->
  exists r, Solve options p = Ok r /\
    (forall sol, solution r = Some sol ->
      if selected_first_fit_seed (statistics r) then seed = Some sol
      else exists order pl, CanonicalOrders s options !! selected_order (statistics r) = Some order /\
        greedy p s ∅ order pl /\ BuildSolution s pl = sol) /\
    (forall sol, seed = Some sol \/
        (exists order pl, order ∈ CanonicalOrders s options /\ greedy p s ∅ order pl /\ BuildSolution s pl = sol) ->
      is_Some (solution r) /\ no_worse (objective r) (EvaluateObjective p sol)).
Proof.
  intros Ht Hp Es Ef. destruct (Solve_outcome options p Ht Hp) as (s' & seed' & r & Es' & _ & Ef' & _ & -> & Hb).
  rewrite Es in Es'. injection Es' as <-. rewrite Ef in Ef'. injection Ef' as <-.
  exists (finish r). split; [done |].
  assert (Ho : objective (finish r) = objective r /\ statistics (finish r) = statistics r /\
    solution (finish r) = solution r) by (unfold finish; by destruct (solution r) eqn:E).
  destruct Ho as (-> & -> & ->). split.
  - intros sol Hsol. destruct (best_from _ _ _ _ _ Hb sol Hsol) as (_ & _ & H1).
    destruct (selected_first_fit_seed _); [done |]. destruct H1 as (order & Ho & pl & Hg & E). by exists order, pl.
  - intros sol Hsol. apply (best_least _ _ _ _ _ Hb). destruct Hsol as [?|(order & pl & Ho & Hg)]; [by left | right].
    exists order. split; [done | by exists pl].
Qed.

(** Relaxing separations gives up exactly these: a placement is valid for a problem if
    and only if it is valid for the relaxed problem and CountOverlappingPairs finds no
    overlap among the relaxed pairs. *)
Theorem RelaxSeparationsToPenalties_spec p relaxable w sol :
  typed p -> problem_ok p -> typed_solution sol -> (forall r, r ∈ relaxable -> r ∈ separations p) ->
  solution_ok p sol <->
  solution_ok (RelaxSeparationsToPenalties p relaxable w) sol /\ CountOverlappingPairs p sol relaxable = 0%nat.
Proof. intros Ht Hp Hs Hsub. by apply relaxed_solution. Qed.

(** kNoFit is not a proof of infeasibility: the six-buffer instance of the unit tests
    has a valid placement, and Solve without restarts answers kNoFit, whatever the seed. *)
Theorem Solve_misses :
  solution_ok tight tight_fit /\
  forall (S : Shuffle) seed, exists r, Solve (MkOptions seed 0) tight = Ok r /\ status r = kNoFit /\ solution r = None.
Proof.
  assert (Hp : problem_ok tight) by (apply ValidateProblem_ok; [apply tight_typed | by vm_compute]). split.
  - assert (Ht : typed_solution tight_fit).
    { apply typed_solution_list. repeat constructor; simpl; unfold UINT64_MAX; lia. }
    destruct (ValidateSolution_ok tight tight_fit tight_typed Hp Ht) as (errors & E & Herr).
    apply Herr. vm_compute in E. congruence.
  - intros S seed. eexists. split; [by vm_compute |]. done.
Qed.

(** ** Witnesses *)

Lemma penalised_ok : problem_ok penalised.
Proof. apply ValidateProblem_ok; [apply penalised_typed | by vm_compute]. Qed.
Lemma strict_ok : problem_ok strict.
Proof. apply ValidateProblem_ok; [apply strict_typed | by vm_compute]. Qed.

Lemma tight_fit_typed : typed_solution tight_fit.
Proof. apply typed_solution_list. repeat constructor; simpl; unfold UINT64_MAX; lia. Qed.

Lemma validators_witness : problem_ok tight /\ ValidateSolution tight tight_fit = Ok [] /\ solution_ok tight tight_fit.
Proof.
  destruct (validators_spec tight tight_typed) as [Hp Hs]. split; [apply Hp; by vm_compute |].
  split; [by vm_compute |]. destruct (Hs tight_fit tight_fit_typed) as (errors & E & H).
  apply H. vm_compute in E. congruence.
Defined.

Lemma LowestFit_witness :
  LowestFit 64 32 [MkRange 0 32; MkRange 96 128] = Some 32 /\
  forall v, fits_at 64 32 [MkRange 0 32; MkRange 96 128] v -> 32 <= v.
Proof.
  split; [by vm_compute |].
  assert (H : forall r, r ∈ [MkRange 0 32; MkRange 96 128] -> u64_range r).
  { intros r [->|[->|[]%not_elem_of_nil]%elem_of_cons]%elem_of_cons; unfold u64_range, is_u64, UINT64_MAX; simpl; lia. }
  pose proof (LowestFit_spec 64 32 [MkRange 0 32; MkRange 96 128] ltac:(unfold is_u64, UINT64_MAX; lia)
    ltac:(unfold is_u64, UINT64_MAX; lia) ltac:(lia) H) as Hfit.
  assert (E : LowestFit 64 32 [MkRange 0 32; MkRange 96 128] = Some 32) by (by vm_compute).
  rewrite E in Hfit. apply Hfit.
Defined.

(** Placing the three tiles in order costs the lighter penalty. *)
Lemma PlaceCanonicalOrder_witness :
  exists s res evaluated', BuildSearchSpace penalised = Ok s /\
    PlaceCanonicalOrder penalised s [0; 1; 2]%nat 0 = Ok (Some res, evaluated') /\
    solution_ok penalised res /\ reuse_cost (EvaluateObjective penalised res) = 1.
Proof.
  destruct (BuildSearchSpace penalised) as [s|e] eqn:Es; [|by vm_compute in Es].
  assert (Ho : is_order penalised [0; 1; 2]%nat) by (unfold is_order; reflexivity).
  destruct (PlaceCanonicalOrder_refines penalised s [0; 1; 2]%nat 0 penalised_typed penalised_ok Es Ho)
    as (res & ev & E & Hres & Hok).
  assert (Eres : exists sol, res = Some sol /\ reuse_cost (EvaluateObjective penalised sol) = 1).
  { vm_compute in Es. injection Es as <-. vm_compute in E. injection E as <- <-. eexists. split; [done | by vm_compute]. }
  destruct Eres as (sol & -> & Hcost). exists s, sol, ev. split_and!; try done.
  destruct (proj1 (Hres sol) eq_refl) as (pl & Hg & <-). by apply Hok.
Defined.

Lemma Solve_refines_witness :
  exists r sol, Solve (MkOptions 0 2) penalised = Ok r /\ solution r = Some sol /\ solution_ok penalised sol.
Proof.
  destruct (Solve_refines (MkOptions 0 2) penalised penalised_typed) as (r & E & Hr).
  assert (Hs : status r = kFeasible) by (vm_compute in E; by injection E as <-).
  inversion Hr as [? ?|? ?|sol]; [congruence .. |]. by exists r, sol.
Defined.

(** The greedy placement beats first fit, which pays twelve. *)
Lemma Solve_best_witness :
  exists s seed r, BuildSearchSpace penalised = Ok s /\ FirstFitIncumbent penalised s = Ok (Some seed) /\
    Solve (MkOptions 0 2) penalised = Ok r /\ selected_first_fit_seed (statistics r) = false /\
    reuse_cost (EvaluateObjective penalised seed) = 12 /\ reuse_cost (objective r) = 1 /\
    no_worse (objective r) (EvaluateObjective penalised seed).
Proof.
  destruct (BuildSearchSpace penalised) as [s|e] eqn:Es; [|by vm_compute in Es].
  destruct (FirstFitIncumbent penalised s) as [seed|e] eqn:Ef;
    [|vm_compute in Es; injection Es as <-; by vm_compute in Ef].
  destruct (Solve_best (MkOptions 0 2) penalised s seed penalised_typed penalised_ok Es Ef) as (r & E & _ & Hbest).
  vm_compute in Es. injection Es as <-. vm_compute in Ef. injection Ef as <-. vm_compute in E. injection E as <-.
  do 3 eexists. split_and!; [done | by vm_compute | by vm_compute | done | by vm_compute | done |].
  apply Hbest. by left.
Defined.

Lemma RelaxSeparations_witness :
  ~ solution_ok strict (list_to_map [(0, 0); (1, 0)]) /\
  CountOverlappingPairs strict (list_to_map [(0, 0); (1, 0)]) [MkSeparation 0 1] = 1%nat.
Proof.
  assert (Ht : typed_solution (list_to_map [(0, 0); (1, 0)])).
  { apply typed_solution_list. repeat constructor; simpl; unfold UINT64_MAX; lia. }
  split; [|by vm_compute]. intros Hs.
  destruct (proj1 (RelaxSeparationsToPenalties_spec strict [MkSeparation 0 1] 1 _ strict_typed strict_ok Ht (fun r H => H)) Hs)
    as [_ Hc]. by vm_compute in Hc.
Defined.
