(* ===== verification/Storage.v ===== *)
(** * Storage footprints ([include/pypto/ir/storage_size.h], [transforms/utils/l0c_footprint.h])

    How many bytes a statically shaped value occupies in a memory space: packed
    nibbles, rows of the accumulator buffer rounded up to its alignment, and
    nothing ([nullopt]) when a size is unknown or does not fit 64 bits. *)

From Stdlib Require Import ZArith Lia Bool List.
From stdpp Require Import base list option.
From S2P Require Import Prelude Dtype ScalarExpr.

(** ** [storage_size.h] *)

Definition GetStorageBitWidth (dtype : DataType) : Z :=
  if GetBit dtype =? 4 then 4 else u64 (GetByte dtype * 8).

Definition StaticStorageBytes (logical_elements : Z) (dtype : DataType) : option Z :=
  let storage_bits := GetStorageBitWidth dtype in
  if (storage_bits =? 0) || (logical_elements >? UINT64_MAX / storage_bits) then None
  else
    let total_bits := u64 (logical_elements * storage_bits) in
    Some (u64 (total_bits / 8 + (if total_bits mod 8 =? 0 then 0 else 1))).

Definition StaticLogicalOffsetToByte (logical_offset : Z) (dtype : DataType) : option Z :=
  let storage_bits := GetStorageBitWidth dtype in
  if (storage_bits =? 0) || (logical_offset >? UINT64_MAX / storage_bits) then None
  else
    let bit_offset := u64 (logical_offset * storage_bits) in
    if negb (bit_offset mod 8 =? 0) then None else Some (bit_offset / 8).

(** ** [l0c_footprint.h] *)

Definition L0cPhysicalElements (m n m_alignment : Z) : option Z :=
  if (m <=? 0) || (n <=? 0) || (m_alignment <=? 0) then None
  else
    let remainder := m mod m_alignment in
    let increment := if remainder =? 0 then 0 else u64 (m_alignment - remainder) in
    if m >? u64 (UINT64_MAX - increment) then None
    else
      let physical_m := u64 (m + increment) in
      if physical_m >? UINT64_MAX / n then None else Some (u64 (physical_m * n)).

Definition L0cPhysicalBytes (m n element_bytes m_alignment : Z) : option Z :=
  if element_bytes =? 0 then None
  else match L0cPhysicalElements m n m_alignment with
  | Some elements =>
      if elements >? UINT64_MAX / element_bytes then None else Some (u64 (elements * element_bytes))
  | None => None
  end.

Inductive MemorySpace :=
  DDR | Vec | Mat | Left | Right | Acc | Bias | ScalarLocal | LeftScale | RightScale.

#[export] Instance MemorySpace_eq_dec : EqDecision MemorySpace.
Proof. solve_decision. Defined.

Record ShapedType := MkShaped { shape_ : list expr; dtype_ : DataType }.

(** The loop over the shape: every dimension a positive literal. *)
Fixpoint static_extents (shape : list expr) : option (list Z) :=
  match shape with
  | [] => Some []
  | ConstInt value _ :: shape =>
      if value <=? 0 then None
      else match static_extents shape with Some extents => Some (value :: extents) | None => None end
  | _ :: _ => None
  end.

(** The loops that multiply by extents. *)
Fixpoint multiply_extents (bytes : Z) (extents : list Z) : option Z :=
  match extents with
  | [] => Some bytes
  | extent :: extents =>
      if bytes >? UINT64_MAX / extent then None else multiply_extents (u64 (bytes * extent)) extents
  end.

(** [handler->GetL0cMAlignment] when there is a handler. *)
Definition l0c_alignment (handler : option (DataType -> Z)) (dtype : DataType) : Z :=
  match handler with
  | Some get => get dtype
  | None => if dtype_eqb dtype INT32 then 32 else 16
  end.

Definition StaticPhysicalAllocationBytes (type : option ShapedType) (space : MemorySpace)
    (handler : option (DataType -> Z)) : option Z :=
  match type with
  | None => None
  | Some type =>
    match static_extents (shape_ type) with
    | None => None
    | Some extents =>
      if decide (space = Acc) then
        match rev extents with
        | n :: m :: _ =>
            if (m >? INT64_MAX) || (n >? INT64_MAX) then None
            else match L0cPhysicalBytes m n (GetByte (dtype_ type)) (l0c_alignment handler (dtype_ type)) with
            | Some bytes => multiply_extents bytes (take (length extents - 2) extents)
            | None => None
            end
        | _ => None
        end
      else match multiply_extents 1 extents with
      | Some elements => StaticStorageBytes elements (dtype_ type)
      | None => None
      end
    end
  end.

(** ** The footprint of a value *)

(** [x] rounded up to a multiple of [a]. *)
Definition round_up (x a : Z) : Z := (x + a - 1) / a * a.

Lemma round_up_spec x a : 0 < a -> x <= round_up x a < x + a /\ (a | round_up x a).
Proof.
  intros Ha. unfold round_up. split; [|apply Z.divide_factor_r].
  pose proof (Z.div_mod (x + a - 1) a). pose proof (Z.mod_pos_bound (x + a - 1) a). nia.
Qed.

Lemma round_up_unique x a y : 0 < a -> (a | y) -> x <= y < x + a -> y = round_up x a.
Proof.
  intros Ha [q ->] Hy. unfold round_up. f_equal. apply (Z.div_unique_pos _ _ _ (x + a - 1 - q * a)); lia.
Qed.

Lemma round_up_mono x y a : 0 < a -> x <= y -> round_up x a <= round_up y a.
Proof. intros Ha Hxy. unfold round_up. apply Z.mul_le_mono_nonneg_r; [lia |]. apply Z.div_le_mono; lia. Qed.

Lemma round_up_1 x : round_up x 1 = x.
Proof. unfold round_up. rewrite Z.div_1_r. lia. Qed.

(** [a > max / b], the guard of a product, says that the product does not fit. *)
Lemma product_guard a b : 0 <= a -> 0 < b -> (a >? UINT64_MAX / b) = (UINT64_MAX <? a * b).
Proof.
  intros Ha Hb. apply eq_true_iff_eq. rewrite Z.gtb_ltb, !Z.ltb_lt.
  split; intros H; [|apply Z.div_lt_upper_bound; lia].
  pose proof (Z.div_le_lower_bound UINT64_MAX b a). lia.
Qed.

Lemma increment_round m a :
  0 < m -> 0 < a ->
  m + (if m mod a =? 0 then 0 else a - m mod a) = round_up m a.
Proof.
  intros Hm Ha. pose proof (Z.mod_pos_bound m a Ha). pose proof (Z.div_mod m a).
  apply round_up_unique; [done | | case_match; bool_to_prop; lia].
  case_match; bool_to_prop; [exists (m / a); lia | exists (m / a + 1); lia].
Qed.

Lemma L0cPhysicalElements_value m n a :
  m <= INT64_MAX -> n <= INT64_MAX -> a <= INT64_MAX ->
  L0cPhysicalElements m n a =
    if (m <=? 0) || (n <=? 0) || (a <=? 0) || (UINT64_MAX <? round_up m a * n) then None
    else Some (round_up m a * n).
Proof.
  intros Hm Hn Ha. unfold L0cPhysicalElements. destruct (_ || (a <=? 0)) eqn:E; [done |].
  bool_to_prop. cbn [orb]. pose proof (increment_round m a) as Hr. pose proof (round_up_spec m a) as Hs.
  pose proof (Z.mod_pos_bound m a).
  set (inc := if m mod a =? 0 then 0 else a - m mod a) in *.
  assert (Hi : 0 <= inc < 2 ^ 63) by (unfold inc; case_match; lia64).
  assert (Einc : (if m mod a =? 0 then 0 else u64 (a - m mod a)) = inc).
  { unfold inc. destruct (m mod a =? 0) eqn:E0; [done |]. bool_to_prop. apply u64_id. lia64. }
  rewrite Einc, (u64_id (UINT64_MAX - inc)) by lia64.
  assert ((m >? UINT64_MAX - inc) = false) as -> by (rewrite Z.gtb_ltb; apply Z.ltb_ge; lia64).
  rewrite (u64_id (m + inc)), Hr, product_guard by lia64.
  destruct (UINT64_MAX <? round_up m a * n) eqn:Ef; [done |]. bool_to_prop. f_equal. apply u64_id. nia.
Qed.

(** The positive integers the dimensions of a static shape are. *)
Definition literal_dims (shape : list expr) (dims : list Z) : Prop :=
  Forall2 (fun e v => (exists d, e = ConstInt v d) /\ 0 < v) shape dims.

Definition product (l : list Z) : Z := foldr Z.mul 1 l.

(** What the value occupies, over unbounded integers: bits of all elements, or
    in the accumulator the rows of the last two dimensions rounded up. *)
Definition footprint_bits (dims : list Z) (dtype : DataType) : Z := product dims * GetStorageBitWidth dtype.

Definition acc_footprint (dims : list Z) (dtype : DataType) (alignment : Z) : option Z :=
  match rev dims with
  | n :: m :: leading => Some (product leading * (round_up m alignment * n * GetByte dtype))
  | _ => None
  end.

Lemma static_extents_spec shape dims : static_extents shape = Some dims <-> literal_dims shape dims.
Proof.
  revert dims. induction shape as [|e shape IH]; intros dims.
  - split; [intros [= <-]; constructor | by inversion 1].
  - assert (Hd : forall v d, e = ConstInt v d -> static_extents (e :: shape) = Some dims <-> literal_dims (e :: shape) dims).
    { intros v d ->. cbn [static_extents]. destruct (v <=? 0) eqn:Ev; bool_to_prop.
      - split; [done |]. inversion 1 as [|? ? ? ? [[d' ?] ?]]; simplify_eq. lia.
      - destruct (static_extents shape) as [l|]; split; intros H.
        + injection H as <-. constructor; [split; [by eexists | done] | by apply IH].
        + inversion H as [|? v' ? l' [[d' ?] ?] Hl]; simplify_eq. apply IH in Hl. by injection Hl as ->.
        + done.
        + inversion H as [|? v' ? l' [[d' ?] ?] Hl]; simplify_eq. by apply IH in Hl. }
    destruct e as [|v d| | | | |]; try (split; [done | inversion 1 as [|? ? ? ? [[d' ?] ?]]; simplify_eq]).
    by eapply Hd.
Qed.

Lemma product_pos l : Forall (fun v => 0 < v) l -> 0 < product l.
Proof. induction 1 as [|v l Hv _ IH]; [done |]. cbn [product foldr] in *. fold (product l). nia. Qed.

Lemma multiply_extents_value l : forall b, 0 <= b <= UINT64_MAX -> Forall (fun v => 0 < v) l ->
  multiply_extents b l = if UINT64_MAX <? b * product l then None else Some (b * product l).
Proof.
  induction l as [|v l IH]; intros b Hb Hl; cbn [multiply_extents product foldr].
  - rewrite Z.mul_1_r. destruct (UINT64_MAX <? b) eqn:E; [bool_to_prop; lia | done].
  - inversion Hl as [|? ? Hv Hl']; subst. pose proof (product_pos l Hl') as Hp. fold (product l).
    rewrite product_guard by lia. destruct (UINT64_MAX <? b * v) eqn:E; bool_to_prop.
    + assert ((UINT64_MAX <? b * (v * product l)) = true) as -> by (apply Z.ltb_lt; nia). done.
    + rewrite u64_id, IH by (done || nia). by rewrite Z.mul_assoc.
Qed.

Lemma StaticStorageBytes_value n dt :
  0 <= n <= UINT64_MAX ->
  StaticStorageBytes n dt =
    if (GetStorageBitWidth dt =? 0) || (UINT64_MAX <? n * GetStorageBitWidth dt) then None
    else Some ((n * GetStorageBitWidth dt + 7) / 8).
Proof.
  intros Hn. unfold StaticStorageBytes. set (w := GetStorageBitWidth dt).
  destruct (w =? 0) eqn:E; [done |]. cbn [orb]. bool_to_prop.
  assert (Hw : 0 < w).
  { unfold w, GetStorageBitWidth, GetByte in *. pose proof (GetBit_bounds dt). case_match; [lia |].
    pose proof (u64_id ((GetBit dt + 7) / 8 * 8)). unfold u64, wrap_unsigned in *. pose proof (Z.mod_pos_bound ((GetBit dt + 7) / 8 * 8) (2 ^ 64)). lia. }
  rewrite product_guard by lia. destruct (UINT64_MAX <? n * w) eqn:Ef; [done |]. bool_to_prop.
  rewrite (u64_id (n * w)) by nia. f_equal.
  pose proof (Z.div_mod (n * w) 8). pose proof (Z.mod_pos_bound (n * w) 8).
  assert (Hq : 0 <= n * w / 8 <= 2 ^ 61 - 1).
  { split; [apply Z.div_pos; nia |]. assert (n * w / 8 < 2 ^ 61); [|lia]. apply Z.div_lt_upper_bound; lia64. }
  rewrite u64_id by (case_match; lia64). apply (Z.div_unique_pos _ _ _ (n * w + 7 - 8 * (n * w / 8 + (if n * w mod 8 =? 0 then 0 else 1)))); case_match; bool_to_prop; lia.
Qed.

Lemma width_pos dt : 0 <= GetStorageBitWidth dt <= 64 /\ 0 <= GetByte dt <= 8.
Proof.
  pose proof (GetBit_bounds dt). assert (Hb : 0 <= GetByte dt <= 8).
  { unfold GetByte. split; [apply Z.div_pos; lia |]. assert ((GetBit dt + 7) / 8 < 9); [apply Z.div_lt_upper_bound |]; lia. }
  split; [|done]. unfold GetStorageBitWidth. case_match; [lia |]. rewrite u64_id; lia64.
Qed.

(** The shape's literals are [int64_t]. *)
Definition literals_ok (shape : list expr) : Prop :=
  Forall (fun e => match e with ConstInt v _ => v <= INT64_MAX | _ => True end) shape.

Lemma literal_dims_bounds shape dims :
  literals_ok shape -> literal_dims shape dims -> Forall (fun v => 0 < v <= INT64_MAX) dims.
Proof.
  intros Hok. induction 1 as [|e v shape dims [[d ->] Hv] _ IH]; [constructor |].
  inversion Hok; subst. constructor; [lia | auto].
Qed.

(** What the allocation of a value with these dimensions takes, in bytes. *)
Inductive allocation (dims : list Z) (dtype : DataType) (alignment : Z) : MemorySpace -> Z -> Prop :=
  | allocation_acc b :
      0 < GetByte dtype -> acc_footprint dims dtype alignment = Some b -> b <= UINT64_MAX ->
      allocation dims dtype alignment Acc b
  | allocation_linear space :
      space <> Acc -> 0 < GetStorageBitWidth dtype -> footprint_bits dims dtype <= UINT64_MAX ->
      allocation dims dtype alignment space ((footprint_bits dims dtype + 7) / 8).

Lemma linear_allocation dims dt space al b :
  Forall (fun v => 0 < v) dims -> space <> Acc ->
  match multiply_extents 1 dims with Some elements => StaticStorageBytes elements dt | None => None end = Some b <->
  allocation dims dt al space b.
Proof.
  intros Hd Hs. rewrite multiply_extents_value, Z.mul_1_l by (done || lia64).
  pose proof (product_pos dims Hd) as Hp. pose proof (width_pos dt) as [Hw _].
  assert (Hb : forall b, (if (GetStorageBitWidth dt =? 0) || (UINT64_MAX <? footprint_bits dims dt) then None
    else Some ((footprint_bits dims dt + 7) / 8)) = Some b <-> allocation dims dt al space b).
  { intros b'. destruct (_ || _) eqn:E.
    - split; [done |]. inversion 1; subst; [done |]. bool_to_prop. lia.
    - bool_to_prop. split; [intros [= <-]; constructor; [done | lia | lia] | by inversion 1]. }
  destruct (UINT64_MAX <? product dims) eqn:Ef; bool_to_prop.
  - split; [done |]. inversion 1; subst; [done |]. unfold footprint_bits in *. nia.
  - by rewrite StaticStorageBytes_value by lia.
Qed.

Lemma product_app a b : product (a ++ b) = product a * product b.
Proof.
  induction a as [|v a IH]; cbn [app].
  - change (product []) with 1. lia.
  - change (product (v :: a ++ b)) with (v * product (a ++ b)). change (product (v :: a)) with (v * product a). lia.
Qed.

Lemma product_rev l : product (rev l) = product l.
Proof.
  induction l as [|v l IH]; [done |]. cbn [rev]. rewrite product_app, IH.
  change (product (v :: l)) with (v * product l). change (product [v]) with (v * 1). lia.
Qed.

Lemma acc_allocation dims dt al b :
  Forall (fun v => 0 < v <= INT64_MAX) dims -> 0 < al <= INT64_MAX ->
  match rev dims with
  | n :: m :: _ =>
      if (m >? INT64_MAX) || (n >? INT64_MAX) then None
      else match L0cPhysicalBytes m n (GetByte dt) al with
      | Some bytes => multiply_extents bytes (take (length dims - 2) dims)
      | None => None
      end
  | _ => None
  end = Some b <-> allocation dims dt al Acc b.
Proof.
  intros Hd Ha. assert (Hiff : forall o b, (0 < GetByte dt /\ acc_footprint dims dt al = Some b /\ b <= UINT64_MAX <-> o = Some b) ->
    o = Some b <-> allocation dims dt al Acc b).
  { intros o b' Ho. rewrite <- Ho. split; [intros (? & ? & ?); by constructor | by inversion 1]. }
  apply Hiff. clear Hiff. unfold acc_footprint. apply List.Forall_rev in Hd.
  destruct (rev dims) as [|n [|m leading]] eqn:Er; [split; [by intros (_ & ? & _) | done] .. |].
  assert (Htake : product (take (length dims - 2) dims) = product leading /\ Forall (fun v => 0 < v) leading).
  { assert (El : dims = rev leading ++ [m; n]) by (rewrite <- (rev_involutive dims), Er; cbn; by rewrite <- app_assoc).
    rewrite El at 1. rewrite length_app. cbn [length]. rewrite Nat.add_sub, El, take_app_length. rewrite product_rev.
    split; [done |]. inversion Hd as [|? ? _ Hd']; subst. inversion Hd' as [|? ? _ Hl]; subst.
    eapply List.Forall_impl; [|exact Hl]. cbn. lia. }
  destruct Htake as [Ht Hl]. inversion Hd as [|? ? Hn Hd']; subst. inversion Hd' as [|? ? Hm _]; subst.
  assert ((m >? INT64_MAX) || (n >? INT64_MAX) = false) as -> by (apply orb_false_iff; rewrite !Z.gtb_ltb, !Z.ltb_ge; lia).
  pose proof (width_pos dt) as [_ Hw]. unfold L0cPhysicalBytes. destruct (GetByte dt =? 0) eqn:Ew; bool_to_prop.
  { split; [lia | done]. }
  pose proof (round_up_spec m al) as Hr. pose proof (product_pos leading Hl) as Hp.
  rewrite L0cPhysicalElements_value by lia. set (e := round_up m al * n) in *.
  assert ((m <=? 0) || (n <=? 0) || (al <=? 0) = false) as -> by (rewrite !orb_false_iff, !Z.leb_gt; lia). cbn [orb].
  assert (He : 0 < e) by (unfold e; nia).
  assert (He1 : e <= e * GetByte dt) by nia.
  assert (Hle : e * GetByte dt <= product leading * (e * GetByte dt)) by (generalize dependent (e * GetByte dt); intros; nia).
  destruct (UINT64_MAX <? e) eqn:Ee; bool_to_prop.
  { split; [intros (_ & [= <-] & Hb); lia | done]. }
  rewrite product_guard by lia. destruct (UINT64_MAX <? e * GetByte dt) eqn:Eb; bool_to_prop.
  { split; [intros (_ & [= <-] & Hb); lia | done]. }
  assert (Hsub : Forall (fun v => 0 < v) (take (length dims - 2) dims)).
  { apply Forall_take. apply List.Forall_rev in Hd. rewrite <- Er, rev_involutive in Hd.
    eapply List.Forall_impl; [|exact Hd]. cbn. lia. }
  rewrite u64_id, multiply_extents_value, Ht by (done || lia).
  destruct (UINT64_MAX <? e * GetByte dt * product leading) eqn:Ep; bool_to_prop.
  - split; [intros (_ & [= <-] & Hb); lia | done].
  - split; [intros (_ & [= <-] & Hb) | intros [= <-]; split_and!; [lia | | lia]]; f_equal; lia.
Qed.

(** ** Claims *)

(** C29: StaticPhysicalAllocationBytes is the exact footprint of a value of literal positive
    dimensions, or nothing when it does not fit 64 bits: the bits of all elements rounded up
    to bytes, nibbles packed, outside the accumulator; there, rows rounded up to the
    alignment of the backend, and nothing for fewer than two dimensions. No product wraps
    around on the way. Literals are int64_t, and the accumulator's row alignment, the
    handler's or the default, is positive and fits int64_t. *)
Theorem StaticPhysicalAllocationBytes_spec shape dt space handler b :
  literals_ok shape -> 0 < l0c_alignment handler dt <= INT64_MAX ->
  StaticPhysicalAllocationBytes (Some (MkShaped shape dt)) space handler = Some b <->
  exists dims, literal_dims shape dims /\ allocation dims dt (l0c_alignment handler dt) space b.
Proof.
  intros Hok Ha. unfold StaticPhysicalAllocationBytes. cbn [shape_ dtype_].
  destruct (static_extents shape) as [dims|] eqn:Ed.
  - apply static_extents_spec in Ed. pose proof (literal_dims_bounds shape dims Hok Ed) as Hd.
    assert (Hu : forall dims', literal_dims shape dims' -> dims' = dims).
    { intros dims' H. apply static_extents_spec in H, Ed. congruence. }
    transitivity (allocation dims dt (l0c_alignment handler dt) space b).
    + destruct (decide (space = Acc)) as [-> |Hs]; [by apply acc_allocation |].
      apply linear_allocation; [|done]. eapply List.Forall_impl; [|exact Hd]. cbn. lia.
    + split; [by exists dims | intros (dims' & Hl & ?); by rewrite <- (Hu dims' Hl)].
  - split; [done |]. intros (dims & Hl & _). apply static_extents_spec in Hl. congruence.
Qed.

(** ** Witness *)

(** Without a handler an [INT32] accumulator of 17 rows takes 32. *)
Definition acc_shape : list expr := [ConstInt 2 INDEX; ConstInt 17 INDEX; ConstInt 48 INDEX].

Lemma StaticPhysicalAllocationBytes_witness :
  StaticPhysicalAllocationBytes (Some (MkShaped acc_shape INT32)) Acc None = Some 12288.
Proof.
  assert (Hok : literals_ok acc_shape) by (repeat (apply List.Forall_cons; [done |]); apply List.Forall_nil).
  apply (StaticPhysicalAllocationBytes_spec acc_shape INT32 Acc None 12288 Hok); [done |].
  exists [2; 17; 48]. split; [|by apply allocation_acc].
  repeat (apply List.Forall2_cons; [split; [by eexists | done] |]). apply List.Forall2_nil.
Defined.
