(* ===== verification/L0Tile.v ===== *)
(** * Tiles of a matrix product ([src/src/ir/transforms/utils/l0_tile_chooser.cpp])

    The tile [(m, n, k)] of a matrix product that fits the operand and
    accumulator buffers and has the least estimated running time, over three
    loop orders and one or two accumulators: every legal tile is scored.

    Arithmetic on [int64_t] is checked: an overflow is undefined behaviour. *)

From Stdlib Require Import ZArith Lia Bool List String SpecFloat.
From stdpp Require Import base list option strings pretty.
From S2P Require Import Prelude Double Storage.

(** ** Inputs *)

Inductive Stationarity := kOutputStationary | kAStationary | kBStationary.

#[export] Instance Stationarity_eq_dec : EqDecision Stationarity.
Proof. solve_decision. Defined.

(** [L0TileConfig]; [M], [N] and [K] are [prob_M], [prob_N] and [prob_K]. *)
Record L0TileConfig := MkConfig {
  prob_M : Z; prob_N : Z; prob_K : Z;
  reduction_iterations : Z;
  reduction_pipeline_stages : Z;
  independent_output_tiles : bool;
  l0a_bytes : Z; l0b_bytes : Z; l0c_bytes : Z;
  bytes_a : Z; bytes_b : Z; bytes_c : Z;
  min_m : Z; min_n : Z; min_k : Z;
  align_m : Z; align_n : Z; align_k : Z;
  l0c_align_m : Z;
  box_align_m : Z; box_align_n : Z;
  max_n : Z; max_n_pipelined : Z; max_n_nested_pipelined : Z;
  allow_a_stationary : bool; allow_b_stationary : bool;
  allow_double_buffer_c : bool;
  c_read : bool;
  bw_a : spec_float; bw_b : spec_float; bw_drain : spec_float;
  drain_fixed_cycles : spec_float;
  drain_row_cycles : spec_float;
  drain_penalty_cycles : spec_float;
  drain_c0_bytes : Z;
  mad_head : Z; mad_k_fractal_bytes : Z; mad_fp32_passes : Z;
  allow_padding : bool;
  allow_k_boundary : bool
}.

Record L0TileResult := MkTile {
  tile_m : Z; tile_n : Z; tile_k : Z;
  estimated_traffic_bytes : Z;
  estimated_cost_cycles : Z;
  padded_compute_volume : Z;
  stationarity : Stationarity;
  os_holds_a : bool;
  double_buffer_c : bool;
  perf_hint : string
}.

(** ** Numerical helpers *)

Definition AlignDown (x a : Z) : result Z := let* q := div64 x a in mul64 q a.

Definition AlignUp (x a : Z) : result Z :=
  let* s := add64 x a in let* s := sub64 s 1 in let* q := div64 s a in mul64 q a.

Definition CeilDiv (a b : Z) : result Z :=
  let* s := add64 a b in let* s := sub64 s 1 in div64 s b.

(** [static_cast<int>]. *)
Definition to_int (z : Z) : Z := wrap_signed 32 z.

(** The product of two results. *)
Definition times (a b : result Z) : result Z := let* x := a in let* y := b in mul64 x y.

Fixpoint strip_twos (p : positive) : positive :=
  match p with xO q => strip_twos q | _ => p end.

(** The loop does not end on zero. *)
Definition OddPart (x : Z) : result Z :=
  match x with
  | Z0 => Err OutOfFuel
  | Zpos p => Ok (Zpos (strip_twos p))
  | Zneg p => Ok (Zneg (strip_twos p))
  end.

(** A design point beside the tile shape. *)
Record Regime := MkRegime { stat : Stationarity; dbc : bool }.

Record OperandDB := MkDB { db_a : bool; db_b : bool }.

Definition DeriveOperandDB (s : Stationarity) : OperandDB :=
  match s with
  | kAStationary => MkDB false true
  | kBStationary => MkDB true false
  | kOutputStationary => MkDB true true
  end.

Record Candidate := MkCandidate {
  c_m : Z; c_n : Z; c_k : Z;
  traffic : Z;
  cost_cycles : Z;
  padded_compute : Z;
  load_cycles : spec_float;
  regime : Regime
}.

Section Config.
Context (cfg : L0TileConfig).
Abbreviation M := (prob_M cfg).
Abbreviation N := (prob_N cfg).
Abbreviation K := (prob_K cfg).

Definition ReductionRepetitions : Z := Z.max 1 (reduction_iterations cfg).

(** ** Physical extents *)

Definition BoxedExtent (extent alignment : Z) : option Z := L0cPhysicalElements extent 1 alignment.

(** A boxed extent as an [int64_t]. *)
Definition boxed (extent alignment : Z) : option Z :=
  match BoxedExtent extent alignment with
  | Some e => if e >? INT64_MAX then None else Some e
  | None => None
  end.

Definition CandidateL0cPhysicalElements (m n : Z) : option Z :=
  match boxed m (box_align_m cfg), boxed n (box_align_n cfg) with
  | Some boxed_m, Some boxed_n => L0cPhysicalElements boxed_m boxed_n (l0c_align_m cfg)
  | _, _ => None
  end.

(** The values from [lo] to [hi] by [step], of a counting loop. *)
Fixpoint count_from (lo step : Z) (n : nat) : list Z :=
  match n with O => [] | S n => lo :: count_from (lo + step) step n end.

Definition grid (lo hi step : Z) : list Z :=
  if hi <? lo then [] else count_from lo step (Z.to_nat ((hi - lo) / step + 1)).

Definition keeps_k (peel_ok : bool) (k : Z) : bool :=
  allow_padding cfg || peel_ok || (Z.rem K k =? 0).

Definition EnumerateLegalKs (m n A0 B0 : Z) : result (list Z) :=
  match boxed m (box_align_m cfg), boxed n (box_align_n cfg) with
  | Some boxed_m, Some boxed_n =>
      let* k_from_a := div64 A0 boxed_m in
      let* k_from_b := div64 B0 boxed_n in
      let cap := Z.min k_from_a k_from_b in
      let* k_problem := if allow_padding cfg then AlignUp (Z.max K (min_k cfg)) (align_k cfg) else Ok K in
      let* k_hi := AlignDown (Z.min cap k_problem) (align_k cfg) in
      let* aligned := rem64 K (align_k cfg) in
      let peel_ok := allow_k_boundary cfg && (aligned =? 0) in
      let* k_lo := AlignUp (min_k cfg) (align_k cfg) in
      Ok (to_int <$> List.filter (keeps_k peel_ok) (grid k_lo k_hi (align_k cfg)))
  | _, _ => Ok []
  end.

(** ** Costs *)

Definition volume (bytes x y : Z) : spec_float :=
  double_mul (double_mul (double_of_Z bytes) (double_of_Z x)) (double_of_Z y).

(** [held_a] and [held_b] of [OSHoldsHoldA] and [LoadCycles]: the operand that
    is not streamed is loaded once. *)
Definition held_a (ceil_m : Z) : spec_float :=
  double_add (double_div (volume (bytes_a cfg) M K) (bw_a cfg))
             (double_div (double_mul (volume (bytes_b cfg) K N) (double_of_Z ceil_m)) (bw_b cfg)).

Definition held_b (ceil_n : Z) : spec_float :=
  double_add (double_div (double_mul (volume (bytes_a cfg) M K) (double_of_Z ceil_n)) (bw_a cfg))
             (double_div (volume (bytes_b cfg) K N) (bw_b cfg)).

Definition restreamed (ceil_m ceil_n : Z) : spec_float :=
  double_add (double_div (double_mul (volume (bytes_a cfg) M K) (double_of_Z ceil_n)) (bw_a cfg))
             (double_div (double_mul (volume (bytes_b cfg) K N) (double_of_Z ceil_m)) (bw_b cfg)).

Definition OSHoldsHoldA (m n : Z) : result bool :=
  let* ceil_n := CeilDiv N n in
  let* ceil_m := CeilDiv M m in
  Ok (SFleb (held_a ceil_m) (held_b ceil_n)).

(** The operand traffic in bytes, [A] and [B]. *)
Definition operand_traffic (a_reloads b_reloads : Z) : result (Z * Z) :=
  let* a := times (times (mul64 (bytes_a cfg) M) (Ok K)) (Ok a_reloads) in
  let* b := times (times (mul64 (bytes_b cfg) K) (Ok N)) (Ok b_reloads) in
  Ok (a, b).

Definition EstimateTraffic (m n k : Z) (r : Regime) : result Z :=
  let* ceil_n := CeilDiv N n in
  let* ceil_m := CeilDiv M m in
  let* (a_traffic, b_traffic) :=
    match stat r with
    | kAStationary => operand_traffic 1 ceil_m
    | kBStationary => operand_traffic ceil_n 1
    | kOutputStationary =>
        if negb (independent_output_tiles cfg) && (k >=? K) then
          let* hold_a := OSHoldsHoldA m n in
          if hold_a : bool then operand_traffic 1 ceil_m else operand_traffic ceil_n 1
        else operand_traffic ceil_n ceil_m
    end in
  let gamma_c := if c_read cfg then 2 else 1 in
  let* c_traffic := times (times (mul64 gamma_c (bytes_c cfg)) (Ok M)) (Ok N) in
  let* operands := add64 a_traffic b_traffic in
  let* room := sub64 INT64_MAX c_traffic in
  let* limit := div64 room ReductionRepetitions in
  let* _ := require (operands <=? limit) CheckFailed in
  let* repeated := mul64 operands ReductionRepetitions in
  add64 repeated c_traffic.

Definition RepeatedReductionWork (work : Z) : result Z :=
  let* limit := div64 INT64_MAX ReductionRepetitions in
  let* _ := require ((work >=? 0) && (work <=? limit)) CheckFailed in
  mul64 work ReductionRepetitions.

Definition PaddedComputeVolume (m n k : Z) : result Z :=
  let* v := times (times (times (times (times (CeilDiv M m) (Ok m)) (CeilDiv N n)) (Ok n)) (CeilDiv K k)) (Ok k) in
  RepeatedReductionWork v.

Definition MadCycles (m n k : Z) : result Z :=
  let* kt := div64 (mad_k_fractal_bytes cfg) (bytes_a cfg) in
  let kt := Z.max 1 kt in
  let cpr := if bytes_a cfg =? 4 then Z.max 1 (mad_fp32_passes cfg) else Z.max 1 (Z.quot (bytes_a cfg) 2) in
  let* num_full := div64 K k in
  let* covered := mul64 num_full k in
  let* k_tail := sub64 K covered in
  let* k_blocks := add64 num_full (if k_tail >? 0 then 1 else 0) in
  let* full := times (Ok num_full) (CeilDiv k kt) in
  let* tail := if k_tail >? 0 then CeilDiv k_tail kt else Ok 0 in
  let* k_fractals := add64 full tail in
  let* head := mul64 k_blocks (mad_head cfg) in
  let* cube := times (times (times (Ok cpr) (CeilDiv m (align_m cfg))) (Ok k_fractals)) (CeilDiv n (align_n cfg)) in
  let* per_mn := add64 head cube in
  let* work := times (times (CeilDiv M m) (CeilDiv N n)) (Ok per_mn) in
  RepeatedReductionWork work.

Definition PipelinedRowsOuter (m n : Z) (s : Stationarity) : result bool :=
  match s with
  | kAStationary => Ok true
  | kOutputStationary => OSHoldsHoldA m n
  | kBStationary => Ok false
  end.

Definition PipelinedInnerFullTiles (m n : Z) (s : Stationarity) : result Z :=
  let* rows_outer := PipelinedRowsOuter m n s in
  if rows_outer : bool then div64 N n else div64 M m.

Definition LoadCycles (m n k : Z) (r : Regime) : result spec_float :=
  let* ceil_n := CeilDiv N n in
  let* ceil_m := CeilDiv M m in
  match stat r with
  | kAStationary => Ok (held_a ceil_m)
  | kBStationary => Ok (held_b ceil_n)
  | kOutputStationary =>
      if negb (independent_output_tiles cfg) && (k >=? K) then
        let* hold_a := OSHoldsHoldA m n in
        Ok (if hold_a : bool then held_a ceil_m else held_b ceil_n)
      else Ok (restreamed ceil_m ceil_n)
  end.

Definition DrainCycles (m n : Z) : result spec_float :=
  let* drains := times (CeilDiv M m) (CeilDiv N n) in
  let* n0 := div64 (drain_c0_bytes cfg) (bytes_c cfg) in
  let* n1 := CeilDiv n (Z.max 1 n0) in
  let throughput := double_div (double_mul (double_of_Z (bytes_c cfg)) (double_of_Z n)) (bw_drain cfg) in
  let* odd := OddPart n1 in
  let per_row := double_add (double_max (drain_row_cycles cfg) throughput)
                            (double_mul (drain_penalty_cycles cfg) (double_of_Z (odd - 1))) in
  let per_tile := double_add (drain_fixed_cycles cfg) (double_mul (double_of_Z m) per_row) in
  Ok (double_mul (double_of_Z drains) per_tile).

(** The load of all reductions. *)
Definition repeated_load (m n k : Z) (r : Regime) : result spec_float :=
  let* load := LoadCycles m n k r in Ok (double_mul load (double_of_Z ReductionRepetitions)).

Definition WallCycles (m n k : Z) (r : Regime) : result Z :=
  let* load := repeated_load m n k r in
  let* mad := MadCycles m n k in
  let compute := double_max load (double_of_Z mad) in
  let* drain := DrainCycles m n in
  let* wall :=
    if dbc r then
      let* num_tiles := times (CeilDiv M m) (CeilDiv N n) in
      Ok (double_add (double_max compute drain) (double_div (double_min compute drain) (double_of_Z num_tiles)))
    else Ok (double_add compute drain) in
  let* _ := require (double_isfinite wall && SFleb wall (double_of_Z (2 ^ 53))) InternalError in
  llround wall.

(** ** Candidates *)

Definition Better (a b : Candidate) : result bool :=
  if negb (cost_cycles a =? cost_cycles b) then Ok (cost_cycles a <? cost_cycles b)
  else if negb (padded_compute a =? padded_compute b) then Ok (padded_compute a <? padded_compute b)
  else
    let* a_kblocks := CeilDiv K (c_k a) in
    let* b_kblocks := CeilDiv K (c_k b) in
    if negb (a_kblocks =? b_kblocks) then Ok (a_kblocks <? b_kblocks)
    else if negb (SFeqb (load_cycles a) (load_cycles b)) then Ok (SFltb (load_cycles a) (load_cycles b))
    else
      let* a_area := mul64 (c_m a) (c_n a) in
      let* b_area := mul64 (c_m b) (c_n b) in
      if negb (a_area =? b_area) then Ok (a_area >? b_area) else Ok (c_k a >? c_k b).

(** The bounds on [n] of a full-[K] tile of an output grid. *)
Definition pipelined_n_ok (m n k : Z) (s : Stationarity) : result bool :=
  let full_k_grid := (k =? K) && (negb (m =? M) || negb (n =? N)) in
  let output_stationary := bool_decide (s = kOutputStationary) in
  let pipelined := bool_decide (s = kAStationary) || output_stationary in
  let* nested := if output_stationary then OSHoldsHoldA m n else Ok false in
  if (max_n_pipelined cfg >? 0) && full_k_grid && pipelined && (n >? max_n_pipelined cfg) then Ok false
  else if (max_n_nested_pipelined cfg >? 0) && full_k_grid && nested && (n >? max_n_nested_pipelined cfg)
  then Ok false
  else Ok true.

Definition MakeCandidate (m n k C0 : Z) (r : Regime) : result (option Candidate) :=
  if (m <? min_m cfg) || (n <? min_n cfg) || (k <? min_k cfg) then Ok None
  else if (max_n cfg >? 0) && (n >? max_n cfg) then Ok None
  else
    let* bounded := pipelined_n_ok m n k (stat r) in
    if negb bounded then Ok None
    else if negb (allow_padding cfg) && ((m >? M) || (n >? N)) then Ok None
    else match CandidateL0cPhysicalElements m n with
    | None => Ok None
    | Some c_elements =>
        if c_elements >? u64 C0 then Ok None
        else
          let* tr := EstimateTraffic m n k r in
          let* cost := WallCycles m n k r in
          let* padded := PaddedComputeVolume m n k in
          let* load := repeated_load m n k r in
          Ok (Some (MkCandidate m n k tr cost padded load r))
    end.

(** ** The search *)

(** The operand slots of a tile, in elements of [K]: pipeline depth times [k],
    and the peeled tail of every source stage. *)
Definition stored_k (moving : bool) (k : Z) : result Z :=
  let stages := reduction_pipeline_stages cfg in
  let depth := if k <? K then (if moving then 2 else 1) * stages else Z.max (if moving then 2 else 1) stages in
  let* blocks := div64 K k in
  let* rest := rem64 K k in
  let tail := if (stages >? 1) && (blocks >=? 2) then rest else 0 in
  let* extra_tail := mul64 tail stages in
  let* stored := mul64 depth k in
  add64 stored extra_tail.

(** The budget of one operand in rows of [stored] elements, as the unsigned
    number the code compares with. *)
Definition operand_rows (capacity bytes stored : Z) : result Z :=
  let* rows := div64 (capacity / bytes) stored in Ok (u64 rows).

Definition operands_fit (r : Regime) (boxed_m n k : Z) : result bool :=
  let db := DeriveOperandDB (stat r) in
  let* stored_a := stored_k (db_a db) k in
  let* stored_b := stored_k (db_b db) k in
  match BoxedExtent n (box_align_n cfg) with
  | None => Ok false
  | Some boxed_n =>
      let* rows_a := operand_rows (l0a_bytes cfg) (bytes_a cfg) stored_a in
      if boxed_m >? rows_a then Ok false
      else let* rows_b := operand_rows (l0b_bytes cfg) (bytes_b cfg) stored_b in Ok (boxed_n <=? rows_b)
  end.

Definition improve (best c : option Candidate) : result (option Candidate) :=
  match c, best with
  | None, _ => Ok best
  | Some c, None => Ok (Some c)
  | Some c, Some b => let* better := Better c b in Ok (Some (if better : bool then c else b))
  end.

Fixpoint scan_k (r : Regime) (C0 : Z) (require_full_k : bool) (boxed_m m n : Z) (ks : list Z)
    (best : option Candidate) : result (option Candidate) :=
  match ks with
  | [] => Ok best
  | k :: ks =>
      let* best :=
        if require_full_k && negb (k =? K) then Ok best
        else
          let* fit := operands_fit r boxed_m n k in
          if negb fit then Ok best
          else let* c := MakeCandidate (to_int m) (to_int n) k C0 r in improve best c in
      scan_k r C0 require_full_k boxed_m m n ks best
  end.

Fixpoint scan_n (r : Regime) (A0 B0 C0 : Z) (require_inner_pair require_full_k : bool) (boxed_m m : Z)
    (ns : list Z) (best : option Candidate) : result (option Candidate) :=
  match ns with
  | [] => Ok best
  | n :: ns =>
      let* skip :=
        if require_inner_pair then
          let* tiles := PipelinedInnerFullTiles (to_int m) (to_int n) (stat r) in Ok (tiles <? 2)
        else Ok false in
      let* best :=
        if skip : bool then Ok best
        else
          let* ks := EnumerateLegalKs (to_int m) (to_int n) A0 B0 in
          scan_k r C0 require_full_k boxed_m m n ks best in
      scan_n r A0 B0 C0 require_inner_pair require_full_k boxed_m m ns best
  end.

(** A row [m] of the grid: its boxed extent and the physical rows of the
    accumulator, unless no tile of this or a larger [m] can fit. *)
Definition physical_rows (m C0 : Z) : result (option (Z * Z)) :=
  match boxed m (box_align_m cfg), boxed (min_n cfg) (box_align_n cfg) with
  | Some boxed_m, Some boxed_min_n =>
      match L0cPhysicalElements boxed_m 1 (l0c_align_m cfg) with
      | Some physical_m =>
          if physical_m >? INT64_MAX then Ok None
          else
            let* rows := div64 C0 boxed_min_n in
            Ok (if physical_m >? rows then None else Some (boxed_m, physical_m))
      | None => Ok None
      end
  | _, _ => Ok None
  end.

Fixpoint scan_m (r : Regime) (A0 B0 C0 : Z) (require_inner_pair require_full_k : bool) (n_hi : Z)
    (ms : list Z) (best : option Candidate) : result (option Candidate) :=
  match ms with
  | [] => Ok best
  | m :: ms =>
      let* rows := physical_rows m C0 in
      match rows with
      | None => Ok best
      | Some (boxed_m, physical_m) =>
          let* width := div64 C0 physical_m in
          let ns := grid (min_n cfg) (Z.min n_hi width) (align_n cfg) in
          let* best := scan_n r A0 B0 C0 require_inner_pair require_full_k boxed_m m ns best in
          scan_m r A0 B0 C0 require_inner_pair require_full_k n_hi ms best
      end
  end.

Definition EnumerateBest (r : Regime) (A0 B0 C0 : Z) (require_inner_pair require_full_k : bool)
    : result (option Candidate) :=
  let* m_hi := if allow_padding cfg then AlignUp M (align_m cfg) else Ok M in
  let* n_hi := if allow_padding cfg then AlignUp N (align_n cfg) else Ok N in
  let n_hi := if max_n cfg >? 0 then Z.min n_hi (max_n cfg) else n_hi in
  scan_m r A0 B0 C0 require_inner_pair require_full_k n_hi (grid (min_m cfg) m_hi (align_m cfg)) None.

(** ** Budgets, in elements *)

Definition L0aBudget (db : OperandDB) : result Z :=
  let* bytes := mul64 (bytes_a cfg) (if db_a db then 2 else 1) in div64 (l0a_bytes cfg) bytes.
Definition L0bBudget (db : OperandDB) : result Z :=
  let* bytes := mul64 (bytes_b cfg) (if db_b db then 2 else 1) in div64 (l0b_bytes cfg) bytes.
Definition L0cBudget (r : Regime) : result Z :=
  let* bytes := mul64 (bytes_c cfg) (if dbc r then 2 else 1) in div64 (l0c_bytes cfg) bytes.

(** ** [ChooseL0Tile] *)

(** The checks of the inputs. *)
Definition validate : result unit :=
  let check b := require b CheckFailed in
  let* _ := check ((M >? 0) && (N >? 0) && (K >? 0)) in
  let* _ := check (reduction_iterations cfg >=? 0) in
  let* _ := check (reduction_pipeline_stages cfg >? 0) in
  let* _ := check ((l0a_bytes cfg >? 0) && (l0b_bytes cfg >? 0) && (l0c_bytes cfg >? 0)) in
  let* _ := check ((bytes_a cfg >? 0) && (bytes_b cfg >? 0) && (bytes_c cfg >? 0)) in
  let* _ := check ((min_m cfg >? 0) && (min_n cfg >? 0) && (min_k cfg >? 0)) in
  let* _ := check ((max_n cfg =? 0) || (max_n cfg >=? min_n cfg)) in
  let* _ := check ((max_n_pipelined cfg >=? 0)
                   && ((max_n cfg =? 0) || (max_n_pipelined cfg =? 0) || (max_n_pipelined cfg <=? max_n cfg))) in
  let* _ := check ((max_n_nested_pipelined cfg >=? 0)
                   && ((max_n_pipelined cfg =? 0) || (max_n_nested_pipelined cfg =? 0)
                       || (max_n_nested_pipelined cfg <=? max_n_pipelined cfg))) in
  let* _ := check ((align_m cfg >? 0) && (align_n cfg >? 0) && (align_k cfg >? 0) && (l0c_align_m cfg >? 0)
                   && (box_align_m cfg >? 0) && (box_align_n cfg >? 0)) in
  let positive f := SFltb (double_of_Z 0) f in
  let non_negative f := SFleb (double_of_Z 0) f in
  let* _ := check (positive (bw_a cfg) && positive (bw_b cfg) && positive (bw_drain cfg)) in
  let* _ := check ((drain_c0_bytes cfg >? 0) && non_negative (drain_row_cycles cfg)
                   && non_negative (drain_penalty_cycles cfg) && non_negative (drain_fixed_cycles cfg)) in
  if negb (allow_padding cfg) then
    let* _ := check (M >=? min_m cfg) in
    let* _ := check (N >=? min_n cfg) in
    check (K >=? min_k cfg)
  else Ok tt.

Definition base_regime : Regime := MkRegime kOutputStationary false.

(** The largest budget of an operand some enabled loop order gives. *)
Definition max_budget (budget : OperandDB -> result Z) (allow : bool) (s : Stationarity) : result Z :=
  if allow && negb (independent_output_tiles cfg) then budget (DeriveOperandDB s)
  else budget (DeriveOperandDB kOutputStationary).

(** The capacity checks: the minimum tile fits. *)
Definition check_capacities : result Z :=
  let check b := require b CheckFailed in
  let* max_a0 := max_budget L0aBudget (allow_a_stationary cfg) kAStationary in
  let* max_b0 := max_budget L0bBudget (allow_b_stationary cfg) kBStationary in
  let* C0_base := L0cBudget base_regime in
  let* rows_a := div64 max_a0 (min_k cfg) in
  let* _ := check (match boxed (min_m cfg) (box_align_m cfg) with Some b => b <=? rows_a | None => false end) in
  let* rows_b := div64 max_b0 (min_k cfg) in
  let* _ := check (match boxed (min_n cfg) (box_align_n cfg) with Some b => b <=? rows_b | None => false end) in
  match CandidateL0cPhysicalElements (min_m cfg) (min_n cfg) with
  | Some e => let* _ := check ((e <=? INT64_MAX) && (C0_base >=? e)) in Ok e
  | None => Err CheckFailed
  end.

(** The search of one design point, with its budgets. *)
Definition search_regime (r : Regime) : result (option Candidate) :=
  let db := DeriveOperandDB (stat r) in
  let* a0 := L0aBudget db in
  let* b0 := L0bBudget db in
  let* c0 := L0cBudget r in
  EnumerateBest r a0 b0 c0 (dbc r) (negb (bool_decide (stat r = kOutputStationary)) || dbc r).

(** The design points beside the baseline, in the order of the loops. *)
Definition richer_regimes : list Regime :=
  let stats := kOutputStationary :: (if allow_a_stationary cfg then [kAStationary] else [])
               ++ (if allow_b_stationary cfg then [kBStationary] else []) in
  let dbcs := if allow_double_buffer_c cfg && (reduction_iterations cfg >? 0) then [false; true] else [false] in
  List.filter (fun r => negb (bool_decide (stat r = kOutputStationary) && negb (dbc r)))
    (s ← stats; MkRegime s <$> dbcs).

(** A candidate of another design point replaces the best one when its wall is
    strictly lower. *)
Definition adopt_lower (best cand : option Candidate) : option Candidate :=
  match cand, best with
  | None, _ => best
  | Some c, None => Some c
  | Some c, Some b => if cost_cycles c <? cost_cycles b then Some c else Some b
  end.

Fixpoint search_richer (min_c_elements : Z) (rs : list Regime) (best : option Candidate)
    : result (option Candidate) :=
  match rs with
  | [] => Ok best
  | r :: rs =>
      let* c0 := L0cBudget r in
      let* best :=
        if c0 <? min_c_elements then Ok best
        else let* cand := search_regime r in Ok (adopt_lower best cand) in
      search_richer min_c_elements rs best
  end.

(** The tile is the whole problem. *)
Definition is_untiled (c : Candidate) : bool := (c_m c =? M) && (c_n c =? N) && (c_k c =? K).

Definition padding_hint (c : Candidate) : string :=
  if (M <? min_m cfg) || (N <? min_n cfg) || (K <? min_k cfg) then
    "Matmul shape (M=" +:+ pretty M +:+ ", N=" +:+ pretty N +:+ ", K=" +:+ pretty K
    +:+ ") is below the cube minimum tile dimension " +:+ pretty (min_m cfg)
    +:+ "; tile shape padded up to (" +:+ pretty (c_m c) +:+ ", " +:+ pretty (c_n c) +:+ ", "
    +:+ pretty (c_k c) +:+ "). Consider reshaping or fusing with adjacent ops to amortise the padding."
  else EmptyString.

Definition search_all (min_c_elements : Z) : result (option Candidate) :=
  let* best := search_regime base_regime in
  let tiled := match best with Some c => negb (is_untiled c) | None => true end in
  if tiled && negb (independent_output_tiles cfg) then search_richer min_c_elements richer_regimes best
  else Ok best.

Definition ChooseL0Tile : result L0TileResult :=
  let* _ := validate in
  let* min_c_elements := check_capacities in
  let* best := search_all min_c_elements in
  match best with
  | None => Err CheckFailed
  | Some c =>
      let* hold_a := OSHoldsHoldA (c_m c) (c_n c) in
      Ok (MkTile (c_m c) (c_n c) (c_k c) (traffic c) (cost_cycles c) (padded_compute c)
            (stat (regime c)) hold_a (dbc (regime c)) (padding_hint c))
  end.

End Config.
