(* ===== verification/L0TileSound.v ===== *)
(** * The tile chooser searches every legal tile

    [tile_ok] says, over unbounded integers, which tiles a design point allows:
    on the grid, inside the problem, inside the operand buffers with their
    pipeline copies, inside the accumulators.  The search visits exactly these
    and keeps the least. *)

From Stdlib Require Import ZArith Lia Bool List String SpecFloat.
From stdpp Require Import base list option strings sorting.
From S2P Require Import Prelude Double Storage L0Tile.

(** ** Checked arithmetic without overflow *)

Lemma div64_value a b : 0 <= a <= INT64_MAX -> 0 < b -> div64 a b = Ok (a / b).
Proof.
  intros Ha Hb. unfold div64. destruct (b =? 0) eqn:E; [bool_to_prop; lia |].
  rewrite Z.quot_div_nonneg by lia. apply checked_in.
  pose proof (Z.div_le_upper_bound a b a ltac:(lia) ltac:(nia)). pose proof (Z.div_pos a b). lia64.
Qed.

Lemma rem64_value a b : 0 <= a <= INT64_MAX -> 0 < b -> rem64 a b = Ok (a mod b).
Proof.
  intros Ha Hb. unfold rem64. assert ((b =? 0) || (a =? INT64_MIN) && (b =? -1) = false) as ->.
  { apply orb_false_iff. rewrite andb_false_iff, !Z.eqb_neq. split; [lia | right; lia]. }
  by rewrite Z.rem_mod_nonneg by lia.
Qed.

Lemma AlignUp_value x a : 0 < x <= 2 ^ 32 -> 0 < a <= 2 ^ 32 -> AlignUp x a = Ok (round_up x a).
Proof.
  intros Hx Ha. unfold AlignUp, add64, sub64, mul64. rewrite checked_in by lia64. cbn [bind].
  rewrite checked_in by lia64. cbn [bind]. rewrite div64_value by lia64. cbn [bind].
  pose proof (round_up_spec x a). apply checked_in. unfold round_up in *. lia64.
Qed.

Lemma AlignDown_value x a : 0 <= x <= INT64_MAX -> 0 < a -> AlignDown x a = Ok (x / a * a).
Proof.
  intros Hx Ha. unfold AlignDown, mul64. rewrite div64_value by lia64. cbn [bind].
  apply checked_in. pose proof (Z.mul_div_le x a). pose proof (Z.mul_nonneg_nonneg (x / a) a (Z.div_pos x a ltac:(lia) ltac:(lia))). lia64.
Qed.

Lemma CeilDiv_value a b : 0 <= a <= 2 ^ 32 -> 0 < b <= 2 ^ 32 -> CeilDiv a b = Ok ((a + b - 1) / b).
Proof.
  intros Ha Hb. unfold CeilDiv, add64, sub64. rewrite checked_in by lia64. cbn [bind].
  rewrite checked_in by lia64. cbn [bind]. apply div64_value; lia64.
Qed.

Lemma to_int_id z : - 2 ^ 31 <= z < 2 ^ 31 -> to_int z = z.
Proof. intros Hz. unfold to_int, wrap_signed. rewrite Z.mod_small; lia. Qed.

Lemma boxed_value e a : 0 < e <= 2 ^ 31 -> 0 < a <= 2 ^ 31 -> boxed e a = Some (round_up e a).
Proof.
  intros He Ha. unfold boxed, BoxedExtent. pose proof (round_up_spec e a).
  rewrite L0cPhysicalElements_value by lia64.
  assert ((e <=? 0) || (1 <=? 0) || (a <=? 0) || (UINT64_MAX <? round_up e a * 1) = false) as ->.
  { rewrite !orb_false_iff, !Z.leb_gt, Z.ltb_ge. lia64. }
  destruct (_ >? _) eqn:E; bool_to_prop; [lia64 | f_equal; lia].
Qed.

(** ** Counting loops *)

Lemma count_from_in lo step n x :
  x ∈ count_from lo step n <-> exists i, 0 <= i < Z.of_nat n /\ x = lo + i * step.
Proof.
  revert lo. induction n as [|n IH]; intros lo; cbn [count_from].
  - rewrite elem_of_nil. split; [done | intros (i & ? & _); lia].
  - rewrite elem_of_cons, IH. split.
    + intros [-> |(i & Hi & ->)]; [exists 0 | exists (i + 1)]; lia.
    + intros (i & Hi & ->). destruct (Z.eq_dec i 0) as [-> |]; [left; lia | right; exists (i - 1); lia].
Qed.

Lemma grid_in lo hi step x :
  0 < step -> x ∈ grid lo hi step <-> lo <= x <= hi /\ (step | x - lo).
Proof.
  intros Hs. unfold grid. destruct (hi <? lo) eqn:E; bool_to_prop.
  { rewrite elem_of_nil. split; [done | lia]. }
  rewrite count_from_in. pose proof (Z.div_pos (hi - lo) step).
  pose proof (Z.mul_div_le (hi - lo) step). split.
  - intros (i & Hi & ->). rewrite Z2Nat.id in Hi by lia. split; [nia | exists i; lia].
  - intros [Hx [i Hi]]. exists i. rewrite Z2Nat.id by lia. split; [|lia]. split; [nia |].
    assert (i <= (hi - lo) / step); [apply Z.div_le_lower_bound; lia | lia].
Qed.

(** The rows of a grid come in increasing order. *)
Lemma count_from_sorted lo step n : 0 < step -> StronglySorted Z.lt (count_from lo step n).
Proof.
  intros Hs. revert lo. induction n as [|n IH]; intros lo; constructor; [apply IH |].
  apply List.Forall_forall. intros x Hx. apply list_elem_of_In, count_from_in in Hx as (i & Hi & ->). nia.
Qed.

Lemma grid_sorted lo hi step : 0 < step -> StronglySorted Z.lt (grid lo hi step).
Proof. intros Hs. unfold grid. case_match; [constructor | by apply count_from_sorted]. Qed.

(** ** Legal tiles *)

Section Config.
Context (cfg : L0TileConfig).
Abbreviation M := (prob_M cfg).
Abbreviation N := (prob_N cfg).
Abbreviation K := (prob_K cfg).

(** The members have the widths of their types, and the problem padded to the
    alignments is one of [int]s. *)
Record typed : Prop := {
  dims_int : M < 2 ^ 31 /\ N < 2 ^ 31 /\ K < 2 ^ 31;
  mins_int : min_m cfg < 2 ^ 31 /\ min_n cfg < 2 ^ 31 /\ min_k cfg < 2 ^ 31;
  aligns_int : align_m cfg < 2 ^ 31 /\ align_n cfg < 2 ^ 31 /\ align_k cfg < 2 ^ 31;
  boxes_int : box_align_m cfg < 2 ^ 31 /\ box_align_n cfg < 2 ^ 31 /\ l0c_align_m cfg < 2 ^ 31;
  stages_int : reduction_pipeline_stages cfg < 2 ^ 31 /\ reduction_iterations cfg < 2 ^ 31;
  capacities_uint : l0a_bytes cfg < 2 ^ 32 /\ l0b_bytes cfg < 2 ^ 32 /\ l0c_bytes cfg < 2 ^ 32;
  bytes_uint : bytes_a cfg < 2 ^ 32 /\ bytes_b cfg < 2 ^ 32 /\ bytes_c cfg < 2 ^ 32;
  padded_int : allow_padding cfg = true ->
    round_up M (align_m cfg) < 2 ^ 31 /\ round_up N (align_n cfg) < 2 ^ 31 /\
    round_up (Z.max K (min_k cfg)) (align_k cfg) < 2 ^ 31;
  mad_int : mad_head cfg < 2 ^ 31 /\ mad_k_fractal_bytes cfg < 2 ^ 31 /\ mad_fp32_passes cfg < 2 ^ 31
            /\ drain_c0_bytes cfg < 2 ^ 31
}.

(** The integer part of the checks of the inputs. *)
Record valid : Prop := {
  dims_pos : 0 < M /\ 0 < N /\ 0 < K;
  iterations_pos : 0 <= reduction_iterations cfg;
  stages_pos : 0 < reduction_pipeline_stages cfg;
  capacities_pos : 0 < l0a_bytes cfg /\ 0 < l0b_bytes cfg /\ 0 < l0c_bytes cfg;
  bytes_pos : 0 < bytes_a cfg /\ 0 < bytes_b cfg /\ 0 < bytes_c cfg;
  mins_pos : 0 < min_m cfg /\ 0 < min_n cfg /\ 0 < min_k cfg;
  aligns_pos : 0 < align_m cfg /\ 0 < align_n cfg /\ 0 < align_k cfg;
  boxes_pos : 0 < box_align_m cfg /\ 0 < box_align_n cfg /\ 0 < l0c_align_m cfg;
  max_n_ok : 0 <= max_n_pipelined cfg /\ 0 <= max_n_nested_pipelined cfg /\ (max_n cfg = 0 \/ min_n cfg <= max_n cfg);
  drain_pos : 0 < drain_c0_bytes cfg;
  mins_fit : allow_padding cfg = false -> min_m cfg <= M /\ min_n cfg <= N /\ min_k cfg <= K
}.

Definition box_m (m : Z) : Z := round_up m (box_align_m cfg).
Definition box_n (n : Z) : Z := round_up n (box_align_n cfg).
(** The rows of the accumulator a tile of [m] rows takes. *)
Definition rows (m : Z) : Z := round_up (box_m m) (l0c_align_m cfg).

(** The largest extents of a tile. *)
Definition limit_m : Z := if allow_padding cfg then round_up M (align_m cfg) else M.
Definition limit_n : Z :=
  let hi := if allow_padding cfg then round_up N (align_n cfg) else N in
  if max_n cfg >? 0 then Z.min hi (max_n cfg) else hi.
Definition limit_k : Z := if allow_padding cfg then round_up (Z.max K (min_k cfg)) (align_k cfg) else K.

Definition depth (moving : bool) : Z := if moving then 2 else 1.

(** Elements of [K] an operand keeps for each row: the slots of the inner and
    the enclosing pipeline, and the peeled tail of every source stage. *)
Definition stored (moving : bool) (k : Z) : Z :=
  let stages := reduction_pipeline_stages cfg in
  (if k <? K then depth moving * stages else Z.max (depth moving) stages) * k
  + (if (stages >? 1) && (K / k >=? 2) then K mod k else 0) * stages.

(** A [k] the pass can emit: any aligned one when it pads, or when it peels and
    [K] is aligned; else a divisor of [K]. *)
Definition k_emitted (k : Z) : Prop :=
  allow_padding cfg = true \/ (allow_k_boundary cfg = true /\ (align_k cfg | K)) \/ (k | K).

Definition full_k_regime (r : Regime) : bool := negb (bool_decide (stat r = kOutputStationary)) || dbc r.

Record tile_ok (r : Regime) (m n k : Z) : Prop := {
  m_legal : min_m cfg <= m <= limit_m /\ (align_m cfg | m - min_m cfg);
  n_legal : min_n cfg <= n <= limit_n /\ (align_n cfg | n - min_n cfg);
  k_legal : min_k cfg <= k <= limit_k /\ (align_k cfg | k) /\ k_emitted k;
  operand_a : box_m m * k <= l0a_bytes cfg / (bytes_a cfg * depth (db_a (DeriveOperandDB (stat r))));
  operand_b : box_n n * k <= l0b_bytes cfg / (bytes_b cfg * depth (db_b (DeriveOperandDB (stat r))));
  slots_a : box_m m * stored (db_a (DeriveOperandDB (stat r))) k <= l0a_bytes cfg / bytes_a cfg;
  slots_b : box_n n * stored (db_b (DeriveOperandDB (stat r))) k <= l0b_bytes cfg / bytes_b cfg;
  accumulators : rows m * box_n n <= l0c_bytes cfg / (bytes_c cfg * (if dbc r then 2 else 1));
  full_k : full_k_regime r = true -> k = K;
  two_tiles : dbc r = true -> exists t, PipelinedInnerFullTiles cfg m n (stat r) = Ok t /\ 2 <= t;
  pipelined_n : pipelined_n_ok cfg m n k (stat r) = Ok true
}.

(** ** The values of [k] *)

Section Search.
Hypothesis (Ht : typed) (Hv : valid).

Lemma limit_k_bounds : 0 < limit_k < 2 ^ 31.
Proof.
  destruct Ht as [(_ & _ & ?) ? ? ? ? ? ? Hp ?], Hv as [(_ & _ & ?) ? ? ? ? ? (_ & _ & ?) ? ? ? ?]. unfold limit_k.
  destruct (allow_padding cfg); [|lia]. destruct (Hp eq_refl) as (_ & _ & ?).
  pose proof (round_up_spec (Z.max K (min_k cfg)) (align_k cfg)). lia.
Qed.

Lemma multiple_between a x y k : 0 < a -> (a | k) -> round_up x a <= k <= y / a * a <-> x <= k <= y.
Proof.
  intros Ha [q ->]. pose proof (round_up_spec x a Ha). pose proof (Z.mul_div_le y a Ha). split; [lia |].
  intros [Hx Hy]. split.
  - unfold round_up. apply Z.mul_le_mono_nonneg_r; [lia |].
    assert ((x + a - 1) / a < q + 1); [|lia]. apply Z.div_lt_upper_bound; lia.
  - apply Z.mul_le_mono_nonneg_r; [lia |]. apply Z.div_le_lower_bound; lia.
Qed.

Lemma k_grid hi k :
  0 < align_k cfg -> 0 < min_k cfg ->
  k ∈ grid (round_up (min_k cfg) (align_k cfg)) (hi / align_k cfg * align_k cfg) (align_k cfg) <->
  min_k cfg <= k <= hi /\ (align_k cfg | k).
Proof.
  intros Ha Hm. rewrite grid_in by done. pose proof (proj2 (round_up_spec (min_k cfg) (align_k cfg) Ha)) as Hd.
  split; intros [Hk Hdiv].
  - assert (align_k cfg | k) by (replace k with (k - round_up (min_k cfg) (align_k cfg) + round_up (min_k cfg) (align_k cfg)) by lia; by apply Z.divide_add_r).
    split; [by apply multiple_between in Hk | done].
  - split; [by apply multiple_between | by apply Z.divide_sub_r].
Qed.

Lemma keeps_k_spec k :
  0 < k -> keeps_k cfg (allow_k_boundary cfg && (K mod align_k cfg =? 0)) k = true <-> k_emitted k.
Proof.
  intros Hk. destruct Hv as [(_ & _ & ?) ? ? ? ? ? (_ & _ & ?) ? ? ? ?]. unfold keeps_k, k_emitted.
  rewrite !orb_true_iff, andb_true_iff, !Z.eqb_eq, <- (Z.mod_divide K (align_k cfg)), <- (Z.mod_divide K k) by lia.
  rewrite Z.rem_mod_nonneg by lia. tauto.
Qed.

Lemma cap_spec b k A0 : 0 < b -> k <= A0 / b <-> b * k <= A0.
Proof.
  intros Hb. split; intros H.
  - pose proof (Z.mul_div_le A0 b Hb). nia.
  - by apply Z.div_le_lower_bound.
Qed.

Lemma EnumerateLegalKs_spec m n A0 B0 :
  0 < m < 2 ^ 31 -> 0 < n < 2 ^ 31 -> 0 <= A0 < 2 ^ 32 -> 0 <= B0 < 2 ^ 32 ->
  exists ks, EnumerateLegalKs cfg m n A0 B0 = Ok ks /\
    forall k, k ∈ ks <->
      min_k cfg <= k <= limit_k /\ (align_k cfg | k) /\ k_emitted k /\ box_m m * k <= A0 /\ box_n n * k <= B0.
Proof.
  intros Hm Hn HA HB. pose proof limit_k_bounds as Hl.
  destruct Ht as [? ? ? ? ? ? ? ? ?], Hv as [? ? ? ? ? ? ? ? ? ? ?].
  unfold EnumerateLegalKs. rewrite !boxed_value by lia. fold (box_m m) (box_n n).
  pose proof (round_up_spec m (box_align_m cfg)). pose proof (round_up_spec n (box_align_n cfg)).
  fold (box_m m) (box_n n) in *. rewrite !div64_value by lia64. cbn [bind].
  assert (Ekp : (if allow_padding cfg then AlignUp (Z.max K (min_k cfg)) (align_k cfg) else Ok K) = Ok limit_k).
  { unfold limit_k. destruct (allow_padding cfg); [apply AlignUp_value; lia | done]. }
  rewrite Ekp. cbn [bind]. pose proof (Z.div_pos A0 (box_m m)). pose proof (Z.div_pos B0 (box_n n)).
  rewrite AlignDown_value by lia64. cbn [bind]. rewrite rem64_value by lia64. cbn [bind].
  rewrite AlignUp_value by lia. cbn [bind]. eexists. split; [done |]. intros k.
  set (hi := Z.min (Z.min (A0 / box_m m) (B0 / box_n n)) limit_k).
  assert (Hin : forall k, k ∈ List.filter (keeps_k cfg (allow_k_boundary cfg && (K mod align_k cfg =? 0)))
      (grid (round_up (min_k cfg) (align_k cfg)) (hi / align_k cfg * align_k cfg) (align_k cfg)) <->
    (min_k cfg <= k <= hi /\ (align_k cfg | k)) /\ k_emitted k).
  { intros j. rewrite list_elem_of_In, filter_In, <- list_elem_of_In, k_grid by lia.
    split; intros [Hj Hk]; (split; [done |]); apply (keeps_k_spec j); try done; lia. }
  rewrite list_elem_of_fmap. transitivity ((min_k cfg <= k <= hi /\ (align_k cfg | k)) /\ k_emitted k).
  - split.
    + intros (j & -> & Hj%Hin). rewrite to_int_id by (unfold hi in *; lia). done.
    + intros Hk. exists k. rewrite to_int_id by (unfold hi in *; lia). split; [done | by apply Hin].
  - unfold hi. rewrite <- (cap_spec (box_m m) k A0), <- (cap_spec (box_n n) k B0) by lia. split; intros Hk; split_and!; try apply Hk; lia.
Qed.

(** ** Candidates *)

Lemma mul64_ok a b c : mul64 a b = Ok c -> c = a * b.
Proof. unfold mul64. by intros [-> _]%checked_ok. Qed.
Lemma add64_ok a b c : add64 a b = Ok c -> c = a + b.
Proof. unfold add64. by intros [-> _]%checked_ok. Qed.

Lemma L0cElements_value m n :
  0 < m < 2 ^ 31 -> 0 < n < 2 ^ 31 ->
  CandidateL0cPhysicalElements cfg m n =
    if UINT64_MAX <? rows m * box_n n then None else Some (rows m * box_n n).
Proof.
  intros Hm Hn. destruct Ht as [? ? ? ? ? ? ? ? ?], Hv as [? ? ? ? ? ? ? ? ? ? ?].
  unfold CandidateL0cPhysicalElements. rewrite !boxed_value by lia.
  pose proof (round_up_spec m (box_align_m cfg)). pose proof (round_up_spec n (box_align_n cfg)).
  rewrite L0cPhysicalElements_value by lia64. fold (box_m m) (box_n n) in *. fold (rows m).
  assert ((box_m m <=? 0) || (box_n n <=? 0) || (l0c_align_m cfg <=? 0) = false) as ->; [|done].
  rewrite !orb_false_iff, !Z.leb_gt. lia.
Qed.

(** The tests [MakeCandidate] makes of a shape. *)
Record shape_ok (r : Regime) (C0 m n k : Z) : Prop := {
  shape_min : min_m cfg <= m /\ min_n cfg <= n /\ min_k cfg <= k;
  shape_max_n : max_n cfg > 0 -> n <= max_n cfg;
  shape_pipelined : pipelined_n_ok cfg m n k (stat r) = Ok true;
  shape_inside : allow_padding cfg = false -> m <= M /\ n <= N;
  shape_fits : rows m * box_n n <= C0
}.

Lemma MakeCandidate_some r C0 m n k o :
  0 < m < 2 ^ 31 -> 0 < n < 2 ^ 31 -> 0 <= C0 < 2 ^ 32 ->
  MakeCandidate cfg m n k C0 r = Ok o -> is_Some o <-> shape_ok r C0 m n k.
Proof.
  intros Hm Hn HC. unfold MakeCandidate. destruct (_ || (k <? min_k cfg)) eqn:E1.
  { intros [= <-]. split; [by intros [? ?] | intros [Hs _ _ _ _]; bool_to_prop; lia]. }
  destruct (_ && (n >? max_n cfg)) eqn:E2.
  { intros [= <-]. split; [by intros [? ?] | intros [_ Hs _ _ _]; bool_to_prop; lia]. }
  intros (b & Hb & H)%bind_ok. destruct b; cbn [negb] in H.
  2:{ injection H as <-. split; [by intros [? ?] | intros [_ _ Hs _ _]; congruence]. }
  destruct (negb (allow_padding cfg) && _) eqn:E3.
  { injection H as <-. split; [by intros [? ?] | intros [_ _ _ Hs _]]. bool_to_prop. specialize (Hs ltac:(done)). lia. }
  rewrite L0cElements_value in H by done. pose proof (round_up_spec n (box_align_n cfg)). fold (box_n n) in *.
  destruct (UINT64_MAX <? _) eqn:E4.
  { injection H as <-. split; [by intros [? ?] | intros [_ _ _ _ Hs]; bool_to_prop; lia64]. }
  rewrite u64_id in H by lia64. destruct (_ >? C0) eqn:E5.
  { injection H as <-. split; [by intros [? ?] | intros [_ _ _ _ Hs]; bool_to_prop; lia]. }
  inv_ok. split; [|by eexists]. intros _. constructor; try done; bool_to_prop; try lia.
  intros Hp. rewrite Hp in E3. cbn in E3. bool_to_prop. lia.
Qed.

Lemma stored_pos moving k : 0 < k -> 0 < stored moving k.
Proof.
  intros Hk. destruct Hv as [? ? ? ? ? ? ? ? ? ? ?]. unfold stored, depth.
  pose proof (Z.mod_pos_bound K k Hk).
  assert (0 <= (if (reduction_pipeline_stages cfg >? 1) && (K / k >=? 2) then K mod k else 0)
    * reduction_pipeline_stages cfg) by (case_match; nia).
  destruct (k <? K), moving; nia.
Qed.

Lemma stored_k_value moving k s : 0 < k -> stored_k cfg moving k = Ok s -> s = stored moving k.
Proof.
  intros Hk. destruct Ht as [? ? ? ? ? ? ? ? ?], Hv as [? ? ? ? ? ? ? ? ? ? ?]. unfold stored_k.
  rewrite div64_value, rem64_value by lia64. cbn [bind]. intros H. inv_ok.
  apply mul64_ok in E, E0. apply add64_ok in H. subst. done.
Qed.

Lemma rows_fit capacity bytes s b :
  0 <= capacity < 2 ^ 32 -> 0 < bytes -> 0 < s ->
  exists w, operand_rows capacity bytes s = Ok w /\ (b <= w <-> b * s <= capacity / bytes).
Proof.
  intros Hc Hb Hs. unfold operand_rows. pose proof (Z.div_pos capacity bytes).
  pose proof (Z.div_le_upper_bound capacity bytes capacity ltac:(lia) ltac:(nia)).
  rewrite div64_value by lia64. cbn [bind]. eexists. split; [done |].
  pose proof (Z.div_pos (capacity / bytes) s).
  pose proof (Z.div_le_upper_bound (capacity / bytes) s (capacity / bytes) ltac:(lia) ltac:(nia)).
  rewrite u64_id by lia64. rewrite Z.mul_comm. by apply cap_spec.
Qed.

Lemma operands_fit_spec r m n k b :
  0 < n < 2 ^ 31 -> 0 < k -> operands_fit cfg r (box_m m) n k = Ok b ->
  b = true <->
  box_m m * stored (db_a (DeriveOperandDB (stat r))) k <= l0a_bytes cfg / bytes_a cfg /\
  box_n n * stored (db_b (DeriveOperandDB (stat r))) k <= l0b_bytes cfg / bytes_b cfg.
Proof.
  intros Hn Hk. unfold operands_fit. intros H. apply bind_ok in H as (sa & Ea%stored_k_value & H); [|done].
  apply bind_ok in H as (sb & Eb%stored_k_value & H); [|done]. subst sa sb.
  destruct Ht as [? ? ? ? ? ? ? ? ?], Hv as [? ? ? ? ? ? ? ? ? ? ?].
  pose proof (boxed_value n (box_align_n cfg)) as Hb. unfold boxed in Hb.
  destruct (BoxedExtent n (box_align_n cfg)) as [bn|]; [|by (discriminate Hb; lia)].
  assert (bn = box_n n) as -> by (specialize (Hb ltac:(lia) ltac:(lia)); case_match; [done | by injection Hb]).
  destruct (rows_fit (l0a_bytes cfg) (bytes_a cfg) (stored (db_a (DeriveOperandDB (stat r))) k) (box_m m))
    as (wa & Ewa & Ha); [lia | lia | by apply stored_pos |].
  rewrite Ewa in H. cbn [bind] in H.
  destruct (rows_fit (l0b_bytes cfg) (bytes_b cfg) (stored (db_b (DeriveOperandDB (stat r))) k) (box_n n))
    as (wb & Ewb & Hb'); [lia | lia | by apply stored_pos |].
  destruct (box_m m >? wa) eqn:E; bool_to_prop.
  - injection H as <-. split; [done | lia].
  - rewrite Ewb in H. cbn [bind] in H. injection H as <-. rewrite Z.leb_le. tauto.
Qed.

(** ** The order of candidates *)

Definition kblocks (k : Z) : Z := (K + k - 1) / k.

(** The documented order: wall, padded compute, blocks of [K], load, and then
    the larger area and the larger [k]. *)
Definition rank (c : Candidate) : list Z :=
  [cost_cycles c; padded_compute c; kblocks (c_k c)] ++ double_key (load_cycles c)
  ++ [- (c_m c * c_n c); - c_k c].

(** [a] is at least as good as [b]. *)
Definition at_least (a b : Candidate) : Prop := lex_le (rank a) (rank b) = true.

Lemma at_least_trans a b c : at_least a b -> at_least b c -> at_least a c.
Proof. apply lex_le_trans. Qed.
Lemma at_least_refl a : at_least a a.
Proof. unfold at_least. by destruct (lex_le_total (rank a) (rank a)). Qed.

Lemma double_key_length a b : is_number a = true -> is_number b = true -> length (double_key a) = length (double_key b).
Proof. by destruct a as [|[]| |[]], b as [|[]| |[]]. Qed.

Lemma Better_rank a b t :
  is_number (load_cycles a) = true -> is_number (load_cycles b) = true ->
  0 < c_k a < 2 ^ 31 -> 0 < c_k b < 2 ^ 31 ->
  Better cfg a b = Ok t -> t = negb (lex_le (rank b) (rank a)).
Proof.
  intros Na Nb Ka Kb. destruct Ht as [? ? ? ? ? ? ? ? ?], Hv as [? ? ? ? ? ? ? ? ? ? ?].
  assert (Hgoal : forall t, (t = true <-> ~ lex_le (rank b) (rank a) = true) -> t = negb (lex_le (rank b) (rank a))).
  { intros t' H. apply eq_true_iff_eq. rewrite negb_true_iff, H. apply not_true_iff_false. }
  intros H. apply Hgoal. clear Hgoal. revert H. unfold Better, rank.
  rewrite <- !app_comm_cons, !app_nil_l, !lex_le_cons, lex_le_app by (by apply double_key_length).
  rewrite !CeilDiv_value by lia. cbn [bind]. fold (kblocks (c_k a)) (kblocks (c_k b)).
  rewrite SFltb_key, SFeqb_key by done.
  destruct (negb (cost_cycles a =? cost_cycles b)) eqn:E1; bool_to_prop; [intros [= <-]; rewrite Z.ltb_lt; lia |].
  destruct (negb (padded_compute a =? padded_compute b)) eqn:E2; bool_to_prop; [intros [= <-]; rewrite Z.ltb_lt; lia |].
  destruct (negb (kblocks (c_k a) =? kblocks (c_k b))) eqn:E3; bool_to_prop; [intros [= <-]; rewrite Z.ltb_lt; lia |].
  destruct (negb (bool_decide _)) eqn:E4; bool_to_prop.
  - apply bool_decide_eq_false in E4. intros [= <-]. rewrite negb_true_iff, <- not_true_iff_false.
    split.
    + intros Hn [?|[_ [?|[_ [?|[_ [[? _]|[_ ?]]]]]]]]; first [lia | congruence | done].
    + intros Hn Hl. apply Hn. do 3 (right; split; [lia |]). right. split; [congruence | done].
  - apply bool_decide_eq_true in E4. intros H. inv_ok. apply mul64_ok in E, E0. subst.
    rewrite !lex_le_cons.
    assert (Hdown : forall P, ~ (cost_cycles b < cost_cycles a \/ cost_cycles b = cost_cycles a /\
        (padded_compute b < padded_compute a \/ padded_compute b = padded_compute a /\
          (kblocks (c_k b) < kblocks (c_k a) \/ kblocks (c_k b) = kblocks (c_k a) /\
            (double_key (load_cycles b) = double_key (load_cycles a) /\ P \/
             double_key (load_cycles b) <> double_key (load_cycles a) /\
               lex_le (double_key (load_cycles b)) (double_key (load_cycles a)) = true)))) <-> ~ P).
    { intros P. split; intros Hn Hl; apply Hn.
      - do 3 (right; split; [lia |]). left. split; [congruence | done].
      - destruct Hl as [?|[_ [?|[_ [?|[_ [[_ ?]|[? _]]]]]]]]; first [lia | done | congruence]. }
    rewrite Hdown. cbn [lex_le].
    destruct (negb (_ =? _)) eqn:E5; bool_to_prop; injection H as <-; rewrite Z.gtb_ltb, Z.ltb_lt; lia.
Qed.

(** ** The search *)

Lemma MakeCandidate_fields r C0 m n k c :
  MakeCandidate cfg m n k C0 r = Ok (Some c) ->
  c_m c = m /\ c_n c = n /\ c_k c = k /\ regime c = r /\
  WallCycles cfg m n k r = Ok (cost_cycles c) /\ EstimateTraffic cfg m n k r = Ok (traffic c) /\
  PaddedComputeVolume cfg m n k = Ok (padded_compute c) /\ repeated_load cfg m n k r = Ok (load_cycles c).
Proof.
  unfold MakeCandidate. destruct (_ || (k <? min_k cfg)); [done |]. destruct (_ && (n >? max_n cfg)); [done |].
  intros (b & _ & Hc)%bind_ok. destruct (negb b); [done |]. destruct (_ && _); [done |].
  destruct (CandidateL0cPhysicalElements cfg m n); [|done]. destruct (_ >? _); [done |].
  inv_ok. done.
Qed.

(** The bandwidths are finite. *)
Hypothesis bandwidths : positive_finite (bw_a cfg) /\ positive_finite (bw_b cfg).

Lemma CeilDiv_bounds a b q : 0 < a < 2 ^ 31 -> 0 < b -> CeilDiv a b = Ok q -> 0 < q < 2 ^ 53.
Proof.
  intros Ha Hb. unfold CeilDiv, add64, sub64, div64. intros (x & [-> _]%checked_ok & H)%bind_ok.
  apply bind_ok in H as (y & [-> Hy]%checked_ok & H). case_match; [done |]. apply checked_ok in H as [-> _].
  rewrite Z.quot_div_nonneg by lia. split; [apply Z.div_str_pos; lia |]. apply Z.div_lt_upper_bound; nia.
Qed.

Lemma volume_nonneg b x y :
  0 < b < 2 ^ 32 -> 0 < x < 2 ^ 31 -> 0 < y < 2 ^ 31 -> nonneg (volume b x y).
Proof.
  intros Hb Hx Hy. unfold volume. pose proof (double_of_Z_positive b ltac:(lia)) as Hpb.
  repeat (apply double_mul_nonneg; [|by apply double_of_Z_positive; lia]). by destruct (double_of_Z b) as [| | |[]].
Qed.

Lemma LoadCycles_nonneg r m n k f : 0 < m -> 0 < n -> LoadCycles cfg m n k r = Ok f -> nonneg f.
Proof.
  intros Hm Hn. destruct Ht as [? ? ? ? ? ? ? ? ?], Hv as [? ? ? ? ? ? ? ? ? ? ?], bandwidths as [Ha Hb].
  intros (cn & Ecn & (cm & Ecm & H)%bind_ok)%bind_ok. apply CeilDiv_bounds in Ecn, Ecm; [|lia..].
  pose proof (volume_nonneg (bytes_a cfg) M K) as Hva. pose proof (volume_nonneg (bytes_b cfg) K N) as Hvb.
  assert (HA : nonneg (held_a cfg cm) /\ nonneg (held_b cfg cn) /\ nonneg (restreamed cfg cm cn)).
  { unfold held_a, held_b, restreamed. split_and!; apply double_add_nonneg; apply double_div_nonneg; try done;
      try (by (apply Hva || apply Hvb); lia); (apply double_mul_nonneg; [by (apply Hva || apply Hvb); lia | by apply double_of_Z_positive]). }
  destruct HA as (? & ? & ?). destruct (stat r); [|by injection H as <-..].
  destruct (_ && _); [|by injection H as <-]. apply bind_ok in H as (h & _ & [= <-]). by destruct h.
Qed.

(** The load of every candidate is a number. *)
Lemma loads r C0 m n k c : MakeCandidate cfg m n k C0 r = Ok (Some c) -> is_number (load_cycles c) = true.
Proof.
  intros Hc. assert (Hmn : 0 < m /\ 0 < n).
  { unfold MakeCandidate in Hc. destruct (_ || (k <? min_k cfg)) eqn:E; [done |]. bool_to_prop.
    destruct Hv as [? ? ? ? ? ? ? ? ? ? ?]. lia. }
  apply MakeCandidate_fields in Hc as (_ & _ & _ & _ & _ & _ & _ & Hl). apply bind_ok in Hl as (l & Hl & [= <-]).
  apply LoadCycles_nonneg in Hl; [|lia..]. apply nonneg_number, double_mul_nonneg; [done |].
  destruct Ht as [? ? ? ? ? ? ? ? ?]. apply double_of_Z_positive. unfold ReductionRepetitions. lia.
Qed.

(** [o] is the best of the tiles [S], all of which could be scored. *)
Definition searched (r : Regime) (C0 : Z) (S : Z -> Z -> Z -> Prop) (o : option Candidate) : Prop :=
  (forall m n k, S m n k -> exists c best,
    MakeCandidate cfg m n k C0 r = Ok (Some c) /\ o = Some best /\ at_least best c) /\
  (forall c, o = Some c ->
    S (c_m c) (c_n c) (c_k c) /\ 0 < c_k c < 2 ^ 31 /\
    MakeCandidate cfg (c_m c) (c_n c) (c_k c) C0 r = Ok (Some c)).

Lemma searched_iff r C0 S S' o :
  (forall m n k, S m n k <-> S' m n k) -> searched r C0 S o -> searched r C0 S' o.
Proof.
  intros HS [Hall Hbest]. split; [intros m n k Hm%HS; by apply Hall |].
  intros c Hc. destruct (Hbest c Hc) as (? & ? & ?). by rewrite <- HS.
Qed.

Lemma searched_empty r C0 : searched r C0 (fun _ _ _ => False) None.
Proof. by split. Qed.

Lemma improve_searched r C0 S best m n k co o :
  searched r C0 S best -> 0 < k < 2 ^ 31 ->
  MakeCandidate cfg m n k C0 r = Ok co -> improve cfg best co = Ok o ->
  searched r C0 (fun m' n' k' => S m' n' k' \/ (m' = m /\ n' = n /\ k' = k /\ is_Some co)) o.
Proof.
  intros [Hall Hbest] Hk Hc Ho. destruct co as [c|]; cbn [improve] in Ho.
  2:{ injection Ho as <-. eapply (searched_iff r C0 S); [|by split].
      intros m' n' k'. split; [by left | intros [?|(_ & _ & _ & [? ?])]; done]. }
  destruct (MakeCandidate_fields r C0 m n k c Hc) as (Em & En & Ek & _).
  assert (Hnew : forall o, o = Some c -> (forall b, best = Some b -> at_least c b) ->
    searched r C0 (fun m' n' k' => S m' n' k' \/ (m' = m /\ n' = n /\ k' = k /\ is_Some (Some c))) o).
  { intros o' -> Hb. split.
    - intros m' n' k' [HS|(-> & -> & -> & _)].
      + destruct (Hall m' n' k' HS) as (c' & b & Hc' & Eb & Hle). exists c', c. split_and!; [done | done |].
        eapply at_least_trans; [by apply Hb | done].
      + exists c, c. split_and!; [done | done | apply at_least_refl].
    - intros c' [= <-]. rewrite Em, En, Ek. split_and!; [by right | lia | lia | done]. }
  destruct best as [b|]; [|injection Ho as <-; by apply Hnew].
  apply bind_ok in Ho as (t & Hb & [= <-]). destruct (Hbest b eq_refl) as (HbS & Hbk & Hbc).
  apply Better_rank in Hb; [|by eapply loads | by eapply loads | lia | done].
  destruct t; symmetry in Hb; [apply negb_true_iff in Hb | apply negb_false_iff in Hb].
  - apply Hnew; [done |]. intros b' [= <-]. unfold at_least.
    destruct (lex_le_total (rank c) (rank b)) as [? | Hle]; [done | congruence].
  - split.
    + intros m' n' k' [HS|(-> & -> & -> & _)]; [by apply Hall | by exists c, b].
    + intros b' [= <-]. split_and!; [by left | apply Hbk | apply Hbk | done].
Qed.

(** The tests of one [k]. *)
Definition chosen (r : Regime) (C0 : Z) (require_full_k : bool) (m n k : Z) : Prop :=
  (require_full_k = true -> k = K) /\
  box_m m * stored (db_a (DeriveOperandDB (stat r))) k <= l0a_bytes cfg / bytes_a cfg /\
  box_n n * stored (db_b (DeriveOperandDB (stat r))) k <= l0b_bytes cfg / bytes_b cfg /\
  shape_ok r C0 m n k.

Lemma scan_k_searched r C0 full m n ks : forall S best o,
  0 < m < 2 ^ 31 -> 0 < n < 2 ^ 31 -> 0 <= C0 < 2 ^ 32 -> (forall k, k ∈ ks -> 0 < k < 2 ^ 31) ->
  searched r C0 S best -> scan_k cfg r C0 full (box_m m) m n ks best = Ok o ->
  searched r C0 (fun m' n' k' => S m' n' k' \/ (m' = m /\ n' = n /\ k' ∈ ks /\ chosen r C0 full m n k')) o.
Proof.
  induction ks as [|k ks IH]; intros S best o Hm Hn HC Hks Hs Ho; cbn [scan_k] in Ho.
  - injection Ho as <-. eapply searched_iff; [|exact Hs]. intros m' n' k'. rewrite elem_of_nil. tauto.
  - assert (Hk : 0 < k < 2 ^ 31) by (apply Hks; by left). apply bind_ok in Ho as (best' & Hb & Ho).
    assert (Hs' : searched r C0 (fun m' n' k' => S m' n' k' \/ (m' = m /\ n' = n /\ k' = k /\ chosen r C0 full m n k)) best').
    { unfold chosen. destruct (full && negb (k =? K)) eqn:Ef.
      { apply andb_true_iff in Ef as [Ef1 Ef2]. injection Hb as <-. eapply searched_iff; [|exact Hs].
        intros m' n' k'. split; [by left |].
        intros [?|(_ & _ & _ & Hfull & _)]; [done |]. rewrite Hfull, Z.eqb_refl in Ef2 by done. done. }
      apply bind_ok in Hb as (fit & Hfit & Hb). apply operands_fit_spec in Hfit; [|done | lia].
      destruct fit; cbn [negb] in Hb.
      2:{ injection Hb as <-. eapply searched_iff; [|exact Hs]. intros m' n' k'. split; [by left |].
          intros [?|(_ & _ & _ & _ & Ha & Hb' & _)]; [done |]. destruct Hfit as [_ Hfit]. by specialize (Hfit (conj Ha Hb')). }
      destruct (proj1 Hfit eq_refl) as [Ha Hb']. rewrite !to_int_id in Hb by lia. apply bind_ok in Hb as (co & Hc & Hi).
      eapply searched_iff; [|eapply improve_searched; [exact Hs | exact Hk | exact Hc | exact Hi]].
      intros m' n' k'. apply or_iff_compat_l. rewrite (MakeCandidate_some r C0 m n k co Hm Hn HC Hc).
      split; [intros (-> & -> & -> & ?) | intros (-> & -> & -> & ? & ? & ? & ?)]; split_and!; try done.
      intros ->. cbn in Ef. bool_to_prop. done. }
    eapply searched_iff; [|eapply (IH _ _ _ Hm Hn HC); [|exact Hs' | exact Ho]].
    + intros m' n' k'. rewrite elem_of_cons. split; [intros [[?|(-> & -> & -> & ?)]|?] | intros [?|(-> & -> & [-> |?] & ?)]]; tauto.
    + intros j Hj. apply Hks. by right.
Qed.

(** The tests of one tile of the grid, with the budgets of the search. *)
Definition visited (r : Regime) (A0 B0 C0 : Z) (pair full : bool) (m n k : Z) : Prop :=
  (pair = true -> exists t, PipelinedInnerFullTiles cfg m n (stat r) = Ok t /\ 2 <= t) /\
  (min_k cfg <= k <= limit_k /\ (align_k cfg | k) /\ k_emitted k /\ box_m m * k <= A0 /\ box_n n * k <= B0) /\
  chosen r C0 full m n k.

Lemma scan_n_searched r A0 B0 C0 pair full m ns : forall S best o,
  0 < m < 2 ^ 31 -> 0 <= A0 < 2 ^ 32 -> 0 <= B0 < 2 ^ 32 -> 0 <= C0 < 2 ^ 32 ->
  (forall n, n ∈ ns -> 0 < n < 2 ^ 31) ->
  searched r C0 S best -> scan_n cfg r A0 B0 C0 pair full (box_m m) m ns best = Ok o ->
  searched r C0 (fun m' n' k' => S m' n' k' \/ (m' = m /\ n' ∈ ns /\ visited r A0 B0 C0 pair full m n' k')) o.
Proof.
  induction ns as [|n ns IH]; intros S best o Hm HA HB HC Hns Hs Ho; cbn [scan_n] in Ho.
  - injection Ho as <-. eapply searched_iff; [|exact Hs]. intros m' n' k'. rewrite elem_of_nil. tauto.
  - assert (Hn : 0 < n < 2 ^ 31) by (apply Hns; by left). rewrite !to_int_id in Ho by lia.
    apply bind_ok in Ho as (skip & Hskip & (best' & Hb & Ho)%bind_ok).
    assert (Hpair : skip = false <-> (pair = true -> exists t, PipelinedInnerFullTiles cfg m n (stat r) = Ok t /\ 2 <= t)).
    { destruct pair; [|by injection Hskip as <-]. apply bind_ok in Hskip as (t & Et & [= <-]). rewrite Z.ltb_ge. split.
      - intros Hle _. by exists t.
      - intros Hex. destruct (Hex eq_refl) as (t' & Et' & Hle). rewrite Et in Et'. injection Et' as ->. done. }
    assert (Hs' : searched r C0 (fun m' n' k' => S m' n' k' \/ (m' = m /\ n' = n /\ visited r A0 B0 C0 pair full m n k')) best').
    { destruct skip.
      { injection Hb as <-. eapply searched_iff; [|exact Hs]. intros m' n' k'. split; [by left |].
        intros [?|(_ & _ & Hp%Hpair & _)]; done. }
      destruct (EnumerateLegalKs_spec m n A0 B0 Hm Hn HA HB) as (ks & Eks & Hks). rewrite Eks in Hb. cbn [bind] in Hb.
      eapply searched_iff; [|eapply scan_k_searched; [exact Hm | exact Hn | exact HC | | exact Hs | exact Hb]].
      - intros m' n' k'. apply or_iff_compat_l. rewrite Hks. unfold visited. rewrite <- Hpair.
        split; [intros (-> & -> & ? & ?) | intros (-> & -> & _ & ? & ?)]; done.
      - intros k Hk%Hks. pose proof limit_k_bounds. destruct Hv as [? ? ? ? ? ? ? ? ? ? ?]. lia. }
    eapply searched_iff; [|eapply (IH _ _ _ Hm HA HB HC); [|exact Hs' | exact Ho]].
    + intros m' n' k'. rewrite elem_of_cons. split; [intros [[?|(-> & -> & ?)]|?] | intros [?|(-> & [-> |?] & ?)]]; tauto.
    + intros j Hj. apply Hns. by right.
Qed.

Lemma box_n_le n : n <= box_n n.
Proof. destruct Hv as [? ? ? ? ? ? ? ? ? ? ?]. unfold box_n. pose proof (round_up_spec n (box_align_n cfg)). lia. Qed.

Lemma rows_bounds m : 0 < m < 2 ^ 31 -> m <= rows m < 2 ^ 33.
Proof.
  intros Hm. destruct Ht as [? ? ? ? ? ? ? ? ?], Hv as [? ? ? ? ? ? ? ? ? ? ?]. unfold rows, box_m.
  pose proof (round_up_spec m (box_align_m cfg)).
  pose proof (round_up_spec (round_up m (box_align_m cfg)) (l0c_align_m cfg)). lia.
Qed.

Lemma rows_mono m m' : m <= m' -> rows m <= rows m'.
Proof.
  intros Hm. destruct Hv as [? ? ? ? ? ? ? ? ? ? ?]. unfold rows, box_m. apply round_up_mono, round_up_mono; lia.
Qed.

Lemma physical_rows_value m C0 :
  0 < m < 2 ^ 31 -> 0 <= C0 < 2 ^ 32 ->
  physical_rows cfg m C0 =
    Ok (if rows m * box_n (min_n cfg) >? C0 then None else Some (box_m m, rows m)).
Proof.
  intros Hm HC. pose proof (rows_bounds m Hm) as Hr. pose proof (box_n_le (min_n cfg)) as Hb.
  destruct Ht as [? ? ? ? ? ? ? ? ?], Hv as [? ? ? ? ? ? ? ? ? ? ?].
  unfold physical_rows. rewrite !boxed_value by lia. fold (box_m m) (box_n (min_n cfg)).
  pose proof (round_up_spec m (box_align_m cfg)) as Hbm. fold (box_m m) in Hbm.
  rewrite L0cPhysicalElements_value by lia64. fold (rows m). rewrite Z.mul_1_r.
  assert ((box_m m <=? 0) || (1 <=? 0) || (l0c_align_m cfg <=? 0) || (UINT64_MAX <? rows m) = false) as ->.
  { rewrite !orb_false_iff, !Z.leb_gt, Z.ltb_ge. lia64. }
  destruct (rows m >? INT64_MAX) eqn:E; bool_to_prop; [lia64 |].
  rewrite div64_value by lia64. cbn [bind]. f_equal.
  pose proof (cap_spec (box_n (min_n cfg)) (rows m) C0) as Hcap.
  destruct (rows m >? C0 / box_n (min_n cfg)) eqn:E1, (rows m * box_n (min_n cfg) >? C0) eqn:E2; bool_to_prop; try done; nia.
Qed.

Lemma scan_m_searched r A0 B0 C0 pair full n_hi ms : forall S best o,
  0 <= A0 < 2 ^ 32 -> 0 <= B0 < 2 ^ 32 -> 0 <= C0 < 2 ^ 32 -> n_hi < 2 ^ 31 ->
  (forall m, m ∈ ms -> 0 < m < 2 ^ 31) -> StronglySorted Z.lt ms ->
  searched r C0 S best -> scan_m cfg r A0 B0 C0 pair full n_hi ms best = Ok o ->
  searched r C0 (fun m' n' k' => S m' n' k' \/
    (m' ∈ ms /\ n' ∈ grid (min_n cfg) n_hi (align_n cfg) /\ visited r A0 B0 C0 pair full m' n' k')) o.
Proof.
  assert (Han : 0 < align_n cfg /\ 0 < min_n cfg) by (destruct Hv as [? ? ? ? ? ? ? ? ? ? ?]; lia).
  assert (Hfits : forall m' n' k', visited r A0 B0 C0 pair full m' n' k' -> rows m' * box_n n' <= C0)
    by (intros m' n' k' (_ & _ & _ & _ & _ & [_ _ _ _ ?]); done).
  induction ms as [|m ms IH]; intros S best o HA HB HC Hhi Hms Hsort Hs Ho; cbn [scan_m] in Ho.
  - injection Ho as <-. eapply searched_iff; [|exact Hs]. intros m' n' k'. rewrite elem_of_nil. tauto.
  - assert (Hm : 0 < m < 2 ^ 31) by (apply Hms; by left). pose proof (rows_bounds m Hm) as Hrm.
    apply StronglySorted_inv in Hsort as [Hsort Hlt]. rewrite physical_rows_value in Ho by done. cbn [bind] in Ho.
    destruct (rows m * box_n (min_n cfg) >? C0) eqn:E; bool_to_prop.
    + injection Ho as <-. eapply searched_iff; [|exact Hs]. intros m' n' k'. split; [by left |].
      intros [?|(Hm' & Hn' & Hvis%Hfits)]; [done |]. apply grid_in in Hn' as [Hn' _]; [|lia]. exfalso.
      assert (Hle : m <= m').
      { apply elem_of_cons in Hm' as [-> |Hm']; [lia |]. rewrite List.Forall_forall in Hlt.
        apply Z.lt_le_incl, Hlt. by apply list_elem_of_In. }
      pose proof (rows_mono m m' Hle). assert (box_n (min_n cfg) <= box_n n') by (apply round_up_mono; [|lia]; destruct Hv as [? ? ? ? ? ? ? ? ? ? ?]; lia).
      pose proof (box_n_le (min_n cfg)). nia.
    + apply bind_ok in Ho as (w & Hw & (best' & Hb & Ho)%bind_ok). rewrite div64_value in Hw by lia64. injection Hw as <-.
      assert (Hgrid : forall n', n' ∈ grid (min_n cfg) (Z.min n_hi (C0 / rows m)) (align_n cfg) -> 0 < n' < 2 ^ 31)
        by (intros n' [Hn' _]%grid_in; lia).
      pose proof (scan_n_searched r A0 B0 C0 pair full m _ S best best' Hm HA HB HC Hgrid Hs Hb) as Hs'.
      eapply searched_iff; [|eapply (IH _ _ _ HA HB HC Hhi); [|exact Hsort | exact Hs' | exact Ho]].
      2:{ intros j Hj. apply Hms. by right. }
      intros m' n' k'. rewrite elem_of_cons. split; [intros [[?|(-> & Hn & ?)]|?] | intros [?|([-> |?] & Hn & Hvis)]]; try tauto.
      * right. split_and!; [by left | | done]. apply grid_in in Hn as [? ?]; [|lia]. apply grid_in; [lia |]. split; [lia | done].
      * left. right. split_and!; [done | | done]. apply grid_in in Hn as [? ?]; [|lia]. apply grid_in; [lia |].
        split; [|done]. split; [lia |]. apply Z.min_glb; [lia |]. apply Hfits in Hvis.
        apply cap_spec; [lia |]. pose proof (box_n_le n'). nia.
Qed.

Lemma EnumerateBest_searched r A0 B0 C0 pair full o :
  0 <= A0 < 2 ^ 32 -> 0 <= B0 < 2 ^ 32 -> 0 <= C0 < 2 ^ 32 ->
  EnumerateBest cfg r A0 B0 C0 pair full = Ok o ->
  searched r C0 (fun m n k =>
    (min_m cfg <= m <= limit_m /\ (align_m cfg | m - min_m cfg)) /\
    (min_n cfg <= n <= limit_n /\ (align_n cfg | n - min_n cfg)) /\ visited r A0 B0 C0 pair full m n k) o.
Proof.
  intros HA HB HC. unfold EnumerateBest. destruct Ht as [? ? ? ? ? ? ? Hp ?], Hv as [? ? ? ? ? ? ? ? ? ? ?].
  assert (Em : (if allow_padding cfg then AlignUp M (align_m cfg) else Ok M) = Ok limit_m /\ limit_m < 2 ^ 31).
  { unfold limit_m. destruct (allow_padding cfg); [|split; [done | lia]]. split; [apply AlignUp_value; lia | apply (Hp eq_refl)]. }
  assert (En : exists hi, (if allow_padding cfg then AlignUp N (align_n cfg) else Ok N) = Ok hi /\
      (if max_n cfg >? 0 then Z.min hi (max_n cfg) else hi) = limit_n /\ hi < 2 ^ 31).
  { unfold limit_n. destruct (allow_padding cfg); [|by exists N; split_and!; [| |lia]].
    exists (round_up N (align_n cfg)). split_and!; [apply AlignUp_value; lia | done | apply (Hp eq_refl)]. }
  destruct Em as [-> Hlm], En as (hi & -> & El & Hhi). cbn [bind]. rewrite El. intros Ho.
  assert (Hln : limit_n < 2 ^ 31) by (rewrite <- El; case_match; lia).
  eapply searched_iff; [|eapply scan_m_searched; [exact HA | exact HB | exact HC | exact Hln | | | apply searched_empty | exact Ho]].
  - intros m n k. cbv beta. rewrite !grid_in by lia. tauto.
  - intros m [Hm _]%grid_in; lia.
  - apply grid_sorted. lia.
Qed.

(** ** Design points *)

Definition a_budget (r : Regime) : Z := l0a_bytes cfg / (bytes_a cfg * depth (db_a (DeriveOperandDB (stat r)))).
Definition b_budget (r : Regime) : Z := l0b_bytes cfg / (bytes_b cfg * depth (db_b (DeriveOperandDB (stat r)))).
Definition c_budget (r : Regime) : Z := l0c_bytes cfg / (bytes_c cfg * (if dbc r then 2 else 1)).

Lemma budget_value capacity bytes two :
  0 < capacity < 2 ^ 32 -> 0 < bytes < 2 ^ 32 ->
  (let* b := mul64 bytes (if two : bool then 2 else 1) in div64 capacity b) = Ok (capacity / (bytes * depth two)) /\
  0 <= capacity / (bytes * depth two) < 2 ^ 32.
Proof.
  intros Hc Hb. assert (E : mul64 bytes (if two then 2 else 1) = Ok (bytes * depth two)).
  { apply checked_in. destruct two; cbn [depth]; lia64. }
  rewrite E. cbn [bind]. assert (0 < bytes * depth two) by (destruct two; cbn; lia).
  rewrite div64_value by lia64. split; [done |]. split; [apply Z.div_pos; lia |].
  apply Z.div_lt_upper_bound; [done |]. destruct two; cbn [depth]; nia.
Qed.

Lemma budgets r :
  L0aBudget cfg (DeriveOperandDB (stat r)) = Ok (a_budget r) /\ L0bBudget cfg (DeriveOperandDB (stat r)) = Ok (b_budget r) /\
  L0cBudget cfg r = Ok (c_budget r) /\
  0 <= a_budget r < 2 ^ 32 /\ 0 <= b_budget r < 2 ^ 32 /\ 0 <= c_budget r < 2 ^ 32.
Proof.
  destruct Ht as [? ? ? ? ? ? ? ? ?], Hv as [? ? ? ? ? ? ? ? ? ? ?].
  destruct (budget_value (l0a_bytes cfg) (bytes_a cfg) (db_a (DeriveOperandDB (stat r)))) as [? ?]; [lia | lia |].
  destruct (budget_value (l0b_bytes cfg) (bytes_b cfg) (db_b (DeriveOperandDB (stat r)))) as [? ?]; [lia | lia |].
  destruct (budget_value (l0c_bytes cfg) (bytes_c cfg) (dbc r)) as [? ?]; [lia | lia |]. done.
Qed.

Lemma tile_ok_visited r m n k :
  (min_m cfg <= m <= limit_m /\ (align_m cfg | m - min_m cfg)) /\
  (min_n cfg <= n <= limit_n /\ (align_n cfg | n - min_n cfg)) /\
  visited r (a_budget r) (b_budget r) (c_budget r) (dbc r) (full_k_regime r) m n k <-> tile_ok r m n k.
Proof.
  split.
  - intros (Hm & Hn & Hpair & (? & ? & ? & ? & ?) & Hfull & ? & ? & []). by constructor.
  - intros [Hm Hn (? & ? & ?) ? ? ? ? ? ? ? ?]. unfold visited, chosen. split_and!; try done; try lia.
    1,2: tauto. constructor; [lia | | done | | done].
    + unfold limit_n in Hn. intros Hx. destruct (max_n cfg >? 0) eqn:E; bool_to_prop; lia.
    + intros Hpad. unfold limit_m, limit_n in *. rewrite Hpad in *. destruct (max_n cfg >? 0); lia.
Qed.

Lemma search_regime_spec r o :
  search_regime cfg r = Ok o -> searched r (c_budget r) (tile_ok r) o.
Proof.
  destruct (budgets r) as (Ea & Eb & Ec & Ha & Hb & Hc). unfold search_regime. rewrite Ea, Eb, Ec. cbn [bind].
  intros Ho. eapply searched_iff; [|exact (EnumerateBest_searched r _ _ _ _ _ o Ha Hb Hc Ho)].
  intros m n k. apply tile_ok_visited.
Qed.

(** A tile of a design point and its wall. *)
Definition wall (r : Regime) (m n k w : Z) : Prop := tile_ok r m n k /\ WallCycles cfg m n k r = Ok w.

(** Every tile of a design point has a wall, of at least [w]. *)
Definition walls_above (r : Regime) (w : Z) : Prop :=
  forall m n k, tile_ok r m n k -> exists w', WallCycles cfg m n k r = Ok w' /\ w <= w'.

Definition best_in (r : Regime) (c : Candidate) : Prop :=
  regime c = r /\ searched r (c_budget r) (tile_ok r) (Some c).

Lemma best_in_wall r c : best_in r c -> walls_above r (cost_cycles c).
Proof.
  intros [_ [Hall _]] m n k Hok. destruct (Hall m n k Hok) as (c' & b & Hc' & [= <-] & Hle).
  apply MakeCandidate_fields in Hc' as (_ & _ & _ & _ & Hw & _). exists (cost_cycles c'). split; [done |].
  unfold at_least, rank in Hle. rewrite <- !app_comm_cons, lex_le_cons in Hle. lia.
Qed.

Lemma search_regime_best r c : search_regime cfg r = Ok (Some c) -> best_in r c.
Proof.
  intros Hs%search_regime_spec. split; [|done]. destruct Hs as [_ Hc]. destruct (Hc c eq_refl) as (_ & _ & Hm).
  by apply MakeCandidate_fields in Hm as (_ & _ & _ & ? & _).
Qed.

Lemma search_regime_none r w : search_regime cfg r = Ok None -> walls_above r w.
Proof. intros [Hs _]%search_regime_spec m n k Hok. by destruct (Hs m n k Hok) as (c & b & _ & ? & _). Qed.

(** The minimum tile's footprint is a lower bound. *)
Lemma small_budget r e w :
  CandidateL0cPhysicalElements cfg (min_m cfg) (min_n cfg) = Some e -> c_budget r < e -> walls_above r w.
Proof.
  intros He Hlt m n k Hok. exfalso. pose proof (m_legal _ _ _ _ Hok) as [Hm _]. pose proof (n_legal _ _ _ _ Hok) as [Hn _].
  pose proof (accumulators _ _ _ _ Hok) as Hc. fold (c_budget r) in Hc.
  destruct Ht as [? ? ? ? ? ? ? ? ?], Hv as [? ? ? ? ? ? ? ? ? ? ?].
  rewrite L0cElements_value in He by lia. case_match; [done |]. injection He as <-.
  pose proof (rows_mono (min_m cfg) m ltac:(lia)). pose proof (rows_bounds (min_m cfg) ltac:(lia)).
  assert (box_n (min_n cfg) <= box_n n) by (apply round_up_mono; lia). pose proof (box_n_le (min_n cfg)). nia.
Qed.

Lemma walls_above_le r w w' : w' <= w -> walls_above r w -> walls_above r w'.
Proof. intros Hw Ha m n k Hok. destruct (Ha m n k Hok) as (v & ? & ?). exists v. split; [done | lia]. Qed.

(** The best so far is least over the design points [Q], and lower than the
    earlier best unless it is the same. *)
Definition least_of (Q : Regime -> Prop) (o : option Candidate) : Prop :=
  match o with
  | None => forall r, Q r -> forall w, walls_above r w
  | Some c => (exists r, Q r /\ best_in r c) /\ forall r, Q r -> walls_above r (cost_cycles c)
  end.

Lemma adopt_least Q r best cand :
  least_of Q best -> (match cand with Some c => best_in r c | None => forall w, walls_above r w end) ->
  least_of (fun r' => Q r' \/ r' = r) (adopt_lower best cand).
Proof.
  intros Hb Hc. destruct cand as [c|], best as [b|]; cbn [adopt_lower].
  - destruct Hb as [(r0 & Hr0 & Hb0) Hb]. pose proof (best_in_wall r c Hc) as Hw.
    destruct (cost_cycles c <? cost_cycles b) eqn:E; bool_to_prop; split.
    + exists r. auto.
    + intros r' [HQ| ->]; [eapply walls_above_le; [|by apply Hb]; lia | done].
    + exists r0. auto.
    + intros r' [HQ| ->]; [by apply Hb | eapply walls_above_le; [|done]; lia].
  - split; [exists r; auto |]. intros r' [HQ| ->]; [by apply Hb | by apply best_in_wall].
  - destruct Hb as [(r0 & Hr0 & Hb0) Hb]. split; [exists r0; auto |]. intros r' [HQ| ->]; auto.
  - intros r' [HQ| ->]; auto.
Qed.

Lemma least_of_iff Q Q' o : (forall r, Q r <-> Q' r) -> least_of Q o -> least_of Q' o.
Proof.
  intros HQ. destruct o as [c|]; cbn; [intros [(r & Hr & ?) Hall]; split; [exists r; by rewrite <- HQ |] | intros Hall];
    intros r' Hr'%HQ; auto.
Qed.

Lemma search_richer_least e rs : forall Q best o,
  CandidateL0cPhysicalElements cfg (min_m cfg) (min_n cfg) = Some e ->
  least_of Q best -> search_richer cfg e rs best = Ok o ->
  least_of (fun r => Q r \/ r ∈ rs) o /\
  (o = best \/ exists c, o = Some c /\ (exists r, r ∈ rs /\ best_in r c) /\
    forall b, best = Some b -> cost_cycles c < cost_cycles b).
Proof.
  induction rs as [|r rs IH]; intros Q best o He Hb Ho; cbn [search_richer] in Ho.
  - injection Ho as <-. split; [|by left]. eapply least_of_iff; [|exact Hb]. intros r. rewrite elem_of_nil. tauto.
  - destruct (budgets r) as (_ & _ & Ec & _). rewrite Ec in Ho. cbn [bind] in Ho. apply bind_ok in Ho as (best' & Hb' & Ho).
    assert (Hstep : exists cand, best' = adopt_lower best cand /\
      match cand with Some c => best_in r c | None => forall w, walls_above r w end).
    { destruct (c_budget r <? e) eqn:E; bool_to_prop.
      - injection Hb' as <-. exists None. split; [by destruct best | intros w; by eapply small_budget].
      - apply bind_ok in Hb' as (cand & Hcand & [= <-]). exists cand. split; [done |].
        destruct cand; [by apply search_regime_best | intros w; by apply search_regime_none]. }
    destruct Hstep as (cand & -> & Hcand). pose proof (adopt_least Q r best cand Hb Hcand) as Hb''.
    destruct (IH _ _ _ He Hb'' Ho) as [Hl Hor]. split.
    + eapply least_of_iff; [|exact Hl]. intros r'. rewrite elem_of_cons. tauto.
    + destruct Hor as [-> |(c & -> & (r' & Hr' & Hbest) & Hlow)].
      * destruct cand as [c|]; [|left; by destruct best]. destruct best as [b|]; cbn [adopt_lower].
        -- destruct (cost_cycles c <? cost_cycles b) eqn:E; bool_to_prop; [|by left].
           right. exists c. split_and!; [done | exists r; split; [by left | done] | by intros ? [= <-]].
        -- right. exists c. split_and!; [done | exists r; split; [by left | done] | done].
      * right. exists c. split_and!; [done | exists r'; split; [by right | done] |]. intros b ->.
        destruct cand as [c'|]; cbn [adopt_lower] in Hlow; [|by apply Hlow].
        destruct (cost_cycles c' <? cost_cycles b) eqn:E; bool_to_prop; [|by apply Hlow].
        specialize (Hlow c' eq_refl). lia.
Qed.

(** ** The whole search *)

Lemma search_all_least e o :
  CandidateL0cPhysicalElements cfg (min_m cfg) (min_n cfg) = Some e -> search_all cfg e = Ok o ->
  exists base, search_regime cfg base_regime = Ok base /\
    least_of (fun r => r = base_regime \/
      (r ∈ richer_regimes cfg /\ independent_output_tiles cfg = false /\
       match base with Some c => is_untiled cfg c = false | None => True end)) o /\
    (o = base \/ exists c, o = Some c /\ regime c ∈ richer_regimes cfg /\
      forall b, base = Some b -> cost_cycles c < cost_cycles b).
Proof.
  intros He (base & Hbase & Ho)%bind_ok. exists base. split; [done |].
  assert (Hb : least_of (fun r => r = base_regime) base).
  { destruct base as [c|]; cbn; [split; [exists base_regime; split; [done | by apply search_regime_best] |] |].
    - intros r ->. by apply best_in_wall, search_regime_best.
    - intros r -> w. by apply search_regime_none. }
  cbv zeta in Ho. destruct (_ && negb (independent_output_tiles cfg)) eqn:E.
  - apply andb_true_iff in E as [E1 E2%negb_true_iff].
    destruct (search_richer_least e _ _ _ _ He Hb Ho) as [Hl Hor]. split.
    + eapply least_of_iff; [|exact Hl]. intros r. split; [intros [?|?]; [by left | right; split_and!; [done | done |]] | tauto].
      destruct base; [by apply negb_true_iff in E1 | done].
    + destruct Hor as [?|(c & -> & (r & Hr & Hrc & _) & Hlow)]; [by left | right; exists c]. by rewrite Hrc.
  - injection Ho as <-. split; [|by left]. eapply least_of_iff; [|exact Hb]. intros r. split; [by left |].
    intros [?|(_ & Hi & Hu)]; [done |]. rewrite Hi in E. destruct base; [by rewrite Hu in E | done].
Qed.

End Search.

(** ** The checks of the inputs *)

Lemma positive_number f : SFltb (double_of_Z 0) f = true -> double_isfinite f = true -> positive_finite f.
Proof. by destruct f as [| | |[]]. Qed.

Lemma validate_valid u : validate cfg = Ok u -> valid.
Proof.
  unfold validate. intros H. repeat (apply bind_ok in H as (? & ?%require_ok & H)).
  bool_to_prop. constructor; try lia. intros Hp. rewrite Hp in H. cbn [negb] in H.
  inv_ok. bool_to_prop. lia.
Qed.

Lemma validate_bandwidths u :
  validate cfg = Ok u -> double_isfinite (bw_a cfg) = true -> double_isfinite (bw_b cfg) = true ->
  positive_finite (bw_a cfg) /\ positive_finite (bw_b cfg).
Proof.
  unfold validate. intros H Ha Hb. do 10 (apply bind_ok in H as (? & _ & H)).
  apply bind_ok in H as (? & Hbw%require_ok & _). apply andb_true_iff in Hbw as [[? ?]%andb_true_iff _].
  split; by apply positive_number.
Qed.

Lemma check_capacities_footprint e :
  check_capacities cfg = Ok e -> CandidateL0cPhysicalElements cfg (min_m cfg) (min_n cfg) = Some e.
Proof.
  unfold check_capacities. intros H. do 7 (apply bind_ok in H as (? & _ & H)).
  destruct (CandidateL0cPhysicalElements cfg _ _); [|done]. by inv_ok.
Qed.

End Config.

(** ** Claims *)

(** The finite bandwidths of a backend. *)
Definition finite_bandwidths (cfg : L0TileConfig) : Prop :=
  double_isfinite (bw_a cfg) = true /\ double_isfinite (bw_b cfg) = true.

(** What [ChooseL0Tile] returned came from a candidate. *)
Lemma ChooseL0Tile_candidate cfg t :
  typed cfg -> finite_bandwidths cfg -> ChooseL0Tile cfg = Ok t ->
  valid cfg /\ (positive_finite (bw_a cfg) /\ positive_finite (bw_b cfg)) /\
  exists e c, CandidateL0cPhysicalElements cfg (min_m cfg) (min_n cfg) = Some e /\
    search_all cfg e = Ok (Some c) /\
    tile_m t = c_m c /\ tile_n t = c_n c /\ tile_k t = c_k c /\ estimated_cost_cycles t = cost_cycles c /\
    padded_compute_volume t = padded_compute c /\ estimated_traffic_bytes t = traffic c /\
    stationarity t = stat (regime c) /\ double_buffer_c t = dbc (regime c) /\
    OSHoldsHoldA cfg (c_m c) (c_n c) = Ok (os_holds_a t).
Proof.
  intros Ht [Ha Hb] (u & Hu & (e & He & (o & Ho & H)%bind_ok)%bind_ok)%bind_ok.
  split; [by eapply validate_valid |]. split; [by eapply validate_bandwidths |].
  destruct o as [c|]; [|done]. apply bind_ok in H as (h & Hh & [= <-]).
  exists e, c. split_and!; try done. by apply check_capacities_footprint.
Qed.

Definition tile_regime (t : L0TileResult) : Regime := MkRegime (stationarity t) (double_buffer_c t).

(** C22: The tile ChooseL0Tile returns is legal and its estimated time is the least there
    is: no legal tile of the baseline design point is faster, nor one of any other loop
    order or accumulator count that is enabled, unless the baseline is the whole untiled
    problem or output tiles are independent; another design point is taken only when it is
    strictly faster; and within its design point the tile is least in the documented order
    (time, padded work, blocks of K, load, area, k). *)
Theorem ChooseL0Tile_optimal cfg t :
  typed cfg -> finite_bandwidths cfg -> ChooseL0Tile cfg = Ok t ->
  let r := tile_regime t in
  (r = base_regime \/ (r ∈ richer_regimes cfg /\ independent_output_tiles cfg = false)) /\
  wall cfg r (tile_m t) (tile_n t) (tile_k t) (estimated_cost_cycles t) /\
  walls_above cfg base_regime (estimated_cost_cycles t) /\
  ((r = base_regime /\ tile_m t = prob_M cfg /\ tile_n t = prob_N cfg /\ tile_k t = prob_K cfg) \/
   independent_output_tiles cfg = true \/
   forall r', r' ∈ richer_regimes cfg -> walls_above cfg r' (estimated_cost_cycles t)) /\
  (r <> base_regime -> walls_above cfg base_regime (estimated_cost_cycles t + 1)) /\
  exists c, (c_m c, c_n c, c_k c, regime c) = (tile_m t, tile_n t, tile_k t, r) /\
    forall m n k, tile_ok cfg r m n k ->
      exists c', MakeCandidate cfg m n k (c_budget cfg r) r = Ok (Some c') /\ lex_le (rank cfg c) (rank cfg c') = true.
Proof.
  intros Ht Hf H. destruct (ChooseL0Tile_candidate cfg t Ht Hf H) as (Hv & Hbw & e & c & He & Ho & Em & En & Ek & Ew & _ & _ & Es & Ed & _).
  assert (Er : tile_regime t = regime c) by (unfold tile_regime; rewrite Es, Ed; by destruct (regime c)).
  cbv zeta. rewrite Er, Em, En, Ek, Ew.
  destruct (search_all_least cfg Ht Hv Hbw e (Some c) He Ho) as (base & Hbase & [(r & Hr & Hrc & Hs) Hall] & Hor).
  subst r. destruct Hs as [Hs1 Hs2]. destruct (Hs2 c eq_refl) as (Hok & _ & Hmk).
  pose proof (MakeCandidate_fields cfg _ _ _ _ _ _ Hmk) as (_ & _ & _ & _ & Hw & _).
  split; [destruct Hr as [?|(? & ? & _)]; [by left | by right] |].
  split; [by split |]. split; [apply Hall; by left |]. split; [|split].
  - destruct (independent_output_tiles cfg) eqn:Ei; [by right; left |].
    destruct (match base with Some b => is_untiled cfg b | None => false end) eqn:Eu.
    + destruct base as [b|]; [|done]. left. destruct Hor as [Hor|(c' & [= <-] & Hc' & _)].
      * injection Hor as ->. apply andb_true_iff in Eu as [[? ?]%andb_true_iff ?]. bool_to_prop.
        apply (search_regime_best cfg Ht Hv Hbw) in Hbase as [? _]. done.
      * destruct Hr as [Hr|(_ & _ & Hr)]; [|by rewrite Eu in Hr]. exfalso. revert Hc'. rewrite Hr. unfold richer_regimes.
        rewrite list_elem_of_In, filter_In. by intros [_ ?].
    + right. right. intros r' Hr'. apply Hall. right. split_and!; [done | done |]. by destruct base.
  - intros Hne. destruct Hor as [Hor|(c' & [= <-] & Hc' & Hlow)].
    + destruct base as [b|]; [|done]. injection Hor as <-. apply (search_regime_best cfg Ht Hv Hbw) in Hbase as [? _]. done.
    + destruct base as [b|].
      * specialize (Hlow b eq_refl). eapply (walls_above_le cfg _ (cost_cycles b)); [lia |].
        by apply best_in_wall, (search_regime_best cfg Ht Hv Hbw).
      * by apply (search_regime_none cfg Ht Hv Hbw).
  - exists c. split; [done |]. intros m n k Htile. destruct (Hs1 m n k Htile) as (c' & b & Hc' & [= <-] & Hle). by exists c'.
Qed.

(** A small core, and the costs of the repository's tests. *)
Definition small_core (dims : Z * Z * Z) : L0TileConfig :=
  let d n := double_div (double_of_Z n) (double_of_Z 100) in
  MkConfig dims.1.1 dims.1.2 dims.2 1 1 false 4096 4096 8192 2 2 4 16 16 16 16 16 16 16 1 1 0 0 0
    true true true false (d 12970) (d 8540) (d 11800) (d 16400) (d 445) (d 260) 32 21 32 2 false false.

Lemma small_core_typed M N K : M < 2 ^ 31 -> N < 2 ^ 31 -> K < 2 ^ 31 -> typed (small_core (M, N, K)).
Proof. intros. constructor; cbn; lia. Qed.

Lemma small_core_bandwidths dims : finite_bandwidths (small_core dims).
Proof. split; by vm_compute. Qed.

Definition small_tile : L0TileResult :=
  MkTile 32 64 32 24576 692 131072 kBStationary false false EmptyString.

Lemma small_core_tile : ChooseL0Tile (small_core (64, 64, 32)) = Ok small_tile.
Proof. vm_compute. reflexivity. Qed.

Lemma ChooseL0Tile_optimal_witness :
  walls_above (small_core (64, 64, 32)) base_regime 693 /\
  walls_above (small_core (64, 64, 32)) (MkRegime kAStationary true) 692.
Proof.
  destruct (ChooseL0Tile_optimal (small_core (64, 64, 32)) small_tile) as (_ & _ & _ & Hall & Hlow & _).
  - apply small_core_typed; lia.
  - apply small_core_bandwidths.
  - exact small_core_tile.
  - split; [by apply Hlow |]. destruct Hall as [[? _]|[?|Hall]]; [done | done |].
    apply Hall. vm_compute. repeat (constructor || (apply elem_of_list_further)).
Defined.

(** The tile lies in the problem, is aligned, and its buffers fit: the slots of
    both operands under every pipeline that holds them, and the accumulators. *)
(** C23: The tile ChooseL0Tile returns lies within the problem (or the padded problem), is
    aligned, has a k the pass can emit, and fits the buffers of the core in bytes: the boxed
    operands in every slot their pipelines hold, peeled tail included, and the boxed rows of
    one or two accumulators; a held operand and a second accumulator imply that K is not
    split. *)
Theorem ChooseL0Tile_fits cfg t :
  typed cfg -> finite_bandwidths cfg -> ChooseL0Tile cfg = Ok t ->
  let m := tile_m t in let n := tile_n t in let k := tile_k t in
  let db := DeriveOperandDB (stationarity t) in
  (min_m cfg <= m <= limit_m cfg /\ min_n cfg <= n <= limit_n cfg /\ min_k cfg <= k <= limit_k cfg) /\
  ((align_m cfg | m - min_m cfg) /\ (align_n cfg | n - min_n cfg) /\ (align_k cfg | k) /\ k_emitted cfg k) /\
  box_m cfg m * stored cfg (db_a db) k * bytes_a cfg <= l0a_bytes cfg /\
  box_n cfg n * stored cfg (db_b db) k * bytes_b cfg <= l0b_bytes cfg /\
  box_m cfg m * k * depth (db_a db) * bytes_a cfg <= l0a_bytes cfg /\
  box_n cfg n * k * depth (db_b db) * bytes_b cfg <= l0b_bytes cfg /\
  rows cfg m * box_n cfg n * (if double_buffer_c t then 2 else 1) * bytes_c cfg <= l0c_bytes cfg /\
  (stationarity t <> kOutputStationary \/ double_buffer_c t = true -> k = prob_K cfg).
Proof.
  intros Ht Hf H. destruct (ChooseL0Tile_candidate cfg t Ht Hf H) as (Hv & Hbw & e & c & He & Ho & Em & En & Ek & _ & _ & _ & Es & Ed & _).
  destruct (search_all_least cfg Ht Hv Hbw e (Some c) He Ho) as (base & _ & [(r & _ & Hrc & _ & Hs2) _] & _).
  destruct (Hs2 c eq_refl) as ([Hm1 Hn1 Hk1 HA HB SA SB HC Hfull _ _] & _). subst r. cbv zeta. rewrite Em, En, Ek, Es, Ed.
  destruct Hv as [_ _ _ _ Hbytes _ _ _ _ _ _].
  assert (Hdepth : forall b : bool, 0 < depth b) by (by intros []).
  assert (Hcap : forall x cap b, 0 < b -> x <= cap / b -> x * b <= cap) by (intros x cap b Hb Hx; pose proof (Z.mul_div_le cap b Hb); nia).
  split; [lia |]. split; [tauto |].
  split; [by apply Hcap in SA; [|lia] |]. split; [by apply Hcap in SB; [|lia] |].
  apply Hcap in HA; [|specialize (Hdepth (db_a (DeriveOperandDB (stat (regime c))))); lia].
  apply Hcap in HB; [|specialize (Hdepth (db_b (DeriveOperandDB (stat (regime c))))); lia].
  apply Hcap in HC; [|destruct (dbc (regime c)); lia].
  split_and!; [lia | lia | lia |]. intros Hr. apply Hfull. unfold full_k_regime. apply orb_true_iff.
  destruct Hr as [Hr|Hr]; [left | by right]. by rewrite bool_decide_eq_false_2.
Qed.

Lemma ChooseL0Tile_fits_witness :
  rows (small_core (64, 64, 32)) 32 * box_n (small_core (64, 64, 32)) 64 * 1 * 4 <= 8192 /\
  box_n (small_core (64, 64, 32)) 64 * stored (small_core (64, 64, 32)) false 32 * 2 <= 4096.
Proof.
  destruct (ChooseL0Tile_fits (small_core (64, 64, 32)) small_tile) as (_ & _ & _ & HB & _ & _ & HC & _).
  - apply small_core_typed; lia.
  - apply small_core_bandwidths.
  - exact small_core_tile.
  - split; [exact HC | exact HB].
Defined.
