(* ===== verification/L0TileBounds.v ===== *)
(** * Bounds of the tile search

    For problems of up to [2 ^ 15] in each dimension no step of
    [ChooseL0Tile] overflows, divides by zero or rounds a number that is not
    one: it returns a tile or throws. *)

From Stdlib Require Import ZArith Lia Bool List String Sorted.
From Stdlib Require Import SpecFloat.
From stdpp Require Import base list option strings.
From S2P Require Import Prelude Double Storage L0Tile L0TileSound.

(** ** Runs without undefined behaviour *)

(** [m] throws, or returns a value with [Q]. *)
Definition safe {A} (m : result A) (Q : A -> Prop) : Prop :=
  match m with Ok a => Q a | Err e => e = CheckFailed \/ e = InternalError end.

Lemma safe_bind {A B} (m : result A) (k : A -> result B) Q :
  safe m (fun a => safe (k a) Q) -> safe (bind m k) Q.
Proof. by destruct m. Qed.

Lemma safe_weaken {A} (m : result A) (P Q : A -> Prop) : (forall a, P a -> Q a) -> safe m P -> safe m Q.
Proof. intros H. destruct m; cbn; auto. Qed.

Lemma safe_then {A B} (m : result A) (k : A -> result B) P Q :
  safe m P -> (forall a, P a -> safe (k a) Q) -> safe (bind m k) Q.
Proof. intros Hm Hk. apply safe_bind. by eapply safe_weaken. Qed.

Lemma safe_require b (Q : unit -> Prop) : (b = true -> Q tt) -> safe (require b CheckFailed) Q.
Proof. destruct b; cbn; auto. Qed.

Lemma safe_iff {A} (m : result A) : safe m (fun _ => True) <-> (forall e, m = Err e -> e = CheckFailed \/ e = InternalError).
Proof. destruct m as [a|e]; cbn; split; try done; [by intros ? e' [= <-] | auto]. Qed.

Lemma mul_bounds x y X Y : 0 <= x <= X -> 0 <= y <= Y -> 0 <= x * y <= X * Y.
Proof. nia. Qed.

Lemma mul64_value a b : 0 <= a * b <= INT64_MAX -> mul64 a b = Ok (a * b).
Proof. intros H. apply checked_in. lia64. Qed.

Lemma add64_value a b : 0 <= a + b <= INT64_MAX -> add64 a b = Ok (a + b).
Proof. intros H. apply checked_in. lia64. Qed.

(** A product of results, and a bound of it. *)
Definition between (m : result Z) (z X : Z) : Prop := m = Ok z /\ 0 <= z <= X.

Lemma times_between a b x y X Y :
  between a x X -> between b y Y -> X * Y <= INT64_MAX -> between (times a b) (x * y) (X * Y).
Proof.
  intros [-> Hx] [-> Hy] Hle. pose proof (mul_bounds _ _ _ _ Hx Hy). unfold times. cbn [bind].
  split; [apply mul64_value; lia | lia].
Qed.

(** A product with a bound of its own. *)
Lemma times_within a b x y X Y Z :
  between a x X -> between b y Y -> x * y <= Z -> Z <= INT64_MAX -> between (times a b) (x * y) Z.
Proof.
  intros [-> Hx] [-> Hy] HZ Hle. assert (0 <= x * y) by nia. unfold times. cbn [bind].
  split; [apply mul64_value; lia | lia].
Qed.

Lemma mul64_between a b A B : 0 <= a <= A -> 0 <= b <= B -> A * B <= INT64_MAX -> between (mul64 a b) (a * b) (A * B).
Proof. intros Ha Hb Hle. pose proof (mul_bounds _ _ _ _ Ha Hb). split; [apply mul64_value; lia | lia]. Qed.

Lemma ok_between a A : 0 <= a <= A -> between (Ok a) a A.
Proof. by split. Qed.

(** [ceil(a / b)]. *)
Definition ceil (a b : Z) : Z := (a + b - 1) / b.

Lemma ceil_spec a b : 0 < a -> 0 < b -> 0 < ceil a b <= a /\ a <= ceil a b * b < a + b.
Proof.
  intros Ha Hb. unfold ceil. pose proof (Z.div_mod (a + b - 1) b ltac:(lia)) as Hd.
  pose proof (Z.mod_pos_bound (a + b - 1) b Hb). split; [|nia].
  split; [apply Z.div_str_pos; lia |]. apply Z.lt_succ_r, Z.div_lt_upper_bound; nia.
Qed.

Lemma CeilDiv_between a b A :
  0 < a <= A -> A <= 2 ^ 32 -> 0 < b <= 2 ^ 32 -> between (CeilDiv a b) (ceil a b) A.
Proof. intros Ha HA Hb. pose proof (ceil_spec a b). split; [apply CeilDiv_value; lia | lia]. Qed.

Section Config.
Context (cfg : L0TileConfig).
Abbreviation M := (prob_M cfg).
Abbreviation N := (prob_N cfg).
Abbreviation K := (prob_K cfg).

(** Problems and machines of moderate size. *)
Record moderate : Prop := {
  dims_small : M <= 2 ^ 15 /\ N <= 2 ^ 15 /\ K <= 2 ^ 15;
  aligns_small : align_m cfg <= 2 ^ 15 /\ align_n cfg <= 2 ^ 15 /\ align_k cfg <= 2 ^ 15 /\ min_k cfg <= 2 ^ 15;
  bytes_small : bytes_a cfg <= 8 /\ bytes_b cfg <= 8 /\ bytes_c cfg <= 8;
  mad_small : 0 <= mad_head cfg <= 2 ^ 10 /\ 0 <= mad_k_fractal_bytes cfg /\ 0 <= mad_fp32_passes cfg <= 2 ^ 4
}.

(** The rates the inputs are checked for. *)
Record rates_ok : Prop := {
  bandwidths_nonneg : nonneg (bw_a cfg) /\ nonneg (bw_b cfg) /\ nonneg (bw_drain cfg);
  drain_costs : not_negative (drain_row_cycles cfg) /\ not_negative (drain_penalty_cycles cfg)
                /\ not_negative (drain_fixed_cycles cfg)
}.

Lemma validate_rates u : validate cfg = Ok u -> rates_ok.
Proof.
  assert (Hpos : forall f, SFltb (double_of_Z 0) f = true -> nonneg f) by (intros [|[]| |[]]; done).
  assert (Hnon : forall f, SFleb (double_of_Z 0) f = true -> not_negative f) by (intros [|[]| |[]]; done).
  unfold validate. intros H. do 10 (apply bind_ok in H as (? & _ & H)).
  apply bind_ok in H as (? & Hbw%require_ok & H). apply bind_ok in H as (? & Hd%require_ok & _).
  apply andb_true_iff in Hbw as [[? ?]%andb_true_iff ?], Hd as [[[_ ?]%andb_true_iff ?]%andb_true_iff ?].
  constructor; split_and!; by apply Hpos || apply Hnon.
Qed.

Section Moderate.
Hypothesis (Ht : typed cfg) (Hv : valid cfg) (Hm : moderate) (Hr : rates_ok).

(** The extents of a tile the search visits. *)
Record extent_ok (m n k : Z) : Prop := {
  m_small : 0 < m <= 2 ^ 16;
  n_small : 0 < n <= 2 ^ 16;
  k_small : 0 < k <= 2 ^ 16
}.

Lemma dims : (0 < M <= 2 ^ 15) /\ (0 < N <= 2 ^ 15) /\ (0 < K <= 2 ^ 15).
Proof. destruct Hm as [? ? ? ?], Hv as [? ? ? ? ? ? ? ? ? ? ?]. lia. Qed.

Lemma widths : (0 < bytes_a cfg <= 8) /\ (0 < bytes_b cfg <= 8) /\ (0 < bytes_c cfg <= 8).
Proof. destruct Hm as [? ? ? ?], Hv as [? ? ? ? ? ? ? ? ? ? ?]. lia. Qed.

Lemma ceils m n k : extent_ok m n k ->
  between (CeilDiv M m) (ceil M m) (2 ^ 15) /\ between (CeilDiv N n) (ceil N n) (2 ^ 15) /\
  between (CeilDiv K k) (ceil K k) (2 ^ 15).
Proof. intros [? ? ?]. pose proof dims as (? & ? & ?). split_and!; apply CeilDiv_between; lia. Qed.

(** ** Costs *)

Lemma repetitions_bounds : 1 <= ReductionRepetitions cfg < 2 ^ 31.
Proof. destruct Ht as [? ? ? ? [_ ?] ? ? ? ?]. unfold ReductionRepetitions. lia. Qed.

Lemma RepeatedReductionWork_safe work : safe (RepeatedReductionWork cfg work) (fun z => 0 <= z).
Proof.
  pose proof repetitions_bounds. unfold RepeatedReductionWork. rewrite div64_value by lia64. cbn [bind].
  apply safe_bind, safe_require. intros [H0 H1]%andb_true_iff. bool_to_prop.
  pose proof (Z.mul_div_le INT64_MAX (ReductionRepetitions cfg)). rewrite mul64_value by nia. cbn. nia.
Qed.

Lemma operand_traffic_between ra rb :
  0 <= ra <= 2 ^ 15 -> 0 <= rb <= 2 ^ 15 ->
  exists a b, operand_traffic cfg ra rb = Ok (a, b) /\ 0 <= a <= 2 ^ 48 /\ 0 <= b <= 2 ^ 48.
Proof.
  intros Ha Hb. pose proof dims as (HM & HN & HK). pose proof widths as (Wa & Wb & _). unfold operand_traffic.
  assert (HA : between (times (times (mul64 (bytes_a cfg) M) (Ok K)) (Ok ra)) (bytes_a cfg * M * K * ra) (8 * 2 ^ 15 * 2 ^ 15 * 2 ^ 15)).
  { repeat apply times_between; try apply mul64_between; try apply ok_between; lia64. }
  assert (HB : between (times (times (mul64 (bytes_b cfg) K) (Ok N)) (Ok rb)) (bytes_b cfg * K * N * rb) (8 * 2 ^ 15 * 2 ^ 15 * 2 ^ 15)).
  { repeat apply times_between; try apply mul64_between; try apply ok_between; lia64. }
  destruct HA as [-> HA], HB as [-> HB]. cbn [bind]. by do 2 eexists.
Qed.

Lemma OSHoldsHoldA_ok m n k : extent_ok m n k -> exists b, OSHoldsHoldA cfg m n = Ok b.
Proof.
  intros Hx. destruct (ceils _ _ _ Hx) as ([Em _] & [En _] & _). unfold OSHoldsHoldA. rewrite Em, En. by eexists.
Qed.

Lemma EstimateTraffic_safe m n k r : extent_ok m n k -> safe (EstimateTraffic cfg m n k r) (fun _ => True).
Proof.
  intros Hx. destruct (ceils _ _ _ Hx) as ([Em Bm] & [En Bn] & _). destruct (OSHoldsHoldA_ok _ _ _ Hx) as [h Eh].
  pose proof dims as (HM & HN & HK). pose proof widths as (_ & _ & Wc). pose proof repetitions_bounds as Hrep.
  unfold EstimateTraffic. rewrite Em, En. cbn [bind].
  assert (Hop : forall ra rb k', 0 <= ra <= 2 ^ 15 -> 0 <= rb <= 2 ^ 15 ->
      (forall a b, 0 <= a <= 2 ^ 48 -> 0 <= b <= 2 ^ 48 -> safe (k' (a, b)) (fun _ : Z => True)) ->
      safe (bind (operand_traffic cfg ra rb) k') (fun _ => True)).
  { intros ra rb k' Ha Hb Hk. destruct (operand_traffic_between ra rb Ha Hb) as (a & b & -> & ? & ?). by apply Hk. }
  assert (Hc : between (times (times (mul64 (if c_read cfg then 2 else 1) (bytes_c cfg)) (Ok M)) (Ok N))
      ((if c_read cfg then 2 else 1) * bytes_c cfg * M * N) (2 * 8 * 2 ^ 15 * 2 ^ 15)).
  { repeat apply times_between; try apply mul64_between; try apply ok_between; try lia64. by destruct (c_read cfg). }
  destruct Hc as [Ec Hc]. set (c := _ * N) in *. clearbody c.
  assert (Hrest : forall a b, 0 <= a <= 2 ^ 48 -> 0 <= b <= 2 ^ 48 ->
    safe (let* operands := add64 a b in
          let* room := sub64 INT64_MAX c in
          let* limit := div64 room (ReductionRepetitions cfg) in
          let* _ := require (operands <=? limit) CheckFailed in
          let* repeated := mul64 operands (ReductionRepetitions cfg) in
          add64 repeated c) (fun _ => True)).
  { intros a b Ha Hb. rewrite add64_value by lia64. cbn [bind]. unfold sub64. rewrite checked_in by lia64. cbn [bind].
    rewrite div64_value by lia64. cbn [bind]. apply safe_bind, safe_require. intros Hle. bool_to_prop.
    pose proof (Z.mul_div_le (INT64_MAX - c) (ReductionRepetitions cfg)).
    assert (0 <= (a + b) * ReductionRepetitions cfg <= INT64_MAX - c) by nia.
    rewrite mul64_value by lia. cbn [bind]. by rewrite add64_value by lia. }
  cbv zeta. rewrite Ec. cbn [bind].
  destruct (stat r); [destruct (_ && _); [rewrite Eh; cbn [bind]; destruct h |] | |]; by apply Hop; [lia | lia | apply Hrest].
Qed.

Lemma PaddedComputeVolume_safe m n k : extent_ok m n k -> safe (PaddedComputeVolume cfg m n k) (fun _ => True).
Proof.
  intros Hx. destruct (ceils _ _ _ Hx) as (Bm & Bn & Bk). destruct Hx as [Hm' Hn' Hk'].
  pose proof dims as (HM & HN & HK). unfold PaddedComputeVolume.
  assert (Cm : 0 <= ceil M m * m <= 2 ^ 17) by (pose proof (ceil_spec M m); lia).
  assert (Cn : 0 <= ceil N n * n <= 2 ^ 17) by (pose proof (ceil_spec N n); lia).
  assert (Ck : 0 <= ceil K k * k <= 2 ^ 17) by (pose proof (ceil_spec K k); lia).
  pose proof (mul_bounds _ _ _ _ Cm Cn) as Cmn. pose proof (mul_bounds _ _ _ _ Cmn Ck) as Cmnk.
  assert (H1 : between (times (CeilDiv M m) (Ok m)) (ceil M m * m) (2 ^ 17)).
  { eapply times_within; [exact Bm | apply (ok_between m m); lia | lia | lia64]. }
  assert (H2 : between (times (times (CeilDiv M m) (Ok m)) (CeilDiv N n)) (ceil M m * m * ceil N n) (2 ^ 17 * 2 ^ 15)).
  { apply times_between; [exact H1 | exact Bn | lia64]. }
  assert (H3 : between (times (times (times (CeilDiv M m) (Ok m)) (CeilDiv N n)) (Ok n)) (ceil M m * m * ceil N n * n) (2 ^ 17 * 2 ^ 17)).
  { eapply times_within; [exact H2 | apply (ok_between n n); lia | lia | lia64]. }
  assert (H4 := times_between _ _ _ _ _ _ H3 Bk ltac:(lia64)).
  destruct (times_within _ _ _ _ _ _ (2 ^ 51) H4 (ok_between k k ltac:(lia)) ltac:(lia) ltac:(lia64)) as [-> _]. cbn [bind].
  eapply safe_weaken; [|apply RepeatedReductionWork_safe]. done.
Qed.

(** The steps of [MadCycles] along [K]. *)
Lemma mad_fractals k kt :
  0 < k <= 2 ^ 16 -> 0 < kt <= 2 ^ 31 ->
  exists nf kf kb,
    0 <= kf <= 2 ^ 15 /\ 0 <= kb <= 2 ^ 16 /\ div64 K k = Ok nf /\ mul64 nf k = Ok (nf * k) /\
    sub64 K (nf * k) = Ok (K - nf * k) /\ add64 nf (if K - nf * k >? 0 then 1 else 0) = Ok kb /\
    exists full tail, times (Ok nf) (CeilDiv k kt) = Ok full /\
      (if K - nf * k >? 0 then CeilDiv (K - nf * k) kt else Ok 0) = Ok tail /\ add64 full tail = Ok kf.
Proof.
  intros Hk Hkt. pose proof dims as (_ & _ & HK).
  pose proof (Z.div_mod K k ltac:(lia)) as Hd. pose proof (Z.mod_pos_bound K k ltac:(lia)) as Hmod.
  set (nf := K / k) in *. assert (Hnf : 0 <= nf <= K) by nia. assert (Htail : 0 <= K - nf * k < k) by lia.
  pose proof (ceil_spec k kt ltac:(lia) ltac:(lia)) as [Hc _].
  set (tail := if K - nf * k >? 0 then ceil (K - nf * k) kt else 0).
  assert (Htl : (if K - nf * k >? 0 then CeilDiv (K - nf * k) kt else Ok 0) = Ok tail /\ 0 <= tail <= K - nf * k).
  { unfold tail. destruct (_ >? _) eqn:E; bool_to_prop; [|split; [done | lia]].
    pose proof (ceil_spec (K - nf * k) kt). split; [apply CeilDiv_value; lia | lia]. }
  destruct Htl as [Etl Htl]. assert (Hfull : 0 <= nf * ceil k kt <= nf * k) by nia.
  exists nf, (nf * ceil k kt + tail), (nf + if K - nf * k >? 0 then 1 else 0).
  split_and!; [lia | lia | case_match; lia | case_match; lia | unfold nf; apply div64_value; lia64 |
    apply mul64_value; lia64 | apply checked_in; lia64 | apply add64_value; case_match; lia64 |].
  exists (nf * ceil k kt), tail. split_and!; [| done | apply add64_value; lia64].
  unfold times. cbn [bind]. rewrite CeilDiv_value by lia. cbn [bind]. apply mul64_value. fold (ceil k kt). lia64.
Qed.

Lemma MadCycles_safe m n k : extent_ok m n k -> safe (MadCycles cfg m n k) (fun z => 0 <= z).
Proof.
  intros Hx. destruct (ceils _ _ _ Hx) as (Bm & Bn & _). destruct Hx as [Hm' Hn' Hk'].
  pose proof dims as (HM & HN & HK). pose proof widths as (Wa & _ & _).
  destruct Ht as [_ _ _ _ _ _ _ _ (_ & Hkf & _)], Hv as [_ _ _ _ _ _ (Am & An & _) _ _ _ _], Hm as [_ (Am' & An' & _) _ (Hh & Hf0 & Hp)].
  unfold MadCycles. rewrite div64_value by lia64. cbn [bind]. cbv zeta.
  set (kt := Z.max 1 _). assert (Hkt : 0 < kt <= 2 ^ 31).
  { unfold kt. pose proof (Z.div_pos (mad_k_fractal_bytes cfg) (bytes_a cfg)).
    pose proof (Z.div_le_upper_bound (mad_k_fractal_bytes cfg) (bytes_a cfg) (2 ^ 31) ltac:(lia)). nia. }
  destruct (mad_fractals k kt Hk' Hkt) as (nf & kf & kb & Bkf & Bkb & -> & E1 & E2 & E3 & full & tail & E4 & E5 & E6).
  cbn [bind]. rewrite E1. cbn [bind]. rewrite E2. cbn [bind]. rewrite E3. cbn [bind]. rewrite E4. cbn [bind]. rewrite E5.
  cbn [bind]. rewrite E6. cbn [bind].
  pose proof (mul_bounds _ _ _ _ Bkb Hh) as Bhead. rewrite mul64_value by lia64. cbn [bind].
  set (cpr := if _ =? 4 then _ else _). assert (Hcpr : 0 <= cpr <= 2 ^ 4).
  { unfold cpr. rewrite Z.quot_div_nonneg by lia. pose proof (Z.div_le_upper_bound (bytes_a cfg) 2 8).
    destruct (bytes_a cfg =? 4); lia. }
  pose proof (ceil_spec m (align_m cfg) ltac:(lia) Am) as [Cm _]. pose proof (ceil_spec n (align_n cfg) ltac:(lia) An) as [Cn _].
  assert (Hcube : between (times (times (times (Ok cpr) (CeilDiv m (align_m cfg))) (Ok kf)) (CeilDiv n (align_n cfg)))
    (cpr * ceil m (align_m cfg) * kf * ceil n (align_n cfg)) (2 ^ 4 * 2 ^ 16 * 2 ^ 15 * 2 ^ 16)).
  { repeat apply times_between; try apply ok_between; try lia64; apply CeilDiv_between; lia. }
  destruct Hcube as [-> Bcube]. cbn [bind]. rewrite add64_value by lia64. cbn [bind].
  destruct (times_between _ _ _ _ _ _ Bm Bn ltac:(lia64)) as [Et Bt]. unfold times at 1. rewrite Et. cbn [bind].
  assert (Hwork : 0 <= ceil M m * ceil N n * (kb * mad_head cfg + cpr * ceil m (align_m cfg) * kf * ceil n (align_n cfg)) <= INT64_MAX).
  { pose proof (mul_bounds _ _ _ _ Bt Bhead) as H1.
    assert (Dm : 0 <= ceil M m * ceil m (align_m cfg) <= 2 ^ 17) by (pose proof (ceil_spec M m); nia).
    assert (Dn : 0 <= ceil N n * ceil n (align_n cfg) <= 2 ^ 17) by (pose proof (ceil_spec N n); nia).
    pose proof (mul_bounds _ _ _ _ (mul_bounds _ _ _ _ Hcpr Bkf) (mul_bounds _ _ _ _ Dm Dn)) as H2. lia64. }
  rewrite mul64_value by done. cbn [bind]. apply RepeatedReductionWork_safe.
Qed.

Lemma volume_not_negative b x y : 0 <= b -> 0 <= x -> 0 <= y -> not_negative (volume b x y).
Proof. intros. unfold volume. auto with pypto. Qed.
#[local] Hint Resolve volume_not_negative : pypto.
#[local] Hint Extern 4 (0 <= _) => lia : pypto.

Lemma LoadCycles_safe m n k r : extent_ok m n k -> safe (LoadCycles cfg m n k r) not_negative.
Proof.
  intros Hx. destruct (ceils _ _ _ Hx) as ([Em Bm] & [En Bn] & _). destruct (OSHoldsHoldA_ok _ _ _ Hx) as [h Eh].
  pose proof dims as (HM & HN & HK). pose proof widths as (Wa & Wb & _). destruct Hr as [(Ba & Bb & _) _].
  assert (HA : not_negative (held_a cfg (ceil M m))) by (unfold held_a; auto 8 with pypto).
  assert (HB : not_negative (held_b cfg (ceil N n))) by (unfold held_b; auto 8 with pypto).
  assert (HC : not_negative (restreamed cfg (ceil M m) (ceil N n))) by (unfold restreamed; auto 8 with pypto).
  unfold LoadCycles. rewrite Em, En. cbn [bind]. destruct (stat r); [|done..].
  destruct (_ && _); [|done]. rewrite Eh. cbn [bind]. by destruct h.
Qed.

Lemma repeated_load_safe m n k r :
  extent_ok m n k -> safe (repeated_load cfg m n k r) (fun f => not_negative f /\ short f).
Proof.
  intros Hx. pose proof repetitions_bounds. eapply safe_then; [by apply LoadCycles_safe |].
  intros f Hf. cbn. split; auto with pypto.
Qed.

Lemma OddPart_pos x : 0 < x -> exists y, OddPart x = Ok y /\ 0 < y.
Proof. destruct x; try lia. intros _. by eexists. Qed.

Lemma drains m n k : extent_ok m n k ->
  between (times (CeilDiv M m) (CeilDiv N n)) (ceil M m * ceil N n) (2 ^ 15 * 2 ^ 15).
Proof. intros Hx. destruct (ceils _ _ _ Hx) as (Bm & Bn & _). by apply times_between. Qed.

Lemma DrainCycles_safe m n k :
  extent_ok m n k -> safe (DrainCycles cfg m n) (fun f => not_negative f /\ short f).
Proof.
  intros Hx. destruct (drains _ _ _ Hx) as [Ed Bd]. destruct Hx as [Bm Bn _]. pose proof widths as (_ & _ & Wc).
  destruct Ht as [_ _ _ _ _ _ _ _ (_ & _ & _ & Hc0)], Hv as [_ _ _ _ _ _ _ _ _ Hd _], Hr as [(_ & _ & Bw) (Hrow & Hpen & Hfix)].
  unfold DrainCycles. rewrite Ed. cbn [bind]. rewrite div64_value by lia64. cbn [bind].
  pose proof (Z.div_le_upper_bound (drain_c0_bytes cfg) (bytes_c cfg) (2 ^ 31) ltac:(lia)) as Hq.
  destruct (CeilDiv_between n (Z.max 1 (drain_c0_bytes cfg / bytes_c cfg)) (2 ^ 16)) as [-> _]; [lia | lia | nia |].
  cbn [bind]. pose proof (ceil_spec n (Z.max 1 (drain_c0_bytes cfg / bytes_c cfg)) ltac:(lia) ltac:(lia)) as [[Hpos _] _].
  destruct (OddPart_pos _ Hpos) as (odd & -> & Hodd). cbn. split; [|auto with pypto].
  repeat match goal with |- not_negative (double_mul _ _) => apply double_mul_not_negative
    | |- not_negative (double_add _ _) => apply double_add_not_negative end; auto 8 with pypto.
Qed.

Lemma WallCycles_safe m n k r : extent_ok m n k -> safe (WallCycles cfg m n k r) (fun _ => True).
Proof.
  intros Hx. destruct (drains _ _ _ Hx) as [Ed Bd]. unfold WallCycles.
  eapply safe_then; [by apply repeated_load_safe |]. intros load [Hl Sl].
  eapply safe_then; [by apply MadCycles_safe |]. intros mad Hmad. cbv zeta.
  eapply safe_then; [by eapply DrainCycles_safe |]. intros drain [Hd Sd]. rewrite Ed. cbn [bind].
  cbv beta in Hmad. set (compute := double_max load (double_of_Z mad)).
  assert (Hc : not_negative compute /\ short compute).
  { unfold compute. split; [auto with pypto | apply double_max_short; [done | apply binary_normalize_short]]. }
  destruct Hc as [Hc Sc].
  apply (safe_then _ _ (fun f => not_negative f /\ short f)).
  { destruct (dbc r); cbn; split; auto 8 with pypto. }
  intros wall [Hw Sw]. destruct (_ && _) eqn:E; cbn [require bind]; [|by right].
  apply andb_true_iff in E as [Efin Ele]. by destruct (llround_bounded wall Sw Hw Efin Ele) as (z & -> & _).
Qed.

(** ** Candidates *)

Definition best_ok (o : option Candidate) : Prop :=
  match o with Some c => extent_ok (c_m c) (c_n c) (c_k c) | None => True end.

Lemma Better_safe a b : best_ok (Some a) -> best_ok (Some b) -> safe (Better cfg a b) (fun _ => True).
Proof.
  intros Ha Hb. destruct (ceils _ _ _ Ha) as (_ & _ & [Ea _]), (ceils _ _ _ Hb) as (_ & _ & [Eb _]).
  destruct Ha as [Am An _], Hb as [Bm Bn _]. unfold Better. do 2 (case_match; [done |]). rewrite Ea, Eb. cbn [bind].
  do 2 (case_match; [done |]). rewrite !mul64_value by (split; [nia | unfold INT64_MAX; nia]). cbn [bind]. by case_match.
Qed.

Lemma improve_safe best c : best_ok best -> best_ok c -> safe (improve cfg best c) best_ok.
Proof.
  intros Hb Hc. destruct c as [c|], best as [b|]; try done. eapply safe_then; [by apply Better_safe |].
  by intros [] _.
Qed.

Lemma pipelined_n_ok_safe m n k s : extent_ok m n k -> safe (pipelined_n_ok cfg m n k s) (fun _ => True).
Proof.
  intros Hx. destruct (OSHoldsHoldA_ok _ _ _ Hx) as [h Eh]. unfold pipelined_n_ok. rewrite Eh.
  destruct (bool_decide (s = kOutputStationary)); cbn [bind]; by repeat case_match.
Qed.

Lemma MakeCandidate_safe m n k C0 r : extent_ok m n k -> safe (MakeCandidate cfg m n k C0 r) best_ok.
Proof.
  intros Hx. unfold MakeCandidate. do 2 (case_match; [done |]).
  eapply safe_then; [by apply pipelined_n_ok_safe |]. intros b _. do 2 (case_match; [done |]).
  destruct (CandidateL0cPhysicalElements cfg m n); [|done]. case_match; [done |].
  eapply safe_then; [by apply EstimateTraffic_safe |]. intros tr _.
  eapply safe_then; [by apply WallCycles_safe |]. intros cost _.
  eapply safe_then; [by apply PaddedComputeVolume_safe |]. intros padded _.
  eapply safe_then; [by apply repeated_load_safe |]. by intros load _.
Qed.

(** ** The scans *)

Lemma stored_k_ok moving k : 0 < k <= 2 ^ 16 -> stored_k cfg moving k = Ok (stored cfg moving k).
Proof.
  intros Hk. pose proof dims as (_ & _ & HK).
  destruct Ht as [_ _ _ _ [Hs _] _ _ _ _], Hv as [_ _ Hs' _ _ _ _ _ _ _ _].
  pose proof (Z.mod_pos_bound K k ltac:(lia)) as Hmod. unfold stored_k, stored.
  rewrite div64_value, rem64_value by lia64. cbn [bind]. cbv zeta. change (if moving then 2 else 1) with (depth moving).
  assert (Hd : 1 <= depth moving <= 2) by (by destruct moving).
  set (tail := if _ && _ then _ else _). assert (Htl : 0 <= tail <= 2 ^ 16) by (unfold tail; case_match; lia).
  set (d := if k <? K then _ else _). assert (Hdd : 0 <= d <= 2 ^ 32) by (unfold d; case_match; nia).
  pose proof (mul_bounds tail (reduction_pipeline_stages cfg) _ (2 ^ 31) Htl ltac:(lia)).
  pose proof (mul_bounds d k _ (2 ^ 16) Hdd ltac:(lia)).
  rewrite mul64_value by lia64. cbn [bind]. rewrite mul64_value by lia64. cbn [bind]. apply add64_value. lia64.
Qed.

Lemma operands_fit_safe r bm n k : 0 < k <= 2 ^ 16 -> safe (operands_fit cfg r bm n k) (fun _ => True).
Proof.
  intros Hk. unfold operands_fit. rewrite !stored_k_ok by done. cbn [bind].
  destruct (BoxedExtent n (box_align_n cfg)) as [bn|]; [|done].
  destruct Ht as [_ _ _ _ _ ? _ _ _], Hv as [_ _ _ ? ? _ _ _ _ _ _].
  destruct (rows_fit (l0a_bytes cfg) (bytes_a cfg) (stored cfg (db_a (DeriveOperandDB (stat r))) k) 0)
    as (wa & -> & _); [lia | lia | apply stored_pos; [done | lia] |]. cbn [bind]. case_match; [done |].
  destruct (rows_fit (l0b_bytes cfg) (bytes_b cfg) (stored cfg (db_b (DeriveOperandDB (stat r))) k) 0)
    as (wb & -> & _); [lia | lia | apply stored_pos; [done | lia] |]. done.
Qed.

Lemma scan_k_safe r C0 full bm m n ks : forall best,
  0 < m <= 2 ^ 16 -> 0 < n <= 2 ^ 16 -> (forall k, k ∈ ks -> 0 < k <= 2 ^ 16) ->
  best_ok best -> safe (scan_k cfg r C0 full bm m n ks best) best_ok.
Proof.
  induction ks as [|k ks IH]; intros best Hmm Hn Hks Hb; [done |]. cbn [scan_k].
  pose proof (Hks k ltac:(by left)) as Hk. eapply (safe_then _ _ best_ok).
  - case_match; [done |]. eapply safe_then; [by apply operands_fit_safe |]. intros fit _. case_match; [done |].
    rewrite !to_int_id by lia. eapply safe_then; [by apply MakeCandidate_safe | by intros; apply improve_safe].
  - intros best' Hb'. apply IH; try done. intros j Hj. apply Hks. by right.
Qed.

Lemma limit_k_small : limit_k cfg <= 2 ^ 16.
Proof.
  destruct Hm as [(_ & _ & ?) (_ & _ & ? & ?) _ _], Hv as [_ _ _ _ _ _ (_ & _ & ?) _ _ _ _]. unfold limit_k.
  case_match; [|lia]. pose proof (round_up_spec (Z.max K (min_k cfg)) (align_k cfg)). lia.
Qed.

Lemma PipelinedInnerFullTiles_safe m n k s :
  extent_ok m n k -> safe (PipelinedInnerFullTiles cfg m n s) (fun _ => True).
Proof.
  intros Hx. destruct (OSHoldsHoldA_ok _ _ _ Hx) as [h Eh]. destruct Hx as [? ? _]. pose proof dims as (? & ? & _).
  assert (Hd : forall b : bool, safe (if b then div64 N n else div64 M m) (fun _ => True)).
  { intros []; by rewrite div64_value by lia64. }
  unfold PipelinedInnerFullTiles, PipelinedRowsOuter. destruct s; rewrite ?Eh; [apply (Hd h) | apply (Hd true) | apply (Hd false)].
Qed.

Lemma scan_n_safe r A0 B0 C0 pair full bm m ns : forall best,
  0 <= A0 < 2 ^ 32 -> 0 <= B0 < 2 ^ 32 -> 0 < m <= 2 ^ 16 -> (forall n, n ∈ ns -> 0 < n <= 2 ^ 16) ->
  best_ok best -> safe (scan_n cfg r A0 B0 C0 pair full bm m ns best) best_ok.
Proof.
  induction ns as [|n ns IH]; intros best HA HB Hmm Hns Hb; [done |]. cbn [scan_n].
  pose proof (Hns n ltac:(by left)) as Hn. rewrite !to_int_id by lia.
  apply (safe_then _ _ (fun _ => True)).
  { case_match; [|done]. eapply safe_then; [by apply (PipelinedInnerFullTiles_safe m n 1) | done]. }
  intros skip _. eapply (safe_then _ _ best_ok).
  - destruct skip; [done |]. destruct (EnumerateLegalKs_spec cfg Ht Hv m n A0 B0) as (ks & -> & Hks); [lia | lia | done | done |].
    cbn [bind]. apply scan_k_safe; try done. intros k Hk%Hks. pose proof limit_k_small.
    destruct Hv as [_ _ _ _ _ (_ & _ & ?) _ _ _ _ _]. lia.
  - intros best' Hb'. apply IH; try done. intros j Hj. apply Hns. by right.
Qed.

Lemma scan_m_safe r A0 B0 C0 pair full n_hi ms : forall best,
  0 <= A0 < 2 ^ 32 -> 0 <= B0 < 2 ^ 32 -> 0 <= C0 < 2 ^ 32 -> n_hi <= 2 ^ 16 ->
  (forall m, m ∈ ms -> 0 < m <= 2 ^ 16) ->
  best_ok best -> safe (scan_m cfg r A0 B0 C0 pair full n_hi ms best) best_ok.
Proof.
  induction ms as [|m ms IH]; intros best HA HB HC Hhi Hms Hb; [done |]. cbn [scan_m].
  pose proof (Hms m ltac:(by left)) as Hmm. rewrite physical_rows_value by (done || lia). cbn [bind].
  destruct (_ >? C0); [done |]. pose proof (rows_bounds cfg Ht Hv m ltac:(lia)). rewrite div64_value by lia64. cbn [bind].
  eapply (safe_then _ _ best_ok).
  - apply scan_n_safe; try done. destruct Hv as [_ _ _ _ _ (_ & ? & _) (_ & ? & _) _ _ _ _].
    intros n [Hn _]%grid_in; lia.
  - intros best' Hb'. apply IH; try done. intros j Hj. apply Hms. by right.
Qed.

Lemma EnumerateBest_safe r A0 B0 C0 pair full :
  0 <= A0 < 2 ^ 32 -> 0 <= B0 < 2 ^ 32 -> 0 <= C0 < 2 ^ 32 ->
  safe (EnumerateBest cfg r A0 B0 C0 pair full) best_ok.
Proof.
  intros HA HB HC. pose proof dims as (HM & HN & _).
  destruct Hv as [_ _ _ _ _ (? & ? & _) (Am & An & _) _ _ _ _], Hm as [_ (? & ? & _) _ _]. unfold EnumerateBest.
  assert (Hup : forall x a, 0 < x <= 2 ^ 15 -> 0 < a <= 2 ^ 15 ->
    exists hi, (if allow_padding cfg then AlignUp x a else Ok x) = Ok hi /\ hi <= 2 ^ 16).
  { intros x a Hx Ha. case_match; [|exists x; split; [done | lia]]. exists (round_up x a).
    pose proof (round_up_spec x a). split; [apply AlignUp_value; lia | lia]. }
  destruct (Hup M (align_m cfg)) as (m_hi & -> & Hmh); [lia | lia |].
  destruct (Hup N (align_n cfg)) as (n_hi & -> & Hnh); [lia | lia |]. cbn [bind].
  apply scan_m_safe; try done; [destruct (max_n cfg >? 0); lia |]. intros m [Hmm _]%grid_in; lia.
Qed.

(** ** The search *)

Lemma search_regime_safe r : safe (search_regime cfg r) best_ok.
Proof.
  destruct (budgets cfg Ht Hv r) as (Ea & Eb & Ec & Ha & Hb & Hc). unfold search_regime. rewrite Ea, Eb, Ec. cbn [bind].
  by apply EnumerateBest_safe.
Qed.

Lemma search_richer_safe e rs : forall best, best_ok best -> safe (search_richer cfg e rs best) best_ok.
Proof.
  induction rs as [|r rs IH]; intros best Hb; [done |]. cbn [search_richer].
  destruct (budgets cfg Ht Hv r) as (_ & _ & -> & _). cbn [bind]. eapply (safe_then _ _ best_ok); [|done].
  case_match; [done |]. eapply safe_then; [apply search_regime_safe |]. intros cand Hc.
  unfold adopt_lower. by repeat case_match.
Qed.

Lemma search_all_safe e : safe (search_all cfg e) best_ok.
Proof.
  unfold search_all. eapply safe_then; [apply search_regime_safe |]. intros best Hb. cbv zeta.
  case_match; [by apply search_richer_safe | done].
Qed.

Lemma max_budget_value (budget : OperandDB -> result Z) allow s :
  (forall s, exists v, budget (DeriveOperandDB s) = Ok v /\ 0 <= v < 2 ^ 32) ->
  exists v, max_budget cfg budget allow s = Ok v /\ 0 <= v < 2 ^ 32.
Proof. intros H. unfold max_budget. case_match; apply H. Qed.

Lemma check_capacities_safe : safe (check_capacities cfg) (fun _ => True).
Proof.
  unfold check_capacities. cbv zeta.
  destruct (max_budget_value (L0aBudget cfg) (allow_a_stationary cfg) kAStationary) as (a0 & -> & Ha).
  { intros s. destruct (budgets cfg Ht Hv (MkRegime s false)) as (Ea & _ & _ & ? & _). by eexists. }
  destruct (max_budget_value (L0bBudget cfg) (allow_b_stationary cfg) kBStationary) as (b0 & -> & Hb).
  { intros s. destruct (budgets cfg Ht Hv (MkRegime s false)) as (_ & Eb & _ & _ & ? & _). by eexists. }
  destruct (budgets cfg Ht Hv base_regime) as (_ & _ & -> & _). cbn [bind].
  destruct Hv as [_ _ _ _ _ (_ & _ & ?) _ _ _ _ _]. rewrite div64_value by lia64. cbn [bind].
  apply safe_bind, safe_require. intros _. rewrite div64_value by lia64. cbn [bind].
  apply safe_bind, safe_require. intros _. case_match; [|by left]. by apply safe_bind, safe_require.
Qed.

End Moderate.

Lemma validate_safe : safe (validate cfg) (fun _ => True).
Proof. unfold validate. cbv zeta. repeat (apply safe_bind, safe_require; intros _). case_match; [|done]. repeat (apply safe_bind, safe_require; intros _). by apply safe_require. Qed.

End Config.

(** For moderate sizes the search returns a tile or throws: no overflow, no
    division by zero, no undefined rounding, and it ends. *)
(** C28: For problems of moderate size no step of ChooseL0Tile overflows int64_t, divides by
    zero, rounds a double out of range or fails to end: it returns a tile, or throws from a
    CHECK or an INTERNAL_CHECK. Moderate: M, N and K, the alignments of m, n and k and the
    least k are at most 2^15, elements have at most 8 bytes, the pipeline head has between 0
    and 2^10 cycles, an fp32 product between 0 and 16 passes, and the fractal bytes of k are
    not negative; the other members have any value of their C++ types, padded extents
    included (typed), and doubles are arbitrary. *)
Theorem ChooseL0Tile_defined cfg :
  typed cfg -> moderate cfg ->
  (exists t, ChooseL0Tile cfg = Ok t) \/ ChooseL0Tile cfg = Err CheckFailed \/ ChooseL0Tile cfg = Err InternalError.
Proof.
  intros Ht Hm.
  assert (Hs : safe (ChooseL0Tile cfg) (fun _ => True)).
  { unfold ChooseL0Tile. destruct (validate cfg) as [u|e] eqn:Eu.
    - pose proof (validate_valid cfg u Eu) as Hv. pose proof (validate_rates cfg u Eu) as Hr. cbn [bind].
      eapply safe_then; [by apply check_capacities_safe |]. intros e _.
      eapply safe_then; [by apply search_all_safe |]. intros [c|] Hc; [|by left].
      by destruct (OSHoldsHoldA_ok cfg Hv Hm _ _ _ Hc) as [h ->].
    - pose proof (validate_safe cfg) as Hval. by rewrite Eu in Hval. }
  destruct (ChooseL0Tile cfg) as [t|e]; [left; by eexists | right]. cbn in Hs. by destruct Hs as [-> | ->]; [left | right].
Qed.

(** The bounds matter: the products of larger problems overflow before the
    check that would refuse them. *)
(** Finding: for M = N = 2^22 and K = 2^23 the operand traffic overflows int64_t before
    the check that would refuse it. *)
Theorem ChooseL0Tile_overflow :
  ChooseL0Tile (small_core (2 ^ 22, 2 ^ 22, 2 ^ 23)) = Err UndefinedBehaviour.
Proof. vm_compute. reflexivity. Qed.

Lemma ChooseL0Tile_defined_witness :
  moderate (small_core (2 ^ 15, 2 ^ 15, 2 ^ 15)) /\
  ChooseL0Tile (small_core (2 ^ 15, 2 ^ 15, 2 ^ 15)) <> Err UndefinedBehaviour.
Proof.
  assert (Hm : moderate (small_core (2 ^ 15, 2 ^ 15, 2 ^ 15))) by (constructor; cbn; lia).
  split; [done |]. intros H.
  destruct (ChooseL0Tile_defined (small_core (2 ^ 15, 2 ^ 15, 2 ^ 15))) as [[t Ht]|[Ht|Ht]];
    [by apply small_core_typed | done | congruence..].
Defined.

(** [small_core] with a load bandwidth of [2 ^ -60]. *)
Definition slow_core (dims : Z * Z * Z) : L0TileConfig :=
  MkConfig dims.1.1 dims.1.2 dims.2 1 1 false 4096 4096 8192 2 2 4 16 16 16 16 16 16 16 1 1 0 0 0
    true true true false (double_div (double_of_Z 1) (double_of_Z (2 ^ 60))) (double_of_Z 85) (double_of_Z 118)
    (double_of_Z 164) (double_of_Z 4) (double_of_Z 2) 32 21 32 2 false false.

(** The guard on the wall does fire for validated bandwidths. *)
Lemma ChooseL0Tile_guard_fires :
  exists cfg, validate cfg = Ok tt /\ finite_bandwidths cfg /\ ChooseL0Tile cfg = Err InternalError.
Proof.
  exists (slow_core (64, 64, 32)). by vm_compute.
Qed.
