(* ===== verification/Memref.v ===== *)
(** * Memory references and address assignment

    [include/pypto/ir/memref.h], [memory_space.h], [memory_allocator_policy.h],
    [src/ir/memref.cpp], the address arithmetic of [transforms/utils/memref_utils.h],
    [transforms/utils/memory_footprint.h], [transforms/utils/reserve_buffer_utils.h]
    and the sequential allocator of [transforms/allocate_memory_addr_pass.cpp]. *)

From Stdlib Require Import ZArith Lia Bool List String.
From stdpp Require Import base gmap list option strings pretty sorting.
From S2P Require Import Prelude Dtype ScalarExpr Storage Dsa.

(** ** Memory spaces *)

(** The value of the enumerator. *)
Definition space_id (s : MemorySpace) : Z :=
  match s with
  | DDR => 0 | Vec => 1 | Mat => 2 | Left => 3 | Right => 4 | Acc => 5 | Bias => 6
  | ScalarLocal => 7 | LeftScale => 8 | RightScale => 9
  end.

Definition all_spaces : list MemorySpace :=
  [DDR; Vec; Mat; Left; Right; Acc; Bias; ScalarLocal; LeftScale; RightScale].

Definition MemorySpaceToString (s : MemorySpace) : string :=
  match s with
  | DDR => "DDR" | Vec => "Vec" | Mat => "Mat" | Left => "Left" | Right => "Right" | Acc => "Acc"
  | Bias => "Bias" | LeftScale => "LeftScale" | RightScale => "RightScale" | ScalarLocal => "ScalarLocal"
  end.

(** [ValueError] for an unknown name. *)
Definition StringToMemorySpace (str : string) : result MemorySpace :=
  if String.eqb str "DDR" then Ok DDR
  else if String.eqb str "Vec" then Ok Vec
  else if String.eqb str "Mat" then Ok Mat
  else if String.eqb str "Left" then Ok Left
  else if String.eqb str "Right" then Ok Right
  else if String.eqb str "Acc" then Ok Acc
  else if String.eqb str "Bias" then Ok Bias
  else if String.eqb str "LeftScale" then Ok LeftScale
  else if String.eqb str "RightScale" then Ok RightScale
  else if String.eqb str "ScalarLocal" then Ok ScalarLocal
  else Err CheckFailed.

Definition IsTileMoveEverSupported (src dst : MemorySpace) : bool :=
  match src with
  | Mat => match dst with Left | Right | Bias | LeftScale | RightScale => true | _ => false end
  | Vec => match dst with Vec | Mat => true | _ => false end
  | Acc => match dst with Mat | Vec => true | _ => false end
  | _ => false
  end.

Definition IsTileMoveEverPossibleInto (dst : MemorySpace) : bool :=
  existsb (fun src => IsTileMoveEverSupported src dst)
    [Vec; Mat; Acc; Left; Right; Bias; LeftScale; RightScale].

Definition StagingSpaceForLoad (demand : MemorySpace) : option MemorySpace :=
  match demand with
  | Vec | Mat => Some demand
  | Left | Right | Bias | LeftScale | RightScale => Some Mat
  | _ => None
  end.

(** ** Memory references *)

(** The [Ptr] variable of an allocation: its address and its name. *)
Record Base := MkBase { base_id : positive; base_name : string }.

(** The members of a [MemRef]. *)
Record MemRefData := MkMemRefData {
  name_hint : string;
  base_ : Base;
  byte_offset : expr;
  size_ : Z;
  is_pinned : bool;
  slot_count : Z;
  slot_index : option expr
}.

(** A node and its address. *)
Record MemRef := MkMemRef { memref_id : positive; memref_data :> MemRefData }.

Definition base_key (m : MemRef) : positive := base_id (base_ m).

Definition MayAlias (a b : MemRef) : result bool :=
  if negb (base_key a =? base_key b)%positive then Ok false
  else match byte_offset a, byte_offset b with
  | ConstInt off_a _, ConstInt off_b _ =>
      let* end_a := add64 off_a (wrap_signed 64 (size_ a)) in
      let* end_b := add64 off_b (wrap_signed 64 (size_ b)) in
      Ok ((off_a <? end_b) && (off_b <? end_a))
  | _, _ => Ok true
  end.

(** [RelativeMemRefOffsets], keyed by the node. *)
Abbreviation RelativeMemRefOffsets := (gmap positive expr).

Definition MakeAbsoluteMemRefAddress (buffer_base : Z) (memref : MemRef) (relative_offsets : RelativeMemRefOffsets)
    : result expr :=
  let* _ := require (buffer_base <=? INT64_MAX) InternalError in
  match relative_offsets !! memref_id memref with
  | None => Err InternalError
  | Some (ConstInt relative _) =>
      let* _ := require (relative >=? 0) InternalError in
      let* _ := require (relative <=? u64 (INT64_MAX - buffer_base)) InternalError in
      let* address := add64 buffer_base relative in
      Ok (ConstInt address INT64)
  | Some relative_offset => Ok (Binary KAdd (ConstInt buffer_base INDEX) relative_offset INDEX)
  end.

(** The [MemRef] the passes build for an old one at a new address. *)
Definition at_address (old : MemRef) (address : expr) : MemRefData :=
  MkMemRefData (name_hint old) (base_ old) address (size_ old) (is_pinned old) (slot_count old) (slot_index old).

(** ** Placement policies *)

(** The operations of [MemoryAllocatorPolicy]. *)
Class MemoryAllocatorPolicy := {
  ShouldAllocate : MemorySpace -> bool;
  AlignAddress : Z -> MemorySpace -> Z;
  OrderMemRefs : list MemRef -> list MemRef
}.

(** What the interface promises: the smallest aligned address that is not
    below, where it fits 64 bits; DDR is not allocated; an order. *)
Class PolicyLaws `(MemoryAllocatorPolicy) := {
  space_alignment : MemorySpace -> Z;
  space_alignment_pos s : 0 < space_alignment s;
  AlignAddress_law addr s :
    0 <= addr -> round_up addr (space_alignment s) <= UINT64_MAX ->
    AlignAddress addr s = round_up addr (space_alignment s);
  OrderMemRefs_perm refs : OrderMemRefs refs ≡ₚ refs
}.

Definition name_le (a b : MemRef) : Prop := String.leb (name_hint a) (name_hint b) = true.
#[export] Instance name_le_dec : RelDecision name_le.
Proof. intros a b. unfold name_le. solve_decision. Defined.

(** [DefaultMemoryAllocatorPolicy]. *)
Definition DefaultMemoryAllocatorPolicy : MemoryAllocatorPolicy := {|
  ShouldAllocate s := negb (bool_decide (s = DDR));
  AlignAddress addr _ := Z.land (u64 (addr + 31)) (Z.lxor UINT64_MAX 31);
  OrderMemRefs := merge_sort name_le
|}.

(** ** The sequential walk *)

(** [SpaceFootprint]: the cursor of one space. *)
Record SpaceFootprint := MkFootprint { fspace : MemorySpace; current_addr : Z }.

(** [ReservedEndBySpace], keyed by the space. *)
Abbreviation ReservedEndBySpace := (gmap Z Z).

Section Policy.
Context `{MemoryAllocatorPolicy}.

Definition OpenBuffer (f : SpaceFootprint) (slot_size : Z) : Z * SpaceFootprint :=
  let base := current_addr f in
  (base, MkFootprint (fspace f) (AlignAddress (u64 (current_addr f + slot_size)) (fspace f))).

Definition HighWater (f : SpaceFootprint) : Z := current_addr f.

(** ** Reserved buffers *)

Inductive FunctionType := Opaque | Orchestration | InCore | AIC | AIV | Group | Spmd | Inline | Graph.

Definition GetReserveBufferMemorySpace (t : FunctionType) : result MemorySpace :=
  match t with
  | AIC => Ok Mat
  | AIV | InCore => Ok Vec
  | _ => Err InternalError
  end.

(** [ReserveBufferInfo]: the node of the call, its size and base. *)
Record ReserveBufferInfo := MkReserve { reserve_call : positive; reserve_size : Z; reserve_base : Z }.

(** [ReserveBufferCollector] on the calls of a body, in order. *)
Fixpoint collect_reserves (calls : list (positive * Z * Z)) : result (list ReserveBufferInfo) :=
  match calls with
  | [] => Ok []
  | (call, size, base) :: calls =>
      let* _ := require (size >? 0) InternalError in
      let* rest := collect_reserves calls in
      Ok (MkReserve call size base :: rest)
  end.

(** [ReserveBufferResolution] while it is built: the bases, the reserved end,
    the next base and the ranges of the space. *)
Record Resolving := MkResolving {
  resolved_bases : gmap positive Z;
  reserved_end : Z;
  next_base : Z;
  ranges : gmap Z Z
}.

(** [lower_bound] and the element before it. *)
Definition lower_bound (m : gmap Z Z) (k : Z) : option (Z * Z) :=
  head (List.filter (fun kv => k <=? kv.1) (ascending_map m)).
Definition before_bound (m : gmap Z Z) (k : Z) : option (Z * Z) :=
  last (List.filter (fun kv => kv.1 <? k) (ascending_map m)).

Definition range_clear (base end_ : Z) (range : option (Z * Z)) : bool :=
  match range with Some (b, e) => negb ((base <? e) && (b <? end_)) | None => true end.

Definition resolve_one (space : MemorySpace) (st : Resolving) (r : ReserveBufferInfo) : result Resolving :=
  let resolved_base := if reserve_base r >=? 0 then reserve_base r else next_base st in
  let* _ := require (resolved_base <=? 2 ^ 31 - 1) InternalError in
  let bases := <[ reserve_call r := resolved_base ]> (resolved_bases st) in
  let buffer_end := AlignAddress (u64 (resolved_base + reserve_size r)) space in
  let* _ := require (range_clear resolved_base buffer_end (lower_bound (ranges st) resolved_base)) InternalError in
  let* _ := require (range_clear resolved_base buffer_end (before_bound (ranges st) resolved_base)) InternalError in
  Ok (MkResolving bases (Z.max (reserved_end st) buffer_end) (Z.max (next_base st) buffer_end)
        (emplace (ranges st) resolved_base buffer_end).1).

Fixpoint resolve_all (space : MemorySpace) (st : Resolving) (rs : list ReserveBufferInfo) : result Resolving :=
  match rs with
  | [] => Ok st
  | r :: rs => let* st := resolve_one space st r in resolve_all space st rs
  end.

Definition ResolveReserveBufferBases (t : FunctionType) (calls : list (positive * Z * Z))
    : result (gmap positive Z * ReservedEndBySpace) :=
  let* reserves := collect_reserves calls in
  match reserves with
  | [] => Ok (∅, ∅)
  | _ =>
      let* space := GetReserveBufferMemorySpace t in
      let* st := resolve_all space (MkResolving ∅ 0 0 ∅) reserves in
      Ok (resolved_bases st, {[ space_id space := reserved_end st ]})
  end.

(** ** [AllocateMemoryAddresses] *)

(** [base_order]: the bases, each at its first reference. *)
Definition base_order (refs : list MemRef) : list positive :=
  foldl (fun order ref => if bool_decide (base_key ref ∈ order) then order else order ++ [base_key ref]) [] refs.

(** [base_groups]. *)
Definition base_group (refs : list MemRef) (base : positive) : list MemRef :=
  List.filter (fun ref => (base_key ref =? base)%positive) refs.

Fixpoint slot_size (size : Z) (group : list MemRef) : result Z :=
  match group with
  | [] => Ok size
  | ref :: group =>
      let* _ := require (size_ ref >? 0) InternalError in slot_size (Z.max size (size_ ref)) group
  end.

Fixpoint readdress (base_addr : Z) (relative : RelativeMemRefOffsets) (group : list MemRef)
    : result (list (positive * MemRefData)) :=
  match group with
  | [] => Ok []
  | ref :: group =>
      let* address := MakeAbsoluteMemRefAddress base_addr ref relative in
      let* rest := readdress base_addr relative group in
      Ok ((memref_id ref, at_address ref address) :: rest)
  end.

(** [buffer_size]: the largest member, or the size reserved for the base. *)
Definition buffer_size (reserved : gmap positive Z) (base : positive) (slot : Z) : Z :=
  match reserved !! base with Some declared => Z.max slot declared | None => slot end.

Fixpoint allocate_groups (reserved : gmap positive Z) (relative : RelativeMemRefOffsets) (refs : list MemRef)
    (f : SpaceFootprint) (bases : list positive) : result (list (positive * MemRefData) * SpaceFootprint) :=
  match bases with
  | [] => Ok ([], f)
  | base :: bases =>
      let group := base_group refs base in
      let* slot := slot_size 0 group in
      let (base_addr, f) := OpenBuffer f (buffer_size reserved base slot) in
      let* pairs := readdress base_addr relative group in
      let* (rest, f) := allocate_groups reserved relative refs f bases in
      Ok (pairs ++ rest, f)
  end.

(** One space: the groups, then the check of its capacity when there is a
    backend. *)
Definition allocate_space (reserved_ends : ReservedEndBySpace) (reserved : gmap positive Z)
    (relative : RelativeMemRefOffsets) (mem_size : option (MemorySpace -> Z)) (space : MemorySpace)
    (refs : list MemRef) : result (list (positive * MemRefData)) :=
  if negb (ShouldAllocate space) then Ok []
  else
    let refs := OrderMemRefs refs in
    let reserved_start := default 0 (reserved_ends !! space_id space) in
    let* (pairs, f) := allocate_groups reserved relative refs (MkFootprint space reserved_start) (base_order refs) in
    let* _ := match mem_size with
      | Some get => require ((get space =? 0) || (HighWater f <=? get space)) CheckFailed
      | None => Ok tt
      end in
    Ok pairs.

(** [space_to_memrefs]: the references of one space. *)
Definition in_space (memrefs : list (MemRef * MemorySpace)) (space : MemorySpace) : list MemRef :=
  map fst (List.filter (fun '(_, s) => bool_decide (s = space)) memrefs).

(** The comparison of the final sort. *)
Definition address_less (a b : positive * MemRefData) : bool :=
  match byte_offset a.2, byte_offset b.2 with
  | ConstInt off_a _, ConstInt off_b _ =>
      if negb (off_a =? off_b) then off_a <? off_b else String.ltb (name_hint a.2) (name_hint b.2)
  | ConstInt _ _, _ => true
  | _, ConstInt _ _ => false
  | _, _ => String.ltb (name_hint a.2) (name_hint b.2)
  end.

Definition address_le (a b : positive * MemRefData) : Prop := address_less b a = false.
#[export] Instance address_le_dec : RelDecision address_le.
Proof. intros a b. unfold address_le. solve_decision. Defined.

Fixpoint allocate_spaces (reserved_ends : ReservedEndBySpace) (reserved : gmap positive Z)
    (relative : RelativeMemRefOffsets) (mem_size : option (MemorySpace -> Z)) (memrefs : list (MemRef * MemorySpace))
    (spaces : list MemorySpace) : result (list (positive * MemRefData)) :=
  match spaces with
  | [] => Ok []
  | space :: spaces =>
      let* pairs := allocate_space reserved_ends reserved relative mem_size space (in_space memrefs space) in
      let* rest := allocate_spaces reserved_ends reserved relative mem_size memrefs spaces in
      Ok (pairs ++ rest)
  end.

(** [spaces] is the order in which [space_to_memrefs], an [unordered_map], is
    walked. *)
Definition AllocateMemoryAddresses (spaces : list MemorySpace) (memrefs : list (MemRef * MemorySpace))
    (reserved_ends : ReservedEndBySpace) (reserved : gmap positive Z) (relative : RelativeMemRefOffsets)
    (mem_size : option (MemorySpace -> Z)) : result (list (positive * MemRefData)) :=
  let* pairs := allocate_spaces reserved_ends reserved relative mem_size memrefs spaces in
  Ok (merge_sort address_le pairs).

(** ** The sequential plan of a function *)

Definition IsInCoreType (t : FunctionType) : bool :=
  match t with InCore | AIC | AIV => true | _ => false end.

(** [reserved_sizes]: the declared allocations, and the whole capacity of an
    allocation with several slots. *)
Definition reserved_sizes (pinned allocation_sizes : gmap positive Z) (memrefs : list (MemRef * MemorySpace))
    : gmap positive Z :=
  foldl (fun reserved (entry : MemRef * MemorySpace) =>
    let memory := entry.1 in
    if slot_count memory <=? 1 then reserved
    else match allocation_sizes !! base_key memory with
    | Some capacity => <[ base_key memory := capacity ]> reserved
    | None => reserved
    end) pinned memrefs.

(** Steps 1 to 3 of [TransformAllocateMemoryAddr] with the sequential planner:
    the replaced references and the bases of the reserved buffers. *)
Definition PlanAddresses (t : FunctionType) (calls : list (positive * Z * Z)) (spaces : list MemorySpace)
    (memrefs : list (MemRef * MemorySpace)) (pinned allocation_sizes : gmap positive Z)
    (relative : RelativeMemRefOffsets) (mem_size : option (MemorySpace -> Z))
    : result (list (positive * MemRefData) * gmap positive Z) :=
  if negb (IsInCoreType t) then Ok ([], ∅)
  else
    let* (bases, ends) := ResolveReserveBufferBases t calls in
    let* pairs := AllocateMemoryAddresses spaces memrefs ends (reserved_sizes pinned allocation_sizes memrefs) relative mem_size in
    Ok (pairs, bases).

End Policy.
