(* ===== verification/MemrefSound.v ===== *)
(** * What address assignment gives

    The default policy keeps the promises of the interface; reserved buffers are
    disjoint; the sequential allocator places the allocations of a space one
    after the other, each reference at its offset within its allocation. *)

From Stdlib Require Import ZArith Lia Bool List String.
From stdpp Require Import base gmap list option strings sorting.
From S2P Require Import Prelude Dtype ScalarExpr Storage Dsa DsaSpec DsaFit Memref.

(** ** The default policy *)

Lemma land_high x : 0 <= x <= UINT64_MAX -> Z.land x (Z.lxor UINT64_MAX 31) = x / 32 * 32.
Proof.
  intros Hx. change (Z.lxor UINT64_MAX 31) with (Z.shiftl (Z.ones 59) 5).
  change 32 with (2 ^ 5). rewrite <- Z.shiftr_div_pow2, <- Z.shiftl_mul_pow2 by lia.
  apply Z.bits_inj'. intros i Hi. rewrite Z.land_spec, !Z.shiftl_spec by lia.
  destruct (Z.lt_ge_cases i 5) as [Hl|Hg].
  - by rewrite !(Z.testbit_neg_r _ (i - 5)), andb_false_r by lia.
  - rewrite Z.shiftr_spec by lia. replace (i - 5 + 5) with i by lia. destruct (Z.lt_ge_cases (i - 5) 59) as [Hs|Hs].
    + by rewrite Z.ones_spec_low, andb_true_r by lia.
    + rewrite Z.ones_spec_high, andb_false_r by lia. symmetry.
      rewrite Z.bits_above_log2; [done | lia |]. destruct (Z.eq_dec x 0) as [->|]; [cbn; lia |].
      apply Z.log2_lt_pow2; [lia |]. pose proof (Z.pow_le_mono_r 2 64 i). unfold UINT64_MAX in Hx. lia.
Qed.

#[export] Instance DefaultPolicyLaws : PolicyLaws DefaultMemoryAllocatorPolicy.
Proof.
  refine {| space_alignment := fun _ => 32 |}.
  - lia.
  - intros addr s Ha Hr. cbv beta in *. cbn [AlignAddress DefaultMemoryAllocatorPolicy]. unfold round_up in *.
    pose proof (Z.mul_div_le (addr + 32 - 1) 32). pose proof (Z.mod_pos_bound (addr + 32 - 1) 32).
    pose proof (Z.div_mod (addr + 32 - 1) 32). destruct (Z.le_gt_cases (addr + 31) UINT64_MAX) as [Hle|Hgt].
    + rewrite u64_id, land_high by lia. by replace (addr + 32 - 1) with (addr + 31) by lia.
    + exfalso. unfold UINT64_MAX in *.
      assert (2 ^ 59 <= (addr + 32 - 1) / 32) by (apply Z.div_le_lower_bound; lia). lia.
  - intros refs. apply merge_sort_Permutation.
Defined.

Lemma Forall2_impl_left {A B} (P Q : A -> B -> Prop) l k :
  (forall x y, x ∈ l -> P x y -> Q x y) -> Forall2 P l k -> Forall2 Q l k.
Proof.
  intros H HP. induction HP as [|x y l k Hxy HP IH]; constructor; [by apply H; [left |] |].
  apply IH. intros x' y' Hx. apply H. by right.
Qed.

(** Grouping a list by a key permutes it. *)
Lemma group_perm {A K} `{EqDecision K} (key : A -> K) (ks : list K) : forall l,
  NoDup ks -> (forall x, x ∈ l -> key x ∈ ks) ->
  flat_map (fun k => List.filter (fun x => bool_decide (key x = k)) l) ks ≡ₚ l.
Proof.
  induction ks as [|k ks IH]; intros l Hn Hk.
  - destruct l as [|x l]; [done |]. by destruct (proj1 (elem_of_nil _) (Hk x ltac:(by left))).
  - apply NoDup_cons in Hn as [Hnk Hn]. cbn [flat_map].
    set (rest := List.filter (fun x => negb (bool_decide (key x = k))) l).
    assert (Hrest : flat_map (fun k' => List.filter (fun x => bool_decide (key x = k')) l) ks
                    = flat_map (fun k' => List.filter (fun x => bool_decide (key x = k')) rest) ks).
    { assert (Hsub : forall ks', (forall k', k' ∈ ks' -> k' <> k) ->
        flat_map (fun k' => List.filter (fun x => bool_decide (key x = k')) l) ks'
        = flat_map (fun k' => List.filter (fun x => bool_decide (key x = k')) rest) ks').
      { intros ks'. induction ks' as [|k' ks' IH']; intros Hne; [done |]. cbn [flat_map]. f_equal; [|apply IH'; intros j Hj; apply Hne; by right].
        unfold rest. clear -Hne. specialize (Hne k' ltac:(by left)). induction l as [|x l IHl]; [done |]. cbn [List.filter].
        destruct (decide (key x = k)) as [Hx|Hx]; [rewrite (bool_decide_eq_true_2 _ Hx) | rewrite (bool_decide_eq_false_2 _ Hx)]; cbn [negb].
        - rewrite bool_decide_eq_false_2 by congruence. done.
        - cbn [List.filter]. by rewrite IHl. }
      apply Hsub. intros k' Hk'. by intros ->. }
    rewrite Hrest, IH; [|done |].
    + unfold rest. clear. induction l as [|x l IHl]; [done |]. cbn [List.filter]. case_bool_decide; cbn [negb]; [by rewrite <- app_comm_cons, IHl |].
      by rewrite <- Permutation_middle, IHl.
    + intros x Hx. unfold rest in Hx. apply list_elem_of_In, filter_In in Hx as [Hx%list_elem_of_In Hne].
      apply Hk in Hx. apply elem_of_cons in Hx as [Hx|Hx]; [|done]. by rewrite (bool_decide_eq_true_2 _ Hx) in Hne.
Qed.

(** ** Groups *)

Lemma base_order_spec refs : forall order,
  NoDup order ->
  let bases := foldl (fun order ref => if bool_decide (base_key ref ∈ order) then order else order ++ [base_key ref]) order refs in
  NoDup bases /\ forall b, b ∈ bases <-> b ∈ order \/ exists ref, ref ∈ refs /\ base_key ref = b.
Proof.
  induction refs as [|ref refs IH]; intros order Hn; cbv zeta; cbn [foldl].
  - split; [done |]. intros b. split; [by left |]. intros [?|(ref & Hin%elem_of_nil & _)]; done.
  - case_bool_decide as Hd.
    + destruct (IH order Hn) as [H1 H2]. split; [done |]. intros b. rewrite H2. setoid_rewrite elem_of_cons.
      split; [intros [?|(r & ? & ?)]; eauto 6 |]. intros [?|(r & [->|?] & <-)]; [by left | by left | right; by exists r].
    + destruct (IH (order ++ [base_key ref])) as [H1 H2].
      { apply NoDup_app. split_and!; [done | set_solver | apply NoDup_singleton]. }
      split; [done |]. intros b. rewrite H2. setoid_rewrite elem_of_cons. rewrite elem_of_app, list_elem_of_singleton.
      split; [intros [[?| ->]|(r & ? & ?)]; eauto 6 |]. intros [?|(r & [->|?] & <-)]; [by left; left | by left; right | right; by exists r].
Qed.

Lemma base_group_in refs b m : m ∈ base_group refs b <-> m ∈ refs /\ base_key m = b.
Proof. unfold base_group. by rewrite list_elem_of_In, filter_In, <- list_elem_of_In, Pos.eqb_eq. Qed.

(** The size of a group: its largest member. *)
Definition group_size (group : list MemRef) : Z := foldr (fun (m : MemRef) s => Z.max (size_ m) s) 0 group.

Lemma slot_size_ok group : forall size s,
  0 <= size -> slot_size size group = Ok s ->
  s = Z.max size (group_size group) /\ Forall (fun m : MemRef => 0 < size_ m) group.
Proof.
  induction group as [|m group IH]; intros size s Hs H; cbn [slot_size group_size foldr] in *.
  - inv_ok. split; [lia | done].
  - apply bind_ok in H as (? & Hm%require_ok & H). bool_to_prop. apply IH in H as [-> ?]; [|lia].
    fold (group_size group). split; [lia | by constructor].
Qed.

Lemma group_size_le group (m : MemRef) : m ∈ group -> size_ m <= group_size group.
Proof.
  induction group as [|m' group IH]; [by intros ?%elem_of_nil |].
  cbn [group_size foldr]. fold (group_size group). intros [->|Hm]%elem_of_cons; [|apply IH in Hm]; lia.
Qed.

(** ** Addresses *)

(** The address of a reference whose allocation is at [base]. *)
Definition addressed (base : Z) (relative : option expr) (address : expr) : Prop :=
  match relative with
  | Some (ConstInt r _) => 0 <= r /\ base + r <= INT64_MAX /\ address = ConstInt (base + r) INT64
  | Some e => address = Binary KAdd (ConstInt base INDEX) e INDEX
  | None => False
  end.

Lemma MakeAbsolute_ok base m relative a :
  0 <= base -> MakeAbsoluteMemRefAddress base m relative = Ok a -> addressed base (relative !! memref_id m) a.
Proof.
  intros Hb. unfold MakeAbsoluteMemRefAddress. intros (? & Hle%require_ok & H)%bind_ok. bool_to_prop.
  destruct (relative !! memref_id m) as [e|]; [|done]. destruct e; cbn [addressed]; try by inv_ok.
  apply bind_ok in H as (? & Hr%require_ok & H). apply bind_ok in H as (? & Hs%require_ok & H).
  apply bind_ok in H as (z & [-> _]%checked_ok & H). inv_ok. bool_to_prop. rewrite u64_id in Hs by lia64.
  split_and!; [lia | lia | done].
Qed.

(** What one reference became. *)
Definition replaced (base : positive -> Z) (relative : RelativeMemRefOffsets) (m : MemRef) (p : positive * MemRefData) : Prop :=
  p.1 = memref_id m /\ exists a, p.2 = at_address m a /\ addressed (base (base_key m)) (relative !! memref_id m) a.

Lemma same_ids ms ps :
  Forall2 (fun (m : MemRef) (p : positive * MemRefData) => p.1 = memref_id m) ms ps -> map fst ps = map memref_id ms.
Proof. intros H. induction H as [|m p ms ps Hid H IH]; [done |]. cbn [map]. by rewrite Hid, IH. Qed.

Lemma readdress_ok base relative group pairs :
  0 <= base -> readdress base relative group = Ok pairs -> Forall2 (replaced (fun _ => base) relative) group pairs.
Proof.
  intros Hb. revert pairs. induction group as [|m group IH]; intros pairs H; cbn [readdress] in H.
  - inv_ok. constructor.
  - apply bind_ok in H as (a & Ha & H). apply bind_ok in H as (rest & Hrest & H). inv_ok.
    constructor; [|by apply IH]. split; [done |]. exists a. split; [done | by eapply MakeAbsolute_ok].
Qed.

(** ** The walk over the allocations of a space *)

Section Walk.
Context (align : Z) (size : positive -> Z).
Hypothesis align_pos : 0 < align.

Fixpoint walk (c : Z) (bases : list positive) : list (positive * Z) :=
  match bases with [] => [] | b :: bases => (b, c) :: walk (round_up (c + size b) align) bases end.

Fixpoint walk_end (c : Z) (bases : list positive) : Z :=
  match bases with [] => c | b :: bases => walk_end (round_up (c + size b) align) bases end.

(** Room for every allocation and its alignment. *)
Definition room (bases : list positive) : Z := foldr (fun b s => size b + align + s) 0 bases.

Hypothesis size_nonneg : forall b, 0 <= size b.

Lemma room_nonneg bases : 0 <= room bases.
Proof. induction bases as [|b bases IH]; cbn [room foldr]; [lia |]. fold (room bases). pose proof (size_nonneg b). lia. Qed.

Lemma walk_end_bounds bases : forall c, c <= walk_end c bases <= c + room bases.
Proof.
  induction bases as [|b bases IH]; intros c; cbn [walk_end room foldr]; [lia |]. fold (room bases).
  specialize (IH (round_up (c + size b) align)). pose proof (round_up_spec (c + size b) align align_pos).
  pose proof (size_nonneg b). lia.
Qed.

Lemma walk_bounds bases : forall c b x,
  (b, x) ∈ walk c bases -> b ∈ bases /\ c <= x /\ x + size b <= walk_end c bases /\ ((align | c) -> (align | x)).
Proof.
  induction bases as [|b' bases IH]; intros c b x Hin; cbn [walk walk_end] in *; [by apply elem_of_nil in Hin |].
  pose proof (round_up_spec (c + size b') align align_pos) as [Hr Hd]. pose proof (size_nonneg b').
  apply elem_of_cons in Hin as [[= -> ->]|Hin].
  - pose proof (walk_end_bounds bases (round_up (c + size b') align)). split_and!; [by left | lia | lia | done].
  - apply IH in Hin as (? & ? & ? & ?). split_and!; [by right | lia | lia | auto].
Qed.

Lemma walk_disjoint bases : forall c b x b' x',
  NoDup bases -> (b, x) ∈ walk c bases -> (b', x') ∈ walk c bases -> b <> b' -> disjoint_ranges x (size b) x' (size b').
Proof.
  induction bases as [|b0 bases IH]; intros c b x b' x' Hn Hx Hx' Hne; cbn [walk] in *; [by apply elem_of_nil in Hx |].
  apply NoDup_cons in Hn as [Hb0 Hn]. pose proof (round_up_spec (c + size b0) align align_pos) as [Hr _].
  apply elem_of_cons in Hx as [Ex|Hx], Hx' as [Ex'|Hx']; [congruence | | | by eapply IH].
  - injection Ex as -> ->. apply walk_bounds in Hx' as (_ & ? & _). left. lia.
  - injection Ex' as -> ->. apply walk_bounds in Hx as (_ & ? & _). right. lia.
Qed.

Lemma walk_keys bases : forall c, map fst (walk c bases) = bases.
Proof. induction bases as [|b bases IH]; intros c; cbn [walk map fst]; [done | by rewrite IH]. Qed.

(** Where the walk puts an allocation. *)
Definition layout (c : Z) (bases : list positive) (b : positive) : Z :=
  default 0 ((list_to_map (walk c bases) : gmap positive Z) !! b).

Lemma layout_eq c bases b x : NoDup bases -> (b, x) ∈ walk c bases -> layout c bases b = x.
Proof.
  intros Hn Hx. unfold layout. erewrite elem_of_list_to_map_1; [reflexivity | | exact Hx].
  pose proof (walk_keys bases c) as Hk. unfold map in Hk. by rewrite <- Hk in Hn.
Qed.

Lemma layout_in c bases b : NoDup bases -> b ∈ bases -> (b, layout c bases b) ∈ walk c bases.
Proof.
  intros Hn Hb. assert (Hin : b ∈ map fst (walk c bases)) by by rewrite walk_keys.
  apply list_elem_of_fmap in Hin as ([b' x] & -> & Hin). cbn [fst] in *. by rewrite (layout_eq _ _ _ x).
Qed.

End Walk.

Section Allocate.
Context `{policy : MemoryAllocatorPolicy} `{!PolicyLaws policy}.

(** The bytes set aside for an allocation of these references. *)
Definition allocated (reserved : gmap positive Z) (refs : list MemRef) (b : positive) : Z :=
  buffer_size reserved b (group_size (base_group refs b)).

Lemma group_size_nonneg group : 0 <= group_size group.
Proof. induction group as [|m group IH]; cbn [group_size foldr]; [lia |]. fold (group_size group). lia. Qed.

Lemma allocated_nonneg reserved refs b : 0 <= allocated reserved refs b.
Proof. pose proof (group_size_nonneg (base_group refs b)). unfold allocated, buffer_size. case_match; lia. Qed.

Lemma allocated_member reserved refs (m : MemRef) : m ∈ refs -> size_ m <= allocated reserved refs (base_key m).
Proof.
  intros Hm. pose proof (group_size_le (base_group refs (base_key m)) m) as Hg. rewrite base_group_in in Hg.
  specialize (Hg (conj Hm eq_refl)). unfold allocated, buffer_size. case_match; lia.
Qed.

Lemma allocate_groups_ok reserved relative refs space bases : forall c pairs f,
  0 <= c -> c + room (space_alignment space) (allocated reserved refs) bases <= UINT64_MAX ->
  allocate_groups reserved relative refs (MkFootprint space c) bases = Ok (pairs, f) ->
  let w := walk (space_alignment space) (allocated reserved refs) c bases in
  HighWater f = walk_end (space_alignment space) (allocated reserved refs) c bases /\
  Forall2 (fun m p => exists x, (base_key m, x) ∈ w /\ replaced (fun _ => x) relative m p)
    (flat_map (base_group refs) bases) pairs.
Proof.
  pose proof (space_alignment_pos space) as Ha.
  induction bases as [|b bases IH]; intros c pairs f Hc Hroom H; cbn [allocate_groups] in H; cbv zeta.
  - inv_ok. split; [done | constructor].
  - apply bind_ok in H as (slot & Hslot & H). apply slot_size_ok in Hslot as [-> _]; [|lia].
    replace (Z.max 0 (group_size (base_group refs b))) with (group_size (base_group refs b)) in H
      by (pose proof (group_size_nonneg (base_group refs b)); lia).
    cbn [OpenBuffer current_addr fspace] in H. fold (allocated reserved refs b) in H.
    cbn [room foldr] in Hroom. fold (room (space_alignment space) (allocated reserved refs) bases) in Hroom.
    pose proof (allocated_nonneg reserved refs b) as Hn.
    pose proof (room_nonneg (space_alignment space) (allocated reserved refs) Ha (allocated_nonneg reserved refs) bases) as Hrn.
    pose proof (round_up_spec (c + allocated reserved refs b) (space_alignment space) Ha) as [Hr _].
    rewrite u64_id, AlignAddress_law in H by lia.
    apply bind_ok in H as (pairs1 & Hp & H). apply bind_ok in H as ([rest f'] & Hrest & H). inv_ok.
    apply readdress_ok in Hp; [|done]. apply IH in Hrest as [Hend Hall]; [|lia..].
    cbn [walk walk_end flat_map]. split; [done |]. apply Forall2_app.
    + eapply Forall2_impl_left; [|exact Hp]. intros m p Hm Hrep. apply base_group_in in Hm as [_ <-].
      exists c. split; [by left | done].
    + eapply Forall2_impl; [exact Hall |]. intros m p (x & Hx & Hrep). exists x. split; [by right | done].
Qed.

(** One space. *)
Section Space.
Context (ends : ReservedEndBySpace) (reserved : gmap positive Z) (relative : RelativeMemRefOffsets)
  (mem_size : option (MemorySpace -> Z)) (space : MemorySpace) (refs : list MemRef).

Definition start_of : Z := default 0 (ends !! space_id space).
Definition ordered_bases : list positive := base_order (OrderMemRefs refs).
Definition bytes_of (b : positive) : Z := allocated reserved (OrderMemRefs refs) b.
(** Where the allocation [b] goes. *)
Definition base_of (b : positive) : Z := layout (space_alignment space) bytes_of start_of ordered_bases b.

(** The allocations fit 64 bits. *)
Definition spacious : Prop :=
  0 <= start_of /\ start_of + room (space_alignment space) bytes_of ordered_bases <= UINT64_MAX.

Lemma ordered_bases_spec : NoDup ordered_bases /\ forall m, m ∈ refs -> base_key m ∈ ordered_bases.
Proof.
  destruct (base_order_spec (OrderMemRefs refs) [] (NoDup_nil_2)) as [Hn Hin]. split; [done |].
  intros m Hm. apply Hin. right. exists m. split; [|done]. by rewrite OrderMemRefs_perm.
Qed.

Lemma allocate_space_ok pairs :
  spacious -> ShouldAllocate space = true ->
  allocate_space ends reserved relative mem_size space refs = Ok pairs ->
  map fst pairs ≡ₚ map memref_id refs /\
  (forall m, m ∈ refs -> exists p, p ∈ pairs /\ replaced base_of relative m p) /\
  (forall get, mem_size = Some get -> get space <> 0 ->
     walk_end (space_alignment space) bytes_of start_of ordered_bases <= get space).
Proof.
  intros [H0 Hroom] Hs. unfold allocate_space. rewrite Hs. cbn [negb]. intros H.
  apply bind_ok in H as ([ps f] & Hg & H). apply bind_ok in H as (u & Hcap & H). inv_ok.
  apply allocate_groups_ok in Hg as [Hend Hall]; [|done..].
  destruct ordered_bases_spec as [Hn Hin].
  assert (Hperm : flat_map (base_group (OrderMemRefs refs)) ordered_bases ≡ₚ refs).
  { rewrite <- (OrderMemRefs_perm refs) at 2. rewrite <- (group_perm base_key ordered_bases (OrderMemRefs refs) Hn) at 2.
    - apply reflexive_eq, flat_map_ext. intros b. unfold base_group. apply List.filter_ext. intros m.
      destruct (Pos.eqb_spec (base_key m) b); [by rewrite bool_decide_eq_true_2 | by rewrite bool_decide_eq_false_2].
    - intros m Hm. apply Hin. by rewrite OrderMemRefs_perm in Hm. }
  split_and!.
  - rewrite <- Hperm. apply reflexive_eq. eapply same_ids, Forall2_impl; [exact Hall |]. by intros m p (x & _ & Hid & _).
  - intros m Hm. rewrite <- Hperm in Hm. apply list_elem_of_lookup in Hm as [i Hi].
    destruct (Forall2_lookup_l _ _ _ _ _ Hall Hi) as (p & Hp & x & Hx & Hid & a & Ha & Hadd).
    exists p. split; [by eapply list_elem_of_lookup_2 |]. split; [done |]. exists a. split; [done |].
    replace (base_of (base_key m)) with x; [done |]. symmetry. by apply layout_eq.
  - intros get -> Hne. apply require_ok in Hcap. bool_to_prop. rewrite Hend in Hcap.
    destruct Hcap as [Hcap|Hcap]; bool_to_prop; [done |]. exact Hcap.
Qed.

Lemma base_of_facts m : m ∈ refs ->
  start_of <= base_of (base_key m) /\ base_of (base_key m) + bytes_of (base_key m) <= walk_end (space_alignment space) bytes_of start_of ordered_bases /\
  ((space_alignment space | start_of) -> (space_alignment space | base_of (base_key m))) /\ size_ m <= bytes_of (base_key m).
Proof.
  intros Hm. destruct ordered_bases_spec as [Hn Hin].
  pose proof (layout_in (space_alignment space) bytes_of start_of ordered_bases _ Hn (Hin m Hm)) as Hw.
  apply (walk_bounds _ _ (space_alignment_pos space) (allocated_nonneg reserved _)) in Hw as (_ & ? & ? & ?).
  split_and!; try done. apply allocated_member. by rewrite OrderMemRefs_perm.
Qed.

Lemma base_of_disjoint m m' : m ∈ refs -> m' ∈ refs -> base_key m <> base_key m' ->
  disjoint_ranges (base_of (base_key m)) (bytes_of (base_key m)) (base_of (base_key m')) (bytes_of (base_key m')).
Proof.
  intros Hm Hm' Hne. destruct ordered_bases_spec as [Hn Hin].
  eapply (walk_disjoint _ _ (space_alignment_pos space) (allocated_nonneg reserved _)); [exact Hn | | | exact Hne]; apply layout_in; auto.
Qed.

End Space.

(** ** All spaces *)

Section Spaces.
Context (ends : ReservedEndBySpace) (reserved : gmap positive Z) (relative : RelativeMemRefOffsets)
  (mem_size : option (MemorySpace -> Z)) (memrefs : list (MemRef * MemorySpace)).

(** The address and the bytes of the allocation [b] of a space. *)
Definition placed_at (space : MemorySpace) : positive -> Z := base_of ends reserved space (in_space memrefs space).
Definition placed_bytes (space : MemorySpace) : positive -> Z := bytes_of reserved (in_space memrefs space).

(** The end of the allocations of a space. *)
Definition high_water (space : MemorySpace) : Z :=
  walk_end (space_alignment space) (placed_bytes space) (start_of ends space) (ordered_bases (in_space memrefs space)).

(** The spaces the planner writes, each once. *)
Definition covers (spaces : list MemorySpace) : Prop :=
  NoDup spaces /\ forall m s, (m, s) ∈ memrefs -> s ∈ spaces.

Lemma in_space_in m s : m ∈ in_space memrefs s <-> (m, s) ∈ memrefs.
Proof.
  unfold in_space. rewrite list_elem_of_In, in_map_iff. setoid_rewrite filter_In. split.
  - intros ([m' s'] & <- & Hin & Hs%bool_decide_eq_true). subst. by apply list_elem_of_In.
  - intros Hin%list_elem_of_In. exists (m, s). by rewrite bool_decide_eq_true_2.
Qed.

Lemma allocate_spaces_ok spaces pairs :
  (forall s, s ∈ spaces -> ShouldAllocate s = true -> spacious ends reserved s (in_space memrefs s)) ->
  allocate_spaces ends reserved relative mem_size memrefs spaces = Ok pairs ->
  map fst pairs ≡ₚ flat_map (fun s => map memref_id (in_space memrefs s)) (List.filter ShouldAllocate spaces) /\
  forall s, s ∈ spaces -> ShouldAllocate s = true ->
    (forall m, (m, s) ∈ memrefs -> exists p, p ∈ pairs /\ replaced (placed_at s) relative m p) /\
    (forall get, mem_size = Some get -> get s <> 0 -> high_water s <= get s).
Proof.
  revert pairs. induction spaces as [|s spaces IH]; intros pairs Hsp H; cbn [allocate_spaces] in H.
  - inv_ok. split; [done |]. by intros s ?%elem_of_nil.
  - apply bind_ok in H as (ps & Hs & H). apply bind_ok in H as (rest & Hrest & H). inv_ok.
    apply IH in Hrest as [Hp Hall]; [|intros s' ?; apply Hsp; by right].
    cbn [List.filter]. destruct (ShouldAllocate s) eqn:Ea.
    + apply allocate_space_ok in Hs as (Hps & Href & Hcap); [|apply Hsp; [by left | done] | done].
      split; [cbn [flat_map]; by rewrite map_app, Hps, Hp |]. intros s' [->|Hs']%elem_of_cons Ha.
      * split; [|exact Hcap]. intros m Hm%in_space_in. destruct (Href m Hm) as (p & Hin & Hrep).
        exists p. split; [|done]. apply elem_of_app. by left.
      * destruct (Hall s' Hs' Ha) as [Href' Hcap']. split; [|exact Hcap']. intros m Hm.
        destruct (Href' m Hm) as (p & Hin & Hrep). exists p. split; [|done]. apply elem_of_app. by right.
    + unfold allocate_space in Hs. rewrite Ea in Hs. injection Hs as <-. split; [exact Hp |].
      intros s' [->|Hs']%elem_of_cons Ha; [congruence | by apply Hall].
Qed.

Lemma placed_facts m s :
  (m, s) ∈ memrefs ->
  start_of ends s <= placed_at s (base_key m) /\
  placed_at s (base_key m) + placed_bytes s (base_key m) <= high_water s /\
  ((space_alignment s | start_of ends s) -> (space_alignment s | placed_at s (base_key m))) /\
  size_ m <= placed_bytes s (base_key m).
Proof. intros Hm%in_space_in. by apply base_of_facts. Qed.

Lemma placed_disjoint m m' s :
  (m, s) ∈ memrefs -> (m', s) ∈ memrefs -> base_key m <> base_key m' ->
  disjoint_ranges (placed_at s (base_key m)) (placed_bytes s (base_key m))
    (placed_at s (base_key m')) (placed_bytes s (base_key m')).
Proof. intros Hm%in_space_in Hm'%in_space_in. by apply base_of_disjoint. Qed.

Lemma ids_perm spaces : covers spaces ->
  flat_map (fun s => map memref_id (in_space memrefs s)) (List.filter ShouldAllocate spaces)
  ≡ₚ map (fun ms => memref_id ms.1) (List.filter (fun ms => ShouldAllocate ms.2) memrefs).
Proof.
  intros [Hn Hc]. set (some := List.filter (fun ms => ShouldAllocate ms.2) memrefs).
  assert (Hg := group_perm snd (List.filter ShouldAllocate spaces) some).
  rewrite <- Hg.
  - rewrite !flat_map_concat_map, concat_map, map_map. apply reflexive_eq. f_equal. clear Hg.
    apply map_ext_in. intros s [_ Hs]%filter_In. unfold in_space, some. clear -Hs.
    induction memrefs as [|[m s'] l IH]; [done |]. cbn [List.filter snd]. case_bool_decide as E.
    + subst. rewrite Hs. cbn [List.filter snd]. rewrite bool_decide_eq_true_2 by done. cbn [map fst]. by rewrite IH.
    + destruct (ShouldAllocate s'); [|done]. cbn [List.filter snd]. by rewrite bool_decide_eq_false_2.
  - rewrite NoDup_ListNoDup in *. by apply List.NoDup_filter.
  - intros [m s] Hin. apply list_elem_of_In, filter_In in Hin as [Hin%list_elem_of_In Ha]. cbn [snd] in *.
    apply list_elem_of_In, filter_In. split; [|done]. by apply list_elem_of_In, (Hc m).
Qed.

End Spaces.

(** ** The order of the result *)

Lemma ltb_spec a b : String.ltb a b = true <-> String.compare a b = Lt.
Proof. unfold String.ltb. by destruct (String.compare a b). Qed.

Lemma compare_lt_trans a : forall b c, String.compare a b = Lt -> String.compare b c = Lt -> String.compare a c = Lt.
Proof.
  induction a as [|x a IH]; intros [|y b] [|z c]; cbn [String.compare]; try done.
  unfold Ascii.compare. destruct (N.compare_spec (Ascii.N_of_ascii x) (Ascii.N_of_ascii y)) as [Exy|Lxy|]; [|intros _|done];
    destruct (N.compare_spec (Ascii.N_of_ascii y) (Ascii.N_of_ascii z)) as [Eyz|Lyz|]; try done.
  - intros H1 H2. rewrite Exy, Eyz, N.compare_refl. by eapply IH.
  - intros _ _. rewrite Exy. by rewrite (proj2 (N.compare_lt_iff _ _) Lyz).
  - intros _. rewrite <- Eyz. by rewrite (proj2 (N.compare_lt_iff _ _) Lxy).
  - intros _. by rewrite (proj2 (N.compare_lt_iff _ _) (N.lt_trans _ _ _ Lxy Lyz)).
Qed.

(** Not after, on names. *)
Lemma not_ltb_trans a b c : String.ltb b a = false -> String.ltb c b = false -> String.ltb c a = false.
Proof.
  intros Hba Hcb. destruct (String.ltb c a) eqn:Hca; [|done]. apply ltb_spec in Hca. exfalso.
  assert (Hbc : String.compare b c = Lt \/ b = c).
  { rewrite String.compare_antisym. unfold String.ltb in Hcb. destruct (String.compare c b) eqn:E; [|done|by left].
    right. symmetry. by apply String.compare_eq_iff. }
  destruct Hbc as [Hbc| <-].
  - pose proof (compare_lt_trans _ _ _ Hbc Hca) as Ht. apply ltb_spec in Ht. congruence.
  - apply ltb_spec in Hca. congruence.
Qed.

Lemma ltb_total a b : String.ltb b a = false \/ String.ltb a b = false.
Proof.
  unfold String.ltb. rewrite (String.compare_antisym b a). destruct (String.compare a b); cbn; auto.
Qed.

(** The key the comparison reads: a constant address, the name. *)
Definition address_key (p : positive * MemRefData) : option Z * string :=
  (match byte_offset p.2 with ConstInt v _ => Some v | _ => None end, name_hint p.2).

Definition key_less (a b : option Z * string) : bool :=
  match a.1, b.1 with
  | Some x, Some y => if negb (x =? y) then x <? y else String.ltb a.2 b.2
  | Some _, None => true
  | None, Some _ => false
  | None, None => String.ltb a.2 b.2
  end.

Lemma address_less_key a b : address_less a b = key_less (address_key a) (address_key b).
Proof. unfold address_less, key_less, address_key. by destruct (byte_offset a.2), (byte_offset b.2). Qed.

#[export] Instance address_le_total : Total address_le.
Proof.
  intros a b. unfold address_le. rewrite !address_less_key. destruct (address_key a) as [x na], (address_key b) as [y nb].
  unfold key_less. cbn [fst snd]. pose proof (ltb_total na nb). destruct x as [x|], y as [y|]; auto.
  destruct (Z.eqb_spec x y) as [->|Hne]; [by rewrite Z.eqb_refl; cbn [negb] |].
  rewrite (proj2 (Z.eqb_neq y x)) by congruence. cbn [negb].
  destruct (Z.le_ge_cases x y); [left | right]; apply Z.ltb_ge; lia.
Qed.

#[export] Instance address_le_trans : Transitive address_le.
Proof.
  intros a b c. unfold address_le. rewrite !address_less_key.
  destruct (address_key a) as [x na], (address_key b) as [y nb], (address_key c) as [z nc].
  unfold key_less. cbn [fst snd]. pose proof (not_ltb_trans na nb nc) as Ht.
  destruct x as [x|], y as [y|], z as [z|]; try done; auto.
  destruct (Z.eqb_spec y x), (Z.eqb_spec z y), (Z.eqb_spec z x); cbn [negb]; rewrite ?Z.ltb_ge; auto; lia.
Qed.

(** ** The allocator returns *)

Lemma slot_size_def group : forall size,
  Forall (fun m : MemRef => 0 < size_ m) group -> slot_size size group = Ok (Z.max size (group_size group)) \/ size < 0.
Proof.
  induction group as [|m group IH]; intros size H; cbn [slot_size group_size foldr].
  - destruct (Z.lt_ge_cases size 0); [by right | left; f_equal; lia].
  - inversion H as [|? ? Hm Hg]; subst. rewrite (proj2 (Z.gtb_lt _ _)) by lia. cbn [require bind].
    destruct (IH (Z.max size (size_ m)) Hg) as [->|]; [|lia]. left. fold (group_size group). f_equal. lia.
Qed.

Section Returns.
Context (ends : ReservedEndBySpace) (reserved : gmap positive Z) (relative : RelativeMemRefOffsets)
  (mem_size : option (MemorySpace -> Z)).

(** A reference of positive size whose offset, when it is a constant, is within its allocation. *)
Definition placeable (bytes : positive -> Z) (m : MemRef) : Prop :=
  0 < size_ m /\ match relative !! memref_id m with
  | Some (ConstInt r _) => 0 <= r <= bytes (base_key m)
  | Some _ => True
  | None => False
  end.

Lemma readdress_def bytes base b group :
  0 <= base -> 0 <= bytes b -> base + bytes b <= INT64_MAX -> Forall (fun m => placeable bytes m /\ base_key m = b) group ->
  exists pairs, readdress base relative group = Ok pairs.
Proof.
  intros H0 Hb Hle Hf. induction Hf as [|m group [[_ Hm] <-] Hf IH]; cbn [readdress]; [by eexists |].
  destruct IH as [rest ->]. unfold MakeAbsoluteMemRefAddress. rewrite (proj2 (Z.leb_le base _)) by lia. cbn [require bind].
  destruct (relative !! memref_id m) as [e|]; [|done]. destruct e as [|r dt| | | | |]; try (cbn [bind]; by eexists).
  rewrite Z.geb_leb, u64_id, !(proj2 (Z.leb_le _ _)) by lia64. cbn [require bind]. unfold add64.
  rewrite checked_in by lia64. cbn [bind]. by eexists.
Qed.

Lemma allocate_groups_def refs space bases : forall c,
  0 <= c -> c + room (space_alignment space) (allocated reserved refs) bases <= INT64_MAX ->
  Forall (placeable (allocated reserved refs)) refs ->
  exists pairs f, allocate_groups reserved relative refs (MkFootprint space c) bases = Ok (pairs, f).
Proof.
  pose proof (space_alignment_pos space) as Ha. intros c Hc Hroom Hf. revert c Hc Hroom.
  induction bases as [|b bases IH]; intros c Hc Hroom; cbn [allocate_groups]; [by do 2 eexists |].
  cbn [room foldr] in Hroom. fold (room (space_alignment space) (allocated reserved refs) bases) in Hroom.
  pose proof (allocated_nonneg reserved refs b) as Hn.
  pose proof (room_nonneg (space_alignment space) (allocated reserved refs) Ha (allocated_nonneg reserved refs) bases) as Hrn.
  pose proof (round_up_spec (c + allocated reserved refs b) (space_alignment space) Ha) as [Hr _].
  assert (Hg : Forall (fun m => placeable (allocated reserved refs) m /\ base_key m = b) (base_group refs b)).
  { apply Forall_forall. intros m Hm. apply base_group_in in Hm as [Hm Hb]. rewrite Forall_forall in Hf. auto. }
  destruct (slot_size_def (base_group refs b) 0) as [->|]; [|cbn [bind]|lia].
  { eapply Forall_impl; [exact Hg |]. by intros m [[? _] _]. }
  replace (Z.max 0 (group_size (base_group refs b))) with (group_size (base_group refs b))
    by (pose proof (group_size_nonneg (base_group refs b)); lia).
  cbn [OpenBuffer current_addr fspace]. fold (allocated reserved refs b). rewrite u64_id, AlignAddress_law by lia64.
  destruct (readdress_def (allocated reserved refs) c b (base_group refs b)) as [ps ->]; [lia..|done|]. cbn [bind].
  destruct (IH (round_up (c + allocated reserved refs b) (space_alignment space))) as (rest & f & ->); [lia..|].
  cbn [bind]. by do 2 eexists.
Qed.

(** The allocations of a space fit its memory. *)
Definition within (memrefs : list (MemRef * MemorySpace)) (s : MemorySpace) : Prop :=
  match mem_size with Some get => get s = 0 \/ high_water ends reserved memrefs s <= get s | None => True end.

Lemma allocate_space_outcome memrefs s :
  ShouldAllocate s = true ->
  0 <= start_of ends s ->
  start_of ends s + room (space_alignment s) (placed_bytes reserved memrefs s) (ordered_bases (in_space memrefs s)) <= INT64_MAX ->
  (forall m, (m, s) ∈ memrefs -> placeable (placed_bytes reserved memrefs s) m) ->
  (exists pairs, allocate_space ends reserved relative mem_size s (in_space memrefs s) = Ok pairs /\ within memrefs s) \/
  (allocate_space ends reserved relative mem_size s (in_space memrefs s) = Err CheckFailed /\ ~ within memrefs s).
Proof.
  intros Ha H0 Hroom Hp. unfold allocate_space. rewrite Ha. cbn [negb].
  destruct (allocate_groups_def (OrderMemRefs (in_space memrefs s)) s (ordered_bases (in_space memrefs s)) (start_of ends s))
    as (pairs & f & Hg); [done..| |].
  { apply Forall_forall. intros m Hm. apply Hp, in_space_in. by rewrite OrderMemRefs_perm in Hm. }
  change (placed_bytes reserved memrefs s) with (allocated reserved (OrderMemRefs (in_space memrefs s))) in Hroom.
  pose proof Hg as [Hend _]%allocate_groups_ok; [|done|lia64].
  fold (start_of ends s) (ordered_bases (in_space memrefs s)). rewrite Hg. cbn [bind].
  unfold within. destruct mem_size as [get|]; [|left; by eexists]. rewrite Hend.
  change (walk_end (space_alignment s) _ _ _) with (high_water ends reserved memrefs s). unfold require.
  destruct (Z.eqb_spec (get s) 0); cbn [orb]; [left; eexists; split; [done | by left] |].
  destruct (Z.leb_spec (high_water ends reserved memrefs s) (get s)); cbn [bind]; [left; eexists; split; [done | by right] |].
  right. split; [done | lia].
Qed.

End Returns.

End Allocate.
