(* ===== verification/MemrefPlan.v ===== *)
(** * The address plan of a function

    Reserved buffers are disjoint ranges below the reserved end of their space;
    the sequential allocator places every reference above it. *)

From Stdlib Require Import ZArith Lia Bool List String.
From stdpp Require Import base gmap list option strings sorting.
From S2P Require Import Prelude Dtype ScalarExpr Storage Dsa DsaSpec DsaFit Memref MemrefSound.

(** ** The neighbours of a key *)

Lemma ascending_map_in {A} (m : gmap Z A) k v : (k, v) ∈ ascending_map m <-> m !! k = Some v.
Proof. unfold ascending_map. by rewrite sort_by_perm, elem_of_map_to_list. Qed.

Lemma ascending_map_sorted {A} (m : gmap Z A) :
  StronglySorted (fun a b : Z * A => a.1 <= b.1) (ascending_map m).
Proof. by apply (sort_by_first (fun kv : Z * A => [kv.1])). Qed.

Lemma first_from (l : list (Z * Z)) k :
  StronglySorted (fun a b : Z * Z => a.1 <= b.1) l ->
  match head (List.filter (fun kv => k <=? kv.1) l) with
  | Some (k', e) => (k', e) ∈ l /\ k <= k' /\ forall k'' e'', (k'', e'') ∈ l -> k <= k'' -> k' <= k''
  | None => forall k'' e'', (k'', e'') ∈ l -> k'' < k
  end.
Proof.
  intros Hs. induction Hs as [|[k0 e0] l Hs IH Hl]; cbn [List.filter head]; [by intros ? ? ?%elem_of_nil |].
  cbn [fst]. destruct (Z.leb_spec k k0) as [Hk|Hk]; cbn [head].
  - split_and!; [by left | done |]. intros k'' e'' [[= -> ->]|Hin]%elem_of_cons _; [done |].
    rewrite Forall_forall in Hl. by apply (Hl (k'', e'')).
  - destruct (head (List.filter _ l)) as [[k' e]|].
    + destruct IH as (Hin & Hle & Hmin). split_and!; [by right | done |].
      intros k'' e'' [[= -> ->]|Hin'']%elem_of_cons Hk''; [lia | by eapply Hmin].
    + intros k'' e'' [[= -> ->]|Hin]%elem_of_cons; [done | by eapply IH].
Qed.

Lemma last_before (l : list (Z * Z)) k :
  StronglySorted (fun a b : Z * Z => a.1 <= b.1) l ->
  match last (List.filter (fun kv => kv.1 <? k) l) with
  | Some (k', e) => (k', e) ∈ l /\ k' < k /\ forall k'' e'', (k'', e'') ∈ l -> k'' < k -> k'' <= k'
  | None => forall k'' e'', (k'', e'') ∈ l -> k <= k''
  end.
Proof.
  intros Hs. induction Hs as [|[k0 e0] l Hs IH Hl]; cbn [List.filter last]; [by intros ? ? ?%elem_of_nil |].
  cbn [fst]. rewrite Forall_forall in Hl. destruct (Z.ltb_spec k0 k) as [Hk|Hk].
  - rewrite last_cons. destruct (last (List.filter _ l)) as [[k' e]|].
    + destruct IH as (Hin & Hlt & Hmax). split_and!; [by right | done |].
      intros k'' e'' [[= -> ->]|Hin'']%elem_of_cons Hk''; [by apply (Hl (k', e)) | by eapply Hmax].
    + split_and!; [by left | done |]. intros k'' e'' [[= -> ->]|Hin]%elem_of_cons Hk''; [done |].
      apply IH in Hin. lia.
  - destruct (last (List.filter _ l)) as [[k' e]|].
    + destruct IH as (Hin & Hlt & Hmax). pose proof (Hl (k', e) Hin) as Hc. cbn [fst] in Hc. lia.
    + intros k'' e'' [[= -> ->]|Hin]%elem_of_cons; [done | by eapply IH].
Qed.

Lemma lower_bound_spec (m : gmap Z Z) k :
  match lower_bound m k with
  | Some (k', e) => m !! k' = Some e /\ k <= k' /\ forall k'' e'', m !! k'' = Some e'' -> k <= k'' -> k' <= k''
  | None => forall k'' e'', m !! k'' = Some e'' -> k'' < k
  end.
Proof.
  pose proof (first_from _ k (ascending_map_sorted m)) as H. fold (lower_bound m k) in H.
  destruct (lower_bound m k) as [[k' e]|]; setoid_rewrite ascending_map_in in H; exact H.
Qed.

Lemma before_bound_spec (m : gmap Z Z) k :
  match before_bound m k with
  | Some (k', e) => m !! k' = Some e /\ k' < k /\ forall k'' e'', m !! k'' = Some e'' -> k'' < k -> k'' <= k'
  | None => forall k'' e'', m !! k'' = Some e'' -> k <= k''
  end.
Proof.
  pose proof (last_before _ k (ascending_map_sorted m)) as H. fold (before_bound m k) in H.
  destruct (before_bound m k) as [[k' e]|]; setoid_rewrite ascending_map_in in H; exact H.
Qed.

(** ** Reserved buffers *)

Section Reserve.
Context `{policy : MemoryAllocatorPolicy} `{!PolicyLaws policy} (space : MemorySpace).

(** The base a buffer asks for, or the next free one. *)
Definition wanted (st : Resolving) (r : ReserveBufferInfo) : Z :=
  if reserve_base r >=? 0 then reserve_base r else next_base st.

(** The end of a buffer, aligned. *)
Definition reserve_end (base : Z) (r : ReserveBufferInfo) : Z :=
  round_up (base + reserve_size r) (space_alignment space).

(** A buffer whose size and base are C ints. *)
Definition reserve_ok (r : ReserveBufferInfo) : Prop :=
  0 < reserve_size r < 2 ^ 31 /\ reserve_base r < 2 ^ 31.

(** The ranges are disjoint and below the reserved end, which is the next base. *)
Record resolving (st : Resolving) : Prop := {
  ranges_bounds : forall b e, ranges st !! b = Some e -> 0 <= b < e /\ e <= reserved_end st;
  ranges_disjoint : forall b e b' e', ranges st !! b = Some e -> ranges st !! b' = Some e' -> b < b' -> e <= b';
  next_is_end : next_base st = reserved_end st;
  end_nonneg : 0 <= reserved_end st <= 2 ^ 33;
  end_aligned : (space_alignment space | reserved_end st);
  bases_ranges : forall c b, resolved_bases st !! c = Some b -> is_Some (ranges st !! b);
  bases_inj : forall c c' b, resolved_bases st !! c = Some b -> resolved_bases st !! c' = Some b -> c = c'
}.

Definition clear_of_all (st : Resolving) (base end_ : Z) : Prop :=
  forall b e, ranges st !! b = Some e -> e <= base \/ end_ <= b.

(** Looking at the two neighbours is looking at every range. *)
Lemma neighbours_clear st base end_ :
  resolving st -> base < end_ ->
  (range_clear base end_ (lower_bound (ranges st) base) = true /\
   range_clear base end_ (before_bound (ranges st) base) = true) <-> clear_of_all st base end_.
Proof.
  intros Hst Hlt. pose proof (lower_bound_spec (ranges st) base) as Hl.
  pose proof (before_bound_spec (ranges st) base) as Hb. unfold range_clear. split.
  - intros [Cl Cb] b e Hin. pose proof (ranges_bounds _ Hst _ _ Hin) as [Hbe _]. destruct (Z.le_gt_cases base b) as [Hle|Hgt].
    + destruct (lower_bound (ranges st) base) as [[k' e']|]; [|apply Hl in Hin; lia].
      destruct Hl as (Hk & Hbk & Hmin). pose proof (ranges_bounds _ Hst _ _ Hk). specialize (Hmin _ _ Hin Hle).
      bool_to_prop. right. lia.
    + destruct (before_bound (ranges st) base) as [[k' e']|]; [|apply Hb in Hin; lia].
      destruct Hb as (Hk & Hkb & Hmax). specialize (Hmax _ _ Hin Hgt). pose proof (ranges_bounds _ Hst _ _ Hk). bool_to_prop.
      left. destruct (Z.eq_dec b k') as [->|Hne]; [assert (e = e') by congruence; lia |].
      pose proof (ranges_disjoint _ Hst b e k' e' Hin Hk). lia.
  - intros Hc. split.
    + destruct (lower_bound (ranges st) base) as [[k' e']|]; [|done]. destruct Hl as (Hk & Hbk & _).
      apply Hc in Hk as Hk'. pose proof (ranges_bounds _ Hst _ _ Hk). apply negb_true_iff, andb_false_iff. rewrite !Z.ltb_ge. lia.
    + destruct (before_bound (ranges st) base) as [[k' e']|]; [|done]. destruct Hb as (Hk & Hbk & _).
      apply Hc in Hk as Hk'. pose proof (ranges_bounds _ Hst _ _ Hk). apply negb_true_iff, andb_false_iff. rewrite !Z.ltb_ge. lia.
Qed.

Context (align_small : space_alignment space <= 2 ^ 32).

Lemma wanted_nonneg st r : resolving st -> 0 <= wanted st r.
Proof.
  intros Hst. pose proof (end_nonneg _ Hst). pose proof (next_is_end _ Hst). unfold wanted.
  destruct (Z.geb_spec (reserve_base r) 0); lia.
Qed.

Lemma resolve_one_spec st r :
  resolving st -> reserve_ok r ->
  let b := wanted st r in
  let e := reserve_end b r in
  match resolve_one space st r with
  | Ok st' => (b <= 2 ^ 31 - 1 /\ clear_of_all st b e) /\
      st' = MkResolving (<[ reserve_call r := b ]> (resolved_bases st)) (Z.max (reserved_end st) e) (Z.max (next_base st) e)
              (<[ b := e ]> (ranges st))
  | Err err => err = InternalError /\ ~ (b <= 2 ^ 31 - 1 /\ clear_of_all st b e)
  end.
Proof.
  intros Hst [Hsize Hbase]. cbv zeta. pose proof (wanted_nonneg st r Hst) as Hw. unfold resolve_one.
  fold (wanted st r). set (b := wanted st r) in *. pose proof (space_alignment_pos space) as Ha.
  pose proof (round_up_spec (b + reserve_size r) (space_alignment space) Ha) as [Hr _].
  destruct (Z.leb_spec b (2 ^ 31 - 1)) as [Hb|Hb]; cbn [require bind]; [|split; [done | lia]].
  rewrite u64_id, AlignAddress_law by lia64. fold (reserve_end b r). fold (reserve_end b r) in Hr.
  pose proof (neighbours_clear st b (reserve_end b r) Hst ltac:(lia)) as Hn.
  destruct (range_clear b (reserve_end b r) (lower_bound _ b)); cbn [require bind];
    [|split; [done | intros [_ Hc%Hn]; by destruct Hc]].
  destruct (range_clear b (reserve_end b r) (before_bound _ b)); cbn [require bind];
    [|split; [done | intros [_ Hc%Hn]; by destruct Hc]].
  assert (Hc : clear_of_all st b (reserve_end b r)) by by apply Hn. split; [done |].
  unfold emplace. destruct (ranges st !! b) as [e'|] eqn:E; [|done].
  pose proof (ranges_bounds _ Hst _ _ E). apply Hc in E. lia.
Qed.

(** A buffer that was given its range. *)
Definition given (st : Resolving) (r : ReserveBufferInfo) : Prop :=
  exists b e, resolved_bases st !! reserve_call r = Some b /\ ranges st !! b = Some e /\ b + reserve_size r <= e /\
    (0 <= reserve_base r -> b = reserve_base r).

Lemma resolve_one_ok st r st' :
  resolving st -> reserve_ok r -> resolved_bases st !! reserve_call r = None -> resolve_one space st r = Ok st' ->
  resolving st' /\ given st' r /\ (forall c, c <> reserve_call r -> resolved_bases st' !! c = resolved_bases st !! c) /\
  ranges st ⊆ ranges st'.
Proof.
  intros Hst Hr Hnew H. pose proof (resolve_one_spec st r Hst Hr) as Hspec. rewrite H in Hspec. cbv zeta in Hspec.
  destruct Hspec as [[Hb Hc] ->]. pose proof (wanted_nonneg st r Hst) as Hw. destruct Hr as [Hsize _].
  set (b := wanted st r) in *. set (e := reserve_end b r) in *.
  assert (He : b + reserve_size r <= e <= 2 ^ 33).
  { pose proof (round_up_spec (b + reserve_size r) (space_alignment space) (space_alignment_pos space)). unfold e, reserve_end. lia. }
  assert (Hfree : ranges st !! b = None).
  { destruct (ranges st !! b) as [e'|] eqn:E; [|done]. pose proof (ranges_bounds _ Hst _ _ E). apply Hc in E. lia. }
  split_and!.
  - split; cbn [ranges reserved_end next_base resolved_bases].
    + intros b0 e0 [[<- <-]|[_ Hin%(ranges_bounds _ Hst)]]%lookup_insert_Some; lia.
    + intros b0 e0 b1 e1 [[<- <-]|[_ H0]]%lookup_insert_Some [[<- <-]|[_ H1]]%lookup_insert_Some Hlt; [lia | | |].
      * pose proof (ranges_bounds _ Hst _ _ H1). apply Hc in H1. lia.
      * pose proof (ranges_bounds _ Hst _ _ H0). apply Hc in H0. lia.
      * by eapply (ranges_disjoint _ Hst).
    + rewrite (next_is_end _ Hst). done.
    + pose proof (end_nonneg _ Hst). lia.
    + pose proof (end_aligned _ Hst). destruct (Z.max_spec (reserved_end st) e) as [[_ ->]|[_ ->]]; [|done].
      by apply round_up_spec, space_alignment_pos.
    + intros c b0 [[<- <-]|[_ Hin]]%lookup_insert_Some; [rewrite lookup_insert_eq; by eexists |].
      apply (bases_ranges _ Hst) in Hin as [e0 Hin]. exists e0. rewrite lookup_insert_ne; [done | congruence].
    + intros c c' b0 [[<- <-]|[_ H0]]%lookup_insert_Some [[<- E]|[_ H1]]%lookup_insert_Some; [done | | |].
      * apply (bases_ranges _ Hst) in H1 as [? ?]. congruence.
      * subst b0. apply (bases_ranges _ Hst) in H0 as [? ?]. congruence.
      * by eapply (bases_inj _ Hst).
  - exists b, e. cbn [ranges resolved_bases]. rewrite !lookup_insert_eq. split_and!; [done | done | lia |].
    intros Hb0. unfold b, wanted. destruct (Z.geb_spec (reserve_base r) 0); [done | lia].
  - intros c Hne. cbn [resolved_bases]. by rewrite lookup_insert_ne by done.
  - cbn [ranges]. by apply insert_subseteq.
Qed.

Lemma resolve_all_ok rs : forall st st',
  resolving st -> Forall reserve_ok rs -> NoDup (map reserve_call rs) ->
  (forall r, r ∈ rs -> resolved_bases st !! reserve_call r = None) -> resolve_all space st rs = Ok st' ->
  resolving st' /\ (forall r, r ∈ rs -> given st' r) /\ ranges st ⊆ ranges st' /\
  (forall c, c ∉ map reserve_call rs -> resolved_bases st' !! c = resolved_bases st !! c).
Proof.
  induction rs as [|r rs IH]; intros st st' Hst Hok Hn Hnew H; cbn [resolve_all] in H.
  - inv_ok. split_and!; [done | by intros ? ?%elem_of_nil | done | done].
  - apply bind_ok in H as (st1 & H1 & H). inversion Hok as [|? ? Hr Hrs]; subst. cbn [map] in *.
    apply NoDup_cons in Hn as [Hrn Hn].
    apply resolve_one_ok in H1 as (Hst1 & Hg & Hsame & Hsub); [|done..|by apply Hnew; left].
    apply IH in H as (Hst' & Hall & Hsub' & Hsame'); try done.
    + split_and!; [done | | by etrans |].
      * intros r' [->|Hr']%elem_of_cons; [|by apply Hall]. destruct Hg as (b & e & Hb & He & Hle & Hx).
        exists b, e. split_and!; [by rewrite Hsame' | by eapply lookup_weaken | done | done].
      * intros c Hc. rewrite not_elem_of_cons in Hc. destruct Hc as [Hc1 Hc2]. by rewrite Hsame', Hsame.
    + intros r' Hr'. rewrite Hsame; [apply Hnew; by right |]. intros E. apply Hrn. rewrite <- E.
      by apply (list_elem_of_fmap_2 reserve_call).
Qed.

End Reserve.

(** ** The calls of a body *)

Section Plan.
Context `{policy : MemoryAllocatorPolicy} `{!PolicyLaws policy}.
Context (align_small : forall space, space_alignment space <= 2 ^ 32).

Definition as_reserve (c : positive * Z * Z) : ReserveBufferInfo := MkReserve c.1.1 c.1.2 c.2.

Lemma collect_reserves_ok calls rs :
  collect_reserves calls = Ok rs ->
  rs = map as_reserve calls /\ Forall (fun r => 0 < reserve_size r) rs.
Proof.
  revert rs. induction calls as [|[[call size] base] calls IH]; intros rs H; cbn [collect_reserves] in H.
  - inv_ok. done.
  - apply bind_ok in H as (? & Hs%require_ok & H). apply bind_ok in H as (rest & Hrest & H). inv_ok.
    apply IH in Hrest as [-> Hall]. bool_to_prop. split; [done |]. constructor; [done | exact Hall].
Qed.

(** The calls are distinct nodes with C ints. *)
Definition calls_ok (calls : list (positive * Z * Z)) : Prop :=
  NoDup (map (fun c => c.1.1) calls) /\ forall call size base, (call, size, base) ∈ calls -> size < 2 ^ 31 /\ base < 2 ^ 31.

Lemma resolving_start space : resolving space (MkResolving ∅ 0 0 ∅).
Proof. split; cbn; try done; try (intros; by rewrite lookup_empty in *). apply Z.divide_0_r. Qed.

(** What the resolution gives: the space, and its final state. *)
Lemma ResolveReserveBufferBases_ok t calls bases ends :
  calls_ok calls -> ResolveReserveBufferBases t calls = Ok (bases, ends) ->
  (calls = [] /\ bases = ∅ /\ ends = ∅) \/
  exists space st, GetReserveBufferMemorySpace t = Ok space /\ resolving space st /\
    bases = resolved_bases st /\ ends = {[ space_id space := reserved_end st ]} /\
    forall call size base, (call, size, base) ∈ calls -> 0 < size /\ given st (MkReserve call size base).
Proof.
  intros [Hn Hc] (rs & [-> Hpos]%collect_reserves_ok & H)%bind_ok.
  set (rs := map as_reserve calls) in *. destruct calls as [|c calls]; [left; cbn in H; by inv_ok | right].
  assert (Hrun : (let* space := GetReserveBufferMemorySpace t in
                 let* st := resolve_all space (MkResolving ∅ 0 0 ∅) rs in
                 Ok (resolved_bases st, {[ space_id space := reserved_end st ]})) = Ok (bases, ends)) by (destruct c as [[? ?] ?]; exact H).
  clear H. apply bind_ok in Hrun as (space & Hspace & H). apply bind_ok in H as (st & Hst & H). inv_ok.
  assert (Hin : forall call size base, (call, size, base) ∈ c :: calls -> MkReserve call size base ∈ rs).
  { intros call size base Hin. unfold rs. by apply (list_elem_of_fmap_2 as_reserve) in Hin. }
  assert (Hids : map reserve_call rs = map (fun x => x.1.1) (c :: calls)).
  { unfold rs. by rewrite map_map. }
  rewrite Forall_forall in Hpos. apply (resolve_all_ok space (align_small space)) in Hst as (Hst & Hg & _).
  - exists space, st. split_and!; try done. intros call size base Hcall. split; [|by apply Hg, Hin].
    by apply (Hpos (MkReserve call size base)), Hin.
  - apply resolving_start.
  - apply Forall_forall. intros r Hr. specialize (Hpos r Hr).
    apply list_elem_of_fmap in Hr as ([[call size] base] & -> & Hr). cbn in *. apply Hc in Hr. split; cbn; lia.
  - by rewrite Hids.
  - intros r _. apply lookup_empty.
Qed.

Lemma start_facts t calls bases ends s :
  calls_ok calls -> ResolveReserveBufferBases t calls = Ok (bases, ends) ->
  0 <= start_of ends s <= 2 ^ 33 /\ (space_alignment s | start_of ends s).
Proof.
  intros Hc H. unfold start_of. pose proof (Z.divide_0_r (space_alignment s)).
  apply ResolveReserveBufferBases_ok in H as [(_ & _ & ->)|(space & st & Hs & Hst & _ & -> & _)]; [|..|done].
  - by rewrite lookup_empty.
  - destruct (decide (space_id s = space_id space)) as [E|Hne]; [|by rewrite lookup_singleton_ne].
    rewrite E, lookup_singleton_eq. cbn [default from_option id].
    replace s with space by (by destruct s, space). split; [apply (end_nonneg _ _ Hst) | apply (end_aligned _ _ Hst)].
Qed.

(** ** The plan *)

Context (t : FunctionType) (calls : list (positive * Z * Z)) (spaces : list MemorySpace)
  (memrefs : list (MemRef * MemorySpace)) (pinned allocation_sizes : gmap positive Z)
  (relative : RelativeMemRefOffsets) (mem_size : option (MemorySpace -> Z)).

(** The bytes of an allocation: its largest reference and its declared size. *)
Definition plan_bytes (s : MemorySpace) : positive -> Z :=
  placed_bytes (reserved_sizes pinned allocation_sizes memrefs) memrefs s.

(** Every space that is allocated is walked, and its allocations fit 62 bits. *)
Record plan_ok : Prop := {
  plan_calls : calls_ok calls;
  plan_covers : covers memrefs spaces;
  plan_room : forall s, s ∈ spaces -> ShouldAllocate s = true ->
    room (space_alignment s) (plan_bytes s) (ordered_bases (in_space memrefs s)) <= 2 ^ 62
}.

Definition Plan : result (list (positive * MemRefData) * gmap positive Z) :=
  PlanAddresses t calls spaces memrefs pinned allocation_sizes relative mem_size.

Lemma Plan_ok pairs bases :
  plan_ok -> IsInCoreType t = true -> Plan = Ok (pairs, bases) ->
  exists ends, ResolveReserveBufferBases t calls = Ok (bases, ends) /\
    StronglySorted address_le pairs /\
    map fst pairs ≡ₚ map (fun ms => memref_id ms.1) (List.filter (fun ms => ShouldAllocate ms.2) memrefs) /\
    forall s, ShouldAllocate s = true ->
      (forall m, (m, s) ∈ memrefs -> exists p, p ∈ pairs /\
         replaced (placed_at ends (reserved_sizes pinned allocation_sizes memrefs) memrefs s) relative m p) /\
      (forall get m, mem_size = Some get -> (m, s) ∈ memrefs -> get s <> 0 ->
         high_water ends (reserved_sizes pinned allocation_sizes memrefs) memrefs s <= get s).
Proof.
  intros [Hc Hcov Hroom] Ht. unfold Plan, PlanAddresses. rewrite Ht. cbn [negb].
  intros ([bases' ends] & Hres & H)%bind_ok. apply bind_ok in H as (ps & H & Hps). inv_ok.
  unfold AllocateMemoryAddresses in H. apply bind_ok in H as (unsorted & H & Hsort). inv_ok.
  apply allocate_spaces_ok in H as [Hperm Hall].
  - exists ends. split; [done |]. split; [apply StronglySorted_merge_sort; apply _ |]. split.
    + rewrite merge_sort_Permutation, Hperm. by apply ids_perm.
    + intros s Hs. split.
      * intros m Hm. destruct Hcov as [_ Hcov]. destruct (Hall s (Hcov _ _ Hm) Hs) as [Href _].
        destruct (Href m Hm) as (p & Hp & Hrep). exists p. split; [by rewrite merge_sort_Permutation | done].
      * intros get m Hget Hm Hne. destruct Hcov as [_ Hcov]. by apply (Hall s (Hcov _ _ Hm) Hs).
  - intros s Hs Ha. destruct (start_facts t calls bases ends s Hc Hres) as [[? ?] _].
    specialize (Hroom s Hs Ha). unfold spacious. split; [done |]. fold (plan_bytes s). unfold plan_bytes, placed_bytes in Hroom. lia64.
Qed.

End Plan.

(** A plan of two tiles, one a view of another allocation, next to a reserved buffer. *)
Section Example_.
#[local] Existing Instance DefaultMemoryAllocatorPolicy.

Definition tile_at (id base : positive) (name : string) (size : Z) : MemRef :=
  MkMemRef id (MkMemRefData name (MkBase base name) (ConstInt 0 INT64) size false 1 None).

Definition example_calls : list (positive * Z * Z) := [(1%positive, 100, -1); (2%positive, 64, 256)].
Definition example_memrefs : list (MemRef * MemorySpace) :=
  [(tile_at 1 1 "b" 40, Vec); (tile_at 2 2 "a" 64, Vec); (tile_at 3 1 "view" 8, Vec); (tile_at 4 3 "in" 512, DDR)].
Definition example_relative : RelativeMemRefOffsets :=
  {[ 1%positive := ConstInt 0 INT64; 2%positive := ConstInt 0 INT64; 3%positive := ConstInt 16 INT64 ]}.
Definition example_capacity (s : MemorySpace) : Z := match s with Vec => 1024 | _ => 0 end.

Lemma example_ok : plan_ok example_calls [DDR; Vec] example_memrefs ∅ ∅.
Proof.
  split.
  - split.
    + apply (bool_decide_unpack _). by vm_compute.
    + intros call size base H. unfold example_calls in H. repeat (apply elem_of_cons in H as [[= -> -> ->]|H]; [lia |]).
      by apply elem_of_nil in H.
  - split; [apply (bool_decide_unpack _); by vm_compute |]. intros m s H. unfold example_memrefs in H.
    repeat (apply elem_of_cons in H as [[= -> ->]|H]; [set_solver |]). by apply elem_of_nil in H.
  - intros s Hs Ha. apply elem_of_cons in Hs as [->|Hs]; [by vm_compute in Ha |].
    apply list_elem_of_singleton in Hs as ->. by vm_compute.
Qed.

End Example_.

(** ** What the plan gives *)

(** C12: The sequential plan of a function on the cores, when it succeeds (alignments of at
    most 2^32, and room of at most 2^62 bytes for the allocations of a space with their
    alignment; the calls that reserve buffers are distinct, with 32-bit sizes and bases, and
    the spaces of the references are listed once each): every reference of a space the
    policy allocates is replaced exactly once, in the order of addresses, at the address of
    its buffer plus its own offset; the buffers are aligned, hold the largest member and the
    declared size, end within the memory when there is a backend, and the buffers of two
    bases of one space are disjoint. The memory policy is any that satisfies PolicyLaws
    (aligning rounds up, ordering permutes), as the default one does. *)
Theorem PlanAddresses_tiles `{policy : MemoryAllocatorPolicy} `{!PolicyLaws policy}
    t calls spaces memrefs pinned allocation_sizes relative mem_size pairs bases :
  (forall s, space_alignment s <= 2 ^ 32) -> plan_ok calls spaces memrefs pinned allocation_sizes -> IsInCoreType t = true ->
  PlanAddresses t calls spaces memrefs pinned allocation_sizes relative mem_size = Ok (pairs, bases) ->
  StronglySorted address_le pairs /\
  map fst pairs ≡ₚ map (fun ms => memref_id ms.1) (List.filter (fun ms => ShouldAllocate ms.2) memrefs) /\
  exists at_ : MemorySpace -> positive -> Z,
    let bytes := plan_bytes memrefs pinned allocation_sizes in
    (forall m s, (m, s) ∈ memrefs -> ShouldAllocate s = true ->
       (exists p, p ∈ pairs /\ replaced (at_ s) relative m p) /\
       (space_alignment s | at_ s (base_key m)) /\ size_ m <= bytes s (base_key m) /\
       forall get, mem_size = Some get -> get s <> 0 -> at_ s (base_key m) + bytes s (base_key m) <= get s) /\
    (forall m m' s, (m, s) ∈ memrefs -> (m', s) ∈ memrefs -> ShouldAllocate s = true -> base_key m <> base_key m' ->
       disjoint_ranges (at_ s (base_key m)) (bytes s (base_key m)) (at_ s (base_key m')) (bytes s (base_key m'))).
Proof.
  intros Hal Hok Ht H. pose proof H as (ends & Hres & Hsort & Hperm & Hall)%(Plan_ok Hal); [|done..].
  split; [done |]. split; [done |].
  exists (placed_at ends (reserved_sizes pinned allocation_sizes memrefs) memrefs). cbv zeta. split.
  - intros m s Hm Hs. destruct (Hall s Hs) as [Href Hcap].
    destruct (placed_facts ends (reserved_sizes pinned allocation_sizes memrefs) memrefs m s Hm) as (_ & Hhw & Hdiv & Hsize).
    split_and!; [by apply Href | apply Hdiv; by eapply start_facts; [| apply Hok |] | done |].
    intros get Hget Hne. specialize (Hcap get m Hget Hm Hne). unfold plan_bytes. lia.
  - intros m m' s Hm Hm' _ Hne. by apply placed_disjoint.
Qed.

Definition example_plan : list (positive * MemRefData) * gmap positive Z :=
  match @PlanAddresses DefaultMemoryAllocatorPolicy AIV example_calls [DDR; Vec] example_memrefs ∅ ∅ example_relative
          (Some example_capacity) with
  | Ok plan => plan
  | Err _ => ([], ∅)
  end.

Lemma example_plan_is :
  @PlanAddresses DefaultMemoryAllocatorPolicy AIV example_calls [DDR; Vec] example_memrefs ∅ ∅ example_relative
    (Some example_capacity) = Ok example_plan.
Proof. vm_compute. reflexivity. Qed.

(** The addresses of the example: the reserved buffers end at 320. *)
Example example_addresses :
  map (fun p => (p.1, byte_offset p.2)) example_plan.1 =
  [(2%positive, ConstInt 320 INT64); (1%positive, ConstInt 384 INT64); (3%positive, ConstInt 400 INT64)].
Proof. vm_compute. reflexivity. Qed.

Lemma PlanAddresses_tiles_witness :
  map fst example_plan.1 ≡ₚ
    map (fun ms => memref_id ms.1) (List.filter (fun ms => negb (bool_decide (ms.2 = DDR))) example_memrefs).
Proof.
  destruct (@PlanAddresses_tiles DefaultMemoryAllocatorPolicy DefaultPolicyLaws AIV example_calls [DDR; Vec] example_memrefs
    ∅ ∅ example_relative (Some example_capacity) example_plan.1 example_plan.2) as (_ & Hperm & _).
  - intros s. by vm_compute.
  - apply example_ok.
  - reflexivity.
  - rewrite example_plan_is. by destruct example_plan.
  - exact Hperm.
Defined.

(** C26: Reserved buffers of a function on the cores, when its sequential plan succeeds
    (alignments of at most 2^32, and room of at most 2^62 bytes for the allocations of a
    space with their alignment; the calls that reserve buffers are distinct, with 32-bit
    sizes and bases, and the spaces of the references are listed once each): each call gets
    a base, the one it asks for when it asks for one; the ranges of two calls are disjoint;
    and every tile of their space is placed after all of them. The memory policy is any that
    satisfies PolicyLaws (aligning rounds up, ordering permutes), as the default one does. *)
Theorem PlanAddresses_reserves `{policy : MemoryAllocatorPolicy} `{!PolicyLaws policy}
    t calls spaces memrefs pinned allocation_sizes relative mem_size pairs bases :
  (forall s, space_alignment s <= 2 ^ 32) -> plan_ok calls spaces memrefs pinned allocation_sizes -> IsInCoreType t = true ->
  PlanAddresses t calls spaces memrefs pinned allocation_sizes relative mem_size = Ok (pairs, bases) ->
  (forall call size base, (call, size, base) ∈ calls ->
     exists b, bases !! call = Some b /\ 0 <= b /\ (0 <= base -> b = base) /\
       (forall call' size' base', (call', size', base') ∈ calls -> call <> call' ->
          exists b', bases !! call' = Some b' /\ disjoint_ranges b size b' size') /\
       (forall space m, GetReserveBufferMemorySpace t = Ok space -> (m, space) ∈ memrefs -> ShouldAllocate space = true ->
          exists p x a, p ∈ pairs /\ p.1 = memref_id m /\ p.2 = at_address m a /\
            addressed x (relative !! memref_id m) a /\ b + size <= x)).
Proof.
  intros Hal Hok Ht H. pose proof H as (ends & Hres & _ & _ & Hall)%(Plan_ok Hal); [|done..].
  pose proof (plan_calls _ _ _ _ _ Hok) as Hc.
  pose proof Hres as [(-> & _)|(space & st & Hspace & Hst & -> & -> & Hg)]%(ResolveReserveBufferBases_ok Hal); [|..|done].
  { by intros ? ? ? ?%elem_of_nil. }
  intros call size base Hcall. destruct (Hg _ _ _ Hcall) as (Hpos & b & e & Hb & He & Hle & Hx). cbn [reserve_call reserve_size reserve_base] in *.
  pose proof (ranges_bounds _ _ Hst _ _ He) as [Hbe Hend]. exists b. split_and!; [done | lia | done | |].
  - intros call' size' base' Hcall' Hne. destruct (Hg _ _ _ Hcall') as (Hpos' & b' & e' & Hb' & He' & Hle' & _).
    cbn [reserve_call reserve_size reserve_base] in *. exists b'. split; [done |]. unfold disjoint_ranges.
    destruct (Z.lt_trichotomy b b') as [Hlt|[->|Hlt]].
    + pose proof (ranges_disjoint _ _ Hst _ _ _ _ He He' Hlt). lia.
    + by destruct Hne; eapply (bases_inj _ _ Hst).
    + pose proof (ranges_disjoint _ _ Hst _ _ _ _ He' He Hlt). lia.
  - intros space' m Hs' Hm Ha. assert (space' = space) as -> by congruence.
    destruct (Hall space Ha) as [Href _]. destruct (Href m Hm) as (p & Hp & Hid & a & Hat & Hadd).
    eexists p, _, a. split_and!; [done.. |].
    destruct (placed_facts {[space_id space := reserved_end st]} (reserved_sizes pinned allocation_sizes memrefs) memrefs m space Hm)
      as (Hstart & _). unfold start_of in Hstart. rewrite lookup_singleton_eq in Hstart. cbn [default from_option id] in Hstart. lia.
Qed.

Lemma PlanAddresses_reserves_witness : exists b, example_plan.2 !! 1%positive = Some b /\ 0 <= b.
Proof.
  destruct (@PlanAddresses_reserves DefaultMemoryAllocatorPolicy DefaultPolicyLaws AIV example_calls [DDR; Vec] example_memrefs
    ∅ ∅ example_relative (Some example_capacity) example_plan.1 example_plan.2) with (call := 1%positive) (size := 100) (base := -1)
    as (b & Hb & H0 & _).
  - intros s. by vm_compute.
  - apply example_ok.
  - reflexivity.
  - rewrite example_plan_is. by destruct example_plan.
  - left.
  - by exists b.
Defined.

(** The allocator fails on no input of this kind but one that does not fit. *)
(** C36: For spaces whose addresses stay within int64_t (start plus room for the allocations
    and their alignment at most INT64_MAX; the code has an internal check beyond) and
    references of positive size with offsets inside their buffers, AllocateMemoryAddresses
    has two outcomes, told apart by the memory alone: it succeeds, and then every space it
    was given fits its memory; or it reports to the user that a buffer does not fit, and
    then one space does not. It has no other error. The memory policy is any that satisfies
    PolicyLaws (aligning rounds up, ordering permutes), as the default one does. *)
Theorem AllocateMemoryAddresses_outcome `{policy : MemoryAllocatorPolicy} `{!PolicyLaws policy}
    spaces memrefs ends reserved relative mem_size :
  (forall s, s ∈ spaces -> ShouldAllocate s = true ->
     0 <= start_of ends s /\
     start_of ends s + room (space_alignment s) (placed_bytes reserved memrefs s) (ordered_bases (in_space memrefs s)) <= INT64_MAX /\
     forall m, (m, s) ∈ memrefs -> placeable relative (placed_bytes reserved memrefs s) m) ->
  match AllocateMemoryAddresses spaces memrefs ends reserved relative mem_size with
  | Ok _ => forall s, s ∈ spaces -> ShouldAllocate s = true -> within ends reserved mem_size memrefs s
  | Err err => err = CheckFailed /\
      exists s, s ∈ spaces /\ ShouldAllocate s = true /\ ~ within ends reserved mem_size memrefs s
  end.
Proof.
  unfold AllocateMemoryAddresses. induction spaces as [|s spaces IH]; intros Hsp; cbn [allocate_spaces].
  - cbn [bind]. by intros s ?%elem_of_nil.
  - assert (IH' := IH (fun s' Hs' => Hsp s' (proj2 (elem_of_cons _ _ _) (or_intror Hs')))).
    assert (Hhead : (exists ps, allocate_space ends reserved relative mem_size s (in_space memrefs s) = Ok ps /\
        (ShouldAllocate s = true -> within ends reserved mem_size memrefs s)) \/
      (ShouldAllocate s = true /\ allocate_space ends reserved relative mem_size s (in_space memrefs s) = Err CheckFailed /\
        ~ within ends reserved mem_size memrefs s)).
    { destruct (ShouldAllocate s) eqn:Ha.
      - destruct (Hsp s ltac:(by left) Ha) as (H0 & Hroom & Hp).
        destruct (allocate_space_outcome ends reserved relative mem_size memrefs s Ha H0 Hroom Hp) as [(ps & E & Hw)|[E Hw]];
          [left; by exists ps | by right].
      - left. exists []. unfold allocate_space. by rewrite Ha. }
    destruct Hhead as [(ps & -> & Hw)|(Ha & -> & Hw)]; cbn [bind].
    + destruct (allocate_spaces ends reserved relative mem_size memrefs spaces) as [rest|err]; cbn [bind] in *.
      * intros s' [->|Hs']%elem_of_cons Ha; [by apply Hw | by apply IH'].
      * destruct IH' as (-> & s' & Hs' & Ha & Hw'). split; [done |]. exists s'. split; [by right | done].
    + split; [done |]. exists s. split; [by left | done].
Qed.

Lemma AllocateMemoryAddresses_outcome_witness :
  @AllocateMemoryAddresses DefaultMemoryAllocatorPolicy [Vec] example_memrefs ∅ ∅ example_relative (Some (fun _ => 100))
    = Err CheckFailed /\
  exists s, s ∈ [Vec] /\ ~ @within _ DefaultPolicyLaws ∅ ∅ (Some (fun _ => 100)) example_memrefs s.
Proof.
  split; [by vm_compute |].
  assert (H := @AllocateMemoryAddresses_outcome DefaultMemoryAllocatorPolicy DefaultPolicyLaws [Vec] example_memrefs ∅ ∅
    example_relative (Some (fun _ => 100))).
  match type of H with ?P -> _ => assert (Hp : P) end.
  { intros s Hs _. apply list_elem_of_singleton in Hs as ->. split_and!; [by vm_compute | by vm_compute |].
    intros m Hm. unfold example_memrefs in Hm.
    repeat (apply elem_of_cons in Hm as [E|Hm];
      [first [discriminate E | injection E as ->; vm_compute; repeat split; discriminate] |]). by apply elem_of_nil in Hm. }
  specialize (H Hp). revert H.
  replace (@AllocateMemoryAddresses DefaultMemoryAllocatorPolicy [Vec] example_memrefs ∅ ∅ example_relative (Some (fun _ => 100)))
    with (@Err (list (positive * MemRefData)) CheckFailed) by (by vm_compute).
  intros (_ & s & Hs & _ & Hw). by exists s.
Defined.
