(* ===== verification/DsaAdapter.v ===== *)
(** * From a function's allocations to a placement problem and back

    [src/ir/transforms/dsa/allocation_plan.cpp], [memref_dsa_adapter.cpp] and
    [PlanWithDsaRP] of [allocate_memory_addr_pass.cpp]: the separations of the
    allocations, the problem the solver is given, the relaxation of the pipeline
    separations and the addresses written back. The analyses of the function
    (lifetimes, constraints, recognized penalties) are arguments. *)

From Stdlib Require Import ZArith Lia Bool List String.
From stdpp Require Import base gmap list option strings sorting.
From S2P Require Import Prelude Dtype ScalarExpr Storage Dsa DsaSearch Memref.

(** ** The plan *)

Inductive AllocationSeparationReason := PipelineStage | TargetHazard | SemanticNoAlias | DeclaredAllocation.

#[export] Instance reason_eq_dec : EqDecision AllocationSeparationReason.
Proof. solve_decision. Defined.

(** The value of the enumerator. *)
Definition reason_id (r : AllocationSeparationReason) : nat :=
  match r with PipelineStage => 0 | TargetHazard => 1 | SemanticNoAlias => 2 | DeclaredAllocation => 3 end.
Definition reason_of (n : nat) : option AllocationSeparationReason :=
  nth_error [PipelineStage; TargetHazard; SemanticNoAlias; DeclaredAllocation] n.

#[export] Instance reason_countable : Countable AllocationSeparationReason.
Proof. apply (inj_countable reason_id reason_of). by intros []. Defined.

(** [LifetimeInterval]: the representative variable, the memory reference of
    its tile type, its points, its space and its size. *)
Record LifetimeInterval := MkLifetime {
  variable : positive;
  var_memref : option MemRefData;
  def_point : Z;
  last_use_point : Z;
  memory_space : MemorySpace;
  lsize : Z
}.

Record AllocationSeparation := MkAllocSeparation {
  as_first : nat; as_second : nat; reasons : list AllocationSeparationReason
}.

Record AllocationPlan := MkPlan { intervals : list LifetimeInterval; plan_separations : list AllocationSeparation }.

(** The members of [LifetimeAnalysisResult] that are read: a sharing group is
    given by the references of its members. *)
Record LifetimeAnalysisResult := MkAnalysis {
  lifetimes : list LifetimeInterval;
  var_sharing_groups : gmap positive (list (option MemRefData));
  pipeline_membership : gmap positive (list (Z * Z))
}.

(** [AllocationConstraintAnalysis]; an operand of [forbid_alias] is given by its
    reference. *)
Record AllocationConstraintAnalysis := MkConstraints {
  declared_allocation_sizes : gmap positive Z;
  declared_allocation_bases : gset positive;
  load_derived : gset positive;
  reads_tpop : gset positive;
  written_workspaces : gset positive;
  written_workspace_bases : gset positive;
  looping_written_workspaces : gset positive;
  looping_written_workspace_bases : gset positive;
  forbid_alias : gmap positive (list (option MemRefData));
  needs_load_tpop_hazard_guard : bool
}.

(** ** [BuildDsaAllocationPlan] *)

Definition data_key (m : MemRefData) : positive := base_id (base_ m).

(** The size of one allocation. *)
Fixpoint member_size (size : Z) (members : list (option MemRefData)) : result Z :=
  match members with
  | [] => Ok size
  | None :: _ => Err InternalError
  | Some m :: members => member_size (Z.max size (size_ m)) members
  end.

Definition allocation_size (analysis : LifetimeAnalysisResult) (constraints : AllocationConstraintAnalysis)
    (interval : LifetimeInterval) : result Z :=
  let* size := member_size (lsize interval) (default [] (var_sharing_groups analysis !! variable interval)) in
  match var_memref interval with
  | Some m =>
      match declared_allocation_sizes constraints !! data_key m with
      | Some declared => Ok (Z.max size declared)
      | None => Ok size
      end
  | None => Ok size
  end.

Fixpoint size_intervals (analysis : LifetimeAnalysisResult) (constraints : AllocationConstraintAnalysis)
    (l : list LifetimeInterval) : result (list LifetimeInterval) :=
  match l with
  | [] => Ok []
  | i :: l =>
      let* size := allocation_size analysis constraints i in
      let* rest := size_intervals analysis constraints l in
      Ok (MkLifetime (variable i) (var_memref i) (def_point i) (last_use_point i) (memory_space i) size :: rest)
  end.

(** [separation_reasons], and [add_separation]. *)
Abbreviation SeparationReasons := (gmap (nat * nat) (gset AllocationSeparationReason)).

Definition ordered_pair (a b : nat) : nat * nat := if (b <? a)%nat then (b, a) else (a, b).

Definition add_separation (m : SeparationReasons) (call : nat * nat * AllocationSeparationReason) : SeparationReasons :=
  let '(first, second, reason) := call in
  if (first =? second)%nat then m
  else <[ ordered_pair first second := {[ reason ]} ∪ default ∅ (m !! ordered_pair first second) ]> m.

Section Separations.
Context (analysis : LifetimeAnalysisResult) (constraints : AllocationConstraintAnalysis) (l : list LifetimeInterval).

(** The intervals with their indices. *)
Definition indexed : list (nat * LifetimeInterval) := imap pair l.

(** [base_to_index]: a later interval replaces an earlier one. *)
Definition base_to_index : gmap positive nat :=
  foldl (fun m '(index, i) => match var_memref i with Some r => <[ data_key r := index ]> m | None => m end) ∅ indexed.

Definition pinned_intervals : list (nat * LifetimeInterval) :=
  List.filter (fun '(_, i) =>
    match var_memref i with Some r => bool_decide (data_key r ∈ declared_allocation_bases constraints) | None => false end) indexed.

(** The calls of [add_separation] by each analysis, in order. *)
Definition declared_calls : list (nat * nat * AllocationSeparationReason) :=
  flat_map (fun '(pinned, i) =>
    flat_map (fun '(other, j) =>
      if negb (other =? pinned)%nat && bool_decide (memory_space j = memory_space i)
      then [(pinned, other, DeclaredAllocation)] else []) indexed) pinned_intervals.

(** [group_members]: by space and group, then by stage. *)
Definition group_members : gmap (Z * Z) (gmap Z (list nat)) :=
  foldl (fun m '(index, i) =>
    foldl (fun m '(group, stage) =>
      let key := (space_id (memory_space i), group) in
      let stages := default ∅ (m !! key) in
      <[ key := <[ stage := default [] (stages !! stage) ++ [index] ]> stages ]> m)
      m (default [] (pipeline_membership analysis !! variable i))) ∅ indexed.

(** The loops over [first_bucket] and the later ones. *)
Fixpoint bucket_calls (buckets : list (Z * list nat)) : list (nat * nat * AllocationSeparationReason) :=
  match buckets with
  | [] => []
  | (_, firsts) :: buckets =>
      flat_map (fun '(_, seconds) =>
        flat_map (fun first => map (fun second => (first, second, PipelineStage)) seconds) firsts) buckets
      ++ bucket_calls buckets
  end.

Definition pipeline_calls : list (nat * nat * AllocationSeparationReason) :=
  flat_map (fun '(_, members_by_stage) => bucket_calls (ascending_map members_by_stage)) (ascending_pairs group_members).

Definition by_point (point : LifetimeInterval -> Z) (chosen : gset positive) : gmap Z (list nat) :=
  foldl (fun m '(index, i) =>
    if bool_decide (variable i ∈ chosen) then <[ point i := default [] (m !! point i) ++ [index] ]> m else m) ∅ indexed.

Definition hazard_calls : list (nat * nat * AllocationSeparationReason) :=
  if needs_load_tpop_hazard_guard constraints then
    let writers_by_def := by_point def_point (reads_tpop constraints) in
    let inputs_by_last_use := by_point last_use_point (load_derived constraints) in
    flat_map (fun '(point, writers) =>
      match inputs_by_last_use !! point with
      | None => []
      | Some inputs => flat_map (fun writer => map (fun input => (writer, input, TargetHazard)) inputs) writers
      end) (ascending_map writers_by_def)
  else [].

(** A variable of the set, or one whose base is in the other set. *)
Definition is_workspace (vars bases : gset positive) (i : LifetimeInterval) : bool :=
  bool_decide (variable i ∈ vars) ||
  match var_memref i with Some r => bool_decide (data_key r ∈ bases) | None => false end.

Definition workspace_calls : list (nat * nat * AllocationSeparationReason) :=
  if bool_decide (written_workspaces constraints = ∅) then []
  else
    let workspace_indices := List.filter (fun '(_, i) =>
      is_workspace (written_workspaces constraints) (written_workspace_bases constraints) i) indexed in
    let looping_indices := List.filter (fun '(_, i) =>
      is_workspace (looping_written_workspaces constraints) (looping_written_workspace_bases constraints) i) indexed in
    flat_map (fun '(workspace, w) =>
      flat_map (fun '(other, j) =>
        if (other =? workspace)%nat then []
        else if last_use_point j <=? def_point w then [(workspace, other, TargetHazard)] else []) indexed) workspace_indices
    ++ flat_map (fun '(workspace, _) =>
      flat_map (fun '(other, _) =>
        if (other =? workspace)%nat then [] else [(workspace, other, TargetHazard)]) indexed) looping_indices.

Definition forbidden_calls : list (nat * nat * AllocationSeparationReason) :=
  flat_map (fun '(index, i) =>
    flat_map (fun operand =>
      match operand with
      | Some r => match base_to_index !! data_key r with Some found => [(index, found, SemanticNoAlias)] | None => [] end
      | None => []
      end) (default [] (forbid_alias constraints !! variable i))) indexed.

Definition separation_calls : list (nat * nat * AllocationSeparationReason) :=
  declared_calls ++ pipeline_calls ++ hazard_calls ++ workspace_calls ++ forbidden_calls.

Definition separation_reasons : SeparationReasons := foldl add_separation ∅ separation_calls.

End Separations.

(** The ascending iteration of a [std::set] of reasons. *)
Definition ascending_reasons (s : gset AllocationSeparationReason) : list AllocationSeparationReason :=
  sort_by (fun r => [Z.of_nat (reason_id r)]) (elements s).

Definition BuildDsaAllocationPlan (analysis : LifetimeAnalysisResult) (constraints : AllocationConstraintAnalysis)
    : result AllocationPlan :=
  let* sized := size_intervals analysis constraints (lifetimes analysis) in
  Ok (MkPlan sized
    (map (fun '((first, second), rs) => MkAllocSeparation first second (ascending_reasons rs))
      (sort_by (fun '((first, second), _) => [Z.of_nat first; Z.of_nat second])
        (map_to_list (separation_reasons analysis constraints sized))))).

(** ** [BuildProblem] *)

Definition ConvertLifetime (l : LifetimeInterval) : result Interval :=
  let* _ := require ((def_point l >=? 0) && (last_use_point l >=? def_point l)) InternalError in
  let begin := 2 * def_point l + 1 in
  let final_read_end := 2 * last_use_point l + 1 in
  Ok (MkInterval begin (Z.max (begin + 1) final_read_end)).

Record RecognizedReusePenalty := MkRecognized { first_interval : nat; second_interval : nat; cost : Z }.

Record PreparedProblem := MkPrepared {
  strict_problem : DsaProblem;
  buffer_id_by_base : gmap positive Z;
  pipeline_pairs : list Separation
}.

(** The variables of the first loop. *)
Record Building := MkBuilding {
  built : list Buffer;
  buffer_by_interval : list (option Z);
  bases_so_far : gmap positive Z;
  pools_so_far : gmap Z Pool;
  fallback_capacity : gmap Z Z
}.

Section Adapter.
Context `{MemoryAllocatorPolicy}.

Definition add_interval (ends : ReservedEndBySpace) (b : Building) (l : LifetimeInterval) : result Building :=
  let space := memory_space l in
  if bool_decide (space = DDR) || negb (ShouldAllocate space)
  then Ok (MkBuilding (built b) (buffer_by_interval b ++ [None]) (bases_so_far b) (pools_so_far b) (fallback_capacity b))
  else
    let* _ := require (Z.of_nat (length (built b)) <=? 2 ^ 32 - 1) InternalError in
    let id := Z.of_nat (length (built b)) in
    match var_memref l with
    | None => Err InternalError
    | Some memref =>
        let alignment := Z.max 1 (AlignAddress 1 space) in
        let* lifetime := ConvertLifetime l in
        let* _ := require (bool_decide (bases_so_far b !! data_key memref = None)) InternalError in
        let pool := default (MkPool 0 0 []) (pools_so_far b !! space_id space) in
        let (ranges, fallback) :=
          match ends !! space_id space with
          | Some reserved =>
              if (reserved >? 0) && bool_decide (reserved_ranges pool = [])
              then ([MkRange 0 reserved], <[ space_id space := reserved ]> (fallback_capacity b))
              else (reserved_ranges pool, fallback_capacity b)
          | None => (reserved_ranges pool, fallback_capacity b)
          end in
        let aligned_size := AlignAddress (lsize l) space in
        Ok (MkBuilding
          (built b ++ [MkBuffer id (lsize l) alignment (space_id space) lifetime])
          (buffer_by_interval b ++ [Some id])
          (<[ data_key memref := id ]> (bases_so_far b))
          (<[ space_id space := MkPool (space_id space) (capacity pool) ranges ]> (pools_so_far b))
          (<[ space_id space := SaturatingAdd (default 0 (fallback !! space_id space)) aligned_size ]> fallback))
    end.

Fixpoint add_intervals (ends : ReservedEndBySpace) (b : Building) (l : list LifetimeInterval) : result Building :=
  match l with
  | [] => Ok b
  | i :: l => let* b := add_interval ends b i in add_intervals ends b l
  end.

(** The pools in the order of their spaces, with their capacities. *)
Definition finish_pools (pool_caps : gmap Z Z) (b : Building) : list Pool :=
  map (fun '(space, pool) =>
    let fallback := default 0 (fallback_capacity b !! space) in
    let capacity := match pool_caps !! space with
      | Some configured => if configured >? 0 then configured else fallback
      | None => fallback
      end in
    MkPool (pool_id pool) capacity (reserved_ranges pool)) (ascending_map (pools_so_far b)).

(** The buffers of a relation between two intervals: [None] when one of them has
    no buffer or they are of different pools. *)
Definition related_pair (b : Building) (first second : nat) : result (option (Z * Z)) :=
  match buffer_by_interval b !! first, buffer_by_interval b !! second with
  | Some (Some f), Some (Some s) =>
      let key := CanonicalBufferPair f s in
      match built b !! Z.to_nat key.1, built b !! Z.to_nat key.2 with
      | Some x, Some y => Ok (if bpool x =? bpool y then Some key else None)
      | _, _ => Err UndefinedBehaviour
      end
  | Some _, Some _ => Ok None
  | _, _ => Err InternalError
  end.

(** [hard_reasons]. *)
Fixpoint collect_reasons (b : Building) (m : gmap (Z * Z) (gset AllocationSeparationReason))
    (l : list AllocationSeparation) : result (gmap (Z * Z) (gset AllocationSeparationReason)) :=
  match l with
  | [] => Ok m
  | s :: l =>
      let* related := related_pair b (as_first s) (as_second s) in
      match related with
      | None => collect_reasons b m l
      | Some key =>
          let* _ := require (negb (bool_decide (reasons s = []))) InternalError in
          collect_reasons b (<[ key := default ∅ (m !! key) ∪ list_to_set (reasons s) ]> m) l
      end
  end.

(** Whether a hard relation may be relaxed. *)
Definition pipeline_only (b : Building) (key : Z * Z) (rs : gset AllocationSeparationReason) : bool :=
  (size rs =? 1)%nat && bool_decide (PipelineStage ∈ rs) &&
  match built b !! Z.to_nat key.1, built b !! Z.to_nat key.2 with
  | Some x, Some y => negb (Overlaps (lifetime x) (lifetime y))
  | _, _ => false
  end.

(** [penalty_weights]. *)
Fixpoint collect_penalties (b : Building) (m : gmap (Z * Z) Z) (l : list RecognizedReusePenalty)
    : result (gmap (Z * Z) Z) :=
  match l with
  | [] => Ok m
  | r :: l =>
      let* related := related_pair b (first_interval r) (second_interval r) in
      match related with
      | None => collect_penalties b m l
      | Some key => collect_penalties b (add_weight m key (cost r)) l
      end
  end.

Definition BuildProblem (plan : AllocationPlan) (ends : ReservedEndBySpace) (pool_caps : gmap Z Z)
    (recognized : list RecognizedReusePenalty) : result PreparedProblem :=
  let* b := add_intervals ends (MkBuilding [] [] ∅ ∅ ∅) (intervals plan) in
  let pools := finish_pools pool_caps b in
  let* hard := collect_reasons b ∅ (plan_separations plan) in
  let hard := ascending_pairs hard in
  let* weights := collect_penalties b ∅ recognized in
  Ok (MkPrepared
    (MkProblem pools (built b) (map (fun '((first, second), _) => MkSeparation first second) hard)
      (flat_map (fun '((first, second), w) => if w =? 0 then [] else [MkPenalty first second w]) (ascending_pairs weights)))
    (bases_so_far b)
    (flat_map (fun '(key, rs) => if pipeline_only b key rs then [MkSeparation key.1 key.2] else []) hard)).

Definition RelaxPipelineIntent (prepared : PreparedProblem) : DsaProblem :=
  RelaxSeparationsToPenalties (strict_problem prepared) (pipeline_pairs prepared) 1.

Fixpoint BuildMemRefReplacements (prepared : PreparedProblem) (s : DsaSolution) (memrefs : list (MemRef * MemorySpace))
    (relative : RelativeMemRefOffsets) : result (list (positive * MemRefData)) :=
  match memrefs with
  | [] => Ok []
  | (old, space) :: memrefs =>
      if bool_decide (space = DDR) || negb (ShouldAllocate space) then BuildMemRefReplacements prepared s memrefs relative
      else
        match buffer_id_by_base prepared !! base_key old with
        | None => Err InternalError
        | Some buffer =>
            match s !! buffer with
            | None => Err InternalError
            | Some offset =>
                let* address := MakeAbsoluteMemRefAddress offset old relative in
                let* rest := BuildMemRefReplacements prepared s memrefs relative in
                Ok ((memref_id old, at_address old address) :: rest)
            end
        end
  end.

(** ** [PlanWithDsaRP] *)

(** [pool_caps]: the capacities of the spaces of the plan. *)
Definition pool_caps (mem_size : option (MemorySpace -> Z)) (l : list LifetimeInterval) : gmap Z Z :=
  match mem_size with
  | None => ∅
  | Some get =>
      foldl (fun caps i =>
        match caps !! space_id (memory_space i) with
        | Some _ => caps
        | None => let capacity := get (memory_space i) in
            if capacity >? 0 then <[ space_id (memory_space i) := capacity ]> caps else caps
        end) ∅ l
  end.

Context `{Shuffle}.

(** [CanonicalGreedySolver] as it is built by default. *)
Definition default_options : CanonicalGreedyOptions := MkOptions 0 4.

(** The strict problem, then the relaxed one: the problem solved and the result. *)
Definition solve_relaxing (prepared : PreparedProblem) : result (DsaProblem * DsaResult) :=
  let* r := Solve default_options (strict_problem prepared) in
  match status r, pipeline_pairs prepared with
  | kNoFit, _ :: _ =>
      let relaxed := RelaxPipelineIntent prepared in
      let* r := Solve default_options relaxed in Ok (relaxed, r)
  | _, _ => Ok (strict_problem prepared, r)
  end.

Definition is_invalid (s : SolveStatus) : bool := match s with kInvalidProblem => true | _ => false end.
Definition is_feasible (s : SolveStatus) : bool := match s with kFeasible => true | _ => false end.

(** The replacements, and the number of pipeline pairs that reuse storage: a
    performance hint is emitted when it is not zero. *)
Definition PlanWithDsaRP (plan : AllocationPlan) (recognized : list RecognizedReusePenalty) (ends : ReservedEndBySpace)
    (mem_size : option (MemorySpace -> Z)) (memrefs : list (MemRef * MemorySpace)) (relative : RelativeMemRefOffsets)
    : result (list (positive * MemRefData) * nat) :=
  match intervals plan with
  | [] => Ok ([], 0%nat)
  | _ =>
      let* prepared := BuildProblem plan ends (pool_caps mem_size (intervals plan)) recognized in
      match buffers (strict_problem prepared) with
      | [] => Ok ([], 0%nat)
      | _ =>
          let* (solved, r) := solve_relaxing prepared in
          let* _ := require (negb (is_invalid (status r))) InternalError in
          let* _ := require (is_feasible (status r)) CheckFailed in
          match solution r with
          | None => Err InternalError
          | Some s =>
              let* validation := ValidateSolution solved s in
              let* _ := require (bool_decide (validation = [])) InternalError in
              let active := CountOverlappingPairs (strict_problem prepared) s (pipeline_pairs prepared) in
              let* replacements := BuildMemRefReplacements prepared s memrefs relative in
              Ok (replacements, active)
          end
      end
  end.

End Adapter.
