(* ===== verification/DsaBuild.v ===== *)
(** * The placement problem of a plan

    [BuildProblem] gives every allocation of a plan one buffer, every space one
    pool, and the solver a problem that its validator accepts; two buffers
    conflict exactly when their allocations are live at the same time or are
    separated. *)

From Stdlib Require Import ZArith Lia Bool List String.
From stdpp Require Import base gmap list option strings sorting.
From S2P Require Import Prelude Dtype ScalarExpr Storage Dsa DsaSearch DsaSpec DsaFit DsaSound DsaSolve.
From S2P Require Import Memref MemrefSound MemrefPlan DsaAdapter.

(** ** Lifetimes *)

Definition interval_ok (l : LifetimeInterval) : Prop := 0 <= def_point l <= last_use_point l.

(** The half-steps of an allocation: written at the odd step of its definition,
    read until the even step of its last use. *)
Definition half_steps (l : LifetimeInterval) : Interval :=
  MkInterval (2 * def_point l + 1) (Z.max (2 * def_point l + 2) (2 * last_use_point l + 1)).

Lemma ConvertLifetime_ok l : interval_ok l -> ConvertLifetime l = Ok (half_steps l).
Proof.
  intros Hl. unfold ConvertLifetime. rewrite !Z.geb_leb, !(proj2 (Z.leb_le _ _)) by (unfold interval_ok in Hl; lia).
  cbn [andb require bind]. unfold half_steps. do 2 f_equal. lia.
Qed.

(** Two allocations are live at the same time: each is defined before the other's
    last use, or at or before its definition. An input read last by the statement
    that defines an output is not live with it. *)
Definition co_live (a b : LifetimeInterval) : Prop :=
  (def_point a <= def_point b \/ def_point a < last_use_point b) /\
  (def_point b <= def_point a \/ def_point b < last_use_point a).

Lemma half_steps_overlap a b : Overlaps (half_steps a) (half_steps b) = true <-> co_live a b.
Proof. unfold Overlaps, half_steps, co_live. cbn [ibegin iend]. rewrite andb_true_iff, !Z.ltb_lt. lia. Qed.

Lemma half_steps_ok l : interval_ok l -> 0 <= ibegin (half_steps l) < iend (half_steps l).
Proof. unfold interval_ok, half_steps. cbn [ibegin iend]. lia. Qed.

(** ** Weights *)

Definition weight_sum (m : gmap (Z * Z) Z) : Z := zsum (map snd (map_to_list m)).

Lemma weight_sum_insert m key w :
  weight_sum (<[ key := default 0 (m !! key) + w ]> m) = weight_sum m + w.
Proof.
  unfold weight_sum. destruct (m !! key) as [v|] eqn:E; cbn [default from_option id].
  - rewrite <- (insert_delete_id m key v E) at 2. rewrite <- insert_delete_eq.
    rewrite !(zsum_perm _ _ (Permutation_map _ (map_to_list_insert _ key _ (lookup_delete_eq m key)))). cbn [map snd zsum foldr]. lia.
  - rewrite (zsum_perm _ _ (Permutation_map _ (map_to_list_insert m key _ E))). cbn [map snd zsum foldr]. unfold zsum. lia.
Qed.

Definition nonneg (m : gmap (Z * Z) Z) : Prop := forall key w, m !! key = Some w -> 0 <= w.

Lemma weight_le m key : nonneg m -> default 0 (m !! key) <= weight_sum m.
Proof.
  intros Hm. unfold weight_sum. destruct (m !! key) as [v|] eqn:E; cbn [default from_option id].
  - rewrite <- (insert_delete_id m key v E).
    rewrite (zsum_perm _ _ (Permutation_map _ (map_to_list_insert _ key _ (lookup_delete_eq m key)))). cbn [map snd zsum foldr].
    assert (0 <= zsum (map snd (map_to_list (delete key m)))); [|unfold zsum in *; lia].
    apply zsum_nonneg. intros w ([k w'] & -> & Hin%elem_of_map_to_list)%list_elem_of_fmap_1.
    apply lookup_delete_Some in Hin as [_ Hin]. by eapply Hm.
  - apply zsum_nonneg. intros w ([k w'] & -> & Hin%elem_of_map_to_list)%list_elem_of_fmap_1. by eapply Hm.
Qed.

Lemma add_weight_exact m key w :
  nonneg m -> 0 <= w -> weight_sum m + w <= UINT64_MAX -> add_weight m key w = <[ key := default 0 (m !! key) + w ]> m.
Proof.
  intros Hm Hw Hmax. unfold add_weight. f_equal. pose proof (weight_le m key Hm).
  assert (0 <= default 0 (m !! key)) by (destruct (m !! key) eqn:E; [by eapply Hm | done]).
  unfold SaturatingAdd. rewrite (proj2 (AddOverflows_false _ _)) by lia. by rewrite u64_id by lia.
Qed.

Lemma add_weights_ok (ws : list (Z * Z * Z)) : forall m,
  nonneg m -> Forall (fun kw => 0 <= kw.2) ws -> weight_sum m + zsum (map snd ws) <= UINT64_MAX ->
  let m' := foldl (fun m kw => add_weight m kw.1 kw.2) m ws in
  nonneg m' /\ weight_sum m' = weight_sum m + zsum (map snd ws) /\
  forall key, is_Some (m' !! key) -> is_Some (m !! key) \/ exists w, (key, w) ∈ ws.
Proof.
  induction ws as [|[k w] ws IH]; intros m Hm Hf Hmax; cbn [foldl map zsum foldr fst snd] in *.
  { split_and!; [done | lia | by left]. }
  apply Forall_cons in Hf as [Hw Hf]. cbn [snd] in Hw. fold (zsum (map snd ws)) in *.
  assert (0 <= zsum (map snd ws)).
  { apply zsum_nonneg. intros v (q & -> & Hq)%list_elem_of_fmap_1. rewrite Forall_forall in Hf. by apply Hf. }
  rewrite add_weight_exact by (done || lia). destruct (IH (<[ k := default 0 (m !! k) + w ]> m)) as (H1 & H2 & H3); [|done| |].
  { intros key v [[<- <-]|[_ Hv]]%lookup_insert_Some; [|by eapply Hm].
    destruct (m !! k) as [v|] eqn:E; cbn; [apply Hm in E; lia | lia]. }
  { rewrite weight_sum_insert. lia. }
  rewrite weight_sum_insert in H2. split_and!; [done | lia |]. intros key [H'|(v & Hv)]%H3; [|right; exists v; by right].
  destruct (decide (k = key)) as [<-|Hne]; [right; exists w; by left |]. rewrite lookup_insert_ne in H' by done. by left.
Qed.

(** The penalties of a table of weights. *)
Definition penalties_of (m : gmap (Z * Z) Z) : list ReusePenalty :=
  flat_map (fun '((first, second), w) => if w =? 0 then [] else [MkPenalty first second w]) (ascending_pairs m).

Lemma ascending_pairs_in {A} (m : gmap (Z * Z) A) key v : (key, v) ∈ ascending_pairs m <-> m !! key = Some v.
Proof. unfold ascending_pairs. by rewrite sort_by_perm, elem_of_map_to_list. Qed.

Lemma penalties_of_in m r : r ∈ penalties_of m <-> m !! (pfirst r, psecond r) = Some (weight r) /\ weight r <> 0.
Proof.
  unfold penalties_of. rewrite list_elem_of_In, in_flat_map. setoid_rewrite <- list_elem_of_In. split.
  - intros ([[a c] w] & Hin%ascending_pairs_in & Hr). destruct (Z.eqb_spec w 0); [by apply elem_of_nil in Hr |].
    by apply list_elem_of_singleton in Hr as ->.
  - intros [Hm Hw]. exists (pfirst r, psecond r, weight r). split; [by apply ascending_pairs_in |].
    rewrite (proj2 (Z.eqb_neq _ _)) by done. apply list_elem_of_singleton. by destruct r.
Qed.

Lemma penalties_of_sum m : foldr Z.add 0 (map weight (penalties_of m)) = weight_sum m.
Proof.
  unfold weight_sum, penalties_of. rewrite <- (zsum_perm _ _ (Permutation_map snd (sort_by_perm (fun '((a, b), _) => [a; b]) (map_to_list m)))).
  fold (ascending_pairs m). induction (ascending_pairs m) as [|[[a c] w] l IH]; [done |]. cbn [flat_map map snd zsum foldr].
  destruct (Z.eqb_spec w 0) as [->|]; cbn [app map foldr weight]; unfold zsum in *; lia.
Qed.

(** ** The first loop *)

Section Build.
Context `{policy : MemoryAllocatorPolicy} `{!PolicyLaws policy}.
Context (ends : ReservedEndBySpace).

(** The allocations that are placed. *)
Definition active (l : LifetimeInterval) : bool :=
  negb (bool_decide (memory_space l = DDR) || negb (ShouldAllocate (memory_space l))).

Definition buffer_of (k : nat) (l : LifetimeInterval) : Buffer :=
  MkBuffer (Z.of_nat k) (lsize l) (space_alignment (memory_space l)) (space_id (memory_space l)) (half_steps l).

Definition reserved_of (id : Z) : list AddressRange :=
  match ends !! id with Some e => if e >? 0 then [MkRange 0 e] else [] | None => [] end.

Definition end_of (id : Z) : Z := default 0 (ends !! id).

(** What an allocation must be for the problem to be built. *)
Record placeable_interval (l : LifetimeInterval) : Prop := {
  pi_points : interval_ok l;
  pi_memref : is_Some (var_memref l);
  pi_size : 0 < lsize l;
  pi_room : round_up (lsize l) (space_alignment (memory_space l)) <= UINT64_MAX;
  pi_alignment : space_alignment (memory_space l) <= UINT64_MAX
}.

Definition base_of_interval (l : LifetimeInterval) : option positive := data_key <$> var_memref l.

(** The state of the loop after the intervals [done]. *)
Record building (done : list LifetimeInterval) (b : Building) : Prop := {
  bd_length : length (buffer_by_interval b) = length done;
  bd_count : (length (built b) <= length done)%nat;
  bd_inactive : forall i l, done !! i = Some l -> active l = false -> buffer_by_interval b !! i = Some None;
  bd_active : forall i l, done !! i = Some l -> active l = true -> exists k key,
    buffer_by_interval b !! i = Some (Some (Z.of_nat k)) /\ built b !! k = Some (buffer_of k l) /\
    base_of_interval l = Some key /\ bases_so_far b !! key = Some (Z.of_nat k);
  bd_built : forall k x, built b !! k = Some x -> exists i l, done !! i = Some l /\ active l = true /\
    buffer_by_interval b !! i = Some (Some (Z.of_nat k)) /\ x = buffer_of k l;
  bd_inj : forall i j k, buffer_by_interval b !! i = Some (Some k) -> buffer_by_interval b !! j = Some (Some k) -> i = j;
  bd_bases : forall key id, bases_so_far b !! key = Some id -> exists l, l ∈ done /\ active l = true /\ base_of_interval l = Some key;
  bd_pools : forall id pool, pools_so_far b !! id = Some pool ->
    pool_id pool = id /\ reserved_ranges pool = reserved_of id /\ exists l, l ∈ done /\ active l = true /\ space_id (memory_space l) = id;
  bd_has_pool : forall l, l ∈ done -> active l = true -> is_Some (pools_so_far b !! space_id (memory_space l));
  bd_fallback : forall id pool, pools_so_far b !! id = Some pool ->
    exists f, fallback_capacity b !! id = Some f /\ 0 < f <= UINT64_MAX /\ end_of id <= f;
  bd_fallback_none : forall id, pools_so_far b !! id = None -> fallback_capacity b !! id = None
}.

Lemma building_start : building [] (MkBuilding [] [] ∅ ∅ ∅).
Proof.
  split; cbn [built buffer_by_interval bases_so_far pools_so_far fallback_capacity]; try done;
    intros *; rewrite ?lookup_nil, ?lookup_empty; try done. by intros ?%elem_of_nil.
Qed.

Lemma in_snoc {A} (l : list A) x y : y ∈ l ++ [x] <-> y ∈ l \/ y = x.
Proof. by rewrite elem_of_app, list_elem_of_singleton. Qed.

(** An interval of no buffer. *)
Lemma add_inactive done b l :
  building done b -> active l = false ->
  exists b', add_interval ends b l = Ok b' /\ building (done ++ [l]) b'.
Proof.
  intros Hb Hl. unfold add_interval. unfold active in Hl. apply negb_false_iff in Hl as Hl'. rewrite Hl'.
  eexists. split; [reflexivity |]. pose proof (bd_length _ _ Hb) as Hlen.
  split; cbn [built buffer_by_interval bases_so_far pools_so_far fallback_capacity].
  - rewrite !length_app. cbn [length]. lia.
  - pose proof (bd_count _ _ Hb). rewrite length_app. lia.
  - intros i l' [[_ Hi]|[-> <-]]%lookup_snoc_Some Ha; apply lookup_snoc_Some; [left | by right].
    pose proof (bd_inactive _ _ Hb _ _ Hi Ha) as E. split; [by eapply lookup_lt_Some | done].
  - intros i l' [[_ Hi]|[-> <-]]%lookup_snoc_Some Ha; [|unfold active in Ha; congruence].
    destruct (bd_active _ _ Hb _ _ Hi Ha) as (k & key & E & H). exists k, key. split; [|done].
    apply lookup_snoc_Some. left. split; [by eapply lookup_lt_Some | done].
  - intros k x Hk. destruct (bd_built _ _ Hb _ _ Hk) as (i & l' & Hi & Ha & E & Hx).
    exists i, l'. split_and!; try done; apply lookup_snoc_Some; left; (split; [by eapply lookup_lt_Some | done]).
  - intros i j k [[_ Hi]|[_ ?]]%lookup_snoc_Some [[_ Hj]|[_ ?]]%lookup_snoc_Some; try done. by eapply (bd_inj _ _ Hb).
  - intros key id Hk. destruct (bd_bases _ _ Hb _ _ Hk) as (l' & Hin & H). exists l'. split; [apply in_snoc; by left | done].
  - intros id pool Hp. destruct (bd_pools _ _ Hb _ _ Hp) as (H1 & H2 & l' & Hin & H). split_and!; [done | done |].
    exists l'. split; [apply in_snoc; by left | done].
  - intros l' [Hin| ->]%in_snoc Ha; [by apply (bd_has_pool _ _ Hb) | unfold active in Ha; congruence].
  - apply (bd_fallback _ _ Hb).
  - apply (bd_fallback_none _ _ Hb).
Qed.

(** The ranges and the fallback capacity after an interval of a space. *)
Lemma reserve_step b space pool done :
  building done b -> pool = default (MkPool 0 0 []) (pools_so_far b !! space) -> 0 <= end_of space <= UINT64_MAX ->
  exists fallback,
    match ends !! space with
    | Some reserved =>
        if (reserved >? 0) && bool_decide (reserved_ranges pool = [])
        then ([MkRange 0 reserved], <[ space := reserved ]> (fallback_capacity b))
        else (reserved_ranges pool, fallback_capacity b)
    | None => (reserved_ranges pool, fallback_capacity b)
    end = (reserved_of space, fallback) /\
    end_of space <= default 0 (fallback !! space) <= UINT64_MAX /\
    (forall id, id <> space -> fallback !! id = fallback_capacity b !! id).
Proof.
  intros Hb Hpool Hend. unfold reserved_of, end_of in *.
  assert (Hold : reserved_ranges pool = reserved_of space /\
     (0 < default 0 (fallback_capacity b !! space) <= UINT64_MAX /\ end_of space <= default 0 (fallback_capacity b !! space)) \/
     reserved_ranges pool = [] /\ fallback_capacity b !! space = None).
  { subst pool. destruct (pools_so_far b !! space) as [pool|] eqn:E; cbn [default from_option].
    - left. destruct (bd_pools _ _ Hb _ _ E) as (_ & Hr & _). destruct (bd_fallback _ _ Hb _ _ E) as (f & -> & H1 & H2).
      cbn [default from_option id]. done.
    - right. split; [done | by apply (bd_fallback_none _ _ Hb)]. }
  unfold reserved_of, end_of in Hold. destruct (ends !! space) as [e|]; cbn [default from_option id] in *.
  - destruct (Z.gtb_spec e 0) as [Hpos|Hneg]; cbn [andb] in *.
    + destruct Hold as [(-> & Hf & He)|[-> Hf]].
      * cbn. exists (fallback_capacity b). split_and!; try done; lia.
      * rewrite bool_decide_eq_true_2 by done. eexists. split; [done |]. rewrite lookup_insert_eq. cbn [default from_option id].
        split; [lia |]. intros id Hid. by rewrite lookup_insert_ne by done.
    + exists (fallback_capacity b). destruct Hold as [(-> & Hf & He)|[-> Hf]]; [split_and!; try done; lia |].
      rewrite Hf. cbn [default from_option id]. split_and!; try done; lia64.
  - exists (fallback_capacity b). destruct Hold as [(-> & Hf & He)|[-> Hf]]; [split_and!; try done; lia |].
    rewrite Hf. cbn [default from_option id]. split_and!; try done; lia64.
Qed.

Lemma alignment_of space :
  space_alignment space <= UINT64_MAX -> Z.max 1 (AlignAddress 1 space) = space_alignment space.
Proof.
  intros Ha. pose proof (space_alignment_pos space) as Hp.
  assert (E : round_up 1 (space_alignment space) = space_alignment space).
  { symmetry. apply round_up_unique; [done | apply Z.divide_refl | lia]. }
  rewrite AlignAddress_law, E; lia.
Qed.

Lemma SaturatingAdd_bounds a b : 0 <= a <= UINT64_MAX -> 0 <= b -> a <= SaturatingAdd a b <= UINT64_MAX /\ (0 < b -> 0 < SaturatingAdd a b).
Proof.
  intros Ha Hb. unfold SaturatingAdd, AddOverflows. destruct (Z.gtb_spec a (UINT64_MAX - b)); [lia64 |].
  rewrite u64_id by lia. lia.
Qed.

(** An interval of a buffer. *)
Lemma add_active done b l key :
  building done b -> active l = true -> placeable_interval l -> base_of_interval l = Some key ->
  (forall l', l' ∈ done -> active l' = true -> base_of_interval l' <> Some key) ->
  Z.of_nat (length done) <= 2 ^ 32 - 1 -> 0 <= end_of (space_id (memory_space l)) <= UINT64_MAX ->
  exists b', add_interval ends b l = Ok b' /\ building (done ++ [l]) b'.
Proof.
  intros Hb Ha [Hpts [m Em] Hsize Hroom Hal] Hkey Hfresh Hcount Hend. unfold add_interval.
  assert (Ha' := Ha). unfold active in Ha'. apply negb_true_iff in Ha'. rewrite Ha'.
  pose proof (bd_length _ _ Hb) as Hlen. pose proof (bd_count _ _ Hb) as Hcnt.
  rewrite (proj2 (Z.leb_le _ _)) by lia. cbn [require bind]. rewrite Em.
  unfold base_of_interval in Hkey. rewrite Em in Hkey. injection Hkey as Hkey. rewrite Hkey.
  rewrite ConvertLifetime_ok by done. cbn [bind]. rewrite alignment_of by done.
  assert (Hnew : bases_so_far b !! key = None).
  { destruct (bases_so_far b !! key) as [id|] eqn:E; [|done]. destruct (bd_bases _ _ Hb _ _ E) as (l' & Hin & Ha1 & Hb1).
    by destruct (Hfresh l' Hin Ha1). }
  rewrite bool_decide_eq_true_2 by done. cbn [require bind].
  set (space := space_id (memory_space l)) in *. set (pool := default (MkPool 0 0 []) (pools_so_far b !! space)).
  destruct (reserve_step b space pool done Hb eq_refl Hend) as (fallback & -> & Hf & Hother).
  rewrite AlignAddress_law by lia. eexists. split; [reflexivity |].
  pose proof (SaturatingAdd_bounds (default 0 (fallback !! space)) (round_up (lsize l) (space_alignment (memory_space l)))) as Hsat.
  pose proof (round_up_spec (lsize l) _ (space_alignment_pos (memory_space l))) as [Hru _].
  set (n := length (built b)) in *.
  assert (Hbuf : MkBuffer (Z.of_nat n) (lsize l) (space_alignment (memory_space l)) space (half_steps l) = buffer_of n l) by done.
  rewrite Hbuf. split; cbn [built buffer_by_interval bases_so_far pools_so_far fallback_capacity].
  - rewrite !length_app. cbn [length]. lia.
  - rewrite !length_app. cbn [length]. lia.
  - intros i l' [[_ Hi]|[-> <-]]%lookup_snoc_Some Hna; [|congruence]. apply lookup_snoc_Some. left.
    pose proof (bd_inactive _ _ Hb _ _ Hi Hna) as E. split; [by eapply lookup_lt_Some | done].
  - intros i l' [[_ Hi]|[-> <-]]%lookup_snoc_Some Hact.
    + destruct (bd_active _ _ Hb _ _ Hi Hact) as (k & key' & E & Hk & Hb1 & Hb2). exists k, key'. split_and!; [| | done |].
      * apply lookup_snoc_Some. left. split; [by eapply lookup_lt_Some | done].
      * apply lookup_snoc_Some. left. split; [by eapply lookup_lt_Some | done].
      * rewrite lookup_insert_ne; [done |]. intros ->. congruence.
    + exists n, key. rewrite lookup_insert_eq. unfold base_of_interval. rewrite Em, <- Hkey. split_and!; try done;
        apply lookup_snoc_Some; right; [by rewrite Hlen | done].
  - intros k x [[_ Hk]|[-> <-]]%lookup_snoc_Some.
    + destruct (bd_built _ _ Hb _ _ Hk) as (i & l' & Hi & Hact & E & Hx). exists i, l'.
      split_and!; try done; apply lookup_snoc_Some; left; (split; [by eapply lookup_lt_Some | done]).
    + exists (length done), l. split_and!; try done; apply lookup_snoc_Some; right; [done | by rewrite Hlen].
  - assert (Hlt : forall i k, buffer_by_interval b !! i = Some (Some k) -> k < Z.of_nat n).
    { intros i k Hi. assert (Hil : (i < length done)%nat) by (rewrite <- Hlen; by eapply lookup_lt_Some).
      apply lookup_lt_is_Some in Hil as [l' Hl']. destruct (active l') eqn:Hact.
      - destruct (bd_active _ _ Hb _ _ Hl' Hact) as (k' & ? & E & Hk & _). apply lookup_lt_Some in Hk. assert (k = Z.of_nat k') by congruence. lia.
      - pose proof (bd_inactive _ _ Hb _ _ Hl' Hact). congruence. }
    intros i j k [[_ Hi]|[-> Ei]]%lookup_snoc_Some [[_ Hj]|[-> Ej]]%lookup_snoc_Some; try done.
    + by eapply (bd_inj _ _ Hb).
    + injection Ej as <-. apply Hlt in Hi. lia.
    + injection Ei as <-. apply Hlt in Hj. lia.
  - intros key' id [[<- <-]|[_ Hk]]%lookup_insert_Some.
    + exists l. split_and!; [apply in_snoc; by right | done |]. unfold base_of_interval. by rewrite Em, <- Hkey.
    + destruct (bd_bases _ _ Hb _ _ Hk) as (l' & Hin & H). exists l'. split; [apply in_snoc; by left | done].
  - intros id pool' [[<- <-]|[_ Hp]]%lookup_insert_Some.
    + split_and!; [done | done |]. exists l. split; [apply in_snoc; by right | done].
    + destruct (bd_pools _ _ Hb _ _ Hp) as (H1 & H2 & l' & Hin & H). split_and!; [done | done |].
      exists l'. split; [apply in_snoc; by left | done].
  - intros l' [Hin| ->]%in_snoc Hact; [|by rewrite lookup_insert_eq].
    destruct (decide (space_id (memory_space l') = space)) as [->|Hne]; [by rewrite lookup_insert_eq |].
    rewrite lookup_insert_ne by done. by apply (bd_has_pool _ _ Hb).
  - intros id pool' [[<- _]|[Hne Hp]]%lookup_insert_Some.
    + rewrite lookup_insert_eq. eexists. split; [done |]. lia.
    + rewrite lookup_insert_ne, Hother by done. by eapply (bd_fallback _ _ Hb).
  - intros id [Hne Hp]%lookup_insert_None. rewrite lookup_insert_ne, Hother by done. by apply (bd_fallback_none _ _ Hb).
Qed.

(** The intervals of a plan: placeable, and of different bases. *)
Record intervals_ok (l : list LifetimeInterval) : Prop := {
  iv_placeable : forall i x, l !! i = Some x -> active x = true -> placeable_interval x;
  iv_bases : forall i j x y, l !! i = Some x -> l !! j = Some y -> active x = true -> active y = true ->
    base_of_interval x = base_of_interval y -> i = j;
  iv_count : Z.of_nat (length l) <= 2 ^ 32;
  iv_ends : forall x, x ∈ l -> active x = true -> 0 <= end_of (space_id (memory_space x)) <= UINT64_MAX
}.

Lemma add_intervals_ok rest : forall done b,
  intervals_ok (done ++ rest) -> building done b ->
  exists b', add_intervals ends b rest = Ok b' /\ building (done ++ rest) b'.
Proof.
  induction rest as [|l rest IH]; intros done b Hok Hb; cbn [add_intervals].
  { exists b. rewrite app_nil_r in *. done. }
  assert (Hl : (done ++ l :: rest) !! length done = Some l) by (by apply list_lookup_middle).
  assert (Hstep : exists b', add_interval ends b l = Ok b' /\ building (done ++ [l]) b').
  { destruct (active l) eqn:Ha; [|by apply add_inactive].
    pose proof (iv_placeable _ Hok _ _ Hl Ha) as Hp. destruct (pi_memref _ Hp) as [m Em].
    apply add_active with (key := data_key m); try done.
    - unfold base_of_interval. by rewrite Em.
    - intros l' [i Hi]%list_elem_of_lookup Ha' Hbase. assert (Hlt := lookup_lt_Some _ _ _ Hi).
      assert (i = length done); [|lia]. eapply (iv_bases _ Hok i (length done) l' l); try done.
      + by apply lookup_app_l_Some.
      + rewrite Hbase. unfold base_of_interval. by rewrite Em.
    - pose proof (iv_count _ Hok) as Hc. rewrite length_app in Hc. cbn [length] in Hc. lia.
    - apply (iv_ends _ Hok); [|done]. by eapply list_elem_of_lookup_2. }
  destruct Hstep as (b1 & -> & Hb1). cbn [bind].
  replace (done ++ l :: rest) with ((done ++ [l]) ++ rest) in * by (by rewrite <- app_assoc). by apply IH.
Qed.

(** ** Relations between intervals *)

Section Relations.
Context (l : list LifetimeInterval) (b : Building).
Hypothesis l_ok : intervals_ok l.
Hypothesis b_ok : building l b.

(** The buffer of an interval. *)
Definition has_buffer (i : nat) (k : nat) : Prop := buffer_by_interval b !! i = Some (Some (Z.of_nat k)).

Lemma buffer_at i x : l !! i = Some x -> active x = true -> exists k, has_buffer i k /\ built b !! k = Some (buffer_of k x).
Proof. intros Hi Ha. destruct (bd_active _ _ b_ok _ _ Hi Ha) as (k & key & H1 & H2 & _). by exists k. Qed.

Lemma has_buffer_inj i j k : has_buffer i k -> has_buffer j k -> i = j.
Proof. apply (bd_inj _ _ b_ok). Qed.

Lemma built_id k x : built b !! k = Some x -> buffer_id x = Z.of_nat k.
Proof. intros Hk. destruct (bd_built _ _ b_ok _ _ Hk) as (i & y & _ & _ & _ & ->). done. Qed.

Lemma related_pair_ok i j x y :
  l !! i = Some x -> l !! j = Some y ->
  if active x && active y && bool_decide (memory_space x = memory_space y)
  then exists k k', has_buffer i k /\ has_buffer j k' /\
    related_pair b i j = Ok (Some (CanonicalBufferPair (Z.of_nat k) (Z.of_nat k')))
  else related_pair b i j = Ok None.
Proof.
  intros Hi Hj. unfold related_pair.
  destruct (active x) eqn:Hax; cbn [andb].
  2:{ rewrite (bd_inactive _ _ b_ok _ _ Hi Hax). pose proof (lookup_lt_Some _ _ _ Hj) as Hlt.
      rewrite <- (bd_length _ _ b_ok) in Hlt. by apply lookup_lt_is_Some in Hlt as [? ->]. }
  destruct (buffer_at i x Hi Hax) as (k & Hk & Hbk). unfold has_buffer in Hk. rewrite Hk.
  destruct (active y) eqn:Hay; cbn [andb].
  2:{ by rewrite (bd_inactive _ _ b_ok _ _ Hj Hay). }
  destruct (buffer_at j y Hj Hay) as (k' & Hk' & Hbk'). unfold has_buffer in Hk'. rewrite Hk'.
  assert (E : exists u v, built b !! Z.to_nat (CanonicalBufferPair (Z.of_nat k) (Z.of_nat k')).1 = Some u /\
     built b !! Z.to_nat (CanonicalBufferPair (Z.of_nat k) (Z.of_nat k')).2 = Some v /\
     (bpool u =? bpool v) = bool_decide (memory_space x = memory_space y)).
  { assert (Hp : (space_id (memory_space x) =? space_id (memory_space y)) = bool_decide (memory_space x = memory_space y)).
    { case_bool_decide as E; [rewrite E; apply Z.eqb_refl |]. apply Z.eqb_neq. intros Hs. apply E.
      by destruct (memory_space x), (memory_space y). }
    unfold CanonicalBufferPair. destruct (Z.of_nat k <? Z.of_nat k'); cbn [fst snd]; rewrite !Nat2Z.id, Hbk, Hbk'; do 2 eexists;
      (split; [done |]; split; [done |]); cbn [bpool buffer_of]; [done | by rewrite Z.eqb_sym]. }
  destruct E as (u & v & -> & -> & ->). case_bool_decide; [by exists k, k' | done].
Qed.

(** Two intervals whose buffers are [a] and [c]. *)
Definition intervals_of (key : Z * Z) (i j : nat) : Prop :=
  exists k k' x y, l !! i = Some x /\ l !! j = Some y /\ memory_space x = memory_space y /\ has_buffer i k /\ has_buffer j k' /\
    key = CanonicalBufferPair (Z.of_nat k) (Z.of_nat k').

Lemma related_some i j key :
  (exists x, l !! i = Some x) -> (exists y, l !! j = Some y) -> related_pair b i j = Ok (Some key) <-> intervals_of key i j.
Proof.
  intros [x Hx] [y Hy]. pose proof (related_pair_ok i j x y Hx Hy) as H. unfold intervals_of. split.
  - intros E. destruct (active x && active y && bool_decide (memory_space x = memory_space y)) eqn:Ea; [|congruence].
    destruct H as (k & k' & Hk & Hk' & H). apply andb_true_iff in Ea as [_ Es%bool_decide_eq_true].
    exists k, k', x, y. split_and!; try done. congruence.
  - intros (k & k' & x' & y' & Hx' & Hy' & Hs & Hk & Hk' & ->).
    assert (x' = x) as -> by congruence. assert (y' = y) as -> by congruence. unfold has_buffer in *.
    destruct (active x) eqn:Hax; [|rewrite (bd_inactive _ _ b_ok _ _ Hx Hax) in Hk; congruence].
    destruct (active y) eqn:Hay; [|rewrite (bd_inactive _ _ b_ok _ _ Hy Hay) in Hk'; congruence].
    rewrite bool_decide_eq_true_2 in H by done. cbn [andb] in H. destruct H as (k1 & k1' & H1 & H1' & ->).
    do 3 f_equal; congruence.
Qed.

(** ** Separations *)

Definition in_intervals (i : nat) : Prop := exists x, l !! i = Some x.

Record separation_ok (s : AllocationSeparation) : Prop := {
  sep_first : in_intervals (as_first s);
  sep_second : in_intervals (as_second s);
  sep_distinct : as_first s <> as_second s;
  sep_reasons : reasons s <> []
}.

Lemma collect_reasons_ok seps : forall m,
  Forall separation_ok seps ->
  exists m', collect_reasons b m seps = Ok m' /\ (size m' <= size m + length seps)%nat /\
    (forall key, is_Some (m' !! key) <-> is_Some (m !! key) \/ exists s, s ∈ seps /\ intervals_of key (as_first s) (as_second s)) /\
    (forall key r, r ∈ default ∅ (m' !! key) <-> r ∈ default ∅ (m !! key) \/
       exists s, s ∈ seps /\ intervals_of key (as_first s) (as_second s) /\ r ∈ reasons s).
Proof.
  induction seps as [|s seps IH]; intros m Hf; cbn [collect_reasons].
  { exists m. split_and!; [done | lia | |]; intros *; (split; [by left |]); intros [?|(? & ?%elem_of_nil & _)]; done. }
  apply Forall_cons in Hf as [[Hi Hj Hne Hr] Hf]. cbn [length].
  assert (Hrel : (related_pair b (as_first s) (as_second s) = Ok None /\ forall key, ~ intervals_of key (as_first s) (as_second s)) \/
    exists key, related_pair b (as_first s) (as_second s) = Ok (Some key) /\ intervals_of key (as_first s) (as_second s) /\
      forall key', intervals_of key' (as_first s) (as_second s) -> key' = key).
  { assert (Hsome := fun key => related_some (as_first s) (as_second s) key Hi Hj).
    destruct Hi as [x Hx], Hj as [y Hy]. pose proof (related_pair_ok _ _ x y Hx Hy) as H.
    destruct (active x && active y && bool_decide (memory_space x = memory_space y)).
    - destruct H as (k & k' & _ & _ & E). right. eexists. split; [done |]. split; [by apply Hsome |].
      intros key' Hk%Hsome. congruence.
    - left. split; [done |]. intros key Hk%Hsome. congruence. }
  destruct Hrel as [[-> Hno]|(key & -> & Hkey & Huniq)]; cbn [bind].
  - destruct (IH m Hf) as (m' & -> & H0 & H1 & H2). exists m'. split; [done |]. split; [lia |]. split; intros *; rewrite ?H1, ?H2; setoid_rewrite elem_of_cons;
      naive_solver.
  - rewrite bool_decide_eq_false_2 by done. cbn [negb require bind].
    destruct (IH (<[ key := default ∅ (m !! key) ∪ list_to_set (reasons s) ]> m) Hf) as (m' & -> & H0 & H1 & H2).
    exists m'. split; [done |]. split; [rewrite map_size_insert in H0; destruct (m !! key); unfold id in H0; lia |]. split.
    + intros key'. rewrite H1. setoid_rewrite elem_of_cons. destruct (decide (key' = key)) as [->|Hk].
      * rewrite lookup_insert_eq. naive_solver.
      * rewrite lookup_insert_ne by done. naive_solver.
    + intros key' r. rewrite H2. setoid_rewrite elem_of_cons. destruct (decide (key' = key)) as [->|Hk].
      * rewrite lookup_insert_eq. cbn [default from_option id]. rewrite elem_of_union, elem_of_list_to_set. naive_solver.
      * rewrite lookup_insert_ne by done. naive_solver.
Qed.

(** ** Penalties *)

Record recognized_ok (r : RecognizedReusePenalty) : Prop := {
  rec_first : in_intervals (first_interval r);
  rec_second : in_intervals (second_interval r);
  rec_cost : 0 <= cost r
}.

(** What a relation adds to the weight of a pair. *)
Definition penalty_cost (key : Z * Z) (r : RecognizedReusePenalty) : Z :=
  match related_pair b (first_interval r) (second_interval r) with
  | Ok (Some key') => if decide (key' = key) then cost r else 0
  | _ => 0
  end.

Lemma collect_penalties_ok rs : forall m,
  Forall recognized_ok rs -> nonneg m -> weight_sum m + zsum (map cost rs) <= UINT64_MAX ->
  exists m', collect_penalties b m rs = Ok m' /\ nonneg m' /\ weight_sum m' <= weight_sum m + zsum (map cost rs) /\
    (forall key, default 0 (m' !! key) = default 0 (m !! key) + zsum (map (penalty_cost key) rs)) /\
    (forall key, is_Some (m' !! key) -> is_Some (m !! key) \/ exists r, r ∈ rs /\ intervals_of key (first_interval r) (second_interval r)).
Proof.
  induction rs as [|r rs IH]; intros m Hf Hm Hmax; cbn [collect_penalties map zsum foldr] in *.
  { exists m. split_and!; [done | done | lia | intros; lia | by left]. }
  apply Forall_cons in Hf as [[Hi Hj Hc] Hf]. fold (zsum (map cost rs)) in *.
  assert (Hpos : 0 <= zsum (map cost rs)).
  { apply zsum_nonneg. intros v (q & -> & Hq)%list_elem_of_fmap_1. rewrite Forall_forall in Hf. by apply Hf. }
  assert (Hrel : exists o, related_pair b (first_interval r) (second_interval r) = Ok o).
  { destruct Hi as [x Hx], Hj as [y Hy]. pose proof (related_pair_ok _ _ x y Hx Hy) as H.
    destruct (_ && _); [destruct H as (? & ? & _ & _ & ->)|rewrite H]; by eexists. }
  destruct Hrel as [[key|] Hrel].
  - pose proof (proj1 (related_some _ _ key Hi Hj) Hrel) as Hkey. rewrite Hrel. cbn [bind].
    rewrite add_weight_exact by (done || lia).
    destruct (IH (<[ key := default 0 (m !! key) + cost r ]> m)) as (m' & -> & H1 & H2 & H3 & H4); [done | | |].
    { intros key' w [[<- <-]|[_ Hw]]%lookup_insert_Some; [|by eapply Hm].
      destruct (m !! key) as [v|] eqn:E; cbn; [apply Hm in E; lia | lia]. }
    { rewrite weight_sum_insert. lia. }
    exists m'. rewrite weight_sum_insert in H2. split_and!; [done | done | lia | |].
    + intros key'. rewrite H3. unfold penalty_cost at 2. rewrite Hrel. fold (zsum (map (penalty_cost key') rs)).
      destruct (decide (key = key')) as [<-|Hne]; [rewrite lookup_insert_eq; cbn [default from_option id]; lia |].
      rewrite lookup_insert_ne by done. lia.
    + intros key' [H|(r' & Hr' & H)]%H4; [|right; exists r'; split; [by right | done]].
      destruct (decide (key = key')) as [<-|Hne]; [right; exists r; split; [by left | done] |].
      rewrite lookup_insert_ne in H by done. by left.
  - rewrite Hrel. cbn [bind]. destruct (IH m Hf Hm) as (m' & -> & H1 & H2 & H3 & H4); [lia |].
    exists m'. split_and!; [done | done | lia | |].
    + intros key'. rewrite H3. unfold penalty_cost at 2. rewrite Hrel. fold (zsum (map (penalty_cost key') rs)). lia.
    + intros key' [H|(r' & Hr' & H)]%H4; [by left | right; exists r'; split; [by right | done]].
Qed.

End Relations.

(** ** Pools *)

Definition caps_ok (caps : gmap Z Z) (l : list LifetimeInterval) : Prop :=
  (forall id c, caps !! id = Some c -> is_u64 c) /\
  forall x c, x ∈ l -> active x = true -> caps !! space_id (memory_space x) = Some c -> 0 < c ->
    end_of (space_id (memory_space x)) <= c.

Lemma ascending_map_keys {A} (m : gmap Z A) : NoDup (map fst (ascending_map m)).
Proof.
  unfold ascending_map. pose proof (Permutation_map fst (sort_by_perm (fun kv : Z * A => [kv.1]) (map_to_list m))) as Hp.
  rewrite Hp. apply NoDup_fst_map_to_list.
Qed.

Lemma finish_pools_ok caps l b :
  building l b -> caps_ok caps l ->
  NoDup (map pool_id (finish_pools caps b)) /\
  (forall x, x ∈ l -> active x = true -> exists pool, pool ∈ finish_pools caps b /\ pool_id pool = space_id (memory_space x)) /\
  forall pool, pool ∈ finish_pools caps b ->
    reserved_ranges pool = reserved_of (pool_id pool) /\ 0 < capacity pool <= UINT64_MAX /\
    end_of (pool_id pool) <= capacity pool /\
    (forall c, caps !! pool_id pool = Some c -> 0 < c -> capacity pool = c) /\
    exists x, x ∈ l /\ active x = true /\ space_id (memory_space x) = pool_id pool.
Proof.
  intros Hb [Hc Hend].
  assert (Hin : forall pool, pool ∈ finish_pools caps b -> exists id q, pools_so_far b !! id = Some q /\
    pool = MkPool (pool_id q) (match caps !! id with
      | Some c => if c >? 0 then c else default 0 (fallback_capacity b !! id)
      | None => default 0 (fallback_capacity b !! id) end) (reserved_ranges q)).
  { intros pool ([id q] & -> & Hq%ascending_map_in)%list_elem_of_fmap_1. by exists id, q. }
  split_and!.
  - replace (map pool_id (finish_pools caps b)) with (map fst (ascending_map (pools_so_far b))); [apply ascending_map_keys |].
    unfold finish_pools. rewrite map_map. apply map_ext_in. intros [id q] Hq%list_elem_of_In%ascending_map_in.
    by destruct (bd_pools _ _ Hb _ _ Hq) as (-> & _).
  - intros x Hx Ha. destruct (bd_has_pool _ _ Hb x Hx Ha) as [q Hq]. eexists. split.
    + apply (list_elem_of_fmap_2 _ _ (space_id (memory_space x), q)). by apply ascending_map_in.
    + cbn. by destruct (bd_pools _ _ Hb _ _ Hq) as (-> & _).
  - intros pool (id & q & Hq & ->)%Hin. cbn [pool_id reserved_ranges capacity].
    destruct (bd_pools _ _ Hb _ _ Hq) as (-> & -> & x & Hx & Ha & Hid).
    destruct (bd_fallback _ _ Hb _ _ Hq) as (f & Ef & Hf & Hfe).
    replace (default 0 (fallback_capacity b !! id)) with f by (by rewrite Ef).
    assert (Hcap : match caps !! id with Some c => if c >? 0 then c else f | None => f end = f /\
        (forall c, caps !! id = Some c -> c <= 0) \/
      exists c, caps !! id = Some c /\ 0 < c <= UINT64_MAX /\ end_of id <= c /\
        match caps !! id with Some c => if c >? 0 then c else f | None => f end = c).
    { destruct (caps !! id) as [c|] eqn:Ec; [|left; split; [done | done]].
      destruct (Z.gtb_spec c 0); [right | left; split; [done | intros ? [= <-]; lia]].
      exists c. pose proof (Hc _ _ Ec). subst id. specialize (Hend x c Hx Ha Ec ltac:(lia)). split_and!; try done; lia64. }
    destruct Hcap as [[-> Hle]|(c & Ec & Hcb & He & ->)].
    + split_and!; try done; try lia; [|by exists x]. intros c Ec%Hle. lia.
    + split_and!; try done; try lia; [|by exists x]. intros c' Ec' _. congruence.
Qed.

(** ** The problem *)

(** A relation between the intervals [i] and [j]. *)
Definition between (s : AllocationSeparation) (i j : nat) : Prop :=
  as_first s = i /\ as_second s = j \/ as_first s = j /\ as_second s = i.

(** What the analyses of a function give. *)
Record plan_wf (plan : AllocationPlan) (caps : gmap Z Z) (recognized : list RecognizedReusePenalty) : Prop := {
  wf_intervals : intervals_ok (intervals plan);
  wf_separations : Forall (separation_ok (intervals plan)) (plan_separations plan);
  wf_recognized : Forall (recognized_ok (intervals plan)) recognized;
  wf_legal : forall r x y, r ∈ recognized ->
    intervals plan !! first_interval r = Some x -> intervals plan !! second_interval r = Some y ->
    active x = true -> active y = true -> memory_space x = memory_space y -> first_interval r <> second_interval r /\ ~ co_live x y;
  wf_total : zsum (map cost recognized) + Z.of_nat (length (plan_separations plan)) <= UINT64_MAX;
  wf_caps : caps_ok caps (intervals plan)
}.

(** The buffer [k] of the interval [x] at [i]. *)
Definition represents (plan : AllocationPlan) (prepared : PreparedProblem) (i : nat) (x : LifetimeInterval) (k : nat) : Prop :=
  intervals plan !! i = Some x /\ active x = true /\ buffers (strict_problem prepared) !! k = Some (buffer_of k x) /\
  exists key, base_of_interval x = Some key /\ buffer_id_by_base prepared !! key = Some (Z.of_nat k).

(** Separated, and separated by the software pipeline only. *)
Definition kept_apart (plan : AllocationPlan) (i j : nat) : Prop :=
  exists s, s ∈ plan_separations plan /\ between s i j.
Definition pipelined (plan : AllocationPlan) (i j : nat) : Prop :=
  kept_apart plan i j /\ forall s r, s ∈ plan_separations plan -> between s i j -> r ∈ reasons s -> r = PipelineStage.

Record prepared_ok (plan : AllocationPlan) (caps : gmap Z Z) (prepared : PreparedProblem) : Prop := {
  pr_typed : typed (strict_problem prepared);
  pr_problem : problem_ok (strict_problem prepared);
  pr_interval : forall i x, intervals plan !! i = Some x -> active x = true -> exists k, represents plan prepared i x k;
  pr_buffer : forall k y, buffers (strict_problem prepared) !! k = Some y ->
    exists i x, represents plan prepared i x k /\ y = buffer_of k x;
  pr_injective : forall i j x y k, represents plan prepared i x k -> represents plan prepared j y k -> i = j;
  pr_pool : forall pool, pool ∈ pools (strict_problem prepared) ->
    reserved_ranges pool = reserved_of (pool_id pool) /\
    (forall c, caps !! pool_id pool = Some c -> 0 < c -> capacity pool = c);
  pr_conflict : forall i j x y k k', represents plan prepared i x k -> represents plan prepared j y k' -> i <> j ->
    conflicting (strict_problem prepared) (buffer_of k x) (buffer_of k' y) <->
    memory_space x = memory_space y /\ (co_live x y \/ kept_apart plan i j);
  pr_pipeline : forall i j x y k k', represents plan prepared i x k -> represents plan prepared j y k' -> i <> j ->
    separated (pipeline_pairs prepared) (buffer_of k x) (buffer_of k' y) <->
    memory_space x = memory_space y /\ ~ co_live x y /\ pipelined plan i j;
  pr_subset : forall r, r ∈ pipeline_pairs prepared -> r ∈ separations (strict_problem prepared);
  pr_count : foldr Z.add 0 (map weight (reuse_penalties (strict_problem prepared)))
    + Z.of_nat (length (pipeline_pairs prepared)) <= UINT64_MAX
}.

Lemma space_id_inj s s' : space_id s = space_id s' -> s = s'.
Proof. by destruct s, s'. Qed.

Section Prepared.
Context (plan : AllocationPlan) (b : Building).
Let l := intervals plan.
Hypothesis l_ok : intervals_ok l.
Hypothesis b_ok : building l b.

Lemma intervals_between i j x y k k' s :
  l !! i = Some x -> l !! j = Some y -> memory_space x = memory_space y ->
  has_buffer b i k -> has_buffer b j k' -> 
  intervals_of l b (CanonicalBufferPair (Z.of_nat k) (Z.of_nat k')) (as_first s) (as_second s) <-> between s i j.
Proof.
  intros Hi Hj Hs Hk Hk'. split.
  - intros (k1 & k1' & x1 & y1 & _ & _ & _ & H1 & H1' & E). apply canonical_eq in E.
    destruct E as [[E E']|[E E']]; apply Nat2Z.inj in E, E'; subst.
    + left. split; symmetry; by eapply has_buffer_inj.
    + right. split; symmetry; by eapply has_buffer_inj.
  - intros [[-> ->]|[-> ->]]; [by exists k, k', x, y | exists k', k, y, x; split_and!; try done]. apply canonical_eq. by right.
Qed.

(** Of a pair in the table of separations. *)
Lemma pair_intervals key i j :
  intervals_of l b key i j -> i <> j -> exists x y k k', l !! i = Some x /\ l !! j = Some y /\ memory_space x = memory_space y /\
    has_buffer b i k /\ has_buffer b j k' /\ k <> k' /\ built b !! k = Some (buffer_of k x) /\ built b !! k' = Some (buffer_of k' y) /\
    key = CanonicalBufferPair (Z.of_nat k) (Z.of_nat k').
Proof.
  intros (k & k' & x & y & Hi & Hj & Hs & Hk & Hk' & ->) Hne. exists x, y, k, k'. split_and!; try done.
  - intros ->. apply Hne. by eapply has_buffer_inj.
  - destruct (active x) eqn:Ha; [|unfold has_buffer in Hk; rewrite (bd_inactive _ _ b_ok _ _ Hi Ha) in Hk; congruence].
    destruct (buffer_at l b b_ok i x Hi Ha) as (k0 & H0 & Hb). unfold has_buffer in *. assert (k0 = k) as -> by (apply Nat2Z.inj; congruence). done.
  - destruct (active y) eqn:Ha; [|unfold has_buffer in Hk'; rewrite (bd_inactive _ _ b_ok _ _ Hj Ha) in Hk'; congruence].
    destruct (buffer_at l b b_ok j y Hj Ha) as (k0 & H0 & Hb). unfold has_buffer in *. assert (k0 = k') as -> by (apply Nat2Z.inj; congruence). done.
Qed.

(** A pair of buffers as the validator wants it. *)
Lemma pair_ok_of (P : Buffer -> Buffer -> Prop) p key i j :
  buffers p = built b -> intervals_of l b key i j -> i <> j ->
  (forall x y k k', l !! i = Some x -> l !! j = Some y -> P (buffer_of k x) (buffer_of k' y) /\ P (buffer_of k' y) (buffer_of k x)) ->
  pair_ok p P key.1 key.2.
Proof.
  intros Hp Hkey Hne HP. destruct (pair_intervals key i j Hkey Hne) as (x & y & k & k' & Hi & Hj & Hs & Hk & Hk' & Hkk & Hb & Hb' & ->).
  destruct (HP x y k k' Hi Hj) as [H1 H2]. unfold pair_ok, CanonicalBufferPair. rewrite Hp.
  destruct (Z.ltb_spec (Z.of_nat k) (Z.of_nat k')); cbn [fst snd]; (split; [lia |]).
  - exists (buffer_of k x), (buffer_of k' y). cbn [bpool buffer_of]. rewrite Hs.
    split_and!; try done; by eapply list_elem_of_lookup_2.
  - exists (buffer_of k' y), (buffer_of k x). cbn [bpool buffer_of]. rewrite Hs.
    split_and!; try done; by eapply list_elem_of_lookup_2.
Qed.

Context (caps : gmap Z Z) (hard : gmap (Z * Z) (gset AllocationSeparationReason)) (weights : gmap (Z * Z) Z).
Hypothesis seps_ok : Forall (separation_ok l) (plan_separations plan).
Hypothesis hard_keys : forall key, is_Some (hard !! key) <->
  exists s, s ∈ plan_separations plan /\ intervals_of l b key (as_first s) (as_second s).
Hypothesis hard_reasons : forall key r, r ∈ default ∅ (hard !! key) <->
  exists s, s ∈ plan_separations plan /\ intervals_of l b key (as_first s) (as_second s) /\ r ∈ reasons s.

(** What [BuildProblem] returns, from its tables. *)
Definition assemble : PreparedProblem :=
  MkPrepared
    (MkProblem (finish_pools caps b) (built b)
      (map (fun '((first, second), _) => MkSeparation first second) (ascending_pairs hard)) (penalties_of weights))
    (bases_so_far b)
    (flat_map (fun '(key, rs) => if pipeline_only b key rs then [MkSeparation key.1 key.2] else []) (ascending_pairs hard)).

Lemma represents_has i x k : represents plan assemble i x k -> has_buffer b i k.
Proof.
  intros (Hi & Ha & Hk & key & Hkey & Hid). destruct (bd_active _ _ b_ok _ _ Hi Ha) as (k0 & key0 & H1 & _ & H2 & H3).
  assert (key0 = key) as -> by congruence. cbn [buffer_id_by_base assemble] in Hid. unfold has_buffer. congruence.
Qed.

Lemma represents_all i x : l !! i = Some x -> active x = true -> exists k, represents plan assemble i x k.
Proof.
  intros Hi Ha. destruct (bd_active _ _ b_ok _ _ Hi Ha) as (k & key & H1 & H2 & H3 & H4). exists k.
  split_and!; try done. by exists key.
Qed.

Lemma separation_in a c : MkSeparation a c ∈ separations (strict_problem assemble) <-> is_Some (hard !! (a, c)).
Proof.
  cbn [separations strict_problem assemble]. split.
  - intros ([[a' c'] rs] & [= -> ->] & Hin%ascending_pairs_in)%list_elem_of_fmap_1. by exists rs.
  - intros [rs Hrs]. apply (list_elem_of_fmap_2 (fun '((first, second), _) => MkSeparation first second) _ ((a, c), rs)).
    by apply ascending_pairs_in.
Qed.

Lemma hard_distinct key s : s ∈ plan_separations plan -> intervals_of l b key (as_first s) (as_second s) -> as_first s <> as_second s.
Proof. intros Hs _. rewrite Forall_forall in seps_ok. by apply (sep_distinct l), seps_ok. Qed.

(** The key of a pair of represented intervals. *)
Lemma hard_between i j x y k k' :
  represents plan assemble i x k -> represents plan assemble j y k' -> memory_space x = memory_space y ->
  is_Some (hard !! CanonicalBufferPair (Z.of_nat k) (Z.of_nat k')) <-> kept_apart plan i j.
Proof.
  intros Hx Hy Hs. rewrite hard_keys. unfold kept_apart. destruct (proj1 Hx), (proj1 Hy).
  by setoid_rewrite (intervals_between i j x y k k' _ (proj1 Hx) (proj1 Hy) Hs (represents_has _ _ _ Hx) (represents_has _ _ _ Hy)).
Qed.

Lemma reasons_between i j x y k k' r :
  represents plan assemble i x k -> represents plan assemble j y k' -> memory_space x = memory_space y ->
  r ∈ default ∅ (hard !! CanonicalBufferPair (Z.of_nat k) (Z.of_nat k')) <->
  exists s, s ∈ plan_separations plan /\ between s i j /\ r ∈ reasons s.
Proof.
  intros Hx Hy Hs. rewrite hard_reasons.
  by setoid_rewrite (intervals_between i j x y k k' _ (proj1 Hx) (proj1 Hy) Hs (represents_has _ _ _ Hx) (represents_has _ _ _ Hy)).
Qed.

(** A separation joins buffers of one pool. *)
Lemma hard_same_pool i j x y k k' :
  represents plan assemble i x k -> represents plan assemble j y k' ->
  is_Some (hard !! CanonicalBufferPair (Z.of_nat k) (Z.of_nat k')) -> memory_space x = memory_space y.
Proof.
  intros Hx Hy (s & Hs & Hkey)%hard_keys. pose proof (hard_distinct _ _ Hs Hkey) as Hne.
  destruct (pair_intervals _ _ _ Hkey Hne) as (x1 & y1 & k1 & k1' & Hi & Hj & Hsp & Hk & Hk' & _ & _ & _ & E).
  pose proof (represents_has i x k Hx) as Hbx. pose proof (represents_has j y k' Hy) as Hby.
  destruct Hx as (Hx & _), Hy as (Hy & _). fold l in Hx, Hy.
  apply canonical_eq in E as [[E E']|[E E']]; apply Nat2Z.inj in E, E'; subst k1 k1'.
  - pose proof (has_buffer_inj _ _ b_ok _ _ _ Hbx Hk). pose proof (has_buffer_inj _ _ b_ok _ _ _ Hby Hk'). subst. congruence.
  - pose proof (has_buffer_inj _ _ b_ok _ _ _ Hbx Hk'). pose proof (has_buffer_inj _ _ b_ok _ _ _ Hby Hk). subst. congruence.
Qed.

Lemma separated_hard (P : Z * Z -> Prop) seps k k' x y :
  (forall a c, MkSeparation a c ∈ seps <-> P (a, c)) -> (forall a c, P (a, c) -> (a, c) = CanonicalBufferPair a c) ->
  separated seps (buffer_of k x) (buffer_of k' y) <-> P (CanonicalBufferPair (Z.of_nat k) (Z.of_nat k')).
Proof.
  intros Hin Hcan. unfold separated. cbn [buffer_id buffer_of]. split.
  - intros ([a c] & Hs%Hin & E). cbn [sfirst ssecond] in E. pose proof (Hcan _ _ Hs) as Hc. rewrite Hc in Hs.
    replace (CanonicalBufferPair (Z.of_nat k) (Z.of_nat k')) with (CanonicalBufferPair a c); [done |].
    apply canonical_eq. destruct E as [[-> ->]|[-> ->]]; auto.
  - intros HP. destruct (CanonicalBufferPair (Z.of_nat k) (Z.of_nat k')) as [a c] eqn:E. exists (MkSeparation a c).
    split; [by apply Hin |]. cbn [sfirst ssecond]. unfold CanonicalBufferPair in E. destruct (Z.of_nat k <? Z.of_nat k'); injection E as <- <-; auto.
Qed.

Lemma hard_canonical a c : is_Some (hard !! (a, c)) -> (a, c) = CanonicalBufferPair a c.
Proof.
  intros (s & Hs & Hkey)%hard_keys. destruct (pair_intervals _ _ _ Hkey (hard_distinct _ _ Hs Hkey))
    as (x & y & k & k' & _ & _ & _ & _ & _ & Hne & _ & _ & E). rewrite E. unfold CanonicalBufferPair in *.
  destruct (Z.ltb_spec (Z.of_nat k) (Z.of_nat k')); injection E as -> ->.
  - by rewrite (proj2 (Z.ltb_lt _ _)) by lia.
  - by rewrite (proj2 (Z.ltb_lt _ _)) by lia.
Qed.

Lemma assemble_conflict i j x y k k' :
  represents plan assemble i x k -> represents plan assemble j y k' -> i <> j ->
  conflicting (strict_problem assemble) (buffer_of k x) (buffer_of k' y) <->
  memory_space x = memory_space y /\ (co_live x y \/ kept_apart plan i j).
Proof.
  intros Hx Hy Hne. unfold conflicting. cbn [bpool buffer_of lifetime]. rewrite half_steps_overlap.
  rewrite (separated_hard (fun key => is_Some (hard !! key))) by (apply separation_in || apply hard_canonical). split.
  - intros [Hs%space_id_inj H]. split; [done |]. destruct H as [H|H]; [by left | right]. by apply (hard_between i j x y k k').
  - intros [Hs H]. split; [by rewrite Hs |]. destruct H as [H|H]; [by left | right]. by apply (hard_between i j x y k k').
Qed.

(** *** The pipeline pairs *)

Definition relaxable (key : Z * Z) : Prop :=
  exists rs, hard !! key = Some rs /\ pipeline_only b key rs = true.

Lemma pipeline_pair_in a c : MkSeparation a c ∈ pipeline_pairs assemble <-> relaxable (a, c).
Proof.
  cbn [pipeline_pairs assemble]. rewrite list_elem_of_In, in_flat_map. setoid_rewrite <- list_elem_of_In. unfold relaxable. split.
  - intros ([key rs] & Hin%ascending_pairs_in & Hp). destruct (pipeline_only b key rs) eqn:E; [|by apply elem_of_nil in Hp].
    apply list_elem_of_singleton in Hp. injection Hp as -> ->. destruct key as [a' c']. cbn [fst snd]. by exists rs.
  - intros (rs & Hin & Hp). exists ((a, c), rs). split; [by apply ascending_pairs_in |]. rewrite Hp. apply list_elem_of_singleton. done.
Qed.

Lemma only_pipeline (rs : gset AllocationSeparationReason) :
  (size rs =? 1)%nat && bool_decide (PipelineStage ∈ rs) = true <-> PipelineStage ∈ rs /\ forall r, r ∈ rs -> r = PipelineStage.
Proof.
  rewrite andb_true_iff, Nat.eqb_eq, bool_decide_eq_true. split.
  - intros [H1 Hp]. split; [done |]. intros r Hr. by apply (size_singleton_inv rs).
  - intros [Hp Hall]. split; [|done]. replace rs with ({[ PipelineStage ]} : gset AllocationSeparationReason); [apply size_singleton |].
    apply set_eq. intros r. rewrite elem_of_singleton. split; [by intros -> | apply Hall].
Qed.

Lemma assemble_pipeline i j x y k k' :
  represents plan assemble i x k -> represents plan assemble j y k' -> i <> j ->
  separated (pipeline_pairs assemble) (buffer_of k x) (buffer_of k' y) <->
  memory_space x = memory_space y /\ ~ co_live x y /\ pipelined plan i j.
Proof.
  intros Hx Hy Hne. rewrite (separated_hard relaxable).
  2:{ apply pipeline_pair_in. } 2:{ intros a c (rs & Hrs & _). apply hard_canonical. by exists rs. }
  assert (Hov : forall rs, pipeline_only b (CanonicalBufferPair (Z.of_nat k) (Z.of_nat k')) rs =
    (size rs =? 1)%nat && bool_decide (PipelineStage ∈ rs) && negb (Overlaps (half_steps x) (half_steps y))).
  { intros rs. unfold pipeline_only. f_equal. pose proof (proj1 (proj2 (proj2 Hx))) as Hb. pose proof (proj1 (proj2 (proj2 Hy))) as Hb'.
    cbn [buffers strict_problem assemble] in Hb, Hb'.
    unfold CanonicalBufferPair. destruct (Z.of_nat k <? Z.of_nat k'); cbn [fst snd]; rewrite !Nat2Z.id, Hb, Hb'; cbn [lifetime buffer_of]; [done |].
    by rewrite Overlaps_sym. }
  assert (Hlive : negb (Overlaps (half_steps x) (half_steps y)) = true <-> ~ co_live x y).
  { rewrite negb_true_iff, <- not_true_iff_false. by rewrite half_steps_overlap. }
  assert (Hpo : forall rs, pipeline_only b (CanonicalBufferPair (Z.of_nat k) (Z.of_nat k')) rs = true <->
    (PipelineStage ∈ rs /\ forall r, r ∈ rs -> r = PipelineStage) /\ ~ co_live x y).
  { intros rs. by rewrite Hov, andb_true_iff, only_pipeline, Hlive. }
  unfold relaxable. setoid_rewrite Hpo. split.
  - intros (rs & Hrs & (Hp & Hall) & Hl). assert (Hs : memory_space x = memory_space y) by (eapply hard_same_pool; try done; by exists rs).
    split_and!; [done | done |]. split; [apply (hard_between i j x y k k' Hx Hy Hs); by exists rs |].
    intros s r Hin Hb Hr. apply Hall. pose proof (proj2 (reasons_between i j x y k k' r Hx Hy Hs)) as H. rewrite Hrs in H. apply H. by exists s.
  - intros (Hs & Hl & Hk & Hall). pose proof Hk as [rs Hrs]%(hard_between i j x y k k' Hx Hy Hs). exists rs.
    assert (Hr : forall r, r ∈ rs <-> exists s, s ∈ plan_separations plan /\ between s i j /\ r ∈ reasons s).
    { intros r. rewrite <- (reasons_between i j x y k k' r Hx Hy Hs), Hrs. done. }
    split; [done |]. split; [|done]. split.
    + destruct Hk as (s & Hin & Hb). apply Hr. exists s. split; [done |]. split; [done |].
      assert (Hne' : reasons s <> []) by (rewrite Forall_forall in seps_ok; by apply (sep_reasons l), seps_ok).
      destruct (reasons s) as [|r rs'] eqn:E; [done |]. rewrite (Hall s r Hin Hb ltac:(rewrite E; left)). left.
    + intros r (s & Hin & Hb & Hin')%Hr. by eapply Hall.
Qed.

End Prepared.


(** *** Well-formedness *)

Lemma built_ids l b : building l b -> NoDup (map buffer_id (built b)).
Proof.
  intros Hb. apply NoDup_alt. intros i j v Hi Hj. apply list_lookup_fmap_Some in Hi as (x & -> & Hi).
  apply list_lookup_fmap_Some in Hj as (y & E & Hj). rewrite (built_id l b Hb _ _ Hi), (built_id l b Hb _ _ Hj) in E. lia.
Qed.

Lemma reserved_of_in id r : r ∈ reserved_of id -> rbegin r = 0 /\ rend r = end_of id /\ 0 < end_of id.
Proof.
  unfold reserved_of, end_of. destruct (ends !! id) as [e|]; [|by intros ?%elem_of_nil].
  destruct (Z.gtb_spec e 0); [intros ->%list_elem_of_singleton | by intros ?%elem_of_nil]. cbn. split_and!; [done | done | lia].
Qed.

Section Assembled.
Context (plan : AllocationPlan) (b : Building) (caps : gmap Z Z) (recognized : list RecognizedReusePenalty)
  (hard : gmap (Z * Z) (gset AllocationSeparationReason)) (weights : gmap (Z * Z) Z).
Let l := intervals plan.
Hypothesis wf : plan_wf plan caps recognized.
Hypothesis b_ok : building l b.
Hypothesis hard_keys : forall key, is_Some (hard !! key) <->
  exists s, s ∈ plan_separations plan /\ intervals_of l b key (as_first s) (as_second s).
Hypothesis hard_size : (size hard <= length (plan_separations plan))%nat.
Hypothesis weights_nonneg : nonneg weights.
Hypothesis weights_total : weight_sum weights <= zsum (map cost recognized).
Hypothesis weights_keys : forall key, is_Some (weights !! key) ->
  exists r, r ∈ recognized /\ intervals_of l b key (first_interval r) (second_interval r).

Let prepared : PreparedProblem := assemble b caps hard weights.

Lemma buffer_placeable k y : built b !! k = Some y -> exists i x, l !! i = Some x /\ active x = true /\ placeable_interval x /\ y = buffer_of k x.
Proof.
  intros Hk. destruct (bd_built _ _ b_ok _ _ Hk) as (i & x & Hi & Ha & _ & ->). exists i, x.
  split_and!; try done. by eapply (iv_placeable _ (wf_intervals _ _ _ wf)).
Qed.

Lemma buffer_facts_of y : y ∈ built b -> is_u64 (bsize y) /\ is_u64 (alignment y) /\ buffer_ok (strict_problem prepared) y.
Proof.
  intros [k Hk]%list_elem_of_lookup. destruct (buffer_placeable k y Hk) as (i & x & Hi & Ha & [Hpts _ Hs Hr Hal] & ->).
  cbn [bsize alignment buffer_of]. pose proof (space_alignment_pos (memory_space x)) as Hp.
  pose proof (round_up_spec (lsize x) _ Hp). split_and!; [lia64 | lia64 |]. split_and!; cbn [bsize alignment lifetime bpool buffer_of]; try lia.
  - by apply half_steps_ok.
  - by apply half_steps_ok.
  - destruct (finish_pools_ok caps l b b_ok (wf_caps _ _ _ wf)) as (_ & Hpool & _).
    destruct (Hpool x) as (pool & Hin & E); [by eapply list_elem_of_lookup_2 | done |]. by exists pool.
Qed.

Lemma pool_facts pool : pool ∈ finish_pools caps b -> is_u64 (capacity pool) /\ pool_ok pool /\
  Forall (fun r => is_u64 (rbegin r) /\ is_u64 (rend r)) (reserved_ranges pool).
Proof.
  intros Hin. destruct (finish_pools_ok caps l b b_ok (wf_caps _ _ _ wf)) as (_ & _ & Hpool).
  destruct (Hpool pool Hin) as (Hr & Hc & He & _). split_and!; [lia64 | |].
  - split; [lia |]. rewrite Hr. apply Forall_forall. intros r (Hb & Hen & Hp)%reserved_of_in. unfold range_ok. lia.
  - rewrite Hr. apply Forall_forall. intros r (Hb & Hen & Hp)%reserved_of_in. lia64.
Qed.

Lemma hard_pair r : r ∈ separations (strict_problem prepared) ->
  pair_ok (strict_problem prepared) (fun _ _ => True) (sfirst r) (ssecond r).
Proof.
  destruct r as [a c]. intros (s & Hs & Hkey)%separation_in%hard_keys. cbn [sfirst ssecond].
  apply (pair_ok_of plan b b_ok (fun _ _ => True) (strict_problem prepared) (a, c) _ _ eq_refl Hkey); [|done].
  pose proof (wf_separations _ _ _ wf) as Hf. rewrite Forall_forall in Hf. by apply (sep_distinct l), Hf.
Qed.

Lemma penalty_pair r : r ∈ penalties_of weights ->
  pair_ok (strict_problem prepared) (fun y z => Overlaps (lifetime y) (lifetime z) = false) (pfirst r) (psecond r).
Proof.
  intros [Hw _]%penalties_of_in. destruct (weights_keys (pfirst r, psecond r)) as (q & Hq & Hkey); [by eexists |].
  assert (Hlegal : forall x y, l !! first_interval q = Some x -> l !! second_interval q = Some y ->
     first_interval q <> second_interval q /\ ~ co_live x y).
  { intros x y Hx Hy. pose proof Hkey as (k & k' & x' & y' & Hx' & Hy' & Hs & Hk & Hk' & _).
    assert (x' = x) as -> by congruence. assert (y' = y) as -> by congruence.
    assert (Hact : forall i x k, l !! i = Some x -> has_buffer b i k -> active x = true).
    { intros i x0 k0 Hi0 Hk0. destruct (active x0) eqn:E; [done |]. unfold has_buffer in Hk0.
      rewrite (bd_inactive _ _ b_ok _ _ Hi0 E) in Hk0. congruence. }
    apply (wf_legal _ _ _ wf q x y Hq Hx Hy); [by eapply Hact | by eapply Hact | done]. }
  pose proof Hkey as (_ & _ & x & y & Hx & Hy & _).
  apply (pair_ok_of plan b b_ok _ (strict_problem prepared) (pfirst r, psecond r) _ _ eq_refl Hkey (proj1 (Hlegal x y Hx Hy))).
  intros x' y' k k' Hx' Hy'. cbn [lifetime buffer_of]. destruct (Hlegal x' y' Hx' Hy') as [_ Hl].
  rewrite (Overlaps_sym (half_steps y')). rewrite <- half_steps_overlap in Hl. by apply not_true_iff_false in Hl.
Qed.

Lemma assembled_typed : typed (strict_problem prepared).
Proof.
  split; cbn [pools buffers reuse_penalties strict_problem prepared assemble]; apply Forall_forall.
  - intros pool Hin. destruct (pool_facts pool Hin) as (H1 & _ & H3). done.
  - intros y Hy. by destruct (buffer_facts_of y Hy) as (H1 & H2 & _).
  - intros r [Hw _]%penalties_of_in. pose proof (weight_le weights (pfirst r, psecond r) weights_nonneg) as Hle.
    rewrite Hw in Hle. cbn [default from_option] in Hle. pose proof (weights_nonneg _ _ Hw).
    pose proof (wf_total _ _ _ wf). unfold id in Hle. lia64.
Qed.

Lemma assembled_problem : problem_ok (strict_problem prepared).
Proof.
  split; cbn [pools buffers separations reuse_penalties strict_problem prepared assemble].
  - by apply (finish_pools_ok caps l b b_ok), (wf_caps _ _ _ wf).
  - apply Forall_forall. intros pool Hin. by destruct (pool_facts pool Hin) as (_ & H2 & _).
  - by apply (built_ids l).
  - apply Forall_forall. intros y Hy. by destruct (buffer_facts_of y Hy) as (_ & _ & H3).
  - apply Forall_forall, hard_pair.
  - apply Forall_forall, penalty_pair.
  - rewrite penalties_of_sum. pose proof (wf_total _ _ _ wf). lia.
Qed.

Lemma pipeline_pairs_count : (length (pipeline_pairs prepared) <= length (plan_separations plan))%nat.
Proof.
  cbn [pipeline_pairs prepared assemble]. etrans; [|exact hard_size]. rewrite <- length_map_to_list.
  rewrite <- (Permutation_length (sort_by_perm (fun '((a, b), _) => [a; b]) (map_to_list hard))). fold (ascending_pairs hard).
  induction (ascending_pairs hard) as [|[key rs] al IH]; [done |]. cbn [flat_map length]. rewrite length_app.
  destruct (pipeline_only b key rs); cbn [length]; lia.
Qed.

End Assembled.

(** [BuildProblem] returns a problem the validator accepts, in which the buffers
    are the allocations and conflict as the allocations do. *)
Lemma BuildProblem_ok plan caps recognized :
  plan_wf plan caps recognized ->
  exists prepared, BuildProblem plan ends caps recognized = Ok prepared /\ prepared_ok plan caps prepared.
Proof.
  intros Hwf. unfold BuildProblem.
  destruct (add_intervals_ok (intervals plan) [] _ (wf_intervals _ _ _ Hwf) building_start) as (b & -> & Hb). cbn [app] in Hb. cbn [bind].
  destruct (collect_reasons_ok _ b Hb (plan_separations plan) ∅ (wf_separations _ _ _ Hwf)) as (hard & -> & Hsize & Hkeys & Hreasons).
  assert (Hnn : nonneg ∅) by (intros key w H; by rewrite lookup_empty in H).
  pose proof (wf_total _ _ _ Hwf) as Htot.
  destruct (collect_penalties_ok _ b Hb recognized ∅ (wf_recognized _ _ _ Hwf) Hnn) as (weights & -> & Hwn & Hws & _ & Hwk).
  { change (weight_sum ∅) with 0. lia. }
  cbn [bind]. change (weight_sum ∅) with 0 in Hws.
  assert (Hkeys' : forall key, is_Some (hard !! key) <->
    exists s, s ∈ plan_separations plan /\ intervals_of (intervals plan) b key (as_first s) (as_second s)).
  { intros key. rewrite Hkeys, lookup_empty. split; [intros [[? ?]|H]; done | by right]. }
  assert (Hreasons' : forall key r, r ∈ default ∅ (hard !! key) <->
    exists s, s ∈ plan_separations plan /\ intervals_of (intervals plan) b key (as_first s) (as_second s) /\ r ∈ reasons s).
  { intros key r. rewrite Hreasons, lookup_empty. cbn [default from_option]. split; [intros [H|H]; [by apply elem_of_empty in H | done] | by right]. }
  assert (Hwk' : forall key, is_Some (weights !! key) ->
    exists r, r ∈ recognized /\ intervals_of (intervals plan) b key (first_interval r) (second_interval r)).
  { intros key H. destruct (Hwk key H) as [H'|H']; [rewrite lookup_empty in H'; by destruct H' | done]. }
  rewrite map_size_empty in Hsize. cbn [Nat.add] in Hsize.
  exists (assemble b caps hard weights). split; [reflexivity |].
  pose proof (wf_separations _ _ _ Hwf) as Hseps. split.
  - by apply (assembled_typed plan b caps recognized).
  - by apply (assembled_problem plan b caps recognized).
  - intros i x. by apply (represents_all plan b Hb).
  - intros k y Hk. destruct (bd_built _ _ Hb _ _ Hk) as (i & x & Hi & Ha & Hbi & ->). exists i, x. split; [|done].
    destruct (represents_all plan b Hb caps hard weights i x Hi Ha) as (k0 & Hr).
    pose proof (represents_has plan b Hb caps hard weights i x k0 Hr) as H0. unfold has_buffer in H0.
    assert (k0 = k) as -> by (apply Nat2Z.inj; congruence). done.
  - intros i j x y k H1 H2. eapply (has_buffer_inj _ _ Hb); by eapply represents_has.
  - intros pool Hin. destruct (finish_pools_ok caps _ b Hb (wf_caps _ _ _ Hwf)) as (_ & _ & Hpool).
    destruct (Hpool pool Hin) as (H1 & _ & _ & H4 & _). done.
  - intros i j x y k k'. by apply assemble_conflict.
  - intros i j x y k k'. by apply assemble_pipeline.
  - intros [a c] (rs & Hrs & _)%pipeline_pair_in. apply separation_in. by exists rs.
  - cbn [reuse_penalties strict_problem assemble]. rewrite penalties_of_sum.
    pose proof (pipeline_pairs_count plan b caps hard weights Hsize). lia.
Qed.

End Build.
