(* ===== verification/DsaSeparations.v ===== *)
(** * Which allocations are kept apart

    The separations of [BuildDsaAllocationPlan], by what the analyses of the
    function say of two allocations. *)

From Stdlib Require Import ZArith Lia Bool List String.
From stdpp Require Import base gmap list option strings sorting.
From S2P Require Import Prelude Dtype ScalarExpr Storage Dsa DsaSearch DsaSpec DsaFit DsaSound DsaSolve.
From S2P Require Import Memref MemrefSound MemrefPlan DsaAdapter DsaBuild.

(** ** Collecting reasons *)

Lemma indexed_in l i x : (i, x) ∈ indexed l <-> l !! i = Some x.
Proof.
  unfold indexed. rewrite list_elem_of_lookup. setoid_rewrite list_lookup_imap_Some. split.
  - intros (k & y & Hk & [= -> ->]). done.
  - intros Hi. by exists i, x.
Qed.

Lemma elem_flat_map {A B} (f : A -> list B) l y : y ∈ flat_map f l <-> exists x, x ∈ l /\ y ∈ f x.
Proof. rewrite list_elem_of_In, in_flat_map. by setoid_rewrite <- list_elem_of_In. Qed.

Lemma add_separation_in m i j r c :
  (i < j)%nat -> r ∈ default ∅ (add_separation m c !! (i, j)) <->
  r ∈ default ∅ (m !! (i, j)) \/ c = (i, j, r) \/ c = (j, i, r).
Proof.
  intros Hij. destruct c as [[a b] r']. unfold add_separation, ordered_pair.
  destruct (Nat.eqb_spec a b) as [->|Hne].
  { split; [by left |]. intros [?|[[= -> -> _]|[= -> -> _]]]; [done | lia | lia]. }
  destruct (Nat.ltb_spec b a) as [Hlt|Hge].
  - destruct (decide ((b, a) = (i, j))) as [[= -> ->]|Hk].
    + rewrite lookup_insert_eq. cbn [default from_option]. unfold id. rewrite elem_of_union, elem_of_singleton.
      split; [intros [->|?]; auto | intros [?|[[= ? ? _]|[= ->]]]; [by right | lia | by left]].
    + rewrite lookup_insert_ne by done. split; [by left |]. intros [?|[[= ? ? _]|[= ? ? _]]]; [done | lia | congruence].
  - destruct (decide ((a, b) = (i, j))) as [[= -> ->]|Hk].
    + rewrite lookup_insert_eq. cbn [default from_option]. unfold id. rewrite elem_of_union, elem_of_singleton.
      split; [intros [->|?]; auto | intros [?|[[= ->]|[= ? ? _]]]; [by right | by left | lia]].
    + rewrite lookup_insert_ne by done. split; [by left |]. intros [?|[[= ? ? _]|[= ? ? _]]]; [done | congruence | lia].
Qed.

Lemma add_separations_in calls : forall m i j r,
  (i < j)%nat -> r ∈ default ∅ (foldl add_separation m calls !! (i, j)) <->
  r ∈ default ∅ (m !! (i, j)) \/ (i, j, r) ∈ calls \/ (j, i, r) ∈ calls.
Proof.
  induction calls as [|c calls IH]; intros m i j r Hij; cbn [foldl].
  - split; [by left |]. intros [?|[?%elem_of_nil|?%elem_of_nil]]; done.
  - rewrite IH, add_separation_in by done. rewrite !elem_of_cons. naive_solver.
Qed.

(** The table holds ordered pairs with at least one reason. *)
Definition table_ok (m : SeparationReasons) : Prop :=
  forall i j rs, m !! (i, j) = Some rs -> (i < j)%nat /\ rs <> ∅.

Lemma add_separation_ok m c : table_ok m -> table_ok (add_separation m c).
Proof.
  intros Hm. destruct c as [[a b] r]. unfold add_separation, ordered_pair. destruct (Nat.eqb_spec a b) as [|Hne]; [done |].
  intros i j rs. destruct (Nat.ltb_spec b a); intros [[[= <- <-] <-]|[_ Hk]]%lookup_insert_Some; try (by eapply Hm);
    (split; [lia |]); intros E; apply (not_elem_of_empty (C := gset AllocationSeparationReason) r); rewrite <- E; set_solver.
Qed.

Lemma add_separations_ok calls : forall m, table_ok m -> table_ok (foldl add_separation m calls).
Proof. induction calls as [|c calls IH]; intros m Hm; cbn [foldl]; [done |]. by apply IH, add_separation_ok. Qed.

(** ** The five analyses *)

Section Calls.
Context (analysis : LifetimeAnalysisResult) (constraints : AllocationConstraintAnalysis) (l : list LifetimeInterval).

(** A call for two indices, in either order. *)
Definition called (calls : list (nat * nat * AllocationSeparationReason)) (i j : nat) (r : AllocationSeparationReason) : Prop :=
  (i, j, r) ∈ calls \/ (j, i, r) ∈ calls.

Definition declared (x : LifetimeInterval) : Prop :=
  exists m, var_memref x = Some m /\ data_key m ∈ declared_allocation_bases constraints.

Lemma pinned_in i x : (i, x) ∈ pinned_intervals constraints l <-> l !! i = Some x /\ declared x.
Proof.
  unfold pinned_intervals, declared. rewrite list_elem_of_In, filter_In, <- list_elem_of_In, indexed_in. apply and_iff_compat_l.
  destruct (var_memref x) as [m|]; [|split; [done | by intros (m & ? & _)]]. rewrite bool_decide_eq_true.
  split; [intros H; by exists m | by intros (m' & [= <-] & H)].
Qed.

Lemma declared_calls_in i j r : (i, j, r) ∈ declared_calls constraints l <->
  r = DeclaredAllocation /\ exists x y, l !! i = Some x /\ l !! j = Some y /\ i <> j /\ declared x /\ memory_space x = memory_space y.
Proof.
  unfold declared_calls. rewrite elem_flat_map. split.
  - intros ([i' x] & Hp%pinned_in & ([j' y] & Hy%indexed_in & H)%elem_flat_map).
    destruct (negb (j' =? i')%nat && bool_decide (memory_space y = memory_space x)) eqn:E; [|by apply elem_of_nil in H].
    apply list_elem_of_singleton in H. injection H as -> -> ->. apply andb_true_iff in E as [E1%negb_true_iff%Nat.eqb_neq E2%bool_decide_eq_true].
    split; [done |]. destruct Hp. exists x, y. split_and!; try done.
  - intros (-> & x & y & Hx & Hy & Hne & Hd & Hs). exists (i, x). split; [by apply pinned_in |]. apply elem_flat_map. exists (j, y).
    split; [by apply indexed_in |]. rewrite bool_decide_eq_true_2 by done. rewrite (proj2 (Nat.eqb_neq j i)) by congruence. cbn. by left.
Qed.

(** *** Pipeline stages *)

Definition member (x : LifetimeInterval) (group stage : Z) : Prop :=
  (group, stage) ∈ default [] (pipeline_membership analysis !! variable x).

(** The indices of a stage of a group. *)
Definition in_stage (m : gmap (Z * Z) (gmap Z (list nat))) (key : Z * Z) (stage : Z) (i : nat) : Prop :=
  exists stages is_, m !! key = Some stages /\ stages !! stage = Some is_ /\ i ∈ is_.

Definition push_member (x : LifetimeInterval) (index : nat) (m : gmap (Z * Z) (gmap Z (list nat))) (gs : Z * Z) :=
  let key := (space_id (memory_space x), gs.1) in
  let stages := default ∅ (m !! key) in
  <[ key := <[ gs.2 := default [] (stages !! gs.2) ++ [index] ]> stages ]> m.

Lemma push_member_in x index m gs key stage i :
  in_stage (push_member x index m gs) key stage i <->
  in_stage m key stage i \/ key = (space_id (memory_space x), gs.1) /\ stage = gs.2 /\ i = index.
Proof.
  destruct gs as [g st]. unfold push_member, in_stage. cbn [fst snd].
  destruct (decide (key = (space_id (memory_space x), g))) as [->|Hne].
  2:{ rewrite lookup_insert_ne by done. naive_solver. }
  rewrite lookup_insert_eq. destruct (m !! (space_id (memory_space x), g)) as [stages|]; cbn [default from_option]; unfold id.
  - destruct (decide (stage = st)) as [->|Hst].
    + split.
      * intros (? & is_ & [= <-] & Hl & Hin). rewrite lookup_insert_eq in Hl. injection Hl as <-. apply in_snoc in Hin as [Hin| ->]; [|by right].
        left. destruct (stages !! st) as [is0|] eqn:E; [by exists stages, is0 | by apply elem_of_nil in Hin].
      * intros [(? & is_ & [= <-] & Hl & Hin)|(_ & _ & ->)]; do 2 eexists; (split; [done |]); rewrite lookup_insert_eq; (split; [done |]); apply in_snoc; [left | by right].
        by rewrite Hl.
    + split.
      * intros (? & is_ & [= <-] & Hl & Hin). rewrite lookup_insert_ne in Hl by done. left. by exists stages, is_.
      * intros [(? & is_ & [= <-] & Hl & Hin)|(_ & -> & _)]; [|done]. eexists _, is_. split; [reflexivity |]. by rewrite lookup_insert_ne by congruence.
  - rewrite lookup_empty. cbn. split.
    + intros (? & is_ & [= <-] & Hl & Hin). apply lookup_singleton_Some in Hl as [-> <-]. apply list_elem_of_singleton in Hin as ->. by right.
    + intros [(? & ? & ? & _)|(_ & -> & ->)]; [done |]. do 2 eexists. split; [done |]. split; [apply lookup_insert_eq | by left].
Qed.

Lemma push_members_in x index gss : forall m key stage i,
  in_stage (foldl (push_member x index) m gss) key stage i <->
  in_stage m key stage i \/ i = index /\ key.1 = space_id (memory_space x) /\ (key.2, stage) ∈ gss.
Proof.
  induction gss as [|gs gss IH]; intros m [sid g] stage i; cbn [foldl].
  - split; [by left |]. intros [?|(_ & _ & ?%elem_of_nil)]; done.
  - rewrite IH, push_member_in, elem_of_cons. destruct gs as [g' st']. cbn [fst snd]. naive_solver.
Qed.

Lemma group_members_in key stage i :
  in_stage (group_members analysis l) key stage i <->
  exists x, l !! i = Some x /\ key.1 = space_id (memory_space x) /\ member x key.2 stage.
Proof.
  unfold group_members. setoid_rewrite <- indexed_in. unfold member.
  assert (H : forall is_ m, in_stage (foldl (fun m '(index, i) =>
      foldl (fun m '(group, stage) =>
        let key := (space_id (memory_space i), group) in
        let stages := default ∅ (m !! key) in
        <[ key := <[ stage := default [] (stages !! stage) ++ [index] ]> stages ]> m)
        m (default [] (pipeline_membership analysis !! variable i))) m is_) key stage i <->
    in_stage m key stage i \/ exists x, (i, x) ∈ is_ /\ key.1 = space_id (memory_space x) /\
      (key.2, stage) ∈ default [] (pipeline_membership analysis !! variable x)).
  { induction is_ as [|[index y] is_ IH]; intros m; cbn [foldl].
    - split; [by left |]. intros [?|(? & ?%elem_of_nil & _)]; done.
    - rewrite IH. rewrite (foldl_same _ (push_member y index)) by (by intros ? [? ?]). rewrite push_members_in.
      setoid_rewrite elem_of_cons. naive_solver. }
  rewrite H. split; [intros [(? & ? & E & _)|?]; [by rewrite lookup_empty in E | done] | by right].
Qed.

(** The later of two buckets. *)
Lemma bucket_calls_in buckets i j r :
  called (bucket_calls buckets) i j r <->
  r = PipelineStage /\ exists a b I J, buckets !! a = Some I /\ buckets !! b = Some J /\ a <> b /\ i ∈ I.2 /\ j ∈ J.2.
Proof.
  unfold called. induction buckets as [|[st firsts] buckets IH]; cbn [bucket_calls].
  - split; [intros [?%elem_of_nil|?%elem_of_nil]; done |]. intros (_ & a & b & I & J & H & _). by rewrite lookup_nil in H.
  - assert (Hhead : forall i j, (i, j, r) ∈ flat_map (fun '(_, seconds) =>
        flat_map (fun first => map (fun second => (first, second, PipelineStage)) seconds) firsts) buckets <->
        r = PipelineStage /\ i ∈ firsts /\ exists b J, buckets !! b = Some J /\ j ∈ J.2).
    { intros i' j'. rewrite elem_flat_map. split.
      - intros ([st' seconds] & [b Hb]%list_elem_of_lookup & (f & Hf & (s & E & Hs)%list_elem_of_fmap_1)%elem_flat_map).
        injection E as -> -> ->. split; [done |]. split; [done |]. by exists b, (st', seconds).
      - intros (-> & Hi & b & [st' seconds] & Hb & Hj). exists (st', seconds). split; [by eapply list_elem_of_lookup_2 |].
        apply elem_flat_map. exists i'. split; [done |]. by apply (list_elem_of_fmap_2 (fun second => (i', second, PipelineStage))). }
    rewrite !elem_of_app, !Hhead. split.
    + intros [[(-> & Hi & b & J & Hb & Hj)|H]|[(-> & Hi & b & J & Hb & Hj)|H]].
      * split; [done |]. by exists 0%nat, (S b), (st, firsts), J.
      * destruct (proj1 IH (or_introl H)) as (-> & a & b & I & J & Ha & Hb & Hne & HI & HJ). split; [done |].
        exists (S a), (S b), I, J. split_and!; try done. congruence.
      * split; [done |]. by exists (S b), 0%nat, J, (st, firsts).
      * destruct (proj1 IH (or_intror H)) as (-> & a & b & I & J & Ha & Hb & Hne & HI & HJ). split; [done |].
        exists (S a), (S b), I, J. split_and!; try done. congruence.
    + intros (-> & a & b & I & J & Ha & Hb & Hne & HI & HJ). destruct a as [|a], b as [|b]; [done | | |]; cbn in Ha, Hb.
      * injection Ha as <-. left. left. split_and!; [done | done |]. by exists b, J.
      * injection Hb as <-. right. left. split_and!; [done | done |]. by exists a, I.
      * destruct IH as [_ IH]. destruct IH as [H|H]; [|by left; right | by right; right]. split; [done |]. exists a, b, I, J. split_and!; try done. congruence.
Qed.

(** Members of two stages of one group. *)
Definition staged (x y : LifetimeInterval) : Prop :=
  memory_space x = memory_space y /\ exists group stage stage', stage <> stage' /\ member x group stage /\ member y group stage'.

Lemma pipeline_calls_in i j r : called (pipeline_calls analysis l) i j r <->
  r = PipelineStage /\ exists x y, l !! i = Some x /\ l !! j = Some y /\ staged x y.
Proof.
  assert (Hall : called (pipeline_calls analysis l) i j r <-> exists key stages, group_members analysis l !! key = Some stages /\
     called (bucket_calls (ascending_map stages)) i j r).
  { unfold called, pipeline_calls. rewrite !elem_flat_map. split.
    - intros [([key stages] & Hin%ascending_pairs_in & H)|([key stages] & Hin%ascending_pairs_in & H)]; exists key, stages; auto.
    - intros (key & stages & Hin%ascending_pairs_in & [H|H]); [left | right]; by exists (key, stages). }
  rewrite Hall. setoid_rewrite bucket_calls_in. split.
  - intros (key & stages & Hkey & -> & a & b & [s I] & [s' J] & Ha & Hb & Hne & Hi & Hj). split; [done |]. cbn [snd] in Hi, Hj.
    assert (Hss : s <> s').
    { intros ->. apply Hne. pose proof (ascending_map_keys stages) as Hn.
      eapply (NoDup_lookup _ a b s' Hn); apply list_lookup_fmap_Some; [by exists (s', I) | by exists (s', J)]. }
    apply list_elem_of_lookup_2, ascending_map_in in Ha. apply list_elem_of_lookup_2, ascending_map_in in Hb.
    destruct (proj1 (group_members_in key s i)) as (x & Hx & Ex & Mx); [by exists stages, I |].
    destruct (proj1 (group_members_in key s' j)) as (y & Hy & Ey & My); [by exists stages, J |].
    exists x, y. split_and!; try done. split; [apply space_id_inj; congruence |]. by exists key.2, s, s'.
  - intros (-> & x & y & Hx & Hy & Hs & g & s & s' & Hne & Mx & My).
    destruct (proj2 (group_members_in (space_id (memory_space x), g) s i)) as (stages & I & Hk & HI & Hi); [by exists x |].
    destruct (proj2 (group_members_in (space_id (memory_space x), g) s' j)) as (stages' & J & Hk' & HJ & Hj); [exists y; cbn; by rewrite Hs |].
    assert (stages' = stages) as -> by congruence. exists (space_id (memory_space x), g), stages. split; [done |]. split; [done |].
    apply ascending_map_in, list_elem_of_lookup in HI as [a Ha]. apply ascending_map_in, list_elem_of_lookup in HJ as [b Hb].
    exists a, b, (s, I), (s', J). split_and!; try done. intros ->. congruence.
Qed.

(** *** Target hazards *)

Lemma by_point_in point chosen p i :
  (exists is_, by_point l point chosen !! p = Some is_ /\ i ∈ is_) <->
  exists x, l !! i = Some x /\ variable x ∈ chosen /\ point x = p.
Proof.
  unfold by_point. setoid_rewrite <- indexed_in.
  assert (H : forall ix m, (exists is_, foldl (fun (m : gmap Z (list nat)) '(index, i) =>
      if bool_decide (variable i ∈ chosen) then <[ point i := default [] (m !! point i) ++ [index] ]> m else m) m ix !! p = Some is_ /\ i ∈ is_) <->
    (exists is_, m !! p = Some is_ /\ i ∈ is_) \/ exists x, (i, x) ∈ ix /\ variable x ∈ chosen /\ point x = p).
  { induction ix as [|[index y] ix IH]; intros m; cbn [foldl].
    - split; [by left |]. intros [?|(? & ?%elem_of_nil & _)]; done.
    - rewrite IH. setoid_rewrite elem_of_cons. case_bool_decide as Hc; [|naive_solver].
      destruct (decide (point y = p)) as [<-|Hne]; [|rewrite lookup_insert_ne by done; naive_solver].
      rewrite lookup_insert_eq. split.
      + intros [(is_ & [= <-] & [Hin| ->]%in_snoc)|(x & Hx & H)]; [|right; exists y; auto | right; exists x; auto].
        left. destruct (m !! point y) as [is0|]; [by exists is0 | by apply elem_of_nil in Hin].
      + intros [(is_ & E & Hin)|(x & [E|Hx] & Hv)]; [left | left | right; by exists x].
        * rewrite E. eexists. split; [done |]. apply in_snoc. by left.
        * injection E as -> ->. eexists. split; [done |]. apply in_snoc. by right. }
  rewrite H. split; [intros [(? & E & _)|?]; [by rewrite lookup_empty in E | done] | by right].
Qed.

(** A value popped from a pipe over a value derived from a load, where the one is
    defined at the last use of the other. *)
Definition load_tpop (x y : LifetimeInterval) : Prop :=
  needs_load_tpop_hazard_guard constraints = true /\ variable x ∈ reads_tpop constraints /\
  variable y ∈ load_derived constraints /\ def_point x = last_use_point y.

Lemma hazard_calls_in i j r : (i, j, r) ∈ hazard_calls constraints l <->
  r = TargetHazard /\ exists x y, l !! i = Some x /\ l !! j = Some y /\ load_tpop x y.
Proof.
  unfold hazard_calls, load_tpop. destruct (needs_load_tpop_hazard_guard constraints); [|split; [by intros ?%elem_of_nil | by intros (_ & x & y & _ & _ & ? & _)]].
  rewrite elem_flat_map. split.
  - intros ([point writers] & Hw%ascending_map_in & H).
    destruct (by_point l last_use_point (load_derived constraints) !! point) as [inputs|] eqn:Ei; [|by apply elem_of_nil in H].
    apply elem_flat_map in H as (w & Hin & (v & E & Hv)%list_elem_of_fmap_1). injection E as -> -> ->. split; [done |].
    destruct (proj1 (by_point_in def_point (reads_tpop constraints) point w)) as (x & Hx & Cx & Px); [by exists writers |].
    destruct (proj1 (by_point_in last_use_point (load_derived constraints) point v)) as (y & Hy & Cy & Py); [by exists inputs |].
    exists x, y. split_and!; try done. congruence.
  - intros (-> & x & y & Hx & Hy & _ & Cx & Cy & E).
    destruct (proj2 (by_point_in def_point (reads_tpop constraints) (def_point x) i)) as (writers & Hw & Hi); [by exists x |].
    destruct (proj2 (by_point_in last_use_point (load_derived constraints) (def_point x) j)) as (inputs & Hin & Hj); [by exists y |].
    exists (def_point x, writers). split; [by apply ascending_map_in |]. rewrite Hin. apply elem_flat_map. exists i. split; [done |].
    by apply (list_elem_of_fmap_2 (fun input => (i, input, TargetHazard))).
Qed.

Definition workspace (x : LifetimeInterval) : Prop :=
  is_workspace (written_workspaces constraints) (written_workspace_bases constraints) x = true.
Definition looping_workspace (x : LifetimeInterval) : Prop :=
  is_workspace (looping_written_workspaces constraints) (looping_written_workspace_bases constraints) x = true.

(** A written workspace over a value that is dead by then, or over any value when
    it is written in a loop. *)
Definition over_workspace (x y : LifetimeInterval) : Prop :=
  written_workspaces constraints <> ∅ /\ (workspace x /\ last_use_point y <= def_point x \/ looping_workspace x).

Lemma workspace_calls_in i j r : (i, j, r) ∈ workspace_calls constraints l <->
  r = TargetHazard /\ exists x y, l !! i = Some x /\ l !! j = Some y /\ i <> j /\ over_workspace x y.
Proof.
  unfold workspace_calls, over_workspace. case_bool_decide as Hne; [split; [by intros ?%elem_of_nil | by intros (_ & x & y & _ & _ & _ & ? & _)] |].
  assert (Hf : forall P i x, (i, x) ∈ List.filter (fun '(_, i) => P i) (indexed l) <-> l !! i = Some x /\ P x = true).
  { intros P i' x'. by rewrite list_elem_of_In, filter_In, <- list_elem_of_In, indexed_in. }
  rewrite elem_of_app, !elem_flat_map. split.
  - intros [([i' x] & [Hx Wx]%Hf & ([j' y] & Hy%indexed_in & H)%elem_flat_map)|([i' x] & [Hx Wx]%Hf & ([j' y] & Hy%indexed_in & H)%elem_flat_map)];
      (destruct (Nat.eqb_spec j' i') as [|Hn]; [by apply elem_of_nil in H |]).
    + destruct (Z.leb_spec (last_use_point y) (def_point x)); [|by apply elem_of_nil in H].
      apply list_elem_of_singleton in H. injection H as -> -> ->. split; [done |]. exists x, y. split_and!; try done; by left.
    + apply list_elem_of_singleton in H. injection H as -> -> ->. split; [done |]. exists x, y. split_and!; try done; by right.
  - intros (-> & x & y & Hx & Hy & Hij & _ & [[Wx Hl]|Wx]); [left | right]; exists (i, x); (split; [by apply Hf |]); apply elem_flat_map;
      exists (j, y); (split; [by apply indexed_in |]); rewrite (proj2 (Nat.eqb_neq j i)) by congruence; [|by left].
    rewrite (proj2 (Z.leb_le _ _)) by done. by left.
Qed.

(** *** Forbidden aliases *)

(** The last interval of a base. *)
Definition last_of_base (key : positive) (j : nat) : Prop :=
  (exists y, l !! j = Some y /\ base_of_interval y = Some key) /\
  forall j' y, l !! j' = Some y -> base_of_interval y = Some key -> (j' <= j)%nat.

Lemma base_to_index_in key j : base_to_index l !! key = Some j <-> last_of_base key j.
Proof.
  unfold base_to_index, last_of_base, indexed, base_of_interval. revert j. induction l as [|x l' IH] using rev_ind; intros j.
  - cbn [imap foldl]. split; [by rewrite lookup_empty |]. intros [(y & H & _) _]. by rewrite lookup_nil in H.
  - rewrite imap_app, foldl_app. cbn [imap foldl]. rewrite Nat.add_0_r. destruct (var_memref x) as [m|] eqn:Em.
    + destruct (decide (data_key m = key)) as [<-|Hne].
      * rewrite lookup_insert_eq. split.
        -- intros [= <-]. split; [exists x; rewrite Em; split; [by rewrite list_lookup_middle | done] |].
           intros j' y Hj' _. apply lookup_lt_Some in Hj'. rewrite length_app in Hj'. cbn in Hj'. lia.
        -- intros [(y & Hy & _) Hmax]. f_equal. specialize (Hmax (length l') x ltac:(by rewrite list_lookup_middle) ltac:(by rewrite Em)).
           apply lookup_lt_Some in Hy. rewrite length_app in Hy. cbn in Hy. lia.
      * rewrite lookup_insert_ne by done. rewrite IH. setoid_rewrite lookup_snoc_Some. split.
        -- intros [(y & Hy & By) Hmax]. pose proof (lookup_lt_Some _ _ _ Hy). split; [exists y; auto |].
           intros j' y' [[_ Hj']|[-> <-]] B'; [by eapply Hmax | rewrite Em in B'; cbn in B'; congruence].
        -- intros [(y & [[_ Hy]|[-> <-]] & By) Hmax]; [|rewrite Em in By; cbn in By; congruence].
           split; [by exists y |]. intros j' y' Hj' B'. apply (Hmax j' y'); [left; split; [by eapply lookup_lt_Some | done] | done].
    + rewrite IH. setoid_rewrite lookup_snoc_Some. split.
      * intros [(y & Hy & By) Hmax]. pose proof (lookup_lt_Some _ _ _ Hy). split; [exists y; auto |].
        intros j' y' [[_ Hj']|[-> <-]] B'; [by eapply Hmax | rewrite Em in B'; done].
      * intros [(y & [[_ Hy]|[-> <-]] & By) Hmax]; [|rewrite Em in By; done].
        split; [by exists y |]. intros j' y' Hj' B'. apply (Hmax j' y'); [left; split; [by eapply lookup_lt_Some | done] | done].
Qed.

(** The intrinsic of [x] must not have the operand of the allocation at [j] over its result. *)
Definition forbids (x : LifetimeInterval) (j : nat) : Prop :=
  exists m, Some m ∈ default [] (forbid_alias constraints !! variable x) /\ last_of_base (data_key m) j.

Lemma forbidden_calls_in i j r : (i, j, r) ∈ forbidden_calls constraints l <->
  r = SemanticNoAlias /\ exists x, l !! i = Some x /\ forbids x j.
Proof.
  unfold forbidden_calls, forbids. setoid_rewrite <- base_to_index_in. rewrite elem_flat_map. split.
  - intros ([i' x] & Hx%indexed_in & (o & Ho & H)%elem_flat_map). destruct o as [m|]; [|by apply elem_of_nil in H].
    destruct (base_to_index l !! data_key m) as [found|] eqn:E; [|by apply elem_of_nil in H].
    apply list_elem_of_singleton in H. injection H as -> -> ->. split; [done |]. exists x. split; [done |]. by exists m.
  - intros (-> & x & Hx & m & Hm & Hj). exists (i, x). split; [by apply indexed_in |]. apply elem_flat_map. exists (Some m).
    split; [done |]. rewrite Hj. by left.
Qed.

End Calls.

(** ** The plan *)

Section PlanOf.
Context (analysis : LifetimeAnalysisResult) (constraints : AllocationConstraintAnalysis).

(** Why the allocation [x] at [i] is kept apart from [y] at [j]. *)
Definition apart_because (l : list LifetimeInterval) (r : AllocationSeparationReason) (j : nat) (x y : LifetimeInterval) : Prop :=
  match r with
  | DeclaredAllocation => declared constraints x /\ memory_space x = memory_space y
  | PipelineStage => staged analysis x y
  | TargetHazard => load_tpop constraints x y \/ over_workspace constraints x y
  | SemanticNoAlias => forbids constraints l x j
  end.

Lemma called_intervals l i j r :
  called (separation_calls analysis constraints l) i j r -> i <> j ->
  exists x y, l !! i = Some x /\ l !! j = Some y /\ (apart_because l r j x y \/ apart_because l r i y x).
Proof.
  assert (Hone : forall i j, (i, j, r) ∈ declared_calls constraints l ++ hazard_calls constraints l ++ workspace_calls constraints l ++
      forbidden_calls constraints l -> exists x y, l !! i = Some x /\ l !! j = Some y /\ apart_because l r j x y).
  { intros i' j'. rewrite !elem_of_app, declared_calls_in, hazard_calls_in, workspace_calls_in, forbidden_calls_in.
    intros [(-> & x & y & Hx & Hy & _ & H)|[(-> & x & y & Hx & Hy & H)|[(-> & x & y & Hx & Hy & _ & H)|(-> & x & Hx & m & Hm & Hj)]]].
    - by exists x, y. - exists x, y. split_and!; try done; by left. - exists x, y. split_and!; try done; by right.
    - pose proof Hj as [(y & Hy & _) _]. exists x, y. split_and!; try done. by exists m. }
  intros H Hne.
  assert (Hc : called (pipeline_calls analysis l) i j r \/
     ((i, j, r) ∈ declared_calls constraints l ++ hazard_calls constraints l ++ workspace_calls constraints l ++ forbidden_calls constraints l) \/
     ((j, i, r) ∈ declared_calls constraints l ++ hazard_calls constraints l ++ workspace_calls constraints l ++ forbidden_calls constraints l)).
  { unfold called, separation_calls in *. rewrite !elem_of_app in *. tauto. }
  destruct Hc as [(-> & x & y & Hx & Hy & Hs)%pipeline_calls_in|[Hc|Hc]].
  - exists x, y. split_and!; try done; by left.
  - destruct (Hone _ _ Hc) as (x & y & Hx & Hy & Ha). exists x, y. split_and!; try done; by left.
  - destruct (Hone _ _ Hc) as (y & x & Hy & Hx & Ha). exists x, y. split_and!; try done; by right.
Qed.

Lemma called_because l i j r x y :
  l !! i = Some x -> l !! j = Some y -> i <> j -> apart_because l r j x y ->
  called (separation_calls analysis constraints l) i j r.
Proof.
  intros Hx Hy Hne H.
  assert (Hin : called (pipeline_calls analysis l) i j r \/
     (i, j, r) ∈ declared_calls constraints l \/ (i, j, r) ∈ hazard_calls constraints l \/
     (i, j, r) ∈ workspace_calls constraints l \/ (i, j, r) ∈ forbidden_calls constraints l).
  { rewrite pipeline_calls_in, declared_calls_in, hazard_calls_in, workspace_calls_in, forbidden_calls_in. destruct r; cbn [apart_because] in H.
    - left. split; [done |]. by exists x, y.
    - destruct H as [H|H]; [right; right; left | right; right; right; left]; (split; [done |]); by exists x, y.
    - do 4 right. split; [done |]. by exists x.
    - right. left. split; [done |]. exists x, y. destruct H. done. }
  unfold called, separation_calls in *. rewrite !elem_of_app. tauto.
Qed.

Lemma plan_reasons l i j r : (i < j)%nat ->
  r ∈ default ∅ (separation_reasons analysis constraints l !! (i, j)) <-> called (separation_calls analysis constraints l) i j r.
Proof.
  intros Hij. unfold separation_reasons. rewrite add_separations_in by done. rewrite lookup_empty. cbn [default from_option].
  split; [intros [H|H]; [by apply elem_of_empty in H | done] | by right].
Qed.

Lemma ascending_reasons_in s r : r ∈ ascending_reasons s <-> r ∈ s.
Proof. unfold ascending_reasons. by rewrite sort_by_perm, elem_of_elements. Qed.

(** The separations of a plan are the entries of the table. *)
Definition plan_entries (l : list LifetimeInterval) : list AllocationSeparation :=
  map (fun '((first, second), rs) => MkAllocSeparation first second (ascending_reasons rs))
    (sort_by (fun '((first, second), _) => [Z.of_nat first; Z.of_nat second])
      (map_to_list (separation_reasons analysis constraints l))).

Lemma plan_entries_in l s : s ∈ plan_entries l <->
  exists rs, separation_reasons analysis constraints l !! (as_first s, as_second s) = Some rs /\ reasons s = ascending_reasons rs.
Proof.
  unfold plan_entries. split.
  - intros ([[a c] rs] & -> & Hin)%list_elem_of_fmap_1. rewrite sort_by_perm, elem_of_map_to_list in Hin. by exists rs.
  - intros (rs & Hin & E). apply list_elem_of_fmap. exists ((as_first s, as_second s), rs). split; [destruct s; cbn in *; by rewrite E |].
    by rewrite sort_by_perm, elem_of_map_to_list.
Qed.

Lemma table_facts l : table_ok (separation_reasons analysis constraints l).
Proof. apply add_separations_ok. intros i j rs H. by rewrite lookup_empty in H. Qed.

Lemma plan_entries_ok l : Forall (separation_ok l) (plan_entries l).
Proof.
  apply Forall_forall. intros s (rs & Hin & E)%plan_entries_in. destruct (table_facts l _ _ _ Hin) as [Hlt Hne].
  apply set_choose_L in Hne as [r Hr]. pose proof (proj1 (plan_reasons l _ _ r Hlt)) as Hcall. rewrite Hin in Hcall.
  destruct (called_intervals l _ _ r (Hcall Hr)) as (x & y & Hx & Hy & _); [lia |]. split.
  - by exists x. - by exists y. - lia.
  - rewrite E. intros H. apply ascending_reasons_in in Hr. rewrite H in Hr. by apply elem_of_nil in Hr.
Qed.

Lemma plan_entries_spec l i j x y r :
  l !! i = Some x -> l !! j = Some y -> i <> j ->
  (exists s, s ∈ plan_entries l /\ between s i j /\ r ∈ reasons s) <-> apart_because l r j x y \/ apart_because l r i y x.
Proof.
  intros Hx Hy Hne.
  assert (Hord : forall i j, (exists s, s ∈ plan_entries l /\ as_first s = i /\ as_second s = j /\ r ∈ reasons s) <->
    (i < j)%nat /\ called (separation_calls analysis constraints l) i j r).
  { intros i' j'. split.
    - intros (s & (rs & Hin & E)%plan_entries_in & <- & <- & Hr). destruct (table_facts l _ _ _ Hin) as [Hlt _]. split; [done |].
      apply plan_reasons; [done |]. rewrite Hin. cbn [default from_option]. rewrite E in Hr. by apply ascending_reasons_in in Hr.
    - intros [Hlt Hc%(plan_reasons l _ _ _ Hlt)]. destruct (separation_reasons analysis constraints l !! (i', j')) as [rs|] eqn:Er; [|by apply elem_of_empty in Hc].
      exists (MkAllocSeparation i' j' (ascending_reasons rs)). split_and!; [apply plan_entries_in; by exists rs | done | done |].
      by apply ascending_reasons_in. }
  assert (Hsym : called (separation_calls analysis constraints l) i j r <-> called (separation_calls analysis constraints l) j i r) by (unfold called; tauto).
  assert (Hcall : called (separation_calls analysis constraints l) i j r <-> apart_because l r j x y \/ apart_because l r i y x).
  { split.
    - intros Hc. destruct (called_intervals l i j r Hc Hne) as (x' & y' & Hx' & Hy' & H). congruence.
    - intros [H|H]; [by apply (called_because l i j r x y) | apply Hsym; by apply (called_because l j i r y x)]. }
  rewrite <- Hcall. split.
  - intros (s & Hs & [[Ei Ej]|[Ei Ej]] & Hr); [apply (Hord i j) | apply Hsym, (Hord j i)]; by exists s.
  - intros Hc. destruct (Nat.lt_trichotomy i j) as [Hlt|[|Hlt]]; [|done|].
    + destruct (proj2 (Hord i j) (conj Hlt Hc)) as (s & Hs & Ei & Ej & Hr). exists s. split_and!; [done | by left | done].
    + destruct (proj2 (Hord j i) (conj Hlt (proj1 Hsym Hc))) as (s & Hs & Ei & Ej & Hr). exists s. split_and!; [done | by right | done].
Qed.

(** *** Sizes *)

Lemma member_size_ok members : forall size s,
  member_size size members = Ok s -> size <= s /\ (forall m, m ∈ members -> exists d, m = Some d /\ size_ d <= s) /\
    forall z, size <= z -> (forall d, Some d ∈ members -> size_ d <= z) -> s <= z.
Proof.
  induction members as [|[m|] members IH]; intros size s H; cbn [member_size] in H; [| |done].
  - inv_ok. split_and!; [lia | by intros ? ?%elem_of_nil | done].
  - apply IH in H as (Hle & Hall & Hleast). split_and!; [lia | |].
    + intros m' [->|Hm]%elem_of_cons; [exists m; split; [done | lia] | by apply Hall].
    + intros z Hz Hd. apply Hleast; [|intros d Hin; apply Hd; by right]. specialize (Hd m ltac:(by left)). lia.
Qed.

(** What becomes of one interval. *)
Record sized (i i' : LifetimeInterval) : Prop := {
  sized_same : variable i' = variable i /\ var_memref i' = var_memref i /\ def_point i' = def_point i /\
    last_use_point i' = last_use_point i /\ memory_space i' = memory_space i;
  sized_own : lsize i <= lsize i';
  sized_members : forall m, m ∈ default [] (var_sharing_groups analysis !! variable i) -> exists d, m = Some d /\ size_ d <= lsize i';
  sized_declared : forall m d, var_memref i = Some m -> declared_allocation_sizes constraints !! data_key m = Some d -> d <= lsize i';
  sized_least : forall z, lsize i <= z -> (forall d, Some d ∈ default [] (var_sharing_groups analysis !! variable i) -> size_ d <= z) ->
    (forall m d, var_memref i = Some m -> declared_allocation_sizes constraints !! data_key m = Some d -> d <= z) -> lsize i' <= z
}.

Lemma size_intervals_ok l : forall l', size_intervals analysis constraints l = Ok l' -> Forall2 sized l l'.
Proof.
  induction l as [|i l IH]; intros l' H; cbn [size_intervals] in H; [inv_ok; constructor |].
  apply bind_ok in H as (size & Hs & H). apply bind_ok in H as (rest & Hrest & H). inv_ok. constructor; [|by apply IH].
  unfold allocation_size in Hs. apply bind_ok in Hs as (size0 & Hm & Hs). apply member_size_ok in Hm as (Hle & Hall & Hleast).
  assert (Hsz : size0 <= size /\ (forall m d, var_memref i = Some m -> declared_allocation_sizes constraints !! data_key m = Some d -> d <= size) /\
    forall z, size0 <= z -> (forall m d, var_memref i = Some m -> declared_allocation_sizes constraints !! data_key m = Some d -> d <= z) -> size <= z).
  { destruct (var_memref i) as [m|]; [|inv_ok; split_and!; [lia | done | done]].
    destruct (declared_allocation_sizes constraints !! data_key m) as [d|] eqn:E; inv_ok; (split; [lia |]); split.
    - intros m' d' [= <-] E'. assert (d' = d) as -> by congruence. lia.
    - intros z Hz Hd. specialize (Hd m d eq_refl E). lia.
    - intros m' d' [= <-] E'. congruence.
    - done. }
  destruct Hsz as (H1 & H2 & H3). split; cbn [variable var_memref def_point last_use_point memory_space lsize]; [done | lia | | done | auto].
  intros m Hm. destruct (Hall m Hm) as (d & -> & Hd). exists d. split; [done | lia].
Qed.

End PlanOf.


(** Two stages of a pipeline; the second tile is popped from a pipe where the last
    read of the loaded first one is. *)
Definition staged_tiles : LifetimeAnalysisResult :=
  let tile v def last := MkLifetime v (Some (MkMemRefData EmptyString (MkBase v EmptyString) (ConstInt 0 INT64) 64 false 1 None)) def last Vec 32 in
  MkAnalysis [tile 1%positive 0 2; tile 2%positive 2 3]
    {[ 1%positive := [Some (MkMemRefData EmptyString (MkBase 1 EmptyString) (ConstInt 0 INT64) 48 false 1 None)] ]}
    {[ 1%positive := [(7, 0)]; 2%positive := [(7, 1)] ]}.
Definition staged_constraints : AllocationConstraintAnalysis :=
  MkConstraints ∅ ∅ {[ 1%positive ]} {[ 2%positive ]} ∅ ∅ ∅ ∅ ∅ true.

Definition staged_plan : AllocationPlan :=
  match BuildDsaAllocationPlan staged_tiles staged_constraints with Ok p => p | Err _ => MkPlan [] [] end.

Example staged_plan_is :
  map lsize (intervals staged_plan) = [48; 32] /\
  plan_separations staged_plan = [MkAllocSeparation 0 1 [PipelineStage; TargetHazard]].
Proof. vm_compute. done. Qed.

