(* ===== verification/DsaPlan.v ===== *)
(** * Placing the allocations of a function

    [PlanWithDsaRP] under the analyses' contract: the strict and the relaxed
    problems are well-formed, the addresses it writes back keep apart what must be
    kept apart, and it fails only when there is no placement. *)

From Stdlib Require Import ZArith Lia Bool List String.
From stdpp Require Import base gmap list option strings sorting.
From S2P Require Import Prelude Dtype ScalarExpr Storage Dsa DsaSearch DsaSpec DsaFit DsaSound DsaSolve.
From S2P Require Import Memref MemrefSound MemrefPlan DsaAdapter DsaBuild.

(** ** The relaxed problem *)

Lemma list_to_set_size {A} `{Countable A} (l : list A) : (size (list_to_set l : gset A) <= length l)%nat.
Proof.
  change (size (list_to_set l : gset A)) with (length (elements (list_to_set l : gset A))).
  apply submseteq_length, NoDup_submseteq; [apply NoDup_elements |]. intros x. by rewrite elem_of_elements, elem_of_list_to_set.
Qed.

Section Relax.
Context (p : DsaProblem) (relaxable : list Separation) (w : Z).
Hypothesis p_typed : typed p.
Hypothesis p_ok : problem_ok p.
Hypothesis subset : forall r, r ∈ relaxable -> r ∈ separations p.
Hypothesis w_ok : 0 <= w.
Hypothesis total_ok : foldr Z.add 0 (map weight (reuse_penalties p)) + w * Z.of_nat (length relaxable) <= UINT64_MAX.

Let legal (b c : Buffer) : Prop := Overlaps (lifetime b) (lifetime c) = false.

Lemma pair_ok_canonical a c : pair_ok p legal a c -> pair_ok p legal (CanonicalBufferPair a c).1 (CanonicalBufferPair a c).2.
Proof.
  intros Hp. unfold CanonicalBufferPair. destruct (a <? c); [done |]. destruct Hp as (Hne & b & d & Hb & Hd & Eb & Ed & Ep & Ho).
  split; [done |]. exists d, b. split_and!; try done. unfold legal. by rewrite Overlaps_sym.
Qed.

(** The weights of the penalties, then of the relaxed pairs. *)
Definition penalty_weights : list (Z * Z * Z) :=
  map (fun r => (CanonicalBufferPair (pfirst r) (psecond r), weight r)) (reuse_penalties p).

Definition relaxed_weights : list (Z * Z * Z) :=
  flat_map (fun key =>
    match BuffersById p !! key.1, BuffersById p !! key.2 with
    | Some b, Some c => if Overlaps (lifetime b) (lifetime c) then [] else [(key, w)]
    | _, _ => []
    end) (ascending_pair_set (separation_pairs relaxable)).

Definition add_all (m : gmap (Z * Z) Z) (l : list (Z * Z * Z)) : gmap (Z * Z) Z := foldl (fun m kw => add_weight m kw.1 kw.2) m l.

Lemma relaxed_penalties :
  reuse_penalties (RelaxSeparationsToPenalties p relaxable w) = penalties_of (add_all ∅ (penalty_weights ++ relaxed_weights)).
Proof.
  unfold RelaxSeparationsToPenalties, penalties_of, add_all. cbn [reuse_penalties]. f_equal. f_equal. rewrite foldl_app.
  set (m := foldl _ ∅ (reuse_penalties p)). replace (foldl _ ∅ penalty_weights) with m.
  2:{ unfold m, penalty_weights. generalize (∅ : gmap (Z * Z) Z). generalize (reuse_penalties p). clear.
      intros l. induction l as [|r l IH]; intros m0; cbn [map foldl fst snd]; [reflexivity |]. apply IH. }
  unfold relaxed_weights. clearbody m. revert m. induction (ascending_pair_set (separation_pairs relaxable)) as [|key l IH]; intros m; [done |].
  cbn [foldl flat_map]. rewrite foldl_app, <- IH. f_equal.
  destruct (BuffersById p !! key.1) as [b|]; [|done]. destruct (BuffersById p !! key.2) as [c|]; [|done].
  by destruct (Overlaps (lifetime b) (lifetime c)).
Qed.

Lemma penalty_weights_sum : zsum (map snd penalty_weights) = foldr Z.add 0 (map weight (reuse_penalties p)).
Proof. unfold penalty_weights. rewrite map_map. done. Qed.

Lemma relaxed_weights_sum : 0 <= zsum (map snd relaxed_weights) <= w * Z.of_nat (length relaxable).
Proof.
  assert (Hlen : (length (ascending_pair_set (separation_pairs relaxable)) <= length relaxable)%nat).
  { unfold ascending_pair_set. rewrite (Permutation_length (sort_by_perm (fun '(a, b) => [a; b]) (elements (separation_pairs relaxable)))).
    change (length (elements (separation_pairs relaxable))) with (size (separation_pairs relaxable)).
    unfold separation_pairs. etrans; [apply list_to_set_size |]. by rewrite length_map. }
  unfold relaxed_weights.
  assert (H : forall l, 0 <= zsum (map snd (flat_map (fun key =>
    match BuffersById p !! key.1, BuffersById p !! key.2 with
    | Some b, Some c => if Overlaps (lifetime b) (lifetime c) then [] else [(key, w)]
    | _, _ => []
    end) l)) <= w * Z.of_nat (length l)).
  { induction l as [|key l IH]; [cbn; lia |]. cbn [flat_map length]. rewrite map_app. unfold zsum in *. rewrite foldr_app.
    assert (E : forall l' a, foldr Z.add a l' = foldr Z.add 0 l' + a) by (intros l' a; induction l' as [|v l' IH']; cbn; [lia | rewrite IH'; lia]).
    rewrite E. assert (0 <= foldr Z.add 0 (map snd (match BuffersById p !! key.1 with
      | Some b => match BuffersById p !! key.2 with Some c => if Overlaps (lifetime b) (lifetime c) then [] else [(key, w)] | None => [] end
      | None => [] end)) <= w); [|lia].
    destruct (BuffersById p !! key.1) as [b|]; [|cbn; lia]. destruct (BuffersById p !! key.2) as [c|]; [|cbn; lia].
    destruct (Overlaps _ _); cbn; lia. }
  specialize (H (ascending_pair_set (separation_pairs relaxable))). nia.
Qed.

Lemma weights_pair key v : (key, v) ∈ penalty_weights ++ relaxed_weights ->
  0 <= v /\ pair_ok p legal key.1 key.2.
Proof.
  intros [Hin|Hin]%elem_of_app.
  - apply list_elem_of_fmap_1 in Hin as (r & E & Hr). injection E as -> ->.
    pose proof (typed_penalties p p_typed) as Ht. pose proof (penalties_ok p p_ok) as Hp. rewrite Forall_forall in Ht, Hp.
    specialize (Ht r Hr). split; [lia64 | by apply pair_ok_canonical, Hp].
  - unfold relaxed_weights in Hin. apply list_elem_of_In, in_flat_map in Hin as (key' & Hsel & Hin).
    apply list_elem_of_In in Hsel, Hin. unfold ascending_pair_set in Hsel. rewrite sort_by_perm, elem_of_elements in Hsel.
    unfold separation_pairs in Hsel. apply elem_of_list_to_set, list_elem_of_fmap_1 in Hsel as (r & -> & Hr).
    pose proof (separations_ok p p_ok) as Hs. rewrite Forall_forall in Hs. specialize (Hs r (subset r Hr)).
    destruct (BuffersById p !! (CanonicalBufferPair (sfirst r) (ssecond r)).1) as [b|] eqn:Eb; [|by apply elem_of_nil in Hin].
    destruct (BuffersById p !! (CanonicalBufferPair (sfirst r) (ssecond r)).2) as [c|] eqn:Ec; [|by apply elem_of_nil in Hin].
    destruct (Overlaps (lifetime b) (lifetime c)) eqn:Eo; [by apply elem_of_nil in Hin |].
    apply list_elem_of_singleton in Hin. injection Hin as -> ->. split; [done |].
    apply by_id_some in Eb as [Hb Eb], Ec as [Hc Ec]. pose proof Hs as (Hne & b' & c' & Hb' & Hc' & Eb' & Ec' & Ep & _).
    assert (Huniq : forall x y, x ∈ buffers p -> y ∈ buffers p -> buffer_id x = buffer_id y -> x = y).
    { intros x y Hx Hy E. pose proof (by_id_in buffer_id (buffers p) x (buffer_ids p p_ok) Hx) as H1.
      pose proof (by_id_in buffer_id (buffers p) y (buffer_ids p p_ok) Hy) as H2. rewrite E in H1. congruence. }
    unfold CanonicalBufferPair in *. destruct (sfirst r <? ssecond r); cbn [fst snd] in *.
    + split; [done |]. exists b, c. split_and!; try done. rewrite (Huniq b b') by (done || congruence). rewrite (Huniq c c') by (done || congruence). done.
    + split; [done |]. exists b, c. split_and!; try done. rewrite (Huniq b c') by (done || congruence). rewrite (Huniq c b') by (done || congruence). done.
Qed.

Lemma relaxed_facts :
  let m := add_all ∅ (penalty_weights ++ relaxed_weights) in
  nonneg m /\ weight_sum m <= UINT64_MAX /\ forall key, is_Some (m !! key) -> pair_ok p legal key.1 key.2.
Proof.
  assert (Hnn : nonneg ∅) by (intros key v H; by rewrite lookup_empty in H).
  assert (Hsum : zsum (map snd (penalty_weights ++ relaxed_weights)) <= UINT64_MAX).
  { rewrite map_app. unfold zsum. rewrite foldr_app.
    assert (E : forall l' a, foldr Z.add a l' = foldr Z.add 0 l' + a) by (intros l' a; induction l' as [|v l' IH']; cbn; [lia | rewrite IH'; lia]).
    rewrite E. pose proof penalty_weights_sum as H1. pose proof relaxed_weights_sum as H2. unfold zsum in *. lia. }
  destruct (add_weights_ok (penalty_weights ++ relaxed_weights) ∅) as (H1 & H2 & H3); [done | | |].
  - apply Forall_forall. intros [key v] Hin. by apply (weights_pair key v).
  - change (weight_sum ∅) with 0. lia.
  - split; [exact H1 |]. split; [change (weight_sum ∅) with 0 in H2; unfold add_all; lia |].
    intros key H. destruct (H3 key H) as [H'|[v Hv]]; [rewrite lookup_empty in H'; by destruct H' |]. by apply (weights_pair key v).
Qed.

Lemma relaxed_typed : typed (RelaxSeparationsToPenalties p relaxable w).
Proof.
  destruct relaxed_facts as (Hn & Hs & _). split; [apply (typed_pools p p_typed) | apply (typed_buffers p p_typed) |].
  rewrite relaxed_penalties. apply Forall_forall. intros r [Hr _]%penalties_of_in.
  pose proof (weight_le _ (pfirst r, psecond r) Hn) as Hle. rewrite Hr in Hle. cbn [default from_option] in Hle. unfold id in Hle.
  pose proof (Hn _ _ Hr). lia64.
Qed.

Lemma relaxed_ok : problem_ok (RelaxSeparationsToPenalties p relaxable w).
Proof.
  destruct relaxed_facts as (Hn & Hs & Hp). split.
  - apply (pool_ids p p_ok). - apply (pools_ok p p_ok). - apply (buffer_ids p p_ok). - apply (buffers_ok p p_ok).
  - apply Forall_forall. intros r [Hr _]%kept_separation. pose proof (separations_ok p p_ok) as H. rewrite Forall_forall in H. by apply H.
  - rewrite relaxed_penalties. apply Forall_forall. intros r [Hr _]%penalties_of_in. apply (Hp (pfirst r, psecond r)). by eexists.
  - rewrite relaxed_penalties, penalties_of_sum. done.
Qed.

End Relax.

(** ** Solving *)

(** On a well-formed problem: a valid placement, or none. *)
Lemma Solve_result `{Shuffle} options p :
  typed p -> problem_ok p -> exists r, Solve options p = Ok r /\
    (status r = kFeasible /\ (exists sol, solution r = Some sol /\ valid p sol) \/ status r = kNoFit /\ solution r = None).
Proof.
  intros Ht Hp. destruct (Solve_outcome options p Ht Hp) as (s & seed & r & _ & Hs & _ & Hv & -> & Hb).
  exists (finish r). split; [done |]. unfold finish. destruct (solution r) as [sol|] eqn:E; [left | by right].
  destruct (best_from _ _ _ _ _ Hb sol E) as (H1 & _). split; [done |]. exists sol. split; [done |].
  eapply (best_valid p s seed _ r); try done. intros order Ho. unfold is_order.
  rewrite <- (space_nodes _ _ Hs). by eapply CanonicalOrders_perm.
Qed.

Section Plan.
Context `{policy : MemoryAllocatorPolicy} `{!PolicyLaws policy} `{Shuffle}.
Context (ends : ReservedEndBySpace) (plan : AllocationPlan).

(** The problem solved: the strict one, or the relaxed one after a failure. *)
Definition solved_of (prepared : PreparedProblem) (solved : DsaProblem) : Prop :=
  solved = strict_problem prepared \/ solved = RelaxPipelineIntent prepared.

Lemma solved_ok caps prepared solved : prepared_ok ends plan caps prepared -> solved_of prepared solved -> typed solved /\ problem_ok solved.
Proof.
  intros Hp [->| ->]; [split; apply Hp |].
  pose proof (pr_count _ _ _ _ Hp). split; [apply relaxed_typed | apply relaxed_ok]; try apply Hp; lia.
Qed.

Lemma solve_relaxing_ok caps prepared : prepared_ok ends plan caps prepared ->
  exists solved r, solve_relaxing prepared = Ok (solved, r) /\ solved_of prepared solved /\
    (status r = kFeasible /\ (exists sol, solution r = Some sol /\ valid solved sol) \/ status r = kNoFit /\ solution r = None).
Proof.
  intros Hp. unfold solve_relaxing.
  destruct (Solve_result default_options (strict_problem prepared) (pr_typed _ _ _ _ Hp) (pr_problem _ _ _ _ Hp)) as (r & -> & Hr). cbn [bind].
  destruct Hr as [[E Hr]|[E Hr]]; rewrite E.
  - exists (strict_problem prepared), r. split; [done |]. split; [by left | by left].
  - destruct (pipeline_pairs prepared) as [|pair pairs] eqn:Epairs.
    + exists (strict_problem prepared), r. split; [done |]. split; [by left | by right].
    + destruct (solved_ok caps prepared (RelaxPipelineIntent prepared) Hp ltac:(by right)) as [Ht Ho].
      destruct (Solve_result default_options (RelaxPipelineIntent prepared) Ht Ho) as (r' & -> & Hr'). cbn [bind].
      exists (RelaxPipelineIntent prepared), r'. split; [done |]. split; [by right | done].
Qed.

(** Placed in one of them, with no relaxed pair overlapping, is placed in the strict one. *)
Lemma strict_solution caps prepared solved sol :
  prepared_ok ends plan caps prepared -> solved_of prepared solved -> valid solved sol ->
  CountOverlappingPairs (strict_problem prepared) sol (pipeline_pairs prepared) = 0%nat -> solution_ok (strict_problem prepared) sol.
Proof.
  intros Hp [->| ->] [Hs Ht] Hc; [done |].
  apply (relaxed_solution (strict_problem prepared) (pipeline_pairs prepared) 1); try apply Hp; done.
Qed.

(** The bytes two buffers must not share. *)
Lemma placed_apart caps prepared solved sol i j x y k k' o o' :
  prepared_ok ends plan caps prepared -> solved_of prepared solved -> valid solved sol ->
  represents plan prepared i x k -> represents plan prepared j y k' -> i <> j -> memory_space x = memory_space y ->
  co_live x y \/ kept_apart plan i j /\
    (~ pipelined plan i j \/ CountOverlappingPairs (strict_problem prepared) sol (pipeline_pairs prepared) = 0%nat) ->
  sol !! Z.of_nat k = Some o -> sol !! Z.of_nat k' = Some o' -> disjoint_ranges o (lsize x) o' (lsize y).
Proof.
  intros Hp Hsolved Hv Hx Hy Hne Hsp Hwhy Ho Ho'.
  assert (Hcf : conflicting (strict_problem prepared) (buffer_of k x) (buffer_of k' y)).
  { apply (pr_conflict _ _ _ _ Hp i j); try done. split; [done |]. destruct Hwhy as [?|[? _]]; auto. }
  assert (Hids : buffer_id (buffer_of k x) <> buffer_id (buffer_of k' y)).
  { cbn [buffer_id buffer_of]. intros E. apply Nat2Z.inj in E. subst k'. apply Hne. by eapply (pr_injective _ _ _ _ Hp). }
  assert (Hbuf : forall i x k, represents plan prepared i x k -> buffer_of k x ∈ buffers (strict_problem prepared)).
  { intros i0 x0 k0 (_ & _ & Hb & _). by eapply list_elem_of_lookup_2. }
  assert (Hfrom : forall p, conflicting p (buffer_of k x) (buffer_of k' y) -> buffers p = buffers (strict_problem prepared) ->
    solution_ok p sol -> disjoint_ranges o (lsize x) o' (lsize y)).
  { intros p Hc Hb Hs. apply (no_overlap _ _ Hs (buffer_of k x) (buffer_of k' y)); try done; rewrite Hb; by eapply Hbuf. }
  destruct (conflicting_split (strict_problem prepared) (pipeline_pairs prepared) 1 _ _ Hcf) as [Hr|[_ Hr]].
  - destruct Hsolved as [->| ->]; [by apply (Hfrom (strict_problem prepared)), Hv |]. by apply (Hfrom (RelaxPipelineIntent prepared)), Hv.
  - apply (pr_pipeline _ _ _ _ Hp i j x y k k' Hx Hy Hne) in Hr as (_ & Hl & Hpl).
    destruct Hwhy as [|(_ & [|H0])]; [done | done |]. apply (Hfrom (strict_problem prepared)); [done | done |].
    by eapply strict_solution.
Qed.

(** ** Writing back *)

(** The references that are placed. *)
Definition placed_memrefs (memrefs : list (MemRef * MemorySpace)) : list (MemRef * MemorySpace) :=
  List.filter (fun ms => negb (bool_decide (ms.2 = DDR) || negb (ShouldAllocate ms.2))) memrefs.

Lemma replacements_ok prepared sol memrefs relative at_ reps :
  (forall key id o, buffer_id_by_base prepared !! key = Some id -> sol !! id = Some o -> at_ key = o /\ 0 <= o) ->
  BuildMemRefReplacements prepared sol memrefs relative = Ok reps ->
  Forall2 (fun ms p => replaced at_ relative ms.1 p) (placed_memrefs memrefs) reps.
Proof.
  intros Hat. revert reps. induction memrefs as [|[old space] memrefs IH]; intros reps E; cbn [BuildMemRefReplacements] in E.
  - inv_ok. constructor.
  - unfold placed_memrefs. cbn [List.filter snd]. destruct (bool_decide (space = DDR) || negb (ShouldAllocate space)); cbn [negb]; [by apply IH |].
    destruct (buffer_id_by_base prepared !! base_key old) as [id|] eqn:Eid; [|done].
    destruct (sol !! id) as [o|] eqn:Eo; [|done]. destruct (Hat _ _ _ Eid Eo) as [<- H0].
    apply bind_ok in E as (a & Ha & E). apply bind_ok in E as (rest & Hrest & E). inv_ok.
    constructor; [|by apply IH]. split; [done |]. exists a. split; [done |]. by apply MakeAbsolute_ok in Ha.
Qed.

(** The address of an allocation. *)
Definition address_of (prepared : PreparedProblem) (sol : DsaSolution) (key : positive) : Z :=
  match buffer_id_by_base prepared !! key with Some id => default 0 (sol !! id) | None => 0 end.

Lemma represented_at caps prepared solved sol i x k :
  prepared_ok ends plan caps prepared -> solved_of prepared solved -> valid solved sol -> represents plan prepared i x k ->
  exists o key, base_of_interval x = Some key /\ address_of prepared sol key = o /\ sol !! Z.of_nat k = Some o /\ 0 <= o /\
    placed_ok (strict_problem prepared) (buffer_of k x) o.
Proof.
  intros Hp Hsolved [Hs Ht] (Hi & Ha & Hb & key & Hkey & Hid).
  assert (Hbuf : buffer_of k x ∈ buffers solved) by (by destruct Hsolved as [->| ->]; eapply list_elem_of_lookup_2).
  destruct (all_placed _ _ Hs _ Hbuf) as (o & Ho & Hpl). exists o, key. cbn [buffer_id buffer_of] in Ho.
  unfold address_of. rewrite Hid, Ho. cbn [default from_option]. split_and!; try done.
  - specialize (Ht _ _ Ho). lia64.
  - by destruct Hsolved as [->| ->].
Qed.

(** The capacities the plan asks for. *)
Lemma pool_caps_step (get : MemorySpace -> Z) (l : list LifetimeInterval) : forall caps : gmap Z Z,
  (forall s c, caps !! space_id s = Some c -> c = get s) ->
  let caps' := foldl (fun (caps : gmap Z Z) i =>
    match caps !! space_id (memory_space i) with
    | Some _ => caps
    | None => if get (memory_space i) >? 0 then <[ space_id (memory_space i) := get (memory_space i) ]> caps else caps
    end) caps l in
  (forall s c, caps' !! space_id s = Some c -> c = get s) /\ caps ⊆ caps' /\
  forall x, x ∈ l -> 0 < get (memory_space x) -> caps' !! space_id (memory_space x) = Some (get (memory_space x)).
Proof.
  induction l as [|i l IH]; intros caps Hc; cbn [foldl]; [split_and!; [done | done | by intros ? ?%elem_of_nil] |].
  set (caps1 := match caps !! space_id (memory_space i) with
    | Some _ => caps
    | None => if get (memory_space i) >? 0 then <[ space_id (memory_space i) := get (memory_space i) ]> caps else caps
    end).
  assert (H1 : (forall s c, caps1 !! space_id s = Some c -> c = get s) /\ caps ⊆ caps1 /\
    (0 < get (memory_space i) -> caps1 !! space_id (memory_space i) = Some (get (memory_space i)))).
  { unfold caps1. destruct (caps !! space_id (memory_space i)) as [c|] eqn:E.
    - split_and!; [done | done |]. intros _. by rewrite E, (Hc _ _ E).
    - destruct (Z.gtb_spec (get (memory_space i)) 0); [|split_and!; [done | done | lia]]. split_and!.
      + intros s c [[Es <-]|[_ H1]]%lookup_insert_Some; [by apply space_id_inj in Es as -> | by apply Hc].
      + by apply insert_subseteq.
      + intros _. apply lookup_insert_eq. }
  destruct H1 as (H1 & H2 & H3). destruct (IH caps1 H1) as (H4 & H5 & H6). split_and!; [done | by etrans |].
  intros x [->|Hx]%elem_of_cons Hpos; [|by apply H6]. eapply lookup_weaken; [by apply H3 | done].
Qed.

Lemma pool_caps_at get l x :
  x ∈ l -> 0 < get (memory_space x) -> pool_caps (Some get) l !! space_id (memory_space x) = Some (get (memory_space x)).
Proof. intros. by apply (pool_caps_step get l ∅); [intros s c E; rewrite lookup_empty in E | ..]. Qed.

(** What a placement gives one allocation. *)
Lemma address_facts caps prepared solved sol i x k key :
  prepared_ok ends plan caps prepared -> solved_of prepared solved -> valid solved sol -> represents plan prepared i x k ->
  base_of_interval x = Some key ->
  (space_alignment (memory_space x) | address_of prepared sol key) /\
  end_of ends (space_id (memory_space x)) <= address_of prepared sol key /\ 0 <= address_of prepared sol key /\
  forall c, caps !! space_id (memory_space x) = Some c -> 0 < c -> address_of prepared sol key + lsize x <= c.
Proof.
  intros Hp Hsolved Hv Hr Hkey.
  destruct (represented_at caps prepared solved sol i x k Hp Hsolved Hv Hr) as (o & key' & Hkey' & Hat & Ho & H0 & [Hal Hpl]).
  assert (key' = key) as -> by congruence. rewrite Hat. cbn [alignment bsize bpool buffer_of] in *.
  pose proof (buffers_ok _ (pr_problem _ _ _ _ Hp)) as Hb. rewrite Forall_forall in Hb.
  assert (Hin : buffer_of k x ∈ buffers (strict_problem prepared)) by (destruct Hr as (_ & _ & Hbx & _); by eapply list_elem_of_lookup_2).
  destruct (Hb _ Hin) as (_ & _ & _ & pool & Hpool & Hid). cbn [bpool buffer_of] in Hid.
  destruct (Hpl pool Hpool Hid) as [Hcap Hres]. destruct (pr_pool _ _ _ _ Hp pool Hpool) as [Hrr Hcc]. rewrite Hid in *.
  split_and!; [done | | done |].
  - rewrite Hrr in Hres. unfold reserved_of, end_of in *. destruct (ends !! space_id (memory_space x)) as [e|]; cbn [default from_option]; [|done].
    destruct (Z.gtb_spec e 0); [|unfold id; lia]. rewrite Forall_singleton in Hres. unfold disjoint_ranges in Hres. cbn [rbegin rend] in Hres.
    unfold id. pose proof (typed_buffers _ (pr_typed _ _ _ _ Hp)) as Ht. rewrite Forall_forall in Ht. destruct (Ht _ Hin) as [Hsz _].
    destruct (Hb _ Hin) as (Hne & _). cbn [bsize buffer_of] in *. lia64.
  - intros c Hc Hpos. by rewrite <- (Hcc c Hc Hpos).
Qed.

(** ** The whole plan *)

Section Whole.
Context (recognized : list RecognizedReusePenalty) (mem_size : option (MemorySpace -> Z)).
Let caps : gmap Z Z := pool_caps mem_size (intervals plan).

(** How the planner ends, from the problem it prepared. *)
Lemma PlanWithDsaRP_steps memrefs relative :
  plan_wf ends plan caps recognized -> (exists x, x ∈ intervals plan /\ active x = true) ->
  exists prepared solved r, BuildProblem plan ends caps recognized = Ok prepared /\ prepared_ok ends plan caps prepared /\
    solve_relaxing prepared = Ok (solved, r) /\ solved_of prepared solved /\
    ((exists sol, valid solved sol /\ PlanWithDsaRP plan recognized ends mem_size memrefs relative =
        (let* reps := BuildMemRefReplacements prepared sol memrefs relative in
         Ok (reps, CountOverlappingPairs (strict_problem prepared) sol (pipeline_pairs prepared)))) \/
     status r = kNoFit /\ PlanWithDsaRP plan recognized ends mem_size memrefs relative = Err CheckFailed).
Proof.
  intros Hwf (x & Hx & Ha). destruct (BuildProblem_ok ends plan caps recognized Hwf) as (prepared & Hb & Hp).
  destruct (solve_relaxing_ok caps prepared Hp) as (solved & r & Hs & Hsolved & Hr).
  exists prepared, solved, r. do 4 (split; [done |]).
  assert (Hrun : PlanWithDsaRP plan recognized ends mem_size memrefs relative =
    (let* _ := require (negb (is_invalid (status r))) InternalError in
     let* _ := require (is_feasible (status r)) CheckFailed in
     match solution r with
     | None => Err InternalError
     | Some s =>
         let* validation := ValidateSolution solved s in
         let* _ := require (bool_decide (validation = [])) InternalError in
         let active := CountOverlappingPairs (strict_problem prepared) s (pipeline_pairs prepared) in
         let* replacements := BuildMemRefReplacements prepared s memrefs relative in
         Ok (replacements, active)
     end)).
  { unfold PlanWithDsaRP. fold caps. apply list_elem_of_lookup in Hx as [i Hi].
    destruct (pr_interval _ _ _ _ Hp i x Hi Ha) as (k & _ & _ & Hk & _).
    destruct (intervals plan) as [|l0 ls] eqn:El; [done |]. rewrite Hb. cbn [bind].
    destruct (buffers (strict_problem prepared)) as [|b0 bs]; [done |]. rewrite Hs. reflexivity. }
  destruct Hr as [[E (sol & Esol & Hv)]|[E Esol]].
  - left. exists sol. split; [done |]. rewrite Hrun, E, Esol. cbn [is_invalid is_feasible negb require bind].
    destruct (solved_ok caps prepared solved Hp Hsolved) as [Ht Ho].
    rewrite (valid_no_errors solved Ht Ho sol Hv). cbn [bind]. rewrite bool_decide_eq_true_2 by done. done.
  - right. split; [done |]. rewrite Hrun, E. done.
Qed.

(** A success is a valid placement written back. *)
Lemma PlanWithDsaRP_placement memrefs relative reps reused :
  plan_wf ends plan caps recognized -> (exists x, x ∈ intervals plan /\ active x = true) ->
  PlanWithDsaRP plan recognized ends mem_size memrefs relative = Ok (reps, reused) ->
  exists prepared solved sol, prepared_ok ends plan caps prepared /\ solved_of prepared solved /\ valid solved sol /\
    Forall2 (fun ms p => replaced (address_of prepared sol) relative ms.1 p) (placed_memrefs memrefs) reps /\
    reused = CountOverlappingPairs (strict_problem prepared) sol (pipeline_pairs prepared).
Proof.
  intros Hwf Hact Hplan.
  destruct (PlanWithDsaRP_steps memrefs relative Hwf Hact) as (prepared & solved & r & _ & Hp & _ & Hsolved & [(sol & Hv & E)|[_ E]]); [|congruence].
  rewrite E in Hplan. apply bind_ok in Hplan as (reps' & Hreps & [= <- <-]). exists prepared, solved, sol. do 3 (split; [done |]).
  split; [|done]. eapply replacements_ok; [|exact Hreps]. intros key id o Hid Ho. unfold address_of. rewrite Hid, Ho.
  split; [done |]. destruct Hv as [_ Ht]. specialize (Ht _ _ Ho). lia64.
Qed.

(** Two allocations in the bytes their intervals have. *)
Lemma intervals_apart prepared solved sol i j x y key key' :
  prepared_ok ends plan caps prepared -> solved_of prepared solved -> valid solved sol ->
  intervals plan !! i = Some x -> intervals plan !! j = Some y -> i <> j ->
  active x = true -> active y = true -> memory_space x = memory_space y ->
  base_of_interval x = Some key -> base_of_interval y = Some key' ->
  co_live x y \/ kept_apart plan i j /\
    (~ pipelined plan i j \/ CountOverlappingPairs (strict_problem prepared) sol (pipeline_pairs prepared) = 0%nat) ->
  disjoint_ranges (address_of prepared sol key) (lsize x) (address_of prepared sol key') (lsize y).
Proof.
  intros Hp Hsolved Hv Hi Hj Hne Hax Hay Hs Hkx Hky Hwhy.
  destruct (pr_interval _ _ _ _ Hp i x Hi Hax) as (k & Hr). destruct (pr_interval _ _ _ _ Hp j y Hj Hay) as (k' & Hr').
  destruct (represented_at caps prepared solved sol i x k Hp Hsolved Hv Hr) as (o & key0 & E0 & Eo & Ho & _).
  destruct (represented_at caps prepared solved sol j y k' Hp Hsolved Hv Hr') as (o' & key0' & E0' & Eo' & Ho' & _).
  assert (key0 = key) as -> by congruence. assert (key0' = key') as -> by congruence. rewrite Eo, Eo'.
  by eapply (placed_apart caps prepared solved sol i j x y k k').
Qed.

End Whole.

End Plan.

(** The placement of a function's allocations. *)
(** C11: End to end, from lifetimes to addresses: when PlanWithDsaRP succeeds and the plan
    is well-formed (plan_wf: allocations on chip have positive sizes that fit 64 bits,
    ordered lifetimes and a base each, relations are in range, recognized pairs never live
    together, reserved ranges end within capacities) and has an allocation on chip, each
    reference gets the address of its allocation plus its offset; allocations are aligned,
    after the reserved buffers and within the memory; and two allocations of a space that
    live together, or that a separation keeps apart, are disjoint, where a separation for
    the software pipeline alone may be given up, and then the reported count is not zero.
    The memory policy is any that satisfies PolicyLaws (aligning rounds up, ordering
    permutes), as the default one does. *)
Theorem PlanWithDsaRP_sound `{policy : MemoryAllocatorPolicy} `{!PolicyLaws policy} `{Shuffle}
    plan recognized ends mem_size memrefs relative reps reused :
  plan_wf ends plan (pool_caps mem_size (intervals plan)) recognized -> (exists x, x ∈ intervals plan /\ active x = true) ->
  PlanWithDsaRP plan recognized ends mem_size memrefs relative = Ok (reps, reused) ->
  exists at_ : positive -> Z,
    Forall2 (fun ms p => replaced at_ relative ms.1 p) (placed_memrefs memrefs) reps /\
    (forall x key, x ∈ intervals plan -> active x = true -> base_of_interval x = Some key ->
       (space_alignment (memory_space x) | at_ key) /\ end_of ends (space_id (memory_space x)) <= at_ key /\
       forall get, mem_size = Some get -> 0 < get (memory_space x) -> at_ key + lsize x <= get (memory_space x)) /\
    (forall i j x y key key', intervals plan !! i = Some x -> intervals plan !! j = Some y -> i <> j ->
       active x = true -> active y = true -> memory_space x = memory_space y ->
       base_of_interval x = Some key -> base_of_interval y = Some key' ->
       co_live x y \/ kept_apart plan i j /\ (~ pipelined plan i j \/ reused = 0%nat) ->
       disjoint_ranges (at_ key) (lsize x) (at_ key') (lsize y)).
Proof.
  intros Hwf Hact Hplan.
  destruct (PlanWithDsaRP_placement ends plan recognized mem_size memrefs relative reps reused Hwf Hact Hplan)
    as (prepared & solved & sol & Hp & Hsolved & Hv & Hreps & ->).
  exists (address_of prepared sol). split_and!; [done | |].
  - intros x key [i Hi]%list_elem_of_lookup Ha Hkey. destruct (pr_interval _ _ _ _ Hp i x Hi Ha) as (k & Hr).
    destruct (address_facts ends plan _ prepared solved sol i x k key Hp Hsolved Hv Hr Hkey) as (H1 & H2 & _ & H4).
    split_and!; [done | done |]. intros get -> Hpos. apply H4; [|done]. apply pool_caps_at; [by eapply list_elem_of_lookup_2 | done].
  - intros i j x y key key'. by apply (intervals_apart ends plan mem_size prepared solved sol).
Qed.

(** The planner is defined up to the writing back, and fails only on a lack of space. *)
(** C27: On a plan with plan_wf, which asks among other things that the reserved range of
    each memory end within its capacity, with an allocation on chip, memories of known
    positive size up to INT64_MAX and references to allocations of the plan at offsets
    within them, PlanWithDsaRP fails in one way only: the solver found no placement,
    reported to the user; no internal check fires, neither in building the problem nor in
    validating and writing back the solution. A reserved range that ends beyond the memory
    does fire one (PlanWithDsaRP_reserved_internal). The memory policy is any that satisfies
    PolicyLaws (aligning rounds up, ordering permutes), as the default one does. *)
Theorem PlanWithDsaRP_fails `{policy : MemoryAllocatorPolicy} `{!PolicyLaws policy} `{Shuffle}
    plan recognized ends get memrefs relative err :
  plan_wf ends plan (pool_caps (Some get) (intervals plan)) recognized -> (exists x, x ∈ intervals plan /\ active x = true) ->
  (forall x, x ∈ intervals plan -> active x = true -> 0 < get (memory_space x) <= INT64_MAX) ->
  (forall m s, (m, s) ∈ placed_memrefs memrefs -> exists x, x ∈ intervals plan /\ active x = true /\
     base_of_interval x = Some (base_key m) /\ placeable relative (fun _ => lsize x) m) ->
  PlanWithDsaRP plan recognized ends (Some get) memrefs relative = Err err ->
  err = CheckFailed /\ exists prepared solved r, BuildProblem plan ends (pool_caps (Some get) (intervals plan)) recognized = Ok prepared /\
    solve_relaxing prepared = Ok (solved, r) /\ status r = kNoFit.
Proof.
  intros Hwf Hact Hget Hrefs Hplan.
  destruct (PlanWithDsaRP_steps ends plan recognized (Some get) memrefs relative Hwf Hact)
    as (prepared & solved & r & Hb & Hp & Hs & Hsolved & [(sol & Hv & E)|[Hr E]]).
  - exfalso. rewrite E in Hplan. cut (exists reps, BuildMemRefReplacements prepared sol memrefs relative = Ok reps).
    { intros [reps Hreps]. rewrite Hreps in Hplan. discriminate. }
    clear Hplan E. unfold placed_memrefs in Hrefs. induction memrefs as [|[m s] memrefs IH]; cbn [BuildMemRefReplacements]; [by eexists |].
    cbn [List.filter snd] in Hrefs. destruct (bool_decide (s = DDR) || negb (ShouldAllocate s)); cbn [negb] in Hrefs; [by apply IH |].
    destruct IH as [reps Hreps]; [intros m' s' Hin; apply (Hrefs m' s'); by right |].
    destruct (Hrefs m s ltac:(by left)) as (x & Hx & Ha & Hkey & Hpl). destruct (Hget x Hx Ha) as [Hpos Hmax].
    pose proof Hx as [i Hi]%list_elem_of_lookup. destruct (pr_interval _ _ _ _ Hp i x Hi Ha) as (k & Hrep).
    destruct (represented_at ends plan _ prepared solved sol i x k Hp Hsolved Hv Hrep) as (o & key & Hkey' & Hat & Ho & H0 & _).
    destruct (address_facts ends plan _ prepared solved sol i x k key Hp Hsolved Hv Hrep Hkey') as (_ & _ & _ & Hcap).
    assert (key = base_key m) as -> by congruence.
    specialize (Hcap _ (pool_caps_at get _ x Hx Hpos) Hpos). rewrite Hat in Hcap.
    assert (Hid : buffer_id_by_base prepared !! base_key m = Some (Z.of_nat k)).
    { destruct Hrep as (_ & _ & _ & key & Hk & Hid). congruence. }
    rewrite Hid, Ho, Hreps. pose proof (pi_size _ (iv_placeable _ _ (wf_intervals _ _ _ _ Hwf) i x Hi Ha)) as Hsize.
    destruct (readdress_def relative (fun _ => lsize x) o (base_key m) [m]) as (l & Hl); try lia64.
    { by constructor; [split | constructor]. }
    cbn [readdress] in Hl. destruct (MakeAbsoluteMemRefAddress o m relative); [|done]. cbn [bind]. by eexists.
  - split; [congruence |]. by exists prepared, solved, r.
Qed.

(** [BuildProblem] on the contract of the analyses. *)
(** C13: BuildProblem translates a well-formed plan into a placement problem of the same
    meaning. On a plan with plan_wf (at most 2^32 allocations; those on chip have positive
    sizes that fit 64 bits, ordered lifetimes and a base each; separations and recognized
    pairs are in range, with costs and counts that fit 64 bits; recognized pairs never live
    together; reserved ranges end within known capacities) it returns a valid problem:
    buffers are the allocations on chip, one each; two of them conflict exactly when they
    share a space and live together or are separated; the pairs that may be relaxed are
    exactly those kept apart for the pipeline alone; and the relaxed problem is valid too.
    The memory policy is any that satisfies PolicyLaws (aligning rounds up, ordering
    permutes), as the default one does. *)
Theorem BuildProblem_refines `{policy : MemoryAllocatorPolicy} `{!PolicyLaws policy} plan ends caps recognized :
  plan_wf ends plan caps recognized ->
  exists prepared, BuildProblem plan ends caps recognized = Ok prepared /\ prepared_ok ends plan caps prepared /\
    typed (RelaxPipelineIntent prepared) /\ problem_ok (RelaxPipelineIntent prepared).
Proof.
  intros Hwf. destruct (BuildProblem_ok ends plan caps recognized Hwf) as (prepared & Hb & Hp). exists prepared.
  split; [done |]. split; [done |]. apply (solved_ok ends plan caps prepared); [done | by right].
Qed.

(** ** An example *)

(** Three tiles in a memory of two: two live together, the third in another stage
    of the same pipeline. *)
Definition tile_interval (v : positive) (def last : Z) (space : MemorySpace) : LifetimeInterval :=
  MkLifetime v (Some (MkMemRefData EmptyString (MkBase v EmptyString) (ConstInt 0 INT64) 64 false 1 None)) def last space 64.

Definition three_tiles : list LifetimeInterval :=
  [tile_interval 1 0 2 Vec; tile_interval 2 1 3 Vec; tile_interval 3 4 5 Vec].

Definition three_plan : AllocationPlan :=
  MkPlan three_tiles [MkAllocSeparation 0 2 [PipelineStage]; MkAllocSeparation 1 2 [PipelineStage]].

Definition three_recognized : list RecognizedReusePenalty := [MkRecognized 0 2 3].

Definition three_memrefs : list (MemRef * MemorySpace) :=
  [(tile_at 1 1 "a" 64, Vec); (tile_at 2 2 "b" 64, Vec); (tile_at 3 3 "c" 64, Vec)].
Definition three_relative : RelativeMemRefOffsets :=
  {[ 1%positive := ConstInt 0 INT64; 2%positive := ConstInt 0 INT64; 3%positive := ConstInt 0 INT64 ]}.

#[local] Existing Instance DefaultMemoryAllocatorPolicy.
#[local] Existing Instance DsaSolve.Examples.same_order.

Lemma three_lookup i x : three_tiles !! i = Some x ->
  i = 0%nat /\ x = tile_interval 1 0 2 Vec \/ i = 1%nat /\ x = tile_interval 2 1 3 Vec \/ i = 2%nat /\ x = tile_interval 3 4 5 Vec.
Proof. destruct i as [|[|[|i]]]; cbn; intros [= <-]; auto. Qed.

Lemma three_wf capacity : 0 <= capacity <= UINT64_MAX ->
  plan_wf ∅ three_plan (pool_caps (Some (fun _ => capacity)) three_tiles) three_recognized.
Proof.
  intros Hc.
  assert (Hcap : forall id c, pool_caps (Some (fun _ => capacity)) three_tiles !! id = Some c -> c = capacity).
  { intros id c. unfold pool_caps, three_tiles. cbn [foldl memory_space tile_interval]. rewrite lookup_empty.
    destruct (Z.gtb_spec capacity 0).
    - rewrite !lookup_insert_eq. intros [[_ E]|[_ E]]%lookup_insert_Some; [done | by rewrite lookup_empty in E].
    - rewrite !lookup_empty. done. }
  split.
  - split.
    + intros i x [[_ ->]|[[_ ->]|[_ ->]]]%three_lookup _; (split; [unfold interval_ok; cbn; lia | by eexists | done | by vm_compute | by vm_compute]).
    + intros i j x y Hx Hy _ _ E. destruct (three_lookup i x Hx) as [[-> ->]|[[-> ->]|[-> ->]]],
        (three_lookup j y Hy) as [[-> ->]|[[-> ->]|[-> ->]]]; done.
    + by vm_compute.
    + intros x _ _. unfold end_of. rewrite lookup_empty. cbn. lia64.
  - repeat constructor; try (by eexists); done.
  - repeat constructor; try (by eexists); done.
  - intros r x y Hr%list_elem_of_singleton Hx Hy _ _ _. subst r. cbn in Hx, Hy. injection Hx as <-. injection Hy as <-.
    split; [done |]. unfold co_live. cbn. lia.
  - by vm_compute.
  - split; [intros id c ->%Hcap; lia64 |]. intros x c _ _ _ Hpos. unfold end_of. rewrite lookup_empty. cbn. lia.
Qed.

Lemma BuildProblem_refines_witness :
  exists prepared, @BuildProblem DefaultMemoryAllocatorPolicy three_plan ∅ (pool_caps (Some (fun _ => 128)) three_tiles) three_recognized = Ok prepared /\
    problem_ok (strict_problem prepared) /\ length (pipeline_pairs prepared) = 2%nat.
Proof.
  destruct (BuildProblem_refines three_plan ∅ (pool_caps (Some (fun _ => 128)) three_tiles) three_recognized) as (prepared & E & Hp & _).
  - apply three_wf. lia64.
  - exists prepared. split; [done |]. split; [apply Hp |]. vm_compute in E. injection E as <-. done.
Defined.

Definition three_result : list (positive * MemRefData) * nat :=
  match PlanWithDsaRP three_plan three_recognized ∅ (Some (fun _ => 128)) three_memrefs three_relative with
  | Ok r => r
  | Err _ => ([], 0%nat)
  end.

(** The first two tiles are side by side and the third is over the second, away
    from the penalty for the first: one pipeline separation is lost. *)
Example three_addresses :
  (map (fun p => (p.1, byte_offset p.2)) three_result.1, three_result.2) =
  ([(1%positive, ConstInt 0 INT64); (2%positive, ConstInt 64 INT64); (3%positive, ConstInt 64 INT64)], 1%nat).
Proof. vm_compute. reflexivity. Qed.

Lemma three_active : exists x, x ∈ intervals three_plan /\ active x = true.
Proof. exists (tile_interval 1 0 2 Vec). split; [left | done]. Qed.

Lemma PlanWithDsaRP_sound_witness :
  exists at_ : positive -> Z, disjoint_ranges (at_ 1%positive) 64 (at_ 2%positive) 64.
Proof.
  destruct (PlanWithDsaRP_sound three_plan three_recognized ∅ (Some (fun _ => 128)) three_memrefs three_relative
    three_result.1 three_result.2) as (at_ & _ & _ & Hd).
  - apply three_wf. lia64.
  - apply three_active.
  - vm_compute. reflexivity.
  - exists at_. apply (Hd 0%nat 1%nat (tile_interval 1 0 2 Vec) (tile_interval 2 1 3 Vec)); try done.
    left. unfold co_live. cbn. lia.
Defined.

(** In a memory of one tile there is no placement, with or without the pipeline. *)
Lemma PlanWithDsaRP_fails_witness :
  exists prepared solved r, BuildProblem three_plan ∅ (pool_caps (Some (fun _ => 64)) three_tiles) three_recognized = Ok prepared /\
    solve_relaxing prepared = Ok (solved, r) /\ status r = kNoFit.
Proof.
  destruct (PlanWithDsaRP_fails three_plan three_recognized ∅ (fun _ => 64) three_memrefs three_relative CheckFailed) as [_ H].
  - apply three_wf. lia64.
  - apply three_active.
  - intros x _ _. lia64.
  - intros m s Hin. unfold placed_memrefs, three_memrefs in Hin. cbn [List.filter snd] in Hin.
    repeat (apply elem_of_cons in Hin as [E|Hin]; [injection E as -> -> |]); [..|by apply elem_of_nil in Hin].
    + exists (tile_interval 1 0 2 Vec). split_and!; [by left | done | done |]. vm_compute. repeat split; discriminate.
    + exists (tile_interval 2 1 3 Vec). split_and!; [by right; left | done | done |]. vm_compute. repeat split; discriminate.
    + exists (tile_interval 3 4 5 Vec). split_and!; [by right; right; left | done | done |]. vm_compute. repeat split; discriminate.
  - vm_compute. reflexivity.
  - exact H.
Defined.

(** A reserved buffer that ends beyond the memory: the pool is rejected by the
    problem's validator and the planner reports an internal error, where the
    sequential planner reports that the buffers do not fit. *)
(** Finding: with a reserved buffer that ends beyond the memory PlanWithDsaRP reports
    an internal error where the sequential planner reports to the user that the buffers do
    not fit. *)
Theorem PlanWithDsaRP_reserved_internal (S : Shuffle) :
  let ends : ReservedEndBySpace := {[ space_id Vec := 2048 ]} in
  let plan := MkPlan [tile_interval 1 0 2 Vec] [] in
  let memrefs := [(tile_at 1 1 "a" 64, Vec)] in
  @PlanWithDsaRP DefaultMemoryAllocatorPolicy S plan [] ends (Some (fun _ => 1024)) memrefs three_relative = Err InternalError /\
  @AllocateMemoryAddresses DefaultMemoryAllocatorPolicy [Vec] memrefs ends ∅ three_relative (Some (fun _ => 1024)) = Err CheckFailed.
Proof. split; vm_compute; reflexivity. Qed.
