(* ===== verification/DsaPenalties.v ===== *)
(** * Recognizing costly reuse

    [CompactSummary] and the sweep of [RecognizeReusePenalties]
    ([src/ir/transforms/dsa/reuse_penalty_recognizer.cpp]) on the accesses that
    were collected for each allocation, and the pairs the sweep finds. *)

From Stdlib Require Import ZArith Lia Bool List String.
From stdpp Require Import base gmap list option strings sorting.
From S2P Require Import Prelude Dtype ScalarExpr Storage Dsa DsaSearch DsaSpec DsaFit DsaSound DsaSolve.
From S2P Require Import Memref MemrefSound MemrefPlan DsaAdapter DsaBuild DsaSeparations.

(** ** Accesses *)

Inductive PipeType := MTE1 | MTE2 | MTE3 | PipeM | PipeV | PipeS | FIX | ALL.

#[export] Instance pipe_eq_dec : EqDecision PipeType.
Proof. solve_decision. Defined.

(** [ResourceIndex]: the value of the enumerator. *)
Definition ResourceIndex (p : PipeType) : nat :=
  match p with MTE1 => 0 | MTE2 => 1 | MTE3 => 2 | PipeM => 3 | PipeV => 4 | PipeS => 5 | FIX => 6 | ALL => 7 end.
Definition kResourceCount : nat := S (ResourceIndex ALL).

Inductive AccessKind := Read | Write.
#[export] Instance access_kind_eq_dec : EqDecision AccessKind.
Proof. solve_decision. Defined.

(** Paths are compared by their id. *)
Record StructuredPath := MkPath { path_id : Z; in_loop : bool }.

Record AccessEndpoint := MkAccess {
  global_order : Z;
  resource : PipeType;
  access_kind : AccessKind;
  access_path : StructuredPath;
  full_allocation : bool
}.

Record AllocationAccessSummary := MkSummary { accesses : list AccessEndpoint; has_unknown_access : bool }.

(** The array of the terminal accesses by resource is a list of [kResourceCount] entries. *)
Record CompactAccessSummary := MkCompact {
  compact_path : StructuredPath;
  initial_write : AccessEndpoint;
  terminal_by_resource : list (option AccessEndpoint)
}.

(** [min_element]: the first of the least. *)
Fixpoint min_order (least : AccessEndpoint) (l : list AccessEndpoint) : AccessEndpoint :=
  match l with
  | [] => least
  | e :: l => min_order (if global_order e <? global_order least then e else least) l
  end.

(** The loop over the accesses of the earliest order: the last one, unless one is
    a read or they are on different pipes. *)
Fixpoint find_initial (earliest : Z) (found : option AccessEndpoint) (l : list AccessEndpoint) : option AccessEndpoint :=
  match l with
  | [] => found
  | e :: l =>
      if negb (global_order e =? earliest) then find_initial earliest found l
      else if negb (bool_decide (access_kind e = Write)) then None
      else match found with
      | Some w => if negb (bool_decide (resource w = resource e)) then None else find_initial earliest (Some e) l
      | None => find_initial earliest (Some e) l
      end
  end.

(** Whether an access replaces the terminal one of its resource. *)
Definition replaces (terminal : option AccessEndpoint) (e : AccessEndpoint) : bool :=
  match terminal with
  | None => true
  | Some t => (global_order t <? global_order e) ||
      ((global_order t =? global_order e) && bool_decide (access_kind t = Read) && bool_decide (access_kind e = Write))
  end.

Definition record_terminal (terminals : list (option AccessEndpoint)) (e : AccessEndpoint) : list (option AccessEndpoint) :=
  alter (fun t => if replaces t e then Some e else t) (ResourceIndex (resource e)) terminals.

Definition CompactSummary (s : AllocationAccessSummary) : option CompactAccessSummary :=
  if has_unknown_access s then None
  else match accesses s with
  | [] => None
  | front :: rest =>
      let path := access_path front in
      if existsb (fun e => negb (path_id (access_path e) =? path_id path) || negb (full_allocation e)) (accesses s) then None
      else match find_initial (global_order (min_order front rest)) None (accesses s) with
      | None => None
      | Some initial => Some (MkCompact path initial (foldl record_terminal (replicate kResourceCount None) (accesses s)))
      end
  end.

(** ** The sweep *)

Record ResourceBuckets := MkBuckets { terminal : list (list nat); initial : list (list nat) }.
Definition no_buckets : ResourceBuckets := MkBuckets (replicate kResourceCount []) (replicate kResourceCount []).

Definition NormalizePair (first second : nat) : nat * nat := if (first <? second)%nat then (first, second) else (second, first).

Section Sweep.
Context (l : list LifetimeInterval) (summaries : list (option CompactAccessSummary)).

Definition def_at (i : nat) : Z := match l !! i with Some x => def_point x | None => 0 end.
Definition end_at (i : nat) : Z := match l !! i with Some x => last_use_point x | None => 0 end.
Definition summary_at (i : nat) : option CompactAccessSummary := default None (summaries !! i).

(** An allocation that has become reusable. *)
Definition push_reusable (reusable : nat) (m : gmap Z ResourceBuckets) : gmap Z ResourceBuckets :=
  match summary_at reusable with
  | None => m
  | Some s =>
      let b := default no_buckets (m !! path_id (compact_path s)) in
      <[ path_id (compact_path s) := MkBuckets
           (imap (fun r bucket => match terminal_by_resource s !! r with Some (Some _) => bucket ++ [reusable] | _ => bucket end) (terminal b))
           (alter (fun bucket => bucket ++ [reusable]) (ResourceIndex (resource (initial_write s))) (initial b)) ]> m
  end.

(** The [while] over the ends. *)
Fixpoint release (point : Z) (by_end : list nat) (m : gmap Z ResourceBuckets) : list nat * gmap Z ResourceBuckets :=
  match by_end with
  | [] => ([], m)
  | e :: rest => if end_at e <=? point then release point rest (push_reusable e m) else (by_end, m)
  end.

(** A value of another pipe that was last accessed before the first write. *)
Definition forward_pairs (b : ResourceBuckets) (current : nat) (s : CompactAccessSummary) : list (nat * nat) :=
  flat_map (fun r =>
    if (r =? ResourceIndex (resource (initial_write s)))%nat then []
    else flat_map (fun prior =>
      if (prior =? current)%nat then []
      else match summary_at prior with
      | None => []
      | Some p =>
          match terminal_by_resource p !! r with
          | Some (Some t) => if global_order t <=? global_order (initial_write s) then [(prior, current)] else []
          | _ => []
          end
      end) (default [] (terminal b !! r))) (seq 0 kResourceCount).

(** A value of another pipe that is written again in the next iteration. *)
Definition backward_pairs (b : ResourceBuckets) (current : nat) (s : CompactAccessSummary) : list (nat * nat) :=
  if negb (in_loop (compact_path s)) then []
  else flat_map (fun r =>
    match terminal_by_resource s !! r with
    | Some (Some t) =>
        flat_map (fun r' =>
          if (r =? r')%nat then []
          else flat_map (fun prior =>
            if (prior =? current)%nat then []
            else match summary_at prior with
            | None => []
            | Some p => if global_order t >? global_order (initial_write p) then [(prior, current)] else []
            end) (default [] (initial b !! r'))) (seq 0 kResourceCount)
    | _ => []
    end) (seq 0 kResourceCount).

(** The pairs the loop over [by_definition] passes to [emit], in order. *)
Fixpoint sweep_space (by_definition by_end : list nat) (m : gmap Z ResourceBuckets) : list (nat * nat) :=
  match by_definition with
  | [] => []
  | current :: rest =>
      let (by_end, m) := release (def_at current) by_end m in
      match summary_at current with
      | None => sweep_space rest by_end m
      | Some s =>
          match m !! path_id (compact_path s) with
          | None => sweep_space rest by_end m
          | Some b => forward_pairs b current s ++ backward_pairs b current s ++ sweep_space rest by_end m
          end
      end
  end.

Definition by_definition (indices : list nat) : list nat := sort_by (fun i => [def_at i; Z.of_nat i]) indices.
Definition by_end (indices : list nat) : list nat := sort_by (fun i => [end_at i; Z.of_nat i]) indices.

(** [intervals_by_space], in the order of the spaces. *)
Definition intervals_of_space (s : MemorySpace) : list nat :=
  map fst (List.filter (fun '(_, x) => bool_decide (memory_space x = s)) (indexed l)).

Definition spaces_in_order : list MemorySpace :=
  [DDR; Vec; Mat; Left; Right; Acc; Bias; ScalarLocal; LeftScale; RightScale].

Definition emitted : list (nat * nat) :=
  flat_map (fun s => sweep_space (by_definition (intervals_of_space s)) (by_end (intervals_of_space s)) ∅) spaces_in_order.

End Sweep.

(** [emit]: a pair that is separated or was recognized before is dropped. *)
Definition emit (separated : gset (nat * nat)) (acc : gset (nat * nat) * list RecognizedReusePenalty) (pair_ : nat * nat)
    : gset (nat * nat) * list RecognizedReusePenalty :=
  let '(first, second) := pair_ in
  if (first =? second)%nat then acc
  else
    let key := NormalizePair first second in
    if bool_decide (key ∈ separated) then acc
    else if bool_decide (key ∈ acc.1) then acc
    else ({[ key ]} ∪ acc.1, acc.2 ++ [MkRecognized key.1 key.2 1]).

Definition RecognizeReusePenalties (plan : AllocationPlan) (collected : list AllocationAccessSummary)
    : list RecognizedReusePenalty :=
  match intervals plan with
  | [] => []
  | _ =>
      let separated : gset (nat * nat) :=
        list_to_set (map (fun s => NormalizePair (as_first s) (as_second s)) (plan_separations plan)) in
      (foldl (emit separated) (∅, []) (emitted (intervals plan) (map CompactSummary collected))).2
  end.

(** ** What the sweep finds *)

Section Found.
Context (l : list LifetimeInterval) (summaries : list (option CompactAccessSummary)).

Abbreviation summary_at := (summary_at summaries).

(** The terminal access of a compact summary on a pipe. *)
Definition terminal_on (s : CompactAccessSummary) (r : nat) (e : AccessEndpoint) : Prop :=
  (r < kResourceCount)%nat /\ terminal_by_resource s !! r = Some (Some e).

Definition initial_index (s : CompactAccessSummary) : nat := ResourceIndex (resource (initial_write s)).

Lemma initial_index_lt s : (initial_index s < kResourceCount)%nat.
Proof. unfold initial_index, kResourceCount. destruct (resource (initial_write s)); cbn; lia. Qed.

(** The value [p] is last accessed on another pipe than that of the first write of
    [s], before it; or, in a loop, [s] is last accessed on another pipe than that of
    the first write of [p], after it. *)
Definition hands_over (p s : CompactAccessSummary) : Prop :=
  path_id (compact_path p) = path_id (compact_path s) /\
  ((exists r t, terminal_on p r t /\ r <> initial_index s /\ global_order t <= global_order (initial_write s)) \/
   in_loop (compact_path s) = true /\
   exists r t, terminal_on s r t /\ r <> initial_index p /\ global_order (initial_write p) < global_order t).

Definition costly_pair (prior current : nat) : Prop :=
  prior <> current /\ exists p s, summary_at prior = Some p /\ summary_at current = Some s /\ hands_over p s.

(** *** The buckets hold what was released *)

Record holds (m : gmap Z ResourceBuckets) (pushed : list nat) : Prop := {
  holds_lengths : forall pid b, m !! pid = Some b -> length (terminal b) = kResourceCount /\ length (initial b) = kResourceCount;
  holds_terminal : forall pid r i, (exists b bucket, m !! pid = Some b /\ terminal b !! r = Some bucket /\ i ∈ bucket) <->
    i ∈ pushed /\ exists s e, summary_at i = Some s /\ path_id (compact_path s) = pid /\ terminal_on s r e;
  holds_initial : forall pid r i, (exists b bucket, m !! pid = Some b /\ initial b !! r = Some bucket /\ i ∈ bucket) <->
    i ∈ pushed /\ exists s, summary_at i = Some s /\ path_id (compact_path s) = pid /\ initial_index s = r
}.

Lemma holds_none : holds ∅ [].
Proof.
  split.
  - intros pid b H. by rewrite lookup_empty in H.
  - intros pid r i. split; [intros (b & ? & H & _); by rewrite lookup_empty in H | by intros [?%elem_of_nil _]].
  - intros pid r i. split; [intros (b & ? & H & _); by rewrite lookup_empty in H | by intros [?%elem_of_nil _]].
Qed.

(** Pushing on the buckets that [keep] selects. *)
Lemma pushed_in (buckets buckets' : list (list nat)) (keep : nat -> Prop) x r i :
  (forall r bucket, buckets !! r = Some bucket -> keep r /\ buckets' !! r = Some (bucket ++ [x]) \/ ~ keep r /\ buckets' !! r = Some bucket) ->
  length buckets' = length buckets ->
  (exists bucket, buckets' !! r = Some bucket /\ i ∈ bucket) <->
  (exists bucket, buckets !! r = Some bucket /\ i ∈ bucket) \/ (r < length buckets)%nat /\ keep r /\ i = x.
Proof.
  intros Hstep Hlen. destruct (buckets !! r) as [bucket|] eqn:E.
  - assert (Hr : (r < length buckets)%nat) by (by eapply lookup_lt_Some).
    destruct (Hstep r bucket E) as [[Hk ->]|[Hk ->]].
    + split; [intros (? & [= <-] & [H| ->]%in_snoc); [left; by exists bucket | by right] |].
      intros [(? & [= <-] & H)|(_ & _ & ->)]; eexists; (split; [done |]); apply in_snoc; [by left | by right].
    + split; [intros (? & [= <-] & H); left; by exists bucket |].
      intros [(? & [= <-] & H)|(_ & ? & _)]; [by exists bucket | done].
  - assert (Hr : (length buckets <= r)%nat) by (by apply lookup_ge_None_1).
    assert (E' : buckets' !! r = None) by (apply lookup_ge_None_2; lia). rewrite E'.
    split; [by intros (? & ? & _) | intros [(? & ? & _)|[? _]]; [done | lia]].
Qed.

Lemma no_buckets_empty (f : ResourceBuckets -> list (list nat)) r i :
  f no_buckets = replicate kResourceCount [] -> ~ exists bucket, f no_buckets !! r = Some bucket /\ i ∈ bucket.
Proof. intros -> (bucket & [-> _]%lookup_replicate & H). by apply elem_of_nil in H. Qed.

(** The buckets of a path before a push: those of the map, or none. *)
Lemma old_buckets (m : gmap Z ResourceBuckets) pid (f : ResourceBuckets -> list (list nat)) r i :
  f no_buckets = replicate kResourceCount [] ->
  (exists bucket, f (default no_buckets (m !! pid)) !! r = Some bucket /\ i ∈ bucket) <->
  exists b bucket, m !! pid = Some b /\ f b !! r = Some bucket /\ i ∈ bucket.
Proof.
  intros Hf. destruct (m !! pid) as [b|]; cbn [default from_option].
  - unfold id. split; [intros (bucket & H); by exists b, bucket | intros (? & bucket & [= <-] & H); by exists bucket].
  - split; [intros H; by apply no_buckets_empty in H | by intros (? & ? & ? & _)].
Qed.

Lemma push_holds m pushed i : holds m pushed -> holds (push_reusable summaries i m) (pushed ++ [i]).
Proof.
  intros [Hl Ht Hi]. unfold push_reusable. destruct (summary_at i) as [s|] eqn:Es.
  2:{ split; [done | |]; intros *; rewrite ?Ht, ?Hi, in_snoc; naive_solver. }
  set (pid := path_id (compact_path s)). set (b := default no_buckets (m !! pid)).
  assert (Hb : length (terminal b) = kResourceCount /\ length (initial b) = kResourceCount).
  { unfold b. destruct (m !! pid) as [b0|] eqn:E; [by apply (Hl pid) | done]. }
  set (b' := MkBuckets _ _).
  assert (Hone : forall (f : ResourceBuckets -> list (list nat)) pid' r j, (exists c bucket, <[ pid := b' ]> m !! pid' = Some c /\ f c !! r = Some bucket /\ j ∈ bucket) <->
     if decide (pid' = pid) then exists bucket, f b' !! r = Some bucket /\ j ∈ bucket
     else exists c bucket, m !! pid' = Some c /\ f c !! r = Some bucket /\ j ∈ bucket).
  { intros f pid' r j. destruct (decide (pid' = pid)) as [->|Hne]; [rewrite lookup_insert_eq | by rewrite lookup_insert_ne by done].
    split; [intros (? & bucket & [= <-] & H); by exists bucket | intros (bucket & H); by exists b', bucket]. }
  split.
  - intros pid' c [[_ <-]|[_ H]]%lookup_insert_Some; [|by eapply Hl]. cbn [terminal initial b']. rewrite length_imap, length_alter. done.
  - intros pid' r j. rewrite (Hone terminal), in_snoc. destruct (decide (pid' = pid)) as [->|Hne].
    + rewrite (pushed_in (terminal b) _ (fun r => exists e, terminal_by_resource s !! r = Some (Some e)) i).
      * unfold b. rewrite (old_buckets m pid terminal r j eq_refl), Ht. fold b. destruct Hb as [-> _]. unfold terminal_on. split.
        -- intros [[Hj H]|(Hr & (e & He) & ->)]; [split; [by left | done] |]. split; [by right |]. by exists s, e.
        -- intros ([Hj| ->] & s' & e & Es' & Hp & Hr & He); [left; split; [done |]; by exists s', e |].
           right. assert (s' = s) as -> by congruence. split_and!; [done | by exists e | done].
      * intros r' bucket Hr'. cbn [terminal b']. rewrite list_lookup_imap, Hr'. cbn [fmap option_fmap option_map].
        destruct (terminal_by_resource s !! r') as [[e|]|] eqn:E; [left | right | right]; (split; [|done]); [by exists e | by intros [? ?] | by intros [? ?]].
      * cbn [terminal b']. apply length_imap.
    + rewrite Ht. split; [intros [Hj H]; split; [by left | done] |].
      intros ([Hj| ->] & s' & e & Es' & Hp & H); [split; [done |]; by exists s', e |]. assert (s' = s) as -> by congruence. by destruct Hne; rewrite <- Hp.
  - intros pid' r j. rewrite (Hone initial), in_snoc. destruct (decide (pid' = pid)) as [->|Hne].
    + rewrite (pushed_in (initial b) _ (fun r => r = initial_index s) i).
      * unfold b. rewrite (old_buckets m pid initial r j eq_refl), Hi. fold b. destruct Hb as [_ ->]. split.
        -- intros [[Hj H]|(Hr & -> & ->)]; [split; [by left | done] |]. split; [by right |]. by exists s.
        -- intros ([Hj| ->] & s' & Es' & Hp & Hr); [left; split; [done |]; by exists s' |].
           right. assert (s' = s) as -> by congruence. subst r. split_and!; [apply initial_index_lt | done | done].
      * intros r' bucket Hr'. cbn [initial b']. destruct (decide (r' = initial_index s)) as [->|Hne]; [left | right]; (split; [done |]).
        -- unfold initial_index. rewrite list_lookup_alter_eq || rewrite list_lookup_alter. unfold initial_index in Hr'. by rewrite Hr'.
        -- rewrite list_lookup_alter_ne by (unfold initial_index in Hne; congruence). done.
      * cbn [initial b']. apply length_alter.
    + rewrite Hi. split; [intros [Hj H]; split; [by left | done] |].
      intros ([Hj| ->] & s' & Es' & Hp & H); [split; [done |]; by exists s' |]. assert (s' = s) as -> by congruence. by destruct Hne; rewrite <- Hp.
Qed.

(** *** The pairs of one step *)

Lemma forward_in m pushed current s b prior c :
  holds m pushed -> m !! path_id (compact_path s) = Some b ->
  (prior, c) ∈ forward_pairs summaries b current s <->
  c = current /\ prior <> current /\ prior ∈ pushed /\ exists p, summary_at prior = Some p /\
    path_id (compact_path p) = path_id (compact_path s) /\
    exists r t, terminal_on p r t /\ r <> initial_index s /\ global_order t <= global_order (initial_write s).
Proof.
  intros Hm Hb. unfold forward_pairs. rewrite elem_flat_map. fold (initial_index s). split.
  - intros (r & _ & H). destruct (Nat.eqb_spec r (initial_index s)) as [|Hr]; [by apply elem_of_nil in H |].
    apply elem_flat_map in H as (q & Hq & H). destruct (Nat.eqb_spec q current) as [|Hne]; [by apply elem_of_nil in H |].
    destruct (summary_at q) as [p|] eqn:Ep; [|by apply elem_of_nil in H].
    destruct (terminal_by_resource p !! r) as [[t|]|] eqn:Et; [|by apply elem_of_nil in H..].
    destruct (Z.leb_spec (global_order t) (global_order (initial_write s))); [|by apply elem_of_nil in H].
    apply list_elem_of_singleton in H. injection H as -> ->. destruct (terminal b !! r) as [bucket|] eqn:Ebk; [|by apply elem_of_nil in Hq].
    cbn [default from_option] in Hq. unfold id in Hq.
    destruct (proj1 (holds_terminal _ _ Hm (path_id (compact_path s)) r q)) as (Hp & p' & e & Ep' & Hpid & Hte); [by exists b, bucket |].
    assert (p' = p) as -> by congruence. split_and!; try done. exists p. split_and!; try done. exists r, e. split_and!; try done.
    destruct Hte as [_ Hte]. congruence.
  - intros (-> & Hne & Hp & p & Ep & Hpid & r & t & Ht & Hr & Ho). exists r. split; [apply list_elem_of_In, in_seq; destruct Ht; lia |].
    rewrite (proj2 (Nat.eqb_neq _ _)) by done. apply elem_flat_map. exists prior.
    destruct (proj2 (holds_terminal _ _ Hm (path_id (compact_path s)) r prior)) as (b' & bucket & Eb & Ebk & Hin); [split; [done |]; by exists p, t |].
    assert (b' = b) as -> by congruence. rewrite Ebk. split; [done |].
    rewrite (proj2 (Nat.eqb_neq _ _)) by done. rewrite Ep. destruct Ht as [_ ->]. rewrite (proj2 (Z.leb_le _ _)) by done. by left.
Qed.

Lemma backward_in m pushed current s b prior c :
  holds m pushed -> m !! path_id (compact_path s) = Some b ->
  (prior, c) ∈ backward_pairs summaries b current s <->
  c = current /\ prior <> current /\ prior ∈ pushed /\ in_loop (compact_path s) = true /\ exists p, summary_at prior = Some p /\
    path_id (compact_path p) = path_id (compact_path s) /\
    exists r t, terminal_on s r t /\ r <> initial_index p /\ global_order (initial_write p) < global_order t.
Proof.
  intros Hm Hb. unfold backward_pairs. destruct (in_loop (compact_path s)); cbn [negb]; [|split; [by intros ?%elem_of_nil | by intros (_ & _ & _ & ? & _)]].
  rewrite elem_flat_map. split.
  - intros (r & Hr & H). destruct (terminal_by_resource s !! r) as [[t|]|] eqn:Et; [|by apply elem_of_nil in H..].
    apply elem_flat_map in H as (r' & _ & H). destruct (Nat.eqb_spec r r') as [|Hrr]; [by apply elem_of_nil in H |].
    apply elem_flat_map in H as (q & Hq & H). destruct (Nat.eqb_spec q current) as [|Hne]; [by apply elem_of_nil in H |].
    destruct (summary_at q) as [p|] eqn:Ep; [|by apply elem_of_nil in H].
    destruct (Z.gtb_spec (global_order t) (global_order (initial_write p))); [|by apply elem_of_nil in H].
    apply list_elem_of_singleton in H. injection H as -> ->. destruct (initial b !! r') as [bucket|] eqn:Ebk; [|by apply elem_of_nil in Hq].
    cbn [default from_option] in Hq. unfold id in Hq.
    destruct (proj1 (holds_initial _ _ Hm (path_id (compact_path s)) r' q)) as (Hp & p' & Ep' & Hpid & Hi); [by exists b, bucket |].
    assert (p' = p) as -> by congruence. split_and!; try done. exists p. split_and!; try done. exists r, t.
    apply list_elem_of_In, in_seq in Hr. split_and!; [split; [lia | done] | congruence | lia].
  - intros (-> & Hne & Hp & _ & p & Ep & Hpid & r & t & [Hlt Ht] & Hr & Ho). exists r. split; [apply list_elem_of_In, in_seq; lia |].
    rewrite Ht. apply elem_flat_map. exists (initial_index p). pose proof (initial_index_lt p). split; [apply list_elem_of_In, in_seq; lia |].
    rewrite (proj2 (Nat.eqb_neq _ _)) by done. apply elem_flat_map. exists prior.
    destruct (proj2 (holds_initial _ _ Hm (path_id (compact_path s)) (initial_index p) prior)) as (b' & bucket & Eb & Ebk & Hin); [split; [done |]; by exists p |].
    assert (b' = b) as -> by congruence. rewrite Ebk. split; [done |].
    rewrite (proj2 (Nat.eqb_neq _ _)) by done. rewrite Ep. destruct (Z.gtb_spec (global_order t) (global_order (initial_write p))); [by left | lia].
Qed.

(** No buckets of the path: nothing was released on it. *)
Lemma no_path m pushed s prior p :
  holds m pushed -> m !! path_id (compact_path s) = None -> prior ∈ pushed -> summary_at prior = Some p ->
  path_id (compact_path p) <> path_id (compact_path s).
Proof.
  intros Hm Hn Hp Ep Hpid.
  destruct (proj2 (holds_initial _ _ Hm (path_id (compact_path s)) (initial_index p) prior)) as (b & bucket & Eb & _); [split; [done |]; by exists p |].
  congruence.
Qed.

(** *** The release *)

Lemma release_ok point ends : forall m pushed,
  holds m pushed -> StronglySorted (fun a b => end_at l a <= end_at l b) ends ->
  exists pre rest m', release l summaries point ends m = (rest, m') /\ ends = pre ++ rest /\ holds m' (pushed ++ pre) /\
    (forall e, e ∈ pre -> end_at l e <= point) /\ (forall e, e ∈ rest -> point < end_at l e) /\
    StronglySorted (fun a b => end_at l a <= end_at l b) rest.
Proof.
  induction ends as [|e ends IH]; intros m pushed Hm Hs; cbn [release].
  - exists [], [], m. rewrite !app_nil_r. split_and!; try done; first [by intros ? ?%elem_of_nil | constructor].
  - apply StronglySorted_inv in Hs as [Hs Hall]. destruct (Z.leb_spec (end_at l e) point) as [Hle|Hgt].
    + destruct (IH _ _ (push_holds m pushed e Hm) Hs) as (pre & rest & m' & E & -> & Hm' & Hpre & Hrest & Hs').
      exists (e :: pre), rest, m'. rewrite <- app_assoc in Hm'. split_and!; try done. intros e' [->|H]%elem_of_cons; [done | by apply Hpre].
    + exists [], (e :: ends), m. rewrite app_nil_r. split_and!; try done; [by intros ? ?%elem_of_nil | | by constructor].
      rewrite Forall_forall in Hall. intros e' [->|H]%elem_of_cons; [done |]. specialize (Hall e' H). lia.
Qed.

Lemma sweep_space_in bd : forall ends m pushed prior current,
  holds m pushed -> StronglySorted (fun a b => def_at l a <= def_at l b) bd -> StronglySorted (fun a b => end_at l a <= end_at l b) ends ->
  (forall e c, e ∈ pushed -> c ∈ bd -> end_at l e <= def_at l c) ->
  (prior, current) ∈ sweep_space l summaries bd ends m <->
  current ∈ bd /\ prior ∈ pushed ++ ends /\ end_at l prior <= def_at l current /\ costly_pair prior current.
Proof.
  induction bd as [|c bd IH]; intros ends m pushed prior current Hm Hsd Hse Hpushed; cbn [sweep_space].
  { split; [by intros ?%elem_of_nil | by intros [?%elem_of_nil _]]. }
  destruct (release_ok (def_at l c) ends m pushed Hm Hse) as (pre & rest & m' & -> & -> & Hm' & Hpre & Hrest & Hs').
  apply StronglySorted_inv in Hsd as [Hsd Hall]. rewrite Forall_forall in Hall.
  assert (Hreleased : forall e, e ∈ pushed ++ pre -> end_at l e <= def_at l c).
  { intros e [He|He]%elem_of_app; [apply Hpushed; [done | by left] | by apply Hpre]. }
  assert (Hnow : prior ∈ pushed ++ pre <-> prior ∈ pushed ++ pre ++ rest /\ end_at l prior <= def_at l c).
  { rewrite !elem_of_app. split.
    - intros H. split; [tauto |]. apply Hreleased. by apply elem_of_app.
    - intros [[H|[H|H]] Hle]; [by left | by right |]. apply Hrest in H. lia. }
  assert (HIH := IH rest m' (pushed ++ pre) prior current Hm' Hsd Hs').
  specialize (HIH ltac:(intros e c' He Hc'; specialize (Hreleased e He); specialize (Hall c' Hc'); lia)). rewrite <- app_assoc in HIH.
  rewrite elem_of_cons. destruct (summary_at c) as [s|] eqn:Es.
  2:{ rewrite HIH. split; [intros (? & ?); split; [by right | done] |].
      intros ([->|H] & Hin & Hle & Hcost); [|done]. destruct Hcost as (_ & p & s & _ & E & _). congruence. }
  assert (Hhead : (exists b, m' !! path_id (compact_path s) = Some b /\
      (prior, current) ∈ forward_pairs summaries b c s ++ backward_pairs summaries b c s) <->
    current = c /\ prior ∈ pushed ++ pre /\ costly_pair prior c).
  { split.
    - intros (b & Hb & [H|H]%elem_of_app).
      + apply (forward_in m' _ c s b prior current Hm' Hb) in H as (-> & Hne & Hp & p & Ep & Hpid & H).
        split_and!; [done | done |]. split; [done |]. exists p, s. split_and!; [done | done |]. split; [done | by left].
      + apply (backward_in m' _ c s b prior current Hm' Hb) in H as (-> & Hne & Hp & Hl & p & Ep & Hpid & H).
        split_and!; [done | done |]. split; [done |]. exists p, s. split_and!; [done | done |]. split; [done | by right].
    - intros (-> & Hp & Hne & p & s' & Ep & Es' & Hpid & H). assert (s' = s) as -> by congruence.
      destruct (m' !! path_id (compact_path s)) as [b|] eqn:Eb; [|by destruct (no_path m' _ s prior p Hm' Eb Hp Ep)].
      exists b. split; [done |]. apply elem_of_app. destruct H as [H|[Hl H]]; [left | right].
      + apply (forward_in m' _ c s b prior c Hm' Eb). split_and!; try done. by exists p.
      + apply (backward_in m' _ c s b prior c Hm' Eb). split_and!; try done. by exists p. }
  assert (Hgoal : (exists b, m' !! path_id (compact_path s) = Some b /\
      (prior, current) ∈ forward_pairs summaries b c s ++ backward_pairs summaries b c s) \/
      (current ∈ bd /\ prior ∈ pushed ++ pre ++ rest /\ end_at l prior <= def_at l current /\ costly_pair prior current) <->
    (current = c \/ current ∈ bd) /\ prior ∈ pushed ++ pre ++ rest /\ end_at l prior <= def_at l current /\ costly_pair prior current).
  { rewrite Hhead, Hnow. split.
    - intros [(-> & [Hin Hle] & Hc)|(H & Hr)]; [split; [by left | done] | split; [by right | done]].
    - intros ([->|H] & Hin & Hle & Hc); [left; done | right; done]. }
  rewrite <- Hgoal, <- HIH. destruct (m' !! path_id (compact_path s)) as [b|].
  - rewrite app_assoc, elem_of_app. split; [intros [H|H]; [left; by exists b | by right] |].
    intros [(? & [= <-] & H)|H]; [by left | by right].
  - split; [by right | intros [(? & ? & _)|H]; done].
Qed.

End Found.

(** ** The recognized penalties *)

(** The allocation at [i] is dead when the one at [j] of its space is defined, and
    handing its bytes over crosses pipes. *)
Definition costly_reuse (l : list LifetimeInterval) (summaries : list (option CompactAccessSummary)) (i j : nat) : Prop :=
  exists x y, l !! i = Some x /\ l !! j = Some y /\ memory_space x = memory_space y /\ last_use_point x <= def_point y /\
    costly_pair summaries i j.

Lemma intervals_of_space_in l s i : i ∈ intervals_of_space l s <-> exists x, l !! i = Some x /\ memory_space x = s.
Proof.
  unfold intervals_of_space. split.
  - intros ([i' x] & -> & Hin)%list_elem_of_fmap_1. apply list_elem_of_In, filter_In in Hin as [Hin%list_elem_of_In Hs%bool_decide_eq_true].
    apply indexed_in in Hin. by exists x.
  - intros (x & Hx & Hs). apply (list_elem_of_fmap_2 fst _ (i, x)). apply list_elem_of_In, filter_In. rewrite <- list_elem_of_In, indexed_in.
    by rewrite bool_decide_eq_true_2.
Qed.

Lemma emitted_in l summaries i j : (i, j) ∈ emitted l summaries <-> costly_reuse l summaries i j.
Proof.
  assert (Hspace : forall s, (i, j) ∈ sweep_space l summaries (by_definition l (intervals_of_space l s)) (by_end l (intervals_of_space l s)) ∅ <->
    exists x y, l !! i = Some x /\ l !! j = Some y /\ memory_space x = s /\ memory_space y = s /\ last_use_point x <= def_point y /\ costly_pair summaries i j).
  { intros s. rewrite (sweep_space_in l summaries _ _ ∅ [] i j (holds_none summaries));
      [|by apply (sort_by_first _ (def_at l)) | by apply (sort_by_first _ (end_at l)) | by intros ? ? ?%elem_of_nil].
    cbn [app]. unfold by_definition, by_end. rewrite !sort_by_perm, !intervals_of_space_in. unfold end_at, def_at. split.
    - intros ((y & Hy & Ey) & (x & Hx & Ex) & Hle & Hc). rewrite Hx, Hy in Hle. by exists x, y.
    - intros (x & y & Hx & Hy & Ex & Ey & Hle & Hc). rewrite Hx, Hy. split_and!; [by exists y | by exists x | done | exact Hc]. }
  unfold emitted, costly_reuse. rewrite elem_flat_map. setoid_rewrite Hspace. split.
  - intros (s & _ & x & y & Hx & Hy & Ex & Ey & Hle & Hc). exists x, y. split_and!; try done. congruence.
  - intros (x & y & Hx & Hy & Es & Hle & Hc). exists (memory_space x). split; [destruct (memory_space x); set_solver |].
    by exists x, y.
Qed.

(** The invariant of the emitted penalties. *)
Record emitted_so_far (separated : gset (nat * nat)) (pairs : list (nat * nat)) (acc : gset (nat * nat) * list RecognizedReusePenalty) : Prop := {
  so_far_keys : forall a b, (a, b) ∈ acc.1 <-> (a < b)%nat /\ ((a, b) ∉ separated) /\ ((a, b) ∈ pairs \/ (b, a) ∈ pairs);
  so_far_list : forall r, r ∈ acc.2 <-> (first_interval r, second_interval r) ∈ acc.1 /\ cost r = 1;
  so_far_once : NoDup acc.2
}.

Lemma NormalizePair_lt a b : a <> b -> ((NormalizePair a b).1 < (NormalizePair a b).2)%nat.
Proof. unfold NormalizePair. destruct (Nat.ltb_spec a b); cbn [fst snd]; lia. Qed.

Lemma NormalizePair_eq a b c d : (c < d)%nat -> (c, d) = NormalizePair a b <-> (c, d) = (a, b) \/ (d, c) = (a, b).
Proof.
  intros Hlt. unfold NormalizePair. destruct (Nat.ltb_spec a b); split.
  - by left. - intros [E|[= -> ->]]; [done | lia]. - intros [= -> ->]. by right. - intros [[= -> ->]|[= -> ->]]; [lia | done].
Qed.

Lemma emit_ok separated pairs acc pair_ :
  emitted_so_far separated pairs acc -> emitted_so_far separated (pairs ++ [pair_]) (emit separated acc pair_).
Proof.
  intros [Hk Hl Hn]. destruct pair_ as [i j]. unfold emit.
  assert (Hsame : (forall a b, (a < b)%nat -> (a, b) ∉ separated -> (a, b) = NormalizePair i j -> (a, b) ∈ acc.1) ->
    emitted_so_far separated (pairs ++ [(i, j)]) acc).
  { intros Hno. split; [|done|done]. intros a b. rewrite Hk, !in_snoc. split; [tauto |].
    intros (Hlt & Hs & [[H|H]|[H|H]]); [tauto | | tauto |]; apply Hk, Hno; try done; apply NormalizePair_eq; auto. }
  destruct (Nat.eqb_spec i j) as [->|Hne].
  { apply Hsame. intros a b Hlt _ E. unfold NormalizePair in E. rewrite Nat.ltb_irrefl in E. injection E as -> ->. lia. }
  case_bool_decide as Hsep; [apply Hsame; intros a b _ Hs E; by rewrite <- E in Hsep |].
  case_bool_decide as Hin; [apply Hsame; intros a b _ _ E; by rewrite E |].
  pose proof (NormalizePair_lt i j Hne) as Hlt. set (key := NormalizePair i j) in *. split; cbn [fst snd].
  - intros a b. rewrite elem_of_union, elem_of_singleton, Hk, !in_snoc. split.
    + intros [E|H]; [|tauto]. rewrite E in *. cbn [fst snd] in Hlt. destruct key as [c d] eqn:Ek. injection E as -> ->. split; [done |]. split; [done |].
      assert (E' : (c, d) = NormalizePair i j) by done. apply NormalizePair_eq in E' as [E'|E']; [left; by right | right; by right | done].
    + intros (Hab & Hs & [[H|H]|[H|H]]); [tauto | left | tauto | left]; apply NormalizePair_eq; auto.
  - intros r. rewrite in_snoc, elem_of_union, elem_of_singleton, Hl. split.
    + intros [[? ?]| ->]; [tauto |]. cbn. split; [left; by destruct key | done].
    + intros [[E|H] Hc]; [right | by left]. destruct r. cbn in *. subst. by rewrite <- E.
  - apply NoDup_app. split_and!; [done | | apply NoDup_singleton]. intros r [Hr _]%Hl ->%list_elem_of_singleton. cbn in Hr. by destruct key.
Qed.

Lemma emits_ok separated rest : forall pairs acc,
  emitted_so_far separated pairs acc -> emitted_so_far separated (pairs ++ rest) (foldl (emit separated) acc rest).
Proof.
  induction rest as [|p rest IH]; intros pairs acc H; cbn [foldl]; [by rewrite app_nil_r |].
  rewrite cons_middle, app_assoc. by apply IH, emit_ok.
Qed.

Lemma emits_start separated : emitted_so_far separated [] (∅, []).
Proof.
  split; cbn [fst snd].
  - intros a b. split; [by intros ?%elem_of_empty | intros (_ & _ & [?%elem_of_nil|?%elem_of_nil]); done].
  - intros r. split; [by intros ?%elem_of_nil | by intros [?%elem_of_empty _]].
  - constructor.
Qed.

Lemma separated_in plan a b : (a < b)%nat ->
  (a, b) ∈ (list_to_set (map (fun s => NormalizePair (as_first s) (as_second s)) (plan_separations plan)) : gset (nat * nat)) <-> kept_apart plan a b.
Proof.
  intros Hlt. rewrite elem_of_list_to_set. unfold kept_apart, between. split.
  - intros (s & E & Hs)%list_elem_of_fmap_1. exists s. split; [done |]. apply NormalizePair_eq in E as [[= -> ->]|[= -> ->]]; auto.
  - intros (s & Hs & H). apply list_elem_of_fmap. exists s. split; [|done]. apply NormalizePair_eq; [done |].
    destruct H as [[-> ->]|[-> ->]]; auto.
Qed.

(** No allocation that is never read is defined together with another one of its space. *)
Definition dead_alone (l : list LifetimeInterval) : Prop :=
  forall i j x y, l !! i = Some x -> l !! j = Some y -> i <> j -> memory_space x = memory_space y ->
    def_point x = last_use_point x -> def_point x <> def_point y.

(** C25: The bucketed sweep finds exactly the costly pairs, each once: two allocations of
    one space that no separation keeps apart, on one structured path, where the second is
    defined after the first has ended and is first written by another pipe than one that
    last accessed the first, or the first is written again in the next iteration after
    another pipe's last access. When moreover lifetimes are ordered and no allocation that
    is never read is defined together with another one of its space (dead_alone), the pairs
    are in range with costs of at least zero, and never live together; without dead_alone
    two of them may. *)
Theorem RecognizeReusePenalties_spec plan collected :
  let summaries := map CompactSummary collected in
  let found := RecognizeReusePenalties plan collected in
  NoDup found /\
  (forall r, r ∈ found <-> cost r = 1 /\ (first_interval r < second_interval r)%nat /\
     ~ kept_apart plan (first_interval r) (second_interval r) /\
     (costly_reuse (intervals plan) summaries (first_interval r) (second_interval r) \/
      costly_reuse (intervals plan) summaries (second_interval r) (first_interval r))) /\
  (dead_alone (intervals plan) -> (forall x, x ∈ intervals plan -> interval_ok x) ->
     Forall (recognized_ok (intervals plan)) found /\
     forall r x y, r ∈ found -> intervals plan !! first_interval r = Some x -> intervals plan !! second_interval r = Some y -> ~ co_live x y).
Proof.
  cbv zeta. set (summaries := map CompactSummary collected).
  assert (Hspec : NoDup (RecognizeReusePenalties plan collected) /\
    forall r, r ∈ RecognizeReusePenalties plan collected <-> cost r = 1 /\ (first_interval r < second_interval r)%nat /\
     ~ kept_apart plan (first_interval r) (second_interval r) /\
     (costly_reuse (intervals plan) summaries (first_interval r) (second_interval r) \/
      costly_reuse (intervals plan) summaries (second_interval r) (first_interval r))).
  { unfold RecognizeReusePenalties. destruct (intervals plan) as [|l0 ls] eqn:El.
    - split; [constructor |]. intros r. split; [by intros ?%elem_of_nil |].
      intros (_ & _ & _ & [(? & ? & H & _)|(? & ? & H & _)]); by rewrite lookup_nil in H.
    - rewrite <- El. fold summaries. pose proof (emits_ok _ (emitted (intervals plan) summaries) [] _
        (emits_start (list_to_set (map (fun s => NormalizePair (as_first s) (as_second s)) (plan_separations plan))))) as [Hk Hl Hn].
      cbn [app] in *. split; [done |]. intros r. rewrite Hl, Hk, !emitted_in. split.
      + intros ((Hlt & Hs & H) & Hc). rewrite separated_in in Hs by done. done.
      + intros (Hc & Hlt & Hs & H). rewrite separated_in by done. done. }
  destruct Hspec as [Hn Hin]. split; [done |]. split; [done |]. intros Hdead Hok. split.
  - apply Forall_forall. intros r (Hc & _ & _ & [(x & y & Hx & Hy & _)|(x & y & Hx & Hy & _)])%Hin;
      (split; [by eexists | by eexists | lia]).
  - assert (Hone : forall i j x y, intervals plan !! i = Some x -> intervals plan !! j = Some y -> costly_reuse (intervals plan) summaries i j -> ~ co_live x y).
    { intros i j x y Hx Hy (x' & y' & Hx' & Hy' & Hs & Hle & Hne & _) [H1 H2].
      assert (x' = x) as -> by congruence. assert (y' = y) as -> by congruence.
      pose proof (Hok x ltac:(by eapply list_elem_of_lookup_2)) as Hxok. unfold interval_ok in Hxok.
      apply (Hdead i j x y); try done; lia. }
    intros r x y (_ & _ & _ & [Hc|Hc])%Hin Hx Hy; [by eapply Hone |]. intros [H1 H2]. by apply (Hone _ _ _ _ Hy Hx Hc).
Qed.

(** ** Compact summaries *)

Lemma min_order_spec l : forall least,
  (min_order least l = least \/ min_order least l ∈ l) /\ global_order (min_order least l) <= global_order least /\
  forall e, e ∈ l -> global_order (min_order least l) <= global_order e.
Proof.
  induction l as [|e l IH]; intros least; cbn [min_order]; [split_and!; [by left | lia | by intros ? ?%elem_of_nil] |].
  destruct (IH (if global_order e <? global_order least then e else least)) as (H1 & H2 & H3).
  destruct (Z.ltb_spec (global_order e) (global_order least)); split_and!; try lia.
  - right. destruct H1 as [->|H1]; [by left | by right]. 
  - intros e' [->|H']%elem_of_cons; [done | by apply H3].
  - destruct H1 as [->|H1]; [by left | right; by right].
  - intros e' [->|H']%elem_of_cons; [lia | by apply H3].
Qed.

Lemma find_initial_spec earliest l : forall found w,
  find_initial earliest found l = Some w ->
  (found = Some w \/ w ∈ l /\ global_order w = earliest) /\
  (forall e, e ∈ l -> global_order e = earliest -> access_kind e = Write /\ resource e = resource w) /\
  (forall f, found = Some f -> resource f = resource w).
Proof.
  induction l as [|e l IH]; intros found w Hw; cbn [find_initial] in Hw.
  - split_and!; [by left | by intros ? ?%elem_of_nil | intros f ->; by injection Hw as ->].
  - destruct (Z.eqb_spec (global_order e) earliest) as [He|He]; cbn [negb] in Hw.
    2:{ apply IH in Hw as (H1 & H2 & H3). split_and!; [destruct H1 as [?|[? ?]]; [by left | right; split; [by right | done]] | | done].
        intros e' [->|H']%elem_of_cons Ho; [done | by apply H2]. }
    case_bool_decide as Hk; cbn [negb] in Hw; [|done].
    assert (Hgo : find_initial earliest (Some e) l = Some w /\ forall f, found = Some f -> resource f = resource e).
    { destruct found as [f|]; [|done]. case_bool_decide as Hr; cbn [negb] in Hw; [|done]. split; [done |]. by intros ? [= <-]. }
    destruct Hgo as [(H1 & H2 & H3)%IH Hf]. specialize (H3 e eq_refl). split_and!.
    + right. destruct H1 as [[= <-]|[? ?]]; [split; [by left | done] | split; [by right | done]].
    + intros e' [->|H']%elem_of_cons Ho; [done | by apply H2].
    + intros f Ef. by rewrite (Hf f Ef).
Qed.

(** [e] is not after [t]: it is earlier, or at the same point and not a write where
    [t] is a read. *)
Definition not_after (e t : AccessEndpoint) : Prop :=
  global_order e < global_order t \/
  global_order e = global_order t /\ (access_kind t = Read -> access_kind e = Read).

Lemma replaces_not_after t e : replaces (Some t) e = false <-> not_after e t.
Proof.
  unfold replaces, not_after. destruct (Z.ltb_spec (global_order t) (global_order e)); cbn [orb]; [split; [done | lia] |].
  destruct (Z.eqb_spec (global_order t) (global_order e)) as [E|E]; cbn [andb]; [|split; [lia | done]].
  destruct (access_kind t), (access_kind e); vm_compute bool_decide; cbn [andb]; split; intros; try done; try (right; by split);
    destruct H0 as [|[_ Hk]]; [lia | by specialize (Hk eq_refl)].
Qed.

(** The last access on each pipe. *)
Definition last_on (l : list AccessEndpoint) (r : nat) (t : option AccessEndpoint) : Prop :=
  match t with
  | None => forall e, e ∈ l -> ResourceIndex (resource e) <> r
  | Some t => t ∈ l /\ ResourceIndex (resource t) = r /\ forall e, e ∈ l -> ResourceIndex (resource e) = r -> not_after e t
  end.

Lemma not_after_trans e t t' : not_after e t -> not_after t t' -> not_after e t'.
Proof. unfold not_after. intros [?|[? ?]] [?|[? ?]]; [left; lia.. |]. right. split; [congruence | auto]. Qed.

Lemma replaces_after t e : replaces (Some t) e = true -> not_after t e.
Proof.
  unfold replaces, not_after. intros [?%Z.ltb_lt|[[->%Z.eqb_eq ?]%andb_prop ?]%andb_prop]%orb_prop; [by left |].
  right. split; [done |]. repeat (case_bool_decide; [|done]). congruence.
Qed.

Lemma not_after_refl e : not_after e e.
Proof. right. by split. Qed.

Lemma record_terminals_spec rest : forall done terminals,
  length terminals = kResourceCount -> (forall r t, terminals !! r = Some t -> last_on done r t) ->
  forall r t, foldl record_terminal terminals rest !! r = Some t -> last_on (done ++ rest) r t.
Proof.
  induction rest as [|e rest IH]; intros done terminals Hlen H r t Hr; cbn [foldl] in Hr; [rewrite app_nil_r; by apply H |].
  rewrite cons_middle, app_assoc. eapply IH; [|clear r t Hr|exact Hr].
  { unfold record_terminal. by rewrite length_alter. }
  intros r t Hr. unfold record_terminal in Hr. destruct (decide (r = ResourceIndex (resource e))) as [->|Hne].
  - rewrite list_lookup_alter_eq in Hr. destruct (terminals !! ResourceIndex (resource e)) as [old|] eqn:Eo; [|done].
    cbn [fmap option_fmap option_map] in Hr. injection Hr as <-. specialize (H _ _ Eo). destruct (replaces old e) eqn:Er.
    + split_and!; [apply in_snoc; by right | done |]. intros e' [He'| ->]%in_snoc Hr'; [|apply not_after_refl].
      destruct old as [old|]; [|by apply H in He']. destruct H as (_ & _ & H). eapply not_after_trans; [by apply H | by apply replaces_after].
    + destruct old as [old|]; [|done]. destruct H as (H1 & H2 & H3). split_and!; [apply in_snoc; by left | done |].
      intros e' [He'| ->]%in_snoc Hr'; [by apply H3 | by apply replaces_not_after].
  - rewrite list_lookup_alter_ne in Hr by congruence. specialize (H _ _ Hr). destruct t as [t|].
    + destruct H as (H1 & H2 & H3). split_and!; [apply in_snoc; by left | done |]. intros e' [He'| ->]%in_snoc Hr'; [by apply H3 | congruence].
    + intros e' [He'| ->]%in_snoc; [by apply H | congruence].
Qed.

(** What a compact summary needs: the accesses are known, whole and on one path,
    and the first ones are writes of one pipe. *)
Record compactable (s : AllocationAccessSummary) (path : StructuredPath) (pipe : PipeType) : Prop := {
  ca_known : has_unknown_access s = false;
  ca_some : accesses s <> [];
  ca_whole : forall e, e ∈ accesses s -> path_id (access_path e) = path_id path /\ full_allocation e = true;
  ca_first : forall e, e ∈ accesses s -> (forall e', e' ∈ accesses s -> global_order e <= global_order e') ->
    access_kind e = Write /\ resource e = pipe
}.

Lemma find_initial_some earliest pipe l : forall found,
  (forall w, found = Some w -> resource w = pipe) ->
  (forall e, e ∈ l -> global_order e = earliest -> access_kind e = Write /\ resource e = pipe) ->
  found <> None \/ (exists e, e ∈ l /\ global_order e = earliest) -> find_initial earliest found l <> None.
Proof.
  induction l as [|e l IH]; intros found Hf Hall Hex; cbn [find_initial].
  - destruct Hex as [|(? & ?%elem_of_nil & _)]; done.
  - destruct (Z.eqb_spec (global_order e) earliest) as [He|He]; cbn [negb].
    + destruct (Hall e ltac:(by left) He) as [-> Hr]. cbn [bool_decide_eq_true_2]. rewrite bool_decide_eq_true_2 by done. cbn [negb].
      assert (Hgo : find_initial earliest (Some e) l <> None).
      { apply IH; [by intros ? [= <-] | intros e' He'; apply Hall; by right | by left]. }
      destruct found as [w|]; [|done]. rewrite bool_decide_eq_true_2 by (rewrite Hr; by apply Hf). done.
    + apply IH; [done | intros e' He'; apply Hall; by right |].
      destruct Hex as [Hn|(e' & [->|He']%elem_of_cons & Ho)]; [by left | done | right; by exists e'].
Qed.

Lemma CompactSummary_some s path pipe : compactable s path pipe -> CompactSummary s <> None.
Proof.
  intros [Hk Hs Hw Hf]. unfold CompactSummary. rewrite Hk. destruct (accesses s) as [|front rest] eqn:Ea; [done |].
  destruct (existsb _ _) eqn:Ex.
  { apply existsb_exists in Ex as (e & He%list_elem_of_In & Hb). destruct (Hw e He) as [Hp Hfull].
    destruct (Hw front ltac:(by left)) as [Hp' _]. rewrite Hp, Hp', Hfull, Z.eqb_refl in Hb. done. }
  destruct (min_order_spec rest front) as (Hin & Hfront & Hleast).
  assert (Hmin : forall e, e ∈ front :: rest -> global_order (min_order front rest) <= global_order e).
  { intros e [->|He]%elem_of_cons; [done | by apply Hleast]. }
  destruct (find_initial _ None (front :: rest)) eqn:Ei; [done |]. exfalso. revert Ei.
  apply (find_initial_some _ pipe); [done | | right].
  - intros e He Ho. apply Hf; [done |]. intros e' He'. rewrite Ho. by apply Hmin.
  - exists (min_order front rest). split; [|done]. destruct Hin as [->|Hin]; [by left | by right].
Qed.

(** C37: A compact summary exists exactly when all accesses are known, whole and on one path
    and the earliest are writes of one pipe; then its initial write is one of the earliest
    and it keeps for each pipe a last access of that pipe, a write where one is among them. *)
Theorem CompactSummary_spec s :
  match CompactSummary s with
  | Some c =>
      compactable s (compact_path c) (resource (initial_write c)) /\
      initial_write c ∈ accesses s /\ (forall e, e ∈ accesses s -> global_order (initial_write c) <= global_order e) /\
      length (terminal_by_resource c) = kResourceCount /\
      forall r t, terminal_by_resource c !! r = Some t -> last_on (accesses s) r t
  | None => forall path pipe, ~ compactable s path pipe
  end.
Proof.
  destruct (CompactSummary s) as [c|] eqn:Ec; [|by intros path pipe ?%CompactSummary_some].
  revert Ec. unfold CompactSummary. destruct (has_unknown_access s) eqn:Ek; [done |]. destruct (accesses s) as [|front rest] eqn:Ea; [done |].
  destruct (existsb _ _) eqn:Ex; [done |]. destruct (find_initial _ None (front :: rest)) as [w|] eqn:Ew; [|done].
  intros [= <-]. cbn [compact_path initial_write terminal_by_resource].
  apply find_initial_spec in Ew as ([?|[Hw Ho]] & Hfirst & _); [done |].
  destruct (min_order_spec rest front) as (Hin & Hfront & Hleast).
  assert (Hmin : forall e, e ∈ front :: rest -> global_order w <= global_order e).
  { intros e He. rewrite Ho. apply elem_of_cons in He as [->|He]; [done | by apply Hleast]. }
  split_and!; [|done|done|..].
  - split; [done | by rewrite Ea |..]; rewrite Ea.
    + intros e He.
      assert (Hf : (negb (path_id (access_path e) =? path_id (access_path front)) || negb (full_allocation e)) = false).
      { destruct (_ || _) eqn:E; [|done]. rewrite <- Ex. symmetry. apply existsb_exists. exists e. split; [by apply list_elem_of_In | done]. }
      apply orb_false_iff in Hf as [H1%negb_false_iff%Z.eqb_eq H2%negb_false_iff]. done.
    + intros e He Hall. apply Hfirst; [done |]. pose proof (Hmin e He). pose proof (Hall w Hw). lia.
  - assert (Hlen : forall l0 ts, length (foldl record_terminal ts l0) = length ts).
    { induction l0 as [|e l0 IH]; intros ts; cbn [foldl]; [done |]. rewrite IH. unfold record_terminal. by rewrite length_alter. }
    rewrite Hlen. unfold record_terminal. by rewrite length_alter.
  - intros r t Ht. apply (record_terminals_spec (front :: rest) [] (replicate kResourceCount None)); [done | | exact Ht].
    intros r' t' [-> _]%lookup_replicate. by intros e ?%elem_of_nil.
Qed.

(** Two tiles written by the vector unit, the first one read by it and the second
    one stored. *)
Definition example_accesses (in_loop : bool) : list AllocationAccessSummary :=
  let at_ order pipe kind := MkAccess order pipe kind (MkPath 1 in_loop) true in
  [MkSummary [at_ 0 PipeV Write; at_ 1 PipeV Read] false; MkSummary [at_ 2 PipeV Write; at_ 3 MTE3 Read] false].

Definition example_tiles : AllocationPlan :=
  MkPlan (map (fun '(v, def, last) => MkLifetime v None def last Vec 64) [(1%positive, 0, 1); (2%positive, 2, 3)]) [].

(** One pipe hands the bytes over to itself; in a loop the first tile of the next
    iteration overwrites what is being stored. *)
Example example_found :
  RecognizeReusePenalties example_tiles (example_accesses false) = [] /\
  RecognizeReusePenalties example_tiles (example_accesses true) = [MkRecognized 0 1 1].
Proof. by vm_compute. Qed.
