(* ===== verification/Stmt.v ===== *)
(** * Statements

    The part of [include/pypto/ir/type.h], [expr.h] and [stmt.h] the memory passes
    read, the variables of an expression as [IRVisitor] meets them
    ([src/ir/transforms/visitor.cpp]), and the accessors of
    [transforms/utils/transform_utils.h] and [memref_collectors.h]. *)

From Stdlib Require Import ZArith Lia Bool List String.
From stdpp Require Import base gmap list option strings.
From S2P Require Import Prelude Dtype ScalarExpr Storage Memref.

#[local] Set Warnings "-register-all".

(** ** Types, variables, expressions *)

(** A node is its members with its address where the address is used.  Attributes
    that refer to variables are kept as the expressions [ForEachAttrExpr] reports;
    of the others a call keeps its pipeline membership and its [pinned] argument,
    a loop whether it is a software pipeline.  A callee is a registered operator
    or, with the same name perhaps, a function. *)
Record Op := MkOp { op_name : string; is_function : bool }.

Inductive IRType : Set :=
  | TensorType (shape : list IRExpr) (memref : option MemRef)
  | TileType (dtype : DataType) (memref : option MemRef) (memory_space : option MemorySpace)
  | OtherShapedType (memref : option MemRef)
  | TupleType
  | ScalarType
  | OtherType
with IRVar : Set := MkVar (var_id : positive) (var_type : IRType)
with IRExpr : Set :=
  | VarExpr (v : IRVar)
  | IterArg (v : IRVar) (initValue : IRExpr)
  | MemRefExpr
  | WindowBuffer
  | ConstIntExpr (value : Z)
  | ConstFloatExpr
  | ConstBoolExpr (value : bool)
  | Call (op : Op) (args attrs : list IRExpr) (type : IRType) (pipeline_membership : string) (pinned : bool)
  | Submit (op : Op) (args deps : list IRExpr) (core_num predicate : option IRExpr) (attrs : list IRExpr) (type : IRType)
  | MakeTuple (elements : list IRExpr)
  | TupleGetItemExpr (tuple : IRExpr) (index : Z) (type : IRType)
  | BinaryExpr (left_ right_ : IRExpr)
  | UnaryExpr (operand : IRExpr).

Definition var_id (v : IRVar) : positive := match v with MkVar i _ => i end.
Definition GetType (v : IRVar) : IRType := match v with MkVar _ t => t end.

(** The type of an expression. *)
Definition ExprType (e : IRExpr) : IRType :=
  match e with
  | VarExpr v | IterArg v _ => GetType v
  | Call _ _ _ type _ _ | Submit _ _ _ _ _ _ type | TupleGetItemExpr _ _ type => type
  | MakeTuple _ => TupleType
  | MemRefExpr | WindowBuffer => OtherType
  | _ => ScalarType
  end.

(** [IsOp]: the operator has the name. *)
Definition IsOp (op : Op) (name : string) : bool := String.eqb (op_name op) name.

Definition GetTypeMemRef (t : IRType) : option MemRef :=
  match t with TensorType _ m | TileType _ m _ | OtherShapedType m => m | _ => None end.

(** The reference of a tile type, if it is one and carries one. *)
Definition tile_memref (v : IRVar) : option MemRef :=
  match GetType v with TileType _ m _ => m | _ => None end.

Definition is_tile (v : IRVar) : bool := match GetType v with TileType _ _ _ => true | _ => false end.

(** A bound name. *)
Definition AsVarLike (e : IRExpr) : option IRVar :=
  match e with VarExpr v | IterArg v _ => Some v | _ => None end.

(** The variables [VisitVarLike_] is called on, each with whether it is a carried
    name; the dimensions of a tensor's type are visited too. *)
Fixpoint mentions (e : IRExpr) : list (bool * IRVar) :=
  match e with
  | VarExpr v => (false, v) :: var_mentions v
  | IterArg v init => (true, v) :: var_mentions v ++ mentions init
  | MemRefExpr | WindowBuffer | ConstIntExpr _ | ConstFloatExpr | ConstBoolExpr _ => []
  | Call _ args attrs _ _ _ => flat_map mentions args ++ flat_map mentions attrs
  | Submit _ args deps core_num predicate attrs _ =>
      flat_map mentions args ++ flat_map mentions deps
      ++ match core_num with Some e => mentions e | None => [] end
      ++ match predicate with Some e => mentions e | None => [] end ++ flat_map mentions attrs
  | MakeTuple elements => flat_map mentions elements
  | TupleGetItemExpr tuple _ _ => mentions tuple
  | BinaryExpr left_ right_ => mentions left_ ++ mentions right_
  | UnaryExpr operand => mentions operand
  end
with var_mentions (v : IRVar) : list (bool * IRVar) := match v with MkVar _ t => type_mentions t end
with type_mentions (t : IRType) : list (bool * IRVar) :=
  match t with TensorType shape _ => flat_map mentions shape | _ => [] end.

Definition vars (e : IRExpr) : list IRVar := map snd (mentions e).

(** ** Statements *)

Inductive ScopeKind :=
  InCoreScope | ClusterScope | RegScope | GraphScope | HierarchyScope | SpmdScope | SplitAivScope | RuntimeScope
  | CommDomainScope.

(** The header of a [for] is its start, stop and step. *)
Inductive Stmt :=
  | SeqStmts (stmts : list Stmt)
  | AssignStmt (var : IRVar) (value : IRExpr)
  | EvalStmt (expr : IRExpr)
  | YieldStmt (value : list IRExpr)
  | ReturnStmt (value : list IRExpr)
  | IfStmt (condition : IRExpr) (then_body : Stmt) (else_body : option Stmt) (return_vars : list IRVar)
  | ForStmt (loop_var : IRVar) (header : list IRExpr) (iter_args : list (IRVar * IRExpr)) (body : Stmt)
      (return_vars : list IRVar) (software_pipeline : bool)
  | WhileStmt (condition : IRExpr) (iter_args : list (IRVar * IRExpr)) (body : Stmt) (return_vars : list IRVar)
  | ScopeStmt (kind : ScopeKind) (attrs : list IRExpr) (body : Stmt)
  | BreakStmt
  | ContinueStmt
  | InlineStmt.

(** Induction over the statements of a sequence too. *)
Section Induction.
Context (P : Stmt -> Prop)
  (HSeq : forall stmts, Forall P stmts -> P (SeqStmts stmts))
  (HAssign : forall v e, P (AssignStmt v e)) (HEval : forall e, P (EvalStmt e))
  (HYield : forall l, P (YieldStmt l)) (HReturn : forall l, P (ReturnStmt l))
  (HIf : forall c t e rvs, P t -> (forall s, e = Some s -> P s) -> P (IfStmt c t e rvs))
  (HFor : forall v h ias b rvs p, P b -> P (ForStmt v h ias b rvs p))
  (HWhile : forall c ias b rvs, P b -> P (WhileStmt c ias b rvs))
  (HScope : forall k a b, P b -> P (ScopeStmt k a b))
  (HBreak : P BreakStmt) (HContinue : P ContinueStmt) (HInline : P InlineStmt).

Fixpoint Stmt_nested_ind (s : Stmt) : P s.
Proof.
  destruct s as [stmts| | | | |c t e rvs| | | | | |].
  - apply HSeq. induction stmts as [|s stmts IH]; constructor; [apply Stmt_nested_ind | exact IH].
  - apply HAssign. - apply HEval. - apply HYield. - apply HReturn.
  - apply HIf; [apply Stmt_nested_ind |]. destruct e as [e|]; intros s Hs; [|discriminate].
    injection Hs as <-. apply Stmt_nested_ind.
  - apply HFor, Stmt_nested_ind. - apply HWhile, Stmt_nested_ind. - apply HScope, Stmt_nested_ind.
  - apply HBreak. - apply HContinue. - apply HInline.
Qed.
End Induction.

(** The values of the trailing yield. *)
Fixpoint GetLastYieldStmt (body : Stmt) : option (list IRExpr) :=
  match body with
  | SeqStmts stmts =>
      (fix last_of (l : list Stmt) : option (list IRExpr) :=
        match l with [] => None | [s] => GetLastYieldStmt s | _ :: l => last_of l end) stmts
  | ScopeStmt (RuntimeScope | SplitAivScope) _ body => GetLastYieldStmt body
  | YieldStmt value => Some value
  | _ => None
  end.

(** The statements of the top level. *)
Definition FlattenToStmts (body : Stmt) : list Stmt := match body with SeqStmts stmts => stmts | _ => [body] end.

(** ** Allocation statements *)

Definition is_alloc (op : Op) : bool := IsOp op "tile.alloc" || IsOp op "tensor.alloc".

(** [CollectAllocSizes]: the first declaration of a base counts. *)
Definition collect_alloc (sizes : gmap positive Z) (statement : Stmt) : gmap positive Z :=
  match statement with
  | AssignStmt v (Call op (_ :: ConstIntExpr size :: _) _ _ _ _) =>
      if is_alloc op && (size >? 0)
      then match sizes !! var_id v with None => <[ var_id v := size ]> sizes | Some _ => sizes end
      else sizes
  | _ => sizes
  end.
Definition CollectAllocSizes (body : Stmt) : gmap positive Z := foldl collect_alloc ∅ (FlattenToStmts body).

(** The base of an allocation its author declared. *)
Definition GetPinnedAllocBase (statement : Stmt) : option IRVar :=
  match statement with
  | AssignStmt v (Call op _ _ _ _ pinned) => if is_alloc op && pinned then Some v else None
  | _ => None
  end.
