(* ===== verification/Lifetime.v ===== *)
(** * Lifetimes of allocations

    [src/ir/transforms/memory_reuse/lifetime_analysis.cpp]: the walk that numbers
    the leaf statements of a body and records definitions, uses, loops, the
    results of loops and branches; the extension of lifetimes over loops; the
    merging of the variables of one allocation.  [ParsePipelineMembership] of
    [transforms/utils/attrs.h]. *)

From Stdlib Require Import ZArith Lia Bool List String Ascii.
From stdpp Require Import base gmap list option strings pretty.
From S2P Require Import Prelude Dtype ScalarExpr Storage Dsa Memref DsaAdapter Stmt.

(** ** Pipeline membership *)

Definition is_digit (a : ascii) : bool := (48 <=? Z.of_nat (nat_of_ascii a)) && (Z.of_nat (nat_of_ascii a) <=? 57).

(** What [std::isspace] accepts. *)
Definition is_space (a : ascii) : bool :=
  let n := Z.of_nat (nat_of_ascii a) in (n =? 32) || ((9 <=? n) && (n <=? 13)).

Fixpoint skip_spaces (s : string) : string :=
  match s with String a s' => if is_space a then skip_spaces s' else s | EmptyString => EmptyString end.

(** The digits at the front and what follows them. *)
Fixpoint take_digits (value : Z) (s : string) : Z * string :=
  match s with
  | String a s' => if is_digit a then take_digits (10 * value + (Z.of_nat (nat_of_ascii a) - 48)) s' else (value, s)
  | EmptyString => (value, s)
  end.

(** [std::stol] on the whole string: [None] when it throws or leaves characters. *)
Definition stol (s : string) : option Z :=
  let s := skip_spaces s in
  let '(negative, s) :=
    match s with
    | String "-" s' => (true, s')
    | String "+" s' => (false, s')
    | _ => (false, s)
    end in
  match s with
  | String a _ =>
      if is_digit a then
        let '(magnitude, rest) := take_digits 0 s in
        let value := if negative : bool then - magnitude else magnitude in
        match rest with
        | EmptyString => if (INT64_MIN <=? value) && (value <=? INT64_MAX) then Some value else None
        | _ => None
        end
      else None
  | EmptyString => None
  end.

Definition try_parse_int (s : string) : option Z := wrap_signed 32 <$> stol s.

(** The pieces between the separators. *)
Fixpoint split_on (separator : ascii) (s : string) : list string :=
  match s with
  | EmptyString => [EmptyString]
  | String a s' =>
      if Ascii.eqb a separator then EmptyString :: split_on separator s'
      else match split_on separator s' with
      | piece :: rest => String a piece :: rest
      | [] => [String a EmptyString]
      end
  end.

(** At the first separator. *)
Fixpoint cut_at (separator : ascii) (s : string) : option (string * string) :=
  match s with
  | EmptyString => None
  | String a s' =>
      if Ascii.eqb a separator then Some (EmptyString, s')
      else '(before, after) ← cut_at separator s'; Some (String a before, after)
  end.

Definition parse_pair (token : string) : option (Z * Z) :=
  '(before, after) ← cut_at ":" token; g ← try_parse_int before; s ← try_parse_int after; Some (g, s).

(** An empty last piece holds no pair. *)
Definition ParsePipelineMembership (packed : string) : list (Z * Z) := omap parse_pair (split_on ";" packed).

Definition AppendPipelineMembership (packed : string) (group stage : Z) : string :=
  let pair := (pretty group ++ ":" ++ pretty stage)%string in
  if String.eqb packed EmptyString then pair else (packed ++ ";" ++ pair)%string.

(** ** The walk *)

(** The members of [LifetimeAnalyzer]. *)
Record LifetimeAnalyzer := MkLifetimeAnalyzer {
  current_order : Z;
  loop_scopes : list (Z * Z);
  ordered_defs : list IRVar;
  var_def_order : gmap positive Z;
  var_raw_last_use : gmap positive Z;
  var_def_stmt : gmap positive IRExpr;
  return_var_to_init_var : gmap positive positive;
  var_family_ids : gmap positive (gset Z);
  next_family_id : Z;
  phi_local_sources : gmap positive (list positive)
}.

Definition no_lifetimes : LifetimeAnalyzer := MkLifetimeAnalyzer 0 [] [] ∅ ∅ ∅ ∅ ∅ 0 ∅.

(** [current_order_++]. *)
Definition next_order (a : LifetimeAnalyzer) : LifetimeAnalyzer :=
  MkLifetimeAnalyzer (current_order a + 1) (loop_scopes a) (ordered_defs a) (var_def_order a) (var_raw_last_use a)
    (var_def_stmt a) (return_var_to_init_var a) (var_family_ids a) (next_family_id a) (phi_local_sources a).

Definition with_loop (a : LifetimeAnalyzer) (scope : Z * Z) : LifetimeAnalyzer :=
  MkLifetimeAnalyzer (current_order a) (loop_scopes a ++ [scope]) (ordered_defs a) (var_def_order a) (var_raw_last_use a)
    (var_def_stmt a) (return_var_to_init_var a) (var_family_ids a) (next_family_id a) (phi_local_sources a).

(** A definition at an order; a parameter has no statement. *)
Definition with_def (a : LifetimeAnalyzer) (v : IRVar) (order : Z) (value : option IRExpr) : LifetimeAnalyzer :=
  MkLifetimeAnalyzer (current_order a) (loop_scopes a) (ordered_defs a ++ [v]) (<[ var_id v := order ]> (var_def_order a))
    (var_raw_last_use a) (match value with Some e => <[ var_id v := e ]> (var_def_stmt a) | None => var_def_stmt a end)
    (return_var_to_init_var a) (var_family_ids a) (next_family_id a) (phi_local_sources a).

Definition with_use (a : LifetimeAnalyzer) (v : positive) (order : Z) : LifetimeAnalyzer :=
  MkLifetimeAnalyzer (current_order a) (loop_scopes a) (ordered_defs a) (var_def_order a)
    (<[ v := Z.max (default 0 (var_raw_last_use a !! v)) order ]> (var_raw_last_use a)) (var_def_stmt a)
    (return_var_to_init_var a) (var_family_ids a) (next_family_id a) (phi_local_sources a).

Definition with_carry (a : LifetimeAnalyzer) (rv init : positive) : LifetimeAnalyzer :=
  MkLifetimeAnalyzer (current_order a) (loop_scopes a) (ordered_defs a) (var_def_order a) (var_raw_last_use a)
    (var_def_stmt a) (<[ rv := init ]> (return_var_to_init_var a)) (var_family_ids a) (next_family_id a)
    (phi_local_sources a).

Definition with_families (a : LifetimeAnalyzer) (families : gmap positive (gset Z)) (next : Z)
    (phis : gmap positive (list positive)) : LifetimeAnalyzer :=
  MkLifetimeAnalyzer (current_order a) (loop_scopes a) (ordered_defs a) (var_def_order a) (var_raw_last_use a)
    (var_def_stmt a) (return_var_to_init_var a) families next phis.

(** A loop over a list, as a fold that may stop. *)
Section Fold.
Context {A S : Type} (f : A -> S -> result S).
Fixpoint fold_result (l : list A) (s : S) : result S :=
  match l with [] => Ok s | x :: l => let* s := f x s in fold_result l s end.
End Fold.

(** [RecordRawUse]: a result of a branch stands for its local sources, a result of
    a loop for its initial variable.  The recursion over results of branches
    without end is a stack overflow. *)
Fixpoint record_use (fuel : nat) (order : Z) (v : positive) (a : LifetimeAnalyzer) : result LifetimeAnalyzer :=
  match fuel with
  | O => Err UndefinedBehaviour
  | S fuel =>
      match phi_local_sources a !! v with
      | Some sources => fold_result (record_use fuel order) sources a
      | None =>
          let target := default v (return_var_to_init_var a !! v) in
          match var_def_order a !! target with
          | None => Ok a
          | Some _ => Ok (with_use a target order)
          end
      end
  end.

Definition RecordRawUse (order : Z) (v : positive) (a : LifetimeAnalyzer) : result LifetimeAnalyzer :=
  record_use (S (size (phi_local_sources a))) order v a.

(** The set of variables is walked in the order of the expression: recording uses
    commutes. *)
Definition CollectUsesFromExpr (order : Z) (e : IRExpr) (a : LifetimeAnalyzer) : result LifetimeAnalyzer :=
  fold_result (fun v => RecordRawUse order (var_id v)) (vars e) a.

Definition CollectUsesFromValues (values : list IRExpr) (a : LifetimeAnalyzer) : result LifetimeAnalyzer :=
  let order := current_order a in fold_result (CollectUsesFromExpr order) values (next_order a).

(** The first variable of the chain of initial values that is not itself carried. *)
Fixpoint ResolveCarryInitCarrier (init_value : IRExpr) : option IRVar :=
  match init_value with
  | VarExpr v => Some v
  | IterArg _ init => ResolveCarryInitCarrier init
  | _ => None
  end.

(** [RegisterReturnVars]; [zip] stops at the shorter list. *)
Definition register_return (entry : IRVar * (IRVar * IRExpr)) (a : LifetimeAnalyzer) : LifetimeAnalyzer :=
  let '(rv, (_, init)) := entry in
  if negb (is_tile rv) then a
  else match ResolveCarryInitCarrier init with
  | Some v => if bool_decide (is_Some (var_def_order a !! var_id v)) then with_carry a (var_id rv) (var_id v) else a
  | None => a
  end.
Definition RegisterReturnVars (iter_args : list (IRVar * IRExpr)) (return_vars : list IRVar) (a : LifetimeAnalyzer)
    : LifetimeAnalyzer :=
  foldl (fun a entry => register_return entry a) a (zip return_vars iter_args).

(** ** Results of branches *)

Definition branch_local (a : LifetimeAnalyzer) (v : positive) (start stop : Z) : bool :=
  if start <? 0 then false
  else match var_def_order a !! v with
  | Some order => (order >=? start) && (order <=? stop)
  | None => false
  end.

(** The local sources found, the results of branches already seen, and the families. *)
Record PhiSources := MkPhiSources { local_sources : list positive; seen_phi : gset positive; families : gmap positive (gset Z) }.

(** [add_source_var]: each result of a branch is opened once. *)
Fixpoint add_source_var (fuel : nat) (a : LifetimeAnalyzer) (family : Z) (start stop : Z) (src : positive) (p : PhiSources)
    : result PhiSources :=
  match fuel with
  | O => Err OutOfFuel
  | S fuel =>
      match phi_local_sources a !! src with
      | Some nested =>
          if bool_decide (src ∈ seen_phi p) then Ok p
          else fold_result (add_source_var fuel a family start stop) nested
            (MkPhiSources (local_sources p) ({[ src ]} ∪ seen_phi p) (families p))
      | None =>
          if negb (branch_local a src start stop) then Ok p
          else Ok (MkPhiSources (local_sources p ++ [src]) (seen_phi p)
            (<[ src := {[ family ]} ∪ default ∅ (families p !! src) ]> (families p)))
      end
  end.

Definition add_source (a : LifetimeAnalyzer) (family : Z) (value : option IRExpr) (range : Z * Z) (p : PhiSources)
    : result PhiSources :=
  match value ≫= AsVarLike with
  | Some src => add_source_var (2 + size (phi_local_sources a)) a family range.1 range.2 (var_id src) p
  | None => Ok p
  end.

(** One result of a branch, with what the two branches yield for it. *)
Definition register_phi (then_range else_range : Z * Z) (entry : IRVar * (option IRExpr * option IRExpr))
    (a : LifetimeAnalyzer) : result LifetimeAnalyzer :=
  let '(rv, (then_value, else_value)) := entry in
  match tile_memref rv with
  | None => Ok a
  | Some _ =>
      let family := next_family_id a in
      let* p := add_source a family then_value then_range (MkPhiSources [] ∅ (var_family_ids a)) in
      let* p := add_source a family else_value else_range p in
      match local_sources p with
      | [] => Ok (with_families a (families p) (family + 1) (phi_local_sources a))
      | sources =>
          Ok (with_families a (<[ var_id rv := {[ family ]} ∪ default ∅ (families p !! var_id rv) ]> (families p)) (family + 1)
            (<[ var_id rv := sources ]> (phi_local_sources a)))
      end
  end.

(** The results with the values of the two yields at their positions. *)
Definition phi_entries (return_vars : list IRVar) (then_yield else_yield : option (list IRExpr))
    : list (IRVar * (option IRExpr * option IRExpr)) :=
  imap (fun i rv => (rv, (then_yield ≫= fun l => l !! i, else_yield ≫= fun l => l !! i))) return_vars.

(** ** [VisitStmt] *)

Fixpoint visit (s : Stmt) (a : LifetimeAnalyzer) : result LifetimeAnalyzer :=
  match s with
  | SeqStmts stmts => fold_result visit stmts a
  | ScopeStmt _ _ body => visit body a
  | AssignStmt v value =>
      let order := current_order a in
      let a := next_order a in
      let a := if is_tile v then with_def a v order (Some value) else a in
      CollectUsesFromExpr order value a
  | EvalStmt e => CollectUsesFromExpr (current_order a) e (next_order a)
  | YieldStmt values | ReturnStmt values => CollectUsesFromValues values a
  | IfStmt condition then_body else_body return_vars =>
      let* a := CollectUsesFromExpr (current_order a) condition a in
      let then_start := current_order a in
      let* a := visit then_body a in
      let then_range := (then_start, current_order a - 1) in
      let else_start := current_order a in
      let* (a, else_range) :=
        match else_body with
        | Some body => let* a := visit body a in Ok (a, (else_start, current_order a - 1))
        | None => Ok (a, (-1, -1))
        end in
      fold_result (register_phi then_range else_range)
        (phi_entries return_vars (GetLastYieldStmt then_body) (else_body ≫= GetLastYieldStmt)) a
  | ForStmt _ _ iter_args body return_vars _ | WhileStmt _ iter_args body return_vars =>
      let* a := fold_result (fun '(_, init) a => CollectUsesFromExpr (current_order a) init a) iter_args a in
      let loop_start := current_order a in
      let* a := visit body a in
      let a := with_loop a (loop_start, current_order a - 1) in
      Ok (RegisterReturnVars iter_args return_vars a)
  | BreakStmt | ContinueStmt | InlineStmt => Ok a
  end.

(** The parameters that carry a reference. *)
Definition seed_entries (entry_vars : list IRVar) (a : LifetimeAnalyzer) : LifetimeAnalyzer :=
  foldl (fun a v => match tile_memref v with Some _ => with_def a v (current_order a) None | None => a end) a entry_vars.

(** [Analyze], before the extension over loops. *)
Definition Analyze (body : Stmt) (entry_vars : list IRVar) : result LifetimeAnalyzer :=
  visit body (seed_entries entry_vars no_lifetimes).

(** [ComputeEffectiveLastUse] for one variable. *)
Definition def_order_of (a : LifetimeAnalyzer) (v : positive) : Z := default 0 (var_def_order a !! v).
Definition raw_last (a : LifetimeAnalyzer) (v : positive) : Z :=
  default (def_order_of a v) (var_raw_last_use a !! v).
Definition extend (def raw : Z) (loops : list (Z * Z)) : Z :=
  foldl (fun extended '(start, stop) =>
    if (def <? start) && (raw >=? start) then Z.max extended stop else extended) raw loops.
Definition effective_last (a : LifetimeAnalyzer) (v : positive) : Z :=
  extend (def_order_of a v) (raw_last a v) (loop_scopes a).

(** ** Intervals *)

(** [memref_groups]: the defined variables of each base, in order. *)
Definition var_base (v : IRVar) : option positive := base_key <$> tile_memref v.
Definition memref_groups (defs : list IRVar) : gmap positive (list IRVar) :=
  foldl (fun groups v =>
    match var_base v with
    | Some base => <[ base := default [] (groups !! base) ++ [v] ]> groups
    | None => groups
    end) ∅ defs.

(** [has_slots] of a group. *)
Definition has_slots (group : list IRVar) : bool :=
  existsb (fun v => match tile_memref v with Some m => slot_count m >? 1 | None => false end) group.

(** A member whose offset is not constant and that is not sliced from its source. *)
Definition unsafe_member (a : LifetimeAnalyzer) (v : IRVar) : bool :=
  match GetTypeMemRef (GetType v) with
  | None => false
  | Some m =>
      match byte_offset m with
      | ConstInt _ _ => false
      | _ =>
          match var_def_stmt a !! var_id v with
          | Some (Call op _ _ _ _ _) => negb (IsOp op "tile.slice")
          | _ => true
          end
      end
  end.

(** The first member whose call has a membership, and whether it loads. *)
Fixpoint group_membership (a : LifetimeAnalyzer) (group : list IRVar) : option (list (Z * Z) * bool) :=
  match group with
  | [] => None
  | v :: group =>
      match var_def_stmt a !! var_id v with
      | Some (Call op _ _ _ packed _) =>
          if String.eqb packed EmptyString then group_membership a group
          else Some (ParsePipelineMembership packed, IsOp op "tile.load" || IsOp op "tile.read")
      | _ => group_membership a group
      end
  end.

(** The result: what [LifetimeAnalysisResult] of the planner keeps, and the rest. *)
Record Lifetimes := MkLifetimes {
  analysis : LifetimeAnalysisResult;
  phi_family_ids : gmap positive (gset Z);
  var_liveness : gmap positive (Z * Z);
  pipeline_load_tiles : gset positive;
  subrange_unsafe_groups : gset positive;
  sharing_groups : gmap positive (list IRVar)
}.

(** The interval of a group. *)
Definition group_interval (a : LifetimeAnalyzer) (allocation_sizes : gmap positive Z) (first : IRVar) (group : list IRVar)
    : result LifetimeInterval :=
  match GetType first with
  | TileType _ (Some m) (Some space) =>
      let size :=
        if has_slots group then
          match allocation_sizes !! base_key m with Some capacity => Z.max (size_ m) capacity | None => size_ m end
        else size_ m in
      Ok (MkLifetime (var_id first) (Some (memref_data m))
        (foldr (fun v d => Z.min (def_order_of a (var_id v)) d) (2 ^ 31 - 1) group)
        (foldr (fun v u => Z.max (effective_last a (var_id v)) u) (- 2 ^ 31) group) space size)
  | _ => Err InternalError
  end.

(** Step 3: each allocation at its first variable. *)
Record Intervals := MkIntervals {
  processed : gset positive;
  found : list LifetimeInterval;
  memberships : gmap positive (list (Z * Z));
  loads : gset positive;
  unsafe : gset positive
}.

Definition sharing_group (groups : gmap positive (list IRVar)) (v : IRVar) : list IRVar :=
  match var_base v ≫= fun base => groups !! base with Some group => group | None => [v] end.

Definition add_interval_of (a : LifetimeAnalyzer) (allocation_sizes : gmap positive Z) (groups : gmap positive (list IRVar))
    (v : IRVar) (r : Intervals) : result Intervals :=
  if bool_decide (var_id v ∈ processed r) then Ok r
  else match tile_memref v with
  | None => Ok r
  | Some _ =>
      let group := sharing_group groups v in
      let first := hd v group in
      let* interval := group_interval a allocation_sizes first group in
      let '(ms, ls) :=
        match group_membership a group with
        | Some (pairs, loads_) => (<[ var_id first := pairs ]> (memberships r), if loads_ : bool then {[ var_id first ]} ∪ loads r else loads r)
        | None => (memberships r, loads r)
        end in
      Ok (MkIntervals (list_to_set (map var_id group) ∪ processed r) (found r ++ [interval]) ms ls
        (if existsb (unsafe_member a) group then {[ var_id first ]} ∪ unsafe r else unsafe r))
  end.

(** The sharing groups: those of more than one variable, for each of its members. *)
Definition shared (defs : list IRVar) : gmap positive (list IRVar) :=
  let groups := memref_groups defs in
  foldl (fun m v => let group := sharing_group groups v in
    if (1 <? length group)%nat then <[ var_id v := group ]> m else m) ∅ defs.

Definition AnalyzeAllocationLifetimes (body : Stmt) (entry_vars : list IRVar) : result Lifetimes :=
  let* a := Analyze body entry_vars in
  match ordered_defs a with
  | [] => Ok (MkLifetimes (MkAnalysis [] ∅ ∅) ∅ ∅ ∅ ∅ ∅)
  | defs =>
      let groups := memref_groups defs in
      let* r := fold_result (add_interval_of a (CollectAllocSizes body) groups) defs (MkIntervals ∅ [] ∅ ∅ ∅) in
      Ok (MkLifetimes
        (MkAnalysis (found r) (map (fun v => memref_data <$> tile_memref v) <$> shared defs) (memberships r))
        (var_family_ids a) (map_imap (fun v def => Some (def, effective_last a v)) (var_def_order a)) (loads r) (unsafe r)
        (shared defs))
  end.
