(* ===== verification/Runs.v ===== *)
(** * Runs of a body

    The executions of a body as sequences of reads and writes of its tiles: any
    branch is taken and any number of iterations is run.  A tile stands for the
    storage of the variable that defines it; a carried name and the result of a
    loop stand for the storage of the loop's initial value, the result of a branch
    for what the branch yields, when the branch defines it. *)

From Stdlib Require Import ZArith Lia Bool List String.
From stdpp Require Import base gmap list option strings.
From S2P Require Import Prelude Dtype ScalarExpr Storage Memref Stmt Lifetime.

(** ** Static data *)

(** The number of orders a statement takes. *)
Fixpoint leaves (s : Stmt) : Z :=
  match s with
  | SeqStmts stmts => foldr (fun s n => leaves s + n) 0 stmts
  | AssignStmt _ _ | EvalStmt _ | YieldStmt _ | ReturnStmt _ => 1
  | IfStmt _ then_body else_body _ => leaves then_body + match else_body with Some e => leaves e | None => 0 end
  | ForStmt _ _ _ body _ _ | WhileStmt _ _ body _ | ScopeStmt _ _ body => leaves body
  | BreakStmt | ContinueStmt | InlineStmt => 0
  end.

(** The tiles defined, with their orders from [o]. *)
Fixpoint defs_at (o : Z) (s : Stmt) : list (IRVar * Z) :=
  match s with
  | SeqStmts stmts =>
      (fix go (o : Z) (l : list Stmt) : list (IRVar * Z) :=
        match l with [] => [] | s :: l => defs_at o s ++ go (o + leaves s) l end) o stmts
  | AssignStmt v _ => if is_tile v then [(v, o)] else []
  | IfStmt _ then_body else_body _ =>
      defs_at o then_body ++ match else_body with Some e => defs_at (o + leaves then_body) e | None => [] end
  | ForStmt _ _ _ body _ _ | WhileStmt _ _ body _ | ScopeStmt _ _ body => defs_at o body
  | _ => []
  end.
Definition defs_seq : Z -> list Stmt -> list (IRVar * Z) :=
  fix go (o : Z) (l : list Stmt) : list (IRVar * Z) :=
    match l with [] => [] | s :: l => defs_at o s ++ go (o + leaves s) l end.

(** The ranges of the loops, a loop after the ones in its body. *)
Fixpoint loops_at (o : Z) (s : Stmt) : list (Z * Z) :=
  match s with
  | SeqStmts stmts =>
      (fix go (o : Z) (l : list Stmt) : list (Z * Z) :=
        match l with [] => [] | s :: l => loops_at o s ++ go (o + leaves s) l end) o stmts
  | IfStmt _ then_body else_body _ =>
      loops_at o then_body ++ match else_body with Some e => loops_at (o + leaves then_body) e | None => [] end
  | ForStmt _ _ _ body _ _ | WhileStmt _ _ body _ => loops_at o body ++ [(o, o + leaves body - 1)]
  | ScopeStmt _ _ body => loops_at o body
  | _ => []
  end.
Definition loops_seq : Z -> list Stmt -> list (Z * Z) :=
  fix go (o : Z) (l : list Stmt) : list (Z * Z) :=
    match l with [] => [] | s :: l => loops_at o s ++ go (o + leaves s) l end.

Definition defines (s : Stmt) : list positive := map (fun vo => var_id vo.1) (defs_at 0 s).

(** A loop: what its header reads once and before each iteration, and its parts. *)
Definition loop_view (s : Stmt)
    : option (list (bool * IRVar) * list (bool * IRVar) * list (IRVar * IRExpr) * Stmt * list IRVar) :=
  match s with
  | ForStmt _ header iter_args body rvs _ => Some (flat_map mentions header, [], iter_args, body, rvs)
  | WhileStmt condition iter_args body rvs => Some ([], mentions condition, iter_args, body, rvs)
  | _ => None
  end.

(** ** Events *)

Inductive event := Rd (order : Z) (v : positive) | Wr (order : Z) (v : positive).
Definition order_of (e : event) : Z := match e with Rd o _ | Wr o _ => o end.

Inductive outcome := Normal | Broken | Continued | Returned.

(** The variable whose storage a name stands for, [None] when it is not one of the
    definitions. *)
Abbreviation env := (gmap positive (option positive)).

(** The names read: a carried name is read through its initial value. *)
Definition read_names (l : list (bool * IRVar)) : list positive :=
  omap (fun '(carried, x) => if negb carried && is_tile x then Some (var_id x) else None) l.

Definition in_scope (ρ : env) (l : list (bool * IRVar)) : Prop := forall x, x ∈ read_names l -> is_Some (ρ !! x).

Definition read_events (ρ : env) (o : Z) (l : list (bool * IRVar)) : list event :=
  omap (fun x => match ρ !! x with Some (Some v) => Some (Rd o v) | _ => None end) (read_names l).

Definition owner (ρ : env) (x : option IRVar) : option positive :=
  match x with Some x => default None (ρ !! var_id x) | None => None end.

(** The results of a loop. *)
Definition loop_results (ρ : env) (iter_args : list (IRVar * IRExpr)) (rvs : list IRVar) : env :=
  foldl (fun ρ' '(rv, (_, init)) =>
    if is_tile rv then <[ var_id rv := owner ρ (ResolveCarryInitCarrier init) ]> ρ' else ρ') ρ (zip rvs iter_args).

(** What a branch yields, when it is one of the branch's own definitions. *)
Definition yielded (ρb : env) (local : list positive) (value : option IRExpr) : option positive :=
  match value with
  | Some (VarExpr x) =>
      match ρb !! var_id x with
      | Some (Some v) => if bool_decide (v ∈ local) then Some v else None
      | _ => None
      end
  | _ => None
  end.

(** The results of the branch that was taken: what it yields at their positions. *)
Definition branch_results (ρ ρb : env) (yield : option (list IRExpr)) (local : list positive) (rvs : list IRVar) : env :=
  foldl (fun ρ' '(rv, value) =>
    if is_tile rv
    then <[ var_id rv := match tile_memref rv with Some _ => yielded ρb local value | None => None end ]> ρ'
    else ρ') ρ (imap (fun i rv => (rv, yield ≫= fun l => l !! i)) rvs).

(** ** Runs *)

(** [runs ρ o s t out ρ']: the statement, numbered from [o], makes the events [t]. *)
Inductive runs : env -> Z -> Stmt -> list event -> outcome -> env -> Prop :=
  | run_seq ρ o l t out ρ' : runs_seq ρ o l t out ρ' -> runs ρ o (SeqStmts l) t out ρ'
  | run_scope ρ o k attrs s t out ρ' : runs ρ o s t out ρ' -> runs ρ o (ScopeStmt k attrs s) t out ρ'
  | run_define ρ o v e : is_tile v = true -> in_scope ρ (mentions e) ->
      runs ρ o (AssignStmt v e) (read_events ρ o (mentions e) ++ [Wr o (var_id v)]) Normal
        (<[ var_id v := Some (var_id v) ]> ρ)
  | run_assign ρ o v e : is_tile v = false -> in_scope ρ (mentions e) ->
      runs ρ o (AssignStmt v e) (read_events ρ o (mentions e)) Normal ρ
  | run_eval ρ o e : in_scope ρ (mentions e) -> runs ρ o (EvalStmt e) (read_events ρ o (mentions e)) Normal ρ
  | run_yield ρ o l : in_scope ρ (flat_map mentions l) ->
      runs ρ o (YieldStmt l) (read_events ρ o (flat_map mentions l)) Normal ρ
  | run_return ρ o l : in_scope ρ (flat_map mentions l) ->
      runs ρ o (ReturnStmt l) (read_events ρ o (flat_map mentions l)) Returned ρ
  | run_then ρ o c s e rvs t out ρb : in_scope ρ (mentions c) -> runs ρ o s t out ρb ->
      runs ρ o (IfStmt c s e rvs) (read_events ρ o (mentions c) ++ t) out (branch_results ρ ρb (GetLastYieldStmt s) (defines s) rvs)
  | run_else ρ o c s e rvs t out ρb : in_scope ρ (mentions c) -> runs ρ (o + leaves s) e t out ρb ->
      runs ρ o (IfStmt c s (Some e) rvs) (read_events ρ o (mentions c) ++ t) out (branch_results ρ ρb (GetLastYieldStmt e) (defines e) rvs)
  | run_skip ρ o c s rvs : in_scope ρ (mentions c) ->
      runs ρ o (IfStmt c s None rvs) (read_events ρ o (mentions c)) Normal (branch_results ρ ρ None [] rvs)
  | run_loop ρ o s once head ias body rvs t out : loop_view s = Some (once, head, ias, body, rvs) ->
      in_scope ρ once -> in_scope ρ (flat_map (fun a => mentions a.2) ias) -> runs_loop ρ o head body t out ->
      runs ρ o s (read_events ρ o once ++ read_events ρ o (flat_map (fun a => mentions a.2) ias) ++ t) out
        (loop_results ρ ias rvs)
  | run_break ρ o : runs ρ o BreakStmt [] Broken ρ
  | run_continue ρ o : runs ρ o ContinueStmt [] Continued ρ
  | run_inline ρ o : runs ρ o InlineStmt [] Normal ρ
with runs_seq : env -> Z -> list Stmt -> list event -> outcome -> env -> Prop :=
  | seq_nil ρ o : runs_seq ρ o [] [] Normal ρ
  | seq_step ρ o s l t1 t2 out ρ1 ρ2 : runs ρ o s t1 Normal ρ1 -> runs_seq ρ1 (o + leaves s) l t2 out ρ2 ->
      runs_seq ρ o (s :: l) (t1 ++ t2) out ρ2
  | seq_stop ρ o s l t out ρ1 : runs ρ o s t out ρ1 -> out <> Normal -> runs_seq ρ o (s :: l) t out ρ1
with runs_loop : env -> Z -> list (bool * IRVar) -> Stmt -> list event -> outcome -> Prop :=
  | loop_done ρ o head body : in_scope ρ head -> runs_loop ρ o head body (read_events ρ o head) Normal
  | loop_next ρ o head body t1 t2 out1 out ρ1 : in_scope ρ head -> runs ρ o body t1 out1 ρ1 ->
      out1 = Normal \/ out1 = Continued -> runs_loop ρ o head body t2 out ->
      runs_loop ρ o head body (read_events ρ o head ++ t1 ++ t2) out
  | loop_exit ρ o head body t1 out1 ρ1 : in_scope ρ head -> runs ρ o body t1 out1 ρ1 ->
      out1 = Broken \/ out1 = Returned ->
      runs_loop ρ o head body (read_events ρ o head ++ t1) (match out1 with Returned => Returned | _ => Normal end).

Scheme runs_mut := Minimality for runs Sort Prop
  with runs_seq_mut := Minimality for runs_seq Sort Prop
  with runs_loop_mut := Minimality for runs_loop Sort Prop.
Combined Scheme runs_induction from runs_mut, runs_seq_mut, runs_loop_mut.

(** ** Well-formed bodies *)

(** The names bound: the tiles defined and the tile results. *)
Definition tile_ids (l : list IRVar) : list positive := map var_id (List.filter is_tile l).
Fixpoint names (s : Stmt) : list positive :=
  match s with
  | SeqStmts stmts => flat_map names stmts
  | AssignStmt v _ => tile_ids [v]
  | IfStmt _ then_body else_body rvs =>
      names then_body ++ match else_body with Some e => names e | None => [] end ++ tile_ids rvs
  | ForStmt _ _ _ body rvs _ | WhileStmt _ _ body rvs => names body ++ tile_ids rvs
  | ScopeStmt _ _ body => names body
  | _ => []
  end.

(** A test at every statement inside a statement. *)
Section Every.
Context (P : Stmt -> bool).
Fixpoint every (s : Stmt) : bool :=
  P s && match s with
  | SeqStmts stmts => forallb every stmts
  | IfStmt _ then_body else_body _ => every then_body && match else_body with Some e => every e | None => true end
  | ForStmt _ _ _ body _ _ | WhileStmt _ _ body _ | ScopeStmt _ _ body => every body
  | _ => true
  end.
End Every.

(** The results of the loops of a body. *)
Fixpoint loop_result_names (s : Stmt) : list positive :=
  match s with
  | SeqStmts stmts => flat_map loop_result_names stmts
  | IfStmt _ then_body else_body _ =>
      loop_result_names then_body ++ match else_body with Some e => loop_result_names e | None => [] end
  | ForStmt _ _ _ body rvs _ | WhileStmt _ _ body rvs => loop_result_names body ++ tile_ids rvs
  | ScopeStmt _ _ body => loop_result_names body
  | _ => []
  end.

(** The header of a loop reads no tile. *)
Definition scalar_header (s : Stmt) : bool :=
  match loop_view s with Some (once, head, _, _, _) => bool_decide (read_names (once ++ head) = []) | None => true end.

(** The last statement of a loop defines no tile. *)
Definition loop_tail (s : Stmt) : bool :=
  match loop_view s with
  | Some (_, _, _, body, _) => forallb (fun '(_, d) => d <? leaves body - 1) (defs_at 0 body)
  | None => true
  end.

(** A loop that carries a tile starts from a definition, not from the result of a
    loop or a branch. *)
Definition direct_carry (defined : list positive) (s : Stmt) : bool :=
  match loop_view s with
  | Some (_, _, ias, _, rvs) =>
      forallb (fun '(rv, (_, init)) =>
        negb (is_tile rv) || match ResolveCarryInitCarrier init with Some x => bool_decide (var_id x ∈ defined) | None => true end)
        (zip rvs ias)
  | None => true
  end.

(** What a branch yields for a tile is not the result of a loop, and the first
    branch yields nothing of the second. *)
Definition yields_directly (carried : list positive) (other : list positive) (yield : option (list IRExpr)) : bool :=
  forallb (fun value => match AsVarLike value with
    | Some x => negb (bool_decide (var_id x ∈ carried)) && negb (bool_decide (var_id x ∈ other))
    | None => true
    end) (default [] yield).
Definition direct_yields (carried : list positive) (s : Stmt) : bool :=
  match s with
  | IfStmt _ then_body else_body _ =>
      yields_directly carried (from_option names [] else_body) (GetLastYieldStmt then_body) &&
      yields_directly carried [] (else_body ≫= GetLastYieldStmt)
  | _ => true
  end.

(** The parameters that carry a reference. *)
Definition entry_ids (params : list IRVar) : list positive :=
  omap (fun v => match tile_memref v with Some _ => Some (var_id v) | None => None end) params.

(** What the analysis relies on: names are bound once; loops are entered after the
    first statement; and the tests above. *)
Definition well_formed (body : Stmt) (params : list IRVar) : bool :=
  bool_decide (NoDup (tile_ids params ++ names body)) &&
  forallb (fun '(start, _) => 0 <? start) (loops_at 0 body) &&
  every scalar_header body && every loop_tail body &&
  every (direct_carry (entry_ids params ++ defines body)) body && every (direct_yields (loop_result_names body)) body.
