(* ===== verification/RunsSound.v ===== *)
(** * Windows of a run

    Where the events of a run lie: between the writing of a variable and a reading
    of its storage every event has an order in a range that the definitions, the
    uses and the loops of the body determine. *)

From Stdlib Require Import ZArith Lia Bool List String.
From stdpp Require Import base gmap list option strings.
From S2P Require Import Prelude Dtype ScalarExpr Storage Memref Stmt Lifetime Runs.

(** ** Static facts *)

Lemma defs_at_seq o l : defs_at o (SeqStmts l) = defs_seq o l.
Proof. reflexivity. Qed.
Lemma loops_at_seq o l : loops_at o (SeqStmts l) = loops_seq o l.
Proof. reflexivity. Qed.
Lemma leaves_cons s l : leaves (SeqStmts (s :: l)) = leaves s + leaves (SeqStmts l).
Proof. reflexivity. Qed.

Lemma loop_view_parts s once head ias body rvs :
  loop_view s = Some (once, head, ias, body, rvs) ->
  leaves s = leaves body /\ (forall o, defs_at o s = defs_at o body) /\
  (forall o, loops_at o s = loops_at o body ++ [(o, o + leaves body - 1)]) /\ names s = names body ++ tile_ids rvs.
Proof. destruct s; try discriminate; intros [= <- <- <- <- <-]; done. Qed.

Lemma leaves_nonneg s : 0 <= leaves s.
Proof.
  induction s as [l IH| | | | |c t e rvs IHt IHe| | | | | |] using Stmt_nested_ind; cbn [leaves]; try lia.
  - induction IH; cbn [foldr]; lia.
  - destruct e as [e|]; [specialize (IHe e eq_refl) |]; lia.
Qed.

Lemma defs_at_range s : forall o x d, (x, d) ∈ defs_at o s -> o <= d < o + leaves s.
Proof.
  induction s as [l IH| | | | |c t e rvs IHt IHe| | | | | |] using Stmt_nested_ind; intros o x d; try by intros ?%elem_of_nil.
  - rewrite defs_at_seq. revert o. induction IH as [|s l Hs _ IHl]; intros o; [by intros ?%elem_of_nil |].
    cbn [defs_seq]. rewrite leaves_cons. pose proof (leaves_nonneg s). pose proof (leaves_nonneg (SeqStmts l)).
    intros [H1%Hs|H1%IHl]%elem_of_app; lia.
  - cbn [defs_at leaves]. destruct (is_tile v); [intros [= -> ->]%list_elem_of_singleton; lia | by intros ?%elem_of_nil].
  - cbn [defs_at leaves]. pose proof (leaves_nonneg t). destruct e as [e|].
    + pose proof (leaves_nonneg e). intros [H1%IHt|H1%(IHe e eq_refl)]%elem_of_app; lia.
    + rewrite app_nil_r. intros H1%IHt. lia.
  - apply IHs. - apply IHs. - apply IHs.
Qed.

(** Numbering from elsewhere. *)
Lemma defs_at_shift s : forall o n, defs_at (o + n) s = map (fun '(x, d) => (x, d + n)) (defs_at o s).
Proof.
  induction s as [l IH|v e| | | |c t e rvs IHt IHe| | | | | |] using Stmt_nested_ind; intros o n; try reflexivity.
  - rewrite !defs_at_seq. revert o. induction IH as [|s l Hs _ IHl]; intros o; [done |]. cbn [defs_seq].
    rewrite map_app, Hs, <- IHl. do 2 f_equal. lia.
  - cbn [defs_at]. by destruct (is_tile v).
  - cbn [defs_at]. rewrite map_app, IHt. f_equal. destruct e as [e|]; [|done]. rewrite <- (IHe e eq_refl). f_equal. lia.
  - apply IHs. - apply IHs. - apply IHs.
Qed.

Lemma defines_at o s : map (fun vo => var_id vo.1) (defs_at o s) = defines s.
Proof.
  unfold defines. replace o with (0 + o) by lia. rewrite defs_at_shift, map_map. apply map_ext. by intros [x d].
Qed.

Lemma defines_in o s v : v ∈ defines s <-> exists x d, (x, d) ∈ defs_at o s /\ var_id x = v.
Proof.
  rewrite <- (defines_at o), list_elem_of_fmap. split.
  - intros ([x d] & -> & H). by exists x, d.
  - intros (x & d & H & <-). by exists (x, d).
Qed.

Lemma defines_cons s l v : v ∈ defines (SeqStmts (s :: l)) <-> v ∈ defines s \/ v ∈ defines (SeqStmts l).
Proof.
  rewrite (defines_in 0 (SeqStmts (s :: l))), (defines_in 0 s), (defines_in (0 + leaves s) (SeqStmts l)), !defs_at_seq.
  cbn [defs_seq]. split.
  - intros (x & d & [H|H]%elem_of_app & Hv); [left | right]; by exists x, d.
  - intros [(x & d & H & Hv)|(x & d & H & Hv)]; exists x, d; rewrite elem_of_app; auto.
Qed.

(** ** Environments *)

Definition stored (ρ : env) (v : positive) : Prop := exists x, ρ !! x = Some (Some v).

Lemma stored_insert ρ x w v : stored (<[ x := w ]> ρ) v -> stored ρ v \/ w = Some v.
Proof. intros (y & Hy). apply lookup_insert_Some in Hy as [[<- ->]|[_ Hy]]; [by right | left; by exists y]. Qed.

Lemma owner_stored ρ x v : owner ρ x = Some v -> stored ρ v.
Proof. unfold owner. destruct x as [x|]; [|done]. destruct (ρ !! var_id x) as [w|] eqn:E; [|done]. cbn. intros ->. by exists (var_id x). Qed.

Lemma loop_results_stored ρ ias rvs v : stored (loop_results ρ ias rvs) v -> stored ρ v.
Proof.
  unfold loop_results. cut (forall ρ', (forall w, stored ρ' w -> stored ρ w) -> forall w, stored (foldl (fun ρ' '(rv, (_, init)) =>
    if is_tile rv then <[ var_id rv := owner ρ (ResolveCarryInitCarrier init) ]> ρ' else ρ') ρ' (zip rvs ias)) w -> stored ρ w).
  { intros H. apply H. done. }
  induction (zip rvs ias) as [|[rv [c init]] l IH]; intros ρ' Hρ w; cbn [foldl]; [apply Hρ |]. apply IH.
  intros w' Hw. destruct (is_tile rv); [|by apply Hρ]. apply stored_insert in Hw as [Hw|Hw]; [by apply Hρ | by eapply owner_stored].
Qed.

Lemma yielded_stored ρb local value v : yielded ρb local value = Some v -> v ∈ local /\ stored ρb v.
Proof.
  unfold yielded. destruct value as [[]|]; try done. destruct (ρb !! var_id v0) as [[w|]|] eqn:E; try done.
  case_bool_decide; [|done]. intros [= ->]. split; [done | by exists (var_id v0)].
Qed.

Lemma branch_results_stored ρ ρb yield local rvs v :
  stored (branch_results ρ ρb yield local rvs) v -> stored ρ v \/ v ∈ local /\ stored ρb v.
Proof.
  unfold branch_results. generalize (imap (fun i rv => (rv, yield ≫= fun l => l !! i)) rvs). intros l.
  cut (forall ρ', (forall w, stored ρ' w -> stored ρ w \/ w ∈ local /\ stored ρb w) -> forall w,
    stored (foldl (fun ρ' '(rv, value) => if is_tile rv
    then <[ var_id rv := match tile_memref rv with Some _ => yielded ρb local value | None => None end ]> ρ' else ρ') ρ' l) w ->
    stored ρ w \/ w ∈ local /\ stored ρb w).
  { intros H. apply H. auto. }
  induction l as [|[rv value] l IH]; intros ρ' Hρ w; cbn [foldl]; [apply Hρ |]. apply IH. intros w' Hw.
  destruct (is_tile rv); [|by apply Hρ]. apply stored_insert in Hw as [Hw|Hw]; [by apply Hρ |].
  destruct (tile_memref rv); [|done]. right. by apply (yielded_stored _ _ value).
Qed.

Lemma read_events_in ρ o l e : e ∈ read_events ρ o l -> exists v, e = Rd o v /\ stored ρ v.
Proof.
  unfold read_events. intros (x & Hx & He)%list_elem_of_omap. destruct (ρ !! x) as [[v|]|] eqn:E; try done.
  injection He as <-. exists v. split; [done | by exists x].
Qed.
Lemma read_events_order ρ o l e : e ∈ read_events ρ o l -> order_of e = o.
Proof. by intros (v & -> & _)%read_events_in. Qed.
Lemma read_events_no_write ρ o l d v : Wr d v ∉ read_events ρ o l.
Proof. by intros (w & ? & _)%read_events_in. Qed.

(** ** Where events lie *)

(** Events with orders from [o] to [o + n], the writes among the definitions [ds]. *)
Definition placed (o n : Z) (ds : list (IRVar * Z)) (t : list event) : Prop :=
  (forall e, e ∈ t -> o <= order_of e <= o + n) /\
  (forall d v, Wr d v ∈ t -> exists x, (x, d) ∈ ds /\ var_id x = v).

Lemma placed_weaken o n ds o' n' ds' t :
  placed o n ds t -> o' <= o -> o + n <= o' + n' -> (forall p, p ∈ ds -> p ∈ ds') -> placed o' n' ds' t.
Proof.
  intros [H1 H2] Ho Hn Hd. split.
  - intros e He. specialize (H1 e He). lia.
  - intros d v (x & Hx & Hv)%H2. exists x. auto.
Qed.

Lemma placed_app o n ds t1 t2 : placed o n ds t1 -> placed o n ds t2 -> placed o n ds (t1 ++ t2).
Proof. intros [H1 H2] [H3 H4]. split; [intros e | intros d v]; intros [H|H]%elem_of_app; auto. Qed.

Lemma placed_reads ρ o n ds l : 0 <= n -> placed o n ds (read_events ρ o l).
Proof. intros Hn. split; [intros e ->%read_events_order; lia | by intros d v ?%read_events_no_write]. Qed.

Lemma placed_nil o n ds : placed o n ds [].
Proof. split; [by intros e ?%elem_of_nil | by intros d v ?%elem_of_nil]. Qed.

Create HintDb runs.
#[local] Hint Resolve placed_reads placed_app placed_nil leaves_nonneg : runs.

Lemma runs_placed_all :
  (forall ρ o s t out ρ', runs ρ o s t out ρ' -> placed o (leaves s) (defs_at o s) t) /\
  (forall ρ o l t out ρ', runs_seq ρ o l t out ρ' -> placed o (leaves (SeqStmts l)) (defs_seq o l) t) /\
  (forall ρ o head body t out, runs_loop ρ o head body t out -> placed o (leaves body) (defs_at o body) t).
Proof.
  apply runs_induction; intros; cbn [leaves defs_at] in *; auto with runs.
  - rewrite H. apply placed_app; [apply placed_reads; lia |]. split.
    + intros e' ->%list_elem_of_singleton. cbn. lia.
    + intros d w [= -> ->]%list_elem_of_singleton. exists v. split; [by left | done].
  - apply placed_reads. lia.
  - apply placed_reads. lia.
  - apply placed_reads. lia.
  - apply placed_reads. lia.
  - pose proof (leaves_nonneg s). assert (0 <= match e with Some e => leaves e | None => 0 end) by (destruct e; [apply leaves_nonneg | lia]).
    apply placed_app; [apply placed_reads; lia |]. eapply placed_weaken; [done | lia | lia |]. intros p Hp. apply elem_of_app. by left.
  - pose proof (leaves_nonneg s). pose proof (leaves_nonneg e).
    apply placed_app; [apply placed_reads; lia |]. eapply placed_weaken; [done | lia | lia |]. intros p Hp. apply elem_of_app. by right.
  - pose proof (leaves_nonneg s). apply placed_reads. lia.
  - apply loop_view_parts in H as (-> & -> & _). pose proof (leaves_nonneg body). auto with runs.
  - change (placed o (leaves (SeqStmts (s :: l))) (defs_seq o (s :: l)) (t1 ++ t2)). rewrite leaves_cons. cbn [defs_seq].
    change (foldr (fun s n => leaves s + n) 0 l) with (leaves (SeqStmts l)) in H2.
    pose proof (leaves_nonneg s). pose proof (leaves_nonneg (SeqStmts l)).
    apply placed_app; (eapply placed_weaken; [done | lia | lia |]); intros p Hp; apply elem_of_app; auto.
  - change (placed o (leaves (SeqStmts (s :: l))) (defs_seq o (s :: l)) t). rewrite leaves_cons. cbn [defs_seq].
    pose proof (leaves_nonneg s). pose proof (leaves_nonneg (SeqStmts l)).
    eapply placed_weaken; [done | lia | lia |]. intros p Hp. apply elem_of_app. auto.
Qed.

Lemma runs_placed ρ o s t out ρ' : runs ρ o s t out ρ' -> placed o (leaves s) (defs_at o s) t.
Proof. apply runs_placed_all. Qed.
Lemma runs_seq_placed ρ o l t out ρ' : runs_seq ρ o l t out ρ' -> placed o (leaves (SeqStmts l)) (defs_seq o l) t.
Proof. apply runs_placed_all. Qed.
Lemma runs_loop_placed ρ o head body t out : runs_loop ρ o head body t out -> placed o (leaves body) (defs_at o body) t.
Proof. apply runs_placed_all. Qed.

Lemma runs_write ρ o s t out ρ' d v : runs ρ o s t out ρ' -> Wr d v ∈ t -> v ∈ defines s /\ o <= d < o + leaves s.
Proof.
  intros [_ H]%runs_placed (x & Hx & Hv)%H. split; [apply (defines_in o); by exists x, d | by eapply defs_at_range].
Qed.
Lemma runs_seq_write ρ o l t out ρ' d v :
  runs_seq ρ o l t out ρ' -> Wr d v ∈ t -> v ∈ defines (SeqStmts l) /\ o <= d < o + leaves (SeqStmts l).
Proof.
  intros [_ H]%runs_seq_placed (x & Hx & Hv)%H. split; [apply (defines_in o); by exists x, d | by eapply defs_at_range].
Qed.
Lemma runs_loop_write ρ o head body t out d v :
  runs_loop ρ o head body t out -> Wr d v ∈ t -> v ∈ defines body /\ o <= d < o + leaves body.
Proof.
  intros [_ H]%runs_loop_placed (x & Hx & Hv)%H. split; [apply (defines_in o); by exists x, d | by eapply defs_at_range].
Qed.

(** ** What is stored afterwards *)

Lemma runs_stored_all :
  (forall ρ o s t out ρ', runs ρ o s t out ρ' -> forall v, stored ρ' v -> stored ρ v \/ exists d, Wr d v ∈ t) /\
  (forall ρ o l t out ρ', runs_seq ρ o l t out ρ' -> forall v, stored ρ' v -> stored ρ v \/ exists d, Wr d v ∈ t) /\
  (forall ρ o head body t out, runs_loop ρ o head body t out -> True).
Proof.
  apply runs_induction; intros; auto.
  - apply stored_insert in H1 as [?|[= <-]]; [by left | right]. exists o. apply elem_of_app. right. by left.
  - apply branch_results_stored in H2 as [?|[_ [?|(d & ?)]%H1]]; [by left.. |]. right. exists d. apply elem_of_app. by right.
  - apply branch_results_stored in H2 as [?|[_ [?|(d & ?)]%H1]]; [by left.. |]. right. exists d. apply elem_of_app. by right.
  - apply branch_results_stored in H0 as [?|[?%elem_of_nil _]]; [by left | done].
  - left. by eapply loop_results_stored.
  - apply H2 in H3 as [[?|(d & ?)]%H0|(d & ?)]; [by left | right; exists d; apply elem_of_app; by left | right; exists d; apply elem_of_app; by right].
Qed.

Lemma runs_stored ρ o s t out ρ' v : runs ρ o s t out ρ' -> stored ρ' v -> stored ρ v \/ exists d, Wr d v ∈ t.
Proof. intros H. by apply (proj1 runs_stored_all _ _ _ _ _ _ H). Qed.
Lemma runs_seq_stored ρ o l t out ρ' v : runs_seq ρ o l t out ρ' -> stored ρ' v -> stored ρ v \/ exists d, Wr d v ∈ t.
Proof. intros H. by apply (proj1 (proj2 runs_stored_all) _ _ _ _ _ _ H). Qed.

(** ** Open reads *)

Lemma app_split {A} (t1 t2 a b : list A) x :
  t1 ++ x :: t2 = a ++ b ->
  (exists r, a = t1 ++ x :: r /\ t2 = r ++ b) \/ (exists r, t1 = a ++ r /\ b = r ++ x :: t2).
Proof.
  revert t1. induction a as [|y a IH]; intros t1 H; [right; by exists t1 |]. destruct t1 as [|z t1]; cbn in H.
  - injection H as -> ->. left. by exists a.
  - injection H as -> H. apply IH in H as [(r & -> & ->)|(r & -> & ->)]; [left | right]; by exists r.
Qed.

(** A read of [v] with no write of it before is a read of what was stored. *)
Definition opens (t : list event) (ρ : env) : Prop :=
  forall t1 t2 u v, t = t1 ++ Rd u v :: t2 -> (forall d, Wr d v ∉ t1) -> stored ρ v.

Lemma opens_app t1 t2 ρ : opens t1 ρ ->
  (forall a b u v, t2 = a ++ Rd u v :: b -> (forall d, Wr d v ∉ t1 ++ a) -> stored ρ v) -> opens (t1 ++ t2) ρ.
Proof.
  intros H1 H2 a b u v H Hno. symmetry in H. apply app_split in H as [(r & -> & ->)|(r & -> & ->)]; [by eapply H1 | by eapply H2].
Qed.

Lemma opens_reads ρ o l : opens (read_events ρ o l) ρ.
Proof.
  intros a b u v H _. assert (Hin : Rd u v ∈ read_events ρ o l) by (rewrite H; apply elem_of_app; right; by left).
  apply read_events_in in Hin as (w & [= -> ->] & Hw). done.
Qed.

Lemma opens_both t1 t2 ρ : opens t1 ρ -> opens t2 ρ -> opens (t1 ++ t2) ρ.
Proof.
  intros H1 H2. apply opens_app; [done |]. intros a b u v -> Hno. eapply H2; [done |]. intros d Hd. apply (Hno d), elem_of_app. by right.
Qed.

Lemma opens_nil ρ : opens [] ρ.
Proof. intros a b u v H. by destruct a. Qed.

#[local] Hint Resolve opens_reads opens_both opens_nil : runs.

Lemma runs_opens_all :
  (forall ρ o s t out ρ', runs ρ o s t out ρ' -> opens t ρ) /\
  (forall ρ o l t out ρ', runs_seq ρ o l t out ρ' -> opens t ρ) /\
  (forall ρ o head body t out, runs_loop ρ o head body t out -> opens t ρ).
Proof.
  apply runs_induction; intros; auto with runs.
  - apply opens_both; [apply opens_reads |]. intros a b u w H1. destruct a as [|e' a]; [done |]. by destruct a.
  - apply opens_app; [done |]. intros a b u v -> Hno. destruct (runs_stored _ _ _ _ _ _ v H) as [?|(d & Hd)].
    + eapply H2; [done |]. intros d Hd. apply (Hno d), elem_of_app. by right.
    + done.
    + destruct (Hno d). apply elem_of_app. by left.
Qed.

Lemma runs_opens ρ o s t out ρ' : runs ρ o s t out ρ' -> opens t ρ.
Proof. apply runs_opens_all. Qed.
Lemma runs_seq_opens ρ o l t out ρ' : runs_seq ρ o l t out ρ' -> opens t ρ.
Proof. apply runs_opens_all. Qed.
Lemma runs_loop_opens ρ o head body t out : runs_loop ρ o head body t out -> opens t ρ.
Proof. apply runs_opens_all. Qed.

(** ** Single definitions *)

Lemma defines_seq s l : defines (SeqStmts (s :: l)) = defines s ++ defines (SeqStmts l).
Proof.
  rewrite <- (defines_at 0 (SeqStmts (s :: l))), <- (defines_at 0 s), <- (defines_at (0 + leaves s) (SeqStmts l)), <- map_app. reflexivity.
Qed.
Lemma defines_if c s e rvs :
  defines (IfStmt c s e rvs) = defines s ++ from_option defines [] e.
Proof.
  rewrite <- (defines_at 0 (IfStmt c s e rvs)), <- (defines_at 0 s). cbn [defs_at]. rewrite map_app. f_equal.
  destruct e as [e|]; [apply defines_at | done].
Qed.
Lemma defines_loop s once head ias body rvs : loop_view s = Some (once, head, ias, body, rvs) -> defines s = defines body.
Proof. intros (_ & H & _)%loop_view_parts. rewrite <- (defines_at 0 s), <- (defines_at 0 body). by rewrite H. Qed.

Lemma loops_at_range s : forall o st en, (st, en) ∈ loops_at o s -> o <= st.
Proof.
  induction s as [l IH| | | | |c t e rvs IHt IHe|? ? ? ? ? ? IHb|? ? ? ? IHb|? ? ? IHb| | |] using Stmt_nested_ind; intros o st en; try by intros ?%elem_of_nil.
  - rewrite loops_at_seq. revert o. induction IH as [|s l Hs _ IHl]; intros o; [by intros ?%elem_of_nil |].
    cbn [loops_seq]. pose proof (leaves_nonneg s). intros [H1%Hs|H1%IHl]%elem_of_app; lia.
  - cbn [loops_at]. pose proof (leaves_nonneg t). destruct e as [e|]; intros [H1|H1]%elem_of_app.
    + by eapply IHt. + apply (IHe e eq_refl) in H1. lia. + by eapply IHt. + by apply elem_of_nil in H1.
  - cbn [loops_at]. intros [H1|[= -> ->]%list_elem_of_singleton]%elem_of_app; [by eapply IHb | lia].
  - cbn [loops_at]. intros [H1|[= -> ->]%list_elem_of_singleton]%elem_of_app; [by eapply IHb | lia].
  - apply IHb.
Qed.

(** After the write of what remains stored nothing earlier is written. *)
Definition later_writes (t : list event) (v : positive) : Prop :=
  forall t1 t2 d d' w, t = t1 ++ Wr d v :: t2 -> Wr d' w ∈ t2 -> d <= d'.

Lemma later_writes_reads ρ o l t v : later_writes t v -> later_writes (read_events ρ o l ++ t) v.
Proof.
  intros H t1 t2 d d' w E. symmetry in E. apply app_split in E as [(r & E & _)|(r & -> & ->)]; [|by eapply H].
  destruct (read_events_no_write ρ o l d v). rewrite E. apply elem_of_app. right. by left.
Qed.

Lemma runs_later_all :
  (forall ρ o s t out ρ', runs ρ o s t out ρ' -> NoDup (defines s) -> forall v, stored ρ' v -> ~ stored ρ v -> later_writes t v) /\
  (forall ρ o l t out ρ', runs_seq ρ o l t out ρ' -> NoDup (defines (SeqStmts l)) -> forall v, stored ρ' v -> ~ stored ρ v -> later_writes t v) /\
  (forall ρ o head body t out, runs_loop ρ o head body t out -> True).
Proof.
  apply runs_induction; intros; auto; try done.
  - apply later_writes_reads. intros t1 t2 d d' w E. destruct t1 as [|e' [|? ?]]; try done. injection E as _ _ <-. by intros ?%elem_of_nil.
  - apply later_writes_reads, H1; [rewrite defines_if in H2; by apply NoDup_app in H2 as (? & _) | | done].
    by apply branch_results_stored in H3 as [?|[_ ?]].
  - apply later_writes_reads, H1; [rewrite defines_if in H2; by apply NoDup_app in H2 as (_ & _ & ?) | | done].
    by apply branch_results_stored in H3 as [?|[_ ?]].
  - by apply branch_results_stored in H1 as [?|[?%elem_of_nil _]].
  - by apply loop_results_stored in H5.
  - rewrite defines_seq in H3. apply NoDup_app in H3 as (Hs & Hdis & Hl). intros a b d d' w E Hw. symmetry in E.
    apply app_split in E as [(r & -> & ->)|(r & -> & ->)].
    + assert (Hv : v ∈ defines s) by (eapply (runs_write _ _ _ _ _ _ d v H), elem_of_app; right; by left).
      assert (Hst : stored ρ1 v). { destruct (runs_seq_stored _ _ _ _ _ _ v H1) as [?|(d2 & Hd2)]; [done.. |].
        destruct (Hdis v Hv). by eapply (runs_seq_write _ _ _ _ _ _ d2 v H1). }
      apply elem_of_app in Hw as [Hw|Hw]; [by eapply H0 |].
      pose proof (runs_write _ _ _ _ _ _ d v H ltac:(apply elem_of_app; right; by left)).
      pose proof (runs_seq_write _ _ _ _ _ _ d' w H1 Hw). lia.
    + assert (Hv : v ∈ defines (SeqStmts l)) by (eapply (runs_seq_write _ _ _ _ _ _ d v H1), elem_of_app; right; by left).
      eapply H2; [done | done | | done | done]. intros [?|(d2 & Hd2)]%(runs_stored _ _ _ _ _ _ v H); [done |].
      apply (Hdis v); [by eapply (runs_write _ _ _ _ _ _ d2 v H) | done].
  - apply H0; [|done..]. rewrite defines_seq in H2. by apply NoDup_app in H2 as (? & _).
Qed.

(** ** Windows *)

Section Windows.
Context (raw last : positive -> Z).
Hypothesis raw_last_le : forall v, raw v <= last v.

(** The reads of a run are recorded. *)
Definition recorded (t : list event) : Prop := forall u v, Rd u v ∈ t -> u <= raw v.

(** The lifetime of a variable defined at [d v] before a loop that reads it covers the loop. *)
Definition extended (D : positive -> Z) (loops : list (Z * Z)) : Prop :=
  forall st en v, (st, en) ∈ loops -> D v < st -> st <= raw v -> en <= last v.

Lemma recorded_app t1 t2 : recorded (t1 ++ t2) -> recorded t1 /\ recorded t2.
Proof. intros H. split; intros u v Hin; apply H, elem_of_app; auto. Qed.

Context (D : positive -> Z).

Lemma extended_app l1 l2 : extended D (l1 ++ l2) -> extended D l1 /\ extended D l2.
Proof. intros H. split; intros st en v Hin; apply H, elem_of_app; auto. Qed.

(** The loops of a statement are entered after the definition of a variable. *)
Definition entered_after (v : positive) (loops : list (Z * Z)) : Prop := forall st en, (st, en) ∈ loops -> D v < st.

Definition below (t : list event) (v : positive) : Prop :=
  forall t1 t2 u d w, t = t1 ++ Rd u v :: t2 -> Wr d w ∈ t1 -> d < last v.

Lemma below_reads ρ o l t v : below t v -> below (read_events ρ o l ++ t) v.
Proof.
  intros H t1 t2 u d w E Hin. symmetry in E. apply app_split in E as [(r & E & _)|(r & -> & ->)].
  - destruct (read_events_no_write ρ o l d w). rewrite E. apply elem_of_app. by left.
  - apply elem_of_app in Hin as [Hin|Hin]; [by apply read_events_no_write in Hin | by eapply H].
Qed.

Lemma loop_tail_writes s once head ias body rvs ρ o t out d w :
  loop_view s = Some (once, head, ias, body, rvs) -> loop_tail s = true ->
  runs_loop ρ o head body t out -> Wr d w ∈ t -> d < o + leaves body - 1.
Proof.
  intros Hv Ht [_ H]%runs_loop_placed (x & Hx & _)%H. unfold loop_tail in Ht. rewrite Hv in Ht. rewrite forallb_forall in Ht.
  replace o with (0 + o) in Hx by lia. rewrite defs_at_shift in Hx. apply list_elem_of_fmap in Hx as ([y d0] & [= -> ->] & Hin).
  specialize (Ht (y, d0) ltac:(by apply list_elem_of_In)). cbn in Ht. lia.
Qed.

Lemma every_loop_body P s once head ias body rvs :
  loop_view s = Some (once, head, ias, body, rvs) -> every P s = true -> P s = true /\ every P body = true.
Proof. destruct s; try discriminate; intros [= <- <- <- <- <-]; cbn [every]; by intros [? ?]%andb_prop. Qed.

Lemma every_seq P s l : every P (SeqStmts (s :: l)) = true -> every P s = true.
Proof. cbn [every forallb]. by intros [_ [? _]%andb_prop]%andb_prop. Qed.

Lemma runs_below_all v :
  (forall ρ o s t out ρ', runs ρ o s t out ρ' -> every loop_tail s = true -> extended D (loops_at o s) ->
     entered_after v (loops_at o s) -> recorded t -> below t v) /\
  (forall ρ o l t out ρ', runs_seq ρ o l t out ρ' -> forallb (every loop_tail) l = true -> extended D (loops_seq o l) ->
     entered_after v (loops_seq o l) -> recorded t -> below t v) /\
  (forall ρ o head body t out, runs_loop ρ o head body t out -> True).
Proof.
  assert (Hnil : below [] v) by (intros t1 t2 u d w E; by destruct t1).
  assert (Hreads : forall ρ o l, below (read_events ρ o l) v).
  { intros ρ o l. rewrite <- (app_nil_r (read_events _ _ _)). apply below_reads. intros t1 t2 u d w E. by destruct t1. }
  apply runs_induction; intros; auto.
  - apply below_reads. intros t1 t2 u d w E. destruct t1 as [|? [|? ?]]; done.
  - apply below_reads. apply recorded_app in H5 as [_ ?]. cbn [loops_at every] in *. apply andb_prop in H2 as [_ [? _]%andb_prop].
    apply extended_app in H3 as [? _]. apply H1; auto. intros st en Hin. apply (H4 st en), elem_of_app. by left.
  - apply below_reads. apply recorded_app in H5 as [_ ?]. cbn [loops_at every] in *. apply andb_prop in H2 as [_ [_ ?]%andb_prop].
    apply extended_app in H3 as [_ ?]. apply H1; auto. intros st en Hin. apply (H4 st en), elem_of_app. by right.
  - apply below_reads, below_reads. apply recorded_app in H7 as [_ [_ Hrec]%recorded_app].
    pose proof (every_loop_body _ _ _ _ _ _ _ H H4) as [Htail _]. apply loop_view_parts in H as Hp. destruct Hp as (_ & _ & Hloops & _).
    intros t1 t2 u d w E Hin.
    assert (Hd : d < o + leaves body - 1). { eapply loop_tail_writes; [done | done | done |]. rewrite E. apply elem_of_app. by left. }
    assert (Hu : Rd u v ∈ t) by (rewrite E; apply elem_of_app; right; by left).
    pose proof (proj1 (runs_loop_placed _ _ _ _ _ _ H2) _ Hu) as Hou. cbn in Hou. specialize (Hrec _ _ Hu).
    assert (Hl : (o, o + leaves body - 1) ∈ loops_at o s) by (rewrite Hloops; apply elem_of_app; right; by left).
    specialize (H5 _ _ v Hl (H6 _ _ Hl)). lia.
  - cbn [forallb loops_seq] in *. apply andb_prop in H3 as [Hs Hl]. apply extended_app in H4 as [Hx1 Hx2]. apply recorded_app in H6 as [Hr1 Hr2].
    intros a b u d w E Hin. symmetry in E. apply app_split in E as [(r & -> & ->)|(r & -> & ->)].
    + eapply H0; try done. intros st en Hst. apply (H5 st en), elem_of_app. by left.
    + assert (Hu : Rd u v ∈ r ++ Rd u v :: b) by (apply elem_of_app; right; by left).
      apply elem_of_app in Hin as [Hin|Hin].
      * pose proof (runs_write _ _ _ _ _ _ _ _ H Hin) as [_ ?]. pose proof (proj1 (runs_seq_placed _ _ _ _ _ _ H1) _ Hu). cbn in *.
        specialize (Hr2 _ _ Hu). pose proof (raw_last_le v). lia.
      * eapply H2; try done. intros st en Hst. apply (H5 st en), elem_of_app. by right.
  - cbn [forallb loops_seq] in *. apply andb_prop in H2 as [Hs _]. apply extended_app in H3 as [Hx1 _].
    apply H0; auto. intros st en Hst. apply (H4 st en), elem_of_app. by left.
Qed.

(** Between the write of a variable and a read of it, what is written is written
    after it and before its last use. *)
Definition windowed (t : list event) (v : positive) : Prop :=
  forall t1 t2 t3 d u, t = t1 ++ Wr d v :: t2 ++ Rd u v :: t3 -> (forall d', Wr d' v ∉ t2) ->
    d <= u /\ forall d' w, Wr d' w ∈ t2 -> d <= d' < last v.

Lemma windowed_reads ρ o l t v : windowed t v -> windowed (read_events ρ o l ++ t) v.
Proof.
  intros H t1 t2 t3 d u E Hno. symmetry in E. apply app_split in E as [(r & E & _)|(r & -> & ->)]; [|by eapply H].
  destruct (read_events_no_write ρ o l d v). rewrite E. apply elem_of_app. right. by left.
Qed.

Definition defined_at (ds : list (IRVar * Z)) : Prop := forall x d, (x, d) ∈ ds -> D (var_id x) = d.

Lemma defined_at_app l1 l2 : defined_at (l1 ++ l2) -> defined_at l1 /\ defined_at l2.
Proof. intros H. split; intros x d Hin; apply H, elem_of_app; auto. Qed.

Lemma runs_windowed_all v :
  (forall ρ o s t out ρ', runs ρ o s t out ρ' -> NoDup (defines s) -> every loop_tail s = true -> defined_at (defs_at o s) ->
     extended D (loops_at o s) -> recorded t -> ~ stored ρ v -> windowed t v) /\
  (forall ρ o l t out ρ', runs_seq ρ o l t out ρ' -> NoDup (defines (SeqStmts l)) -> forallb (every loop_tail) l = true ->
     defined_at (defs_seq o l) -> extended D (loops_seq o l) -> recorded t -> ~ stored ρ v -> windowed t v) /\
  (forall ρ o head body t out, runs_loop ρ o head body t out -> NoDup (defines body) -> every loop_tail body = true ->
     defined_at (defs_at o body) -> extended D (loops_at o body) -> recorded t -> ~ stored ρ v -> windowed t v).
Proof.
  assert (Hnil : windowed [] v) by (intros t1 t2 t3 d u E; by destruct t1).
  assert (Hreads : forall ρ o l, windowed (read_events ρ o l) v).
  { intros ρ o l. rewrite <- (app_nil_r (read_events _ _ _)). apply windowed_reads. intros t1 t2 t3 d u E. by destruct t1. }
  apply runs_induction; intros; auto.
  - apply windowed_reads. intros t1 t2 t3 d u E. destruct t1 as [|? [|? ?]]; try done. injection E as _ _ E. by destruct t2.
  - apply windowed_reads. apply recorded_app in H6 as [_ ?]. rewrite defines_if in H2. apply NoDup_app in H2 as (? & _).
    cbn [loops_at defs_at every] in *. apply andb_prop in H3 as [_ [? _]%andb_prop].
    apply extended_app in H5 as [? _]. apply defined_at_app in H4 as [? _]. by apply H1.
  - apply windowed_reads. apply recorded_app in H6 as [_ ?]. rewrite defines_if in H2. apply NoDup_app in H2 as (_ & _ & ?).
    cbn [loops_at defs_at every] in *. apply andb_prop in H3 as [_ [_ ?]%andb_prop].
    apply extended_app in H5 as [_ ?]. apply defined_at_app in H4 as [_ ?]. by apply H1.
  - apply windowed_reads, windowed_reads. apply recorded_app in H8 as [_ [_ ?]%recorded_app].
    pose proof (every_loop_body _ _ _ _ _ _ _ H H5) as [_ ?]. rewrite (defines_loop _ _ _ _ _ _ H) in H4.
    apply loop_view_parts in H as (_ & Hdefs & Hloops & _). rewrite Hdefs in H6. rewrite Hloops in H7. apply extended_app in H7 as [? _]. by apply H3.
  - rewrite defines_seq in H3. apply NoDup_app in H3 as (Hs & Hdis & Hl). cbn [forallb loops_seq defs_seq] in *.
    apply andb_prop in H4 as [Ht1 Ht2]. apply extended_app in H6 as [Hx1 Hx2]. apply defined_at_app in H5 as [Hd1 Hd2].
    apply recorded_app in H7 as [Hr1 Hr2]. intros a b c d u E Hno. symmetry in E.
    apply app_split in E as [(r & -> & E)|(r & -> & ->)].
    + assert (Hv : v ∈ defines s /\ o <= d < o + leaves s).
      { eapply (runs_write _ _ _ _ _ _ d v H), elem_of_app. right. by left. }
      apply app_split in E as [(r' & -> & ->)|(r' & -> & ->)].
      * eapply H0; try done.
      * assert (Hu : Rd u v ∈ r' ++ Rd u v :: c) by (apply elem_of_app; right; by left).
        pose proof (proj1 (runs_seq_placed _ _ _ _ _ _ H1) _ Hu) as Hou. cbn in Hou.
        assert (Hst : stored ρ1 v). { eapply (runs_seq_opens _ _ _ _ _ _ H1); [done |]. intros d' Hd'. apply (Hno d'), elem_of_app. by right. }
        assert (HD : D v = d). { destruct (proj2 (runs_placed _ _ _ _ _ _ H) d v) as (x & Hx & <-); [apply elem_of_app; right; by left |]. by apply Hd1. }
        specialize (Hr2 _ _ Hu) as Hraw. pose proof (raw_last_le v). split; [lia |]. intros d' w [Hw|Hw]%elem_of_app.
        -- pose proof (proj1 runs_later_all _ _ _ _ _ _ H Hs v Hst H8 a r d d' w eq_refl Hw).
           pose proof (runs_write _ _ _ _ _ _ d' w H ltac:(apply elem_of_app; right; by right)) as [_ ?]. lia.
        -- pose proof (runs_seq_write _ _ _ _ _ _ d' w H1 ltac:(apply elem_of_app; by left)) as [_ ?]. split; [lia |].
           eapply (proj1 (proj2 (runs_below_all v))); try done. intros st en Hst'. rewrite HD.
           rewrite <- loops_at_seq in Hst'. apply loops_at_range in Hst'. lia.
    + assert (Hv : v ∈ defines (SeqStmts l)) by (eapply (runs_seq_write _ _ _ _ _ _ d v H1), elem_of_app; right; by left).
      eapply H2; try done. intros [?|(d2 & Hw2)]%(runs_stored _ _ _ _ _ _ v H); [done |].
      apply (Hdis v); [by eapply (runs_write _ _ _ _ _ _ d2 v H) | done].
  - rewrite defines_seq in H2. apply NoDup_app in H2 as (? & _). cbn [forallb loops_seq defs_seq] in *.
    apply andb_prop in H3 as [? _]. apply extended_app in H5 as [? _]. apply defined_at_app in H4 as [? _]. by apply H0.
  - apply windowed_reads. apply recorded_app in H9 as [_ [Hr1 Hr2]%recorded_app]. intros a b c d u E Hno. symmetry in E.
    apply app_split in E as [(r & -> & E)|(r & -> & ->)]; [|by eapply H4].
    apply app_split in E as [(r' & -> & ->)|(r' & -> & ->)]; [by eapply H1 |].
    destruct H10. eapply (runs_loop_opens _ _ _ _ _ _ H3); [done |]. intros d' Hd'. apply (Hno d'), elem_of_app. by right.
  - apply windowed_reads. apply recorded_app in H7 as [_ Hr1]. by apply H1.
Qed.

End Windows.
