(* ===== verification/LifetimeSound.v ===== *)
(** * What the lifetime analysis records

    The analysis of a well-formed body returns; it numbers definitions and loops
    as the static functions of [Runs] do, and records every read of every run at
    the variable whose storage is read. *)

From Stdlib Require Import ZArith Lia Bool List String.
From stdpp Require Import base gmap list option strings.
From S2P Require Import Prelude Dtype ScalarExpr Storage Dsa Memref DsaAdapter Stmt Lifetime Runs RunsSound.

Lemma fold_result_app {A S} (f : A -> S -> result S) l1 l2 s :
  fold_result f (l1 ++ l2) s = (let* s := fold_result f l1 s in fold_result f l2 s).
Proof. revert s. induction l1 as [|x l1 IH]; intros s; cbn [app fold_result]; [done |]. destruct (f x s); cbn [bind]; [apply IH | done]. Qed.

(** ** Invariants *)

(** [D] are the variables defined anywhere, [N] the names met so far. *)
Record analysed (D N : list positive) (a : LifetimeAnalyzer) : Prop := {
  an_order : 0 <= current_order a;
  an_def : forall v d, var_def_order a !! v = Some d -> 0 <= d <= current_order a;
  an_raw : forall v u, var_raw_last_use a !! v = Some u -> exists d, var_def_order a !! v = Some d /\ d <= u <= current_order a;
  an_known : forall x, is_Some (var_def_order a !! x) \/ is_Some (phi_local_sources a !! x) \/ is_Some (return_var_to_init_var a !! x) -> x ∈ N;
  an_phi : forall x l v, phi_local_sources a !! x = Some l -> v ∈ l -> is_Some (var_def_order a !! v);
  an_apart : forall x, is_Some (var_def_order a !! x) \/ x ∈ D -> phi_local_sources a !! x = None /\ return_var_to_init_var a !! x = None
}.

(** More uses. *)
Definition raw_le (a a' : LifetimeAnalyzer) : Prop :=
  forall v u, var_raw_last_use a !! v = Some u -> exists u', var_raw_last_use a' !! v = Some u' /\ u <= u'.

Lemma raw_le_refl a : raw_le a a.
Proof. intros v u H. by exists u. Qed.
Lemma raw_le_trans a b c : raw_le a b -> raw_le b c -> raw_le a c.
Proof. intros H1 H2 v u (u1 & (u2 & ? & ?)%H2 & ?)%H1. exists u2. split; [done | lia]. Qed.

(** [v] is read at [order]. *)
Definition read_at (a : LifetimeAnalyzer) (v : positive) (order : Z) : Prop :=
  exists u, var_raw_last_use a !! v = Some u /\ order <= u.

Lemma read_at_le a a' v order : raw_le a a' -> read_at a v order -> read_at a' v order.
Proof. intros H (u & (u' & ? & ?)%H & ?). exists u'. split; [done | lia]. Qed.

(** The state after uses: only the uses have changed. *)
Definition with_raw (a : LifetimeAnalyzer) (m : gmap positive Z) : LifetimeAnalyzer :=
  MkLifetimeAnalyzer (current_order a) (loop_scopes a) (ordered_defs a) (var_def_order a) m
    (var_def_stmt a) (return_var_to_init_var a) (var_family_ids a) (next_family_id a) (phi_local_sources a).

(** What [analysed] says of the uses. *)
Definition raw_ok (a : LifetimeAnalyzer) : Prop :=
  forall v u, var_raw_last_use a !! v = Some u -> exists d, var_def_order a !! v = Some d /\ d <= u <= current_order a.
Definition defs_below (o : Z) (a : LifetimeAnalyzer) : Prop := forall v d, var_def_order a !! v = Some d -> 0 <= d <= o.
(** The sources of the result of a branch are not results of branches. *)
Definition phi_terminal (a : LifetimeAnalyzer) : Prop :=
  forall x l v, phi_local_sources a !! x = Some l -> v ∈ l -> phi_local_sources a !! v = None.

Definition used (o : Z) (a a' : LifetimeAnalyzer) : Prop :=
  exists m, a' = with_raw a m /\ raw_le a a' /\ (o <= current_order a -> defs_below o a -> raw_ok a -> raw_ok a').

Lemma used_refl o a : used o a a.
Proof. exists (var_raw_last_use a). split_and!; [by destruct a | apply raw_le_refl | done]. Qed.

Lemma used_trans o a b c : used o a b -> used o b c -> used o a c.
Proof. intros (m & -> & H1 & H2) (m' & -> & H3 & H4). exists m'. split_and!; [done | by eapply raw_le_trans | auto]. Qed.

Lemma used_with_use o a v d : var_def_order a !! v = Some d -> used o a (with_use a v o).
Proof.
  intros Hd. exists (<[ v := Z.max (default 0 (var_raw_last_use a !! v)) o ]> (var_raw_last_use a)). split_and!; [done | |].
  - intros w u Hw. cbn. destruct (decide (w = v)) as [->|Hne].
    + rewrite Hw, lookup_insert_eq. eexists. split; [done |]. cbn. lia.
    + rewrite lookup_insert_ne by done. by exists u.
  - intros Ho Hb Hr w u Hw. cbn in Hw. apply lookup_insert_Some in Hw as [[<- <-]|[_ Hw]]; [|by apply Hr].
    exists d. split; [done |]. cbn. specialize (Hb _ _ Hd). destruct (var_raw_last_use a !! v) as [u|] eqn:E; cbn; [|lia].
    destruct (Hr _ _ E) as (d' & ? & ?). simplify_eq. lia.
Qed.

(** The variable whose storage [x] stands for, as the analysis has it. *)
Definition stands (a : LifetimeAnalyzer) (x v : positive) : Prop :=
  is_Some (var_def_order a !! v) /\
  (x = v /\ phi_local_sources a !! x = None /\ return_var_to_init_var a !! x = None \/
   (exists l, phi_local_sources a !! x = Some l /\ v ∈ l) /\ return_var_to_init_var a !! v = None \/
   phi_local_sources a !! x = None /\ return_var_to_init_var a !! x = Some v).

Lemma used_stands o a b x v : used o a b -> stands a x v -> stands b x v.
Proof. by intros (m & -> & _). Qed.
Lemma used_terminal o a b : used o a b -> phi_terminal a -> phi_terminal b.
Proof. by intros (m & -> & _). Qed.

Lemma fold_used {A} (f : A -> LifetimeAnalyzer -> result LifetimeAnalyzer) o l : forall a,
  (forall x b, x ∈ l -> used o a b -> exists b', f x b = Ok b' /\ used o b b') ->
  exists a', fold_result f l a = Ok a' /\ used o a a' /\
    (forall x, x ∈ l -> exists b b', used o a b /\ f x b = Ok b' /\ raw_le b' a').
Proof.
  induction l as [|x l IH]; intros a H; cbn [fold_result].
  { exists a. split_and!; [done | apply used_refl | by intros x ?%elem_of_nil]. }
  destruct (H x a ltac:(by left) (used_refl _ _)) as (b & Hb & Hu). rewrite Hb. cbn [bind].
  destruct (IH b) as (a' & Ha & Hu' & Hl).
  { intros y c Hy Hc. apply H; [by right | by eapply used_trans]. }
  exists a'. split_and!; [done | by eapply used_trans |]. intros y [->|Hy]%elem_of_cons.
  - exists a, b. split_and!; [apply used_refl | done |]. by destruct Hu' as (m & _ & ? & _).
  - destruct (Hl y Hy) as (c & c' & ? & ? & ?). exists c, c'. split_and!; [by eapply used_trans | done | done].
Qed.

Lemma record_use_terminal n o v a : phi_local_sources a !! v = None ->
  exists a', record_use (S n) o v a = Ok a' /\ used o a a' /\
    (is_Some (var_def_order a !! v) -> return_var_to_init_var a !! v = None -> read_at a' v o) /\
    (forall w, return_var_to_init_var a !! v = Some w -> is_Some (var_def_order a !! w) -> read_at a' w o).
Proof.
  intros Hphi. cbn [record_use]. rewrite Hphi.
  assert (Hread : forall w, read_at (with_use a w o) w o).
  { intros w. eexists. cbn. rewrite lookup_insert_eq. split; [done | lia]. }
  destruct (return_var_to_init_var a !! v) as [w|] eqn:Er; cbn [default from_option id].
  - destruct (var_def_order a !! w) as [d|] eqn:Ed.
    + eexists. split_and!; [done | by eapply used_with_use | done |]. by intros ? [= <-] _.
    + eexists. split_and!; [done | apply used_refl | done |]. intros ? [= <-] [? ?]. congruence.
  - destruct (var_def_order a !! v) as [d|] eqn:Ed.
    + eexists. split_and!; [done | by eapply used_with_use | done | done].
    + eexists. split_and!; [done | apply used_refl | by intros [? ?] | done].
Qed.

Lemma RecordRawUse_used o x a : phi_terminal a ->
  exists a', RecordRawUse o x a = Ok a' /\ used o a a' /\ (forall v, stands a x v -> read_at a' v o).
Proof.
  intros Ht. unfold RecordRawUse. destruct (phi_local_sources a !! x) as [l|] eqn:Hx.
  - assert (Hs : exists n, size (phi_local_sources a) = S n).
    { destruct (size (phi_local_sources a)) eqn:E; [|eauto]. apply map_size_empty_inv in E. by rewrite E, lookup_empty in Hx. }
    destruct Hs as [n ->]. set (fuel := S n). cbn [record_use]. rewrite Hx. subst fuel.
    destruct (fold_used (record_use (S n) o) o l a) as (a' & Ha & Hu & Hl).
    { intros v b Hv Hb. destruct (record_use_terminal n o v b) as (b' & ? & ? & _); [|eauto].
      destruct Hb as (m & -> & _). by apply (Ht x l). }
    exists a'. split_and!; [done | done |]. intros v (Hd & Hst). assert (Hv : v ∈ l /\ return_var_to_init_var a !! v = None).
    { destruct Hst as [(_ & ? & _)|[((l' & ? & ?) & ?)|(? & _)]]; simplify_eq; done. }
    destruct Hv as [Hv Hr]. destruct (Hl v Hv) as (b & b' & Hb & Hf & Hle).
    destruct (record_use_terminal n o v b) as (c & Hc & _ & Hread & _). { destruct Hb as (m & -> & _). by apply (Ht x l). }
    rewrite Hf in Hc. injection Hc as <-. eapply read_at_le; [done |]. destruct Hb as (m & -> & _). by apply Hread.
  - destruct (record_use_terminal (size (phi_local_sources a)) o x a Hx) as (a' & ? & ? & H1 & H2).
    exists a'. split_and!; [done | done |]. intros v (Hd & [(-> & _ & ?)|[((l' & ? & ?) & _)|(_ & ?)]]); [by apply H1 | congruence | by apply H2].
Qed.

(** The names of some expressions are used. *)
Definition reads_used (l : list (bool * IRVar)) (o : Z) (a a' : LifetimeAnalyzer) : Prop :=
  used o a a' /\ forall x v, x ∈ read_names l -> stands a x v -> read_at a' v o.

Lemma read_names_in l x : x ∈ read_names l -> exists y, y ∈ map snd l /\ var_id y = x.
Proof.
  unfold read_names. intros ([c y] & Hin & H)%list_elem_of_omap. destruct (negb c && is_tile y); [|done]. injection H as <-.
  exists y. split; [|done]. by apply (list_elem_of_fmap_2 snd) in Hin.
Qed.

Lemma fold_reads {A} (f : A -> LifetimeAnalyzer -> result LifetimeAnalyzer) (g : A -> list (bool * IRVar)) o l a :
  (forall x b, used o a b -> exists b', f x b = Ok b' /\ reads_used (g x) o b b') ->
  exists a', fold_result f l a = Ok a' /\ reads_used (flat_map g l) o a a'.
Proof.
  intros H. destruct (fold_used f o l a) as (a' & Ha & Hu & Hl).
  { intros x b _ Hb. destruct (H x b Hb) as (b' & ? & ? & _). eauto. }
  exists a'. split; [done |]. split; [done |]. intros x v Hx Hst.
  apply list_elem_of_omap in Hx as (y & Hy & Hx). apply list_elem_of_In, in_flat_map in Hy as (z & Hz & Hy).
  destruct (Hl z) as (b & b' & Hb & Hf & Hle); [by apply list_elem_of_In |]. destruct (H z b Hb) as (c & Hc & _ & Hr).
  rewrite Hf in Hc. injection Hc as <-. eapply read_at_le; [done |]. apply (Hr x); [|by eapply used_stands].
  apply list_elem_of_omap. exists y. split; [by apply list_elem_of_In | done].
Qed.

Lemma CollectUsesFromExpr_used o e a : phi_terminal a ->
  exists a', CollectUsesFromExpr o e a = Ok a' /\ reads_used (mentions e) o a a'.
Proof.
  intros Ht. unfold CollectUsesFromExpr, vars.
  destruct (fold_used (fun v => RecordRawUse o (var_id v)) o (map snd (mentions e)) a) as (a' & Ha & Hu & Hl).
  { intros x b _ Hb. destruct (RecordRawUse_used o (var_id x) b) as (b' & ? & ? & _); [by eapply used_terminal | eauto]. }
  exists a'. split; [done |]. split; [done |]. intros x v (y & Hy & <-)%read_names_in Hst.
  destruct (Hl y Hy) as (b & b' & Hb & Hf & Hle). destruct (RecordRawUse_used o (var_id y) b) as (c & Hc & _ & Hr); [by eapply used_terminal |].
  rewrite Hf in Hc. injection Hc as <-. eapply read_at_le; [done |]. apply Hr. by eapply used_stands.
Qed.

(** ** Results of branches *)

(** [p'] has the sources of [p] and, when they are in the range, those of [src]. *)
Definition sourced (a : LifetimeAnalyzer) (start stop : Z) (src : positive) (p p' : PhiSources) : Prop :=
  (forall v, v ∈ local_sources p -> v ∈ local_sources p') /\
  (forall v, v ∈ local_sources p' -> v ∈ local_sources p \/ is_Some (var_def_order a !! v)) /\
  (forall v, branch_local a v start stop = true ->
     src = v /\ phi_local_sources a !! src = None \/
     (exists l, phi_local_sources a !! src = Some l /\ v ∈ l /\ src ∉ seen_phi p) -> v ∈ local_sources p') /\
  (forall y, y ∈ seen_phi p' -> y ∈ seen_phi p \/ y = src).

Lemma branch_local_defined a v start stop : branch_local a v start stop = true -> is_Some (var_def_order a !! v).
Proof. unfold branch_local. destruct (start <? 0); [done |]. destruct (var_def_order a !! v); [eauto | done]. Qed.

Lemma add_source_terminal n a family start stop src p : phi_local_sources a !! src = None ->
  exists p', add_source_var (S n) a family start stop src p = Ok p' /\ sourced a start stop src p p' /\ seen_phi p' = seen_phi p.
Proof.
  intros Hphi. cbn [add_source_var]. rewrite Hphi. destruct (branch_local a src start stop) eqn:E; cbn [negb].
  - eexists. split; [done |]. split; [|done]. unfold sourced; cbn [local_sources seen_phi]. split_and!.
    + intros v Hv. apply elem_of_app. by left.
    + intros v [Hv| ->%list_elem_of_singleton]%elem_of_app; [by left | right]. by eapply branch_local_defined.
    + intros v Hb [(<- & _)|(l & ? & _)]; [apply elem_of_app; right; by left | congruence].
    + auto.
  - eexists. split; [done |]. split; [|done]. split_and!; auto. intros v Hb [(<- & _)|(l & ? & _)]; congruence.
Qed.

Lemma fold_sources n a family start stop l : forall p, (forall v, v ∈ l -> phi_local_sources a !! v = None) ->
  exists p', fold_result (add_source_var (S n) a family start stop) l p = Ok p' /\ seen_phi p' = seen_phi p /\
    (forall v, v ∈ local_sources p -> v ∈ local_sources p') /\
    (forall v, v ∈ local_sources p' -> v ∈ local_sources p \/ is_Some (var_def_order a !! v)) /\
    (forall v, branch_local a v start stop = true -> v ∈ l -> v ∈ local_sources p').
Proof.
  induction l as [|w l IH]; intros p Hl; cbn [fold_result].
  { exists p. split_and!; auto. by intros v _ ?%elem_of_nil. }
  destruct (add_source_terminal n a family start stop w p) as (p1 & -> & (H1 & H2 & H3 & _) & Hs1); [apply Hl; by left |]. cbn [bind].
  destruct (IH p1) as (p2 & -> & Hs2 & H4 & H5 & H6); [intros v Hv; apply Hl; by right |].
  exists p2. split_and!; [done | congruence | auto | |].
  - intros v [Hv|?]%H5; [by apply H2 in Hv | by right].
  - intros v Hb [->|Hv]%elem_of_cons; [|by apply H6]. apply H4, H3; [done |]. left. split; [done |]. apply Hl. by left.
Qed.

Lemma add_source_spec a family value range p : phi_terminal a ->
  exists p', add_source a family value range p = Ok p' /\
    match value ≫= AsVarLike with Some x => sourced a range.1 range.2 (var_id x) p p' | None => p' = p end.
Proof.
  intros Ht. unfold add_source. destruct (value ≫= AsVarLike) as [x|]; [|eauto].
  destruct (phi_local_sources a !! var_id x) as [l|] eqn:Hx.
  - change (2 + size (phi_local_sources a))%nat with (S (S (size (phi_local_sources a)))).
    set (n := S (size (phi_local_sources a))). cbn [add_source_var]. rewrite Hx. case_bool_decide as Hseen.
    + exists p. split; [done |]. split_and!; auto. intros v _ [(_ & ?)|(l' & _ & _ & ?)]; congruence.
    + destruct (fold_sources (size (phi_local_sources a)) a family range.1 range.2 l
        (MkPhiSources (local_sources p) ({[ var_id x ]} ∪ seen_phi p) (families p))) as (p' & Hp & Hs & H1 & H2 & H3).
      { intros v Hv. by apply (Ht (var_id x) l). }
      exists p'. split; [done |]. split_and!; [done | done | |].
      * intros v Hb [(_ & ?)|(l' & ? & Hv & _)]; [congruence |]. simplify_eq. by apply H3.
      * rewrite Hs. cbn. set_solver.
  - destruct (add_source_terminal (S (size (phi_local_sources a))) a family range.1 range.2 (var_id x) p Hx) as (p' & ? & ? & _). eauto.
Qed.

(** Only results of branches among [ns] have changed. *)
Definition phis_changed (ns : list positive) (a a' : LifetimeAnalyzer) : Prop :=
  exists fs next phis, a' = with_families a fs next phis /\ forall x, x ∉ ns -> phis !! x = phi_local_sources a !! x.

(** What a branch's value contributes to a result. *)
Definition contributes (a : LifetimeAnalyzer) (range : Z * Z) (seen : positive -> Prop) (value : option IRExpr) (v : positive) : Prop :=
  branch_local a v range.1 range.2 = true /\ exists x, value ≫= AsVarLike = Some x /\
  (var_id x = v /\ phi_local_sources a !! v = None \/
   exists l, phi_local_sources a !! var_id x = Some l /\ v ∈ l /\ ~ seen (var_id x)).

Lemma analysed_terminal D N a : analysed D N a -> phi_terminal a.
Proof. intros H x l v Hx Hv. apply (an_apart _ _ _ H). left. by eapply (an_phi _ _ _ H). Qed.

Lemma analysed_phi D N a rv fs next sources :
  analysed D N a -> rv ∉ N -> rv ∉ D -> (forall v, v ∈ sources -> is_Some (var_def_order a !! v)) ->
  analysed D (N ++ [rv]) (with_families a fs next (<[ rv := sources ]> (phi_local_sources a))).
Proof.
  intros Ha HN HD Hs. pose proof Ha as [? ? ? Hk Hp Hap]. split; cbn; try done.
  - intros x H. apply elem_of_app. destruct (decide (x = rv)) as [->|Hne]; [right; by left | left]. apply Hk.
    destruct H as [H|[H|H]]; auto. rewrite lookup_insert_ne in H by done. auto.
  - intros x l v Hx Hv. apply lookup_insert_Some in Hx as [[_ <-]|[_ Hx]]; [by apply Hs | by eapply Hp].
  - intros x Hx. destruct (decide (x = rv)) as [->|Hne].
    + destruct Hx as [Hx|Hx]; [|done]. destruct HN. apply Hk. by left.
    + rewrite lookup_insert_ne by done. by apply Hap.
Qed.

Lemma analysed_mono D N N' a : analysed D N a -> (forall x, x ∈ N -> x ∈ N') -> analysed D N' a.
Proof. intros [] ?. split; auto. Qed.

Lemma analysed_families D N a fs next : analysed D N a -> analysed D N (with_families a fs next (phi_local_sources a)).
Proof. by intros []. Qed.

Lemma register_phi_spec D N then_range else_range rv then_value else_value a :
  analysed D N a -> (is_tile rv = true -> (var_id rv ∉ N) /\ (var_id rv ∉ D)) ->
  exists a', register_phi then_range else_range (rv, (then_value, else_value)) a = Ok a' /\
    analysed D (N ++ tile_ids [rv]) a' /\ phis_changed (tile_ids [rv]) a a' /\
    forall v, is_Some (tile_memref rv) ->
      contributes a then_range (fun _ => False) then_value v \/
      contributes a else_range (fun y => exists x, then_value ≫= AsVarLike = Some x /\ y = var_id x) else_value v ->
      exists l, phi_local_sources a' !! var_id rv = Some l /\ v ∈ l.
Proof.
  intros Ha Hrv. unfold register_phi. destruct (tile_memref rv) as [m|] eqn:Hm.
  2:{ exists a. split_and!; [done | by eapply analysed_mono; [|intros; apply elem_of_app; left] | |by intros v [? ?]].
      exists (var_family_ids a), (next_family_id a), (phi_local_sources a). split; [by destruct a | done]. }
  assert (Htile : is_tile rv = true) by (unfold tile_memref, is_tile in *; by destruct (GetType rv)).
  destruct (Hrv Htile) as [HN HD]. assert (Hids : tile_ids [rv] = [var_id rv]) by (unfold tile_ids; cbn; by rewrite Htile). rewrite Hids.
  pose proof (analysed_terminal _ _ _ Ha) as Ht.
  destruct (add_source_spec a (next_family_id a) then_value then_range (MkPhiSources [] ∅ (var_family_ids a)) Ht) as (p1 & -> & H1). cbn [bind].
  destruct (add_source_spec a (next_family_id a) else_value else_range p1 Ht) as (p2 & -> & H2). cbn [bind].
  assert (Hdef : forall v, v ∈ local_sources p2 -> is_Some (var_def_order a !! v)).
  { intros v Hv. destruct (else_value ≫= AsVarLike); [|subst p2]; [apply H2 in Hv as [Hv|?]; [|done]|];
      (destruct (then_value ≫= AsVarLike); [apply H1 in Hv as [Hv|?]; [|done] | subst p1]; by apply elem_of_nil in Hv). }
  assert (Hkeep : forall v, v ∈ local_sources p1 -> v ∈ local_sources p2).
  { destruct (else_value ≫= AsVarLike); [apply H2 | by subst]. }
  assert (Hin : forall v, contributes a then_range (fun _ => False) then_value v \/
      contributes a else_range (fun y => exists x, then_value ≫= AsVarLike = Some x /\ y = var_id x) else_value v -> v ∈ local_sources p2).
  { intros v [(Hb & x & Hx & Hc)|(Hb & x & Hx & Hc)]; rewrite Hx in *.
    - apply Hkeep, H1; [done |]. destruct Hc as [(? & ?)|(l & ? & ? & _)]; [left; split; congruence | right]. exists l. set_solver.
    - apply H2; [done |]. destruct Hc as [(? & ?)|(l & ? & ? & Hn)]; [left; split; congruence | right]. exists l. split_and!; [done.. |].
      intros Hs. destruct (then_value ≫= AsVarLike) as [z|]; [|subst p1; set_solver]. apply H1 in Hs as [Hs|Hs]; [set_solver | apply Hn; eauto]. }
  destruct (local_sources p2) as [|w sources] eqn:El.
  - eexists. split; [done |]. split_and!.
    + eapply analysed_mono; [by apply analysed_families |]. intros; apply elem_of_app; by left.
    + repeat eexists; done.
    + intros v _ Hc. apply Hin, elem_of_nil in Hc. done.
  - eexists. split; [done |]. split_and!.
    + apply analysed_phi; auto. 
    + do 3 eexists. split; [done |]. intros x Hx. rewrite lookup_insert_ne; [done |]. intros <-. apply Hx. by left.
    + intros v _ Hc. cbn. rewrite lookup_insert_eq. eexists. split; [done | by apply Hin].
Qed.

Lemma phis_changed_trans ns ns' a b c : phis_changed ns a b -> phis_changed ns' b c -> phis_changed (ns ++ ns') a c.
Proof.
  intros (f1 & n1 & p1 & -> & H1) (f2 & n2 & p2 & -> & H2). exists f2, n2, p2. split; [done |].
  intros x Hx. rewrite elem_of_app in Hx. rewrite H2 by tauto. apply H1. tauto.
Qed.

Lemma contributes_changed D N ns a b range seen value v :
  analysed D N a -> phis_changed ns a b -> (forall x, x ∈ ns -> x ∉ N) ->
  contributes a range seen value v -> contributes b range seen value v.
Proof.
  intros Ha (fs & next & phis & -> & Hp) Hns (Hb & x & Hx & Hc). split; [done |]. exists x. split; [done |]. cbn.
  destruct Hc as [[Hv Hn]|(l & Hl & ?)]; [left | right; exists l]; rewrite Hp; try done; intros Hin; apply (Hns _ Hin), (an_known _ _ _ Ha).
  - left. by eapply branch_local_defined.
  - eauto.
Qed.

Lemma fold_register_phi D then_range else_range entries : forall N a,
  analysed D N a -> NoDup (N ++ tile_ids (map fst entries)) -> (forall x, x ∈ tile_ids (map fst entries) -> x ∉ D) ->
  exists a', fold_result (register_phi then_range else_range) entries a = Ok a' /\
    analysed D (N ++ tile_ids (map fst entries)) a' /\ phis_changed (tile_ids (map fst entries)) a a' /\
    forall rv then_value else_value v, (rv, (then_value, else_value)) ∈ entries -> is_Some (tile_memref rv) ->
      contributes a then_range (fun _ => False) then_value v \/
      contributes a else_range (fun y => exists x, then_value ≫= AsVarLike = Some x /\ y = var_id x) else_value v ->
      exists l, phi_local_sources a' !! var_id rv = Some l /\ v ∈ l.
Proof.
  induction entries as [|[rv [tv ev]] entries IH]; intros N a Ha Hnd HD; cbn [fold_result map fst] in *.
  { exists a. split_and!; [done | | | by intros ? ? ? ? ?%elem_of_nil].
    - eapply analysed_mono; [done |]. intros; apply elem_of_app; by left.
    - exists (var_family_ids a), (next_family_id a), (phi_local_sources a). split; [by destruct a | done]. }
  change (rv :: map fst entries) with ([rv] ++ map fst entries) in *.
  assert (Hids : tile_ids ([rv] ++ map fst entries) = tile_ids [rv] ++ tile_ids (map fst entries)).
  { unfold tile_ids. by rewrite List.filter_app, map_app. }
  rewrite Hids, app_assoc in *. apply NoDup_app in Hnd as Hnd'. destruct Hnd' as (Hnd1 & Hdis & _).
  assert (Hone : is_tile rv = true -> tile_ids [rv] = [var_id rv]) by (intros E; unfold tile_ids; cbn; by rewrite E).
  destruct (register_phi_spec D N then_range else_range rv tv ev a Ha) as (b & -> & Hb & Hch & Hc).
  { intros E. rewrite (Hone E) in *. split; [|apply HD; by left]. apply NoDup_app in Hnd1 as (_ & Hd & _). intros Hin. apply (Hd _ Hin). by left. }
  cbn [bind]. destruct (IH _ b Hb Hnd) as (c & -> & Hc1 & Hc2 & Hc3); [intros x Hx; apply HD, elem_of_app; by right |].
  exists c. split_and!; [done | done | by eapply phis_changed_trans |].
  intros rv' tv' ev' v [[= -> -> ->]|Hin]%elem_of_cons Hm Hcon.
  - destruct (Hc v Hm Hcon) as (l & Hl & Hv). exists l. split; [|done]. destruct Hc2 as (fs & next & phis & -> & Hp). cbn. rewrite Hp; [done |].
    apply Hdis, elem_of_app. right. rewrite Hone; [by left |]. destruct Hm as [m Hm]. unfold tile_memref, is_tile in *. by destruct (GetType rv).
  - eapply Hc3; [done | done |]. assert (Hns : forall x, x ∈ tile_ids [rv] -> x ∉ N).
    { intros x Hx HN. apply NoDup_app in Hnd1 as (_ & Hd & _). by apply (Hd x). }
    destruct Hcon as [Hcon|Hcon]; [left | right]; exact (contributes_changed D N (tile_ids [rv]) a b _ _ _ _ Ha Hch Hns Hcon).
Qed.

(** ** Results of loops *)

Definition with_rets (a : LifetimeAnalyzer) (m : gmap positive positive) : LifetimeAnalyzer :=
  MkLifetimeAnalyzer (current_order a) (loop_scopes a) (ordered_defs a) (var_def_order a) (var_raw_last_use a)
    (var_def_stmt a) m (var_family_ids a) (next_family_id a) (phi_local_sources a).

Lemma tile_ids_app l1 l2 : tile_ids (l1 ++ l2) = tile_ids l1 ++ tile_ids l2.
Proof. unfold tile_ids. by rewrite List.filter_app, map_app. Qed.
Lemma tile_ids_one v : is_tile v = true -> tile_ids [v] = [var_id v].
Proof. intros E. unfold tile_ids. cbn. by rewrite E. Qed.

Lemma analysed_carry D N a rv v : analysed D N a -> rv ∉ N -> rv ∉ D -> analysed D (N ++ [rv]) (with_carry a rv v).
Proof.
  intros Ha HN HD. pose proof Ha as [? ? ? Hk Hp Hap]. split; cbn; try done.
  - intros x H. apply elem_of_app. destruct (decide (x = rv)) as [->|Hne]; [right; by left | left]. apply Hk.
    destruct H as [H|[H|H]]; auto. rewrite lookup_insert_ne in H by done. auto.
  - intros x Hx. destruct (decide (x = rv)) as [->|Hne].
    + destruct Hx as [Hx|Hx]; [|done]. destruct HN. apply Hk. by left.
    + rewrite lookup_insert_ne by done. by apply Hap.
Qed.

Lemma register_return_spec D N rv c init a :
  analysed D N a -> (is_tile rv = true -> (var_id rv ∉ N) /\ (var_id rv ∉ D)) ->
  analysed D (N ++ tile_ids [rv]) (register_return (rv, (c, init)) a) /\
  exists m, register_return (rv, (c, init)) a = with_rets a m /\
    (forall x, x ∉ tile_ids [rv] -> m !! x = return_var_to_init_var a !! x) /\
    forall x, is_tile rv = true -> ResolveCarryInitCarrier init = Some x -> is_Some (var_def_order a !! var_id x) ->
      m !! var_id rv = Some (var_id x).
Proof.
  intros Ha Hrv. cbn [register_return].
  assert (Hsame : analysed D (N ++ tile_ids [rv]) a /\ exists m, a = with_rets a m /\
    (forall x, x ∉ tile_ids [rv] -> m !! x = return_var_to_init_var a !! x)).
  { split; [eapply analysed_mono; [done |]; intros; apply elem_of_app; by left |]. exists (return_var_to_init_var a). split; [by destruct a | done]. }
  destruct Hsame as (Hs & m & Hm1 & Hm2). destruct (is_tile rv) eqn:Et; cbn [negb]; [|split; [done | by exists m]].
  destruct (ResolveCarryInitCarrier init) as [v|]; [|split; [done | by exists m]].
  case_bool_decide as Hd; [|split; [done |]; exists m; split_and!; [done.. |]; by intros x _ [= ->]].
  rewrite tile_ids_one by done. destruct (Hrv eq_refl) as [HN HD]. split; [by apply analysed_carry |].
  eexists. split_and!; [done | |].
  - intros x Hx. rewrite lookup_insert_ne; [done |]. intros <-. apply Hx. by left.
  - intros x _ [= ->] _. by rewrite lookup_insert_eq.
Qed.

Lemma RegisterReturnVars_fold D entries : forall N a,
  analysed D N a -> NoDup (N ++ tile_ids (map fst entries)) -> (forall x, x ∈ tile_ids (map fst entries) -> x ∉ D) ->
  let a' := foldl (fun a entry => register_return entry a) a entries in
  analysed D (N ++ tile_ids (map fst entries)) a' /\
  exists m, a' = with_rets a m /\
    (forall x, x ∉ tile_ids (map fst entries) -> m !! x = return_var_to_init_var a !! x) /\
    forall rv c init x, (rv, (c, init)) ∈ entries -> is_tile rv = true -> ResolveCarryInitCarrier init = Some x ->
      is_Some (var_def_order a !! var_id x) -> m !! var_id rv = Some (var_id x).
Proof.
  induction entries as [|[rv [c init]] entries IH]; intros N a Ha Hnd HD; cbn [foldl map fst] in *.
  { split; [eapply analysed_mono; [done |]; intros; apply elem_of_app; by left |].
    exists (return_var_to_init_var a). split_and!; [by destruct a | done |]. by intros ? ? ? ? ?%elem_of_nil. }
  change (rv :: map fst entries) with ([rv] ++ map fst entries) in *. rewrite tile_ids_app, app_assoc in *.
  apply NoDup_app in Hnd as Hnd'. destruct Hnd' as (Hnd1 & Hdis & _).
  destruct (register_return_spec D N rv c init a Ha) as (Hb & m & Hm & Hm1 & Hm2).
  { intros E. rewrite (tile_ids_one _ E) in *. split; [|apply HD; by left]. apply NoDup_app in Hnd1 as (_ & Hd & _).
    intros Hin. apply (Hd _ Hin). by left. }
  destruct (IH _ _ Hb Hnd) as (Hc & m' & Hm' & Hm3 & Hm4); [intros x Hx; apply HD, elem_of_app; by right |].
  cbn zeta in Hc. split; [exact Hc |]. exists m'. rewrite Hm'. rewrite Hm in *. split_and!; [done | |].
  - intros x Hx. rewrite elem_of_app in Hx. rewrite Hm3 by tauto. apply Hm1. tauto.
  - intros rv' c' init' x [[= -> -> ->]|Hin]%elem_of_cons Et Hx Hd; [|by eapply Hm4].
    rewrite Hm3; [by eapply Hm2 |]. apply Hdis, elem_of_app. right. rewrite tile_ids_one by done. by left.
Qed.

Lemma zip_fst {A B} (l : list A) (k : list B) : exists l', l = map fst (zip l k) ++ l'.
Proof.
  revert k. induction l as [|x l IH]; intros k; [by exists [] |]. destruct k as [|y k]; [by exists (x :: l) |].
  destruct (IH k) as [l' E]. exists l'. cbn. by rewrite <- E.
Qed.

Lemma RegisterReturnVars_spec D N ias rvs a :
  analysed D N a -> NoDup (N ++ tile_ids rvs) -> (forall x, x ∈ tile_ids rvs -> x ∉ D) ->
  analysed D (N ++ tile_ids rvs) (RegisterReturnVars ias rvs a) /\
  exists m, RegisterReturnVars ias rvs a = with_rets a m /\
    (forall x, x ∉ tile_ids rvs -> m !! x = return_var_to_init_var a !! x) /\
    forall rv c init x, (rv, (c, init)) ∈ zip rvs ias -> is_tile rv = true -> ResolveCarryInitCarrier init = Some x ->
      is_Some (var_def_order a !! var_id x) -> m !! var_id rv = Some (var_id x).
Proof.
  intros Ha Hnd HD. destruct (zip_fst rvs ias) as [l' E].
  assert (Hids : tile_ids rvs = tile_ids (map fst (zip rvs ias)) ++ tile_ids l') by (rewrite <- tile_ids_app; by f_equal).
  rewrite Hids in *. rewrite app_assoc in Hnd. apply NoDup_app in Hnd as (Hnd & _).
  destruct (RegisterReturnVars_fold D (zip rvs ias) N a Ha Hnd) as (Hb & m & Hm & H1 & H2).
  { intros x Hx. apply HD, elem_of_app. by left. }
  split; [eapply analysed_mono; [exact Hb |]; intros x; rewrite !elem_of_app; tauto |].
  exists m. split_and!; [done | | done]. intros x Hx. apply H1. rewrite elem_of_app in Hx. tauto.
Qed.

(** ** What the visit of a statement adds *)

(** The names [ns] may be bound, with the definitions [ds], the loops [ls] and
    carried results among [rs], in [n] orders. *)
Record grown (a a' : LifetimeAnalyzer) (ns : list positive) (ds : list (IRVar * Z)) (ls : list (Z * Z)) (rs : list positive)
    (n : Z) : Prop := {
  gr_order : current_order a' = current_order a + n;
  gr_loops : loop_scopes a' = loop_scopes a ++ ls;
  gr_ordered : ordered_defs a' = ordered_defs a ++ map fst ds;
  gr_ids : forall x d, (x, d) ∈ ds -> var_id x ∈ ns;
  gr_new : forall x d, (x, d) ∈ ds -> var_def_order a' !! var_id x = Some d;
  gr_old : forall v, v ∉ ns -> var_def_order a' !! v = var_def_order a !! v;
  gr_raw : raw_le a a';
  gr_phi : forall x, x ∉ ns -> phi_local_sources a' !! x = phi_local_sources a !! x;
  gr_ret : forall x, x ∉ rs -> return_var_to_init_var a' !! x = return_var_to_init_var a !! x
}.

Lemma grown_trans a b c ns ns' ds ds' ls ls' rs rs' n n' :
  grown a b ns ds ls rs n -> grown b c ns' ds' ls' rs' n' -> (forall x, x ∈ ns -> x ∉ ns') ->
  grown a c (ns ++ ns') (ds ++ ds') (ls ++ ls') (rs ++ rs') (n + n').
Proof.
  intros [] [] Hdis. split.
  - lia.
  - rewrite gr_loops1, gr_loops0. by rewrite app_assoc.
  - rewrite gr_ordered1, gr_ordered0, map_app. by rewrite app_assoc.
  - intros x d [H|H]%elem_of_app; apply elem_of_app; eauto.
  - intros x d [H|H]%elem_of_app; [|by apply gr_new1]. rewrite gr_old1; [by apply gr_new0 | eauto].
  - intros v Hv. rewrite elem_of_app in Hv. rewrite gr_old1, gr_old0; tauto.
  - by eapply raw_le_trans.
  - intros v Hv. rewrite elem_of_app in Hv. rewrite gr_phi1, gr_phi0; tauto.
  - intros v Hv. rewrite elem_of_app in Hv. rewrite gr_ret1, gr_ret0; tauto.
Qed.

Ltac grown_tac :=
  split; cbn; solve [done | lia | by rewrite app_nil_r | apply raw_le_refl | by intros ? ? ?%elem_of_nil | intros v u Hv; exists u; split; [done | lia]].

Lemma grown_none a : grown a a [] [] [] [] 0.
Proof. grown_tac. Qed.

(** A step that defines nothing. *)
Lemma grown_used o a a' : used o a a' -> grown a a' [] [] [] [] 0.
Proof. intros (m & -> & Hr & _). grown_tac. Qed.
Lemma grown_next a : grown a (next_order a) [] [] [] [] 1.
Proof. grown_tac. Qed.
Lemma grown_loop a scope : grown a (with_loop a scope) [] [] [scope] [] 0.
Proof. grown_tac. Qed.
Lemma grown_phis ns a a' : phis_changed ns a a' -> grown a a' ns [] [] [] 0.
Proof. intros (fs & next & phis & -> & H). grown_tac. Qed.
Lemma grown_rets ns a m : (forall x, x ∉ ns -> m !! x = return_var_to_init_var a !! x) -> grown a (with_rets a m) ns [] [] ns 0.
Proof. intros H. grown_tac. Qed.
Lemma grown_def a v e : grown (next_order a) (with_def (next_order a) v (current_order a) (Some e)) [var_id v] [(v, current_order a)] [] [] 0.
Proof.
  split; try done; cbn; try lia; try (by rewrite app_nil_r); try apply raw_le_refl.
  - intros x d [= -> ->]%list_elem_of_singleton. by left.
  - intros x d [= -> ->]%list_elem_of_singleton. by rewrite lookup_insert_eq.
  - intros x Hx. rewrite lookup_insert_ne; [done |]. intros <-. apply Hx. by left.
  - intros w u Hw. exists u. split; [done | lia].
Qed.

(** The numbers are the same up to equality. *)
Lemma grown_eq a a' ns ds ls rs n ns' ds' ls' rs' n' :
  grown a a' ns ds ls rs n -> ns = ns' -> ds = ds' -> ls = ls' -> rs = rs' -> n = n' -> grown a a' ns' ds' ls' rs' n'.
Proof. by intros H -> -> -> -> ->. Qed.

Lemma analysed_used D N o a a' : analysed D N a -> used o a a' -> o <= current_order a -> defs_below o a -> analysed D N a'.
Proof. intros [] (m & -> & _ & Hr) Ho Hb. split; try done. by apply Hr. Qed.

Lemma analysed_below D N a : analysed D N a -> defs_below (current_order a) a.
Proof. intros H v d. apply (an_def _ _ _ H). Qed.

Lemma analysed_next D N a : analysed D N a -> analysed D N (next_order a).
Proof.
  intros []. split; cbn; try done; try lia.
  - intros v d H%an_def0. lia.
  - intros v u (d & ? & ?)%an_raw0. exists d. split; [done | lia].
Qed.

Lemma analysed_loop D N a scope : analysed D N a -> analysed D N (with_loop a scope).
Proof. by intros []. Qed.

Lemma analysed_def D N a v e :
  analysed D N a -> var_id v ∉ N -> analysed D (N ++ [var_id v]) (with_def (next_order a) v (current_order a) (Some e)).
Proof.
  intros Ha Hv. pose proof Ha as [Ho Hd Hr Hk Hp Hap]. split; cbn.
  - lia.
  - intros w d [[<- <-]|[_ H]]%lookup_insert_Some; [lia |]. apply Hd in H. lia.
  - intros w u Hw. destruct (Hr _ _ Hw) as (d & ? & ?). exists d. split; [|lia]. rewrite lookup_insert_ne; [done |].
    intros <-. apply Hv, Hk. eauto.
  - intros x H. apply elem_of_app. destruct (decide (x = var_id v)) as [->|Hne]; [right; by left | left]. apply Hk.
    destruct H as [H|H]; auto. rewrite lookup_insert_ne in H by done. auto.
  - intros x l w Hx Hw. destruct (decide (w = var_id v)) as [->|Hne]; [rewrite lookup_insert_eq; eauto |].
    rewrite lookup_insert_ne by done. by eapply Hp.
  - intros x Hx. destruct (decide (x = var_id v)) as [->|Hne].
    + split; apply eq_None_not_Some; intros H; apply Hv, Hk; auto.
    + apply Hap. rewrite lookup_insert_ne in Hx by done. done.
Qed.

Lemma defines_names s : forall x, x ∈ defines s -> x ∈ names s.
Proof.
  induction s as [l IH|v e| | | |c t e rvs IHt IHe|? ? ? ? ? ? IHb|? ? ? ? IHb|? ? ? IHb| | |] using Stmt_nested_ind; intros x; try by intros ?%elem_of_nil.
  - induction IH as [|s l Hs _ IHl]; [by intros ?%elem_of_nil |]. rewrite defines_seq. cbn [names flat_map].
    intros [H|H]%elem_of_app; apply elem_of_app; [left; by apply Hs | right; by apply IHl].
  - unfold defines, tile_ids. cbn. by destruct (is_tile v).
  - rewrite defines_if. cbn [names]. intros [H|H]%elem_of_app; rewrite !elem_of_app; [left; by apply IHt |].
    destruct e as [e|]; [right; left; by apply (IHe e) | by apply elem_of_nil in H].
  - intros H. apply elem_of_app. left. by apply IHb.
  - intros H. apply elem_of_app. left. by apply IHb.
  - apply IHb.
Qed.

Definition visited (D : list positive) (s : Stmt) : Prop :=
  forall N a, analysed D N a -> NoDup (N ++ names s) -> (forall x, x ∈ names s -> x ∈ D -> x ∈ defines s) ->
  exists a', visit s a = Ok a' /\ analysed D (N ++ names s) a' /\
    grown a a' (names s) (defs_at (current_order a) s) (loops_at (current_order a) s) (loop_result_names s) (leaves s).

Lemma analysed_nil D N a : analysed D N a -> analysed D (N ++ []) a.
Proof. by rewrite app_nil_r. Qed.

Lemma visited_leaf D N o a a' :
  analysed D N a -> o = current_order a -> used o (next_order a) a' -> analysed D (N ++ []) a' /\ grown a a' [] [] [] [] 1.
Proof.
  intros Ha -> Hu. split.
  - apply analysed_nil. eapply analysed_used; [by apply analysed_next | done | cbn; lia |]. intros v d. apply (an_def _ _ _ Ha).
  - eapply grown_eq; [eapply grown_trans; [apply grown_next | by eapply grown_used |] | ..]; try done; try lia. set_solver.
Qed.

Lemma visited_assign D v e : visited D (AssignStmt v e).
Proof.
  intros N a Ha Hnd _. cbn [visit names defs_at loops_at loop_result_names leaves] in *. destruct (is_tile v) eqn:Et.
  - rewrite (tile_ids_one _ Et) in *.
    assert (Hv : var_id v ∉ N). { apply NoDup_app in Hnd as (_ & Hd & _). intros Hin. apply (Hd _ Hin). by left. }
    pose proof (analysed_def D N a v e Ha Hv) as Hb.
    destruct (CollectUsesFromExpr_used (current_order a) e (with_def (next_order a) v (current_order a) (Some e))) as (a' & -> & Hu & _).
    { by eapply analysed_terminal. }
    exists a'. split; [done |]. split.
    + eapply analysed_used; [done | done | cbn; lia |]. intros w d Hw. cbn in Hw. apply lookup_insert_Some in Hw as [[<- <-]|[_ H]].
      * pose proof (an_order _ _ _ Ha). lia. * by apply (an_def _ _ _ Ha) in H.
    + eapply grown_eq; [eapply grown_trans; [eapply grown_trans; [apply grown_next | apply grown_def |] | by eapply grown_used |] | ..]; try done; set_solver.
  - unfold tile_ids in *. cbn in *. rewrite Et in *. cbn [map] in *.
    destruct (CollectUsesFromExpr_used (current_order a) e (next_order a)) as (a' & -> & Hu & _). { by eapply (analysed_terminal D N), analysed_next. }
    exists a'. split; [done |]. by apply (visited_leaf D N (current_order a)).
Qed.

Lemma visited_values D l : visited D (YieldStmt l) /\ visited D (ReturnStmt l).
Proof.
  cut (visited D (YieldStmt l)); [done |]. intros N a Ha _ _. cbn [visit]. unfold CollectUsesFromValues.
  destruct (fold_reads (CollectUsesFromExpr (current_order a)) mentions (current_order a) l (next_order a)) as (a' & -> & Hu & _).
  { intros x b Hb. apply CollectUsesFromExpr_used. eapply used_terminal; [done |]. by eapply (analysed_terminal D N), analysed_next. }
  exists a'. split; [done |]. by apply (visited_leaf D N (current_order a)).
Qed.

Lemma visited_eval D e : visited D (EvalStmt e).
Proof.
  intros N a Ha _ _. cbn [visit].
  destruct (CollectUsesFromExpr_used (current_order a) e (next_order a)) as (a' & -> & Hu & _). { by eapply (analysed_terminal D N), analysed_next. }
  exists a'. split; [done |]. by apply (visited_leaf D N (current_order a)).
Qed.

Lemma visited_seq D l : Forall (visited D) l -> visited D (SeqStmts l).
Proof.
  intros H. unfold visited. cbn [visit names loop_result_names]. setoid_rewrite defs_at_seq. setoid_rewrite loops_at_seq.
  induction H as [|s l Hs _ IH]; intros N a Ha Hnd HD; cbn [fold_result flat_map defs_seq loops_seq] in *.
  { exists a. split; [done |]. split; [by apply analysed_nil | apply grown_none]. }
  rewrite app_assoc in Hnd. apply NoDup_app in Hnd as Hnd'. destruct Hnd' as (Hnd1 & Hdis & _).
  destruct (Hs N a Ha Hnd1) as (b & -> & Hb & Hg).
  { intros x Hx HxD. assert (Hx' : x ∈ defines (SeqStmts (s :: l))) by (apply HD; [apply elem_of_app; by left | done]).
    apply defines_cons in Hx' as [?|Hx'%defines_names]; [done |]. destruct (Hdis x); [apply elem_of_app; by right | done]. }
  cbn [bind]. rewrite app_assoc. destruct (IH (N ++ names s) b Hb Hnd) as (a' & -> & Ha' & Hg').
  { intros x Hx HxD. assert (Hx' : x ∈ defines (SeqStmts (s :: l))) by (apply HD; [apply elem_of_app; by right | done]).
    apply defines_cons in Hx' as [Hx'%defines_names|?]; [|done]. destruct (Hdis x); [apply elem_of_app; by right | done]. }
  exists a'. split; [done |]. split; [done |]. eapply grown_eq; [eapply grown_trans; [exact Hg | exact Hg' |] | ..]; try done.
  - intros x Hx. apply Hdis, elem_of_app. by right.
  - by rewrite (gr_order _ _ _ _ _ _ _ Hg).
  - by rewrite (gr_order _ _ _ _ _ _ _ Hg).
Qed.

Lemma phi_entries_fst rvs y1 y2 : map fst (phi_entries rvs y1 y2) = rvs.
Proof.
  unfold phi_entries. change (fst <$> imap (fun i (rv : IRVar) => (rv, (y1 ≫= fun l => l !! i, y2 ≫= fun l => l !! i))) rvs = rvs).
  rewrite fmap_imap. etransitivity; [apply (imap_ext _ (fun _ => id)); done |]. rewrite (imap_const id). apply list_fmap_id.
Qed.

(** The else branch, visited from [at_] with its range. *)
Definition visit_else (e : option Stmt) (at_ : LifetimeAnalyzer) (ae : LifetimeAnalyzer) (range : Z * Z) : Prop :=
  match e with
  | Some s => visit s at_ = Ok ae /\ range = (current_order at_, current_order ae - 1)
  | None => ae = at_ /\ range = (-1, -1)
  end.

Lemma visit_if_parts D c t e rvs N a :
  visited D t -> (forall s, e = Some s -> visited D s) ->
  analysed D N a -> NoDup (N ++ names (IfStmt c t e rvs)) ->
  (forall x, x ∈ names (IfStmt c t e rvs) -> x ∈ D -> x ∈ defines (IfStmt c t e rvs)) ->
  exists ac at_ ae range a',
    reads_used (mentions c) (current_order a) a ac /\ analysed D N ac /\
    visit t ac = Ok at_ /\ analysed D (N ++ names t) at_ /\
    grown ac at_ (names t) (defs_at (current_order a) t) (loops_at (current_order a) t) (loop_result_names t) (leaves t) /\
    visit_else e at_ ae range /\ analysed D ((N ++ names t) ++ from_option names [] e) ae /\
    grown at_ ae (from_option names [] e) (from_option (defs_at (current_order a + leaves t)) [] e)
      (from_option (loops_at (current_order a + leaves t)) [] e) (from_option loop_result_names [] e) (from_option leaves 0 e) /\
    fold_result (register_phi (current_order a, current_order at_ - 1) range)
      (phi_entries rvs (GetLastYieldStmt t) (e ≫= GetLastYieldStmt)) ae = Ok a' /\
    visit (IfStmt c t e rvs) a = Ok a' /\
    analysed D (N ++ names (IfStmt c t e rvs)) a' /\ phis_changed (tile_ids rvs) ae a' /\
    forall rv then_value else_value v,
      (rv, (then_value, else_value)) ∈ phi_entries rvs (GetLastYieldStmt t) (e ≫= GetLastYieldStmt) -> is_Some (tile_memref rv) ->
      contributes ae (current_order a, current_order at_ - 1) (fun _ => False) then_value v \/
      contributes ae range (fun y => exists x, then_value ≫= AsVarLike = Some x /\ y = var_id x) else_value v ->
      exists l, phi_local_sources a' !! var_id rv = Some l /\ v ∈ l.
Proof.
  intros Ht He Ha Hnd HD. cbn [names] in Hnd. cbn [visit].
  assert (Hn : match e with Some e => names e | None => [] end = from_option names [] e) by by destruct e.
  rewrite Hn in Hnd. rewrite !app_assoc in Hnd. apply NoDup_app in Hnd as Hnd'. destruct Hnd' as (Hnd2 & Hdr & _).
  apply NoDup_app in Hnd2 as Hnd'. destruct Hnd' as (Hnd1 & Hde & _).
  assert (HD' : forall x, x ∈ names (IfStmt c t e rvs) -> x ∈ D -> x ∈ names t /\ x ∈ defines t \/ x ∈ from_option names [] e /\ x ∈ from_option defines [] e).
  { intros x Hx HxD. specialize (HD x Hx HxD). rewrite defines_if in HD. apply elem_of_app in HD as [H|H].
    - left. split; [by apply defines_names | done].
    - right. split; [|done]. destruct e; [by apply defines_names | done]. }
  destruct (CollectUsesFromExpr_used (current_order a) c a) as (ac & -> & Hc). { by eapply analysed_terminal. }
  assert (Hac : analysed D N ac). { eapply analysed_used; [done | apply Hc | lia |]. by eapply analysed_below. }
  assert (Ho : current_order ac = current_order a) by by destruct Hc as [(m & -> & _) _].
  destruct (Ht N ac Hac Hnd1) as (at_ & Hvt & Hat & Hgt).
  { intros x Hx HxD. destruct (HD' x) as [[]|[Hx' _]]; [cbn; apply elem_of_app; by left | done.. |].
    destruct (Hde x); [apply elem_of_app; by right | done]. }
  rewrite Ho in Hgt.
  assert (Hels : exists ae range, visit_else e at_ ae range /\ analysed D ((N ++ names t) ++ from_option names [] e) ae /\
    grown at_ ae (from_option names [] e) (from_option (defs_at (current_order a + leaves t)) [] e)
      (from_option (loops_at (current_order a + leaves t)) [] e) (from_option loop_result_names [] e) (from_option leaves 0 e)).
  { destruct e as [e|]; cbn [from_option] in *.
    - destruct (He e eq_refl _ _ Hat Hnd2) as (ae & Hve & Hae & Hge).
      { intros x Hx HxD. destruct (HD' x) as [[Hx' _]|[]]; [cbn; rewrite !elem_of_app; auto | done | | done].
        destruct (Hde x); [apply elem_of_app; by right | done]. }
      rewrite (gr_order _ _ _ _ _ _ _ Hgt), Ho in Hge. exists ae. eexists. done.
    - exists at_, (-1, -1). split; [done |]. split; [by apply analysed_nil | apply grown_none]. }
  destruct Hels as (ae & range & Hve & Hae & Hge).
  destruct (fold_register_phi D (current_order a, current_order at_ - 1) range
    (phi_entries rvs (GetLastYieldStmt t) (e ≫= GetLastYieldStmt)) _ ae Hae) as (a' & Hf & Ha' & Hph & Hcon).
  { by rewrite phi_entries_fst. }
  { rewrite phi_entries_fst. intros x Hx HxD. destruct (HD' x) as [[Hx' _]|[Hx' _]].
    - cbn. rewrite !elem_of_app. auto. - done.
    - apply (Hdr x); [rewrite !elem_of_app; auto | done].
    - apply (Hdr x); [rewrite !elem_of_app; auto | done]. }
  rewrite phi_entries_fst in *. exists ac, at_, ae, range, a'. split_and!; try done.
  - cbn [bind]. rewrite Hvt. cbn [bind]. destruct e as [e|]; cbn in Hve |- *.
    + destruct Hve as [-> ->]. cbn [bind]. by rewrite Ho.
    + destruct Hve as [-> ->]. by rewrite Ho.
  - cbn [names]. by rewrite Hn, !app_assoc.
Qed.

Lemma visited_if D c t e rvs : visited D t -> (forall s, e = Some s -> visited D s) -> visited D (IfStmt c t e rvs).
Proof.
  intros Ht He N a Ha Hnd HD.
  destruct (visit_if_parts D c t e rvs N a Ht He Ha Hnd HD) as (ac & at_ & ae & range & a' & Hc & _ & _ & _ & Hgt & _ & _ & Hge & _ & Hv & Ha' & Hph & _).
  exists a'. split; [done |]. split; [done |]. cbn [names] in Hnd.
  assert (Hn : match e with Some e => names e | None => [] end = from_option names [] e) by by destruct e.
  rewrite Hn in Hnd. apply NoDup_app in Hnd as (_ & _ & Hnd). apply NoDup_app in Hnd as (_ & Hd1 & Hnd).
  apply NoDup_app in Hnd as (_ & Hd2 & _).
  apply (grown_eq _ _ (([] ++ names t) ++ from_option names [] e ++ tile_ids rvs)
    (([] ++ defs_at (current_order a) t) ++ from_option (defs_at (current_order a + leaves t)) [] e ++ [])
    (([] ++ loops_at (current_order a) t) ++ from_option (loops_at (current_order a + leaves t)) [] e ++ [])
    (([] ++ loop_result_names t) ++ from_option loop_result_names [] e ++ []) ((0 + leaves t) + (from_option leaves 0 e + 0))).
  2-6: cbn [names defs_at loops_at loop_result_names leaves app]; rewrite ?app_nil_r; destruct e; cbn [from_option]; rewrite ?app_nil_r; try done; lia.
  eapply grown_trans; [eapply grown_trans; [eapply grown_used, Hc | exact Hgt | set_solver] | eapply grown_trans; [exact Hge | by apply grown_phis |] |]; done.
Qed.

(** ** Loops *)

Lemma visit_loop s once head ias body rvs a : loop_view s = Some (once, head, ias, body, rvs) ->
  visit s a =
    (let* b := fold_result (fun '(_, init) a => CollectUsesFromExpr (current_order a) init a) ias a in
     let* c := visit body b in Ok (RegisterReturnVars ias rvs (with_loop c (current_order b, current_order c - 1)))).
Proof. destruct s; try discriminate; intros [= <- <- <- <- <-]; reflexivity. Qed.

Lemma visit_loop_parts D s once head ias body rvs N a :
  loop_view s = Some (once, head, ias, body, rvs) -> visited D body ->
  analysed D N a -> NoDup (N ++ names s) -> (forall x, x ∈ names s -> x ∈ D -> x ∈ defines s) ->
  exists b c a', reads_used (flat_map (fun p => mentions p.2) ias) (current_order a) a b /\ analysed D N b /\
    visit body b = Ok c /\ analysed D (N ++ names body) c /\
    grown b c (names body) (defs_at (current_order a) body) (loops_at (current_order a) body) (loop_result_names body) (leaves body) /\
    visit s a = Ok a' /\ analysed D (N ++ names s) a' /\
    exists m, a' = with_rets (with_loop c (current_order a, current_order a + leaves body - 1)) m /\
      (forall x, x ∉ tile_ids rvs -> m !! x = return_var_to_init_var c !! x) /\
      forall rv c' init x, (rv, (c', init)) ∈ zip rvs ias -> is_tile rv = true -> ResolveCarryInitCarrier init = Some x ->
        is_Some (var_def_order c !! var_id x) -> m !! var_id rv = Some (var_id x).
Proof.
  intros Hv Hb Ha Hnd HD. rewrite (visit_loop _ _ _ _ _ _ _ Hv). rewrite (defines_loop _ _ _ _ _ _ Hv) in HD.
  pose proof (loop_view_parts _ _ _ _ _ _ Hv) as (_ & _ & _ & Hn). rewrite Hn in *. rewrite app_assoc in *.
  apply NoDup_app in Hnd as Hnd'. destruct Hnd' as (Hnd1 & Hdr & _).
  destruct (fold_reads (fun '(_, init) a => CollectUsesFromExpr (current_order a) init a) (fun p => mentions p.2) (current_order a) ias a) as (b & -> & Hu).
  { intros [v init] b Hub. assert (Hob : current_order b = current_order a) by by destruct Hub as (m & -> & _). rewrite Hob.
    apply CollectUsesFromExpr_used. eapply used_terminal; [done |]. by eapply analysed_terminal. }
  assert (Hab : analysed D N b). { eapply analysed_used; [done | apply Hu | lia |]. by eapply analysed_below. }
  assert (Hob : current_order b = current_order a) by by destruct Hu as [(m & -> & _) _].
  cbn [bind]. destruct (Hb N b Hab Hnd1) as (c & Hc & Hac & Hg).
  { intros x Hx HxD. apply HD; [|done]. apply elem_of_app. by left. }
  rewrite Hc. cbn [bind]. pose proof (gr_order _ _ _ _ _ _ _ Hg) as Hoc.
  destruct (RegisterReturnVars_spec D (N ++ names body) ias rvs (with_loop c (current_order b, current_order c - 1))) as (Ha' & m & Hm & H1 & H2).
  - by apply analysed_loop. - done.
  - intros x Hx HxD. apply (Hdr x); [|done]. apply elem_of_app. right. apply defines_names, HD; [|done]. apply elem_of_app. by right.
  - rewrite Hob in *. rewrite Hoc in *. eexists b, c, _. split_and!; try done. eexists. split_and!; [exact Hm | exact H1 | exact H2].
Qed.

Lemma loop_result_view s once head ias body rvs : loop_view s = Some (once, head, ias, body, rvs) ->
  loop_result_names s = loop_result_names body ++ tile_ids rvs.
Proof. destruct s; try discriminate; intros [= <- <- <- <- <-]; reflexivity. Qed.

Lemma visited_loop D s once head ias body rvs :
  loop_view s = Some (once, head, ias, body, rvs) -> visited D body -> visited D s.
Proof.
  intros Hv Hb N a Ha Hnd HD.
  destruct (visit_loop_parts D s once head ias body rvs N a Hv Hb Ha Hnd HD) as (b & c & a' & Hu & _ & _ & _ & Hg & Hvs & Ha' & m & -> & H1 & _).
  eexists. split; [done |]. split; [done |].
  pose proof (loop_view_parts _ _ _ _ _ _ Hv) as (Hl & Hd & Hls & Hn). rewrite (loop_result_view _ _ _ _ _ _ Hv), Hl, Hd, Hls, Hn in *.
  rewrite app_assoc in Hnd. apply NoDup_app in Hnd as (_ & Hdis & _).
  eapply grown_eq; [eapply grown_trans; [eapply grown_trans; [eapply grown_used, Hu | exact Hg | set_solver] |
    eapply grown_trans; [apply grown_loop | by apply grown_rets | set_solver] |] | ..].
  - cbn. intros x Hx. apply Hdis, elem_of_app. by right.
  - done. - by rewrite app_nil_r. - done. - done. - lia.
Qed.

Lemma visit_grown D s : visited D s.
Proof.
  induction s using Stmt_nested_ind.
  - by apply visited_seq. - apply visited_assign. - apply visited_eval. - apply visited_values. - apply visited_values.
  - by apply visited_if. - by eapply visited_loop. - by eapply visited_loop. - exact IHs.
  - intros N a Ha _ _. exists a. split; [done |]. split; [by apply analysed_nil | apply grown_none].
  - intros N a Ha _ _. exists a. split; [done |]. split; [by apply analysed_nil | apply grown_none].
  - intros N a Ha _ _. exists a. split; [done |]. split; [by apply analysed_nil | apply grown_none].
Qed.

(** ** The reads of a run *)

Section Reads.
Context (D carried : list positive).

(** Every name stands for the variable the analysis has for it. *)
Definition represented (a : LifetimeAnalyzer) (ρ : env) : Prop := forall x v, ρ !! x = Some (Some v) -> stands a x v.

Record good (N : list positive) (a : LifetimeAnalyzer) (ρ : env) : Prop := {
  go_analysed : analysed D N a;
  go_env : represented a ρ;
  go_rets : forall x, is_Some (return_var_to_init_var a !! x) -> x ∈ carried
}.

(** The statement may follow the names [N]. *)
Record fits (N : list positive) (s : Stmt) : Prop := {
  fi_names : NoDup (N ++ names s);
  fi_defs : forall x, x ∈ names s -> x ∈ D -> x ∈ defines s;
  fi_rets : forall x, x ∈ loop_result_names s -> x ∈ carried;
  fi_header : every scalar_header s = true;
  fi_carry : every (direct_carry D) s = true;
  fi_yields : every (direct_yields carried) s = true
}.

Lemma stands_grown N a a' ns ds ls rs n x v :
  analysed D N a -> analysed D (N ++ ns) a' -> grown a a' ns ds ls rs n -> NoDup (N ++ ns) -> (forall y, y ∈ rs -> y ∈ ns) ->
  stands a x v -> stands a' x v.
Proof.
  intros Ha Ha' Hg Hnd Hrs (Hd & Hst). assert (Hout : forall y, y ∈ N -> y ∉ ns) by (apply NoDup_app in Hnd as (_ & ? & _); done).
  assert (Hdef : is_Some (var_def_order a' !! v)).
  { rewrite (gr_old _ _ _ _ _ _ _ Hg); [done |]. apply Hout, (an_known _ _ _ Ha). by left. }
  assert (Hsame : forall y, y ∈ N -> phi_local_sources a' !! y = phi_local_sources a !! y /\ return_var_to_init_var a' !! y = return_var_to_init_var a !! y).
  { intros y Hy. split; [by apply (gr_phi _ _ _ _ _ _ _ Hg), Hout |]. apply (gr_ret _ _ _ _ _ _ _ Hg). intros Hr%Hrs. by apply (Hout y). }
  split; [done |]. destruct Hst as [(-> & _)|[((l & Hl & Hv) & _)|(Hp & Hr)]].
  - left. split; [done |]. apply (an_apart _ _ _ Ha'). by left.
  - right; left. split; [|apply (an_apart _ _ _ Ha'); by left]. exists l. split; [|done].
    destruct (Hsame x) as [-> _]; [|done]. apply (an_known _ _ _ Ha). eauto.
  - right; right. destruct (Hsame x) as [-> ->]; [|done]. apply (an_known _ _ _ Ha). eauto.
Qed.

Lemma loop_result_names_names s : forall x, x ∈ loop_result_names s -> x ∈ names s.
Proof.
  induction s as [l IH|v e| | | |c t e rvs IHt IHe|? ? ? ? ? ? IHb|? ? ? ? IHb|? ? ? IHb| | |] using Stmt_nested_ind; intros x; try by intros ?%elem_of_nil.
  - cbn [names loop_result_names]. induction IH as [|s l Hs _ IHl]; [by intros ?%elem_of_nil |]. cbn [flat_map].
    rewrite !elem_of_app. intros [H|H]; [left; by apply Hs | right; by apply IHl].
  - cbn [names loop_result_names]. rewrite !elem_of_app. intros [H|H]; [left; by apply IHt |].
    destruct e as [e|]; [right; left; by apply (IHe e) | by apply elem_of_nil in H].
  - cbn [names loop_result_names]. rewrite !elem_of_app. intros [H|H]; [left; by apply IHb | by right].
  - cbn [names loop_result_names]. rewrite !elem_of_app. intros [H|H]; [left; by apply IHb | by right].
  - apply IHb.
Qed.

(** What was visited between does not change what names stand for. *)
Lemma good_visit N a ρ s a' : good N a ρ -> fits N s -> visit s a = Ok a' -> good (N ++ names s) a' ρ.
Proof.
  intros [Ha He Hr] [Hnd HD HR _ _ _] Hv. destruct (visit_grown D s N a Ha Hnd HD) as (b & Hb & Hab & Hg). rewrite Hv in Hb. injection Hb as <-.
  split; [done | |].
  - intros x v Hx. eapply stands_grown; [exact Ha | exact Hab | exact Hg | done | apply loop_result_names_names | by apply He].
  - intros x Hx. destruct (decide (x ∈ loop_result_names s)) as [?|Hn]; [by apply HR |]. apply Hr. by rewrite <- (gr_ret _ _ _ _ _ _ _ Hg).
Qed.

Lemma good_used N a ρ a' l : good N a ρ -> reads_used l (current_order a) a a' -> good N a' ρ.
Proof.
  intros [Ha He Hr] [Hu _]. split.
  - eapply analysed_used; [done | done | lia |]. by eapply analysed_below.
  - intros x v Hx. eapply used_stands; [done |]. by apply He.
  - by destruct Hu as (m & -> & _).
Qed.

Lemma reads_recorded ρ o l a b u v : represented a ρ -> reads_used l o a b -> Rd u v ∈ read_events ρ o l -> read_at b v u.
Proof.
  intros He [_ Hr]. unfold read_events. intros (x & Hx & H)%list_elem_of_omap.
  destruct (ρ !! x) as [[w|]|] eqn:Ex; try done. injection H as <- <-. apply (Hr x); [done |]. by apply He.
Qed.

Lemma loop_results_in ρ ias rvs x v : loop_results ρ ias rvs !! x = Some (Some v) ->
  ρ !! x = Some (Some v) \/ exists rv c init, (rv, (c, init)) ∈ zip rvs ias /\ is_tile rv = true /\ x = var_id rv /\
    owner ρ (ResolveCarryInitCarrier init) = Some v.
Proof.
  unfold loop_results. generalize (zip rvs ias). intros l. cut (forall ρ0 : env, foldl (fun ρ' '(rv, (_, init)) =>
    if is_tile rv then <[ var_id rv := owner ρ (ResolveCarryInitCarrier init) ]> ρ' else ρ') ρ0 l !! x = Some (Some v) ->
    ρ0 !! x = Some (Some v) \/ exists rv c init, (rv, (c, init)) ∈ l /\ is_tile rv = true /\ x = var_id rv /\
      owner ρ (ResolveCarryInitCarrier init) = Some v); [auto |].
  induction l as [|[rv [c init]] l IH]; intros ρ0 H; cbn [foldl] in H; [by left |].
  apply IH in H as [H|(rv' & c' & init' & Hin & ?)]; [|right; exists rv', c', init'; split; [by right | done]].
  destruct (is_tile rv) eqn:Et; [|by left]. apply lookup_insert_Some in H as [[<- H]|[_ H]]; [|by left].
  right. exists rv, c, init. split; [by left | done].
Qed.

Lemma branch_results_in ρ ρb yield local rvs x v : branch_results ρ ρb yield local rvs !! x = Some (Some v) ->
  ρ !! x = Some (Some v) \/ exists i rv, rvs !! i = Some rv /\ x = var_id rv /\ is_Some (tile_memref rv) /\
    yielded ρb local (yield ≫= fun l => l !! i) = Some v.
Proof.
  unfold branch_results. set (entries := imap _ _).
  assert (Hent : forall rv value, (rv, value) ∈ entries -> exists i, rvs !! i = Some rv /\ value = (yield ≫= fun l => l !! i)).
  { intros rv value (i & y & [= <- ->] & Hi)%elem_of_lookup_imap. by exists i. }
  cut (forall ρ0 : env, foldl (fun ρ' '(rv, value) => if is_tile rv
      then <[ var_id rv := match tile_memref rv with Some _ => yielded ρb local value | None => None end ]> ρ' else ρ') ρ0 entries !! x = Some (Some v) ->
    ρ0 !! x = Some (Some v) \/ exists rv value, (rv, value) ∈ entries /\ x = var_id rv /\ is_Some (tile_memref rv) /\ yielded ρb local value = Some v).
  { intros Hc H. apply Hc in H as [?|(rv & value & (i & ? & ->)%Hent & ?)]; [by left | right]. by exists i, rv. }
  clear Hent. induction entries as [|[rv value] l IH]; intros ρ0 H; cbn [foldl] in H; [by left |].
  apply IH in H as [H|(rv' & value' & Hin & ?)]; [|right; exists rv', value'; split; [by right | done]].
  destruct (is_tile rv) eqn:Et; [|by left]. apply lookup_insert_Some in H as [[<- H]|[_ H]]; [|by left].
  right. exists rv, value. destruct (tile_memref rv); [|done]. split; [by left | eauto].
Qed.

(** The parts of a statement fit. *)
Lemma fits_seq N s l : fits N (SeqStmts (s :: l)) -> fits N s /\ fits (N ++ names s) (SeqStmts l).
Proof.
  intros [Hnd HD HR Hh Hc Hy]. cbn [names flat_map loop_result_names every forallb andb] in *.
  apply andb_prop in Hh as [_ [? ?]%andb_prop], Hc as [_ [? ?]%andb_prop], Hy as [_ [? ?]%andb_prop].
  rewrite app_assoc in Hnd. apply NoDup_app in Hnd as Hnd'. destruct Hnd' as (Hnd1 & Hdis & _).
  split; split; cbn [names every]; try done.
  - intros x Hx HxD. destruct (proj1 (defines_cons s l x)) as [?|Hx'%defines_names]; [|done|].
    + apply HD; [apply elem_of_app; by left | done].
    + destruct (Hdis x); [apply elem_of_app; by right | done].
  - intros x Hx. apply HR, elem_of_app. by left.
  - intros x Hx HxD. destruct (proj1 (defines_cons s l x)) as [Hx'%defines_names|?]; [| |done].
    + apply HD; [apply elem_of_app; by right | done].
    + destruct (Hdis x); [apply elem_of_app; by right | done].
  - intros x Hx. apply HR, elem_of_app. by right.
Qed.

Lemma fits_if N c t e rvs : fits N (IfStmt c t e rvs) ->
  fits N t /\ (forall s, e = Some s -> fits (N ++ names t) s) /\ direct_yields carried (IfStmt c t e rvs) = true.
Proof.
  intros [Hnd HD HR Hh Hc Hy]. cbn [names loop_result_names every] in *. rewrite defines_if in HD.
  apply andb_prop in Hh as [_ [? Hh]%andb_prop], Hc as [_ [? Hc]%andb_prop], Hy as [? [? Hy]%andb_prop].
  rewrite app_assoc in Hnd. apply NoDup_app in Hnd as Hnd'. destruct Hnd' as (Hnd1 & Hdis & _).
  split_and!; [split; try done | | done].
  - intros x Hx HxD. destruct (elem_of_app (defines t) (from_option defines [] e) x) as [Hin _].
    destruct Hin as [?|Hx']; [apply HD; [apply elem_of_app; by left | done] | done |].
    destruct e as [e|]; [|by apply elem_of_nil in Hx']. destruct (Hdis x); [apply elem_of_app; by right |].
    apply elem_of_app. left. by apply defines_names.
  - intros x Hx. apply HR, elem_of_app. by left.
  - intros s ->. cbn [from_option] in *. rewrite app_assoc in Hnd. apply NoDup_app in Hnd as (Hnd & _).
    apply NoDup_app in Hnd as Hnd'. destruct Hnd' as (_ & Hdis' & _). split; try done.
    + intros x Hx HxD. destruct (elem_of_app (defines t) (defines s) x) as [Hin _].
      destruct Hin as [Hx'%defines_names|?]; [apply HD; [rewrite !elem_of_app; auto | done] | | done].
      destruct (Hdis' x); [apply elem_of_app; by right | done].
    + intros x Hx. apply HR, elem_of_app. by right.
Qed.

Lemma fits_loop N s once head ias body rvs : loop_view s = Some (once, head, ias, body, rvs) -> fits N s ->
  fits N body /\ read_names once = [] /\ read_names head = [] /\
  forall rv c init x, (rv, (c, init)) ∈ zip rvs ias -> is_tile rv = true -> ResolveCarryInitCarrier init = Some x -> var_id x ∈ D.
Proof.
  intros Hv [Hnd HD HR Hh Hc Hy]. destruct (every_loop_body scalar_header s once head ias body rvs Hv Hh) as [Hh1 Hh2].
  destruct (every_loop_body (direct_carry D) s once head ias body rvs Hv Hc) as [Hc1 Hc2].
  destruct (every_loop_body (direct_yields carried) s once head ias body rvs Hv Hy) as [_ Hy2].
  rewrite (defines_loop _ _ _ _ _ _ Hv) in HD. rewrite (loop_result_view _ _ _ _ _ _ Hv) in HR.
  pose proof (loop_view_parts _ _ _ _ _ _ Hv) as (_ & _ & _ & Hn). rewrite Hn in *.
  rewrite app_assoc in Hnd. apply NoDup_app in Hnd as (Hnd & _). split_and!.
  - split; try done. + intros x Hx. apply HD, elem_of_app. by left. + intros x Hx. apply HR, elem_of_app. by left.
  - unfold scalar_header in Hh1. rewrite Hv in Hh1. apply bool_decide_eq_true in Hh1. unfold read_names in *. rewrite omap_app in Hh1.
    by apply app_nil in Hh1 as [? _].
  - unfold scalar_header in Hh1. rewrite Hv in Hh1. apply bool_decide_eq_true in Hh1. unfold read_names in *. rewrite omap_app in Hh1.
    by apply app_nil in Hh1 as [_ ?].
  - intros rv c init x Hin Et Hx. unfold direct_carry in Hc1. rewrite Hv, forallb_forall in Hc1.
    specialize (Hc1 (rv, (c, init)) (proj1 (list_elem_of_In _ _) Hin)). cbn in Hc1. rewrite Et, Hx in Hc1. cbn in Hc1.
    by apply bool_decide_eq_true in Hc1.
Qed.

(** What a branch yields, it contributes. *)
Lemma yielded_contributes N s a b ρb start stop value v (seen : positive -> Prop) :
  good N b ρb -> (forall x d, (x, d) ∈ defs_at start s -> var_def_order a !! var_id x = Some d) -> 0 <= start ->
  stop = start + leaves s - 1 -> yielded ρb (defines s) value = Some v ->
  (forall x, value ≫= AsVarLike = Some x -> var_id x ∉ carried) ->
  (forall x, x ∈ N -> phi_local_sources a !! x = phi_local_sources b !! x) ->
  (forall x l, value ≫= AsVarLike = Some x -> phi_local_sources b !! var_id x = Some l -> v ∈ l -> ~ seen (var_id x)) ->
  contributes a (start, stop) seen value v.
Proof.
  intros Hg Hdefs Hstart -> Hy Hcarried Hphi Hseen. pose proof (yielded_stored _ _ _ _ Hy) as [Hv _]. split.
  - apply (defines_in start) in Hv as (x & d & Hin & <-). unfold branch_local. cbn [fst snd]. rewrite (Hdefs _ _ Hin).
    apply defs_at_range in Hin. destruct (start <? 0) eqn:E; lia.
  - unfold yielded in Hy. destruct value as [[x| | | | | | | | | | | |]|]; try done. exists x. split; [done |].
    destruct (ρb !! var_id x) as [[w|]|] eqn:Ex; try done. case_bool_decide; [|done]. injection Hy as ->.
    destruct (go_env _ _ _ Hg _ _ Ex) as (Hd & [(<- & Hp & _)|[((l & Hl & Hin) & _)|(_ & Hr)]]).
    + left. split; [done |]. rewrite Hphi; [done |]. apply (an_known _ _ _ (go_analysed _ _ _ Hg)). by left.
    + right. exists l. rewrite Hphi; [|apply (an_known _ _ _ (go_analysed _ _ _ Hg)); eauto]. split_and!; [done.. |]. by eapply Hseen.
    + destruct (Hcarried x eq_refl). apply (go_rets _ _ _ Hg). eauto.
Qed.

Lemma good_branch N a c t e rvs a' ρ ρb yield local :
  good N a ρ -> fits N (IfStmt c t e rvs) -> visit (IfStmt c t e rvs) a = Ok a' ->
  (forall i rv v, rvs !! i = Some rv -> is_Some (tile_memref rv) -> yielded ρb local (yield ≫= fun l => l !! i) = Some v ->
     is_Some (var_def_order a' !! v) /\ exists l, phi_local_sources a' !! var_id rv = Some l /\ v ∈ l) ->
  good (N ++ names (IfStmt c t e rvs)) a' (branch_results ρ ρb yield local rvs).
Proof.
  intros Hg Hf Hv Hin. pose proof (good_visit _ _ _ _ _ Hg Hf Hv) as [Ha He Hr]. split; [done | | done].
  intros x v [H|(i & rv & Hrv & -> & Hm & Hy)]%branch_results_in; [by apply He |].
  destruct (Hin i rv v Hrv Hm Hy) as [Hd Hl]. split; [done |]. right; left. split; [done |]. apply (an_apart _ _ _ Ha). by left.
Qed.

Lemma phi_entries_in rvs y1 y2 i rv : rvs !! i = Some rv ->
  (rv, (y1 ≫= fun l => l !! i, y2 ≫= fun l => l !! i)) ∈ phi_entries rvs y1 y2.
Proof. intros H. apply elem_of_lookup_imap. by exists i, rv. Qed.

Lemma yields_directly_at other yield i value x : yields_directly carried other yield = true ->
  (yield ≫= fun l => l !! i) = Some value -> AsVarLike value = Some x -> (var_id x ∉ carried) /\ (var_id x ∉ other).
Proof.
  unfold yields_directly. rewrite forallb_forall. intros H Hv Hx. destruct yield as [l|]; [|done].
  specialize (H value (proj1 (list_elem_of_In _ _) (list_elem_of_lookup_2 _ _ _ Hv))). rewrite Hx in H.
  apply andb_prop in H as [H1 H2]. rewrite negb_true_iff, bool_decide_eq_false in H1, H2. done.
Qed.

(** The events of a run read what the analysis has recorded. *)
Definition reads_kept (a' : LifetimeAnalyzer) (t : list event) : Prop := forall u v, Rd u v ∈ t -> read_at a' v u.

Lemma reads_kept_app a' t1 t2 : reads_kept a' t1 -> reads_kept a' t2 -> reads_kept a' (t1 ++ t2).
Proof. intros H1 H2 u v [H|H]%elem_of_app; auto. Qed.
Lemma reads_kept_le a a' t : raw_le a a' -> reads_kept a t -> reads_kept a' t.
Proof. intros Hle H u v Hin. eapply read_at_le; [done | auto]. Qed.
Lemma reads_kept_none a ρ o l : read_names l = [] -> reads_kept a (read_events ρ o l).
Proof. intros E u v. unfold read_events. rewrite E. by intros ?%elem_of_nil. Qed.

Lemma visit_raw_le N a ρ s a' : good N a ρ -> fits N s -> visit s a = Ok a' -> raw_le a a'.
Proof.
  intros [Ha _ _] [Hnd HD _ _ _ _] Hv. destruct (visit_grown D s N a Ha Hnd HD) as (b & Hb & _ & Hg). rewrite Hv in Hb. injection Hb as <-.
  apply (gr_raw _ _ _ _ _ _ _ Hg).
Qed.

Lemma good_then N a c t e rvs a' ρ :
  good N a ρ -> fits N (IfStmt c t e rvs) -> visit (IfStmt c t e rvs) a = Ok a' ->
  exists ac at_, reads_used (mentions c) (current_order a) a ac /\ current_order ac = current_order a /\ visit t ac = Ok at_ /\
    raw_le ac a' /\ raw_le at_ a' /\
    forall ρb, good (N ++ names t) at_ ρb ->
      good (N ++ names (IfStmt c t e rvs)) a' (branch_results ρ ρb (GetLastYieldStmt t) (defines t) rvs).
Proof.
  intros Hg Hf Hv.
  destruct (visit_if_parts D c t e rvs N a (visit_grown _ _) (fun s _ => visit_grown _ _) (go_analysed _ _ _ Hg) (fi_names _ _ Hf) (fi_defs _ _ Hf))
    as (ac & at_ & ae & range & b & Hu & Hac & Hvt & Hat & Hgt & Hve & Hae & Hge & Hfold & Hvb & Hb & Hph & Hcon).
  rewrite Hv in Hvb. injection Hvb as <-. assert (Ho : current_order ac = current_order a) by by destruct Hu as [(m & -> & _) _].
  assert (Hle : raw_le at_ a'). { eapply raw_le_trans; [apply (gr_raw _ _ _ _ _ _ _ Hge) | apply (gr_raw _ _ _ _ _ _ _ (grown_phis _ _ _ Hph))]. }
  exists ac, at_. split_and!; try done. { eapply raw_le_trans; [apply (gr_raw _ _ _ _ _ _ _ Hgt) | done]. }
  intros ρb Hgb. apply (good_branch N a); [done.. |]. intros i rv v Hrv Hm Hy.
  pose proof (fits_if _ _ _ _ _ Hf) as (Hft & Hfe & Hyd). apply andb_prop in Hyd as [Hyd _].
  assert (Hdis : forall x, x ∈ N ++ names t -> x ∉ from_option names [] e).
  { destruct e as [e|]; [|by intros x _ ?%elem_of_nil]. destruct (Hfe e eq_refl) as [Hn _ _ _ _ _]. by apply NoDup_app in Hn as (_ & ? & _). }
  assert (Hdefs : forall x d, (x, d) ∈ defs_at (current_order a) t -> var_def_order ae !! var_id x = Some d).
  { intros x d Hin. rewrite (gr_old _ _ _ _ _ _ _ Hge); [by eapply (gr_new _ _ _ _ _ _ _ Hgt) |].
    apply Hdis, elem_of_app. right. by apply (gr_ids _ _ _ _ _ _ _ Hgt) in Hin. }
  pose proof (yielded_stored _ _ _ _ Hy) as [Hloc _]. apply (defines_in (current_order a)) in Hloc as (x & d & Hin & Hx). split.
  - destruct Hph as (? & ? & ? & -> & _). cbn. rewrite <- Hx, (Hdefs _ _ Hin). eauto.
  - eapply Hcon; [by apply phi_entries_in | done |]. left. eapply (yielded_contributes (N ++ names t) t ae at_ ρb); try done.
    + apply (an_order _ _ _ (go_analysed _ _ _ Hg)).
    + rewrite (gr_order _ _ _ _ _ _ _ Hgt), Ho. done.
    + intros y Hy'. destruct (GetLastYieldStmt t ≫= _) as [value|] eqn:Eval; [|done]. by eapply proj1, (yields_directly_at _ _ i value).
    + intros y Hy'. apply (gr_phi _ _ _ _ _ _ _ Hge). by apply Hdis.
    + intros ? ? _ _ _ [].
Qed.

Lemma good_else N a c t e rvs a' ρ :
  good N a ρ -> fits N (IfStmt c t (Some e) rvs) -> visit (IfStmt c t (Some e) rvs) a = Ok a' ->
  exists ac at_ ae, reads_used (mentions c) (current_order a) a ac /\ visit t ac = Ok at_ /\ visit e at_ = Ok ae /\
    current_order at_ = current_order a + leaves t /\ raw_le ac a' /\ raw_le ae a' /\
    forall ρb, good ((N ++ names t) ++ names e) ae ρb ->
      good (N ++ names (IfStmt c t (Some e) rvs)) a' (branch_results ρ ρb (GetLastYieldStmt e) (defines e) rvs).
Proof.
  intros Hg Hf Hv.
  destruct (visit_if_parts D c t (Some e) rvs N a (visit_grown _ _) (fun s _ => visit_grown _ _) (go_analysed _ _ _ Hg) (fi_names _ _ Hf) (fi_defs _ _ Hf))
    as (ac & at_ & ae & range & b & Hu & Hac & Hvt & Hat & Hgt & [Hve ->] & Hae & Hge & Hfold & Hvb & Hb & Hph & Hcon).
  rewrite Hv in Hvb. injection Hvb as <-. assert (Ho : current_order ac = current_order a) by by destruct Hu as [(m & -> & _) _].
  assert (Hot : current_order at_ = current_order a + leaves t) by by rewrite (gr_order _ _ _ _ _ _ _ Hgt), Ho.
  cbn [from_option] in *.
  assert (Hle : raw_le ae a') by apply (gr_raw _ _ _ _ _ _ _ (grown_phis _ _ _ Hph)).
  exists ac, at_, ae. split_and!; try done.
  { eapply raw_le_trans; [apply (gr_raw _ _ _ _ _ _ _ Hgt) |]. eapply raw_le_trans; [apply (gr_raw _ _ _ _ _ _ _ Hge) | done]. }
  intros ρb Hgb. apply (good_branch N a); [done.. |]. intros i rv v Hrv Hm Hy.
  pose proof (fits_if _ _ _ _ _ Hf) as (Hft & Hfe & Hyd). apply andb_prop in Hyd as [Hyd1 Hyd2]. cbn [from_option] in *.
  assert (Hdis : forall x, x ∈ N ++ names t -> x ∉ names e).
  { specialize (Hfe e eq_refl). destruct Hfe as [Hn _ _ _ _ _]. by apply NoDup_app in Hn as (_ & ? & _). }
  pose proof (yielded_stored _ _ _ _ Hy) as [Hloc _]. apply (defines_in (current_order a + leaves t)) in Hloc as (x & d & Hin & Hx). split.
  - destruct Hph as (? & ? & ? & -> & _). cbn. rewrite <- Hx, (gr_new _ _ _ _ _ _ _ Hge _ _ Hin). eauto.
  - eapply Hcon; [by apply phi_entries_in | done |]. right. rewrite Hot.
    eapply (yielded_contributes ((N ++ names t) ++ names e) e ae ae ρb); try done.
    + apply (gr_new _ _ _ _ _ _ _ Hge).
    + pose proof (an_order _ _ _ (go_analysed _ _ _ Hg)). pose proof (leaves_nonneg t). lia.
    + rewrite (gr_order _ _ _ _ _ _ _ Hge), Hot. done.
    + intros y Hy'. cbn in Hy'. destruct (GetLastYieldStmt e ≫= _) as [value|] eqn:Eval; [|done]. by eapply proj1, (yields_directly_at _ _ i value).
    + intros y l Hy' Hl Hvl (z & Hz & Ez). destruct (GetLastYieldStmt t ≫= _) as [value|] eqn:Eval; [|done].
      destruct (yields_directly_at _ _ _ _ z Hyd1 Eval Hz) as [_ Hno]. rewrite <- Ez in Hno.
      rewrite (gr_phi _ _ _ _ _ _ _ Hge) in Hl by done. apply (Hdis v).
      * apply (an_known _ _ _ Hat). left. by eapply (an_phi _ _ _ Hat).
      * rewrite <- Hx. by apply (gr_ids _ _ _ _ _ _ _ Hge) in Hin.
Qed.

Lemma good_loop N s once head ias body rvs a a' ρ :
  loop_view s = Some (once, head, ias, body, rvs) -> good N a ρ -> fits N s -> visit s a = Ok a' ->
  exists b c, reads_used (flat_map (fun p => mentions p.2) ias) (current_order a) a b /\ current_order b = current_order a /\
    visit body b = Ok c /\ raw_le b a' /\ raw_le c a' /\ good (N ++ names s) a' (loop_results ρ ias rvs).
Proof.
  intros Hvw Hg Hf Hv.
  destruct (visit_loop_parts D s once head ias body rvs N a Hvw (visit_grown _ _) (go_analysed _ _ _ Hg) (fi_names _ _ Hf) (fi_defs _ _ Hf))
    as (b & c & a2 & Hu & Hb & Hvb & Hc & Hgr & Hv2 & Ha' & m & Em & Hm1 & Hm2).
  rewrite Hv in Hv2. injection Hv2 as <-. assert (Hle : raw_le c a'). { rewrite Em. intros v u Hvu. exists u. split; [done | lia]. }
  exists b, c. split_and!; try done. { by destruct Hu as [(? & -> & _) _]. } { eapply raw_le_trans; [apply (gr_raw _ _ _ _ _ _ _ Hgr) | done]. }
  pose proof (good_visit _ _ _ _ _ Hg Hf Hv) as [_ He Hr]. split; [done | | done].
  intros x v [H|(rv & c' & init & Hin & Et & -> & Ho)]%loop_results_in; [by apply He |].
  destruct (fits_loop _ _ _ _ _ _ _ Hvw Hf) as (_ & _ & _ & Hdir). unfold owner in Ho.
  destruct (ResolveCarryInitCarrier init) as [y|] eqn:Ey; [|done]. specialize (Hdir _ _ _ _ Hin Et Ey).
  destruct (ρ !! var_id y) as [w|] eqn:Ew; [|done]. cbn in Ho. subst w.
  destruct (an_apart _ _ _ (go_analysed _ _ _ Hg) (var_id y) ltac:(by right)) as [Hp0 Hr0].
  destruct (go_env _ _ _ Hg _ _ Ew) as (Hd & [(Eq & _)|[((l & ? & _) & _)|(_ & ?)]]); [|congruence..].
  assert (Hdc : is_Some (var_def_order c !! v)).
  { pose proof (fits_loop _ _ _ _ _ _ _ Hvw Hf) as ([Hnd _ _ _ _ _] & _). apply NoDup_app in Hnd as (_ & Hdis & _).
    assert (Hdb : is_Some (var_def_order b !! v)) by by destruct Hu as [(? & -> & _) _].
    rewrite (gr_old _ _ _ _ _ _ _ Hgr); [done |]. apply Hdis, (an_known _ _ _ Hb). by left. }
  split; [by rewrite Em |]. right; right. rewrite Em. cbn. split.
  - pose proof (loop_view_parts _ _ _ _ _ _ Hvw) as (_ & _ & _ & Hn). destruct Hf as [Hnd _ _ _ _ _]. rewrite Hn, app_assoc in Hnd.
    apply NoDup_app in Hnd as (_ & Hdis & _). apply eq_None_not_Some. intros Hs. apply (Hdis (var_id rv)).
    + apply (an_known _ _ _ Hc). auto.
    + apply list_elem_of_fmap. exists rv. split; [done |]. apply list_elem_of_In, filter_In. split; [|done].
      destruct (zip_fst rvs ias) as [l' E]. apply list_elem_of_In. rewrite E. apply elem_of_app. left.
      change rv with (fst (rv, (c', init))). by apply list_elem_of_fmap_2.
  - rewrite <- Eq in *. by eapply Hm2.
Qed.

(** Leaves. *)
Lemma expr_reads_kept o e b a' ρ : phi_terminal b -> represented b ρ -> CollectUsesFromExpr o e b = Ok a' ->
  reads_kept a' (read_events ρ o (mentions e)).
Proof.
  intros Ht He Hc. destruct (CollectUsesFromExpr_used o e b Ht) as (c & Hc' & Hu). rewrite Hc in Hc'. injection Hc' as <-.
  intros u w. by apply (reads_recorded _ _ _ b).
Qed.

Lemma leaf_reads_kept N a e a' ρ : good N a ρ -> CollectUsesFromExpr (current_order a) e (next_order a) = Ok a' ->
  reads_kept a' (read_events ρ (current_order a) (mentions e)).
Proof.
  intros [Ha He _]. apply expr_reads_kept; [|done]. by eapply (analysed_terminal D N), analysed_next.
Qed.

Lemma values_reads_kept N a l a' ρ : good N a ρ -> CollectUsesFromValues l a = Ok a' ->
  reads_kept a' (read_events ρ (current_order a) (flat_map mentions l)).
Proof.
  intros [Ha He _] Hv. unfold CollectUsesFromValues in Hv.
  destruct (fold_reads (CollectUsesFromExpr (current_order a)) mentions (current_order a) l (next_order a)) as (c & Hc & Hu).
  { intros x b Hb. apply CollectUsesFromExpr_used. eapply used_terminal; [done |]. by eapply (analysed_terminal D N), analysed_next. }
  rewrite Hv in Hc. injection Hc as <-. intros u w. by apply (reads_recorded _ _ _ (next_order a)).
Qed.

Lemma good_define N a v e a' ρ : is_tile v = true -> good N a ρ -> fits N (AssignStmt v e) -> visit (AssignStmt v e) a = Ok a' ->
  good (N ++ names (AssignStmt v e)) a' (<[ var_id v := Some (var_id v) ]> ρ).
Proof.
  intros Et Hg Hf Hv. pose proof (good_visit _ _ _ _ _ Hg Hf Hv) as [Ha He Hr].
  destruct (visit_grown D _ N a (go_analysed _ _ _ Hg) (fi_names _ _ Hf) (fi_defs _ _ Hf)) as (b & Hb & _ & Hgr).
  rewrite Hv in Hb. injection Hb as <-. split; [done | | done].
  intros x w [[<- [= <-]]|[_ Hx]]%lookup_insert_Some; [|by apply He].
  assert (Hd : is_Some (var_def_order a' !! var_id v)).
  { rewrite (gr_new _ _ _ _ _ _ _ Hgr v (current_order a)); [eauto |]. cbn [defs_at]. rewrite Et. by left. }
  split; [done |]. left. split; [done |]. apply (an_apart _ _ _ Ha). by left.
Qed.

Lemma represented_def N a v e ρ : good N a ρ -> represented (with_def (next_order a) v (current_order a) (Some e)) ρ.
Proof.
  intros [_ He _] x w (Hd & Hst)%He. split; [|exact Hst]. cbn. destruct (decide (w = var_id v)) as [->|Hne].
  - rewrite lookup_insert_eq. eauto. - by rewrite lookup_insert_ne.
Qed.

Lemma runs_reads_all :
  (forall ρ o s t out ρ', runs ρ o s t out ρ' -> forall N a a', o = current_order a -> good N a ρ -> fits N s -> visit s a = Ok a' ->
     good (N ++ names s) a' ρ' /\ reads_kept a' t) /\
  (forall ρ o l t out ρ', runs_seq ρ o l t out ρ' -> forall N a a', o = current_order a -> good N a ρ -> fits N (SeqStmts l) ->
     visit (SeqStmts l) a = Ok a' -> good (N ++ names (SeqStmts l)) a' ρ' /\ reads_kept a' t) /\
  (forall ρ o head body t out, runs_loop ρ o head body t out -> forall N a a', o = current_order a -> good N a ρ -> fits N body ->
     read_names head = [] -> visit body a = Ok a' -> reads_kept a' t).
Proof.
  apply runs_induction.
  - intros ρ o l t out ρ' _ IH. exact IH.
  - intros ρ o k attrs s t out ρ' _ IH N a a' Ho Hg [? ? ? [_ ?]%andb_prop [_ ?]%andb_prop [_ ?]%andb_prop] Hv. by apply (IH N a a').
  - intros ρ o v e Et Hs N a a' -> Hg Hf Hv. split; [by apply (good_define N a v e) |].
    apply reads_kept_app; [|by intros u w ?%list_elem_of_singleton]. cbn [visit] in Hv. rewrite Et in Hv.
    eapply expr_reads_kept; [|by eapply represented_def | exact Hv]. exact (analysed_terminal _ _ _ (go_analysed _ _ _ Hg)).
  - intros ρ o v e Et Hs N a a' -> Hg Hf Hv. split; [by eapply good_visit |]. cbn [visit] in Hv. rewrite Et in Hv.
    by eapply leaf_reads_kept.
  - intros ρ o e Hs N a a' -> Hg Hf Hv. split; [by eapply good_visit |]. by eapply leaf_reads_kept.
  - intros ρ o l Hs N a a' -> Hg Hf Hv. split; [by eapply good_visit |]. by eapply values_reads_kept.
  - intros ρ o l Hs N a a' -> Hg Hf Hv. split; [by eapply good_visit |]. by eapply values_reads_kept.
  - intros ρ o c s e rvs t out ρb Hs _ IH N a a' -> Hg Hf Hv.
    destruct (good_then _ _ _ _ _ _ _ _ Hg Hf Hv) as (ac & at_ & Hu & Ho & Hat & Hle1 & Hle2 & Hgo).
    apply fits_if in Hf as (Hft & _). destruct (IH N ac at_ (eq_sym Ho) (good_used _ _ _ _ _ Hg Hu) Hft Hat) as [Hgb Hk].
    split; [by apply Hgo |]. apply reads_kept_app; [|by eapply reads_kept_le].
    eapply reads_kept_le; [exact Hle1 |]. intros u w. apply (reads_recorded _ _ _ a); [apply Hg | done].
  - intros ρ o c s e rvs t out ρb Hs _ IH N a a' -> Hg Hf Hv.
    destruct (good_else _ _ _ _ _ _ _ _ Hg Hf Hv) as (ac & at_ & ae & Hu & Hat & Hae & Ho & Hle1 & Hle2 & Hgo).
    apply fits_if in Hf as (Hft & Hfe & _).
    destruct (IH (N ++ names s) at_ ae (eq_sym Ho) (good_visit _ _ _ _ _ (good_used _ _ _ _ _ Hg Hu) Hft Hat) (Hfe e eq_refl) Hae) as [Hgb Hk].
    split; [by apply Hgo |]. apply reads_kept_app; [|by eapply reads_kept_le].
    eapply reads_kept_le; [exact Hle1 |]. intros u w. apply (reads_recorded _ _ _ a); [apply Hg | done].
  - intros ρ o c s rvs Hs N a a' -> Hg Hf Hv.
    destruct (good_then _ _ _ _ _ _ _ _ Hg Hf Hv) as (ac & at_ & Hu & Ho & Hat & Hle1 & Hle2 & Hgo). split.
    + apply (good_branch N a); [done.. |]. intros i rv v _ _ Hy. done.
    + eapply reads_kept_le; [exact Hle1 |]. intros u w. apply (reads_recorded _ _ _ a); [apply Hg | done].
  - intros ρ o s once head ias body rvs t out Hvw Hs1 Hs2 _ IH N a a' -> Hg Hf Hv.
    destruct (good_loop _ _ _ _ _ _ _ _ _ _ Hvw Hg Hf Hv) as (b & c & Hu & Ho & Hvb & Hle1 & Hle2 & Hg').
    split; [done |]. destruct (fits_loop _ _ _ _ _ _ _ Hvw Hf) as (Hfb & Hone & Hhead & _).
    apply reads_kept_app; [by apply reads_kept_none |]. apply reads_kept_app.
    + eapply reads_kept_le; [exact Hle1 |]. intros u w. apply (reads_recorded _ _ _ a); [apply Hg | done].
    + eapply reads_kept_le; [exact Hle2 |]. apply (IH N b c); auto. by eapply good_used.
  - intros ρ o N a a' _ Hg Hf Hv. split; [by eapply good_visit | by intros u v ?%elem_of_nil].
  - intros ρ o N a a' _ Hg Hf Hv. split; [by eapply good_visit | by intros u v ?%elem_of_nil].
  - intros ρ o N a a' _ Hg Hf Hv. split; [by eapply good_visit | by intros u v ?%elem_of_nil].
  - intros ρ o N a a' _ Hg Hf Hv. split; [by eapply good_visit | by intros u v ?%elem_of_nil].
  - intros ρ o s l t1 t2 out ρ1 ρ2 _ IH1 _ IH2 N a a' -> Hg Hf Hv. apply fits_seq in Hf as [Hf1 Hf2].
    cbn [visit fold_result] in Hv. apply bind_ok in Hv as (b & Hb & Hv).
    destruct (IH1 N a b eq_refl Hg Hf1 Hb) as [Hg1 Hk1].
    assert (Ho : current_order a + leaves s = current_order b).
    { destruct (visit_grown D s N a (go_analysed _ _ _ Hg) (fi_names _ _ Hf1) (fi_defs _ _ Hf1)) as (b' & Hb' & _ & Hgr).
      rewrite Hb in Hb'. injection Hb' as <-. by rewrite (gr_order _ _ _ _ _ _ _ Hgr). }
    destruct (IH2 (N ++ names s) b a' Ho Hg1 Hf2 Hv) as [Hg2 Hk2]. split; [cbn [names flat_map]; by rewrite app_assoc |].
    apply reads_kept_app; [|done]. eapply reads_kept_le; [exact (visit_raw_le _ _ _ _ _ Hg1 Hf2 Hv) | done].
  - intros ρ o s l t out ρ1 _ IH1 Hout N a a' -> Hg Hf Hv. apply fits_seq in Hf as [Hf1 Hf2].
    cbn [visit fold_result] in Hv. apply bind_ok in Hv as (b & Hb & Hv).
    destruct (IH1 N a b eq_refl Hg Hf1 Hb) as [Hg1 Hk1]. split.
    + pose proof (good_visit _ _ _ _ _ Hg1 Hf2 Hv) as Hg2. cbn [names flat_map]. by rewrite app_assoc.
    + eapply reads_kept_le; [exact (visit_raw_le _ _ _ _ _ Hg1 Hf2 Hv) | done].
  - intros ρ o head body Hs N a a' -> Hg Hf Hh Hv. by apply reads_kept_none.
  - intros ρ o head body t1 t2 out1 out ρ1 Hs _ IH1 Hout _ IH2 N a a' -> Hg Hf Hh Hv.
    apply reads_kept_app; [by apply reads_kept_none |]. apply reads_kept_app; [by eapply IH1 | by eapply IH2].
  - intros ρ o head body t1 out1 ρ1 Hs _ IH1 Hout N a a' -> Hg Hf Hh Hv.
    apply reads_kept_app; [by apply reads_kept_none | by eapply IH1].
Qed.
End Reads.
