(* ===== verification/LifetimePlan.v ===== *)
(** * Lifetimes of runs

    The lifetimes computed for a well-formed body cover its runs; the intervals
    of the allocations; tiles that the plan puts in the same storage are not
    written while the storage is still to be read. *)

From Stdlib Require Import ZArith Lia Bool List String.
From stdpp Require Import base gmap list option strings.
From S2P Require Import Prelude Dtype ScalarExpr Storage Dsa DsaSearch DsaSpec Memref MemrefSound.
From S2P Require Import DsaAdapter DsaBuild DsaSeparations DsaPlan Stmt Lifetime Runs RunsSound LifetimeSound.

(** ** Entry *)

(** The parameters at the start of a run. *)
Definition entry_env (params : list IRVar) : env :=
  foldl (fun ρ v => if is_tile v then <[ var_id v := match tile_memref v with Some _ => Some (var_id v) | None => None end ]> ρ else ρ)
    ∅ params.

Lemma entry_env_in params x v : entry_env params !! x = Some (Some v) -> x = v /\ v ∈ entry_ids params.
Proof.
  unfold entry_env. cut (forall ρ : env, foldl (fun ρ v => if is_tile v
      then <[ var_id v := match tile_memref v with Some _ => Some (var_id v) | None => None end ]> ρ else ρ) ρ params !! x = Some (Some v) ->
    ρ !! x = Some (Some v) \/ x = v /\ v ∈ entry_ids params).
  { intros H H0. by apply H in H0 as [?|?]. }
  induction params as [|y params IH]; intros ρ H; cbn [foldl] in H; [by left |].
  assert (Hsub : forall z, z ∈ entry_ids params -> z ∈ entry_ids (y :: params)).
  { intros z Hz. unfold entry_ids. cbn. destruct (tile_memref y); [by right | done]. }
  apply IH in H as [H|[? ?]]; [|right; auto]. destruct (is_tile y); [|by left].
  apply lookup_insert_Some in H as [[<- H]|[_ H]]; [|by left]. right. unfold entry_ids. cbn.
  destruct (tile_memref y); [|done]. injection H as <-. split; [done | by left].
Qed.

Lemma tile_memref_tile v : is_Some (tile_memref v) -> is_tile v = true.
Proof. intros [m H]. unfold tile_memref, is_tile in *. by destruct (GetType v). Qed.

Lemma entry_ids_tiles params x : x ∈ entry_ids params -> x ∈ tile_ids params.
Proof.
  intros (v & Hv & Hx)%list_elem_of_omap. destruct (tile_memref v) eqn:E; [|done]. injection Hx as <-.
  apply list_elem_of_fmap. exists v. split; [done |]. apply list_elem_of_In, filter_In. split; [by apply list_elem_of_In |].
  apply tile_memref_tile. eauto.
Qed.

(** The state before the body. *)
Lemma seed_spec params a : seed_entries params no_lifetimes = a ->
  current_order a = 0 /\ loop_scopes a = [] /\ ordered_defs a = List.filter (fun v => bool_decide (is_Some (tile_memref v))) params /\
  phi_local_sources a = ∅ /\ return_var_to_init_var a = ∅ /\ var_raw_last_use a = ∅ /\
  (forall v d, var_def_order a !! v = Some d -> d = 0 /\ v ∈ entry_ids params) /\
  (forall v, v ∈ entry_ids params -> var_def_order a !! v = Some 0).
Proof.
  intros <-. unfold seed_entries.
  cut (forall b, current_order b = 0 -> loop_scopes b = [] -> phi_local_sources b = ∅ -> return_var_to_init_var b = ∅ -> var_raw_last_use b = ∅ ->
    let a := foldl (fun a v => match tile_memref v with Some _ => with_def a v (current_order a) None | None => a end) b params in
    current_order a = 0 /\ loop_scopes a = [] /\
    ordered_defs a = ordered_defs b ++ List.filter (fun v => bool_decide (is_Some (tile_memref v))) params /\
    phi_local_sources a = ∅ /\ return_var_to_init_var a = ∅ /\ var_raw_last_use a = ∅ /\
    (forall v d, var_def_order a !! v = Some d -> var_def_order b !! v = Some d \/ d = 0 /\ v ∈ entry_ids params) /\
    (forall v, v ∈ entry_ids params -> var_def_order a !! v = Some 0) /\
    (forall v, var_def_order b !! v = Some 0 -> var_def_order a !! v = Some 0)).
  { intros H. destruct (H no_lifetimes) as (? & ? & ? & ? & ? & ? & Hd & ? & _); try done. split_and!; try done. by intros v d [?|?]%Hd. }
  induction params as [|x params IH]; intros b Ho Hl Hp Hr Hu; cbn [foldl List.filter].
  { rewrite app_nil_r. split_and!; try done; [by left | by intros v ?%elem_of_nil]. }
  unfold entry_ids. cbn. destruct (tile_memref x) as [m|] eqn:Em.
  - destruct (IH (with_def b x (current_order b) None)) as (H1 & H2 & H3 & H4 & H5 & H6 & H7 & H8 & H9); try done.
    rewrite bool_decide_eq_true_2 by eauto. split_and!; try done.
    + rewrite H3. cbn. by rewrite <- app_assoc.
    + intros v d [H|[-> H]]%H7; [|right; split; [done | by right]]. cbn in H.
      apply lookup_insert_Some in H as [[<- <-]|[_ H]]; [right; split; [done | by left] | by left].
    + intros v [->|Hv]%elem_of_cons; [|by apply H8]. apply H9. cbn. rewrite lookup_insert_eq. by f_equal.
    + intros v Hv. apply H9. cbn. destruct (decide (v = var_id x)) as [->|?]; [rewrite lookup_insert_eq; by f_equal | by rewrite lookup_insert_ne].
  - rewrite bool_decide_eq_false_2 by (intros [? ?]; done). by apply IH.
Qed.

Lemma defines_sublist s : sublist (defines s) (names s).
Proof.
  induction s as [l IH|v e| | | |c t e rvs IHt IHe|? ? ? ? ? ? IHb|? ? ? ? IHb|? ? ? IHb| | |] using Stmt_nested_ind; try constructor.
  - induction IH as [|s l Hs _ IHl]; [constructor |]. rewrite defines_seq. by apply sublist_app.
  - unfold defines, tile_ids. cbn. by destruct (is_tile v).
  - rewrite defines_if. cbn [names]. apply sublist_app; [done |]. destruct e as [e|]; [|apply sublist_nil_l].
    apply sublist_inserts_r. by apply (IHe e).
  - cbn [names]. apply sublist_inserts_r. exact IHb.
  - cbn [names]. apply sublist_inserts_r. exact IHb.
  - exact IHb.
Qed.

(** ** Extension over loops *)

Lemma extend_spec def raw loops :
  raw <= extend def raw loops /\
  forall st en, (st, en) ∈ loops -> def < st -> st <= raw -> en <= extend def raw loops.
Proof.
  unfold extend. cut (forall acc, let r := foldl (fun extended '(start, stop) =>
    if (def <? start) && (raw >=? start) then Z.max extended stop else extended) acc loops in
    acc <= r /\ forall st en, (st, en) ∈ loops -> def < st -> st <= raw -> en <= r); [auto |].
  induction loops as [|[st en] loops IH]; intros acc; cbn [foldl]; [split; [lia | by intros ? ? ?%elem_of_nil] |].
  destruct (IH (if (def <? st) && (raw >=? st) then Z.max acc en else acc)) as [H1 H2]. split.
  - destruct ((def <? st) && (raw >=? st)); lia.
  - intros st' en' [[= -> ->]|Hin]%elem_of_cons Hd Hr; [|by eapply H2].
    assert (E : (def <? st) && (raw >=? st) = true) by (rewrite Z.geb_leb; apply andb_true_intro; split; lia).
    cbn zeta in *. rewrite E in *. lia.
Qed.

(** ** The analysis of a well-formed body *)

Lemma well_formed_parts body params : well_formed body params = true ->
  NoDup (tile_ids params ++ names body) /\ (forall st en, (st, en) ∈ loops_at 0 body -> 0 < st) /\
  every scalar_header body = true /\ every loop_tail body = true /\
  every (direct_carry (entry_ids params ++ defines body)) body = true /\ every (direct_yields (loop_result_names body)) body = true.
Proof.
  unfold well_formed. rewrite !andb_true_iff, bool_decide_eq_true, forallb_forall. intros [[[[[? H] ?] ?] ?] ?]. split_and!; try done.
  intros st en Hin. specialize (H (st, en) (proj1 (list_elem_of_In _ _) Hin)). cbn in H. lia.
Qed.

(** What the analysis of a well-formed body has. *)
Record analyses (body : Stmt) (params : list IRVar) (a : LifetimeAnalyzer) : Prop := {
  as_loops : loop_scopes a = loops_at 0 body;
  as_ordered : ordered_defs a = List.filter (fun v => bool_decide (is_Some (tile_memref v))) params ++ map fst (defs_at 0 body);
  as_defs : forall x d, (x, d) ∈ defs_at 0 body -> var_def_order a !! var_id x = Some d;
  as_params : forall v, v ∈ entry_ids params -> var_def_order a !! v = Some 0;
  as_positive : forall v d, var_def_order a !! v = Some d -> 0 <= d;
  as_raw : forall v u, var_raw_last_use a !! v = Some u -> exists d, var_def_order a !! v = Some d /\ d <= u;
  as_reads : forall t out ρ', runs (entry_env params) 0 body t out ρ' -> forall u v, Rd u v ∈ t -> u <= raw_last a v
}.

Lemma Analyze_analyses body params : well_formed body params = true ->
  exists a, Analyze body params = Ok a /\ analyses body params a.
Proof.
  intros (Hnd & _ & Hh & _ & Hc & Hy)%well_formed_parts. unfold Analyze.
  destruct (seed_spec params _ eq_refl) as (Ho & Hl & Hod & Hp & Hr & Hu & Hd1 & Hd2).
  set (a0 := seed_entries params no_lifetimes) in *. set (D := entry_ids params ++ defines body) in *.
  apply NoDup_app in Hnd as Hnd'. destruct Hnd' as (_ & Hdis & _).
  assert (Ha0 : analysed D (tile_ids params) a0).
  { split; rewrite ?Ho, ?Hp, ?Hr, ?Hu; try done.
    - intros v d [-> _]%Hd1. lia.
    - intros x [[d [_ ?]%Hd1]|[[? ?]|[? ?]]]; [by apply entry_ids_tiles | done..]. }
  assert (Hfit : fits D (loop_result_names body) (tile_ids params) body).
  { split; try done. intros x Hx [H%entry_ids_tiles|?]%elem_of_app; [|done]. by destruct (Hdis x). }
  assert (Hgood : good D (loop_result_names body) (tile_ids params) a0 (entry_env params)).
  { split; [done | | rewrite Hr; by intros x [? ?]]. intros x v [-> Hv]%entry_env_in. split; [eauto |]. left. by rewrite Hp, Hr. }
  destruct (visit_grown D body _ a0 Ha0 Hnd (fi_defs _ _ _ _ Hfit)) as (a & Hv & Ha & Hg). rewrite Ho in Hg.
  exists a. split; [done |]. split.
  - by rewrite (gr_loops _ _ _ _ _ _ _ Hg), Hl.
  - by rewrite (gr_ordered _ _ _ _ _ _ _ Hg), Hod.
  - apply (gr_new _ _ _ _ _ _ _ Hg).
  - intros v Hin. rewrite (gr_old _ _ _ _ _ _ _ Hg); [by apply Hd2 |]. by apply Hdis, entry_ids_tiles.
  - intros v d H. by apply (an_def _ _ _ Ha) in H as [? _].
  - intros v u H. destruct (an_raw _ _ _ Ha _ _ H) as (d & ? & ?). exists d. split; [done | lia].
  - intros t out ρ' Hrun u v Hin. destruct (proj1 (runs_reads_all D (loop_result_names body)) _ _ _ _ _ _ Hrun _ a0 a (eq_sym Ho) Hgood Hfit Hv) as [_ Hk].
    destruct (Hk u v Hin) as (u' & Hu' & ?). unfold raw_last. rewrite Hu'. done.
Qed.

(** ** Windows of a run *)

(** [between] is what happens from the definition of [v], or from the start for a
    parameter, to a read of its storage. *)
Definition window (params : list IRVar) (t : list event) (v : positive) (between : list event) : Prop :=
  (exists before after d u, t = before ++ Wr d v :: between ++ Rd u v :: after /\ forall d', Wr d' v ∉ between) \/
  (v ∈ entry_ids params /\ exists after u, t = between ++ Rd u v :: after).

Lemma windows_covered body params a t out ρ' v between d w :
  well_formed body params = true -> analyses body params a -> runs (entry_env params) 0 body t out ρ' ->
  window params t v between -> Wr d w ∈ between ->
  def_order_of a v <= d < effective_last a v /\ var_def_order a !! w = Some d.
Proof.
  intros Hwf Has Hrun Hwin Hw. apply well_formed_parts in Hwf as (Hnd & Hpos & _ & Htail & _).
  apply NoDup_app in Hnd as (_ & Hdis & Hnd).
  assert (Hdw : Wr d w ∈ t -> var_def_order a !! w = Some d).
  { intros Hin. destruct (proj2 (runs_placed _ _ _ _ _ _ Hrun) d w Hin) as (x & Hx & <-). by apply (as_defs _ _ _ Has). }
  assert (Hrl : forall v, raw_last a v <= effective_last a v) by (intros; apply extend_spec).
  assert (Hext : extended (raw_last a) (effective_last a) (def_order_of a) (loops_at 0 body)).
  { intros st en x Hin Hst Hraw. rewrite <- (as_loops _ _ _ Has) in Hin. by eapply extend_spec. }
  assert (Hrec : recorded (raw_last a) t) by (intros u x; by eapply (as_reads _ _ _ Has)).
  destruct Hwin as [(before & after & d0 & u & -> & Hno)|(Hv & after & u & ->)].
  - split; [|apply Hdw; rewrite !elem_of_app; right; right; apply elem_of_app; by left].
    assert (Hdv : Wr d0 v ∈ before ++ Wr d0 v :: between ++ Rd u v :: after) by (apply elem_of_app; right; by left).
    destruct (proj2 (runs_placed _ _ _ _ _ _ Hrun) d0 v Hdv) as (x & Hx & Hxv).
    assert (Hd0 : def_order_of a v = d0) by (unfold def_order_of; rewrite <- Hxv, (as_defs _ _ _ Has _ _ Hx); done).
    rewrite Hd0.
    refine (proj2 (proj1 (runs_windowed_all (raw_last a) (effective_last a) Hrl (def_order_of a) v) _ _ _ _ _ _ Hrun _ Htail _ Hext Hrec _
      before between after d0 u eq_refl Hno) d w Hw).
    + exact (sublist_NoDup _ _ Hnd (defines_sublist body)).
    + intros y dy Hy. unfold def_order_of. by rewrite (as_defs _ _ _ Has _ _ Hy).
    + intros (y & [_ Hy]%entry_env_in). destruct (Hdis v); [by apply entry_ids_tiles |]. apply defines_names, (defines_in 0). by exists x, d0.
  - split; [|apply Hdw, elem_of_app; by left].
    assert (Hd0 : def_order_of a v = 0) by (unfold def_order_of; by rewrite (as_params _ _ _ Has)). rewrite Hd0. split.
    + pose proof (runs_write _ _ _ _ _ _ d w Hrun ltac:(apply elem_of_app; by left)) as [_ ?]. lia.
    + refine (proj1 (runs_below_all (raw_last a) (effective_last a) Hrl (def_order_of a) v) _ _ _ _ _ _ Hrun Htail Hext _ Hrec
        between after u d w eq_refl Hw). intros st en Hin. rewrite Hd0. by eapply Hpos.
Qed.

(** ** Groups *)

(** The variables of a base, in order. *)
Definition members (defs : list IRVar) (b : positive) : list IRVar := List.filter (fun v => bool_decide (var_base v = Some b)) defs.

Lemma members_in defs b v : v ∈ members defs b <-> v ∈ defs /\ var_base v = Some b.
Proof. unfold members. rewrite list_elem_of_In, filter_In, <- list_elem_of_In, bool_decide_eq_true. done. Qed.

Lemma members_snoc defs v b : members (defs ++ [v]) b = members defs b ++ (if bool_decide (var_base v = Some b) then [v] else []).
Proof. unfold members. rewrite List.filter_app. cbn. by destruct (bool_decide _). Qed.

Lemma memref_groups_members defs b :
  memref_groups defs !! b = match members defs b with [] => None | l => Some l end.
Proof.
  induction defs as [|v defs IH] using rev_ind; [apply lookup_empty |]. unfold memref_groups in *. rewrite foldl_app, members_snoc. cbn [foldl].
  destruct (var_base v) as [b'|] eqn:E.
  - destruct (decide (b' = b)) as [->|Hne].
    + rewrite lookup_insert_eq, IH, bool_decide_eq_true_2 by done. by destruct (members defs b).
    + rewrite lookup_insert_ne, IH, bool_decide_eq_false_2 by congruence. by rewrite app_nil_r.
  - rewrite bool_decide_eq_false_2 by done. by rewrite app_nil_r.
Qed.

Lemma sharing_group_members defs v b : v ∈ defs -> var_base v = Some b -> sharing_group (memref_groups defs) v = members defs b.
Proof.
  intros Hv Hb. unfold sharing_group. rewrite Hb. cbn. rewrite memref_groups_members.
  destruct (members defs b) eqn:E; [|done]. assert (H : v ∈ members defs b) by by apply members_in. rewrite E in H. by apply elem_of_nil in H.
Qed.

(** ** Intervals *)

Section Intervals.
Context (a : LifetimeAnalyzer) (sizes : gmap positive Z) (defs : list IRVar).
Hypothesis ids : NoDup (map var_id defs).
(** A tile with a reference is in a memory. *)
Definition spaced (v : IRVar) : Prop := is_Some (tile_memref v) -> exists d m s, GetType v = TileType d (Some m) (Some s).
Hypothesis spaces : forall v, v ∈ defs -> spaced v.

Lemma var_base_memref v b : var_base v = Some b -> exists m, tile_memref v = Some m /\ base_key m = b.
Proof. unfold var_base. destruct (tile_memref v) as [m|]; [|done]. intros [= <-]. by exists m. Qed.

(** The interval of a base. *)
Definition interval_of (b : positive) (x : LifetimeInterval) : Prop :=
  exists v l, members defs b = v :: l /\ group_interval a sizes v (members defs b) = Ok x.

Lemma interval_of_exists b v : v ∈ defs -> var_base v = Some b -> exists x, interval_of b x.
Proof.
  intros Hv Hb. destruct (members defs b) as [|v0 l] eqn:E.
  { assert (H : v ∈ members defs b) by by apply members_in. rewrite E in H. by apply elem_of_nil in H. }
  assert (H0 : v0 ∈ members defs b) by (rewrite E; by left). apply members_in in H0 as [Hd Hb0].
  apply var_base_memref in Hb0 as (m0 & Hm0 & _). destruct (spaces v0 Hd ltac:(eauto)) as (dt & m & s & Ht).
  eexists _, v0, l. split; [done |]. unfold group_interval. rewrite Ht. reflexivity.
Qed.

Lemma interval_of_base b x : interval_of b x -> base_of_interval x = Some b /\ is_Some (var_memref x).
Proof.
  intros (v & l & E & H). assert (H0 : v ∈ members defs b) by (rewrite E; by left). apply members_in in H0 as [_ Hb].
  unfold group_interval in H. destruct (GetType v) as [|dt [m|] [s|]| | | |] eqn:Et; try done. injection H as <-.
  unfold base_of_interval. cbn. split; [|eauto]. unfold var_base, tile_memref in Hb. rewrite Et in Hb. by injection Hb as <-.
Qed.

Record built (done : list IRVar) (r : Intervals) : Prop := {
  bu_found : forall x, x ∈ found r -> exists b, interval_of b x;
  bu_bases : NoDup (map base_of_interval (found r));
  bu_done : forall v b, v ∈ done -> var_base v = Some b -> exists x, x ∈ found r /\ base_of_interval x = Some b;
  bu_processed : forall v b, v ∈ defs -> var_base v = Some b ->
    var_id v ∈ processed r <-> exists x, x ∈ found r /\ base_of_interval x = Some b
}.

Lemma var_id_inj v w : v ∈ defs -> w ∈ defs -> var_id v = var_id w -> v = w.
Proof.
  intros (i & Hi)%list_elem_of_lookup (j & Hj)%list_elem_of_lookup E.
  assert (i = j) as ->; [|congruence]. eapply (NoDup_lookup (map var_id defs)); [done | |];
    (rewrite list_lookup_fmap || change (map var_id defs) with (var_id <$> defs); rewrite ?list_lookup_fmap).
  - by rewrite Hi. - rewrite Hj. cbn. by rewrite E.
Qed.

Lemma add_interval_built done v r : v ∈ defs -> built done r ->
  exists r', add_interval_of a sizes (memref_groups defs) v r = Ok r' /\ built (done ++ [v]) r'.
Proof.
  intros Hv Hb. unfold add_interval_of. case_bool_decide as Hp.
  - exists r. split; [done |]. destruct Hb as [H1 H2 H3 H4]. split; [done | done | | done].
    intros w b [Hw| ->%list_elem_of_singleton]%elem_of_app Hwb; [by eapply H3 | by apply (H4 v b)].
  - destruct (tile_memref v) as [m|] eqn:Em.
    2:{ exists r. split; [done |]. destruct Hb as [H1 H2 H3 H4]. split; [done | done | | done].
        intros w b [Hw| ->%list_elem_of_singleton]%elem_of_app Hwb; [by eapply H3 |].
        apply var_base_memref in Hwb as (? & ? & _). congruence. }
    assert (Hbase : var_base v = Some (base_key m)) by (unfold var_base; by rewrite Em). set (b := base_key m) in *.
    rewrite (sharing_group_members defs v b Hv Hbase).
    destruct (interval_of_exists b v Hv Hbase) as (x & v0 & l & E & Hx). rewrite E in *. cbn [hd].
    rewrite <- E in Hx |- *. rewrite Hx. cbn [bind].
    assert (Hi : interval_of b x) by by exists v0, l. apply interval_of_base in Hi as Hxb. destruct Hxb as [Hxb _].
    destruct (match group_membership a (members defs b) with Some (pairs, loads_) => _ | None => _ end) as [ms ls].
    eexists. split; [done |]. destruct Hb as [H1 H2 H3 H4]. split; cbn [found processed].
    + intros y [Hy| ->%list_elem_of_singleton]%elem_of_app; [by apply H1 | by exists b].
    + rewrite map_app. apply NoDup_app. split_and!; [done | | apply NoDup_singleton].
      intros y Hy ->%list_elem_of_singleton. apply Hp, (H4 v b); [done | done |]. rewrite Hxb in Hy.
      apply list_elem_of_fmap in Hy as (z & Hz & ?). exists z. done.
    + intros w c [Hw| ->%list_elem_of_singleton]%elem_of_app Hc.
      * destruct (H3 w c Hw Hc) as (y & ? & ?). exists y. split; [apply elem_of_app; by left | done].
      * exists x. split; [apply elem_of_app; right; by left | congruence].
    + intros w c Hw Hc. rewrite elem_of_union, elem_of_list_to_set, (H4 w c Hw Hc). split.
      * intros [(y & Ey & [Hy Hyb]%members_in)%list_elem_of_fmap|(y & ? & ?)].
        -- assert (w = y) as -> by by apply var_id_inj. exists x. split; [apply elem_of_app; right; by left | congruence].
        -- exists y. split; [apply elem_of_app; by left | done].
      * intros (y & [Hy| ->%list_elem_of_singleton]%elem_of_app & Hyb); [right; by exists y | left].
        apply list_elem_of_fmap. exists w. split; [done |]. apply members_in. split; [done | congruence].
Qed.

Lemma add_intervals_built rest : forall done r, (forall v, v ∈ rest -> v ∈ defs) -> built done r ->
  exists r', fold_result (add_interval_of a sizes (memref_groups defs)) rest r = Ok r' /\ built (done ++ rest) r'.
Proof.
  induction rest as [|v rest IH]; intros done r Hin Hb; cbn [fold_result]; [exists r; by rewrite app_nil_r |].
  destruct (add_interval_built done v r ltac:(apply Hin; by left) Hb) as (r1 & -> & Hb1). cbn [bind].
  destruct (IH (done ++ [v]) r1) as (r' & -> & Hb'); [intros w Hw; apply Hin; by right | done |].
  exists r'. split; [done |]. by rewrite <- app_assoc in Hb'.
Qed.

Lemma no_intervals_built : built [] (MkIntervals ∅ [] ∅ ∅ ∅).
Proof.
  split; cbn; [by intros x ?%elem_of_nil | constructor | by intros v b ?%elem_of_nil |].
  intros v b _ _. split; [set_solver | by intros (x & ?%elem_of_nil & _)].
Qed.

Lemma foldr_min {A} (f : A -> Z) z l :
  (forall w, w ∈ l -> foldr (fun v d => Z.min (f v) d) z l <= f w) /\
  (0 <= z -> (forall w, w ∈ l -> 0 <= f w) -> 0 <= foldr (fun v d => Z.min (f v) d) z l).
Proof.
  induction l as [|y l [IH1 IH2]]; cbn [foldr]; [split; [by intros w ?%elem_of_nil | done] |]. split.
  - intros w [->|Hw%IH1]%elem_of_cons; lia.
  - intros Hz Hl. pose proof (Hl y ltac:(by left)). specialize (IH2 Hz ltac:(intros w Hw; apply Hl; by right)). lia.
Qed.
Lemma foldr_max {A} (f : A -> Z) z l : forall w, w ∈ l -> f w <= foldr (fun v u => Z.max (f v) u) z l.
Proof. induction l as [|y l IH]; intros w; cbn [foldr]; [by intros ?%elem_of_nil |]. intros [->|Hw%IH]%elem_of_cons; lia. Qed.

(** The points of an interval are the least and the greatest of its members. *)
Lemma interval_points b x : interval_of b x ->
  (forall v, v ∈ defs -> 0 <= def_order_of a (var_id v) <= effective_last a (var_id v)) ->
  interval_ok x /\ forall v, v ∈ defs -> var_base v = Some b ->
    def_point x <= def_order_of a (var_id v) /\ effective_last a (var_id v) <= last_use_point x.
Proof.
  intros (v0 & l & E & H) Hpos. unfold group_interval in H. destruct (GetType v0) as [|dt [m|] [s|]| | | |] eqn:Et; try done. injection H as <-.
  unfold interval_ok. cbn [def_point last_use_point].
  destruct (foldr_min (fun v => def_order_of a (var_id v)) (2 ^ 31 - 1) (members defs b)) as [Hmin Hge].
  pose proof (foldr_max (fun v => effective_last a (var_id v)) (- 2 ^ 31) (members defs b)) as Hmax.
  assert (H1 : 0 <= foldr (fun v d => Z.min (def_order_of a (var_id v)) d) (2 ^ 31 - 1) (members defs b)).
  { apply Hge; [lia |]. intros w [Hw _]%members_in. by apply Hpos. }
  assert (H0 : v0 ∈ members defs b) by (rewrite E; by left). pose proof (Hmin _ H0). pose proof (Hmax _ H0). cbn beta in *.
  apply members_in in H0 as [Hd0 _]. specialize (Hpos _ Hd0). split; [lia |].
  intros v Hv Hb. assert (Hm : v ∈ members defs b) by by apply members_in.
  split; [by apply Hmin | by apply Hmax].
Qed.
End Intervals.

(** ** The whole analysis *)

(** The tiles with an order. *)
Definition body_tiles (body : Stmt) (params : list IRVar) : list IRVar :=
  List.filter (fun v => bool_decide (is_Some (tile_memref v))) params ++ map fst (defs_at 0 body).

Lemma body_tiles_ids params : map var_id (List.filter (fun v => bool_decide (is_Some (tile_memref v))) params) = entry_ids params.
Proof.
  unfold entry_ids. induction params as [|v params IH]; [done |]. cbn. destruct (tile_memref v) eqn:E.
  - rewrite bool_decide_eq_true_2 by eauto. cbn. by rewrite IH.
  - rewrite bool_decide_eq_false_2; [done |]. by intros [? ?].
Qed.

Lemma entry_ids_sublist params : sublist (entry_ids params) (tile_ids params).
Proof.
  unfold entry_ids, tile_ids. induction params as [|v params IH]; [constructor |]. cbn. destruct (tile_memref v) eqn:E.
  - rewrite tile_memref_tile by eauto. cbn. by constructor.
  - destruct (is_tile v); [by constructor | done].
Qed.

Lemma body_tiles_nodup body params : well_formed body params = true -> NoDup (map var_id (body_tiles body params)).
Proof.
  intros (Hnd & _)%well_formed_parts. unfold body_tiles. rewrite map_app, body_tiles_ids, map_map, defines_at.
  eapply sublist_NoDup; [exact Hnd |]. apply sublist_app; [apply entry_ids_sublist | apply defines_sublist].
Qed.

(** What the analysis gives the planner. *)
Record analysed_into (body : Stmt) (params : list IRVar) (a : LifetimeAnalyzer) (l : list LifetimeInterval) : Prop := {
  ai_analyses : analyses body params a;
  ai_intervals : forall x, x ∈ l -> interval_ok x /\ is_Some (var_memref x);
  ai_bases : NoDup (map base_of_interval l);
  ai_covers : forall v b, v ∈ body_tiles body params -> var_base v = Some b ->
    exists x, x ∈ l /\ base_of_interval x = Some b /\
      def_point x <= def_order_of a (var_id v) /\ effective_last a (var_id v) <= last_use_point x;
  ai_positive : forall v, v ∈ body_tiles body params -> 0 <= def_order_of a (var_id v);
  ai_first : forall x b, x ∈ l -> base_of_interval x = Some b ->
    exists v rest, members (body_tiles body params) b = v :: rest /\ variable x = var_id v
}.

Lemma AnalyzeAllocationLifetimes_into body params :
  well_formed body params = true -> (forall v, v ∈ body_tiles body params -> spaced v) ->
  exists a r, AnalyzeAllocationLifetimes body params = Ok r /\ analysed_into body params a (lifetimes (analysis r)).
Proof.
  intros Hwf Hsp. destruct (Analyze_analyses body params Hwf) as (a & Ha & Has). pose proof (body_tiles_nodup _ _ Hwf) as Hids.
  pose proof (as_ordered _ _ _ Has) as Hod. fold (body_tiles body params) in Hod.
  assert (Hpos : forall v, v ∈ body_tiles body params -> 0 <= def_order_of a (var_id v) <= effective_last a (var_id v)).
  { intros v Hv. split.
    - unfold def_order_of. destruct (var_def_order a !! var_id v) as [d|] eqn:E; [|done]. by apply (as_positive _ _ _ Has) in E.
    - transitivity (raw_last a (var_id v)); [|apply extend_spec]. unfold raw_last.
      destruct (var_raw_last_use a !! var_id v) as [u|] eqn:E; [|done].
      destruct (as_raw _ _ _ Has _ _ E) as (d & Hd & ?). unfold def_order_of. by rewrite Hd. }
  destruct (add_intervals_built a (CollectAllocSizes body) _ Hids Hsp (body_tiles body params) [] _ (fun _ H => H) (no_intervals_built a _ _ Hids Hsp))
    as (r & Hr & Hb). cbn [app] in Hb.
  exists a. unfold AnalyzeAllocationLifetimes. rewrite Ha. cbn [bind]. rewrite Hod. destruct (body_tiles body params) as [|v0 defs] eqn:E.
  - eexists. split; [done |]. split; cbn; rewrite ?E; try done; [by intros x ?%elem_of_nil | constructor | by intros ? ? ?%elem_of_nil | by intros ? ?%elem_of_nil | by intros ? ? ?%elem_of_nil].
  - rewrite <- E in *. rewrite Hr. cbn [bind]. eexists. split; [done |]. split; cbn [analysis lifetimes]; [done | | apply Hb | | |].
    + intros x (b & Hx)%(bu_found _ _ _ _ _ Hb). split; [by eapply interval_points |]. by eapply interval_of_base.
    + intros v b Hv Hvb. destruct (bu_done _ _ _ _ _ Hb v b Hv Hvb) as (x & Hx & Hxb). exists x. do 2 (split; [done |]).
      destruct (bu_found _ _ _ _ _ Hb x Hx) as (b' & Hi). assert (b' = b) as -> by (destruct (interval_of_base _ _ _ _ _ Hi); congruence).
      by eapply interval_points.
    + intros v Hv. by apply Hpos.
    + intros x b (b' & Hi)%(bu_found _ _ _ _ _ Hb) Hxb. apply interval_of_base in Hi as Hbb. assert (b' = b) as -> by (destruct Hbb; congruence).
      destruct Hi as (v & rest & Em & Hg). exists v, rest. split; [done |].
      unfold group_interval in Hg. destruct (GetType v) as [|? [?|] [?|]| | | |]; try done. by injection Hg as <-.
Qed.

(** The intervals of the allocations. *)
(** C6: AnalyzeAllocationLifetimes is defined on a well_formed body whose tiles with a
    reference are in a memory, and gives one interval per allocation, which covers its runs:
    in any run, whatever branches are taken and however often loops repeat, a tile written
    between the definition of a tile v (or the start, for a parameter) and a read of its
    storage is written at or after the definition point and before the last use of the
    allocation of v. *)
Theorem AnalyzeAllocationLifetimes_sound body params :
  well_formed body params = true -> (forall v, v ∈ body_tiles body params -> spaced v) ->
  exists r, AnalyzeAllocationLifetimes body params = Ok r /\
    (forall x, x ∈ lifetimes (analysis r) -> interval_ok x /\ is_Some (var_memref x)) /\
    NoDup (map base_of_interval (lifetimes (analysis r))) /\
    forall v b, v ∈ body_tiles body params -> var_base v = Some b ->
      exists x, x ∈ lifetimes (analysis r) /\ base_of_interval x = Some b /\
        forall t out ρ' between d w, runs (entry_env params) 0 body t out ρ' -> window params t (var_id v) between ->
          Wr d w ∈ between -> def_point x <= d < last_use_point x.
Proof.
  intros Hwf Hsp. destruct (AnalyzeAllocationLifetimes_into body params Hwf Hsp) as (a & r & Hr & [Has Hi Hb Hc _ _]).
  exists r. split_and!; [done.. |]. intros v b Hv Hvb. destruct (Hc v b Hv Hvb) as (x & Hx & Hxb & ? & ?). exists x. do 2 (split; [done |]).
  intros t out ρ' between d w Hrun Hwin Hw. destruct (windows_covered _ _ _ _ _ _ _ _ _ _ Hwf Has Hrun Hwin Hw) as [? _]. lia.
Qed.

(** ** With the planner *)

(** Two definitions have two orders. *)
Lemma defs_at_order s : forall o x y d, (x, d) ∈ defs_at o s -> (y, d) ∈ defs_at o s -> x = y.
Proof.
  induction s as [l IH|v e| | | |c t e rvs IHt IHe|? ? ? ? ? ? IHb|? ? ? ? IHb|? ? ? IHb| | |] using Stmt_nested_ind; intros o x y d; try by intros ?%elem_of_nil.
  - rewrite !defs_at_seq. revert o. induction IH as [|s l Hs _ IHl]; intros o; [by intros ?%elem_of_nil |]. cbn [defs_seq].
    rewrite <- !defs_at_seq.
    intros [Hx|Hx]%elem_of_app [Hy|Hy]%elem_of_app;
      [by eapply Hs | apply defs_at_range in Hx, Hy; lia | apply defs_at_range in Hx, Hy; lia | by eapply IHl].
  - cbn [defs_at]. destruct (is_tile v); [|by intros ?%elem_of_nil]. by intros [= -> ->]%list_elem_of_singleton [= ->]%list_elem_of_singleton.
  - cbn [defs_at]. destruct e as [e|]; [|rewrite app_nil_r; apply IHt].
    intros [Hx|Hx]%elem_of_app [Hy|Hy]%elem_of_app;
      [by eapply IHt | apply defs_at_range in Hx, Hy; lia | apply defs_at_range in Hx, Hy; lia | by eapply (IHe e)].
  - apply IHb. - apply IHb. - apply IHb.
Qed.

(** An allocation written while the storage of [v] is to be read lives with it. *)
Lemma window_co_live body params a l t out ρ' v w bv bw between d x y :
  well_formed body params = true -> analysed_into body params a l -> runs (entry_env params) 0 body t out ρ' ->
  window params t (var_id v) between -> Wr d (var_id w) ∈ between ->
  v ∈ body_tiles body params -> w ∈ body_tiles body params -> var_base v = Some bv -> var_base w = Some bw -> bv <> bw ->
  x ∈ l -> y ∈ l -> base_of_interval x = Some bv -> base_of_interval y = Some bw -> co_live x y.
Proof.
  intros Hwf [Has Hi Hnd Hc Hpos _] Hrun Hwin Hw Hv Hw' Hbv Hbw Hne Hx Hy Hxb Hyb.
  assert (Huniq : forall x y, x ∈ l -> y ∈ l -> base_of_interval x = base_of_interval y -> x = y).
  { clear -Hnd. intros x y (i & Hi)%list_elem_of_lookup (j & Hj)%list_elem_of_lookup E.
    assert (i = j) as ->; [|congruence]. eapply (NoDup_lookup (base_of_interval <$> l)); [done | |]; rewrite list_lookup_fmap; [by rewrite Hi |].
    rewrite Hj. cbn. by rewrite E. }
  destruct (windows_covered _ _ _ _ _ _ _ _ _ _ Hwf Has Hrun Hwin Hw) as [Hd Hdw].
  assert (Hdw' : def_order_of a (var_id w) = d) by (unfold def_order_of; by rewrite Hdw).
  destruct (Hc v bv Hv Hbv) as (x' & Hx' & Hxb' & Hxd & Hxl). assert (x' = x) as -> by (apply Huniq; congruence).
  destruct (Hc w bw Hw' Hbw) as (y' & Hy' & Hyb' & Hyd & Hyl). assert (y' = y) as -> by (apply Huniq; congruence).
  destruct (Hi x Hx) as [Hxok _]. destruct (Hi y Hy) as [Hyok _]. unfold interval_ok, co_live in *.
  assert (Hle : def_order_of a (var_id w) <= effective_last a (var_id w)).
  { transitivity (raw_last a (var_id w)); [|apply extend_spec]. unfold raw_last.
    destruct (var_raw_last_use a !! var_id w) as [u|] eqn:E; [|done]. destruct (as_raw _ _ _ Has _ _ E) as (d' & Hd' & ?).
    unfold def_order_of. by rewrite Hd'. }
  split; [|lia]. destruct (decide (def_point x <= def_point y)); [by left | right].
  assert (Hneq : def_order_of a (var_id v) <> d); [|lia]. intros Heq.
  assert (Hwd : (w, d) ∈ defs_at 0 body).
  { assert (Hin : Wr d (var_id w) ∈ t).
    { destruct Hwin as [(before & after & d0 & u & -> & _)|(_ & after & u & ->)]; rewrite !elem_of_app; [right; right | by left].
      apply elem_of_app. by left. }
    destruct (proj2 (runs_placed _ _ _ _ _ _ Hrun) _ _ Hin) as (z & Hz & Ez).
    assert (z = w) as <-; [|done]. eapply (var_id_inj (body_tiles body params)); [by apply body_tiles_nodup | | done | done].
    apply elem_of_app. right. change z with (fst (z, d)). by apply list_elem_of_fmap_2. }
  apply elem_of_app in Hv as [Hv|Hv].
  - pose proof (defs_at_range _ _ _ _ Hwd). assert (var_id v ∈ entry_ids params) as Hvp.
    { rewrite <- body_tiles_ids. by apply list_elem_of_fmap_2. }
    unfold def_order_of in Hxd, Heq. rewrite (as_params _ _ _ Has _ Hvp) in Hxd, Heq. cbn in *. lia.
  - apply list_elem_of_fmap in Hv as ([v' dv] & -> & Hvd). cbn [fst] in *.
    unfold def_order_of in Heq. rewrite (as_defs _ _ _ Has _ _ Hvd) in Heq. cbn in Heq. subst dv.
    assert (v' = w) as -> by by eapply defs_at_order. congruence.
Qed.

(** Stored values survive. *)
(** C5: The whole planner keeps stored values: with the lifetimes of a well_formed body
    whose tiles with a reference are in a memory, the plan built from them and the addresses
    PlanWithDsaRP gives when the plan is well-formed (plan_wf: allocations on chip have
    positive sizes that fit 64 bits, ordered lifetimes and a base each, relations are in
    range, recognized pairs never live together, reserved ranges end within capacities) and
    has an allocation on chip, in no run, whatever branches are taken and however often
    loops repeat, is a tile written into the bytes of another tile's allocation of the same
    memory between the definition of that tile and a read of its storage. The memory policy
    is any that satisfies PolicyLaws (aligning rounds up, ordering permutes), as the default
    one does. *)
Theorem values_survive `{policy : MemoryAllocatorPolicy} `{!PolicyLaws policy} `{Shuffle}
    body params r constraints plan recognized ends mem_size memrefs relative reps reused :
  well_formed body params = true -> (forall v, v ∈ body_tiles body params -> spaced v) ->
  AnalyzeAllocationLifetimes body params = Ok r -> BuildDsaAllocationPlan (analysis r) constraints = Ok plan ->
  plan_wf ends plan (pool_caps mem_size (intervals plan)) recognized -> (exists x, x ∈ intervals plan /\ active x = true) ->
  PlanWithDsaRP plan recognized ends mem_size memrefs relative = Ok (reps, reused) ->
  exists at_ : positive -> Z,
    Forall2 (fun ms p => replaced at_ relative ms.1 p) (placed_memrefs memrefs) reps /\
    forall v w bv bw x y t out ρ' between d,
      v ∈ body_tiles body params -> w ∈ body_tiles body params -> var_base v = Some bv -> var_base w = Some bw -> bv <> bw ->
      x ∈ intervals plan -> y ∈ intervals plan -> base_of_interval x = Some bv -> base_of_interval y = Some bw ->
      active x = true -> active y = true -> memory_space x = memory_space y ->
      runs (entry_env params) 0 body t out ρ' -> window params t (var_id v) between -> Wr d (var_id w) ∈ between ->
      disjoint_ranges (at_ bv) (lsize x) (at_ bw) (lsize y).
Proof.
  intros Hwf Hsp Hr Hplan Hpw Hact Hp.
  destruct (AnalyzeAllocationLifetimes_into body params Hwf Hsp) as (a & r' & Hr' & Hai). rewrite Hr in Hr'. injection Hr' as <-.
  destruct (PlanWithDsaRP_placement ends plan recognized mem_size memrefs relative reps reused Hpw Hact Hp)
    as (prepared & solved & sol & Hprep & Hsolved & Hv & Hreps & _).
  exists (address_of prepared sol). split; [done |].
  intros v w bv bw x y t out ρ' between d Hv' Hw Hbv Hbw Hne Hx Hy Hxb Hyb Hax Hay Hs Hrun Hwin Hwr.
  unfold BuildDsaAllocationPlan in Hplan. apply bind_ok in Hplan as (l & Hl & Hplan). injection Hplan as Hplan.
  assert (Hint : intervals plan = l) by by rewrite <- Hplan.
  rewrite Hint in Hx, Hy. apply size_intervals_ok in Hl.
  assert (Hfrom : forall z, z ∈ l -> exists z', z' ∈ lifetimes (analysis r) /\ base_of_interval z' = base_of_interval z /\
    def_point z' = def_point z /\ last_use_point z' = last_use_point z).
  { intros z (k & Hk)%list_elem_of_lookup. destruct (Forall2_lookup_r _ _ _ _ _ Hl Hk) as (z' & Hz' & [(_ & Hm & ? & ? & _) _ _ _ _]).
    exists z'. split; [by eapply list_elem_of_lookup_2 |]. unfold base_of_interval. by rewrite Hm. }
  destruct (Hfrom x Hx) as (x' & Hx' & Exb & Exd & Exl). destruct (Hfrom y Hy) as (y' & Hy' & Eyb & Eyd & Eyl).
  assert (Hco : co_live x y).
  { assert (Hco' : co_live x' y') by (eapply (window_co_live body params a _ t out ρ' v w bv bw between d); try done; congruence).
    unfold co_live in *. by rewrite Exd, Exl, Eyd, Eyl in Hco'. }
  rewrite <- Hint in Hx, Hy. apply list_elem_of_lookup in Hx as [i Hi], Hy as [j Hj].
  apply (intervals_apart ends plan mem_size prepared solved sol i j x y); try done; [|by left]. intros ->. congruence.
Qed.

(** ** An example *)

(** A tile [x] is read in both branches of a loop that carries [acc]; the branches
    yield [z] and [w], and the loop's result is stored. *)
Section Example_body.
Let ref (base : positive) : MemRef :=
  MkMemRef (base + 100) (MkMemRefData EmptyString (MkBase base EmptyString) (ConstInt 0 INT64) 64 false 1 None).
Definition ex_tile (v base : positive) : IRVar := MkVar v (TileType FP32 (Some (ref base)) (Some Vec)).
Definition ex_index (v : positive) : IRVar := MkVar v OtherType.
Definition ex_call (op : string) (args : list IRExpr) : IRExpr := Call (MkOp op false) args [] OtherType EmptyString false.

Definition ex_acc := ex_tile 1 21.
Definition ex_x := ex_tile 2 22.
Definition ex_carried := ex_tile 3 21.
Definition ex_y := ex_tile 4 23.
Definition ex_z := ex_tile 5 24.
Definition ex_w := ex_tile 6 25.
Definition ex_p := ex_tile 7 24.
Definition ex_next := ex_tile 8 21.
Definition ex_result := ex_tile 9 21.

Definition ex_then : Stmt :=
  SeqStmts [AssignStmt ex_z (ex_call "tile.add" [VarExpr ex_x; VarExpr ex_y]); YieldStmt [VarExpr ex_z]].
Definition ex_else : Stmt :=
  SeqStmts [AssignStmt ex_w (ex_call "tile.mul" [VarExpr ex_x; VarExpr ex_y]); YieldStmt [VarExpr ex_w]].
Definition ex_choice : Stmt := IfStmt (ConstBoolExpr true) ex_then (Some ex_else) [ex_p].
Definition ex_loop_body : Stmt :=
  SeqStmts [AssignStmt ex_y (ex_call "tile.load" []); ex_choice;
    AssignStmt ex_next (ex_call "tile.add" [IterArg ex_carried (VarExpr ex_acc); VarExpr ex_p]); YieldStmt [VarExpr ex_next]].
Definition ex_loop : Stmt := ForStmt (ex_index 30) [] [(ex_carried, VarExpr ex_acc)] ex_loop_body [ex_result] false.
Definition ex_body : Stmt :=
  SeqStmts [AssignStmt ex_acc (ex_call "tile.create" []); AssignStmt ex_x (ex_call "tile.load" []); ex_loop;
    EvalStmt (ex_call "tile.store" [VarExpr ex_result])].
End Example_body.

Definition ex_lifetimes : Lifetimes :=
  match AnalyzeAllocationLifetimes ex_body [] with Ok r => r | Err _ => MkLifetimes (MkAnalysis [] ∅ ∅) ∅ ∅ ∅ ∅ ∅ end.

(** [acc] is live to the end, [x] to the end of the loop. *)
Example ex_intervals :
  map (fun i => (variable i, def_point i, last_use_point i)) (lifetimes (analysis ex_lifetimes)) =
  [(1%positive, 0, 9); (2%positive, 1, 8); (4%positive, 2, 5); (5%positive, 3, 7); (6%positive, 5, 7)].
Proof. vm_compute. reflexivity. Qed.

Lemma in_scope_forallb ρ l : forallb (fun x => bool_decide (is_Some (ρ !! x))) (read_names l) = true -> in_scope ρ l.
Proof. rewrite forallb_forall. intros H x Hx. apply list_elem_of_In, H, bool_decide_eq_true in Hx. done. Qed.

Lemma ex_spaced v : v ∈ body_tiles ex_body [] -> spaced v.
Proof.
  intros Hv _. vm_compute in Hv. repeat (apply elem_of_cons in Hv as [->|Hv]; [do 3 eexists; reflexivity |]). by apply elem_of_nil in Hv.
Qed.

Ltac run_scope := apply in_scope_forallb; vm_compute; reflexivity.
Ltac run_step :=
  first [ apply run_seq | eapply run_define; [reflexivity | run_scope] | eapply run_eval; run_scope
        | eapply run_yield; run_scope | eapply seq_step | apply seq_nil ].

(** One iteration through the first branch. *)
Definition ex_env : env := {[ 1%positive := Some 1%positive; 2%positive := Some 2%positive ]}.
Definition ex_iteration : list event :=
  [Wr 2 4; Rd 3 2; Rd 3 4; Wr 3 5; Rd 4 5; Rd 7 1; Rd 7 5; Wr 7 8; Rd 8 8]%positive%Z.

Lemma ex_iteration_runs : exists t ρ, runs ex_env 2 ex_loop_body t Normal ρ /\ t = ex_iteration.
Proof.
  do 2 eexists. split.
  - apply run_seq. eapply seq_step; [run_step |]. eapply seq_step.
    + eapply run_then; [run_scope |]. repeat run_step.
    + repeat run_step.
  - vm_compute. reflexivity.
Qed.

(** Two iterations. *)
Definition ex_trace : list event := [Wr 0 1; Wr 1 2; Rd 2 1]%positive%Z ++ ex_iteration ++ ex_iteration ++ [Rd 9 1%positive].

Lemma ex_runs : exists t ρ, runs (entry_env []) 0 ex_body t Normal ρ /\ t = ex_trace.
Proof.
  destruct ex_iteration_runs as (ti & ρi & Hi & Eti). do 2 eexists. split.
  - apply run_seq. eapply seq_step; [run_step |]. eapply seq_step; [run_step |]. eapply seq_step.
    + eapply run_loop; [reflexivity | run_scope | run_scope |].
      eapply loop_next; [run_scope | exact Hi | by left |]. eapply loop_next; [run_scope | exact Hi | by left |]. eapply loop_done. run_scope.
    + repeat run_step.
  - rewrite Eti. vm_compute. reflexivity.
Qed.

(** The tile [y] is written again before [x] is read again. *)
Definition ex_between : list event := [Rd 2 1%positive] ++ ex_iteration ++ [Wr 2 4%positive].

Lemma ex_window t : t = ex_trace -> window [] t (var_id ex_x) ex_between /\ Wr 2 (var_id ex_y) ∈ ex_between.
Proof.
  intros ->. split; [left | apply elem_of_app; right; apply elem_of_app; right; by left].
  exists [Wr 0 1%positive], ([Rd 3 4; Wr 3 5; Rd 4 5; Rd 7 1; Rd 7 5; Wr 7 8; Rd 8 8]%positive%Z ++ [Rd 9 1%positive]), 1, 3. split; [reflexivity |].
  intros d' Hd. vm_compute in Hd. repeat (apply elem_of_cons in Hd as [E|Hd]; [discriminate |]). by apply elem_of_nil in Hd.
Qed.

Lemma ex_tiles_in : ex_x ∈ body_tiles ex_body [] /\ ex_y ∈ body_tiles ex_body [].
Proof. vm_compute. split; [right; left | right; right; left]. Qed.

Lemma AnalyzeAllocationLifetimes_sound_witness :
  exists r x, AnalyzeAllocationLifetimes ex_body [] = Ok r /\ x ∈ lifetimes (analysis r) /\ base_of_interval x = Some 22%positive /\
    def_point x <= 2 < last_use_point x.
Proof.
  destruct (AnalyzeAllocationLifetimes_sound ex_body []) as (r & Hr & _ & _ & H); [vm_compute; reflexivity | exact ex_spaced |].
  destruct (H ex_x 22%positive (proj1 ex_tiles_in) eq_refl) as (x & Hx & Hb & Hw). exists r, x. do 3 (split; [assumption |]).
  destruct ex_runs as (t & ρ & Hrun & Et). destruct (ex_window t Et) as [Hwin Hin].
  exact (Hw t Normal ρ ex_between 2 (var_id ex_y) Hrun Hwin Hin).
Defined.

#[local] Existing Instance DefaultMemoryAllocatorPolicy.
#[local] Existing Instance DsaSolve.Examples.same_order.

Definition no_constraints : AllocationConstraintAnalysis := MkConstraints ∅ ∅ ∅ ∅ ∅ ∅ ∅ ∅ ∅ false.
Definition ex_plan : AllocationPlan :=
  match BuildDsaAllocationPlan (analysis ex_lifetimes) no_constraints with Ok p => p | Err _ => MkPlan [] [] end.
Definition ex_interval (v base : positive) (def last : Z) : LifetimeInterval :=
  MkLifetime v (Some (MkMemRefData EmptyString (MkBase base EmptyString) (ConstInt 0 INT64) 64 false 1 None)) def last Vec 64.

Example ex_plan_is :
  ex_plan = MkPlan [ex_interval 1 21 0 9; ex_interval 2 22 1 8; ex_interval 4 23 2 5; ex_interval 5 24 3 7; ex_interval 6 25 5 7] [].
Proof. vm_compute. reflexivity. Qed.

(** A plan in memories of one capacity. *)
Lemma simple_wf l seps capacity :
  0 <= capacity <= UINT64_MAX -> Forall placeable_interval l -> NoDup (map base_of_interval l) -> Z.of_nat (length l) <= 2 ^ 32 ->
  Forall (separation_ok l) seps -> Z.of_nat (length seps) <= UINT64_MAX ->
  plan_wf ∅ (MkPlan l seps) (pool_caps (Some (fun _ => capacity)) l) [].
Proof.
  intros Hc Hl Hnd Hlen Hseps Hnum.
  assert (Hcap : forall id c, pool_caps (Some (fun _ => capacity)) l !! id = Some c -> c = capacity).
  { unfold pool_caps. clear. cut (forall m : gmap Z Z, (forall id c, m !! id = Some c -> c = capacity) -> forall id c,
      foldl (fun (caps : gmap Z Z) i => match caps !! space_id (memory_space i) with
        | Some _ => caps
        | None => if capacity >? 0 then <[ space_id (memory_space i) := capacity ]> caps else caps
        end) m l !! id = Some c -> c = capacity).
    { intros H. apply H. intros id c. by rewrite lookup_empty. }
    induction l as [|i l IH]; intros m Hm id c; cbn [foldl]; [by apply Hm |]. apply IH. intros id' c'.
    destruct (m !! space_id (memory_space i)); [by apply Hm |]. destruct (capacity >? 0); [|by apply Hm].
    intros [[_ <-]|[_ H]]%lookup_insert_Some; [done | by eapply Hm]. }
  split; cbn [intervals plan_separations]; try done; try by constructor.
  - split.
    + intros i x Hi _. rewrite Forall_forall in Hl. by eapply Hl, list_elem_of_lookup_2.
    + intros i j x y Hi Hj _ _ E. eapply (NoDup_lookup (base_of_interval <$> l)); [done | |]; rewrite list_lookup_fmap; [by rewrite Hi |].
      rewrite Hj. cbn. by rewrite E.
    + done.
    + intros x _ _. unfold end_of. rewrite lookup_empty. cbn. lia64.
  - intros r x y ?%elem_of_nil. done.
  - split; [intros id c ->%Hcap; lia64 |]. intros x c _ _ _ Hpos. unfold end_of. rewrite lookup_empty. cbn. lia.
Qed.

Lemma ex_wf : plan_wf ∅ ex_plan (pool_caps (Some (fun _ => 512)) (intervals ex_plan)) [].
Proof.
  rewrite ex_plan_is. cbn [intervals]. apply simple_wf; [lia64 | | | by vm_compute | constructor | by vm_compute].
  - repeat (apply Forall_cons_2; [split; [unfold interval_ok; cbn; lia | by eexists | done | by vm_compute | by vm_compute] |]). constructor.
  - vm_compute. apply (bool_decide_unpack _). vm_compute. exact I.
Qed.

Definition ex_memrefs : list (MemRef * MemorySpace) := map (fun v => (default (MkMemRef 1 (MkMemRefData EmptyString (MkBase 1 EmptyString) (ConstInt 0 INT64) 64 false 1 None)) (tile_memref v), Vec)) (body_tiles ex_body []).
Definition ex_relative : RelativeMemRefOffsets := list_to_map (map (fun ms => (memref_id ms.1, ConstInt 0 INT64)) ex_memrefs).
Definition ex_placed : list (positive * MemRefData) * nat :=
  match PlanWithDsaRP ex_plan [] ∅ (Some (fun _ => 512)) ex_memrefs ex_relative with Ok r => r | Err _ => ([], 0%nat) end.

Lemma values_survive_witness :
  exists at_ : positive -> Z, disjoint_ranges (at_ 22%positive) 64 (at_ 23%positive) 64.
Proof.
  destruct (values_survive ex_body [] ex_lifetimes no_constraints ex_plan [] ∅ (Some (fun _ => 512)) ex_memrefs ex_relative
    ex_placed.1 ex_placed.2) as (at_ & _ & H).
  - vm_compute. reflexivity.
  - exact ex_spaced.
  - vm_compute. reflexivity.
  - vm_compute. reflexivity.
  - exact ex_wf.
  - rewrite ex_plan_is. exists (ex_interval 1 21 0 9). split; [left | reflexivity].
  - vm_compute. reflexivity.
  - exists at_. destruct ex_runs as (t & ρ & Hrun & Et). destruct (ex_window t Et) as [Hwin Hin].
    apply (H ex_x ex_y 22%positive 23%positive (ex_interval 2 22 1 8) (ex_interval 4 23 2 5) t Normal ρ ex_between 2
      (proj1 ex_tiles_in) (proj2 ex_tiles_in)); try reflexivity; try discriminate; try assumption.
    + rewrite ex_plan_is. right. left.
    + rewrite ex_plan_is. right. right. left.
Defined.

(** ** Loops in a row *)

(** A second loop carries the result of the first one on; a temporary tile is used
    before the final result is stored. *)
Definition chain_add (carried v : IRVar) (from : IRVar) : Stmt :=
  SeqStmts [AssignStmt v (ex_call "tile.adds" [IterArg carried (VarExpr from)]); YieldStmt [VarExpr v]].
Definition chain_first : Stmt :=
  ForStmt (ex_index 30) [] [(ex_tile 2 21, VarExpr ex_acc)] (chain_add (ex_tile 2 21) (ex_tile 3 21) ex_acc) [ex_tile 4 21] false.
Definition chain_second : Stmt :=
  ForStmt (ex_index 31) [] [(ex_tile 5 21, VarExpr (ex_tile 4 21))] (chain_add (ex_tile 5 21) (ex_tile 6 21) (ex_tile 4 21)) [ex_tile 7 21] false.
Definition chain_body : Stmt :=
  SeqStmts [AssignStmt ex_acc (ex_call "tile.create" []); chain_first; chain_second;
    AssignStmt (ex_tile 8 22) (ex_call "tile.load" []); EvalStmt (ex_call "tile.store" [VarExpr (ex_tile 8 22)]);
    EvalStmt (ex_call "tile.store" [VarExpr (ex_tile 7 21)])].

Definition chain_trace : list event :=
  [Wr 0 1; Rd 1 1; Rd 1 1; Wr 1 3; Rd 2 3; Rd 3 1; Rd 3 1; Wr 3 6; Rd 4 6; Wr 5 8; Rd 6 8; Rd 7 1]%positive%Z.

Lemma chain_runs : exists t ρ, runs (entry_env []) 0 chain_body t Normal ρ /\ t = chain_trace.
Proof.
  do 2 eexists. split.
  - apply run_seq. eapply seq_step; [run_step |]. eapply seq_step; [|eapply seq_step].
    + eapply run_loop; [reflexivity | run_scope | run_scope |]. eapply loop_next; [run_scope | repeat run_step | by left |].
      eapply loop_done. run_scope.
    + eapply run_loop; [reflexivity | run_scope | run_scope |]. eapply loop_next; [run_scope | repeat run_step | by left |].
      eapply loop_done. run_scope.
    + repeat run_step.
  - vm_compute. reflexivity.
Qed.

Definition chain_memrefs : list (MemRef * MemorySpace) :=
  omap (fun v => (fun m => (m, Vec)) <$> tile_memref v) [ex_acc; ex_tile 8 22].
Definition chain_relative : RelativeMemRefOffsets := list_to_map (map (fun ms => (memref_id ms.1, ConstInt 0 INT64)) chain_memrefs).

(** C40: Finding: a loop that carries the result of an earlier loop on is not recorded
    (ResolveCarryInitCarrier gives the earlier result, which has no order), and a read of
    its result does not extend the lifetime of the buffer: here the analysis ends it at the
    last yield, the planner gives its bytes to a later tile, and a run writes that tile into
    them before the result is read. *)
Theorem chained_loops_overwritten :
  every scalar_header chain_body = true /\ every loop_tail chain_body = true /\
  (exists r plan reps, AnalyzeAllocationLifetimes chain_body [] = Ok r /\ BuildDsaAllocationPlan (analysis r) no_constraints = Ok plan /\
     map (fun i => (base_of_interval i, def_point i, last_use_point i)) (intervals plan) = [(Some 21%positive, 0, 4); (Some 22%positive, 5, 6)] /\
     PlanWithDsaRP plan [] ∅ (Some (fun _ => 64)) chain_memrefs chain_relative = Ok (reps, 0%nat) /\
     map (fun p => byte_offset p.2) reps = [ConstInt 0 INT64; ConstInt 0 INT64]) /\
  exists t ρ before between after, runs (entry_env []) 0 chain_body t Normal ρ /\
    t = before ++ Wr 0 (var_id ex_acc) :: between ++ Rd 7 (var_id ex_acc) :: after /\
    Wr 5 (var_id (ex_tile 8 22)) ∈ between /\ forall d, Wr d (var_id ex_acc) ∉ between.
Proof.
  split; [reflexivity |]. split; [reflexivity |]. split.
  - eexists _, _, _. split; [vm_compute; reflexivity |]. split; [vm_compute; reflexivity |]. split; [vm_compute; reflexivity |].
    split; vm_compute; reflexivity.
  - destruct chain_runs as (t & ρ & Hrun & ->). exists chain_trace, ρ, [],
      [Rd 1 1; Rd 1 1; Wr 1 3; Rd 2 3; Rd 3 1; Rd 3 1; Wr 3 6; Rd 4 6; Wr 5 8; Rd 6 8]%positive%Z, [].
    split; [done |]. split; [reflexivity |]. split; [do 8 right; left |].
    intros d Hd. repeat (apply elem_of_cons in Hd as [E|Hd]; [discriminate |]). by apply elem_of_nil in Hd.
Qed.
