(* ===== verification/Constraints.v ===== *)
(** * Allocation constraints

    [src/ir/transforms/memory_reuse/allocation_constraints.cpp]: what is known of the
    allocations of a function before one is placed.  The part of
    [ir/op_registry.h] the collectors ask is an interface; the predicates over it
    are those of [transforms/utils/op_predicates.cpp]. *)

From Stdlib Require Import ZArith Lia Bool List String.
From stdpp Require Import base gmap list option strings sorting.
From S2P Require Import Prelude Dtype ScalarExpr Storage Dsa Memref DsaAdapter Stmt Lifetime.

(** ** The operator registry *)

Inductive ArgEffect := Read | Write | ReadWrite.
Definition ArgEffectWrites (effect : ArgEffect) : bool := match effect with Read => false | _ => true end.

(** The members of an entry that are read here.  Sets of argument indices that are
    walked are lists in ascending order. *)
Record OpRegistryEntry := MkEntry {
  functional_stage : bool;
  output_inherits_input : bool;
  output_reuses_input_arg : option nat;
  is_inplace_safe : bool;
  forbid_output_alias_args : list nat;
  scratch_args : list nat;
  workspace_args : list nat;
  arg_effects : option (list nat * list ArgEffect)
}.

(** What [OpRegistry::GetInstance] has registered. *)
Class OpRegistry := registry : string -> option OpRegistryEntry.

Definition mem (i : nat) (l : list nat) : bool := bool_decide (i ∈ l).

Section Registry.
Context `{OpRegistry}.

Definition LookupOpEntry (op : Op) : option OpRegistryEntry := if is_function op then None else registry (op_name op).

Definition IsWorkspaceArg (entry : OpRegistryEntry) (i : nat) : bool := mem i (workspace_args entry).

Definition MayWriteArg (entry : OpRegistryEntry) (i : nat) : result bool :=
  let* _ := require (functional_stage entry) CheckFailed in
  match arg_effects entry with
  | None => Ok false
  | Some (kwarg_dependent, per_arg) =>
      if mem i kwarg_dependent then Ok true
      else match per_arg !! i with Some effect => Ok (ArgEffectWrites effect) | None => Ok false end
  end.

Definition IsBufferAliasingViewOp (name : string) : bool :=
  match registry name with Some entry => output_inherits_input entry && is_inplace_safe entry | None => false end.

Definition OutputInheritsSourceBuffer (name : string) : bool :=
  match registry name with
  | Some entry => IsBufferAliasingViewOp name || bool_decide (is_Some (output_reuses_input_arg entry))
  | None => false
  end.

End Registry.

Definition CastRequiresDisjointSource (op : Op) (args : list IRExpr) (type : IRType) (is_a2a3 : bool) : bool :=
  if negb (IsOp op "tile.cast") then false
  else match args with
  | [] => false
  | source :: _ =>
      match ExprType source, type with
      | TileType source_dtype _ _, TileType result_dtype _ _ =>
          (GetBit result_dtype >? GetBit source_dtype) || (is_a2a3 && (GetBit result_dtype <? GetBit source_dtype))
      | _, _ => false
      end
  end.

(** The base of a tile's reference. *)
Definition TileMemRefBase (v : IRVar) : option positive := base_key <$> tile_memref v.

(** ** The order of a visit *)

(** The assignments of a body, in the order [IRVisitor] meets them. *)
Fixpoint assignments (s : Stmt) : list (IRVar * IRExpr) :=
  match s with
  | SeqStmts stmts => flat_map assignments stmts
  | AssignStmt v value => [(v, value)]
  | IfStmt _ then_body else_body _ => assignments then_body ++ match else_body with Some e => assignments e | None => [] end
  | ForStmt _ _ _ body _ _ | WhileStmt _ _ body _ | ScopeStmt _ _ body => assignments body
  | _ => []
  end.

(** ** Loads and popped tiles *)

(** A variable named by an operand, and whether it is a carried name. *)
Definition operand (e : IRExpr) : option (bool * IRVar) :=
  match e with VarExpr v => Some (false, v) | IterArg v _ => Some (true, v) | _ => None end.

Definition IsLegalTileViewOp (op : Op) : bool :=
  IsOp op "tile.reshape" || IsOp op "tile.extract" || IsOp op "tile.slice" || IsOp op "tile.fillpad" ||
  IsOp op "tile.fillpad_inplace" || IsOp op "tile.transpose_view" || IsOp op "tile.reinterpret_view" || IsOp op "tensor.slice".

Record HazardInputCollector := MkHazard {
  load_derived_ : gset positive;
  reads_tpop_ : gset positive;
  tpop_vars : gset positive;
  load_derived_bases : gset positive;
  tpop_bases : gset positive
}.
Definition no_hazards : HazardInputCollector := MkHazard ∅ ∅ ∅ ∅ ∅.

(** A base is inserted when there is one. *)
Definition insert_base (base : option positive) (s : gset positive) : gset positive :=
  match base with Some b => {[ b ]} ∪ s | None => s end.

Definition MarkLoadDerived (v : IRVar) (h : HazardInputCollector) : HazardInputCollector :=
  MkHazard ({[ var_id v ]} ∪ load_derived_ h) (reads_tpop_ h) (tpop_vars h)
    (insert_base (TileMemRefBase v) (load_derived_bases h)) (tpop_bases h).
Definition MarkTpop (v : IRVar) (h : HazardInputCollector) : HazardInputCollector :=
  MkHazard (load_derived_ h) (reads_tpop_ h) ({[ var_id v ]} ∪ tpop_vars h) (load_derived_bases h)
    (insert_base (TileMemRefBase v) (tpop_bases h)).
Definition MarkReads (v : IRVar) (h : HazardInputCollector) : HazardInputCollector :=
  MkHazard (load_derived_ h) ({[ var_id v ]} ∪ reads_tpop_ h) (tpop_vars h) (load_derived_bases h) (tpop_bases h).

(** A name in the set, or a carried name whose base holds such a value. *)
Definition IsTainted (marked bases : gset positive) (source : bool * IRVar) : bool :=
  let '(carried, v) := source in
  bool_decide (var_id v ∈ marked) ||
  (carried && match TileMemRefBase v with Some base => bool_decide (base ∈ bases) | None => false end).

Definition IsLoadDerived (h : HazardInputCollector) : bool * IRVar -> bool := IsTainted (load_derived_ h) (load_derived_bases h).
Definition IsTpop (h : HazardInputCollector) : bool * IRVar -> bool := IsTainted (tpop_vars h) (tpop_bases h).

Section Collectors.
Context `{OpRegistry}.

(** [VisitStmt_] of an assignment. *)
Definition hazard_assign (h : HazardInputCollector) (assignment : IRVar * IRExpr) : HazardInputCollector :=
  let '(v, value) := assignment in
  if negb (is_tile v) then h
  else match value with
  | Call op args _ _ _ _ =>
      let input_vars := omap operand args in
      let h :=
        if IsOp op "tile.load" then MarkLoadDerived v h
        else if IsLegalTileViewOp op && existsb (IsLoadDerived h) input_vars then MarkLoadDerived v h else h in
      let h :=
        if IsOp op "tile.tpop_from_aic" then MarkTpop v h
        else if IsBufferAliasingViewOp (op_name op) then
          match args with
          | source :: _ => match operand source with Some s => if IsTpop h s then MarkTpop v h else h | None => h end
          | [] => h
          end
        else h in
      if existsb (IsTpop h) input_vars then MarkReads v h else h
  | _ =>
      match operand value with
      | Some source =>
          let h := if IsLoadDerived h source then MarkLoadDerived v h else h in
          if IsTpop h source then MarkTpop v h else h
      | None => h
      end
  end.

Definition hazard_walk (body : Stmt) (h : HazardInputCollector) : HazardInputCollector :=
  foldl hazard_assign h (assignments body).

(** [Run]: two walks. *)
Definition HazardInputs_Run (body : Stmt) : HazardInputCollector := hazard_walk body (hazard_walk body no_hazards).

(** ** Inputs an output must not alias *)

Record ForbidAliasCollector := MkForbid {
  forbidden : gmap positive (list IRVar);
  tuple_forbidden : gmap positive (list IRVar)
}.

(** The representative of the group of a variable. *)
Definition member_to_rep (sharing : gmap positive (list IRVar)) (v : positive) : option positive :=
  match sharing !! v with Some (first :: _) => Some (var_id first) | _ => None end.

Definition RecordForOutput (sharing : gmap positive (list IRVar)) (output : IRVar) (inputs : list IRVar)
    (f : ForbidAliasCollector) : ForbidAliasCollector :=
  match inputs, GetType output with
  | [], _ => f
  | _, TupleType => MkForbid (forbidden f) (<[ var_id output := inputs ]> (tuple_forbidden f))
  | _, TileType _ _ _ =>
      let key := default (var_id output) (member_to_rep sharing (var_id output)) in
      MkForbid (<[ key := default [] (forbidden f !! key) ++ inputs ]> (forbidden f)) (tuple_forbidden f)
  | _, _ => f
  end.

(** The target, and the windows of the buffer analysis when it runs. *)
Record Target := MkTarget { is_a5 : bool; views : option (IRExpr -> bool) }.

Definition IsA5Prelu (target : Target) (op : Op) : bool := IsOp op "tile.prelu" && is_a5 target.

Definition forbid_arg (args : list IRExpr) (i : nat) : list IRVar :=
  match args !! i ≫= AsVarLike with Some v => [v] | None => [] end.

(** The inputs a call forbids its output to alias. *)
Definition forbidden_inputs (target : Target) (op : Op) (args : list IRExpr) (type : IRType) : result (list IRVar) :=
  match registry (op_name op) with
  | None => Ok []
  | Some entry =>
      let inputs :=
        if negb (is_inplace_safe entry)
        then flat_map (forbid_arg args) (seq 0 (if IsA5Prelu target op then 2 else length args))
        else flat_map (forbid_arg args) (forbid_output_alias_args entry) in
      let inputs := inputs ++ if CastRequiresDisjointSource op args type (negb (is_a5 target)) then forbid_arg args 0 else [] in
      match views target with
      | None => Ok inputs
      | Some is_window =>
          let inputs := inputs ++
            if OutputInheritsSourceBuffer (op_name op) then []
            else flat_map (fun i => match args !! i with Some e => if is_window e : bool then forbid_arg args i else [] | None => [] end)
              (seq 0 (length args)) in
          if IsOp op "tile.assemble" then
            match args with
            | target_ :: source :: _ =>
                Ok (inputs ++ match GetTypeMemRef (ExprType target_), GetTypeMemRef (ExprType source) with
                | Some t, Some s => if (base_key t =? base_key s)%positive then [] else forbid_arg args 1
                | _, _ => []
                end)
            | _ => Err UndefinedBehaviour
            end
          else Ok inputs
      end
  end.

Definition forbid_assign (target : Target) (sharing : gmap positive (list IRVar)) (assignment : IRVar * IRExpr)
    (f : ForbidAliasCollector) : result ForbidAliasCollector :=
  let '(v, value) := assignment in
  match value with
  | TupleGetItemExpr tuple _ _ =>
      match AsVarLike tuple ≫= fun t => tuple_forbidden f !! var_id t with
      | Some pending => Ok (RecordForOutput sharing v pending f)
      | None => Ok f
      end
  | Call op args _ type _ _ =>
      let* inputs := forbidden_inputs target op args type in Ok (RecordForOutput sharing v inputs f)
  | _ => Ok f
  end.

Definition CollectForbidAlias (target : Target) (sharing : gmap positive (list IRVar)) (body : Stmt) : result ForbidAliasCollector :=
  fold_result (forbid_assign target sharing) (assignments body) (MkForbid ∅ ∅).

(** ** Written workspaces *)

Record WrittenWorkspaces := MkWorkspaces {
  workspaces : gset positive;
  workspace_bases : gset positive;
  looping_workspaces : gset positive;
  looping_bases : gset positive
}.
Definition no_workspaces : WrittenWorkspaces := MkWorkspaces ∅ ∅ ∅ ∅.

Definition insert_workspace (looping : bool) (v : IRVar) (w : WrittenWorkspaces) : WrittenWorkspaces :=
  let base := TileMemRefBase v in
  MkWorkspaces ({[ var_id v ]} ∪ workspaces w) (insert_base base (workspace_bases w))
    (if looping then {[ var_id v ]} ∪ looping_workspaces w else looping_workspaces w)
    (if looping then insert_base base (looping_bases w) else looping_bases w).

(** One argument; the second test of a conjunction is made when the first holds. *)
Definition record_arg (loop_depth pipeline_depth : nat) (entry : OpRegistryEntry) (arg : nat * IRExpr) (w : WrittenWorkspaces)
    : result WrittenWorkspaces :=
  let '(index, e) := arg in
  let pipeline_scratch := (0 <? pipeline_depth)%nat && mem index (scratch_args entry) in
  let* explicit_workspace := if IsWorkspaceArg entry index then MayWriteArg entry index else Ok false in
  if negb explicit_workspace && negb pipeline_scratch then Ok w
  else match AsVarLike e with
  | Some v => Ok (insert_workspace (0 <? loop_depth)%nat v w)
  | None => Ok w
  end.

Definition workspace_record (loop_depth pipeline_depth : nat) (call : Op * list IRExpr) (w : WrittenWorkspaces) : result WrittenWorkspaces :=
  let '(op, args) := call in
  match LookupOpEntry op with
  | None => Ok w
  | Some entry => fold_result (record_arg loop_depth pipeline_depth entry) (imap (fun i e => (i, e)) args) w
  end.

End Collectors.

(** The calls and submissions of an expression, as [IRVisitor] meets them. *)
Fixpoint calls (e : IRExpr) : list (Op * list IRExpr) :=
  match e with
  | VarExpr v => var_calls v
  | IterArg v init => var_calls v ++ calls init
  | MemRefExpr | WindowBuffer | ConstIntExpr _ | ConstFloatExpr | ConstBoolExpr _ => []
  | Call op args attrs _ _ _ => (op, args) :: flat_map calls args ++ flat_map calls attrs
  | Submit op args deps core_num predicate attrs _ =>
      (op, args) :: flat_map calls args ++ flat_map calls deps
      ++ match core_num with Some e => calls e | None => [] end
      ++ match predicate with Some e => calls e | None => [] end ++ flat_map calls attrs
  | MakeTuple elements => flat_map calls elements
  | TupleGetItemExpr tuple _ _ => calls tuple
  | BinaryExpr left_ right_ => calls left_ ++ calls right_
  | UnaryExpr operand => calls operand
  end
with var_calls (v : IRVar) : list (Op * list IRExpr) := match v with MkVar _ t => type_calls t end
with type_calls (t : IRType) : list (Op * list IRExpr) := match t with TensorType shape _ => flat_map calls shape | _ => [] end.

(** The calls of a body with the loops and pipelines around each.  The counters are
    raised around the whole loop, header included. *)
Fixpoint body_calls (loop_depth pipeline_depth : nat) (s : Stmt) : list (nat * nat * (Op * list IRExpr)) :=
  let here (l : list (Op * list IRExpr)) := map (fun c => (loop_depth, pipeline_depth, c)) l in
  match s with
  | SeqStmts stmts => flat_map (body_calls loop_depth pipeline_depth) stmts
  | AssignStmt v value => here (var_calls v ++ calls value)
  | EvalStmt e => here (calls e)
  | YieldStmt values | ReturnStmt values => here (flat_map calls values)
  | IfStmt condition then_body else_body return_vars =>
      here (calls condition) ++ body_calls loop_depth pipeline_depth then_body
      ++ match else_body with Some e => body_calls loop_depth pipeline_depth e | None => [] end
      ++ here (flat_map var_calls return_vars)
  | ForStmt loop_var header iter_args body return_vars software_pipeline =>
      let pipeline_depth := if software_pipeline then S pipeline_depth else pipeline_depth in
      let here (l : list (Op * list IRExpr)) := map (fun c => (S loop_depth, pipeline_depth, c)) l in
      here (var_calls loop_var ++ flat_map calls header ++ flat_map (fun '(v, init) => var_calls v ++ calls init) iter_args)
      ++ body_calls (S loop_depth) pipeline_depth body ++ here (flat_map var_calls return_vars)
  | WhileStmt condition iter_args body return_vars =>
      let here (l : list (Op * list IRExpr)) := map (fun c => (S loop_depth, pipeline_depth, c)) l in
      here (calls condition ++ flat_map (fun '(v, init) => var_calls v ++ calls init) iter_args)
      ++ body_calls (S loop_depth) pipeline_depth body ++ here (flat_map var_calls return_vars)
  | ScopeStmt _ attrs body => here (flat_map calls attrs) ++ body_calls loop_depth pipeline_depth body
  | BreakStmt | ContinueStmt | InlineStmt => []
  end.

Definition CollectWorkspaces `{OpRegistry} (body : Stmt) : result WrittenWorkspaces :=
  fold_result (fun '(loop_depth, pipeline_depth, call) => workspace_record loop_depth pipeline_depth call)
    (body_calls 0 0 body) no_workspaces.

(** ** Declared allocations *)

(** The size of one declaration; the first of a base counts. *)
Definition collect_pinned (statement : Stmt) (sizes : gmap positive Z) : result (gmap positive Z) :=
  match GetPinnedAllocBase statement with
  | None => Ok sizes
  | Some base =>
      match statement with
      | AssignStmt _ (Call _ (_ :: ConstIntExpr size :: _) _ _ _ _) =>
          let* _ := require (size >? 0) InternalError in
          Ok (match sizes !! var_id base with None => <[ var_id base := size ]> sizes | Some _ => sizes end)
      | _ => Err InternalError
      end
  end.
Definition CollectPinnedAllocSizes (body : Stmt) : result (gmap positive Z) :=
  fold_result collect_pinned (FlattenToStmts body) ∅.

(** [BoundMember]. *)
Record BoundMember := MkBoundMember { member_var : positive; member_def : Z; member_last : Z }.

(** The slot of an allocation an assignment binds its tile to, on its own. *)
Definition bound_member `{OpRegistry} (pinned_bases : gset positive) (var_liveness : gmap positive (Z * Z))
    (assignment : IRVar * IRExpr) : option (positive * Z * BoundMember) :=
  let '(v, value) := assignment in
  memref ← GetTypeMemRef (GetType v);
  if negb (bool_decide (base_key memref ∈ pinned_bases)) then None
  else if bool_decide (is_Some (AsVarLike value)) then None
  else if match value with Call op _ _ _ _ _ => OutputInheritsSourceBuffer (op_name op) | _ => false end then None
  else '(def_point, last_use) ← var_liveness !! var_id v;
  match byte_offset memref with
  | ConstInt offset _ => Some (base_key memref, offset, MkBoundMember (var_id v) def_point last_use)
  | _ => None
  end.

(** [by_slot]. *)
Definition add_member (m : gmap (positive * Z) (list BoundMember)) (entry : positive * Z * BoundMember)
    : gmap (positive * Z) (list BoundMember) :=
  let '(slot, member) := entry in <[ slot := default [] (m !! slot) ++ [member] ]> m.
Definition by_slot `{OpRegistry} (pinned_bases : gset positive) (var_liveness : gmap positive (Z * Z)) (body : Stmt)
    : gmap (positive * Z) (list BoundMember) :=
  foldl add_member ∅ (omap (bound_member pinned_bases var_liveness) (assignments body)).

(** Each neighbour in the order of definitions. *)
Fixpoint neighbours_ok (members : list BoundMember) : bool :=
  match members with
  | prev :: (cur :: _) as rest => (member_last prev <=? member_def cur) && neighbours_ok rest
  | _ => true
  end.

(** Different assignments have different definition points: the sort has one result. *)
Definition slot_ok (members : list BoundMember) : bool := neighbours_ok (sort_by (fun m => [member_def m]) members).

Definition ValidateDeclaredAllocs `{OpRegistry} (body : Stmt) (pinned_bases : gset positive) (var_liveness : gmap positive (Z * Z)) : result unit :=
  if bool_decide (pinned_bases = ∅) then Ok tt
  else require (forallb (fun sm => slot_ok sm.2) (map_to_list (by_slot pinned_bases var_liveness body))) CheckFailed.

(** ** [AnalyzeAllocationConstraints] *)

Inductive SplitMode := SplitNone | UpDown | LeftRight.

(** What is asked of a function and of the backend. *)
Record FunctionFacts := MkFunction { func_type : FunctionType; split_aiv : bool; split_mode : option SplitMode }.
Record BackendFacts := MkBackend { configured : bool; requires_split_load_tpop_workaround : bool }.

Definition NeedsLoadTpopHazardGuard (func : FunctionFacts) (backend : BackendFacts) : bool :=
  match func_type func with
  | AIV =>
      configured backend && requires_split_load_tpop_workaround backend &&
      (split_aiv func || match split_mode func with None | Some SplitNone => false | Some _ => true end)
  | _ => false
  end.

Definition AnalyzeAllocationConstraints `{OpRegistry} (func : FunctionFacts) (backend : BackendFacts) (target : Target)
    (body : Stmt) (lifetimes : Lifetimes) : result AllocationConstraintAnalysis :=
  let* sizes := CollectPinnedAllocSizes body in
  let bases := dom sizes in
  let* _ := ValidateDeclaredAllocs body bases (var_liveness lifetimes) in
  let guard := NeedsLoadTpopHazardGuard func backend in
  let h := if guard then HazardInputs_Run body else no_hazards in
  let* w := CollectWorkspaces body in
  let* f := CollectForbidAlias target (sharing_groups lifetimes) body in
  Ok (MkConstraints sizes bases (load_derived_ h) (reads_tpop_ h) (workspaces w) (workspace_bases w) (looping_workspaces w)
    (looping_bases w) (map (fun v => memref_data <$> GetTypeMemRef (GetType v)) <$> forbidden f) guard).
