(* ===== verification/Hazards.v ===== *)
(** * Loads, popped tiles and declared slots

    What the collectors of [Constraints] find: the two walks over a body compute the
    least sets closed under the ways a loaded or popped value travels, when every
    step keeps the base; tiles bound to one slot of a declared allocation do not
    overwrite each other. *)

From Stdlib Require Import ZArith Lia Bool List String.
From stdpp Require Import base gmap list option strings sorting.
From S2P Require Import Prelude Dtype ScalarExpr Storage Dsa Memref DsaAdapter Stmt Lifetime Constraints.

(** ** Tainted values *)

(** A way to make a value and the operands it travels from. *)
Record Taint := MkTaint { producer : IRExpr -> bool; sources : IRExpr -> list (bool * IRVar) }.

Section Taint.
Context (T : Taint) (l : list (IRVar * IRExpr)).

(** The tiles that hold such a value: made by an assignment, or assigned from a
    name that holds one, or from a carried name whose base does. *)
Inductive holds : IRVar -> Prop :=
  | holds_made v e : (v, e) ∈ l -> is_tile v = true -> producer T e = true -> holds v
  | holds_name v e c x w : (v, e) ∈ l -> is_tile v = true -> (c, x) ∈ sources T e -> holds w -> var_id w = var_id x -> holds v
  | holds_base v e x w b : (v, e) ∈ l -> is_tile v = true -> (true, x) ∈ sources T e -> holds w ->
      TileMemRefBase w = Some b -> TileMemRefBase x = Some b -> holds v.

(** An operand holds one. *)
Definition operand_holds (s : bool * IRVar) : Prop :=
  (exists w, holds w /\ var_id w = var_id s.2) \/
  (s.1 = true /\ exists w b, holds w /\ TileMemRefBase w = Some b /\ TileMemRefBase s.2 = Some b).

Lemma holds_from v e s : (v, e) ∈ l -> is_tile v = true -> s ∈ sources T e -> operand_holds s -> holds v.
Proof.
  intros Hin Ht Hs [(w & Hw & Ew)|(Hc & w & b & Hw & Hb & Hx)]; destruct s as [c x]; cbn in *.
  - by eapply holds_name. - subst c. by eapply holds_base.
Qed.

(** The sets of a walk. *)
Abbreviation marks := (gset positive * gset positive)%type.
Definition mark (v : IRVar) (m : marks) : marks := ({[ var_id v ]} ∪ m.1, insert_base (TileMemRefBase v) m.2).
Definition taint_step (m : marks) (a : IRVar * IRExpr) : marks :=
  if is_tile a.1 && (producer T a.2 || existsb (IsTainted m.1 m.2) (sources T a.2)) then mark a.1 m else m.

Lemma insert_base_in b base s : b ∈ insert_base base s <-> base = Some b \/ b ∈ s.
Proof. destruct base as [b'|]; cbn; [|naive_solver]. rewrite elem_of_union, elem_of_singleton. naive_solver. Qed.

Definition marks_sub (m m' : marks) : Prop := m.1 ⊆ m'.1 /\ m.2 ⊆ m'.2.

Lemma taint_step_sub m a : marks_sub m (taint_step m a).
Proof. unfold taint_step, marks_sub. destruct (_ && _); cbn; [|done]. split; [set_solver |]. intros b Hb. apply insert_base_in. by right. Qed.
Lemma taint_fold_sub k : forall m, marks_sub m (foldl taint_step m k).
Proof.
  induction k as [|a k IH]; intros m; cbn [foldl]; [done |]. destruct (taint_step_sub m a), (IH (taint_step m a)). split; by etrans.
Qed.

(** Only what holds is marked. *)
Definition sound (m : marks) : Prop :=
  (forall x, x ∈ m.1 -> exists v, holds v /\ var_id v = x) /\
  (forall b, b ∈ m.2 -> exists v, holds v /\ TileMemRefBase v = Some b).

Lemma IsTainted_spec (m : marks) s :
  IsTainted m.1 m.2 s = true <->
  var_id s.2 ∈ m.1 \/ s.1 = true /\ exists b, TileMemRefBase s.2 = Some b /\ b ∈ m.2.
Proof.
  destruct s as [c x]. cbn. rewrite orb_true_iff, andb_true_iff, bool_decide_eq_true. apply or_iff_compat_l, and_iff_compat_l.
  destruct (TileMemRefBase x) as [b|]; [|split; [done | by intros (? & ? & _)]]. rewrite bool_decide_eq_true. naive_solver.
Qed.

Lemma sound_tainted m s : sound m -> IsTainted m.1 m.2 s = true -> operand_holds s.
Proof.
  intros [H1 H2] [(v & Hv & Ev)%H1|(Hc & b & Hb & (v & Hv & Ev)%H2)]%IsTainted_spec; [left | right; split; [done |]]; eauto.
Qed.

Lemma taint_step_sound m a : a ∈ l -> sound m -> sound (taint_step m a).
Proof.
  intros Ha Hm. unfold taint_step. destruct (is_tile a.1) eqn:Et; [|done]. cbn [andb].
  destruct (producer T a.2 || existsb (IsTainted m.1 m.2) (sources T a.2)) eqn:E; [|done].
  assert (Hh : holds a.1).
  { destruct a as [v e]. cbn in *. apply orb_true_iff in E as [E|(s & Hs & E)%existsb_exists]; [by eapply holds_made |].
    eapply holds_from; [done | done | by apply list_elem_of_In | by eapply sound_tainted]. }
  destruct Hm as [H1 H2]. split; cbn [mark fst snd].
  - intros x [->%elem_of_singleton|Hx]%elem_of_union; [by exists a.1 | by apply H1].
  - intros b [Hb|Hb]%insert_base_in; [by exists a.1 | by apply H2].
Qed.

Lemma taint_fold_sound k : forall m, (forall a, a ∈ k -> a ∈ l) -> sound m -> sound (foldl taint_step m k).
Proof.
  induction k as [|a k IH]; intros m Hk Hm; cbn [foldl]; [done |]. apply IH; [intros b Hb; apply Hk; by right |].
  apply taint_step_sound; [apply Hk; by left | done].
Qed.

(** ** Two walks *)

(** Definitions come before uses. *)
Hypothesis in_order : forall a v e b s w e', l = a ++ (v, e) :: b -> s ∈ sources T e -> (w, e') ∈ (v, e) :: b -> var_id w <> var_id s.2.
(** A name has one type. *)
Hypothesis same_base : forall v e s w, (v, e) ∈ l -> s ∈ sources T e -> holds w -> var_id w = var_id s.2 -> TileMemRefBase w = TileMemRefBase s.2.
(** A value that travels stays where it is. *)
Hypothesis keeps_base : forall v e s, (v, e) ∈ l -> is_tile v = true -> s ∈ sources T e ->
  TileMemRefBase v = None \/ TileMemRefBase v = TileMemRefBase s.2.

Lemma made_marked v e k : forall m, (v, e) ∈ k -> is_tile v = true -> producer T e = true ->
  var_id v ∈ (foldl taint_step m k).1 /\ forall b, TileMemRefBase v = Some b -> b ∈ (foldl taint_step m k).2.
Proof.
  intros m (k1 & k2 & ->)%list_elem_of_split Ht Hp. rewrite foldl_app. cbn [foldl].
  set (m1 := foldl taint_step m k1). destruct (taint_fold_sub k2 (taint_step m1 (v, e))) as [H1 H2].
  assert (E : taint_step m1 (v, e) = mark v m1) by (unfold taint_step; cbn; by rewrite Ht, Hp). rewrite E in *.
  split; [apply H1; cbn; set_solver |]. intros b Hb. apply H2. cbn. apply insert_base_in. by left.
Qed.

(** After one walk every base is there. *)
Lemma bases_complete m v b : holds v -> TileMemRefBase v = Some b -> b ∈ (foldl taint_step m l).2.
Proof.
  intros H. revert b. induction H as [v e Hin Ht Hp|v e c x w Hin Ht Hs Hw IH Ew|v e x w b0 Hin Ht Hs Hw IH Hb0 Hx]; intros b Hb.
  - by eapply (made_marked v e l m).
  - apply IH. rewrite (same_base v e (c, x) w) by done. destruct (keeps_base v e (c, x) Hin Ht Hs) as [E|E]; congruence.
  - destruct (keeps_base v e (true, x) Hin Ht Hs) as [E|E]; [congruence |]. cbn in E. assert (b0 = b) as -> by congruence. by apply IH.
Qed.

(** From there a tile is marked once its assignments are past. *)
Lemma passed_marked m v : (forall w b, holds w -> TileMemRefBase w = Some b -> b ∈ m.2) -> holds v ->
  forall l1 l2, l = l1 ++ l2 -> (forall w e, (w, e) ∈ l2 -> var_id w <> var_id v) -> var_id v ∈ (foldl taint_step m l1).1.
Proof.
  intros Hm H. induction H as [v e Hin Ht Hp|v e c x w Hin Ht Hs Hw IH Ew|v e x w b0 Hin Ht Hs Hw IH Hb0 Hx]; intros l1 l2 El Hl2.
  all: assert (Hin1 : (v, e) ∈ l1) by (rewrite El in Hin; apply elem_of_app in Hin as [?|Hin]; [done | by destruct (Hl2 _ _ Hin)]).
  - by eapply made_marked.
  - apply list_elem_of_split in Hin1 as (a & b & ->). rewrite <- app_assoc in El. cbn [app] in El.
    rewrite foldl_app. cbn [foldl]. destruct (taint_fold_sub b (taint_step (foldl taint_step m a) (v, e))) as [Hsub _]. apply Hsub.
    assert (Hwa : var_id w ∈ (foldl taint_step m a).1).
    { eapply IH; [exact El |]. intros w' e' Hw'. rewrite Ew. by eapply (in_order a v e (b ++ l2) (c, x)). }
    unfold taint_step at 1. cbn [fst snd]. rewrite Ht. cbn [andb].
    assert (E : existsb (IsTainted (foldl taint_step m a).1 (foldl taint_step m a).2) (sources T e) = true).
    { apply existsb_exists. exists (c, x). split; [by apply list_elem_of_In |]. apply IsTainted_spec. left. cbn. by rewrite <- Ew. }
    rewrite E, orb_true_r. cbn. set_solver.
  - apply list_elem_of_split in Hin1 as (a & b & ->). rewrite foldl_app. cbn [foldl].
    destruct (taint_fold_sub b (taint_step (foldl taint_step m a) (v, e))) as [Hsub _]. apply Hsub.
    unfold taint_step at 1. cbn [fst snd]. rewrite Ht. cbn [andb].
    assert (E : existsb (IsTainted (foldl taint_step m a).1 (foldl taint_step m a).2) (sources T e) = true).
    { apply existsb_exists. exists (true, x). split; [by apply list_elem_of_In |]. apply IsTainted_spec. right. split; [done |].
      exists b0. split; [done |]. destruct (taint_fold_sub a m) as [_ Hsub2]. apply Hsub2. by eapply Hm. }
    rewrite E, orb_true_r. cbn. set_solver.
Qed.

(** An operand is recognised where it is read. *)
Lemma operand_recognised m a v e b s : (forall w c, holds w -> TileMemRefBase w = Some c -> c ∈ m.2) ->
  l = a ++ (v, e) :: b -> (forall w e', (w, e') ∈ (v, e) :: b -> var_id w <> var_id s.2) -> operand_holds s ->
  IsTainted (foldl taint_step m a).1 (foldl taint_step m a).2 s = true.
Proof.
  intros Hm El Hno [(w & Hw & Ew)|(Hc & w & c & Hw & Hwc & Hsc)]; apply IsTainted_spec; [left | right; split; [done |]].
  - rewrite <- Ew. eapply passed_marked; [done | done | exact El |]. intros w' e' Hw'. rewrite Ew. by eapply Hno.
  - exists c. split; [done |]. destruct (taint_fold_sub a m) as [_ Hsub]. apply Hsub. by eapply Hm.
Qed.

(** Two walks, or more, mark exactly what holds. *)
Definition exact (m : marks) : Prop :=
  (forall x, x ∈ m.1 <-> exists v, holds v /\ var_id v = x) /\ (forall b, b ∈ m.2 <-> exists v, holds v /\ TileMemRefBase v = Some b).

Lemma walk_exact m : sound m -> (forall w b, holds w -> TileMemRefBase w = Some b -> b ∈ m.2) -> exact (foldl taint_step m l).
Proof.
  intros Hm Hb. destruct (taint_fold_sound l m (fun _ H => H) Hm) as [H1 H2]. split; intros x; (split; [auto |]).
  - intros (v & Hv & <-). eapply (passed_marked m v Hb Hv l []); [by rewrite app_nil_r | by intros ? ? ?%elem_of_nil].
  - intros (v & Hv & Hx). by eapply bases_complete.
Qed.

Lemma exact_sound m : exact m -> sound m.
Proof. intros [H1 H2]. split; [intros x; apply H1 | intros b; apply H2]. Qed.

Lemma exact_bases m : exact m -> forall w b, holds w -> TileMemRefBase w = Some b -> b ∈ m.2.
Proof. intros [_ H2] w b Hw Hb. apply H2. eauto. Qed.

Lemma empty_sound : sound (∅, ∅).
Proof. split; by intros x ?%elem_of_empty. Qed.

Lemma two_walks_exact : exact (foldl taint_step (foldl taint_step (∅, ∅) l) l).
Proof. apply walk_exact; [apply taint_fold_sound; [done | apply empty_sound] | apply bases_complete]. Qed.

Lemma exact_unique m m' : exact m -> exact m' -> m = m'.
Proof.
  intros [H1 H2] [H3 H4]. destruct m as [a b], m' as [c d]. cbn in *. f_equal; apply set_eq; intros x; [by rewrite H1, H3 | by rewrite H2, H4].
Qed.

Lemma exact_stable m : exact m -> foldl taint_step m l = m.
Proof. intros H. apply exact_unique; [|done]. apply walk_exact; [by apply exact_sound | by apply exact_bases]. Qed.

End Taint.

(** ** The collector *)

Section Collector.
Context `{OpRegistry}.

Definition renamed (e : IRExpr) : list (bool * IRVar) := match operand e with Some s => [s] | None => [] end.
(** The operands of a value. *)
Definition operands (e : IRExpr) : list (bool * IRVar) :=
  match e with Call _ args _ _ _ _ => omap operand args | _ => renamed e end.

(** Loaded values travel through the listed view operators and renaming. *)
Definition load_taint : Taint :=
  MkTaint (fun e => match e with Call op _ _ _ _ _ => IsOp op "tile.load" | _ => false end)
    (fun e => match e with Call op args _ _ _ _ => if IsLegalTileViewOp op then omap operand args else [] | _ => renamed e end).

(** Popped values travel through operators that alias their first argument. *)
Definition tpop_taint : Taint :=
  MkTaint (fun e => match e with Call op _ _ _ _ _ => IsOp op "tile.tpop_from_aic" | _ => false end)
    (fun e => match e with
      | Call op (source :: _) _ _ _ _ => if IsBufferAliasingViewOp (op_name op) then renamed source else []
      | Call _ [] _ _ _ _ => []
      | _ => renamed e
      end).

Definition load_marks (h : HazardInputCollector) : gset positive * gset positive := (load_derived_ h, load_derived_bases h).
Definition tpop_marks (h : HazardInputCollector) : gset positive * gset positive := (tpop_vars h, tpop_bases h).

(** The sets the walk carries on. *)
Definition is_call (e : IRExpr) : bool := match e with Call _ _ _ _ _ _ => true | _ => false end.
Definition popped_inputs (h : HazardInputCollector) (a : IRVar * IRExpr) : bool :=
  is_tile a.1 && is_call a.2 && existsb (IsTpop h) (operands a.2).

Lemma existsb_renamed f e : existsb f (renamed e) = match operand e with Some s => f s | None => false end.
Proof. unfold renamed. destruct (operand e); cbn; [apply orb_false_r | done]. Qed.

Lemma read_marks_inputs v h k b : existsb (IsTpop (if b : bool then MarkReads v h else h)) k = existsb (IsTpop h) k.
Proof. by destruct b. Qed.

Lemma loaded_tpop v h s b : IsTpop (if b : bool then MarkLoadDerived v h else h) s = IsTpop h s.
Proof. by destruct b. Qed.

Lemma hazard_assign_spec h a :
  load_marks (hazard_assign h a) = taint_step load_taint (load_marks h) a /\
  tpop_marks (hazard_assign h a) = taint_step tpop_taint (tpop_marks h) a /\
  reads_tpop_ (hazard_assign h a) = (if popped_inputs (hazard_assign h a) a then {[ var_id a.1 ]} ∪ reads_tpop_ h else reads_tpop_ h).
Proof.
  destruct a as [v e]. unfold hazard_assign, taint_step, popped_inputs. cbn [fst snd]. destruct (is_tile v); cbn [negb andb]; [|done].
  destruct e as [x|x init| | | | | |op args attrs ty pm pin| | | | |]; cbn [is_call].
  8:{ cbn [producer sources load_taint tpop_taint operands].
      set (h1 := if IsOp op "tile.load" then MarkLoadDerived v h
        else if IsLegalTileViewOp op && existsb (IsLoadDerived h) (omap operand args) then MarkLoadDerived v h else h).
      assert (H1 : load_marks h1 = (if IsOp op "tile.load" || existsb (IsTainted (load_derived_ h) (load_derived_bases h))
          (if IsLegalTileViewOp op then omap operand args else []) then mark v (load_marks h) else load_marks h) /\
        tpop_marks h1 = tpop_marks h /\ reads_tpop_ h1 = reads_tpop_ h).
      { unfold h1. destruct (IsOp op "tile.load"); cbn [orb]; [done |]. unfold IsLoadDerived.
        destruct (IsLegalTileViewOp op); cbn [andb existsb]; [|done]. by destruct (existsb _ _). }
      destruct H1 as (H1 & H2 & H3).
      set (h2 := if IsOp op "tile.tpop_from_aic" then MarkTpop v h1 else _).
      assert (H4 : tpop_marks h2 = (if IsOp op "tile.tpop_from_aic" || existsb (IsTainted (tpop_vars h) (tpop_bases h))
          (match args with source :: _ => if IsBufferAliasingViewOp (op_name op) then renamed source else [] | [] => [] end)
          then mark v (tpop_marks h) else tpop_marks h) /\ load_marks h2 = load_marks h1 /\ reads_tpop_ h2 = reads_tpop_ h1).
      { injection H2 as Ev Eb. unfold h2, tpop_marks, mark. cbn [fst snd]. rewrite <- Ev, <- Eb.
        destruct (IsOp op "tile.tpop_from_aic"); cbn [orb]; [done |].
        destruct (IsBufferAliasingViewOp (op_name op)); [|by destruct args].
        destruct args as [|source args]; [done |]. rewrite existsb_renamed. unfold IsTpop.
        destruct (operand source) as [s|]; [|done]. by destruct (IsTainted _ _ _). }
      destruct H4 as (H4 & H5 & H6).
      clearbody h1 h2. rewrite read_marks_inputs. destruct (existsb (IsTpop h2) (omap operand args)); cbn [reads_tpop_ MarkReads].
      all: rewrite <- ?H6, <- ?H3; split_and!; [|  | by rewrite ?H6, ?H3].
      all: unfold load_marks, tpop_marks in *; cbn [load_derived_ load_derived_bases tpop_vars tpop_bases MarkReads] in *.
      all: first [by rewrite H5, H1 | rewrite H4; by destruct args]. }
  all: cbn [producer sources load_taint tpop_taint orb]; rewrite !existsb_renamed; cbn [operand]; try done.
  all: change (IsTainted (load_marks h).1 (load_marks h).2) with (IsLoadDerived h).
  all: change (IsTainted (tpop_marks h).1 (tpop_marks h).2) with (IsTpop h).
  all: rewrite loaded_tpop; destruct (IsLoadDerived h _), (IsTpop h _); done.
Qed.

Lemma hazard_walk_marks body h :
  load_marks (hazard_walk body h) = foldl (taint_step load_taint) (load_marks h) (assignments body) /\
  tpop_marks (hazard_walk body h) = foldl (taint_step tpop_taint) (tpop_marks h) (assignments body).
Proof.
  unfold hazard_walk. revert h. induction (assignments body) as [|a k IH]; intros h; cbn [foldl]; [done |].
  destruct (hazard_assign_spec h a) as (<- & <- & _). apply IH.
Qed.

(** ** What the walks need of a body *)

(** A name is assigned before it is read. *)
Fixpoint assigned_before_read (k : list (IRVar * IRExpr)) : bool :=
  match k with
  | [] => true
  | (_, e) :: rest => forallb (fun s => forallb (fun a => negb (var_id a.1 =? var_id s.2)%positive) k) (operands e) && assigned_before_read rest
  end.

(** A name read has the reference it was assigned with. *)
Definition same_references (k : list (IRVar * IRExpr)) : bool :=
  forallb (fun a => forallb (fun s => forallb (fun b =>
    negb (var_id b.1 =? var_id s.2)%positive || bool_decide (TileMemRefBase b.1 = TileMemRefBase s.2)) k) (operands a.2)) k.

(** A value that travels stays in its buffer. *)
Definition stays (T : Taint) (a : IRVar * IRExpr) : bool :=
  negb (is_tile a.1) || forallb (fun s => bool_decide (TileMemRefBase a.1 = None) || bool_decide (TileMemRefBase a.1 = TileMemRefBase s.2)) (sources T a.2).

Definition two_walks_suffice (body : Stmt) : bool :=
  let k := assignments body in
  assigned_before_read k && same_references k && forallb (stays load_taint) k && forallb (stays tpop_taint) k.

Lemma load_sources_sub e s : s ∈ sources load_taint e -> s ∈ operands e.
Proof. destruct e; try done. cbn. destruct (IsLegalTileViewOp op); [done | by intros ?%elem_of_nil]. Qed.
Lemma tpop_sources_sub e s : s ∈ sources tpop_taint e -> s ∈ operands e.
Proof.
  destruct e as [| | | | | | |op [|source args]| | | | |]; try done; cbn.
  destruct (IsBufferAliasingViewOp (op_name op)); [|by intros ?%elem_of_nil].
  unfold renamed. destruct (operand source); [|by intros ?%elem_of_nil]. intros ->%list_elem_of_singleton. by left.
Qed.

Lemma assigned_before_read_spec k : assigned_before_read k = true ->
  forall a v e b s w e', k = a ++ (v, e) :: b -> s ∈ operands e -> (w, e') ∈ (v, e) :: b -> var_id w <> var_id s.2.
Proof.
  intros Hk a. revert k Hk. induction a as [|[v0 e0] a IH]; intros k Hk v e b s w e' -> Hs Hw; cbn [app assigned_before_read] in Hk.
  all: apply andb_true_iff in Hk as [H1 H2].
  - rewrite forallb_forall in H1. specialize (H1 s (proj1 (list_elem_of_In _ _) Hs)). rewrite forallb_forall in H1.
    specialize (H1 _ (proj1 (list_elem_of_In _ _) Hw)). cbn in H1. by apply negb_true_iff, Pos.eqb_neq in H1.
  - by eapply IH.
Qed.

Section Suffice.
Context (body : Stmt) (T : Taint) (Hsub : forall e s, s ∈ sources T e -> s ∈ operands e) (Hstay : forallb (stays T) (assignments body) = true).
Context (Hbody : two_walks_suffice body = true).
Abbreviation k := (assignments body).

Lemma suffice_parts : assigned_before_read k = true /\ same_references k = true.
Proof. unfold two_walks_suffice in Hbody. rewrite !andb_true_iff in Hbody. by destruct Hbody as [[[? ?] _] _]. Qed.

Lemma holds_assigned v : holds T k v -> exists e, (v, e) ∈ k.
Proof. intros []; eauto. Qed.

Lemma suffice_in_order a v e b s w e' : k = a ++ (v, e) :: b -> s ∈ sources T e -> (w, e') ∈ (v, e) :: b -> var_id w <> var_id s.2.
Proof.
  intros El Hs. eapply assigned_before_read_spec; [|exact El | by apply Hsub].
  apply suffice_parts.
Qed.

Lemma suffice_same_base v e s w : (v, e) ∈ k -> s ∈ sources T e -> holds T k w -> var_id w = var_id s.2 -> TileMemRefBase w = TileMemRefBase s.2.
Proof.
  intros Hin Hs (e' & Hw)%holds_assigned Ew. destruct suffice_parts as [_ H1]. unfold same_references in H1. rewrite forallb_forall in H1. specialize (H1 _ (proj1 (list_elem_of_In _ _) Hin)).
  rewrite forallb_forall in H1. specialize (H1 _ (proj1 (list_elem_of_In _ _) (Hsub _ _ Hs))).
  rewrite forallb_forall in H1. specialize (H1 _ (proj1 (list_elem_of_In _ _) Hw)). cbn [fst] in H1.
  rewrite Ew, Pos.eqb_refl in H1. by apply bool_decide_eq_true in H1.
Qed.

Lemma suffice_keeps_base v e s : (v, e) ∈ k -> is_tile v = true -> s ∈ sources T e ->
  TileMemRefBase v = None \/ TileMemRefBase v = TileMemRefBase s.2.
Proof.
  intros Hin Ht Hs. rewrite forallb_forall in Hstay. specialize (Hstay _ (proj1 (list_elem_of_In _ _) Hin)). unfold stays in Hstay. cbn [fst snd] in Hstay.
  rewrite Ht in Hstay. cbn [negb orb] in Hstay. rewrite forallb_forall in Hstay. specialize (Hstay _ (proj1 (list_elem_of_In _ _) Hs)).
  apply orb_true_iff in Hstay as [E|E]; apply bool_decide_eq_true in E; auto.
Qed.

Lemma suffice_exact : exact T k (foldl (taint_step T) (foldl (taint_step T) (∅, ∅) k) k).
Proof. apply two_walks_exact; [apply suffice_in_order | apply suffice_same_base | apply suffice_keeps_base]. Qed.

Lemma suffice_stable m : exact T k m -> foldl (taint_step T) m k = m.
Proof. apply exact_stable; [apply suffice_in_order | apply suffice_same_base | apply suffice_keeps_base]. Qed.

Lemma suffice_bases m v b : holds T k v -> TileMemRefBase v = Some b -> b ∈ (foldl (taint_step T) m k).2.
Proof. apply bases_complete; [apply suffice_in_order | apply suffice_same_base | apply suffice_keeps_base]. Qed.

Lemma suffice_recognised m a v e b s : (forall w c, holds T k w -> TileMemRefBase w = Some c -> c ∈ m.2) -> k = a ++ (v, e) :: b -> s ∈ operands e -> operand_holds T k s ->
  IsTainted (foldl (taint_step T) m a).1 (foldl (taint_step T) m a).2 s = true.
Proof.
  intros Hm El Hs. eapply operand_recognised; [apply suffice_in_order | apply suffice_same_base | apply suffice_keeps_base | done | done |].
  intros w e' Hw. eapply assigned_before_read_spec; [|exact El | done | done].
  apply suffice_parts.
Qed.
End Suffice.
End Collector.

(** ** What [Run] finds *)

Section Run.
Context `{OpRegistry} (body : Stmt).
Abbreviation k := (assignments body).

(** A call that defines a tile and reads a popped value. *)
Definition reads_popped (x : positive) : Prop :=
  exists v e s, (v, e) ∈ k /\ is_tile v = true /\ is_call e = true /\ s ∈ operands e /\ operand_holds tpop_taint k s /\ var_id v = x.
Definition reads_sound (h : HazardInputCollector) : Prop := sound tpop_taint k (tpop_marks h) /\ forall x, x ∈ reads_tpop_ h -> reads_popped x.

Lemma hazard_assign_reads h a : a ∈ k -> reads_sound h -> reads_sound (hazard_assign h a).
Proof.
  intros Ha [Hm Hr]. destruct (hazard_assign_spec h a) as (_ & Et & Er).
  assert (Hm' : sound tpop_taint k (tpop_marks (hazard_assign h a))) by (rewrite Et; by apply taint_step_sound).
  split; [done |]. intros x. rewrite Er. destruct (popped_inputs (hazard_assign h a) a) eqn:E; [|apply Hr].
  intros [->%elem_of_singleton|Hx]%elem_of_union; [|by apply Hr].
  destruct a as [v e]. unfold popped_inputs in E. cbn [fst snd] in *. rewrite !andb_true_iff in E. destruct E as [[E1 E2] E3].
  apply existsb_exists in E3 as (s & Hs & E3). apply list_elem_of_In in Hs. exists v, e, s. split_and!; try done. by eapply sound_tainted.
Qed.

Lemma hazard_reads_fold k' : forall h, (forall a, a ∈ k' -> a ∈ k) -> reads_sound h -> reads_sound (foldl hazard_assign h k').
Proof.
  induction k' as [|a k' IH]; intros h Hk Hh; cbn [foldl]; [done |].
  apply IH; [intros b Hb; apply Hk; by right |]. apply hazard_assign_reads; [apply Hk; by left | done].
Qed.

Lemma hazard_reads_grow k' : forall h, reads_tpop_ h ⊆ reads_tpop_ (foldl hazard_assign h k').
Proof.
  induction k' as [|a k' IH]; intros h; cbn [foldl]; [done |]. etrans; [|apply IH].
  destruct (hazard_assign_spec h a) as (_ & _ & ->). destruct (popped_inputs _ _); set_solver.
Qed.

Lemma hazard_marks_fold k' : forall h, tpop_marks (foldl hazard_assign h k') = foldl (taint_step tpop_taint) (tpop_marks h) k'.
Proof. induction k' as [|a k' IH]; intros h; cbn [foldl]; [done |]. rewrite IH. by destruct (hazard_assign_spec h a) as (_ & -> & _). Qed.

Context (Hbody : two_walks_suffice body = true).

Lemma load_stays : forallb (stays load_taint) k = true.
Proof. unfold two_walks_suffice in Hbody. rewrite !andb_true_iff in Hbody. by destruct Hbody as [[_ ?] _]. Qed.
Lemma tpop_stays : forallb (stays tpop_taint) k = true.
Proof. unfold two_walks_suffice in Hbody. rewrite !andb_true_iff in Hbody. by destruct Hbody as [_ ?]. Qed.

Lemma walk_reads_all h : (forall w c, holds tpop_taint k w -> TileMemRefBase w = Some c -> c ∈ (tpop_marks h).2) -> forall x, reads_popped x -> x ∈ reads_tpop_ (hazard_walk body h).
Proof.
  intros Hm x (v & e & s & Hin & Ht & Hc & Hs & Ho & <-). apply list_elem_of_split in Hin as (a & b & El).
  unfold hazard_walk. rewrite El, foldl_app. cbn [foldl]. apply hazard_reads_grow.
  pose proof (suffice_recognised body tpop_taint tpop_sources_sub tpop_stays Hbody (tpop_marks h) a v e b s Hm El Hs Ho) as Hrec.
  rewrite <- hazard_marks_fold in Hrec. set (h1 := foldl hazard_assign h a) in *.
  destruct (hazard_assign_spec h1 (v, e)) as (_ & Et & ->).
  assert (E : popped_inputs (hazard_assign h1 (v, e)) (v, e) = true); [|rewrite E; set_solver].
  unfold popped_inputs. cbn [fst snd]. rewrite Ht, Hc. cbn [andb]. apply existsb_exists. exists s. split; [by apply list_elem_of_In |].
  apply (IsTainted_spec (tpop_marks (hazard_assign h1 (v, e))) s). rewrite Et.
  apply (IsTainted_spec (tpop_marks h1) s) in Hrec. destruct (taint_step_sub tpop_taint (tpop_marks h1) (v, e)) as [Hs1 Hs2].
  destruct Hrec as [Hrec|(Hcar & c & Hc1 & Hc2)]; [left; by apply Hs1 | right; split; [done |]; exists c; split; [done |]; by apply Hs2].
Qed.

Lemma Run_exact : let h := HazardInputs_Run body in
  exact load_taint k (load_marks h) /\ exact tpop_taint k (tpop_marks h) /\ forall x, x ∈ reads_tpop_ h <-> reads_popped x.
Proof.
  cbn. unfold HazardInputs_Run. set (h1 := hazard_walk body no_hazards).
  destruct (hazard_walk_marks body h1) as [E1 E2], (hazard_walk_marks body no_hazards) as [E3 E4]. fold h1 in E3, E4.
  rewrite E1, E2, E3, E4. split_and!.
  - apply (suffice_exact body load_taint load_sources_sub load_stays Hbody).
  - apply (suffice_exact body tpop_taint tpop_sources_sub tpop_stays Hbody).
  - assert (Hs : reads_sound h1).
    { apply hazard_reads_fold; [done |]. split; [apply empty_sound | by intros x ?%elem_of_empty]. }
    intros x. split; [by apply hazard_reads_fold |]. apply walk_reads_all. intros w c. rewrite E4.
    apply (suffice_bases body tpop_taint tpop_sources_sub tpop_stays Hbody).
Qed.

Lemma Run_stable : hazard_walk body (HazardInputs_Run body) = HazardInputs_Run body.
Proof.
  destruct Run_exact as (H1 & H2 & H3). set (h := HazardInputs_Run body) in *.
  destruct (hazard_walk_marks body h) as [E1 E2].
  rewrite (suffice_stable body load_taint load_sources_sub load_stays Hbody _ H1) in E1.
  rewrite (suffice_stable body tpop_taint tpop_sources_sub tpop_stays Hbody _ H2) in E2.
  assert (E3 : reads_tpop_ (hazard_walk body h) = reads_tpop_ h).
  { apply set_eq. intros x. split; [|apply hazard_reads_grow]. intros Hx. apply H3. revert x Hx.
    apply hazard_reads_fold; [done |]. split; [by apply exact_sound | intros x; apply H3]. }
  destruct h as [? ? ? ? ?], (hazard_walk body _) as [? ? ? ? ?]. unfold load_marks, tpop_marks in *. cbn in *. by simplify_eq.
Qed.
End Run.

(** ** Properties *)

(** C9: What HazardInputCollector::Run reports when every name is assigned before it is
    read, names keep their reference and a travelling value keeps its buffer: load_derived
    is exactly the least set that holds the loaded tiles and is closed under the listed view
    operators, renaming and loop carries; reads_tpop is exactly the calls that read a popped
    value, around the back edge of a loop as well; and a third walk would add nothing. *)
Theorem HazardInputs_Run_closure `{OpRegistry} body :
  two_walks_suffice body = true ->
  let h := HazardInputs_Run body in
  (forall x, x ∈ load_derived_ h <-> exists v, holds load_taint (assignments body) v /\ var_id v = x) /\
  (forall x, x ∈ reads_tpop_ h <-> reads_popped body x) /\ hazard_walk body h = h.
Proof.
  intros Hb. destruct (Run_exact body Hb) as ((H1 & _) & _ & H2). split; [exact H1|]. split; [exact H2|]. by apply Run_stable.
Qed.

Module Examples.

Definition entry (inherits safe : bool) : OpRegistryEntry := MkEntry true inherits None safe [] [] [] None.
(** A few registered operators. *)
Definition operators : OpRegistry := fun name =>
  if String.eqb name "tile.reshape" then Some (entry true true)
  else if String.eqb name "tile.load" || String.eqb name "tile.fillpad" || String.eqb name "tile.add" || String.eqb name "tile.tpop_from_aic"
  then Some (entry false true) else None.
#[local] Existing Instance operators.

Definition reference (base : positive) : MemRef :=
  MkMemRef base (MkMemRefData EmptyString (MkBase base EmptyString) (ConstInt 0 INT64) 64 false 1 None).
Definition tile (v base : positive) : IRVar := MkVar v (TileType FP32 (Some (reference base)) (Some Vec)).
Definition call (op : string) (args : list IRExpr) : IRExpr := Call (MkOp op false) args [] OtherType EmptyString false.
Definition carried (v base : positive) (init : IRVar) : IRVar * IRExpr := (tile v base, VarExpr init).
Definition read_carried (c : IRVar * IRExpr) : IRExpr := IterArg c.1 c.2.

(** A popped value reaches the sum through the back edge. *)
Definition popped_body : Stmt :=
  SeqStmts [
    AssignStmt (tile 1 11) (call "tile.load" []);
    AssignStmt (tile 2 12) (call "tile.add" []);
    ForStmt (MkVar 30 OtherType) [] [carried 3 12 (tile 2 12)]
      (SeqStmts [
        AssignStmt (tile 4 14) (call "tile.add" [VarExpr (tile 1 11); read_carried (carried 3 12 (tile 2 12))]);
        AssignStmt (tile 5 11) (call "tile.reshape" [VarExpr (tile 1 11)]);
        AssignStmt (tile 6 12) (call "tile.tpop_from_aic" []);
        YieldStmt [VarExpr (tile 6 12)] ]) [tile 7 12] false ].

Lemma HazardInputs_Run_closure_witness :
  load_derived_ (HazardInputs_Run popped_body) = {[ 1%positive; 5%positive ]} /\
  reads_tpop_ (HazardInputs_Run popped_body) = {[ 4%positive ]} /\ reads_tpop_ (hazard_walk popped_body no_hazards) = ∅ /\
  reads_popped popped_body 4.
Proof.
  assert (Hb : two_walks_suffice popped_body = true) by (vm_compute; reflexivity).
  split_and!; [vm_compute; reflexivity | vm_compute; reflexivity | vm_compute; reflexivity |].
  destruct (HazardInputs_Run_closure popped_body Hb) as (_ & H & _). apply H. vm_compute; reflexivity.
Defined.

(** Two carried tiles, padded into each other. *)
Definition padded_body : Stmt :=
  SeqStmts [
    AssignStmt (tile 1 11) (call "tile.add" []);
    AssignStmt (tile 2 12) (call "tile.add" []);
    ForStmt (MkVar 30 OtherType) [] [carried 3 11 (tile 1 11); carried 4 12 (tile 2 12)]
      (SeqStmts [
        AssignStmt (tile 5 15) (call "tile.fillpad" [read_carried (carried 4 12 (tile 2 12))]);
        AssignStmt (tile 6 12) (call "tile.fillpad" [read_carried (carried 3 11 (tile 1 11))]);
        AssignStmt (tile 7 11) (call "tile.load" []);
        YieldStmt [VarExpr (tile 7 11); VarExpr (tile 6 12)] ]) [tile 8 11; tile 9 12] false ].

(** "a third could never add anything": [tile.fillpad] moves a loaded value to a
    buffer of its own, and two walks miss a tile that a third one finds. *)
Theorem fillpad_chain_missed :
  holds load_taint (assignments padded_body) (tile 5 15) /\
  load_derived_ (HazardInputs_Run padded_body) = {[ 6%positive; 7%positive ]} /\
  load_derived_ (hazard_walk padded_body (HazardInputs_Run padded_body)) = {[ 5%positive; 6%positive; 7%positive ]}.
Proof.
  split_and!; [|vm_compute; reflexivity | vm_compute; reflexivity].
  assert (H7 : holds load_taint (assignments padded_body) (tile 7 11)).
  { eapply holds_made; [|done|]; [by repeat first [apply list_elem_of_here | apply list_elem_of_further] | done]. }
  assert (H6 : holds load_taint (assignments padded_body) (tile 6 12)).
  { eapply holds_base; [do 3 apply list_elem_of_further; apply list_elem_of_here | done | apply list_elem_of_here | exact H7 | done | done]. }
  eapply holds_base; [do 2 apply list_elem_of_further; apply list_elem_of_here | done | apply list_elem_of_here | exact H6 | done | done].
Qed.
End Examples.
