(* ===== verification/Slots.v ===== *)
(** * Declared slots

    Tiles bound on their own to one slot of a declared allocation: what
    [ValidateDeclaredAllocs] of [Constraints] checks, and that a body that passes does
    not overwrite one such tile by another while it is to be read. *)

From Stdlib Require Import ZArith Lia Bool List String.
From stdpp Require Import base gmap list option strings sorting.
From S2P Require Import Prelude ScalarExpr Storage Dsa DsaFit Memref DsaAdapter Stmt Lifetime Runs RunsSound LifetimeSound LifetimePlan Constraints.

#[local] Open Scope Z_scope.

(** ** The sweep of a slot *)

(** A tile is no longer read when a later one is defined. *)
Definition in_turn (m n : BoundMember) : Prop := member_def m < member_def n -> member_last m <= member_def n.


Lemma neighbours_in_turn l : StronglySorted (fun m n => member_def m <= member_def n) l -> neighbours_ok l = true ->
  forall a m b n, l = a ++ m :: b -> n ∈ b -> member_last m <= member_def n.
Proof.
  induction l as [|k l IH]; intros Hs Hok a m b n El Hn; [by destruct a |]. apply StronglySorted_inv in Hs as [Hs _].
  destruct l as [|k' l]; [destruct a as [|? [|? ?]]; simplify_eq/=; by apply elem_of_nil in Hn |].
  cbn [neighbours_ok] in Hok. apply andb_true_iff in Hok as [H1%Z.leb_le H2].
  destruct a as [|k0 a]; cbn [app] in El; simplify_eq/=; [|by eapply IH]. apply elem_of_cons in Hn as [->|Hn]; [done |].
  apply StronglySorted_inv in Hs as [_ Hs]. rewrite List.Forall_forall in Hs. specialize (Hs n (proj1 (list_elem_of_In _ _) Hn)). lia.
Qed.

Lemma in_turn_neighbours l : StronglySorted (fun m n => member_def m <= member_def n) l -> NoDup (map member_def l) ->
  (forall m n, m ∈ l -> n ∈ l -> in_turn m n) -> neighbours_ok l = true.
Proof.
  induction l as [|m l IH]; intros Hs Hn Ht; [done |]. apply StronglySorted_inv in Hs as [Hs Hm]. apply NoDup_cons in Hn as [Hni Hn].
  specialize (IH Hs Hn (fun k n Hk Hn' => Ht k n (list_elem_of_further _ _ _ Hk) (list_elem_of_further _ _ _ Hn'))).
  destruct l as [|n l]; [done |]. cbn [neighbours_ok] in *. rewrite IH, andb_true_r. apply Z.leb_le.
  assert (Hmn : member_def m <= member_def n) by by inversion Hm. apply Ht; [by left | by right; left |].
  assert (member_def m <> member_def n); [|lia]. intros E. apply Hni. rewrite E. by left.
Qed.

Lemma slot_ok_spec l : NoDup (map member_def l) -> slot_ok l = true <-> forall m n, m ∈ l -> n ∈ l -> in_turn m n.
Proof.
  intros Hn. unfold slot_ok. pose proof (sort_by_first (fun m => [member_def m]) member_def l (fun _ => eq_refl)) as Hs.
  pose proof (sort_by_perm (fun m => [member_def m]) l) as Hp. set (k := sort_by _ l) in *.
  assert (Hnk : NoDup (map member_def k)) by by rewrite Hp. split.
  - intros Hok m n Hm Hn' Hlt. rewrite <- Hp in Hm, Hn'. apply list_elem_of_split in Hm as (a & b & E).
    rewrite E in Hn', Hs, Hok. apply elem_of_app in Hn' as [Hn'|Hn'].
    + assert (member_def n <= member_def m); [|lia]. by apply (StronglySorted_app_1_elem_of _ _ _ n m Hs Hn'); left.
    + apply elem_of_cons in Hn' as [->|Hn']; [lia | by eapply neighbours_in_turn].
  - intros Ht. apply in_turn_neighbours; [done..|]. intros m n. rewrite Hp. apply Ht.
Qed.

(** ** The slots of a body *)

Section Slots.
Context `{OpRegistry} (body : Stmt) (bases : gset positive) (liveness : gmap positive (Z * Z)).

(** The tiles bound on their own, each with its slot. *)
Definition bound : list (positive * Z * BoundMember) := omap (bound_member bases liveness) (assignments body).
Definition members_of (slot : positive * Z) (l : list (positive * Z * BoundMember)) : list BoundMember :=
  map snd (List.filter (fun e => bool_decide (e.1 = slot)) l).

Lemma members_of_in slot l m : m ∈ members_of slot l <-> (slot, m) ∈ l.
Proof.
  unfold members_of. rewrite list_elem_of_fmap. setoid_rewrite list_elem_of_In. setoid_rewrite List.filter_In. split.
  - intros ([s n] & -> & Hn & E%bool_decide_eq_true). cbn in *. by subst s.
  - intros Hm. exists (slot, m). split_and!; [done | done | by apply bool_decide_eq_true].
Qed.

Lemma add_members_spec l : forall acc slot,
  default [] (foldl add_member acc l !! slot) = default [] (acc !! slot) ++ members_of slot l.
Proof.
  induction l as [|[s m] l IH]; intros acc slot; cbn [foldl]; [by rewrite app_nil_r |]. rewrite IH. unfold members_of. cbn [List.filter fst].
  case_bool_decide as E; cbn [add_member].
  - subst s. rewrite lookup_insert_eq. cbn. by rewrite <- app_assoc.
  - by rewrite lookup_insert_ne by done.
Qed.

Lemma by_slot_spec slot : default [] (by_slot bases liveness body !! slot) = members_of slot bound.
Proof. unfold by_slot. rewrite add_members_spec, lookup_empty. done. Qed.

Lemma bound_none : bases = ∅ -> bound = [].
Proof.
  intros E. unfold bound. induction (assignments body) as [|[v e] l IH]; [done |]. cbn [omap list_omap]. rewrite IH. unfold bound_member.
  rewrite E. destruct (GetTypeMemRef (GetType v)) as [m|]; [|done]. cbn. by rewrite bool_decide_eq_false_2 by apply not_elem_of_empty.
Qed.

Lemma ValidateDeclaredAllocs_slots :
  ValidateDeclaredAllocs body bases liveness = Ok tt <-> forall slot, slot_ok (members_of slot bound) = true.
Proof.
  unfold ValidateDeclaredAllocs. case_bool_decide as E; [by rewrite (bound_none E) |].
  transitivity (forallb (fun sm => slot_ok sm.2) (map_to_list (by_slot bases liveness body)) = true).
  { unfold require. by destruct (forallb _ _). }
  rewrite forallb_forall. setoid_rewrite <- list_elem_of_In. split.
  - intros Hf slot. rewrite <- by_slot_spec. destruct (by_slot bases liveness body !! slot) as [l|] eqn:El; [|done]. cbn.
    apply (Hf (slot, l)). by apply elem_of_map_to_list.
  - intros Hf [slot l] Hin%elem_of_map_to_list. cbn. specialize (Hf slot). by rewrite <- by_slot_spec, Hin in Hf.
Qed.

Lemma ValidateDeclaredAllocs_pairs : NoDup (map (fun e => member_def e.2) bound) ->
  ValidateDeclaredAllocs body bases liveness = Ok tt <->
  forall slot m n, (slot, m) ∈ bound -> (slot, n) ∈ bound -> in_turn m n.
Proof.
  intros Hn. rewrite ValidateDeclaredAllocs_slots. apply forall_proper. intros slot. rewrite slot_ok_spec.
  - by setoid_rewrite members_of_in.
  - unfold members_of. rewrite map_map. eapply sublist_NoDup; [exact Hn |].
    clear. induction bound as [|e l IH]; cbn; [done |]. case_bool_decide; by constructor.
Qed.
End Slots.

(** ** The lifetimes of the tiles *)

Lemma assigned_tiles s : forall o, map fst (List.filter (fun a => is_tile a.1) (assignments s)) = map fst (defs_at o s).
Proof.
  induction s as [l IH|v e| | | |c t e rvs IHt IHe|? ? ? ? ? ? IHb|? ? ? ? IHb|? ? ? IHb| | |] using Stmt_nested_ind; intros o; try done.
  - rewrite defs_at_seq. revert o. induction IH as [|s l Hs _ IHl]; intros o; [done |]. cbn [assignments flat_map defs_seq] in *.
    by rewrite List.filter_app, !map_app, (Hs o), (IHl (o + leaves s)).
  - cbn. by destruct (is_tile v).
  - cbn [assignments defs_at]. rewrite List.filter_app, !map_app, (IHt o). f_equal. destruct e as [e|]; [by apply (IHe e) | done].
  - apply IHb. - apply IHb. - apply IHb.
Qed.

Lemma assigned_defined s o v e : (v, e) ∈ assignments s -> is_tile v = true -> exists d, (v, d) ∈ defs_at o s.
Proof.
  intros Hin Ht. assert (H : v ∈ map fst (defs_at o s)); [|apply list_elem_of_fmap in H as ([? d] & -> & H); by exists d].
  rewrite <- assigned_tiles. apply list_elem_of_fmap. exists (v, e). split; [done |].
  apply list_elem_of_In, List.filter_In. by split; [apply list_elem_of_In |].
Qed.

(** The liveness of the planner is that of the analysis. *)
Lemma AnalyzeAllocationLifetimes_liveness body params r :
  well_formed body params = true -> AnalyzeAllocationLifetimes body params = Ok r ->
  exists a, analyses body params a /\
    forall v d u, var_liveness r !! v = Some (d, u) -> var_def_order a !! v = Some d /\ u = effective_last a v.
Proof.
  intros Hwf Hr. destruct (Analyze_analyses body params Hwf) as (a & Ha & Has). exists a. split; [done |].
  unfold AnalyzeAllocationLifetimes in Hr. rewrite Ha in Hr. cbn [bind] in Hr. destruct (ordered_defs a) as [|v0 defs].
  - injection Hr as <-. cbn. by intros v d u ?%lookup_empty_Some.
  - apply bind_ok in Hr as (i & _ & Hr). injection Hr as <-. cbn [var_liveness]. intros v d u Hv.
    rewrite map_lookup_imap in Hv. destruct (var_def_order a !! v) as [d'|]; [|done]. cbn in Hv. by simplify_eq.
Qed.

(** Declared allocations hold tiles. *)
Definition declared_for_tiles (body : Stmt) (bases : gset positive) : bool :=
  forallb (fun a => match GetTypeMemRef (GetType a.1) with Some m => negb (bool_decide (base_key m ∈ bases)) | None => true end || is_tile a.1)
    (assignments body).

Lemma NoDup_by {A B C} (f : A -> B) (g : A -> C) (l : list A) :
  NoDup (map f l) -> (forall x y, x ∈ l -> y ∈ l -> g x = g y -> f x = f y) -> NoDup (map g l).
Proof.
  induction l as [|x l IH]; intros Hf Hg; [constructor |]. cbn in *. apply NoDup_cons in Hf as [Hx Hf]. apply NoDup_cons. split.
  - intros (y & E & Hy)%list_elem_of_fmap. apply Hx, list_elem_of_fmap. exists y. split; [|done]. apply Hg; [by left | by right | done].
  - apply IH; [done |]. intros y z Hy Hz. apply Hg; by right.
Qed.

Section Declared.
Context `{OpRegistry} (body : Stmt) (params : list IRVar) (bases : gset positive) (r : Lifetimes) (a : LifetimeAnalyzer).
Context (Hwf : well_formed body params = true) (Has : analyses body params a) (Htiles : declared_for_tiles body bases = true).
Context (Hlive : forall v d u, var_liveness r !! v = Some (d, u) -> var_def_order a !! v = Some d /\ u = effective_last a v).

Lemma bound_member_tile v e slot m : (v, e) ∈ assignments body -> bound_member bases (var_liveness r) (v, e) = Some (slot, m) ->
  is_tile v = true /\ member_var m = var_id v /\ var_def_order a !! var_id v = Some (member_def m) /\ member_last m = effective_last a (var_id v).
Proof.
  intros Hin Hm. unfold declared_for_tiles in Htiles. rewrite forallb_forall in Htiles.
  specialize (Htiles _ (proj1 (list_elem_of_In _ _) Hin)). cbn [fst] in Htiles. unfold bound_member in Hm.
  destruct (GetTypeMemRef (GetType v)) as [mr|]; [|done]. cbn in Hm, Htiles. case_bool_decide; [|done]. cbn in Hm, Htiles.
  destruct (bool_decide _); [done |]. destruct (match e with Call _ _ _ _ _ _ => _ | _ => _ end); [done |].
  destruct (var_liveness r !! var_id v) as [[d u]|] eqn:El; [|done]. cbn in Hm. apply Hlive in El as [El ->].
  destruct (byte_offset mr); try done. by simplify_eq/=.
Qed.

Lemma bound_in slot m : (slot, m) ∈ bound body bases (var_liveness r) ->
  exists v e d, (v, e) ∈ assignments body /\ (v, d) ∈ defs_at 0 body /\ var_id v = member_var m /\ d = member_def m.
Proof.
  unfold bound. rewrite list_elem_of_omap. intros ([v e] & Hin & Hm). destruct (bound_member_tile v e slot m Hin Hm) as (Ht & Ev & Hd & _).
  destruct (assigned_defined body 0 v e Hin Ht) as (d & Hvd). exists v, e, d. split_and!; try done.
  rewrite (as_defs _ _ _ Has _ _ Hvd) in Hd. congruence.
Qed.

Lemma bound_defs_nodup : NoDup (map (fun e => member_def e.2) (bound body bases (var_liveness r))).
Proof.
  apply (NoDup_by (fun e => member_var e.2)).
  - pose proof Hwf as (Hnd & _)%well_formed_parts. apply NoDup_app in Hnd as (_ & _ & Hnd).
    eapply sublist_NoDup in Hnd; [|apply (defines_sublist body)]. unfold defines in Hnd. rewrite <- (map_map fst var_id), <- assigned_tiles in Hnd.
    eapply sublist_NoDup; [exact Hnd |].
    assert (Hall : forall c, c ∈ assignments body -> c ∈ assignments body) by done. revert Hall. unfold bound.
    generalize (assignments body) at 1 3 4. intros l Hall. induction l as [|[v e] l IH]; [done |].
    specialize (IH (fun c Hc => Hall c (list_elem_of_further _ _ _ Hc))). cbn [omap list_omap List.filter fst].
    destruct (bound_member bases (var_liveness r) (v, e)) as [[slot m]|] eqn:E.
    + destruct (bound_member_tile v e slot m (Hall _ (list_elem_of_here _ _)) E) as (-> & Ev & _). cbn. rewrite Ev. by constructor.
    + destruct (is_tile v); [by constructor | done].
  - intros [s m] [s' n] Hm Hn E. cbn in *. apply bound_in in Hm as (v & e & d & _ & Hv & <- & ->), Hn as (w & e' & d' & _ & Hw & <- & ->).
    rewrite E in Hv. f_equal. by eapply defs_at_order.
Qed.
End Declared.

(** ** Properties *)

(** Every pair of tiles on one slot: the one defined first is read for the last time no
    later than the other is defined. *)
Definition apart_in_turn (e f : positive * Z * BoundMember) : bool :=
  negb (bool_decide (e.1 = f.1)) || (member_def f.2 <=? member_def e.2) || (member_last e.2 <=? member_def f.2).
Definition all_apart (l : list (positive * Z * BoundMember)) : bool := forallb (fun e => forallb (apart_in_turn e) l) l.

(** C10: On a well_formed body (so names are bound once) whose declared allocations hold
    tiles only (declared_for_tiles), with the lifetimes of the analysis,
    ValidateDeclaredAllocs, which sorts the tiles of each slot by definition and compares
    neighbours, decides the same as comparing all pairs: it accepts the body exactly when,
    of any two tiles bound on their own to one slot of a declared allocation, the one
    defined first is read for the last time no later than the other is defined, and
    otherwise it reports the error to the user. *)
Theorem ValidateDeclaredAllocs_spec `{OpRegistry} body params bases r :
  well_formed body params = true -> AnalyzeAllocationLifetimes body params = Ok r -> declared_for_tiles body bases = true ->
  ValidateDeclaredAllocs body bases (var_liveness r) = require (all_apart (bound body bases (var_liveness r))) CheckFailed.
Proof.
  intros Hwf Hr Htiles. destruct (AnalyzeAllocationLifetimes_liveness body params r Hwf Hr) as (a & Has & Hlive).
  pose proof (ValidateDeclaredAllocs_pairs body bases _ (bound_defs_nodup body params bases r a Hwf Has Htiles Hlive)) as Hp.
  assert (Hall : all_apart (bound body bases (var_liveness r)) = true <->
    forall slot m n, (slot, m) ∈ bound body bases (var_liveness r) -> (slot, n) ∈ bound body bases (var_liveness r) -> in_turn m n).
  { unfold all_apart. rewrite forallb_forall. setoid_rewrite forallb_forall. setoid_rewrite <- list_elem_of_In.
    unfold apart_in_turn, in_turn. split.
    - intros Hf slot m n Hm Hn Hlt. specialize (Hf _ Hm _ Hn). cbn in Hf. rewrite bool_decide_eq_true_2 in Hf by done. cbn in Hf. lia.
    - intros Hf [s m] Hm [s' n] Hn. cbn. case_bool_decide as E; [subst s'|done]. cbn. specialize (Hf s m n Hm Hn). lia. }
  rewrite <- Hall in Hp. destruct (all_apart _).
  - by apply Hp.
  - unfold ValidateDeclaredAllocs in *. case_bool_decide; [by pose proof (proj1 Hp eq_refl) |].
    unfold require in *. destruct (forallb _ _); [by pose proof (proj1 Hp eq_refl) | done].
Qed.

(** C8: Declared tiles are not overwritten in a well_formed body (names bound once, loops
    that carry a tile from a definition and not from the result of a loop or a branch, and
    the other conditions of well_formed) whose declared allocations hold tiles only
    (declared_for_tiles): when ValidateDeclaredAllocs accepts it with the lifetimes of the
    analysis, in no run, whatever branches are taken and however often loops repeat, is a
    tile bound on its own to a slot of a declared allocation written between the definition
    of another tile bound to that slot and a read of its storage. Without the condition on
    carried tiles this fails with the lifetimes themselves (chained_loops_overwritten). *)
Theorem declared_slots_survive `{OpRegistry} body params bases r :
  well_formed body params = true -> AnalyzeAllocationLifetimes body params = Ok r -> declared_for_tiles body bases = true ->
  ValidateDeclaredAllocs body bases (var_liveness r) = Ok tt ->
  forall v e w e' slot m n t out ρ' between d,
    (v, e) ∈ assignments body -> (w, e') ∈ assignments body -> v <> w ->
    bound_member bases (var_liveness r) (v, e) = Some (slot, m) -> bound_member bases (var_liveness r) (w, e') = Some (slot, n) ->
    runs (entry_env params) 0 body t out ρ' -> window params t (var_id v) between -> Wr d (var_id w) ∉ between.
Proof.
  intros Hwf Hr Htiles Hok v e w e' slot m n t out ρ' between d Hv Hw Hne Hm Hn Hrun Hwin Hwr.
  destruct (AnalyzeAllocationLifetimes_liveness body params r Hwf Hr) as (a & Has & Hlive).
  destruct (bound_member_tile body bases r a Htiles Hlive v e slot m Hv Hm) as (Htv & _ & Hdv & Hlv).
  destruct (bound_member_tile body bases r a Htiles Hlive w e' slot n Hw Hn) as (Htw & _ & Hdw & Hlw).
  destruct (windows_covered _ _ _ _ _ _ _ _ _ _ Hwf Has Hrun Hwin Hwr) as [Hd Hdw']. assert (d = member_def n) as -> by congruence.
  unfold def_order_of in Hd. rewrite Hdv in Hd. cbn in Hd.
  assert (Hneq : member_def m <> member_def n).
  { intros E. destruct (assigned_defined body 0 v e Hv Htv) as (d1 & H1), (assigned_defined body 0 w e' Hw Htw) as (d2 & H2).
    rewrite (as_defs _ _ _ Has _ _ H1) in Hdv. rewrite (as_defs _ _ _ Has _ _ H2) in Hdw. apply Hne. eapply defs_at_order; [exact H1 |]. congruence. }
  pose proof (proj1 (ValidateDeclaredAllocs_pairs body bases _ (bound_defs_nodup body params bases r a Hwf Has Htiles Hlive)) Hok) as Hp.
  assert (member_last m <= member_def n); [|lia]. eapply Hp; [| |lia]; unfold bound; apply list_elem_of_omap; eauto.
Qed.

(** ** An example *)

Module Examples.
#[local] Instance no_operators : OpRegistry := fun _ => None.

Definition first := ex_tile 1 41.
Definition other := ex_tile 2 52.
Definition sum := ex_tile 3 53.
Definition second := ex_tile 4 41.

(** The slot is used twice in turn. *)
Definition turns : Stmt :=
  SeqStmts [AssignStmt first (ex_call "tile.load" []); AssignStmt other (ex_call "tile.load" []);
    AssignStmt sum (ex_call "tile.add" [VarExpr first; VarExpr other]); AssignStmt second (ex_call "tile.load" []);
    EvalStmt (ex_call "tile.store" [VarExpr second; VarExpr sum])].
(** The first tile is read after the second is written. *)
Definition clash : Stmt :=
  SeqStmts [AssignStmt first (ex_call "tile.load" []); AssignStmt second (ex_call "tile.load" []);
    AssignStmt sum (ex_call "tile.add" [VarExpr first; VarExpr second])].

Definition declared : gset positive := {[ 41%positive ]}.
Definition analysed_body (body : Stmt) : Lifetimes := match AnalyzeAllocationLifetimes body [] with Ok r => r | Err _ => ex_lifetimes end.

Lemma ValidateDeclaredAllocs_spec_witness :
  ValidateDeclaredAllocs turns declared (var_liveness (analysed_body turns)) = Ok tt /\
  ValidateDeclaredAllocs clash declared (var_liveness (analysed_body clash)) = Err CheckFailed.
Proof.
  split; (etransitivity; [apply (ValidateDeclaredAllocs_spec _ []); vm_compute; reflexivity | vm_compute; reflexivity]).
Defined.

Definition turns_trace : list event := [Wr 0 1; Wr 1 2; Rd 2 1; Rd 2 2; Wr 2 3; Wr 3 4; Rd 4 4; Rd 4 3]%positive%Z.
Lemma turns_runs : exists t ρ, runs (entry_env []) 0 turns t Normal ρ /\ t = turns_trace.
Proof. do 2 eexists. split; [repeat run_step | vm_compute; reflexivity]. Qed.

Lemma declared_slots_survive_witness :
  window [] turns_trace (var_id first) [Wr 1 2%positive] /\ Wr 3 (var_id second) ∉ [Wr 1 2%positive].
Proof.
  assert (Hwin : window [] turns_trace (var_id first) [Wr 1 2%positive]).
  { left. exists [], [Rd 2 2; Wr 2 3; Wr 3 4; Rd 4 4; Rd 4 3]%positive%Z, 0, 2. split; [reflexivity |].
    by intros d [= ->]%list_elem_of_singleton. }
  split; [exact Hwin |]. destruct turns_runs as (t & ρ & Hrun & Et). rewrite <- Et in Hwin.
  apply (declared_slots_survive turns [] declared (analysed_body turns) ltac:(vm_compute; reflexivity) ltac:(vm_compute; reflexivity)
    ltac:(vm_compute; reflexivity) ltac:(vm_compute; reflexivity) first (ex_call "tile.load" []) second (ex_call "tile.load" [])
    (41%positive, 0) (MkBoundMember 1 0 2) (MkBoundMember 4 3 4) t Normal ρ); try assumption.
  - left.
  - right; right; right; left.
  - discriminate.
  - vm_compute; reflexivity.
  - vm_compute; reflexivity.
Defined.
End Examples.
