(* ===== verification/Forbidden.v ===== *)
(** * Forbidden aliases, end to end

    What [ForbidAliasCollector] of [Constraints] records reaches the placement: the
    tile an operator defines gets no byte of an input the operator must not overwrite. *)

From Stdlib Require Import ZArith Lia Bool List String.
From stdpp Require Import base gmap list option strings sorting.
From S2P Require Import Prelude Dtype ScalarExpr Storage Dsa DsaSearch DsaSpec DsaFit DsaSolve Memref MemrefSound MemrefPlan.
From S2P Require Import DsaAdapter DsaBuild DsaSeparations DsaPlan Stmt Lifetime Runs RunsSound LifetimeSound LifetimePlan Constraints Slots.

#[local] Open Scope Z_scope.

(** ** What is recorded *)

Section Recorded.
Context `{OpRegistry} (target : Target) (sharing : gmap positive (list IRVar)).

(** The variable a record of [v] is kept under. *)
Definition record_key (v : IRVar) : positive := default (var_id v) (member_to_rep sharing (var_id v)).
Definition recorded_for (f : ForbidAliasCollector) (k : positive) (u : IRVar) : Prop := u ∈ default [] (forbidden f !! k).

Lemma RecordForOutput_keeps v inputs f k u : recorded_for f k u -> recorded_for (RecordForOutput sharing v inputs f) k u.
Proof.
  intros Hu. unfold RecordForOutput. destruct inputs as [|i inputs]; [done |]. destruct (GetType v); try done.
  unfold recorded_for in *. cbn. destruct (decide (default (var_id v) (member_to_rep sharing (var_id v)) = k)) as [->|Hne].
  - rewrite lookup_insert_eq. cbn. apply elem_of_app. by left.
  - by rewrite lookup_insert_ne.
Qed.

Lemma RecordForOutput_adds v inputs f u : is_tile v = true -> u ∈ inputs -> recorded_for (RecordForOutput sharing v inputs f) (record_key v) u.
Proof.
  intros Ht Hu. unfold RecordForOutput, is_tile in *. destruct inputs as [|i inputs]; [by apply elem_of_nil in Hu |].
  destruct (GetType v); try done. unfold recorded_for. cbn [forbidden]. unfold record_key. rewrite lookup_insert_eq. cbn. apply elem_of_app. by right.
Qed.

Lemma forbid_assign_keeps a f f' k u : forbid_assign target sharing a f = Ok f' -> recorded_for f k u -> recorded_for f' k u.
Proof.
  destruct a as [v e]. destruct e as [| | | | | | |op args attrs ty pm pin| | |tuple index ty| |]; cbn; try (by intros [= <-]).
  - intros (inputs & _ & [= <-])%bind_ok. apply RecordForOutput_keeps.
  - destruct (AsVarLike tuple ≫= _); intros [= <-]; [apply RecordForOutput_keeps | done].
Qed.

Lemma fold_forbid_keeps l : forall f f' k u, fold_result (forbid_assign target sharing) l f = Ok f' -> recorded_for f k u -> recorded_for f' k u.
Proof.
  induction l as [|a l IH]; intros f f' k u; cbn [fold_result]; [by intros [= <-] |].
  intros (f1 & H1 & H2)%bind_ok Hu. eapply IH; [done |]. by eapply forbid_assign_keeps.
Qed.

Lemma fold_forbid_records v op args attrs ty pm pin inputs u l : forall f f',
  fold_result (forbid_assign target sharing) l f = Ok f' -> (v, Call op args attrs ty pm pin) ∈ l -> is_tile v = true ->
  forbidden_inputs target op args ty = Ok inputs -> u ∈ inputs -> recorded_for f' (record_key v) u.
Proof.
  induction l as [|a l IH]; intros f f' Hf Hin Ht Hi Hu; [by apply elem_of_nil in Hin |]. cbn [fold_result] in Hf.
  apply bind_ok in Hf as (f1 & H1 & H2). apply elem_of_cons in Hin as [<-|Hin]; [|by eapply IH].
  eapply fold_forbid_keeps; [exact H2 |]. cbn in H1. rewrite Hi in H1. injection H1 as <-. by apply RecordForOutput_adds.
Qed.
End Recorded.

(** ** The representative of a tile *)

Lemma shared_lookup defs : NoDup (map var_id defs) -> forall v, v ∈ defs ->
  shared defs !! var_id v = let group := sharing_group (memref_groups defs) v in if (1 <? length group)%nat then Some group else None.
Proof.
  intros Hnd. unfold shared. set (groups := memref_groups defs). clearbody groups.
  set (step := fun (m : gmap positive (list IRVar)) v => _).
  assert (Hother : forall l m x, x ∉ map var_id l -> foldl step m l !! x = m !! x).
  { intros l. induction l as [|w l IH]; intros m x Hx; [done |]. cbn in Hx. apply not_elem_of_cons in Hx as [Hw Hx]. cbn [foldl]. rewrite IH by done.
    unfold step. destruct (1 <? length _)%nat; [by apply lookup_insert_ne | done]. }
  assert (Hall : forall l m, NoDup (map var_id l) -> (forall x, x ∈ map var_id l -> m !! x = None) -> forall v, v ∈ l ->
    foldl step m l !! var_id v = let group := sharing_group groups v in if (1 <? length group)%nat then Some group else None); [|intros v Hv; apply Hall; [done | intros; apply lookup_empty | done]].
  intros l. induction l as [|w l IH]; intros m Hn Hm v Hv; [by apply elem_of_nil in Hv |]. cbn in Hn, Hm. apply NoDup_cons in Hn as [Hw Hn].
  cbn [foldl]. apply elem_of_cons in Hv as [->|Hv].
  - rewrite Hother by done. unfold step. destruct (1 <? length _)%nat; [apply lookup_insert_eq | apply Hm; by left].
  - apply IH; [done | | done]. intros x Hx. unfold step. assert (var_id w <> x) by (intros <-; done).
    destruct (1 <? length _)%nat; [rewrite lookup_insert_ne by done |]; apply Hm; by right.
Qed.

(** A record is kept under the first tile of the allocation. *)
Lemma record_key_first defs v b w rest : NoDup (map var_id defs) -> v ∈ defs -> var_base v = Some b ->
  members defs b = w :: rest -> record_key (shared defs) v = var_id w.
Proof.
  intros Hnd Hv Hb Hm. unfold record_key, member_to_rep. rewrite (shared_lookup defs Hnd v Hv), (sharing_group_members defs v b Hv Hb), Hm. cbn [length].
  destruct rest as [|w' rest]; cbn; [|done]. assert (H : v ∈ members defs b) by by apply members_in.
  rewrite Hm in H. by apply list_elem_of_singleton in H as ->.
Qed.

Lemma AnalyzeAllocationLifetimes_groups body params r :
  well_formed body params = true -> AnalyzeAllocationLifetimes body params = Ok r -> sharing_groups r = shared (body_tiles body params).
Proof.
  intros Hwf Hr. destruct (Analyze_analyses body params Hwf) as (a & Ha & Has). unfold AnalyzeAllocationLifetimes in Hr. rewrite Ha in Hr. cbn [bind] in Hr.
  pose proof (as_ordered _ _ _ Has) as Ho. fold (body_tiles body params) in Ho. rewrite <- Ho. destruct (ordered_defs a) as [|v0 defs].
  - by injection Hr as <-.
  - apply bind_ok in Hr as (i & _ & Hr). by injection Hr as <-.
Qed.

(** ** To the plan *)

Lemma BuildDsaAllocationPlan_parts analysis constraints plan : BuildDsaAllocationPlan analysis constraints = Ok plan ->
  Forall2 (sized analysis constraints) (lifetimes analysis) (intervals plan) /\
  plan_separations plan = plan_entries analysis constraints (intervals plan).
Proof.
  unfold BuildDsaAllocationPlan. intros (l & Hl & H)%bind_ok. injection H as <-. cbn [intervals plan_separations].
  split; [by apply size_intervals_ok | done].
Qed.

Lemma sized_bases analysis constraints l l' : Forall2 (sized analysis constraints) l l' -> map base_of_interval l' = map base_of_interval l.
Proof.
  induction 1 as [|x y l l' [(_ & Hm & _) _ _ _ _] _ IH]; [done |]. cbn. rewrite IH. f_equal. unfold base_of_interval. by rewrite Hm.
Qed.

Lemma base_at_inj l i j x y : NoDup (map base_of_interval l) -> l !! i = Some x -> l !! j = Some y -> base_of_interval x = base_of_interval y -> i = j.
Proof.
  intros Hn Hi Hj E. eapply (NoDup_lookup (base_of_interval <$> l)); [done | |]; rewrite list_lookup_fmap; [by rewrite Hi |].
  rewrite Hj. cbn. by rewrite E.
Qed.

Lemma last_of_base_unique l j y b : NoDup (map base_of_interval l) -> l !! j = Some y -> base_of_interval y = Some b -> last_of_base l b j.
Proof.
  intros Hn Hj Hb. split; [by exists y |]. intros j' y' Hj' Hb'. assert (j' = j) as ->; [|done]. eapply base_at_inj; [done..|]. congruence.
Qed.

Lemma AnalyzeAllocationConstraints_forbid `{OpRegistry} func backend target body r c :
  AnalyzeAllocationConstraints func backend target body r = Ok c ->
  exists f, CollectForbidAlias target (sharing_groups r) body = Ok f /\
    forbid_alias c = map (fun v => memref_data <$> GetTypeMemRef (GetType v)) <$> forbidden f.
Proof.
  unfold AnalyzeAllocationConstraints. intros (sizes & _ & (_ & _ & (w & _ & (f & Hf & [= <-])%bind_ok)%bind_ok)%bind_ok)%bind_ok. by exists f.
Qed.

(** The base of the reference of a variable. *)
Definition reference_base (u : IRVar) : option positive := base_key <$> GetTypeMemRef (GetType u).

Section Apart.
Context `{OpRegistry} (func : FunctionFacts) (backend : BackendFacts) (target : Target) (body : Stmt) (params : list IRVar).
Context (a : LifetimeAnalyzer) (r : Lifetimes) (c : AllocationConstraintAnalysis) (plan : AllocationPlan).
Context (Hwf : well_formed body params = true) (Hr : AnalyzeAllocationLifetimes body params = Ok r).
Context (Hai : analysed_into body params a (lifetimes (analysis r))) (Hc : AnalyzeAllocationConstraints func backend target body r = Ok c).
Context (Hplan : BuildDsaAllocationPlan (analysis r) c = Ok plan).

Lemma plan_bases_nodup : NoDup (map base_of_interval (intervals plan)).
Proof. destruct (BuildDsaAllocationPlan_parts _ _ _ Hplan) as [Hs _]. rewrite (sized_bases _ _ _ _ Hs). apply (ai_bases _ _ _ _ Hai). Qed.

(** A recorded input is an operand of the interval of the output. *)
Lemma forbidden_recorded v op args attrs ty pm pin inputs u bv bu x i j y :
  (v, Call op args attrs ty pm pin) ∈ assignments body -> is_tile v = true -> forbidden_inputs target op args ty = Ok inputs -> u ∈ inputs ->
  var_base v = Some bv -> reference_base u = Some bu -> intervals plan !! i = Some x -> intervals plan !! j = Some y ->
  base_of_interval x = Some bv -> base_of_interval y = Some bu -> forbids c (intervals plan) x j.
Proof.
  intros Hin Ht Hi Hu Hbv Hbu Hx Hy Hxb Hyb. destruct (BuildDsaAllocationPlan_parts _ _ _ Hplan) as [Hs _].
  destruct (Forall2_lookup_r _ _ _ _ _ Hs Hx) as (x0 & Hx0 & [(Hvar & Hm & _) _ _ _ _]).
  assert (Hx0b : base_of_interval x0 = Some bv) by (unfold base_of_interval in *; by rewrite <- Hm).
  destruct (ai_first _ _ _ _ Hai x0 bv (list_elem_of_lookup_2 _ _ _ Hx0) Hx0b) as (w & rest & Hmem & Ew).
  assert (Hv : v ∈ body_tiles body params).
  { destruct (assigned_defined body 0 v _ Hin Ht) as (d & Hd). apply elem_of_app. right. change v with (fst (v, d)). by apply list_elem_of_fmap_2. }
  assert (Hkey : record_key (sharing_groups r) v = variable x).
  { rewrite (AnalyzeAllocationLifetimes_groups body params r Hwf Hr), (record_key_first _ v bv w rest (body_tiles_nodup _ _ Hwf) Hv Hbv Hmem). congruence. }
  destruct (AnalyzeAllocationConstraints_forbid _ _ _ _ _ _ Hc) as (f & Hf & Hfc).
  pose proof (fold_forbid_records target (sharing_groups r) v op args attrs ty pm pin inputs u _ _ _ Hf Hin Ht Hi Hu) as Hrec.
  unfold recorded_for in Hrec. rewrite Hkey in Hrec. unfold reference_base in Hbu.
  destruct (GetTypeMemRef (GetType u)) as [mu|] eqn:Eu; [|done]. injection Hbu as Hbu. exists (memref_data mu). split.
  - rewrite Hfc, lookup_fmap. destruct (forbidden f !! variable x) as [l|]; [|by apply elem_of_nil in Hrec]. cbn in *.
    change (Some (memref_data mu)) with (memref_data <$> Some mu). rewrite <- Eu.
    apply (list_elem_of_fmap_2 (fun v => memref_data <$> GetTypeMemRef (GetType v))), Hrec.
  - change (data_key (memref_data mu)) with (base_key mu). rewrite Hbu. eapply last_of_base_unique; [apply plan_bases_nodup | done | done].
Qed.
End Apart.

(** ** The property *)

(** C7: From the operators of a body to addresses: when the lifetimes, the constraints and
    the placement of a well_formed body (its tiles with a reference are in a memory) succeed
    and the plan is well-formed (plan_wf: allocations on chip have positive sizes that fit
    64 bits, ordered lifetimes and a base each, relations are in range, recognized pairs
    never live together, reserved ranges end within capacities) and has an allocation on
    chip, the tile a call defines shares no byte of its memory with an input that
    forbidden_inputs lists for the call (of an operator that is not safe in place, at an
    argument its entry names, of a widening cast, in a buffer window), unless the two have
    one allocation; their lifetimes do not matter, and the separation is never given up with
    those of the software pipeline. The memory policy is any that satisfies PolicyLaws
    (aligning rounds up, ordering permutes), as the default one does. *)
Theorem forbidden_inputs_apart `{OpRegistry} `{policy : MemoryAllocatorPolicy} `{!PolicyLaws policy} `{Shuffle}
    func backend target body params r c plan recognized ends mem_size memrefs relative reps reused :
  well_formed body params = true -> (forall v, v ∈ body_tiles body params -> spaced v) ->
  AnalyzeAllocationLifetimes body params = Ok r -> AnalyzeAllocationConstraints func backend target body r = Ok c ->
  BuildDsaAllocationPlan (analysis r) c = Ok plan ->
  plan_wf ends plan (pool_caps mem_size (intervals plan)) recognized -> (exists x, x ∈ intervals plan /\ active x = true) ->
  PlanWithDsaRP plan recognized ends mem_size memrefs relative = Ok (reps, reused) ->
  exists at_ : positive -> Z,
    Forall2 (fun ms p => replaced at_ relative ms.1 p) (placed_memrefs memrefs) reps /\
    forall v op args attrs ty pm pin inputs u bv bu x y,
      (v, Call op args attrs ty pm pin) ∈ assignments body -> is_tile v = true ->
      forbidden_inputs target op args ty = Ok inputs -> u ∈ inputs ->
      var_base v = Some bv -> reference_base u = Some bu -> bv <> bu ->
      x ∈ intervals plan -> y ∈ intervals plan -> base_of_interval x = Some bv -> base_of_interval y = Some bu ->
      active x = true -> active y = true -> memory_space x = memory_space y ->
      disjoint_ranges (at_ bv) (lsize x) (at_ bu) (lsize y).
Proof.
  intros Hwf Hsp Hr Hc Hplan Hpw Hact Hp.
  destruct (AnalyzeAllocationLifetimes_into body params Hwf Hsp) as (a & r' & Hr' & Hai). rewrite Hr in Hr'. injection Hr' as <-.
  destruct (PlanWithDsaRP_placement ends plan recognized mem_size memrefs relative reps reused Hpw Hact Hp)
    as (prepared & solved & sol & Hprep & Hsolved & Hv & Hreps & _).
  exists (address_of prepared sol). split; [done |].
  intros v op args attrs ty pm pin inputs u bv bu x y Hin Ht Hi Hu Hbv Hbu Hne [i Hx]%list_elem_of_lookup [j Hy]%list_elem_of_lookup Hxb Hyb Hax Hay Hs.
  assert (Hij : i <> j) by (intros ->; congruence).
  pose proof (forbidden_recorded func backend target body params a r c plan Hwf Hr Hai Hc Hplan
    v op args attrs ty pm pin inputs u bv bu x i j y Hin Ht Hi Hu Hbv Hbu Hx Hy Hxb Hyb) as Hf.
  destruct (BuildDsaAllocationPlan_parts _ _ _ Hplan) as [_ Hsep].
  destruct (proj2 (plan_entries_spec (analysis r) c (intervals plan) i j x y SemanticNoAlias Hx Hy Hij) (or_introl Hf)) as (s & Hs1 & Hs2 & Hs3).
  rewrite <- Hsep in Hs1.
  apply (intervals_apart ends plan mem_size prepared solved sol i j x y); try done. right. split; [by exists s |]. left.
  intros [_ Hall]. by specialize (Hall s _ Hs1 Hs2 Hs3).
Qed.

(** ** An example *)

Module Examples.
(** The adder is not safe in place. *)
#[local] Instance adder : OpRegistry := fun name =>
  if String.eqb name "tile.add" then Some (MkEntry true false None false [] [] [] None) else None.
#[local] Existing Instance DefaultMemoryAllocatorPolicy.
#[local] Existing Instance DsaSolve.Examples.same_order.

Definition operand_tile := ex_tile 1 41.
Definition sum_tile := ex_tile 2 52.
(** The sum is written where its operand is read for the last time. *)
Definition add_body : Stmt :=
  SeqStmts [AssignStmt operand_tile (ex_call "tile.load" []); AssignStmt sum_tile (ex_call "tile.add" [VarExpr operand_tile]);
    EvalStmt (ex_call "tile.store" [VarExpr sum_tile])].
Definition add_function : FunctionFacts := MkFunction AIC false None.
Definition add_backend : BackendFacts := MkBackend true false.
Definition add_target : Target := MkTarget false None.

Definition add_lifetimes : Lifetimes := match AnalyzeAllocationLifetimes add_body [] with Ok r => r | Err _ => ex_lifetimes end.
Definition add_constraints : AllocationConstraintAnalysis :=
  match AnalyzeAllocationConstraints add_function add_backend add_target add_body add_lifetimes with Ok c => c | Err _ => no_constraints end.
Definition add_plan : AllocationPlan := match BuildDsaAllocationPlan (analysis add_lifetimes) add_constraints with Ok p => p | Err _ => MkPlan [] [] end.

Example add_plan_is : add_plan = MkPlan [ex_interval 1 41 0 1; ex_interval 2 52 1 2] [MkAllocSeparation 0 1 [SemanticNoAlias]].
Proof. vm_compute. reflexivity. Qed.

Lemma add_wf : plan_wf ∅ add_plan (pool_caps (Some (fun _ => 512)) (intervals add_plan)) [].
Proof.
  rewrite add_plan_is. cbn [intervals]. apply simple_wf; [lia64 | | | by vm_compute | | by vm_compute].
  - repeat (apply Forall_cons_2; [split; [unfold interval_ok; cbn; lia | by eexists | done | by vm_compute | by vm_compute] |]). constructor.
  - vm_compute. apply (bool_decide_unpack _). vm_compute. exact I.
  - apply Forall_cons_2; [split; cbn; [by eexists | by eexists | lia | done] | constructor].
Qed.

Definition add_memrefs : list (MemRef * MemorySpace) := omap (fun v => (fun m => (m, Vec)) <$> tile_memref v) (body_tiles add_body []).
Definition add_relative : RelativeMemRefOffsets := list_to_map (map (fun ms => (memref_id ms.1, ConstInt 0 INT64)) add_memrefs).
Definition add_placed : list (positive * MemRefData) * nat :=
  match PlanWithDsaRP add_plan [] ∅ (Some (fun _ => 512)) add_memrefs add_relative with Ok r => r | Err _ => ([], 0%nat) end.

Lemma forbidden_inputs_apart_witness : exists at_ : positive -> Z, disjoint_ranges (at_ 52%positive) 64 (at_ 41%positive) 64.
Proof.
  destruct (forbidden_inputs_apart add_function add_backend add_target add_body [] add_lifetimes add_constraints add_plan [] ∅
    (Some (fun _ => 512)) add_memrefs add_relative add_placed.1 add_placed.2) as (at_ & _ & H).
  - vm_compute. reflexivity.
  - intros v Hv _. vm_compute in Hv. repeat (apply elem_of_cons in Hv as [->|Hv]; [do 3 eexists; reflexivity |]). by apply elem_of_nil in Hv.
  - vm_compute. reflexivity.
  - vm_compute. reflexivity.
  - vm_compute. reflexivity.
  - exact add_wf.
  - rewrite add_plan_is. exists (ex_interval 1 41 0 1). split; [left | reflexivity].
  - vm_compute. reflexivity.
  - exists at_. apply (H sum_tile (MkOp "tile.add" false) [VarExpr operand_tile] [] OtherType EmptyString false [operand_tile] operand_tile
      52%positive 41%positive (ex_interval 2 52 1 2) (ex_interval 1 41 0 1)); try reflexivity; try discriminate.
    + right. left.
    + left.
    + rewrite add_plan_is. right. left.
    + rewrite add_plan_is. left.
Defined.
End Examples.
