(* ===== verification/Membership.v ===== *)
(** * Pipeline memberships

    [AppendPipelineMembership] and [ParsePipelineMembership] of
    [transforms/utils/attrs.h], modelled in [Lifetime], undo each other: a decimal
    number reads back as itself, and pieces come apart where they were joined. *)

From Stdlib Require Import ZArith NArith Lia Bool List String Ascii.
From stdpp Require Import base gmap list option strings pretty.
From S2P Require Import Prelude Dtype ScalarExpr Lifetime.

#[local] Open Scope Z_scope.

(** ** Digits *)

Lemma digit_char x : (x < 10)%N -> is_digit (pretty_N_char x) = true /\ Z.of_nat (nat_of_ascii (pretty_N_char x)) - 48 = Z.of_N x.
Proof.
  intros Hx. assert (H : (x = 0 \/ x = 1 \/ x = 2 \/ x = 3 \/ x = 4 \/ x = 5 \/ x = 6 \/ x = 7 \/ x = 8 \/ x = 9)%N) by lia.
  by repeat destruct H as [->|H]; [..|subst x].
Qed.

(** Reading the digits of a number gives the number. *)
Lemma take_digits_number x : forall s, take_digits 0 (pretty_N_go x s) = take_digits (Z.of_N x) s.
Proof.
  induction (N.lt_wf_0 x) as [x _ IH]. intros s. destruct (N.eq_dec x 0%N) as [->|Hx]; [by rewrite pretty_N_go_0 |].
  rewrite pretty_N_go_step by lia. rewrite IH by (apply N.div_lt; lia). cbn [take_digits].
  destruct (digit_char (x `mod` 10)%N) as [-> Hv]; [apply N.mod_lt; lia |]. rewrite Hv. f_equal.
  rewrite N2Z.inj_div, N2Z.inj_mod. pose proof (Z.div_mod (Z.of_N x) 10). lia.
Qed.

Fixpoint all_chars (P : ascii -> bool) (s : string) : bool :=
  match s with String a s' => P a && all_chars P s' | EmptyString => true end.

Lemma all_chars_number P x : (forall a, is_digit a = true -> P a = true) -> forall s, all_chars P s = true -> all_chars P (pretty_N_go x s) = true.
Proof.
  intros HP. induction (N.lt_wf_0 x) as [x _ IH]. intros s Hs. destruct (N.eq_dec x 0%N) as [->|Hx]; [by rewrite pretty_N_go_0 |].
  rewrite pretty_N_go_step by lia. apply IH; [apply N.div_lt; lia |]. cbn [all_chars].
  destruct (digit_char (x `mod` 10)%N) as [Hd _]; [apply N.mod_lt; lia |]. by rewrite (HP _ Hd).
Qed.

Lemma number_nonempty x : (0 < x)%N -> forall s, exists a s', pretty_N_go x s = String a s'.
Proof.
  induction (N.lt_wf_0 x) as [x _ IH]. intros Hx s. rewrite pretty_N_go_step by done.
  destruct (N.eq_dec (x `div` 10)%N 0%N) as [->|Hq]; [rewrite pretty_N_go_0; eauto |].
  apply IH; [apply N.div_lt; lia | by apply N.neq_0_lt_0].
Qed.

(** A number in decimals: not empty, all digits, and what it reads as. *)
Lemma pretty_N_spec x : exists a s, pretty x = String a s /\ all_chars is_digit (String a s) = true /\ take_digits 0 (String a s) = (Z.of_N x, EmptyString).
Proof.
  unfold pretty, pretty_N. case_decide as E; [subst x; by eexists _, _ |].
  destruct (number_nonempty x ltac:(lia) EmptyString) as (a & s & Ex). exists a, s. rewrite <- Ex. split_and!; [done | | ].
  - by apply all_chars_number.
  - by rewrite take_digits_number.
Qed.

Lemma digit_plain a : is_digit a = true -> is_space a = false /\ a <> "-"%char /\ a <> "+"%char.
Proof.
  unfold is_digit, is_space. intros [H1 H2]%andb_true_iff. split; [lia |]. split; intros ->; by vm_compute in H1.
Qed.

(** [stol] undoes [to_string]. *)
Lemma stol_pretty z : in_int64 z = true -> stol (pretty z) = Some z.
Proof.
  intros Hz. assert (Hr : (INT64_MIN <=? z) && (z <=? INT64_MAX) = true) by (unfold in_int64 in Hz; done).
  assert (Hpos : forall x, z = Z.of_N x -> stol (pretty x) = Some z).
  { intros x ->. destruct (pretty_N_spec x) as (a & s & -> & Hd & Ht). pose proof Hd as [Ha _]%andb_true_iff.
    destruct (digit_plain a Ha) as (Hs & H1 & H2). unfold stol. cbn [skip_spaces]. rewrite Hs.
    destruct a as [[] [] [] [] [] [] [] []]; try done; cbn [is_digit] in *; rewrite ?Ha, Ht; by rewrite Hr. }
  destruct z as [|p|p].
  - by apply (Hpos 0%N).
  - by apply (Hpos (N.pos p)).
  - change (pretty (Z.neg p)) with (String "-" (pretty (N.pos p))).
    destruct (pretty_N_spec (N.pos p)) as (a & s & -> & Hd & Ht). pose proof Hd as [Ha _]%andb_true_iff.
    unfold stol. cbn [skip_spaces is_space]. change (is_space "-") with false. cbn iota. rewrite Ha, Ht. cbn [Z.of_N]. change (- Z.pos p) with (Z.neg p). by rewrite Hr.
Qed.

(** ** Joining and splitting *)

Lemma all_chars_app P s t : all_chars P (s ++ t)%string = all_chars P s && all_chars P t.
Proof. induction s as [|a s IH]; [done |]. simpl. by rewrite IH, andb_assoc. Qed.

(** Without separator there is one piece. *)
Lemma split_on_plain c s : all_chars (fun a => negb (Ascii.eqb a c)) s = true -> split_on c s = [s].
Proof.
  induction s as [|a s IH]; [done |]. cbn [all_chars split_on]. intros [Ha%negb_true_iff Hs]%andb_true_iff. by rewrite Ha, (IH Hs).
Qed.

Lemma split_on_nonempty c s : split_on c s <> [].
Proof. destruct s as [|a s]; [done |]. cbn. destruct (Ascii.eqb a c); [done | by destruct (split_on c s)]. Qed.

Lemma split_on_joined c s t : split_on c (s ++ String c t)%string = split_on c s ++ split_on c t.
Proof.
  induction s as [|a s IH]; [change (split_on c (String c t) = [EmptyString] ++ split_on c t); cbn [split_on]; by rewrite Ascii.eqb_refl |].
  change (String a s ++ String c t)%string with (String a (s ++ String c t)%string). cbn [split_on]. rewrite IH.
  destruct (Ascii.eqb a c); [done |]. pose proof (split_on_nonempty c s). by destruct (split_on c s).
Qed.

Lemma cut_at_joined c s t : all_chars (fun a => negb (Ascii.eqb a c)) s = true -> cut_at c (s ++ String c t)%string = Some (s, t).
Proof.
  induction s as [|a s IH]; [intros _; change (cut_at c (String c t) = Some (EmptyString, t)); cbn [cut_at]; by rewrite Ascii.eqb_refl |].
  change (String a s ++ String c t)%string with (String a (s ++ String c t)%string). cbn [cut_at all_chars].
  intros [Ha%negb_true_iff Hs]%andb_true_iff. by rewrite Ha, (IH Hs).
Qed.

(** A number holds no separator. *)
Lemma pretty_plain c (z : Z) : is_digit c = false -> c <> "-"%char -> all_chars (fun a => negb (Ascii.eqb a c)) (pretty z) = true.
Proof.
  intros Hc Hm. assert (Hd : forall a, is_digit a = true -> negb (Ascii.eqb a c) = true).
  { intros a Ha. apply negb_true_iff, Ascii.eqb_neq. congruence. }
  assert (Hn : forall x : N, all_chars (fun a => negb (Ascii.eqb a c)) (pretty x) = true).
  { intros x. unfold pretty, pretty_N. case_decide; [|by apply all_chars_number]. cbn [all_chars]. by rewrite Hd. }
  destruct z as [|p|p]; [exact (Hn 0%N) | exact (Hn (N.pos p)) |].
  change (pretty (Z.neg p)) with (String "-" (pretty (N.pos p))). cbn [all_chars]. rewrite (Hn (N.pos p)), andb_true_r.
  by apply negb_true_iff, Ascii.eqb_neq.
Qed.

(** ** The round trip *)

Definition in_int32 (z : Z) : Prop := - 2 ^ 31 <= z < 2 ^ 31.

Lemma try_parse_int_pretty z : in_int32 z -> try_parse_int (pretty z) = Some z.
Proof.
  intros Hz. unfold in_int32 in Hz. unfold try_parse_int. rewrite stol_pretty by (unfold in_int64; lia64). cbn. f_equal.
  by apply wrap_signed_id.
Qed.

Lemma parse_pair_pretty group stage : in_int32 group -> in_int32 stage ->
  parse_pair (pretty group ++ String ":" (pretty stage))%string = Some (group, stage).
Proof.
  intros Hg Hs. unfold parse_pair. rewrite cut_at_joined by by apply pretty_plain. cbn.
  by rewrite (try_parse_int_pretty group Hg), (try_parse_int_pretty stage Hs).
Qed.

Lemma Append_parses packed group stage : in_int32 group -> in_int32 stage ->
  ParsePipelineMembership (AppendPipelineMembership packed group stage) = ParsePipelineMembership packed ++ [(group, stage)].
Proof.
  intros Hg Hs. unfold ParsePipelineMembership, AppendPipelineMembership. change (":" ++ pretty stage)%string with (String ":" (pretty stage)).
  set (pair := (pretty group ++ String ":" (pretty stage))%string).
  assert (Hpair : omap parse_pair (split_on ";" pair) = [(group, stage)]).
  { rewrite split_on_plain; [cbn [omap list_omap]; unfold pair; by rewrite (parse_pair_pretty group stage Hg Hs) |].
    unfold pair. rewrite all_chars_app. cbn [all_chars]. by rewrite !pretty_plain. }
  destruct (String.eqb_spec packed EmptyString) as [->|_]; [done |].
  change (";" ++ pair)%string with (String ";" pair). by rewrite split_on_joined, omap_app, Hpair.
Qed.

(** C39: A pipeline membership survives the round trip: appending int32_t pairs to a packed
    string, whatever it holds, and parsing the result gives the pairs of the string followed
    by the appended ones, in order; numbers are printed in decimal and read back by stol, a
    malformed token of the string is skipped as before. *)
Theorem Membership_roundtrip packed pairs :
  Forall (fun gs => in_int32 gs.1 /\ in_int32 gs.2) pairs ->
  ParsePipelineMembership (foldl (fun packed gs => AppendPipelineMembership packed gs.1 gs.2) packed pairs)
    = ParsePipelineMembership packed ++ pairs.
Proof.
  intros Hp. revert packed. induction Hp as [|[g s] pairs [Hg Hs] _ IH]; intros packed; cbn [foldl]; [by rewrite app_nil_r |].
  rewrite IH, Append_parses by done. by rewrite <- app_assoc.
Qed.

(** Two numbered pairs after a malformed token, which is skipped. *)
Lemma Membership_roundtrip_witness :
  ParsePipelineMembership "x:1;2:-3;2147483647:0;-2147483648:5" = [(2, -3); (2147483647, 0); (-2147483648, 5)] /\
  ParsePipelineMembership (foldl (fun packed gs => AppendPipelineMembership packed gs.1 gs.2) "x:1;2:-3" [(2147483647, 0); (-2147483648, 5)])
    = [(2, -3)] ++ [(2147483647, 0); (-2147483648, 5)].
Proof.
  split; [vm_compute; reflexivity |].
  apply (Membership_roundtrip "x:1;2:-3" [(2147483647, 0); (-2147483648, 5)]).
  repeat (apply Forall_cons_2; [unfold in_int32; cbn; lia |]). apply Forall_nil_2.
Defined.
